(* ===== verification/_CoqProject ===== *)
-Q . S2P
Prelude.v
Effects.v
Block.v
CheckPoint.v
CheckPointFacts.v
CheckPointInsert.v
Samples.v
CheckPointSpec.v
CheckPointEntry.v
LocalChain.v
LocalChainFacts.v
LocalChainSpec.v
MergeFacts.v
MergeLoop.v
MergeSpec.v
Tx.v
TxGraph.v
TxGraphFacts.v
TxGraphFold.v
TxSamples.v
TxGraphSpec.v
TxWalk.v
ChainData.v
ChainQuery.v
CanonicalTask.v
CanonicalMarks.v
CanonicalSpec.v
CanonicalReasons.v
CanonicalView.v
CanonicalViewSpec.v
CanonicalBalance.v
SpkIndex.v
SpkSpec.v
IndexedGraph.v
IndexedSpec.v
IndexedSync.v
IndexedSamples.v
SpkIter.v
KeychainIndex.v
KeychainFacts.v
KeychainSpec.v
KeychainOps.v
KeychainReveal.v
KeychainJournal.v
KeychainReload.v
KeychainSamples.v
SpkClient.v
SpkClientSpec.v
Bitcoind.v
BitcoindSpec.v
BitcoindMempool.v
BitcoindSamples.v
MmrIndex.v
Mmr.v
MwebWire.v
MmrVerify.v
MmrPaths.v
MmrSound.v
BatchSpec.v
MwebCoins.v
MwebCoinSpec.v
MwebKeys.v
MwebTx.v
MwebScan.v
MwebBuild.v
MwebAnchor.v
MwebCodec.v
MwebSync.v
SecpLaws.v
MwebScanSpec.v
MwebBuildSpec.v
MwebSamples.v
MwebSyncData.v
MwebSyncFacts.v
MwebSyncSpec.v
MwebSyncer.v
MwebSyncerSpec.v
MwebPool.v
MwebSyncSamples.v
FileStore.v
