(* ===== verification/Prelude.v ===== *)
(** * A verification library for the LitecoinDevKit fork of BDK

    The repository is a Rust workspace of wallet building blocks.  This
    development models its core: the sparse block chain a wallet trusts
    ([crates/core], [crates/chain/src/local_chain.rs]), the graph of the
    transactions it has heard of ([crates/chain/src/tx_graph.rs]), and
    canonicalization, which decides from both which transactions count
    ([canonical_task.rs], [canonical_view_task.rs], [canonical.rs] of
    [crates/chain/src]).  A wallet feeds updates into the chain and the graph,
    persists the change sets they return, and queries a canonical view for
    unspent outputs and a balance.  An index of watched scripts is kept in step
    with the graph ([indexed_tx_graph.rs], [indexer/spk_txout.rs]), and over it
    an index of descriptors reveals scripts and looks ahead of the revealed
    ones ([indexer/keychain_txout.rs]).  For the
    Litecoin extension blocks, [crates/mweb/src] verifies what an untrusted
    peer sends against the accumulator root of a header, recognises the coins
    of the wallet and keeps them in a database.

    ** Conventions

    - A method taking [&mut self] returns the state it leaves behind, next to
      its result; a [Result] is [result] below; a panic is [None].
      [debug_assert]s are left out: the semantics is that of a release build.
    - Unsigned integers are values of [N]; wherever an operation can leave its
      width (checked, saturating or wrapping arithmetic) that is written out.
    - A [BTreeMap] is a [gmap] iterated in ascending key order ([map_iter]), a
      [BTreeSet] a [gset] ([set_iter]); a [HashMap] or [HashSet] is a [gmap] or
      [gset] whose iteration order is a parameter ([Tx.HashOrder]), so that
      the theorems hold for every order.
    - Traits are classes: [Block.ToBlockHash], [Block.Anchor], [Block.Merge]
      with [Block.MergeLaws], [ChainQuery.ChainQuery] with
      [ChainQuery.ChainQueryLaws], against which the driver is proved.
    - The [bitcoin] crate is not part of the repository: its types and
      functions are the fields of the class [Tx.Bitcoin], and the few facts
      relied on (a transaction id commits to prevouts and outputs) are
      [Tx.BitcoinLaws]; [TxSamples] has an instance of both.  So are scripts
      ([SpkIndex.Scripts]), blocks ([IndexedGraph.Blocks]), descriptors
      ([SpkIter.Descriptors], of the [miniscript] crate) and the hash function
      of MWEB ([Mmr.Blake3]).  Randomness is a supply of seeds that is
      part of the state ([MwebKeys.Rand]); the features [zkp] and [persist]
      are taken as on.
    - Peers, header providers, notifiers and the network are classes over a
      state of their own ([MwebSync.MwebUtxoSource], [MwebSyncData.SyncNotifier],
      [MwebPool.PoolWorld]), and so is a node ([Bitcoind.BitcoindRpc]): a theorem for every instance holds for every peer,
      also one that lies.
    - A loop is a function with fuel.  Either the definition supplies fuel that
      is proved to be enough ([CheckPoint], [LocalChain.merge_chains],
      [TxWalk.desc_fuel], [TxWalk.anc_fuel], [CanonicalTask.turns_left];
      [MwebSyncer.SHRINK_FUEL] turns halve a [u16] down to 1, and a download
      takes at most a turn per leaf), or
      the theorem says how much is ([ChainQuery.canonicalize]).

    ** Files

    - [Prelude]: results, machine integers, total orders, ordered maps and
      sets, lists.
    - [Block] ([block_id.rs], [tx_data_traits.rs], [merge.rs]): block ids,
      anchors, the traits.
    - [CheckPoint] ([checkpoint.rs]): the linked list of checkpoints with skip
      pointers.  [CheckPointFacts] gives its invariant [cp_wf] and its abstract
      meaning, the finite map [cp_map] from heights to data;
      [CheckPointInsert] treats [push], [extend] and [insert];
      [CheckPointSpec] states what the operations promise: the accelerated
      walks agree with the plain one, lookups and ranges agree with the map,
      [push], [from_blocks] and [insert] against their contracts, the median
      time past.  [Samples] has small chains for the concrete instances.
    - [CheckPointEntry] ([checkpoint_entry.rs]): placeholders for blocks known
      only by the parent hash of the next.
    - [LocalChain] ([local_chain.rs]): change sets, loading, inserting,
      disconnecting, and [merge_chains] as a state machine with one definition
      per branch of its loop.  [LocalChainFacts] describes applying a change
      set as an action on maps; [LocalChainSpec] has persistence, merging of
      change sets, insertion and disconnection.
    - [MergeFacts], [MergeLoop], [MergeSpec]: [merge_chains] refines an
      abstract specification: it fails exactly when the update does not connect
      or would replace genesis, and otherwise yields the map [merged]; with the
      consequences for [apply_update] and [apply_header].
    - [Tx] ([tx_update.rs]) and [TxGraph] ([tx_graph.rs]): the graph, its
      change sets, every operation and query.  [TxGraphFacts] has the
      invariant [graph_wf]; [TxGraphFold] the effect of batches;
      [TxGraphSpec] that the invariant is kept, that updates are joins,
      idempotent and persistent, that change sets form a monoid, and fees.
    - [TxWalk] ([tx_graph.rs]): [TxAncestors] and [TxDescendants], with the
      closure as a state transformer, and rule induction over their turns.
    - [ChainData] ([chain_data.rs], [balance.rs]): positions, a total order.
    - [ChainQuery] ([chain_query.rs] and [LocalChain::canonicalize]): queries
      and the driver that answers them from a chain.
    - [CanonicalTask] ([canonical_task.rs]): the first phase.
      [CanonicalMarks] proves that marking a transaction either fails, exactly
      on a double spend among its ancestors, with everything undone, or adds
      exactly the transaction and its ancestors, keeping the sets of canonical
      and excluded transactions consistent.  [CanonicalSpec] proves that the
      task is a lawful query and that its output is conflict-free, closed
      under ancestors and complete; [CanonicalReasons] that the reasons
      recorded are sound.
    - [CanonicalView] ([canonical_view_task.rs], [canonical.rs]): the second
      phase and the queries.  [CanonicalViewSpec] proves that positions are
      anchored in the chain, [CanonicalBalance] that listing unspent outputs
      is exact and that the balance loses nothing.

    - [SpkIndex] ([indexer/spk_txout.rs], [indexer.rs], [litecoin_scripts.rs]):
      the index of watched scripts and the outputs paying them, and the trait
      [Indexer] as a class; [SpkSpec] proves its invariant and that it keeps
      the contract [IndexerLaws].  It also has the query of
      [canonical.rs] over it.
    - [IndexedGraph] ([indexed_tx_graph.rs]): the graph with an indexer, for
      any instance of the class.  [IndexedSpec] says what being in step means,
      [IndexedSync] that every operation keeps graph and index in step and
      that the change sets reload both, what batches keep;
      [IndexedSamples] has the instances and the witnesses.
    - [SpkIter] ([spk_iter.rs], [descriptor_ext.rs]): descriptors as a class and
      the iterator over their scripts.  [KeychainIndex]
      ([indexer/keychain_txout.rs]) is the index of keychains; [KeychainFacts]
      has its invariant [keychain_ok], [KeychainSpec] and [KeychainOps] what
      each operation does to it, [KeychainReveal] what a wallet gets from
      them, the iterator over revealed scripts included;
      [KeychainJournal] the change sets, [KeychainReload] loading and the last
      index; [KeychainSamples] has a wallet of toy descriptors.
    - [SpkClient] ([spk_client.rs], and the extension traits of
      [keychain_txout.rs]): the requests chain sources are given and their
      responses.  [SpkClientSpec] proves that a request hands out every item
      once with exact progress, and what a request built from an index asks
      for, and runs both.
    - [Bitcoind] ([crates/bitcoind_rpc/src]): the emitter of blocks and mempool
      transactions and the iterator over matching blocks.  [BitcoindSpec] proves
      that emitted blocks connect whatever the node does, that a node at rest
      is caught up with, and when a local chain can follow;
      [BitcoindMempool] that mempool transactions are not lost, and which blocks
      the filter iterator yields; [BitcoindSamples] has a node with a fork.
    - [FileStore] ([crates/file_store/src]): an append-only file of change sets,
      its round trip and what a torn write leaves; the encoding is the class
      [Bincode].  A store of sets is its sample.
    - [MmrIndex], [Mmr] ([pmmr.rs], [error.rs], [limits.rs]): the shape of the
      pruned Merkle mountain range of MWEB outputs, the range kept in memory,
      leafsets, the positions of a segment's parent hashes.  [MwebWire]
      ([p2p.rs]) has the messages as data and the round trip of leafsets.  [MmrVerify] verifies a batch of outputs against a header;
      [MmrPaths] and [MmrSound] prove that the root it computes determines
      every leaf, [BatchSpec] states what an accepted batch shows.
    - [MwebCoins] ([coin_db.rs], [changeset.rs], [secret.rs]): the coins a
      wallet owns, with reorganisations and persistence; [MwebCoinSpec] proves
      that the store refines the database and that balances are capped sums.

    - [Effects] is the monad of what talks to a world: a state, an error, and no
      value for a panic or a wait that does not end; [wp] is total correctness.
    - [MwebKeys] ([hash.rs], [keys.rs], [crypto.rs], [address.rs]), [MwebTx] (the
      outputs and kernels of [tx_builder.rs]), [MwebScan] ([scan.rs]) and
      [MwebBuild] ([tx_builder.rs]) model keys, scanning and building over the
      curve libraries, the classes [Secp], [Zkp], [Wallet] and [MwSerialize].
      [SecpLaws] has what is relied on of them; [MwebScanSpec] proves that what
      is sent to an address is found by its owner and that what is found is
      genuine, [MwebBuildSpec] that a finished transaction balances; and
      [MwebSamples] has an instance of all the classes and laws.
    - [MwebAnchor] ([p2p.rs]): a header message is tied to a block; the merkle
      blocks are the class [MerkleProofs].  [MwebCodec] ([p2p.rs]): messages as
      bytes, their round trips, and the limits of what is decoded; the encodings
      of the [bitcoin] crate are the classes [WireCodec] and [HeaderCodec].
    - [MwebSync] ([lip0006.rs]): peers as the class [MwebUtxoSource], and
      [sync_mweb_utxos].  [MwebSyncData] has the data and helpers of
      [mweb_sync.rs], [MwebSyncFacts] their meaning; [MwebSyncSpec] proves that
      the synchronisation always ends, and is sound against lying peers.
    - [MwebSyncer] ([mweb_sync.rs]): the differential pass and the tip loops;
      [MwebSyncerSpec] proves that a pass ends, what it leaves when it fails,
      and what holds when it succeeds.  [MwebPool] has the pool of peers and
      why an address is banned.  [MwebSyncSamples] runs passes
      on a concrete block.

    ** What is not modelled

    Formatting, serde and [Drop]; I/O: the Electrum and Esplora
    clients, SQLite, the TCP transport of MWEB peers; ciphers and PSBT maps, which belong to other
    crates; the vendored RPC client.  The keychain index is not an instance of
    [SpkIndex.Indexer], whose operations cannot panic.  Errors of the operating
    system other than those of [FileStore.IoError].

    ** Corners found

    [MergeSpec.merge_shortcut_drops_named_block],
    [MergeSpec.merge_reaches_prev_blockhash_arm],
    [LocalChainSpec.insert_block_mismatch_reports_genesis],
    [TxGraphSpec.persisting_loses_first_seen],
    [CanonicalViewSpec.assumed_parent_of_confirmed_child_is_unconfirmed],
    [IndexedSamples.batch_order_decides_conflicts],
    [IndexedSamples.watched_bridge_output_is_received],
    [KeychainReload.last_index_panics], [KeychainSamples.collision_panics],
    [BitcoindSamples.reorg_below_start_refused],
    [BitcoindSamples.filter_iter_keeps_stale_block],
    [MwebCoinSpec.reappearing_coin_lost_on_reload],
    [MwebSyncSpec.empty_batch_spends_everything],
    [MwebSyncSamples.orphaned_coin_survives],
    [MwebSyncSamples.interrupted_pass_keeps_spent_coin] and
    [MwebSyncSamples.unproven_coin_stays] show, mostly on concrete inputs,
    behaviour that the code's comments do not announce; the theorems'
    hypotheses ([MergeSpec.coherent], [MergeSpec.names_held],
    [MwebCoinSpec.fresh_history]) say where they stay clear of them. *)
From stdpp Require Export base tactics option numbers list gmap sorting fin_maps fin_sets.

Declare Scope bdk_scope.
Delimit Scope bdk_scope with bdk.

(** Preservation lemmas of the components' invariants. *)
Create HintDb bdk.

(** ** Results *)

(** Rust's [Result<A, E>]. *)
Inductive result (E A : Type) : Type :=
| Ok (a : A)
| Err (e : E).
Arguments Ok {E A} a.
Arguments Err {E A} e.

#[export] Instance result_ret {E} : MRet (result E) := λ A a, Ok a.
#[export] Instance result_bind {E} : MBind (result E) :=
  λ A B f r, match r with Ok a => f a | Err e => Err e end.
#[export] Instance result_fmap {E} : FMap (result E) :=
  λ A B f r, match r with Ok a => Ok (f a) | Err e => Err e end.

(** [Result::map_err]. *)
Definition map_err {E E' A} (f : E → E') (r : result E A) : result E' A :=
  match r with Ok a => Ok a | Err e => Err (f e) end.

(** The value of either side, Rust's [let (Ok(x) | Err(x)) = r]. *)
Definition either_side {A} (r : result A A) : A :=
  match r with Ok a | Err a => a end.

#[export] Instance result_eq_dec `{EqDecision E, EqDecision A} :
  EqDecision (result E A).
Proof. solve_decision. Defined.

(** ** Machine integers

    Unsigned integers are values of [N]; every operation that can leave the
    width is written out. *)

Definition U32_MAX : N := 4294967295.
Definition U64_MAX : N := 18446744073709551615.

Definition checked_sub (a b : N) : option N :=
  if (b <=? a)%N then Some (a - b)%N else None.
(** Truncated subtraction of [N] is exactly [saturating_sub]. *)
Definition saturating_sub (a b : N) : N := (a - b)%N.
Definition saturating_add_u32 (a b : N) : N := N.min (a + b) U32_MAX.
Definition wrapping_sub_u32 (a b : N) : N := ((a + 4294967296 - b) mod 4294967296)%N.
Definition checked_mul_u64 (a b : N) : option N :=
  if (a * b <=? U64_MAX)%N then Some (a * b)%N else None.

Definition checked_add_u64 (a b : N) : option N :=
  if (a + b <=? U64_MAX)%N then Some (a + b)%N else None.
(** A shift is refused when its amount is not below the width; bits shifted
    out are lost. *)
Definition checked_shl_u64 (a k : N) : option N :=
  if (k <? 64)%N then Some (N.shiftl a k mod 18446744073709551616)%N else None.

Lemma checked_sub_Some a b c :
  checked_sub a b = Some c ↔ (b ≤ a ∧ c = a - b)%N.
Proof.
  unfold checked_sub. destruct (N.leb_spec b a); split; intros H'.
  - by simplify_eq.
  - by destruct H' as [_ ->].
  - done.
  - lia.
Qed.

Lemma checked_sub_None a b : checked_sub a b = None ↔ (a < b)%N.
Proof. unfold checked_sub. destruct (N.leb_spec b a); split; try done; lia. Qed.

(** ** Total orders, for the keys of ordered collections *)

Class TotalOrd (K : Type) := {
  tle : relation K;
  tle_dec :: RelDecision tle;
  tle_trans :: Transitive tle;
  tle_antisymm :: AntiSymm (=) tle;
  tle_total :: Total tle;
}.

Definition tlt `{TotalOrd K} (a b : K) : Prop := tle a b ∧ a ≠ b.

(** The order of the keys of an ordered collection. *)
Notation "a ≼ b" := (tle a b) (at level 70, no associativity) : bdk_scope.
Notation "a ≺ b" := (tlt a b) (at level 70, no associativity) : bdk_scope.

#[export] Instance tlt_dec `{TotalOrd K, EqDecision K} : RelDecision (tlt (K:=K)).
Proof. intros a b. unfold tlt. apply _. Defined.

#[export] Instance N_ord : TotalOrd N := { tle := N.le }.

(** Lexicographic order on pairs, as [derive(Ord)] gives it. *)
Definition lex_le `{TotalOrd A, TotalOrd B} (p q : A * B) : Prop :=
  (tle p.1 q.1 ∧ p.1 ≠ q.1) ∨ (p.1 = q.1 ∧ tle p.2 q.2).

#[export] Instance lex_le_dec `{TotalOrd A, EqDecision A, TotalOrd B} :
  RelDecision (lex_le (A:=A) (B:=B)).
Proof. intros p q. unfold lex_le. apply _. Defined.

#[export, refine] Instance prod_ord `{TotalOrd A, EqDecision A, TotalOrd B} :
  TotalOrd (A * B) := { tle := lex_le }.
Proof.
  - intros [a1 b1] [a2 b2] [a3 b3]; unfold lex_le; simpl.
    intros [[H12 Hn]|[-> H12]] [[H23 Hn']|[-> H23]].
    + left. split; [by etrans|]. intros ->. apply Hn. by apply (anti_symm tle).
    + left. done.
    + left. done.
    + right. split; [done|]. by etrans.
  - intros [a1 b1] [a2 b2]; unfold lex_le; simpl.
    intros [[H12 Hn]|[-> H12]] [[H21 Hn']|[? H21]]; simplify_eq.
    + exfalso. apply Hn. by apply (anti_symm tle).
    + f_equal. by apply (anti_symm tle).
  - intros [a1 b1] [a2 b2]; unfold lex_le; simpl.
    destruct (decide (a1 = a2)) as [->|Hne].
    + destruct (total tle b1 b2); auto.
    + destruct (total tle a1 a2); [left; auto|right; left; auto].
Defined.

#[export] Instance tle_refl `{TotalOrd K} : Reflexive (tle (K:=K)).
Proof. intros x. by destruct (total tle x x). Qed.

Lemma tlt_trans `{TotalOrd K} (a b c : K) : tlt a b → tlt b c → tlt a c.
Proof.
  intros [H1 N1] [H2 N2]. split; [by etrans|].
  intros ->. apply N1. by apply (anti_symm tle).
Qed.

Lemma tlt_tle_trans `{TotalOrd K} (a b c : K) : tlt a b → tle b c → tlt a c.
Proof.
  intros [H1 N1] H2. split; [by etrans|].
  intros ->. apply N1. by apply (anti_symm tle).
Qed.

Lemma tlt_irrefl `{TotalOrd K} (a : K) : ¬ tlt a a.
Proof. by intros [_ ?]. Qed.

Lemma tlt_N (a b : N) : tlt a b ↔ (a < b)%N.
Proof. unfold tlt, tle; simpl. lia. Qed.

Lemma not_tle_tlt `{TotalOrd K} (a b : K) : ¬ tle a b → tlt b a.
Proof.
  intros Hn. split; [by destruct (total tle a b)|]. intros ->. by apply Hn.
Qed.

(** ** Ordered maps and sets

    A [BTreeMap<K, V>] is a [gmap K V] together with the ascending order of its
    keys in which the code iterates it; a [BTreeSet<K>] is a [gset K]. *)

Section ordered_collections.
Context `{TotalOrd K, EqDecision K, !Countable K}.

Definition key_le {V} : relation (K * V) := λ p q, tle p.1 q.1.
Definition key_lt {V} : relation (K * V) := λ p q, tlt p.1 q.1.

#[local] Instance key_le_dec {V} : RelDecision (key_le (V:=V)).
Proof. intros p q. unfold key_le. apply _. Defined.
#[local] Instance key_le_trans {V} : Transitive (key_le (V:=V)).
Proof. intros p q r. unfold key_le. apply transitivity. Qed.
#[local] Instance key_le_total {V} : Total (key_le (V:=V)).
Proof. intros p q. apply (total tle). Qed.

(** [BTreeMap::iter]: ascending key order. *)
Definition map_iter {V} (m : gmap K V) : list (K * V) :=
  merge_sort key_le (map_to_list m).

(** [BTreeSet::iter]: ascending order. *)
Definition set_iter (s : gset K) : list K := merge_sort tle (elements s).

Lemma map_iter_perm {V} (m : gmap K V) : map_iter m ≡ₚ map_to_list m.
Proof. apply merge_sort_Permutation. Qed.

Lemma elem_of_map_iter {V} (m : gmap K V) k v :
  (k, v) ∈ map_iter m ↔ m !! k = Some v.
Proof. by rewrite map_iter_perm, elem_of_map_to_list. Qed.

Lemma NoDup_map_iter {V} (m : gmap K V) : NoDup (map_iter m).*1.
Proof. rewrite map_iter_perm. apply NoDup_fst_map_to_list. Qed.

Lemma StronglySorted_key_lt {V} (l : list (K * V)) :
  StronglySorted key_le l → NoDup l.*1 → StronglySorted key_lt l.
Proof.
  induction 1 as [|p l Hl IH Hp]; simpl; intros Hnd; [constructor|].
  apply NoDup_cons in Hnd as [Hnin Hnd].
  constructor; [auto|]. apply Forall_forall. intros q Hq. split.
  - by eapply Forall_forall in Hp.
  - intros Heq. apply Hnin. rewrite Heq. by apply list_elem_of_fmap_2.
Qed.

Lemma map_iter_sorted {V} (m : gmap K V) : StronglySorted key_lt (map_iter m).
Proof.
  apply StronglySorted_key_lt; [|apply NoDup_map_iter].
  apply (StronglySorted_merge_sort key_le).
Qed.

Lemma key_lt_sorted_unique {V} (l1 l2 : list (K * V)) :
  StronglySorted key_lt l1 → StronglySorted key_lt l2 → l1 ≡ₚ l2 → l1 = l2.
Proof.
  intros H1 H2. apply (StronglySorted_unique_strong key_lt); auto.
  intros x y _ _ [? Hn] [? Hn']. destruct Hn. by apply (anti_symm tle).
Qed.

Lemma key_lt_sorted_NoDup {V} (l : list (K * V)) :
  StronglySorted key_lt l → NoDup l.*1.
Proof.
  induction 1 as [|p l Hl IH Hp]; simpl; constructor; [|done].
  intros (q & Heq & Hq)%list_elem_of_fmap. eapply Forall_forall in Hp; [|done].
  destruct Hp as [_ Hne]. congruence.
Qed.

(** The iteration order is determined by the contents. *)
Lemma map_iter_unique {V} (m : gmap K V) (l : list (K * V)) :
  StronglySorted key_lt l → (∀ k v, (k, v) ∈ l ↔ m !! k = Some v) →
  map_iter m = l.
Proof.
  intros Hs Hl. apply key_lt_sorted_unique; [apply map_iter_sorted|done|].
  apply NoDup_Permutation.
  - eapply NoDup_fmap_1, NoDup_map_iter.
  - by eapply NoDup_fmap_1, key_lt_sorted_NoDup.
  - intros [k v]. by rewrite elem_of_map_iter, Hl.
Qed.

Lemma list_to_map_map_iter {V} (m : gmap K V) : list_to_map (map_iter m) = m.
Proof.
  etrans; [|apply list_to_map_to_list]. apply list_to_map_proper; [apply NoDup_map_iter|].
  apply map_iter_perm.
Qed.

Lemma map_iter_list_to_map {V} (l : list (K * V)) :
  StronglySorted key_lt l → map_iter (list_to_map l) = l.
Proof.
  intros Hs. apply map_iter_unique; [done|]. intros k v.
  by rewrite elem_of_list_to_map by (by apply key_lt_sorted_NoDup).
Qed.

Lemma map_iter_empty {V} : map_iter (∅ : gmap K V) = [].
Proof. unfold map_iter. by rewrite map_to_list_empty. Qed.

Lemma map_iter_nil {V} (m : gmap K V) : map_iter m = [] ↔ m = ∅.
Proof.
  split; [|intros ->; apply map_iter_empty].
  intros Heq. apply map_to_list_empty_iff. apply Permutation_nil.
  by rewrite <-Heq, map_iter_perm.
Qed.

Lemma set_iter_perm (s : gset K) : set_iter s ≡ₚ elements s.
Proof. apply merge_sort_Permutation. Qed.

Lemma elem_of_set_iter (s : gset K) x : x ∈ set_iter s ↔ x ∈ s.
Proof. by rewrite set_iter_perm, elem_of_elements. Qed.

Lemma set_iter_sorted (s : gset K) : StronglySorted tle (set_iter s).
Proof. apply (StronglySorted_merge_sort tle). Qed.

Lemma NoDup_set_iter (s : gset K) : NoDup (set_iter s).
Proof. rewrite set_iter_perm. apply NoDup_elements. Qed.

Lemma set_iter_nil (s : gset K) : set_iter s = [] ↔ s = ∅.
Proof.
  split.
  - intros Heq. apply leibniz_equiv, elements_empty_inv, Permutation_nil.
    by rewrite <-Heq, set_iter_perm.
  - intros ->. unfold set_iter. by rewrite elements_empty.
Qed.

(** The greatest element, [iter().last()] of the code. *)
Definition set_last (s : gset K) : option K := last (set_iter s).

Lemma set_last_spec (s : gset K) x :
  set_last s = Some x ↔ x ∈ s ∧ ∀ y, y ∈ s → tle y x.
Proof.
  unfold set_last. split.
  - intros Hl. destruct (proj1 (last_Some _ _) Hl) as [l' Heq].
    split.
    + rewrite <-elem_of_set_iter, Heq. set_solver.
    + intros y Hy. rewrite <-elem_of_set_iter, Heq in Hy.
      apply elem_of_app in Hy as [Hy|Hy%list_elem_of_singleton]; [|by subst].
      pose proof (set_iter_sorted s) as Hs. rewrite Heq in Hs.
      eapply StronglySorted_app_1_elem_of in Hs; [exact Hs|done|set_solver].
  - intros [Hx Hmax]. destruct (last (set_iter s)) as [z|] eqn:Hl.
    + destruct (proj1 (last_Some _ _) Hl) as [l' Heq].
      rewrite <-elem_of_set_iter, Heq in Hx.
      apply elem_of_app in Hx as [Hx|Hx%list_elem_of_singleton]; [|by subst].
      f_equal. apply (anti_symm tle).
      * apply Hmax. rewrite <-elem_of_set_iter, Heq. set_solver.
      * pose proof (set_iter_sorted s) as Hs. rewrite Heq in Hs.
        eapply StronglySorted_app_1_elem_of in Hs; [exact Hs|done|set_solver].
    + apply last_None in Hl. apply set_iter_nil in Hl. set_solver.
Qed.
End ordered_collections.

(** ** Ranges of integers *)

(** [lo..hi]. *)
Definition range_exclusive (lo hi : N) : list N :=
  (λ i, (lo + N.of_nat i)%N) <$> seq 0 (N.to_nat (hi - lo)).
(** [lo..=hi]. *)
Definition range_inclusive (lo hi : N) : list N := range_exclusive lo (hi + 1).

Lemma elem_of_range_exclusive lo hi x : x ∈ range_exclusive lo hi ↔ (lo ≤ x < hi)%N.
Proof.
  unfold range_exclusive. rewrite list_elem_of_fmap. setoid_rewrite elem_of_seq. split.
  - intros (i & -> & Hi). lia.
  - intros H. exists (N.to_nat (x - lo)). lia.
Qed.

Lemma elem_of_range_inclusive lo hi x : x ∈ range_inclusive lo hi ↔ (lo ≤ x ≤ hi)%N.
Proof. unfold range_inclusive. rewrite elem_of_range_exclusive. lia. Qed.

Lemma length_range_exclusive lo hi : length (range_exclusive lo hi) = N.to_nat (hi - lo).
Proof. unfold range_exclusive. by rewrite length_fmap, length_seq. Qed.

Lemma lookup_range_exclusive lo hi i :
  (i < N.to_nat (hi - lo))%nat → range_exclusive lo hi !! i = Some (lo + N.of_nat i)%N.
Proof.
  intros Hi. unfold range_exclusive. by rewrite list_lookup_fmap, lookup_seq_lt.
Qed.

(** ** Filters *)

Section filters.
Context {A : Type} (P : A → Prop) `{!∀ x, Decision (P x)}.

Lemma filter_none (l : list A) : (∀ x, x ∈ l → ¬ P x) → filter P l = [].
Proof.
  induction l as [|x l IH]; intros Hall; [done|].
  rewrite filter_cons_False by (apply Hall; set_solver). apply IH. set_solver.
Qed.

Lemma filter_all (l : list A) : (∀ x, x ∈ l → P x) → filter P l = l.
Proof.
  induction l as [|x l IH]; intros Hall; [done|].
  rewrite filter_cons_True by (apply Hall; set_solver). f_equal. apply IH. set_solver.
Qed.
End filters.

Lemma rev_reverse {A} (l : list A) : rev l = reverse l.
Proof. apply rev_alt. Qed.

Lemma StronglySorted_lookup {A} (R : relation A) l i j a b :
  StronglySorted R l → l !! i = Some a → l !! j = Some b → (i < j)%nat → R a b.
Proof.
  intros Hs. revert i j. induction Hs as [|x l Hs IH Hx]; intros i j; [done|].
  destruct i as [|i], j as [|j]; simpl; intros Hi Hj Hij; try lia.
  - simplify_eq. eapply Forall_forall in Hx; [done|]. by eapply list_elem_of_lookup_2.
  - eapply IH; [done..|lia].
Qed.

Lemma StronglySorted_filter {A} (R : relation A) (Q : A → Prop) `{!∀ x, Decision (Q x)} l :
  StronglySorted R l → StronglySorted R (filter Q l).
Proof.
  induction 1 as [|x l Hl IH Hx]; [constructor|]. rewrite filter_cons. case_decide; [|done].
  constructor; [done|]. apply Forall_forall. intros y [_ Hy]%list_elem_of_filter.
  rewrite Forall_forall in Hx. auto.
Qed.

Lemma filter_ext_in {A} (P Q : A → Prop) `{!∀ x, Decision (P x), !∀ x, Decision (Q x)}
    (l : list A) :
  (∀ x, x ∈ l → P x ↔ Q x) → filter P l = filter Q l.
Proof.
  induction l as [|x l IH]; intros Hiff; [done|].
  assert (filter P l = filter Q l) as Hl by (apply IH; set_solver).
  destruct (decide (P x)) as [HP|HP].
  - rewrite !filter_cons_True by (try done; apply Hiff; set_solver). by rewrite Hl.
  - rewrite !filter_cons_False; [done| |done]. intros HQ. apply HP, Hiff; set_solver.
Qed.

Lemma StronglySorted_reverse {A} (R : relation A) l :
  StronglySorted R l → StronglySorted (flip R) (reverse l).
Proof.
  induction 1 as [|x l Hl IH Hx]; [constructor|]. rewrite reverse_cons.
  apply StronglySorted_app_2; [|done|repeat constructor].
  intros y z Hy ->%list_elem_of_singleton. rewrite elem_of_reverse in Hy.
  eapply Forall_forall in Hx; [exact Hx|done].
Qed.

Lemma StronglySorted_weaken {A} (R S : relation A) l :
  (∀ x y, R x y → S x y) → StronglySorted R l → StronglySorted S l.
Proof.
  intros HRS. induction 1 as [|x l Hl IH Hx]; constructor; [done|].
  eapply Forall_impl; [done|]. auto.
Qed.

(** ** Finite sets *)

Lemma size_difference_insert `{Countable K} (X v : gset K) t :
  t ∈ X → t ∉ v → (S (size (X ∖ ({[t]} ∪ v))) ≤ size (X ∖ v))%nat.
Proof.
  intros HX Hv. assert ({[t]} ∪ X ∖ ({[t]} ∪ v) ⊆ X ∖ v) as Hs%subseteq_size by set_solver.
  assert ({[t]} ## X ∖ ({[t]} ∪ v)) as Hd by set_solver.
  pose proof (size_union (C:=gset K) _ _ Hd) as Hu. rewrite size_singleton in Hu. lia.
Qed.
