(* ===== verification/Effects.v ===== *)
(** * Stateful computations that can fail

    A computation over a state of type [S]: [None] when it panics or does not
    come back, otherwise the [Result] it returns and the state it leaves
    behind, which an error does not undo.  [wp] is its weakest precondition for
    total correctness: the computation comes back and what it returns and
    leaves satisfies the postcondition. *)
From S2P Require Import Prelude.

Definition Eff (S E A : Type) : Type := S → option (result E A * S).

#[export] Instance eff_ret {S E} : MRet (Eff S E) := λ A a s, Some (Ok a, s).
#[export] Instance eff_bind {S E} : MBind (Eff S E) := λ A B f m s,
  match m s with
  | None => None
  | Some (Err e, s) => Some (Err e, s)
  | Some (Ok a, s) => f a s
  end.

(** [?] on a result computed without the state. *)
Definition lift {S E A} (r : result E A) : Eff S E A := λ s, Some (r, s).
(** The same where the computation may panic. *)
Definition lift_panic {S E A} (o : option (result E A)) : Eff S E A := λ s,
  match o with Some r => Some (r, s) | None => None end.
(** A panic, or a loop that goes on forever. *)
Definition hang {S E A} : Eff S E A := λ _, None.
Definition get {S E} : Eff S E S := λ s, Some (Ok s, s).
Definition gets {S E A} (f : S → A) : Eff S E A := λ s, Some (Ok (f s), s).
Definition modify {S E} (f : S → S) : Eff S E unit := λ s, Some (Ok tt, f s).
Definition fail {S E A} (e : E) : Eff S E A := lift (Err e).

(** The result as a value: [match] on a call that may fail. *)
Definition try_ {S E E' A} (m : Eff S E A) : Eff S E' (result E A) := λ s,
  match m s with Some (r, s) => Some (Ok r, s) | None => None end.

(** A computation on a part of the state. *)
Definition zoom {S T E A} (part : S → T) (upd : T → S → S) (m : Eff T E A) : Eff S E A := λ s,
  match m (part s) with Some (r, t) => Some (r, upd t s) | None => None end.
Definition on_fst {S T E A} (m : Eff S E A) : Eff (S * T) E A := zoom fst (λ a p, (a, p.2)) m.
Definition on_snd {S T E A} (m : Eff T E A) : Eff (S * T) E A := zoom snd (λ b p, (p.1, b)) m.

(** A plain state transformer with a result. *)
Definition state_fn {S E A} (f : S → S * result E A) : Eff S E A := λ s,
  let '(s, r) := f s in Some (r, s).

(** [for] with [?] in its body. *)
Fixpoint for_each {S E A} (f : A → Eff S E unit) (l : list A) : Eff S E unit :=
  match l with
  | [] => mret tt
  | a :: l => _ ← f a; for_each f l
  end.

(** ** Successful runs *)

Lemma eff_bind_Ok {S E A B} (m : Eff S E A) (f : A → Eff S E B) s b s' :
  (m ≫= f) s = Some (Ok b, s') ↔ ∃ a s1, m s = Some (Ok a, s1) ∧ f a s1 = Some (Ok b, s').
Proof.
  unfold mbind, eff_bind. destruct (m s) as [[[a|e] s1]|]; split.
  - by eauto.
  - by intros (? & ? & [= -> ->] & ?).
  - done.
  - by intros (? & ? & ? & _).
  - done.
  - by intros (? & ? & ? & _).
Qed.

Lemma lift_Ok {S E A} (r : result E A) (s : S) a s' :
  lift r s = Some (Ok a, s') ↔ r = Ok a ∧ s = s'.
Proof. unfold lift. split; [by intros [= -> ->]|by intros [-> ->]]. Qed.

Lemma mret_Ok {S E A} (a : A) (s : S) b s' :
  mret (M:=Eff S E) a s = Some (Ok b, s') ↔ a = b ∧ s = s'.
Proof. unfold mret, eff_ret. split; [by intros [= -> ->]|by intros [-> ->]]. Qed.

(** ** Weakest preconditions *)

Definition wp {S E A} (m : Eff S E A) (s : S) (Q : result E A → S → Prop) : Prop :=
  ∃ r s', m s = Some (r, s') ∧ Q r s'.

(** A postcondition for the value, another for the error. *)
Definition post {S E A} (Q : A → S → Prop) (R : E → S → Prop) (r : result E A) (s : S) : Prop :=
  match r with Ok a => Q a s | Err e => R e s end.

(** The computation cannot be stopped short of an answer. *)
Definition returns {S E A} (m : Eff S E A) : Prop := ∀ s, is_Some (m s).

Section wp.
Context {S E : Type}.

Lemma wp_mono {A} (m : Eff S E A) s (Q Q' : result E A → S → Prop) :
  wp m s Q → (∀ r s', Q r s' → Q' r s') → wp m s Q'.
Proof. intros (r & s' & Hm & HQ) HQQ. exists r, s'. auto. Qed.

Lemma wp_run {A} (m : Eff S E A) s Q r s' : wp m s Q → m s = Some (r, s') → Q r s'.
Proof. intros (r1 & s1 & Hm & HQ) Heq. congruence. Qed.

Lemma wp_and {A} (m : Eff S E A) s (Q Q' : result E A → S → Prop) :
  wp m s Q → wp m s Q' → wp m s (λ r s', Q r s' ∧ Q' r s').
Proof. intros (r & s' & Hm & HQ) (r1 & s1 & Hm1 & HQ1). exists r, s'. by simplify_eq. Qed.

Lemma wp_mret {A} (a : A) s (Q : result E A → S → Prop) : Q (Ok a) s → wp (mret a) s Q.
Proof. intros HQ. by exists (Ok a), s. Qed.

Lemma wp_lift {A} (r : result E A) s (Q : result E A → S → Prop) : Q r s → wp (lift r) s Q.
Proof. intros HQ. by exists r, s. Qed.

Lemma wp_fail {A} (e : E) s (Q : result E A → S → Prop) : Q (Err e) s → wp (fail e) s Q.
Proof. apply wp_lift. Qed.

Lemma wp_lift_panic {A} (o : option (result E A)) r s (Q : result E A → S → Prop) :
  o = Some r → Q r s → wp (lift_panic o) s Q.
Proof. intros -> HQ. by exists r, s. Qed.

Lemma wp_get s (Q : result E S → S → Prop) : Q (Ok s) s → wp get s Q.
Proof. intros HQ. by exists (Ok s), s. Qed.

Lemma wp_gets {A} (f : S → A) s (Q : result E A → S → Prop) : Q (Ok (f s)) s → wp (gets f) s Q.
Proof. intros HQ. by exists (Ok (f s)), s. Qed.

Lemma wp_modify (f : S → S) s (Q : result E unit → S → Prop) : Q (Ok tt) (f s) → wp (modify f) s Q.
Proof. intros HQ. by exists (Ok tt), (f s). Qed.

Lemma wp_bind {A B} (m : Eff S E A) (f : A → Eff S E B) s (Q : result E B → S → Prop) :
  wp m s (post (λ a s', wp (f a) s' Q) (λ e s', Q (Err e) s')) → wp (m ≫= f) s Q.
Proof.
  intros ([a|e] & s1 & Hm & Hpost); cbn [post] in Hpost.
  - destruct Hpost as (r & s2 & Hf & HQ). exists r, s2. split; [|done].
    unfold mbind, eff_bind. by rewrite Hm.
  - exists (Err e), s1. split; [|done]. unfold mbind, eff_bind. by rewrite Hm.
Qed.

Lemma wp_bind_post {A B} (m : Eff S E A) (f : A → Eff S E B) s (P : A → S → Prop)
    (R : E → S → Prop) (Q : B → S → Prop) :
  wp m s (post P R) → (∀ a s', P a s' → wp (f a) s' (post Q R)) → wp (m ≫= f) s (post Q R).
Proof.
  intros Hm Hf. apply wp_bind. eapply wp_mono; [exact Hm|]. intros [a|e] s'; cbn; auto.
Qed.

Lemma wp_try {E' A} (m : Eff S E A) s (Q : result E' (result E A) → S → Prop) :
  wp m s (λ r s', Q (Ok r) s') → wp (try_ m) s Q.
Proof. intros (r & s' & Hm & HQ). exists (Ok r), s'. split; [|done]. unfold try_. by rewrite Hm. Qed.

Lemma wp_zoom {T A} (part : S → T) upd (m : Eff T E A) s (Q : result E A → S → Prop) :
  wp m (part s) (λ r t, Q r (upd t s)) → wp (zoom part upd m) s Q.
Proof.
  intros (r & t & Hm & HQ). exists r, (upd t s). split; [|done]. unfold zoom. by rewrite Hm.
Qed.

Lemma wp_state_fn {A} (f : S → S * result E A) s (Q : result E A → S → Prop) :
  Q (f s).2 (f s).1 → wp (state_fn f) s Q.
Proof. intros HQ. exists (f s).2, (f s).1. split; [|done]. unfold state_fn. by destruct (f s). Qed.

Lemma wp_total {A} (m : Eff S E A) s (Q : result E A → S → Prop) :
  returns m → (∀ r s', m s = Some (r, s') → Q r s') → wp m s Q.
Proof. intros Ht HQ. destruct (Ht s) as [[r s'] Hm]. exists r, s'. auto. Qed.

(** Rule for [for]: an invariant of the items still to come. *)
Lemma wp_for_each {A} (f : A → Eff S E unit) (I : list A → S → Prop) (R : E → S → Prop) l s :
  I l s → (∀ a l s, I (a :: l) s → wp (f a) s (post (λ _, I l) R)) →
  wp (for_each f l) s (post (λ _, I []) R).
Proof.
  intros HI Hstep. revert s HI. induction l as [|a l IH]; intros s HI; cbn [for_each].
  - by apply wp_mret.
  - eapply wp_bind_post; [by apply Hstep|]. cbn. intros _ s' HI'. by apply IH.
Qed.
End wp.

Lemma wp_on_fst {S T E A} (m : Eff S E A) s t (Q : result E A → S * T → Prop) :
  wp m s (λ r s', Q r (s', t)) → wp (on_fst m) (s, t) Q.
Proof. intros Hm. by apply wp_zoom. Qed.

Lemma wp_on_snd {S T E A} (m : Eff T E A) s t (Q : result E A → S * T → Prop) :
  wp m t (λ r t', Q r (s, t')) → wp (on_snd m) (s, t) Q.
Proof. intros Hm. by apply wp_zoom. Qed.

(** One step of a computation. *)
Ltac wp_step :=
  match goal with
  | |- wp (_ ≫= _) _ _ => apply wp_bind
  | |- wp (mret _) _ _ => apply wp_mret
  | |- wp (lift _) _ _ => apply wp_lift
  | |- wp (fail _) _ _ => apply wp_fail
  | |- wp get _ _ => apply wp_get
  | |- wp (gets _) _ _ => apply wp_gets
  | |- wp (modify _) _ _ => apply wp_modify
  | |- wp (try_ _) _ _ => apply wp_try
  | |- wp (zoom _ _ _) _ _ => apply wp_zoom
  | |- wp (on_fst _) (_, _) _ => apply wp_on_fst
  | |- wp (on_snd _) (_, _) _ => apply wp_on_snd
  | |- wp (state_fn _) _ _ => apply wp_state_fn
  | |- post _ _ (Ok _) _ => cbn [post]
  | |- post _ _ (Err _) _ => cbn [post]
  end.
Ltac wp_steps := repeat (wp_step; cbv beta).
