(* ===== verification/Block.v ===== *)
(** * Block references, anchors and mergeable change sets

    Models [crates/core/src/block_id.rs], [crates/core/src/merge.rs] and
    [crates/chain/src/tx_data_traits.rs].  A 32-byte hash is the number its
    bytes spell in big-endian order, so that the derived [Ord] of the hash
    types is the order of [N]. *)
From S2P Require Import Prelude.

(** ** Block identifiers *)

Definition BlockHash : Type := N.

Record BlockId := mkBlockId { bid_height : N; bid_hash : BlockHash }.

#[export] Instance BlockId_eq_dec : EqDecision BlockId.
Proof. solve_decision. Defined.

Definition BlockId_default : BlockId := mkBlockId 0%N 0%N.
#[export] Instance BlockId_inhabited : Inhabited BlockId := populate BlockId_default.

(** [From<(u32, BlockHash)>] and back. *)
Definition BlockId_from_pair (p : N * BlockHash) : BlockId := mkBlockId p.1 p.2.
Definition BlockId_to_pair (b : BlockId) : N * BlockHash := (bid_height b, bid_hash b).
(** [From<(&u32, &BlockHash)>]: the references are copied. *)
Definition BlockId_from_refs (p : N * BlockHash) : BlockId := mkBlockId p.1 p.2.

Lemma BlockId_pair_from_to b : BlockId_from_pair (BlockId_to_pair b) = b.
Proof. by destruct b. Qed.

#[export] Instance BlockId_from_pair_inj : Inj (=) (=) BlockId_from_pair.
Proof. intros [] []; unfold BlockId_from_pair; cbn. by intros [= -> ->]. Qed.

#[export] Instance BlockId_countable : Countable BlockId.
Proof.
  apply (inj_countable' BlockId_to_pair BlockId_from_pair).
  apply BlockId_pair_from_to.
Defined.

(** A type ordered through an injective key, as [derive(Ord)] on a struct. *)
Section ord_by_key.
Context `{TotalOrd B} {A} (f : A → B) (f_inj : ∀ x y, f x = f y → x = y).

Definition key_order_le (x y : A) : Prop := tle (f x) (f y).
#[local] Instance key_order_dec : RelDecision key_order_le.
Proof. intros x y. unfold key_order_le. apply _. Defined.

Definition ord_by_key : TotalOrd A.
Proof using All.
  refine {| tle := key_order_le |}; unfold key_order_le.
  - intros x y z. apply transitivity.
  - intros x y Hxy Hyx. apply f_inj. by apply (anti_symm tle).
  - intros x y. apply (total tle).
Defined.
End ord_by_key.

(** Derived order: height first, then hash. *)
#[export] Instance BlockId_ord : TotalOrd BlockId.
Proof.
  apply (ord_by_key BlockId_to_pair).
  intros [] []; unfold BlockId_to_pair; simpl. by intros [= -> ->].
Defined.

Lemma BlockId_le_height (a b : BlockId) : tle a b → (bid_height a ≤ bid_height b)%N.
Proof.
  destruct a, b; cbn. unfold key_order_le, tle; cbn. unfold lex_le, tle; cbn. lia.
Qed.

Record ConfirmationBlockTime := mkCBT {
  cbt_block_id : BlockId;
  cbt_confirmation_time : N;
}.

#[export] Instance ConfirmationBlockTime_eq_dec : EqDecision ConfirmationBlockTime.
Proof. solve_decision. Defined.

Definition ConfirmationBlockTime_key (c : ConfirmationBlockTime) : BlockId * N :=
  (cbt_block_id c, cbt_confirmation_time c).

#[export] Instance ConfirmationBlockTime_countable : Countable ConfirmationBlockTime.
Proof.
  apply (inj_countable' ConfirmationBlockTime_key (λ p, mkCBT p.1 p.2)).
  by intros [].
Defined.

#[export] Instance ConfirmationBlockTime_ord : TotalOrd ConfirmationBlockTime.
Proof.
  apply (ord_by_key ConfirmationBlockTime_key).
  intros [] []; unfold ConfirmationBlockTime_key; simpl. by intros [= -> ->].
Defined.

(** ** The [Anchor] trait

    [confirmation_height_upper_bound] has the trait's default unless an
    implementation overrides it. *)
Class Anchor (A : Type) := {
  anchor_block : A → BlockId;
  confirmation_height_upper_bound : A → N;
}.

Definition default_confirmation_height_upper_bound {A} (block : A → BlockId) (a : A) : N :=
  bid_height (block a).

(** What the trait's documentation asks of an implementation: comparing two
    anchors compares their blocks first, and the upper bound grows with the
    anchor. *)
Class AnchorLaws (A : Type) `{Anchor A, TotalOrd A} : Prop := {
  anchor_block_mono : ∀ a b : A, tle a b → tle (anchor_block a) (anchor_block b);
  anchor_height_mono : ∀ a b : A, tle a b →
    (confirmation_height_upper_bound a ≤ confirmation_height_upper_bound b)%N;
}.

#[export] Instance BlockId_anchor : Anchor BlockId := {
  anchor_block := λ b, b;
  confirmation_height_upper_bound := default_confirmation_height_upper_bound (λ b, b);
}.

#[export] Instance ConfirmationBlockTime_anchor : Anchor ConfirmationBlockTime := {
  anchor_block := cbt_block_id;
  confirmation_height_upper_bound := λ c, bid_height (cbt_block_id c);
}.

#[export] Instance BlockId_anchor_laws : AnchorLaws BlockId.
Proof. split; intros a b; [done|]. apply BlockId_le_height. Qed.

Lemma cbt_le_block_id (a b : ConfirmationBlockTime) :
  tle a b → tle (cbt_block_id a) (cbt_block_id b).
Proof.
  destruct a, b. intros [[H _]|[Heq _]].
  - exact H.
  - cbn in Heq. by subst.
Qed.

#[export] Instance ConfirmationBlockTime_anchor_laws : AnchorLaws ConfirmationBlockTime.
Proof.
  split; intros a b H; [by apply cbt_le_block_id|].
  by apply BlockId_le_height, cbt_le_block_id.
Qed.

(** [TxPosInBlock]: the block is a type of the [bitcoin] crate, of which only
    the header time is read. *)
Section tx_pos_in_block.
Context {Block : Type} (block_header_time : Block → N).

Record TxPosInBlock := mkTxPosInBlock {
  tpb_block : Block;
  tpb_block_id : BlockId;
  tpb_tx_pos : N;
}.

Definition BlockId_from_TxPosInBlock (pos : TxPosInBlock) : BlockId := tpb_block_id pos.

Definition ConfirmationBlockTime_from_TxPosInBlock (pos : TxPosInBlock) :
    ConfirmationBlockTime :=
  mkCBT (tpb_block_id pos) (block_header_time (tpb_block pos)).
End tx_pos_in_block.

(** ** The [Merge] trait *)

Class Merge (T : Type) := {
  merge_default : T;
  merge : T → T → T;
  merge_is_empty : T → bool;
}.

(** [Merge::take]: what is returned and what is left behind. *)
Definition merge_take `{Merge T} (t : T) : option T * T :=
  if merge_is_empty t then (None, t) else (Some t, merge_default).

(** The contract of a change set: the default is the empty change, and
    merging is associative. *)
Class MergeLaws (T : Type) `{Merge T} : Prop := {
  merge_empty_iff : ∀ t : T, merge_is_empty t = true ↔ t = merge_default;
  merge_default_l : ∀ t : T, merge merge_default t = t;
  merge_default_r : ∀ t : T, merge t merge_default = t;
  merge_assoc : ∀ a b c : T, merge (merge a b) c = merge a (merge b c);
}.

(** [BTreeMap::extend] overwrites the keys already present. *)
#[export] Instance BTreeMap_merge `{Countable K} {V} : Merge (gmap K V) := {
  merge_default := ∅;
  merge m other := other ∪ m;
  merge_is_empty m := bool_decide (m = ∅);
}.
#[export] Instance BTreeSet_merge `{Countable K} : Merge (gset K) := {
  merge_default := ∅;
  merge s other := s ∪ other;
  merge_is_empty s := bool_decide (s = ∅);
}.
#[export] Instance Vec_merge {T} : Merge (list T) := {
  merge_default := [];
  merge v other := v ++ other;
  merge_is_empty v := match v with [] => true | _ => false end;
}.
#[export] Instance unit_merge : Merge unit := {
  merge_default := tt;
  merge _ _ := tt;
  merge_is_empty _ := true;
}.
(** The tuple macro merges field by field; wider tuples nest pairs. *)
#[export] Instance pair_merge `{Merge T0, Merge T1} : Merge (T0 * T1) := {
  merge_default := (merge_default, merge_default);
  merge p other := (merge p.1 other.1, merge p.2 other.2);
  merge_is_empty p := merge_is_empty p.1 && (merge_is_empty p.2 && true);
}.

#[export] Instance BTreeMap_merge_laws `{Countable K} {V} : MergeLaws (gmap K V).
Proof.
  split; cbn.
  - intros m. by rewrite bool_decide_eq_true.
  - intros m. apply (right_id_L ∅ (∪)).
  - intros m. apply (left_id_L ∅ (∪)).
  - intros a b c. by rewrite (assoc_L (∪)).
Qed.

#[export] Instance BTreeSet_merge_laws `{Countable K} : MergeLaws (gset K).
Proof.
  split; cbn.
  - intros s. by rewrite bool_decide_eq_true.
  - intros s. apply (left_id_L ∅ (∪)).
  - intros s. apply (right_id_L ∅ (∪)).
  - intros a b c. by rewrite (assoc_L (∪)).
Qed.

#[export] Instance Vec_merge_laws {T} : MergeLaws (list T).
Proof.
  split; cbn.
  - by intros [|].
  - done.
  - apply app_nil_r.
  - intros a b c. by rewrite (assoc_L (++)).
Qed.

#[export] Instance unit_merge_laws : MergeLaws unit.
Proof. by split; repeat intros []. Qed.

#[export] Instance pair_merge_laws `{MergeLaws T0, MergeLaws T1} : MergeLaws (T0 * T1).
Proof.
  split; cbn.
  - intros [a b]. rewrite andb_true_r, andb_true_iff, !merge_empty_iff; cbn.
    split; [by intros [-> ->]|by intros [= -> ->]].
  - intros [a b]; cbn. by rewrite !merge_default_l.
  - intros [a b]; cbn. by rewrite !merge_default_r.
  - intros [a b] [c d] [e f]; cbn. by rewrite !merge_assoc.
Qed.

(** Merging a taken value onto its default gives the value back. *)
Lemma merge_take_restores `{MergeLaws T} (t : T) :
  match merge_take t with
  | (Some taken, rest) => rest = merge_default ∧ merge rest taken = t
  | (None, rest) => rest = t ∧ t = merge_default
  end.
Proof.
  unfold merge_take. destruct (merge_is_empty t) eqn:He.
  - by rewrite <-merge_empty_iff.
  - split; [done|]. apply merge_default_l.
Qed.
