(* ===== verification/CheckPoint.v ===== *)
(** * Checkpoint chains with skip pointers

    Models [crates/core/src/checkpoint.rs].  A [CheckPoint<D>] is an [Arc] to
    an immutable node; the node is a value here, and an [Arc] clone is the same
    value.  [cp_prev] and [cp_skip] are subterms, so every walk towards the
    base is structural and needs no fuel.

    A [None] of [ancestor_by_index] is the panic of its [expect]. *)
From S2P Require Import Prelude Block.
#[local] Open Scope N_scope.

(** ** Skip indices *)

(** Clears the lowest set bit, with the wrapping subtraction of [u32]. *)
Definition invert_lowest_one (n : N) : N := N.land n (wrapping_sub_u32 n 1).

Definition skip_index (i : N) : N :=
  if i <? 2 then 0
  else if N.land i 1 =? 0 then invert_lowest_one i
  else invert_lowest_one (invert_lowest_one (i - 1)) + 1.

(** ** Nodes *)

Inductive CPInner (D : Type) : Type := mkCP {
  cp_block_id : BlockId;
  cp_data : D;
  cp_prev : option (CPInner D);
  cp_skip : option (CPInner D);
  cp_index : N;
}.
Arguments mkCP {D}.
Arguments cp_block_id {D}.
Arguments cp_data {D}.
Arguments cp_prev {D}.
Arguments cp_skip {D}.
Arguments cp_index {D}.

Notation CheckPoint := CPInner.

(** [ToBlockHash]; the trait's default for [prev_blockhash] is [None]. *)
Class ToBlockHash (D : Type) := {
  to_blockhash : D → BlockHash;
  prev_blockhash : D → option BlockHash;
}.

#[export] Instance BlockHash_ToBlockHash : ToBlockHash BlockHash := {
  to_blockhash h := h;
  prev_blockhash _ := None;
}.

(** [bitcoin::block::Header]: the hash function and the fields belong to the
    [bitcoin] crate. *)
Class BlockHeader (H : Type) := {
  header_block_hash : H → BlockHash;
  header_prev_blockhash : H → BlockHash;
  header_time : H → N;
}.

Definition Header_ToBlockHash `{BlockHeader H} : ToBlockHash H := {|
  to_blockhash := header_block_hash;
  prev_blockhash h := Some (header_prev_blockhash h);
|}.

Class ToBlockTime (D : Type) := to_blocktime : D → N.

Definition Header_ToBlockTime `{BlockHeader H} : ToBlockTime H := header_time.

Section checkpoint.
Context {D : Type}.
Implicit Types cp p : CheckPoint D.

Definition cp_height (cp : CheckPoint D) : N := bid_height (cp_block_id cp).
Definition cp_hash (cp : CheckPoint D) : BlockHash := bid_hash (cp_block_id cp).

(** ** Walks *)

Fixpoint ancestor_by_index (curr : CheckPoint D) (target : N) : option (CheckPoint D) :=
  if target <? cp_index curr then
    let skip_i := skip_index (cp_index curr) in
    let skip_i_prev := skip_index (saturating_sub (cp_index curr) 1) in
    let prev_skip_strictly_better :=
      (saturating_add_u32 skip_i_prev 2 <? skip_i) && (target <=? skip_i_prev) in
    match cp_skip curr with
    | Some skip =>
        if (skip_i =? target) || ((target <? skip_i) && negb prev_skip_strictly_better)
        then ancestor_by_index skip target
        else match cp_prev curr with
             | Some prev => ancestor_by_index prev target
             | None => None
             end
    | None => match cp_prev curr with
              | Some prev => ancestor_by_index prev target
              | None => None
              end
    end
  else Some curr.

(** Whether [walk_to_floor] rides the skip pointer of [curr] to [skip_cp]. *)
Definition take_skip (curr skip_cp : CheckPoint D) (target_height : N) : bool :=
  if cp_height skip_cp <? target_height then false
  else if cp_height skip_cp =? target_height then true
  else match cp_prev curr ≫= cp_skip with
       | Some prev_skip_cp =>
           let prev_skip_h := cp_height prev_skip_cp in
           let skip_gap := saturating_sub (cp_height skip_cp) prev_skip_h in
           negb ((2 <? skip_gap) && (target_height <=? prev_skip_h))
       | None => true
       end.

Fixpoint walk_to_floor (curr : CheckPoint D) (target_height : N) : option (CheckPoint D) :=
  if target_height <? cp_height curr then
    match cp_skip curr with
    | Some skip_cp =>
        if take_skip curr skip_cp target_height
        then walk_to_floor skip_cp target_height
        else match cp_prev curr with
             | Some prev => walk_to_floor prev target_height
             | None => None
             end
    | None => match cp_prev curr with
              | Some prev => walk_to_floor prev target_height
              | None => None
              end
    end
  else Some curr.

(** ** Iteration: the state of a [CheckPointIter] is its [next] node *)

Definition CheckPointIter : Type := option (CheckPoint D).

Definition iter_next (it : CheckPointIter) : option (CheckPoint D * CheckPointIter) :=
  match it with
  | Some current => Some (current, cp_prev current)
  | None => None
  end.

(** [nth]: the yielded item and the state left behind; [n] is a [usize], and
    [n.try_into::<u32>().ok()?] fails above [u32::MAX]. *)
Definition iter_nth (it : CheckPointIter) (n : N) : option (CheckPoint D) * CheckPointIter :=
  match it with
  | None => (None, None)
  | Some current =>
      if U32_MAX <? n then (None, None)
      else match checked_sub (cp_index current) n with
           | None => (None, None)
           | Some target_index =>
               match ancestor_by_index current target_index with
               | Some inner => (Some inner, cp_prev inner)
               | None => (None, None)
               end
           end
  end.

Definition iter_last (it : CheckPointIter) : option (CheckPoint D) :=
  match it with
  | Some current => ancestor_by_index current 0
  | None => None
  end.

(** [count], and both bounds of [size_hint] (64-bit [usize]). *)
Definition iter_count (it : CheckPointIter) : N :=
  match it with
  | Some cp_inner => cp_index cp_inner + 1
  | None => 0
  end.
Definition iter_size_hint (it : CheckPointIter) : N * option N :=
  let n := match it with Some cp_inner => cp_index cp_inner + 1 | None => 0 end in
  (n, Some n).

(** What iterating from a checkpoint yields, tip first. *)
Fixpoint cp_iter (cp : CheckPoint D) : list (CheckPoint D) :=
  cp :: match cp_prev cp with
        | Some prev => cp_iter prev
        | None => []
        end.

(** [PartialEq]: the block ids of both chains. *)
Definition cp_eqb (a b : CheckPoint D) : bool :=
  bool_decide (cp_block_id <$> cp_iter a = cp_block_id <$> cp_iter b).

Definition cp_get (cp : CheckPoint D) (height : N) : option (CheckPoint D) :=
  if cp_height cp <? height then None
  else match walk_to_floor cp height with
       | Some floor => if cp_height floor =? height then Some floor else None
       | None => None
       end.

(** [core::ops::Bound<u32>]. *)
Inductive Bound := Included (b : N) | Excluded (b : N) | Unbounded.

Definition above_start (start_bound : Bound) (cp : CheckPoint D) : bool :=
  match start_bound with
  | Included inc_bound => inc_bound <=? cp_height cp
  | Excluded exc_bound => exc_bound <? cp_height cp
  | Unbounded => true
  end.

(** [Iterator::take_while]. *)
Fixpoint take_while {A} (f : A → bool) (l : list A) : list A :=
  match l with
  | [] => []
  | x :: l => if f x then x :: take_while f l else []
  end.

Definition cp_range (cp : CheckPoint D) (start_bound end_bound : Bound) : list (CheckPoint D) :=
  let start :=
    match end_bound with
    | Included b => walk_to_floor cp b
    | Excluded b => checked_sub b 1 ≫= λ b, walk_to_floor cp b
    | Unbounded => Some cp
    end in
  match start with
  | Some start => take_while (above_start start_bound) (cp_iter start)
  | None => []
  end.

Definition cp_floor_at (cp : CheckPoint D) (height : N) : option (CheckPoint D) :=
  head (cp_range cp Unbounded (Included height)).

Definition cp_floor_below (cp : CheckPoint D) (offset : N) : option (CheckPoint D) :=
  checked_sub (cp_height cp) offset ≫= cp_floor_at cp.

(** ** Construction *)

Context `{!ToBlockHash D}.

Definition cp_new (height : N) (data : D) : CheckPoint D :=
  mkCP (mkBlockId height (to_blockhash data)) data None None 0.

(** Whether [data] at [height] contradicts [cp], its neighbour below. *)
Definition push_conflict (cp : CheckPoint D) (height : N) (data : D) : bool :=
  match prev_blockhash data with
  | Some prev => (cp_height cp + 1 =? height) && negb (cp_hash cp =? prev)
  | None => false
  end.

Definition cp_push (cp : CheckPoint D) (height : N) (data : D) :
    result (CheckPoint D) (CheckPoint D) :=
  if height <=? cp_height cp then Err cp
  else if push_conflict cp height data then Err cp
  else
    let new_index := cp_index cp + 1 in
    let skip := ancestor_by_index cp (skip_index new_index) in
    Ok (mkCP (mkBlockId height (to_blockhash data)) data (Some cp) skip new_index).

Fixpoint cp_extend (cp : CheckPoint D) (blockdata : list (N * D)) :
    result (CheckPoint D) (CheckPoint D) :=
  match blockdata with
  | [] => Ok cp
  | (height, data) :: blockdata =>
      match cp_push cp height data with
      | Ok cp => cp_extend cp blockdata
      | Err cp => Err cp
      end
  end.

Definition cp_from_blocks (blocks : list (N * D)) :
    result (option (CheckPoint D)) (CheckPoint D) :=
  match blocks with
  | [] => Err None
  | (height, data) :: blocks => map_err Some (cp_extend (cp_new height data) blocks)
  end.

(** The search loop of [insert]: an early return of [self], the panic of the
    genesis assertion, or the base found with the tail collected on the way
    ([push] order). *)
Inductive InsertSearch :=
| ISReturn
| ISPanic
| ISBreak (base : option (CheckPoint D)) (tail : list (N * D)).

Definition implied_genesis (height : N) (data : D) : option BlockHash :=
  if height =? 0 then Some (to_blockhash data)
  else if height =? 1 then prev_blockhash data
  else None.

Definition genesis_violation (cp : CheckPoint D) (height : N) (data : D) : bool :=
  (cp_height cp =? 0) &&
  match implied_genesis height data with
  | Some hash => negb (hash =? cp_hash cp)
  | None => false
  end.

Fixpoint insert_search (cp : CheckPoint D) (height : N) (data : D) (tail : list (N * D)) :
    InsertSearch :=
  let continue tail :=
    match cp_prev cp with
    | Some prev => insert_search prev height data tail
    | None => ISBreak None tail
    end in
  if genesis_violation cp height data then ISPanic
  else if height <? cp_height cp then continue (tail ++ [(cp_height cp, cp_data cp)])
  else if cp_height cp =? height then
    if cp_hash cp =? to_blockhash data then ISReturn else continue []
  else if push_conflict cp height data then continue []
  else ISBreak (Some cp) tail.

(** [insert]; [None] is a panic, of the genesis assertion or of
    [expect("tail is non-empty")]. *)
Definition cp_insert (self : CheckPoint D) (height : N) (data : D) : option (CheckPoint D) :=
  match insert_search self height data [] with
  | ISReturn => Some self
  | ISPanic => None
  | ISBreak base tail =>
      let tail := rev (tail ++ [(height, data)]) in
      match base with
      | Some base_cp => Some (either_side (cp_extend base_cp tail))
      | None => match cp_from_blocks tail with
                | Ok cp => Some cp
                | Err err => err
                end
      end
  end.

(** ** Median time past *)

Definition MTP_BLOCK_COUNT : N := 11.

Definition median_time_past `{!ToBlockTime D} (cp : CheckPoint D) : option N :=
  let current_height := cp_height cp in
  let earliest_height := saturating_sub current_height (MTP_BLOCK_COUNT - 1) in
  let heights := range_inclusive earliest_height current_height in
  timestamps ← mapM (λ height, cp ← cp_get cp height; Some (to_blocktime (cp_data cp))) heights;
  let timestamps := merge_sort N.le timestamps in
  timestamps !! Nat.div (length timestamps) 2.
End checkpoint.

Arguments CheckPointIter : clear implicits.
Arguments InsertSearch : clear implicits.
