(* ===== verification/CheckPointFacts.v ===== *)
(** * Theory of checkpoint chains

    The well-formedness of a chain built by [cp_new] and [cp_push], and the
    facts every client uses: the optimised walks compute the same nodes as a
    linear scan, and a chain is determined by its blocks. *)
From S2P Require Import Prelude Block CheckPoint.
#[local] Open Scope N_scope.

(** ** Skip indices point strictly below *)

Lemma land_le_r (a b : N) : N.land a b ≤ b.
Proof.
  apply N.ldiff_le. apply N.bits_inj. intros i.
  rewrite N.ldiff_spec, N.land_spec, N.bits_0. by destruct (N.testbit a i), (N.testbit b i).
Qed.

Lemma invert_lowest_one_le n : invert_lowest_one n ≤ n.
Proof. unfold invert_lowest_one. rewrite N.land_comm. apply land_le_r. Qed.

Lemma invert_lowest_one_lt n : 1 ≤ n ≤ U32_MAX → invert_lowest_one n ≤ n - 1.
Proof.
  intros Hn. unfold invert_lowest_one. etrans; [apply land_le_r|].
  unfold wrapping_sub_u32, U32_MAX in *.
  replace (n + 4294967296 - 1) with (n - 1 + 1 * 4294967296) by lia.
  rewrite N.Div0.mod_add, N.mod_small by lia. done.
Qed.

Lemma skip_index_lt i : 1 ≤ i ≤ U32_MAX → skip_index i ≤ i - 1.
Proof.
  intros Hi. unfold skip_index. destruct (N.ltb_spec i 2); [lia|].
  destruct (N.eqb_spec (N.land i 1) 0); [by apply invert_lowest_one_lt|].
  assert (i ≠ 2) by (intros ->; done).
  pose proof (invert_lowest_one_le (invert_lowest_one (i - 1))).
  pose proof (invert_lowest_one_lt (i - 1)). lia.
Qed.

Section facts.
Context {D : Type}.
Implicit Types cp p n : CheckPoint D.

(** ** Nodes of a chain *)

Lemma cp_iter_unfold cp :
  cp_iter cp = cp :: match cp_prev cp with Some p => cp_iter p | None => [] end.
Proof. by destruct cp. Qed.

(** [cp_iter] is what repeated [next] calls yield. *)
Fixpoint collect (fuel : nat) (it : CheckPointIter D) : list (CheckPoint D) :=
  match fuel with
  | O => []
  | S fuel => match iter_next it with
              | Some (cp, it) => cp :: collect fuel it
              | None => []
              end
  end.

Lemma collect_cp_iter fuel cp :
  (length (cp_iter cp) ≤ fuel)%nat → collect fuel (Some cp) = cp_iter cp.
Proof.
  revert cp. induction fuel as [|fuel IH]; intros cp; rewrite cp_iter_unfold; simpl; [lia|].
  intros Hlen. f_equal. destruct (cp_prev cp) as [p|] eqn:Hp; simpl.
  - apply IH. lia.
  - by destruct fuel.
Qed.

Lemma cp_iter_self cp : cp ∈ cp_iter cp.
Proof. rewrite cp_iter_unfold. set_solver. Qed.

Lemma cp_iter_prev cp p : cp_prev cp = Some p → cp_iter cp = cp :: cp_iter p.
Proof. intros Hp. by rewrite cp_iter_unfold, Hp. Qed.

(** Induction along [cp_prev]. *)
Lemma cp_prev_ind (P : CheckPoint D → Prop) :
  (∀ cp, cp_prev cp = None → P cp) →
  (∀ cp p, cp_prev cp = Some p → P p → P cp) →
  ∀ cp, P cp.
Proof.
  intros Hbase Hstep cp.
  remember (length (cp_iter cp)) as k eqn:Hk. revert cp Hk.
  induction k as [k IH] using lt_wf_ind. intros cp ->.
  destruct (cp_prev cp) as [p|] eqn:Hp; [|by apply Hbase].
  eapply Hstep; [done|]. eapply IH; [|done].
  rewrite (cp_iter_prev cp p) by done. simpl. lia.
Qed.

Lemma cp_iter_suffix cp n : n ∈ cp_iter cp → ∃ l, cp_iter cp = l ++ cp_iter n.
Proof.
  induction cp as [cp Hp|cp p Hp IH] using cp_prev_ind.
  - rewrite cp_iter_unfold, Hp. intros ->%list_elem_of_singleton.
    exists []. by rewrite cp_iter_unfold, Hp.
  - rewrite (cp_iter_prev cp p) by done. intros [->|Hn]%elem_of_cons.
    + exists []. by rewrite (cp_iter_prev cp p).
    + destruct (IH Hn) as [l ->]. by exists (cp :: l).
Qed.

Lemma cp_iter_trans cp n m : n ∈ cp_iter cp → m ∈ cp_iter n → m ∈ cp_iter cp.
Proof. intros [l ->]%cp_iter_suffix Hm. set_solver. Qed.

(** The blocks of a chain, highest first, and as a map. *)
Definition cp_blocks (cp : CheckPoint D) : list (N * D) :=
  (λ n, (cp_height n, cp_data n)) <$> cp_iter cp.
Definition cp_map (cp : CheckPoint D) : gmap N D := list_to_map (cp_blocks cp).

(** The highest node whose key is at most [t], by linear scan: the
    reference for both walks. *)
Definition floor_by (key : CheckPoint D → N) (cp : CheckPoint D) (t : N) :
    option (CheckPoint D) :=
  List.find (λ n, key n <=? t) (cp_iter cp).

Lemma floor_by_cons key cp p t :
  cp_prev cp = Some p → t < key cp → floor_by key cp t = floor_by key p t.
Proof.
  intros Hp Ht. unfold floor_by. rewrite (cp_iter_prev cp p) by done. simpl.
  by destruct (N.leb_spec (key cp) t); [lia|].
Qed.

Lemma floor_by_here key cp t : key cp ≤ t → floor_by key cp t = Some cp.
Proof.
  intros Ht. unfold floor_by. rewrite cp_iter_unfold. simpl.
  by destruct (N.leb_spec (key cp) t); [|lia].
Qed.

Lemma floor_by_Some key cp t n :
  floor_by key cp t = Some n → n ∈ cp_iter cp ∧ key n ≤ t.
Proof.
  unfold floor_by. intros [Hin Hle]%find_some. rewrite <-list_elem_of_In in Hin.
  split; [done|]. by apply N.leb_le.
Qed.

Lemma floor_by_None key cp t n :
  floor_by key cp t = None → n ∈ cp_iter cp → t < key n.
Proof.
  unfold floor_by. intros Hf Hn%list_elem_of_In. eapply find_none in Hf; [|done].
  by apply N.leb_gt.
Qed.

Context `{!ToBlockHash D}.

(** ** Well-formed chains

    Heights grow, a node with a contiguous neighbour agrees with it on the
    previous block hash, the index counts the nodes below, and the skip
    pointer is the node at [skip_index]. *)
Inductive cp_wf : CheckPoint D → Prop :=
| cp_wf_new h d : h ≤ U32_MAX → cp_wf (cp_new h d)
| cp_wf_push p h d skip :
    cp_wf p → cp_height p < h → h ≤ U32_MAX →
    push_conflict p h d = false →
    floor_by cp_index p (skip_index (cp_index p + 1)) = Some skip →
    cp_wf (mkCP (mkBlockId h (to_blockhash d)) d (Some p) (Some skip) (cp_index p + 1)).

Lemma cp_wf_prev cp p : cp_wf cp → cp_prev cp = Some p → cp_wf p.
Proof. by destruct 1; simpl; intros; simplify_eq. Qed.

Lemma cp_wf_iter cp n : cp_wf cp → n ∈ cp_iter cp → cp_wf n.
Proof.
  induction cp as [cp Hp|cp p Hp IH] using cp_prev_ind; intros Hwf.
  - rewrite cp_iter_unfold, Hp. by intros ->%list_elem_of_singleton.
  - rewrite (cp_iter_prev cp p) by done. intros [->|Hn]%elem_of_cons; [done|].
    apply IH; [|done]. by eapply cp_wf_prev.
Qed.

Lemma cp_wf_hash cp : cp_wf cp → cp_hash cp = to_blockhash (cp_data cp).
Proof. by destruct 1. Qed.

Lemma cp_wf_height_max cp : cp_wf cp → cp_height cp ≤ U32_MAX.
Proof. by destruct 1. Qed.

Lemma cp_wf_prev_lt cp p :
  cp_wf cp → cp_prev cp = Some p → cp_height p < cp_height cp ∧ cp_index cp = cp_index p + 1.
Proof. destruct 1; simpl; intros; by simplify_eq. Qed.

Lemma cp_wf_base_index cp : cp_wf cp → cp_prev cp = None ↔ cp_index cp = 0.
Proof. destruct 1; simpl; split; try done; lia. Qed.

Lemma cp_wf_no_conflict cp p :
  cp_wf cp → cp_prev cp = Some p → push_conflict p (cp_height cp) (cp_data cp) = false.
Proof. destruct 1; simpl; intros; by simplify_eq. Qed.

(** The index of a node never reaches past its height, so [index + 1] in
    [push] cannot overflow. *)
Lemma cp_wf_index_le_height cp : cp_wf cp → cp_index cp ≤ cp_height cp.
Proof.
  induction 1 as [h d|p h d skip Hwf IH Hlt]; unfold cp_height in *; simpl in *; lia.
Qed.

Lemma cp_wf_length cp : cp_wf cp → N.of_nat (length (cp_iter cp)) = cp_index cp + 1.
Proof.
  induction cp as [cp Hp|cp p Hp IH] using cp_prev_ind; intros Hwf; pose proof Hwf as Hwf'.
  - apply cp_wf_base_index in Hwf'. rewrite cp_iter_unfold, Hp. simpl. apply Hwf' in Hp. lia.
  - rewrite (cp_iter_prev cp p) by done. simpl.
    apply cp_wf_prev_lt with (p:=p) in Hwf' as [_ ->]; [|done].
    rewrite <-IH by (by eapply cp_wf_prev). lia.
Qed.

(** A key strictly decreasing towards the base. *)
Definition decreasing (key : CheckPoint D → N) : Prop :=
  ∀ cp p, cp_wf cp → cp_prev cp = Some p → key p < key cp.

Lemma cp_height_decreasing : decreasing cp_height.
Proof. intros cp p Hwf Hp. by apply cp_wf_prev_lt. Qed.
Lemma cp_index_decreasing : decreasing cp_index.
Proof. intros cp p Hwf Hp. destruct (cp_wf_prev_lt cp p); [done..|lia]. Qed.

Lemma decreasing_le key cp n :
  decreasing key → cp_wf cp → n ∈ cp_iter cp → n = cp ∨ key n < key cp.
Proof.
  intros Hkey. induction cp as [cp Hp|cp p Hp IH] using cp_prev_ind; intros Hwf.
  - rewrite cp_iter_unfold, Hp. intros ->%list_elem_of_singleton. by left.
  - rewrite (cp_iter_prev cp p) by done. intros [->|Hn]%elem_of_cons; [by left|].
    right. pose proof (Hkey cp p Hwf Hp).
    destruct IH as [->|Hlt]; [by eapply cp_wf_prev|done|done|]. lia.
Qed.

Lemma cp_iter_sorted key cp :
  decreasing key → cp_wf cp → StronglySorted (λ a b, key b < key a) (cp_iter cp).
Proof.
  intros Hkey. induction cp as [cp Hp|cp p Hp IH] using cp_prev_ind; intros Hwf.
  - rewrite cp_iter_unfold, Hp. repeat constructor.
  - rewrite (cp_iter_prev cp p) by done. constructor; [apply IH; by eapply cp_wf_prev|].
    apply Forall_forall. intros n Hn. pose proof (Hkey cp p Hwf Hp).
    destruct (decreasing_le key p n) as [->|Hlt]; try done; [by eapply cp_wf_prev|]. lia.
Qed.

(** Riding to any node still at or above the target loses nothing. *)
Lemma floor_by_ancestor key cp n t :
  decreasing key → cp_wf cp → n ∈ cp_iter cp → t ≤ key n →
  floor_by key cp t = floor_by key n t.
Proof.
  intros Hkey. induction cp as [cp Hp|cp p Hp IH] using cp_prev_ind; intros Hwf.
  - rewrite cp_iter_unfold, Hp. by intros ->%list_elem_of_singleton.
  - rewrite (cp_iter_prev cp p) by done. intros [->|Hn]%elem_of_cons; [done|].
    intros Ht. rewrite <-IH; [|by eapply cp_wf_prev|done|done].
    apply floor_by_cons; [done|]. pose proof (Hkey cp p Hwf Hp).
    destruct (decreasing_le key p n) as [->|Hlt]; try done; [by eapply cp_wf_prev|lia..].
Qed.

Lemma floor_by_index_exact cp t :
  cp_wf cp → t ≤ cp_index cp → ∃ n, floor_by cp_index cp t = Some n ∧ cp_index n = t.
Proof.
  induction cp as [cp Hp|cp p Hp IH] using cp_prev_ind; intros Hwf Ht.
  - exists cp. pose proof (proj1 (cp_wf_base_index cp Hwf) Hp).
    split; [apply floor_by_here; lia|lia].
  - destruct (cp_wf_prev_lt cp p Hwf Hp) as [_ Hidx].
    destruct (decide (t = cp_index cp)) as [->|Hne].
    + exists cp. by rewrite floor_by_here by lia.
    + rewrite (floor_by_cons _ cp p) by (done || lia).
      apply IH; [by eapply cp_wf_prev|lia].
Qed.

Lemma cp_wf_skip cp skip :
  cp_wf cp → cp_skip cp = Some skip →
  skip ∈ cp_iter cp ∧ cp_index skip = skip_index (cp_index cp) ∧ cp_index skip < cp_index cp.
Proof.
  destruct 1 as [|p h d skip' Hwf Hlt Hmax Hlink Hskip]; [done|].
  simpl. intros [= ->].
  pose proof (cp_wf_index_le_height p Hwf).
  pose proof (skip_index_lt (cp_index p + 1)).
  destruct (floor_by_index_exact p (skip_index (cp_index p + 1))) as (n & Hn & Hidx);
    [done|lia|].
  rewrite Hskip in Hn. simplify_eq. rewrite Hidx.
  split_and!; [|done|lia].
  apply elem_of_cons. right. by apply floor_by_Some in Hskip as [? _].
Qed.

(** Strong induction over the nodes below a chain. *)
Lemma cp_below_ind (P : CheckPoint D → Prop) :
  (∀ cp, (∀ n, n ∈ cp_iter cp → n ≠ cp → P n) → P cp) →
  ∀ cp, P cp.
Proof.
  intros Hstep cp.
  remember (length (cp_iter cp)) as k eqn:Hk. revert cp Hk.
  induction k as [k IH] using lt_wf_ind. intros cp ->.
  apply Hstep. intros n Hn Hne. eapply IH; [|done].
  apply cp_iter_suffix in Hn as [l Hl]. rewrite Hl, length_app.
  destruct l as [|x l]; simpl; [|lia]. simpl in Hl.
  rewrite (cp_iter_unfold cp), (cp_iter_unfold n) in Hl. congruence.
Qed.

Lemma ancestor_by_index_floor cp t :
  cp_wf cp → ancestor_by_index cp t = floor_by cp_index cp t.
Proof.
  induction cp as [cp IH] using cp_below_ind; intros Hwf.
  assert (Hunf : ancestor_by_index cp t =
    if t <? cp_index cp then
      match cp_skip cp with
      | Some skip =>
          if (skip_index (cp_index cp) =? t) || ((t <? skip_index (cp_index cp)) &&
             negb ((saturating_add_u32 (skip_index (saturating_sub (cp_index cp) 1)) 2
                      <? skip_index (cp_index cp)) &&
                   (t <=? skip_index (saturating_sub (cp_index cp) 1))))
          then ancestor_by_index skip t
          else match cp_prev cp with Some p => ancestor_by_index p t | None => None end
      | None => match cp_prev cp with Some p => ancestor_by_index p t | None => None end
      end
    else Some cp) by (by destruct cp).
  rewrite Hunf; clear Hunf.
  destruct (N.ltb_spec t (cp_index cp)) as [Hlt|Hge];
    [|by rewrite floor_by_here by lia].
  assert (Hprev : match cp_prev cp with Some p => ancestor_by_index p t | None => None end
                  = floor_by cp_index cp t).
  { destruct (cp_prev cp) as [p|] eqn:Hp.
    - pose proof (cp_index_decreasing cp p Hwf Hp).
      rewrite IH; [by rewrite (floor_by_cons _ cp p)| | |by eapply cp_wf_prev].
      + rewrite (cp_iter_prev cp p) by done. apply elem_of_cons. right. apply cp_iter_self.
      + intros ->. lia.
    - apply cp_wf_base_index in Hp; [lia|done]. }
  destruct (cp_skip cp) as [s|] eqn:Hs; [|done].
  destruct (cp_wf_skip cp s Hwf Hs) as (Hin & Hidx & Hslt).
  destruct (_ || _) eqn:Hcond; [|done].
  assert (t ≤ cp_index s).
  { rewrite Hidx. apply orb_true_iff in Hcond as [->%N.eqb_eq|Hcond]; [done|].
    apply andb_true_iff in Hcond as [?%N.ltb_lt _]. lia. }
  rewrite IH; [|done|intros ->; lia|by eapply cp_wf_iter].
  symmetry. by apply floor_by_ancestor; [apply cp_index_decreasing|..].
Qed.

Lemma take_skip_above cp s t : take_skip cp s t = true → t ≤ cp_height s.
Proof.
  unfold take_skip. destruct (N.ltb_spec (cp_height s) t); [done|]. lia.
Qed.

Lemma walk_to_floor_floor cp t :
  cp_wf cp → walk_to_floor cp t = floor_by cp_height cp t.
Proof.
  induction cp as [cp IH] using cp_below_ind; intros Hwf.
  assert (Hunf : walk_to_floor cp t =
    if t <? cp_height cp then
      match cp_skip cp with
      | Some s =>
          if take_skip cp s t then walk_to_floor s t
          else match cp_prev cp with Some p => walk_to_floor p t | None => None end
      | None => match cp_prev cp with Some p => walk_to_floor p t | None => None end
      end
    else Some cp) by (by destruct cp).
  rewrite Hunf; clear Hunf.
  destruct (N.ltb_spec t (cp_height cp)) as [Hlt|Hge];
    [|by rewrite floor_by_here by lia].
  assert (Hprev : match cp_prev cp with Some p => walk_to_floor p t | None => None end
                  = floor_by cp_height cp t).
  { destruct (cp_prev cp) as [p|] eqn:Hp.
    - pose proof (cp_height_decreasing cp p Hwf Hp).
      rewrite IH; [by rewrite (floor_by_cons _ cp p)| | |by eapply cp_wf_prev].
      + rewrite (cp_iter_prev cp p) by done. apply elem_of_cons. right. apply cp_iter_self.
      + intros ->. lia.
    - unfold floor_by. rewrite cp_iter_unfold, Hp. simpl.
      by destruct (N.leb_spec (cp_height cp) t); [lia|]. }
  destruct (cp_skip cp) as [s|] eqn:Hs; [|done].
  destruct (cp_wf_skip cp s Hwf Hs) as (Hin & Hidx & Hslt).
  destruct (take_skip cp s t) eqn:Htake; [|done].
  apply take_skip_above in Htake.
  rewrite IH; [|done|intros ->; lia|by eapply cp_wf_iter].
  symmetry. by apply floor_by_ancestor; [apply cp_height_decreasing|..].
Qed.

(** ** Lookups *)

Lemma floor_by_unique key cp n :
  decreasing key → cp_wf cp → n ∈ cp_iter cp → floor_by key cp (key n) = Some n.
Proof.
  intros Hkey Hwf Hn.
  rewrite (floor_by_ancestor key cp n) by done. by apply floor_by_here.
Qed.

Lemma cp_iter_inj key cp n m :
  decreasing key → cp_wf cp → n ∈ cp_iter cp → m ∈ cp_iter cp → key n = key m → n = m.
Proof.
  intros Hkey Hwf Hn Hm Heq.
  pose proof (floor_by_unique key cp n Hkey Hwf Hn) as H1.
  pose proof (floor_by_unique key cp m Hkey Hwf Hm) as H2. congruence.
Qed.

Lemma cp_get_Some cp h n :
  cp_wf cp → cp_get cp h = Some n ↔ n ∈ cp_iter cp ∧ cp_height n = h.
Proof.
  intros Hwf. unfold cp_get. rewrite walk_to_floor_floor by done. split.
  - destruct (N.ltb_spec (cp_height cp) h); [done|].
    destruct (floor_by cp_height cp h) as [f|] eqn:Hf; [|done].
    destruct (N.eqb_spec (cp_height f) h); intros [= <-].
    by apply floor_by_Some in Hf as [??].
  - intros [Hn <-].
    assert (cp_height n ≤ cp_height cp).
    { destruct (decreasing_le cp_height cp n) as [->|?]; try done; [|lia].
      apply cp_height_decreasing. }
    destruct (N.ltb_spec (cp_height cp) (cp_height n)); [lia|].
    rewrite floor_by_unique by (done || apply cp_height_decreasing).
    by rewrite N.eqb_refl.
Qed.

Lemma cp_get_None cp h :
  cp_wf cp → cp_get cp h = None ↔ ∀ n, n ∈ cp_iter cp → cp_height n ≠ h.
Proof.
  intros Hwf. split.
  - intros Hg n Hn Hh.
    assert (cp_get cp h = Some n) by (by apply cp_get_Some). congruence.
  - intros Hno. destruct (cp_get cp h) as [n|] eqn:Hg; [|done].
    apply cp_get_Some in Hg as [Hn Hh]; [|done]. by destruct (Hno n Hn).
Qed.

(** Blocks in descending order of height. *)
Lemma cp_blocks_cons cp p :
  cp_prev cp = Some p → cp_blocks cp = (cp_height cp, cp_data cp) :: cp_blocks p.
Proof. intros Hp. unfold cp_blocks. by rewrite (cp_iter_prev cp p). Qed.

Lemma cp_blocks_base cp :
  cp_prev cp = None → cp_blocks cp = [(cp_height cp, cp_data cp)].
Proof. intros Hp. unfold cp_blocks. by rewrite cp_iter_unfold, Hp. Qed.

Lemma elem_of_cp_blocks cp h d :
  (h, d) ∈ cp_blocks cp ↔ ∃ n, n ∈ cp_iter cp ∧ cp_height n = h ∧ cp_data n = d.
Proof. unfold cp_blocks. rewrite list_elem_of_fmap. naive_solver. Qed.

Lemma cp_blocks_sorted cp :
  cp_wf cp → StronglySorted (λ a b : N * D, b.1 < a.1) (cp_blocks cp).
Proof.
  intros Hwf. unfold cp_blocks.
  apply (StronglySorted_fmap _ (λ a b : CheckPoint D, cp_height b < cp_height a)
    (λ a b : N * D, b.1 < a.1)); [by intros ??|].
  apply cp_iter_sorted; [apply cp_height_decreasing|done].
Qed.

Lemma NoDup_cp_blocks cp : cp_wf cp → NoDup (cp_blocks cp).*1.
Proof.
  intros Hwf%cp_blocks_sorted. induction Hwf as [|p l Hl IH Hp]; simpl; constructor; [|done].
  intros (q & Heq & Hq)%list_elem_of_fmap. eapply Forall_forall in Hp; [|done]. lia.
Qed.

Lemma cp_map_lookup cp h : cp_wf cp → cp_map cp !! h = cp_data <$> cp_get cp h.
Proof.
  intros Hwf. apply option_eq. intros d. unfold cp_map.
  rewrite <-elem_of_list_to_map by (by apply NoDup_cp_blocks).
  rewrite elem_of_cp_blocks, fmap_Some. split.
  - intros (n & Hn & Hh & Hd). exists n. by rewrite cp_get_Some.
  - intros (n & [Hn Hh]%cp_get_Some & Hd); [|done]. naive_solver.
Qed.

Lemma cp_map_cons cp p :
  cp_prev cp = Some p → cp_map cp = <[cp_height cp := cp_data cp]> (cp_map p).
Proof. intros Hp. unfold cp_map. by rewrite (cp_blocks_cons cp p). Qed.

Lemma cp_map_base cp : cp_prev cp = None → cp_map cp = {[cp_height cp := cp_data cp]}.
Proof. intros Hp. unfold cp_map. by rewrite cp_blocks_base. Qed.

(** ** Extensionality: the blocks determine the chain *)

Lemma cp_ext a b : cp_wf a → cp_wf b → cp_blocks a = cp_blocks b → a = b.
Proof.
  intros Ha. revert b.
  induction Ha as [h d Hmax|p h d skip Hp IH Hlt Hmax Hlink Hskip]; intros b Hb Heq.
  - destruct Hb as [h' d' Hmax'|p' h' d' skip' Hp' Hlt' Hmax' Hlink' Hskip'].
    + rewrite !cp_blocks_base in Heq by done. unfold cp_height in Heq. by simplify_eq/=.
    + rewrite cp_blocks_base in Heq by done. erewrite cp_blocks_cons in Heq by done.
      unfold cp_blocks in Heq. rewrite cp_iter_unfold in Heq. by simplify_eq/=.
  - destruct Hb as [h' d' Hmax'|p' h' d' skip' Hp' Hlt' Hmax' Hlink' Hskip'].
    + rewrite (cp_blocks_base (cp_new h' d')) in Heq by done.
      erewrite cp_blocks_cons in Heq by done.
      unfold cp_blocks in Heq. rewrite cp_iter_unfold in Heq. by simplify_eq/=.
    + erewrite !cp_blocks_cons in Heq by done. cbn in Heq. injection Heq as Hh Hd Hbl.
      apply IH in Hbl; [|done]. subst. congruence.
Qed.

Lemma sorted_blocks_unique (l1 l2 : list (N * D)) :
  StronglySorted (λ a b : N * D, b.1 < a.1) l1 →
  StronglySorted (λ a b : N * D, b.1 < a.1) l2 → l1 ≡ₚ l2 → l1 = l2.
Proof.
  intros H1 H2. apply (StronglySorted_unique_strong (λ a b : N * D, b.1 < a.1)); auto.
  intros x y _ _ ??. lia.
Qed.

Lemma cp_map_inj a b : cp_wf a → cp_wf b → cp_map a = cp_map b → a = b.
Proof.
  intros Ha Hb Heq. apply cp_ext; [done..|].
  apply sorted_blocks_unique; [by apply cp_blocks_sorted..|].
  apply list_to_map_inj; [by apply NoDup_cp_blocks..|done].
Qed.

(** [PartialEq] compares block ids, so it is the contents up to the hash. *)
Lemma cp_wf_block_id cp :
  cp_wf cp → cp_block_id cp = mkBlockId (cp_height cp) (to_blockhash (cp_data cp)).
Proof. by destruct 1. Qed.

Lemma cp_eqb_spec a b :
  cp_wf a → cp_wf b →
  cp_eqb a b = true ↔
  prod_map id to_blockhash <$> cp_blocks a = prod_map id to_blockhash <$> cp_blocks b.
Proof.
  intros Ha Hb. unfold cp_eqb. rewrite bool_decide_eq_true.
  assert (Hids : ∀ cp, cp_wf cp → cp_block_id <$> cp_iter cp
      = BlockId_from_pair <$> (prod_map id to_blockhash <$> cp_blocks cp)).
  { intros cp Hcp. unfold cp_blocks. rewrite <-!list_fmap_compose.
    apply list_fmap_ext. intros i n Hn. apply list_elem_of_lookup_2 in Hn.
    cbn. rewrite (cp_wf_block_id n) by (by eapply cp_wf_iter). done. }
  rewrite !Hids by done. split; [|by intros ->]. apply (inj (fmap BlockId_from_pair)).
Qed.

(** ** Pushing and extending *)

Lemma cp_push_wf cp h d cp' :
  cp_wf cp → h ≤ U32_MAX → cp_push cp h d = Ok cp' →
  cp_wf cp' ∧ cp_height cp' = h ∧ cp_data cp' = d ∧ cp_prev cp' = Some cp.
Proof.
  intros Hwf Hmax. unfold cp_push.
  destruct (N.leb_spec h (cp_height cp)) as [|Hlt]; [done|].
  destruct (push_conflict cp h d) eqn:Hlink; [done|].
  pose proof (cp_wf_index_le_height cp Hwf).
  pose proof (skip_index_lt (cp_index cp + 1)).
  destruct (floor_by_index_exact cp (skip_index (cp_index cp + 1))) as (n & Hn & _);
    [done|lia|].
  rewrite ancestor_by_index_floor, Hn by done. intros [= <-].
  split_and!; [|done..]. by constructor.
Qed.

Lemma cp_push_Ok cp h d :
  cp_height cp < h → push_conflict cp h d = false → ∃ cp', cp_push cp h d = Ok cp'.
Proof.
  intros Hlt Hlink. unfold cp_push.
  destruct (N.leb_spec h (cp_height cp)); [lia|]. rewrite Hlink. eauto.
Qed.

Lemma cp_push_Err cp h d e :
  cp_push cp h d = Err e → e = cp ∧ (h ≤ cp_height cp ∨ push_conflict cp h d = true).
Proof.
  unfold cp_push. destruct (N.leb_spec h (cp_height cp)); [intros [= <-]; auto|].
  destruct (push_conflict cp h d); [intros [= <-]; auto|done].
Qed.

Definition heights_fit (l : list (N * D)) : Prop := Forall (λ b : N * D, b.1 ≤ U32_MAX) l.

(** [extend] pushes the longest prefix it can; an error holds the chain
    reached and the next block could not be pushed onto it. *)
Lemma cp_extend_spec cp l :
  cp_wf cp → heights_fit l →
  ∃ l1 l2, l = l1 ++ l2 ∧
    cp_wf (either_side (cp_extend cp l)) ∧
    cp_blocks (either_side (cp_extend cp l)) = reverse l1 ++ cp_blocks cp ∧
    match cp_extend cp l with
    | Ok _ => l2 = []
    | Err e => ∃ h d rest, l2 = (h, d) :: rest ∧
        (h ≤ cp_height e ∨ push_conflict e h d = true)
    end.
Proof.
  revert cp. induction l as [|[h d] l IH]; intros cp Hwf Hfit; simpl.
  { exists [], []. by rewrite reverse_nil. }
  apply Forall_cons in Hfit as [Hh Hfit]. simpl in Hh.
  destruct (cp_push cp h d) as [cp'|e] eqn:Hpush.
  - apply cp_push_wf in Hpush as (Hwf' & Hh' & Hd' & Hp'); [|done..].
    destruct (IH cp' Hwf' Hfit) as (l1 & l2 & -> & Hwf'' & Hbl & Hres).
    exists ((h, d) :: l1), l2. split_and!; [done|done| |done].
    rewrite Hbl, (cp_blocks_cons cp' cp), Hh', Hd' by done.
    by rewrite reverse_cons, <-(assoc_L (++)).
  - apply cp_push_Err in Hpush as [-> Herr]. simpl.
    exists [], ((h, d) :: l). rewrite reverse_nil. naive_solver.
Qed.

Lemma cp_extend_Ok cp l cp' :
  cp_wf cp → heights_fit l → cp_extend cp l = Ok cp' →
  cp_wf cp' ∧ cp_blocks cp' = reverse l ++ cp_blocks cp.
Proof.
  intros Hwf Hfit Hext. destruct (cp_extend_spec cp l) as (l1 & l2 & -> & Hwf' & Hbl & Hres);
    [done..|].
  rewrite Hext in *. simpl in *. subst l2. by rewrite app_nil_r.
Qed.

(** The blocks [l], lowest first, can follow a block of height [h] and hash
    [x]: heights grow and contiguous neighbours agree. *)
Fixpoint linked_from (h : N) (x : BlockHash) (l : list (N * D)) : Prop :=
  match l with
  | [] => True
  | (h', d) :: l =>
      h < h' ∧ (h + 1 = h' → ∀ y, prev_blockhash d = Some y → y = x) ∧
      linked_from h' (to_blockhash d) l
  end.

Lemma push_conflict_false cp h d :
  push_conflict cp h d = false ↔
  (cp_height cp + 1 = h → ∀ y, prev_blockhash d = Some y → y = cp_hash cp).
Proof.
  unfold push_conflict. destruct (prev_blockhash d) as [y|]; [|naive_solver].
  rewrite andb_false_iff, negb_false_iff, N.eqb_neq, N.eqb_eq. split.
  - intros [Hne|Heq]; naive_solver.
  - intros H. destruct (decide (cp_height cp + 1 = h)); [right|by left].
    symmetry. auto.
Qed.

Lemma cp_extend_linked cp l :
  cp_wf cp → heights_fit l → linked_from (cp_height cp) (cp_hash cp) l →
  ∃ cp', cp_extend cp l = Ok cp' ∧ cp_wf cp' ∧ cp_blocks cp' = reverse l ++ cp_blocks cp.
Proof.
  intros Hwf Hfit Hl.
  enough (∃ cp', cp_extend cp l = Ok cp') as [cp' Hext].
  { exists cp'. split; [done|]. by apply cp_extend_Ok. }
  revert cp Hwf Hl. induction l as [|[h d] l IH]; intros cp Hwf Hl; simpl; [eauto|].
  apply Forall_cons in Hfit as [Hh Hfit]. destruct Hl as (Hlt & Hlink & Hl).
  destruct (cp_push_Ok cp h d) as [cp' Hpush]; [done|by apply push_conflict_false|].
  rewrite Hpush. apply cp_push_wf in Hpush as (Hwf' & <- & <- & _); [|done..].
  apply IH; [done..|]. by rewrite cp_wf_hash.
Qed.

(** The blocks of a chain above one of its nodes can follow that node. *)
Lemma cp_iter_linked cp n l :
  cp_wf cp → cp_iter cp = l ++ cp_iter n →
  linked_from (cp_height n) (cp_hash n)
    (reverse ((λ m, (cp_height m, cp_data m)) <$> l)).
Proof.
  revert cp. induction l as [|c l IH]; intros cp Hwf Hit; [done|].
  rewrite cp_iter_unfold in Hit. simpl in Hit. injection Hit as -> Hit.
  destruct (cp_prev c) as [p|] eqn:Hp; [|by destruct l; rewrite cp_iter_unfold in Hit].
  pose proof (cp_wf_prev c p Hwf Hp) as Hwfp.
  specialize (IH p Hwfp Hit). rewrite fmap_cons, reverse_cons.
  assert (Hgen : ∀ (k : list (N * D)) h x h' x' e,
    linked_from h x k →
    (match last k with Some q => (q.1, to_blockhash q.2) | None => (h, x) end) = (h', x') →
    h' < e.1 → (h' + 1 = e.1 → ∀ y, prev_blockhash e.2 = Some y → y = x') →
    linked_from h x (k ++ [e])).
  { clear. induction k as [|[h0 d0] k IH]; intros h x h' x' [h1 d1]; simpl.
    - intros _ [= <- <-]. naive_solver.
    - intros (Hlt & Hlk & Hk) Hlast H1 H2. split_and!; [done..|].
      rewrite last_cons in Hlast. eapply IH; [done| |done..]. by destruct (last k). }
  eapply Hgen; [done| |by apply cp_wf_prev_lt|
    apply push_conflict_false; by apply cp_wf_no_conflict].
  rewrite last_reverse. destruct l as [|c' l]; simpl.
  - simpl in Hit. assert (p = n) as -> by
      (rewrite (cp_iter_unfold p), (cp_iter_unfold n) in Hit; congruence). done.
  - rewrite cp_iter_unfold in Hit. injection Hit as -> _. simpl.
    by rewrite cp_wf_hash.
Qed.

(** [iter().last()] is the lowest checkpoint. *)
Lemma iter_last_base cp :
  cp_wf cp → ∃ g, iter_last (Some cp) = Some g ∧ g ∈ cp_iter cp ∧
    ∀ n, n ∈ cp_iter cp → cp_height g ≤ cp_height n.
Proof.
  intros Hwf. simpl. rewrite ancestor_by_index_floor by done.
  destruct (floor_by_index_exact cp 0 Hwf) as (g & Hg & Hg0); [lia|].
  rewrite Hg. apply floor_by_Some in Hg as [Hin _]. exists g. split_and!; [done..|].
  intros n Hn. pose proof (cp_wf_iter cp g Hwf Hin) as Hwfg.
  apply (cp_wf_base_index g Hwfg) in Hg0.
  pose proof (cp_iter_sorted cp_height cp cp_height_decreasing Hwf) as Hs.
  apply cp_iter_suffix in Hin as [l Hl]. rewrite (cp_iter_unfold g), Hg0 in Hl.
  rewrite Hl in Hn, Hs. apply elem_of_app in Hn as [Hn|Hn]; [|set_solver].
  eapply StronglySorted_app_1_elem_of in Hs; [|exact Hn|by left]. simpl in Hs. lia.
Qed.
End facts.
