(* ===== verification/CheckPointInsert.v ===== *)
(** * Inserting into a checkpoint chain

    A closed form of the search loop of [cp_insert], and the contents of the
    chain it builds. *)
From S2P Require Import Prelude Block CheckPoint CheckPointFacts.
#[local] Open Scope N_scope.

Section insert.
Context {D : Type} `{!ToBlockHash D}.
Implicit Types cp p n f : CheckPoint D.

(** ** Splitting a chain at a height *)

Definition blocks_above (cp : CheckPoint D) (t : N) : list (N * D) :=
  filter (λ b : N * D, t < b.1) (cp_blocks cp).
Definition blocks_upto (cp : CheckPoint D) (t : N) : list (N * D) :=
  filter (λ b : N * D, b.1 ≤ t) (cp_blocks cp).

Lemma blocks_le_height cp b : cp_wf cp → b ∈ cp_blocks cp → b.1 ≤ cp_height cp.
Proof.
  intros Hwf. destruct b as [h d]. rewrite elem_of_cp_blocks.
  intros (n & Hn & <- & _); simpl.
  destruct (decreasing_le cp_height cp n) as [->|]; auto using cp_height_decreasing; lia.
Qed.

Lemma blocks_fit cp : cp_wf cp → heights_fit (cp_blocks cp).
Proof.
  intros Hwf. apply Forall_forall. intros b Hb.
  pose proof (blocks_le_height cp b Hwf Hb). pose proof (cp_wf_height_max cp Hwf). lia.
Qed.

Lemma blocks_above_nil cp t : cp_wf cp → cp_height cp ≤ t → blocks_above cp t = [].
Proof.
  intros Hwf Hle. apply filter_none. intros b Hb.
  pose proof (blocks_le_height cp b Hwf Hb). lia.
Qed.

Lemma blocks_upto_all cp t : cp_wf cp → cp_height cp ≤ t → blocks_upto cp t = cp_blocks cp.
Proof.
  intros Hwf Hle. apply filter_all. intros b Hb.
  pose proof (blocks_le_height cp b Hwf Hb). lia.
Qed.

Lemma blocks_above_step cp p t :
  cp_prev cp = Some p → t < cp_height cp →
  blocks_above cp t = (cp_height cp, cp_data cp) :: blocks_above p t.
Proof.
  intros Hp Ht. unfold blocks_above. rewrite (cp_blocks_cons cp p) by done.
  by rewrite filter_cons_True.
Qed.

Lemma blocks_upto_step cp p t :
  cp_prev cp = Some p → t < cp_height cp → blocks_upto cp t = blocks_upto p t.
Proof.
  intros Hp Ht. unfold blocks_upto. rewrite (cp_blocks_cons cp p) by done.
  rewrite filter_cons_False; [done|]. simpl. lia.
Qed.

Lemma blocks_upto_floor cp t :
  cp_wf cp →
  blocks_upto cp t = match floor_by cp_height cp t with Some f => cp_blocks f | None => [] end.
Proof.
  induction cp as [cp Hp|cp p Hp IH] using cp_prev_ind; intros Hwf;
    (destruct (decide (cp_height cp ≤ t)) as [Hle|Hgt];
     [by rewrite floor_by_here, blocks_upto_all by done|]).
  - unfold floor_by. rewrite cp_iter_unfold, Hp. simpl.
    destruct (N.leb_spec (cp_height cp) t); [done|].
    unfold blocks_upto. rewrite cp_blocks_base by done. by rewrite filter_cons_False by done.
  - rewrite (floor_by_cons _ cp p), (blocks_upto_step cp p) by (done || lia).
    apply IH. by eapply cp_wf_prev.
Qed.

Lemma blocks_split cp t : cp_wf cp → cp_blocks cp = blocks_above cp t ++ blocks_upto cp t.
Proof.
  induction cp as [cp Hp|cp p Hp IH] using cp_prev_ind; intros Hwf;
    (destruct (decide (cp_height cp ≤ t)) as [Hle|Hgt];
     [by rewrite blocks_above_nil, blocks_upto_all by done|]).
  - unfold blocks_upto, blocks_above. rewrite cp_blocks_base by done.
    rewrite filter_cons_True, filter_cons_False by (simpl; lia). done.
  - rewrite (blocks_above_step cp p), (blocks_upto_step cp p) by (done || lia).
    rewrite (cp_blocks_cons cp p) by done. simpl. f_equal.
    apply IH. by eapply cp_wf_prev.
Qed.

(** The blocks above a floor can be pushed back onto it. *)
Lemma blocks_above_linked cp f t :
  cp_wf cp → floor_by cp_height cp t = Some f →
  linked_from (cp_height f) (cp_hash f) (reverse (blocks_above cp t)).
Proof.
  intros Hwf Hf. pose proof (floor_by_Some _ _ _ _ Hf) as [Hin _].
  destruct (cp_iter_suffix cp f Hin) as [l Hl].
  pose proof (cp_iter_linked cp f l Hwf Hl) as Hlk.
  enough (blocks_above cp t = (λ m, (cp_height m, cp_data m)) <$> l) as -> by done.
  pose proof (blocks_split cp t Hwf) as Hsp.
  rewrite blocks_upto_floor, Hf in Hsp by done.
  unfold cp_blocks in Hsp at 1. rewrite Hl, fmap_app in Hsp.
  by apply app_inv_tail in Hsp.
Qed.

(** ** The search loop in closed form *)

Definition settle (h : N) (d : D) (f : CheckPoint D) (tail : list (N * D)) : InsertSearch D :=
  if genesis_violation f h d then ISPanic
  else if push_conflict f h d then ISBreak (cp_prev f) []
  else ISBreak (Some f) tail.

Lemma insert_search_unfold cp h d tail :
  insert_search cp h d tail =
    let continue tail :=
      match cp_prev cp with
      | Some prev => insert_search prev h d tail
      | None => ISBreak None tail
      end in
    if genesis_violation cp h d then ISPanic
    else if h <? cp_height cp then continue (tail ++ [(cp_height cp, cp_data cp)])
    else if cp_height cp =? h then
      if cp_hash cp =? to_blockhash d then ISReturn else continue []
    else if push_conflict cp h d then continue []
    else ISBreak (Some cp) tail.
Proof. by destruct cp. Qed.

Lemma genesis_violation_low f h d : 1 < h → genesis_violation f h d = false.
Proof.
  intros Hh. unfold genesis_violation, implied_genesis.
  destruct (N.eqb_spec h 0); [lia|]. destruct (N.eqb_spec h 1); [lia|].
  apply andb_false_r.
Qed.

Lemma genesis_violation_height f h d : genesis_violation f h d = true → cp_height f = 0.
Proof. unfold genesis_violation. intros [?%N.eqb_eq _]%andb_true_iff. done. Qed.

Lemma insert_search_below f h d tail :
  cp_wf f → cp_height f < h → insert_search f h d tail = settle h d f tail.
Proof.
  intros Hwf Hlt. rewrite insert_search_unfold. unfold settle. cbv zeta.
  destruct (genesis_violation f h d); [done|].
  destruct (N.ltb_spec h (cp_height f)); [lia|].
  destruct (N.eqb_spec (cp_height f) h); [lia|].
  destruct (push_conflict f h d) eqn:Hconf; [|done].
  destruct (cp_prev f) as [p|] eqn:Hp; [|done].
  destruct (cp_wf_prev_lt f p Hwf Hp) as [Hplt _].
  assert (cp_height f + 1 = h) as Hadj.
  { unfold push_conflict in Hconf. destruct (prev_blockhash d); [|done].
    by apply andb_true_iff in Hconf as [?%N.eqb_eq _]. }
  rewrite insert_search_unfold. cbv zeta.
  rewrite genesis_violation_low by lia.
  destruct (N.ltb_spec h (cp_height p)); [lia|].
  destruct (N.eqb_spec (cp_height p) h); [lia|].
  assert (push_conflict p h d = false) as ->; [|done].
  apply push_conflict_false. lia.
Qed.

Definition search_result (cp : CheckPoint D) (h : N) (d : D) (tail : list (N * D)) :
    InsertSearch D :=
  match floor_by cp_height cp h with
  | None => ISBreak None tail
  | Some f =>
      if cp_height f =? h then
        if genesis_violation f h d then ISPanic
        else if cp_hash f =? to_blockhash d then ISReturn
        else match cp_prev f with Some p => settle h d p [] | None => ISBreak None [] end
      else settle h d f tail
  end.

Lemma insert_search_closed cp h d tail :
  cp_wf cp → insert_search cp h d tail = search_result cp h d (tail ++ blocks_above cp h).
Proof.
  revert tail. induction cp as [cp IH] using cp_below_ind; intros tail Hwf.
  destruct (decide (h < cp_height cp)) as [Hlt|Hge].
  - rewrite insert_search_unfold. cbv zeta.
    destruct (genesis_violation cp h d) eqn:Hg;
      [apply genesis_violation_height in Hg; lia|].
    destruct (N.ltb_spec h (cp_height cp)); [|lia]. unfold search_result.
    destruct (cp_prev cp) as [p|] eqn:Hp.
    + rewrite (floor_by_cons _ cp p), (blocks_above_step cp p) by done.
      rewrite IH.
      * unfold search_result. by rewrite <-(assoc_L (++)).
      * rewrite (cp_iter_prev cp p) by done. apply elem_of_cons. right. apply cp_iter_self.
      * intros ->. pose proof (cp_height_decreasing cp cp Hwf Hp). lia.
      * by eapply cp_wf_prev.
    + unfold floor_by, blocks_above. rewrite cp_iter_unfold, cp_blocks_base, Hp by done. simpl.
      destruct (N.leb_spec (cp_height cp) h); [lia|]. by rewrite filter_cons_True.
  - rewrite blocks_above_nil, app_nil_r by (done || lia).
    unfold search_result. rewrite floor_by_here by lia.
    destruct (N.eqb_spec (cp_height cp) h) as [Heq|Hne].
    + rewrite insert_search_unfold. cbv zeta.
      destruct (genesis_violation cp h d); [done|].
      destruct (N.ltb_spec h (cp_height cp)); [lia|].
      destruct (N.eqb_spec (cp_height cp) h); [|done].
      destruct (cp_hash cp =? to_blockhash d); [done|].
      destruct (cp_prev cp) as [p|] eqn:Hp; [|done].
      pose proof (cp_height_decreasing cp p Hwf Hp).
      apply insert_search_below; [by eapply cp_wf_prev|lia].
    + apply insert_search_below; [done|lia].
Qed.

(** ** What the chain holds afterwards *)

(** A different block is recorded at [h]. *)
Definition conflict_at (cp : CheckPoint D) (h : N) (d : D) : bool :=
  match cp_get cp h with Some n => negb (cp_hash n =? to_blockhash d) | None => false end.
(** The block right below [h] is not the one [d] names as its parent. *)
Definition conflict_below (cp : CheckPoint D) (h : N) (d : D) : bool :=
  match checked_sub h 1 ≫= cp_get cp with Some n => push_conflict n h d | None => false end.
(** The block right above [h] names another parent than [d]. *)
Definition conflict_above (cp : CheckPoint D) (h : N) (d : D) : bool :=
  match cp_get cp (h + 1) with
  | Some n => match prev_blockhash (cp_data n) with
              | Some y => negb (y =? to_blockhash d)
              | None => false
              end
  | None => false
  end.

Definition insert_keeps_above (cp : CheckPoint D) (h : N) (d : D) : bool :=
  negb (conflict_at cp h d || conflict_below cp h d || conflict_above cp h d).

(** The blocks below [h] that stay: all of them, except the one right below
    [h] when [d] contradicts it. *)
Definition insert_below (cp : CheckPoint D) (h : N) (d : D) : list (N * D) :=
  filter (λ b : N * D, b.1 < h ∧ (conflict_below cp h d = true → b.1 + 1 ≠ h)) (cp_blocks cp).

Definition insert_blocks (cp : CheckPoint D) (h : N) (d : D) : list (N * D) :=
  (if insert_keeps_above cp h d then blocks_above cp h else []) ++
  (h, d) :: insert_below cp h d.

Lemma extend_one b h d :
  cp_wf b → h ≤ U32_MAX → cp_height b < h → push_conflict b h d = false →
  ∃ c, cp_push b h d = Ok c ∧ cp_wf c ∧ cp_height c = h ∧ cp_hash c = to_blockhash d ∧
    cp_blocks c = (h, d) :: cp_blocks b.
Proof.
  intros Hwf Hmax Hlt Hlink. destruct (cp_push_Ok b h d) as [c Hc]; [done..|].
  exists c. split; [done|].
  apply cp_push_wf in Hc as (Hwfc & Hh & Hd & Hp); [|done..].
  rewrite cp_wf_hash, Hd, (cp_blocks_cons c b), Hh, Hd by done. done.
Qed.

(** Consecutive blocks of [l], lowest first, fit together. *)
Definition linked (l : list (N * D)) : Prop :=
  match l with [] => True | (h, d) :: l => linked_from h (to_blockhash d) l end.

Lemma linked_from_suffix l1 l2 h x : linked_from h x (l1 ++ l2) → linked l2.
Proof.
  revert h x. induction l1 as [|[h1 d1] l1 IH]; intros h x; simpl.
  - destruct l2 as [|[h2 d2] l2]; [done|]. by intros (_ & _ & ?).
  - intros (_ & _ & ?). by eapply IH.
Qed.

Lemma linked_suffix l1 l2 : linked (l1 ++ l2) → linked l2.
Proof. destruct l1 as [|[h d] l1]; [done|]. apply linked_from_suffix. Qed.

Lemma cp_blocks_linked cp : cp_wf cp → linked (reverse (cp_blocks cp)).
Proof.
  intros Hwf.
  assert (∃ l n, cp_iter cp = l ++ cp_iter n ∧ cp_prev n = None) as (l & n & Hl & Hn).
  { clear Hwf. induction cp as [cp Hp|cp p Hp IH] using cp_prev_ind.
    - by exists [], cp.
    - destruct IH as (l & n & Hl & Hn). exists (cp :: l), n.
      by rewrite (cp_iter_prev cp p), Hl. }
  assert (n ∈ cp_iter cp) as Hin.
  { rewrite Hl. apply elem_of_app. right. apply cp_iter_self. }
  pose proof (cp_iter_linked cp n l Hwf Hl) as Hlk.
  unfold cp_blocks. rewrite Hl, (cp_iter_unfold n), Hn, fmap_app, reverse_app.
  simpl. rewrite <-cp_wf_hash; [done|]. by eapply cp_wf_iter.
Qed.

Lemma blocks_above_linked_list cp t : cp_wf cp → linked (reverse (blocks_above cp t)).
Proof.
  intros Hwf. pose proof (cp_blocks_linked cp Hwf) as Hl.
  rewrite (blocks_split cp t), reverse_app in Hl by done. by eapply linked_suffix.
Qed.

(** Extending over a linked tail either keeps all of it or stops at once. *)
Lemma extend_tail c l :
  cp_wf c → heights_fit l → Forall (λ b : N * D, cp_height c < b.1) l → linked l →
  ∃ c', either_side (cp_extend c l) = c' ∧ cp_wf c' ∧
    cp_blocks c' = (if match l with
                       | (h1, d1) :: _ => push_conflict c h1 d1
                       | [] => false
                       end then [] else reverse l) ++ cp_blocks c.
Proof.
  intros Hwf Hfit Hab Hl.
  destruct l as [|[h1 d1] l]; [by exists c|]. simpl in *.
  apply Forall_cons in Hab as [Hh1 Hab]. apply Forall_cons in Hfit as [Hm1 Hfit].
  simpl in Hh1, Hm1.
  destruct (push_conflict c h1 d1) eqn:Hconf.
  - unfold cp_push. rewrite Hconf. destruct (N.leb_spec h1 (cp_height c)); [lia|].
    by exists c.
  - destruct (extend_one c h1 d1) as (c1 & -> & Hwf1 & Hh & Hx & Hbl); [done..|].
    destruct (cp_extend_linked c1 l) as (c2 & -> & Hwf2 & Hbl2); [done..|by rewrite Hh, Hx|].
    exists c2. split_and!; [done|done|].
    by rewrite Hbl2, Hbl, reverse_cons, <-(assoc_L (++)).
Qed.

Lemma conflict_above_head cp c h d :
  cp_wf cp → cp_height c = h → cp_hash c = to_blockhash d →
  match reverse (blocks_above cp h) with
  | (h1, d1) :: _ => push_conflict c h1 d1
  | [] => false
  end = conflict_above cp h d.
Proof.
  intros Hwf Hch Hcx. unfold conflict_above.
  assert (Hsorted : StronglySorted (λ a b : N * D, b.1 < a.1) (blocks_above cp h)).
  { pose proof (cp_blocks_sorted cp Hwf) as Hs. rewrite (blocks_split cp h) in Hs by done.
    by apply StronglySorted_app_1_l in Hs. }
  assert (Hin : ∀ k v, (k, v) ∈ blocks_above cp h ↔ h < k ∧ cp_map cp !! k = Some v).
  { intros k v. unfold blocks_above, cp_map. rewrite list_elem_of_filter.
    rewrite <-elem_of_list_to_map by (by apply NoDup_cp_blocks). done. }
  destruct (reverse (blocks_above cp h)) as [|[h1 d1] r] eqn:Hr.
  - apply (f_equal reverse) in Hr. rewrite reverse_involutive in Hr.
    destruct (cp_get cp (h + 1)) as [n|] eqn:Hg; [|done].
    assert ((h + 1, cp_data n) ∈ blocks_above cp h) as Hel.
    { apply Hin. rewrite cp_map_lookup, Hg by done. split; [lia|done]. }
    rewrite Hr in Hel. by apply elem_of_nil in Hel.
  - apply (f_equal reverse) in Hr. rewrite reverse_involutive, reverse_cons in Hr.
    rewrite Hr in Hsorted, Hin.
    assert ((h1, d1) ∈ reverse r ++ [(h1, d1)]) as Hel by set_solver.
    apply Hin in Hel as [Hlt Hmap]. rewrite cp_map_lookup in Hmap by done.
    apply fmap_Some in Hmap as (n1 & Hn1 & ->).
    destruct (cp_get cp (h + 1)) as [n|] eqn:Hg.
    + assert (h1 = h + 1) as ->.
      { assert ((h + 1, cp_data n) ∈ reverse r ++ [(h1, cp_data n1)]) as Hel.
        { apply Hin. rewrite cp_map_lookup, Hg by done. split; [lia|done]. }
        apply elem_of_app in Hel as [Hel|Hel%list_elem_of_singleton]; [|by simplify_eq].
        eapply StronglySorted_app_1_elem_of in Hsorted;
          [|exact Hel|by apply list_elem_of_singleton]. simpl in Hsorted. lia. }
      assert (n1 = n) as -> by congruence. unfold push_conflict.
      rewrite Hch, Hcx, N.eqb_refl. simpl.
      destruct (prev_blockhash (cp_data n)); [|done]. by rewrite N.eqb_sym.
    + apply push_conflict_false. rewrite Hch. intros <-. congruence.
Qed.

(** [g] is the highest node below height [h]. *)
Definition highest_below (cp : CheckPoint D) (h : N) (g : option (CheckPoint D)) : Prop :=
  match g with
  | Some f => cp_height f < h ∧
      ∃ l, cp_iter cp = l ++ cp_iter f ∧ ∀ n, n ∈ l → h ≤ cp_height n
  | None => ∀ n, n ∈ cp_iter cp → h ≤ cp_height n
  end.

Lemma conflict_below_highest cp h d g :
  cp_wf cp → highest_below cp h g →
  conflict_below cp h d = match g with Some f => push_conflict f h d | None => false end.
Proof.
  intros Hwf Hg. unfold conflict_below.
  destruct (checked_sub h 1) as [h'|] eqn:Hsub; simpl.
  - apply checked_sub_Some in Hsub as [Hh ->].
    destruct (cp_get cp (h - 1)) as [n|] eqn:Hn.
    + apply cp_get_Some in Hn as [Hn Hnh]; [|done].
      destruct g as [f|]; [|specialize (Hg n Hn); lia].
      destruct Hg as (Hf & l & Hl & Hlge).
      assert (n ∈ cp_iter f) as Hnf.
      { rewrite Hl in Hn. apply elem_of_app in Hn as [Hn|Hn]; [|done].
        specialize (Hlge n Hn). lia. }
      assert (cp_wf f) as Hwff.
      { eapply cp_wf_iter; [done|]. rewrite Hl. apply elem_of_app. right. apply cp_iter_self. }
      destruct (decreasing_le cp_height f n) as [->|]; auto using cp_height_decreasing. lia.
    + destruct g as [f|]; [|done]. destruct Hg as (Hf & l & Hl & Hlge).
      symmetry. apply push_conflict_false. intros Hadj.
      exfalso. apply (proj1 (cp_get_None cp (h - 1) Hwf) Hn f); [|lia].
      rewrite Hl. apply elem_of_app. right. apply cp_iter_self.
  - apply checked_sub_None in Hsub. destruct g as [f|]; [|done].
    destruct Hg as [Hf _]. lia.
Qed.

Lemma insert_below_highest cp h d g :
  cp_wf cp → highest_below cp h g →
  insert_below cp h d =
    match g with
    | Some f => if push_conflict f h d
                then match cp_prev f with Some p => cp_blocks p | None => [] end
                else cp_blocks f
    | None => []
    end.
Proof.
  intros Hwf Hg. unfold insert_below. rewrite (conflict_below_highest cp h d g) by done.
  destruct g as [f|].
  - destruct Hg as (Hf & l & Hl & Hlge).
    assert (cp_wf f) as Hwff.
    { eapply cp_wf_iter; [done|]. rewrite Hl. apply elem_of_app. right. apply cp_iter_self. }
    assert (cp_blocks cp = ((λ n, (cp_height n, cp_data n)) <$> l) ++ cp_blocks f) as ->.
    { unfold cp_blocks. by rewrite Hl, fmap_app. }
    rewrite filter_app, filter_none, app_nil_l.
    2:{ intros b (n & -> & Hn)%list_elem_of_fmap. specialize (Hlge n Hn). simpl. lia. }
    destruct (push_conflict f h d) eqn:Hconf.
    + assert (cp_height f + 1 = h) as Hadj.
      { unfold push_conflict in Hconf. destruct (prev_blockhash d); [|done].
        by apply andb_true_iff in Hconf as [?%N.eqb_eq _]. }
      destruct (cp_prev f) as [p|] eqn:Hp.
      * rewrite (cp_blocks_cons f p) by done.
        pose proof (cp_height_decreasing f p Hwff Hp).
        rewrite filter_cons_False by (simpl; intros [_ Hx]; by apply Hx).
        apply filter_all. intros b Hb.
        apply blocks_le_height in Hb; [lia|]. by eapply cp_wf_prev.
      * rewrite cp_blocks_base by done.
        by rewrite filter_cons_False by (simpl; intros [_ Hx]; by apply Hx).
    + apply filter_all. intros b Hb. apply blocks_le_height in Hb; [|done].
      split; [lia|done].
  - apply filter_none. intros [k v]. rewrite elem_of_cp_blocks.
    intros (n & Hn & <- & _) [Hlt _]. specialize (Hg n Hn). simpl in Hlt. lia.
Qed.

(** ** The rebuilt chain *)

Definition rebuild (base : option (CheckPoint D)) (tail : list (N * D)) : option (CheckPoint D) :=
  match base with
  | Some base_cp => Some (either_side (cp_extend base_cp tail))
  | None => match cp_from_blocks tail with Ok cp => Some cp | Err err => err end
  end.

Lemma cp_insert_rebuild cp h d :
  cp_insert cp h d =
    match insert_search cp h d [] with
    | ISReturn => Some cp
    | ISPanic => None
    | ISBreak base tail => rebuild base ((h, d) :: reverse tail)
    end.
Proof.
  unfold cp_insert, rebuild. destruct (insert_search cp h d []); try done.
  by rewrite rev_reverse, reverse_snoc.
Qed.

Lemma rebuild_spec base h d l :
  match base with
  | Some b => cp_wf b ∧ cp_height b < h ∧ push_conflict b h d = false
  | None => True
  end →
  h ≤ U32_MAX → heights_fit l → Forall (λ b : N * D, h < b.1) l → linked l →
  ∃ c c', cp_height c = h ∧ cp_hash c = to_blockhash d ∧
    rebuild base ((h, d) :: l) = Some c' ∧ cp_wf c' ∧
    cp_blocks c' =
      (if match l with (h1, d1) :: _ => push_conflict c h1 d1 | [] => false end
       then [] else reverse l) ++
      (h, d) :: match base with Some b => cp_blocks b | None => [] end.
Proof.
  intros Hbase Hmax Hfit Hab Hl.
  assert (∃ c, cp_wf c ∧ cp_height c = h ∧ cp_hash c = to_blockhash d ∧
    cp_blocks c = (h, d) :: (match base with Some b => cp_blocks b | None => [] end) ∧
    rebuild base ((h, d) :: l) = Some (either_side (cp_extend c l)))
    as (c & Hwf & Hh & Hx & Hbl & Hre).
  { destruct base as [b|]; simpl.
    - destruct Hbase as (Hwf & Hlt & Hconf).
      destruct (extend_one b h d) as (c & -> & ?); [done..|]. naive_solver.
    - exists (cp_new h d). split_and!; [by constructor|done..|].
      by destruct (cp_extend _ l). }
  destruct (extend_tail c l) as (c' & Hc' & Hwf' & Hbl'); [done|done|by rewrite Hh|done|].
  exists c, c'. by rewrite Hre, Hc', Hbl', Hbl.
Qed.

(** ** The contract of [insert] *)

(** A checkpoint at [h] already carries the hash of [d]. *)
Definition same_at (cp : CheckPoint D) (h : N) (d : D) : bool :=
  match cp_get cp h with Some n => cp_hash n =? to_blockhash d | None => false end.

(** The insertion implies another genesis than the one recorded. *)
Definition insert_panics (cp : CheckPoint D) (h : N) (d : D) : bool :=
  match cp_get cp 0 with
  | Some g => genesis_violation g h d && ((h =? 0) || negb (same_at cp h d))
  | None => false
  end.

Lemma settle_spec cp h d g tail :
  cp_wf cp → highest_below cp h g → h ≤ U32_MAX → same_at cp h d = false →
  match g with
  | Some f => genesis_violation f h d
  | None => false
  end = insert_panics cp h d →
  tail = (if conflict_at cp h d then [] else blocks_above cp h) →
  match (match g with Some f => settle h d f tail | None => ISBreak None tail end) with
  | ISReturn => False
  | ISPanic => insert_panics cp h d = true
  | ISBreak base tail => insert_panics cp h d = false ∧
      ∃ cp', rebuild base ((h, d) :: reverse tail) = Some cp' ∧ cp_wf cp' ∧
        cp_blocks cp' = insert_blocks cp h d
  end.
Proof.
  intros Hwf Hg Hmax Hsame Hpanic Htail.
  assert (Hkey : ∀ base tl,
    match base with
    | Some b => cp_wf b ∧ cp_height b < h ∧ push_conflict b h d = false
    | None => True
    end →
    match base with Some b => cp_blocks b | None => [] end = insert_below cp h d →
    tl = (if conflict_at cp h d || conflict_below cp h d then [] else blocks_above cp h) →
    ∃ cp', rebuild base ((h, d) :: reverse tl) = Some cp' ∧ cp_wf cp' ∧
        cp_blocks cp' = insert_blocks cp h d).
  { intros base tl Hbase Hbel Htl.
    destruct (rebuild_spec base h d (reverse tl)) as (c & c' & Hh & Hx & Hre & Hwf' & Hbl).
    - done.
    - done.
    - subst tl. apply Forall_reverse. destruct (_ || _); [constructor|].
      pose proof (blocks_fit cp Hwf) as Hfit. rewrite (blocks_split cp h) in Hfit by done.
      by apply Forall_app in Hfit as [? _].
    - subst tl. apply Forall_reverse. destruct (_ || _); [constructor|].
      apply Forall_forall. by intros b [? _]%list_elem_of_filter.
    - subst tl. destruct (_ || _); [by rewrite reverse_nil|]. by apply blocks_above_linked_list.
    - exists c'. split_and!; [done..|]. rewrite Hbl, Hbel. unfold insert_blocks.
      f_equal. unfold insert_keeps_above. rewrite reverse_involutive. subst tl.
      destruct (conflict_at cp h d || conflict_below cp h d); simpl; [done|].
      rewrite (conflict_above_head cp c h d) by done. by destruct (conflict_above cp h d). }
  pose proof (conflict_below_highest cp h d g Hwf Hg) as Hcb.
  pose proof (insert_below_highest cp h d g Hwf Hg) as Hib.
  destruct g as [f|]; simpl in *.
  - assert (cp_wf f) as Hwff.
    { destruct Hg as (_ & l & Hl & _). eapply cp_wf_iter; [done|].
      rewrite Hl. apply elem_of_app. right. apply cp_iter_self. }
    destruct Hg as [Hlt _]. unfold settle.
    destruct (genesis_violation f h d); [done|].
    destruct (push_conflict f h d) eqn:Hconf.
    + split; [done|]. apply Hkey.
      * destruct (cp_prev f) as [p|] eqn:Hp; [|done].
        pose proof (cp_height_decreasing f p Hwff Hp).
        split_and!; [by eapply cp_wf_prev|lia|]. apply push_conflict_false. lia.
      * by rewrite Hib.
      * by rewrite Hcb, orb_true_r.
    + split; [done|]. apply Hkey; [done|done|]. by rewrite Hcb, orb_false_r.
  - split; [done|]. apply (Hkey None tail); [done|done|]. by rewrite Hcb, orb_false_r.
Qed.

Lemma floor_by_split cp t f :
  floor_by cp_height cp t = Some f →
  ∃ l, cp_iter cp = l ++ cp_iter f ∧ ∀ n, n ∈ l → t < cp_height n.
Proof.
  induction cp as [cp Hp|cp p Hp IH] using cp_prev_ind.
  - unfold floor_by. rewrite cp_iter_unfold, Hp. simpl.
    destruct (N.leb_spec (cp_height cp) t); [|done]. intros [= <-].
    exists []. split; [by rewrite cp_iter_unfold, Hp|set_solver].
  - destruct (decide (cp_height cp ≤ t)) as [Hle|Hgt].
    + rewrite floor_by_here by done. intros [= <-]. exists []. split; [done|set_solver].
    + rewrite (floor_by_cons _ cp p) by (done || lia). intros (l & Hl & Hlt)%IH.
      exists (cp :: l). rewrite (cp_iter_prev cp p), Hl by done. split; [done|].
      intros n [->|Hn]%elem_of_cons; [lia|auto].
Qed.

Lemma cp_wf_get_base cp h f :
  cp_wf cp → f ∈ cp_iter cp → cp_height f = h → cp_get cp h = Some f.
Proof. intros. by apply cp_get_Some. Qed.

(** Which node the genesis assertion looks at. *)
Lemma insert_panics_below cp h d g :
  cp_wf cp → highest_below cp h g → same_at cp h d = false →
  h ≠ 0 →
  match g with Some f => genesis_violation f h d | None => false end = insert_panics cp h d.
Proof.
  intros Hwf Hg Hsame Hh0. unfold insert_panics. rewrite Hsame. simpl.
  rewrite orb_true_r.
  destruct (cp_get cp 0) as [n|] eqn:Hn.
  - apply cp_get_Some in Hn as [Hn Hnh]; [|done]. rewrite andb_true_r.
    destruct g as [f|]; [|specialize (Hg n Hn); lia].
    destruct Hg as (Hlt & l & Hl & Hlge).
    assert (cp_wf f) as Hwff.
    { eapply cp_wf_iter; [done|]. rewrite Hl. apply elem_of_app. right. apply cp_iter_self. }
    assert (n ∈ cp_iter f) as Hnf.
    { rewrite Hl in Hn. apply elem_of_app in Hn as [Hn|Hn]; [specialize (Hlge n Hn); lia|done]. }
    destruct (decide (1 < h)) as [H1|H1].
    { by rewrite !genesis_violation_low. }
    destruct (decreasing_le cp_height f n) as [->|]; auto using cp_height_decreasing. lia.
  - destruct g as [f|]; [|done]. destruct (genesis_violation f h d) eqn:Hv; [|done].
    apply genesis_violation_height in Hv. exfalso.
    apply (proj1 (cp_get_None cp 0 Hwf) Hn f); [|done].
    destruct Hg as (_ & l & -> & _). apply elem_of_app. right. apply cp_iter_self.
Qed.

Lemma cp_insert_correct cp h d :
  cp_wf cp → h ≤ U32_MAX →
  if insert_panics cp h d then cp_insert cp h d = None
  else ∃ cp', cp_insert cp h d = Some cp' ∧ cp_wf cp' ∧
    if same_at cp h d then cp' = cp else cp_blocks cp' = insert_blocks cp h d.
Proof.
  intros Hwf Hmax. rewrite cp_insert_rebuild, insert_search_closed by done. simpl.
  unfold search_result.
  destruct (floor_by cp_height cp h) as [f|] eqn:Hf.
  - destruct (floor_by_split cp h f Hf) as (l & Hl & Hlgt).
    pose proof (floor_by_Some _ _ _ _ Hf) as [Hin Hle].
    pose proof (cp_wf_iter cp f Hwf Hin) as Hwff.
    destruct (N.eqb_spec (cp_height f) h) as [Hfh|Hne].
    + pose proof (cp_wf_get_base cp h f Hwf Hin Hfh) as Hget.
      assert (Hsame : same_at cp h d = (cp_hash f =? to_blockhash d))
        by (unfold same_at; by rewrite Hget).
      assert (Hpan : genesis_violation f h d = true → insert_panics cp h d = true).
      { intros Hv. pose proof (genesis_violation_height f h d Hv) as H0.
        unfold insert_panics. rewrite H0 in Hfh. subst h. by rewrite Hget, Hv. }
      destruct (genesis_violation f h d) eqn:Hv; [by rewrite Hpan|].
      destruct (cp_hash f =? to_blockhash d) eqn:Hx.
      * assert (insert_panics cp h d = false) as ->.
        { unfold insert_panics. destruct (cp_get cp 0) as [n|] eqn:Hn; [|done].
          rewrite Hsame. simpl. rewrite orb_false_r.
          destruct (N.eqb_spec h 0) as [->|]; [|apply andb_false_r].
          assert (n = f) as -> by congruence. by rewrite Hv. }
        exists cp. by rewrite Hsame.
      * assert (Hsettle := settle_spec cp h d (cp_prev f) []).
        assert (Hhb : highest_below cp h (cp_prev f)).
        { destruct (cp_prev f) as [p|] eqn:Hp; simpl.
          - split; [rewrite <-Hfh; by apply cp_height_decreasing|].
            exists (l ++ [f]). split; [by rewrite Hl, (cp_iter_prev f p), <-(assoc_L (++))|].
            intros n [Hn| ->%list_elem_of_singleton]%elem_of_app; [|lia].
            specialize (Hlgt n Hn). lia.
          - intros n Hn. rewrite Hl, cp_iter_unfold, Hp in Hn.
            apply elem_of_app in Hn as [Hn| ->%list_elem_of_singleton]; [|lia].
            specialize (Hlgt n Hn). lia. }
        assert (Hpan2 : match cp_prev f with Some p => genesis_violation p h d | None => false end
                        = insert_panics cp h d).
        { destruct (decide (h = 0)) as [->|]; [|by apply insert_panics_below].
          destruct (cp_prev f) as [p|] eqn:Hp.
          - pose proof (cp_height_decreasing f p Hwff Hp). lia.
          - unfold insert_panics. by rewrite Hget, Hv. }
        rewrite Hsame in Hsettle.
        specialize (Hsettle Hwf Hhb Hmax eq_refl Hpan2).
        ospecialize (Hsettle _).
        { unfold conflict_at. by rewrite Hget, Hx. }
        destruct (cp_prev f) as [p|]; [destruct (settle h d p [])|];
          first [done | (by rewrite Hsettle) | idtac].
        -- destruct Hsettle as [-> ?]. by rewrite Hsame.
        -- destruct Hsettle as [-> ?]. by rewrite Hsame.
    + assert (Hget : cp_get cp h = None).
      { apply cp_get_None; [done|]. intros n Hn Hnh. rewrite Hl in Hn.
        apply elem_of_app in Hn as [Hn|Hn]; [specialize (Hlgt n Hn); lia|].
        destruct (decreasing_le cp_height f n) as [->|]; auto using cp_height_decreasing. lia. }
      assert (Hsame : same_at cp h d = false) by (unfold same_at; by rewrite Hget).
      assert (Hhb : highest_below cp h (Some f)).
      { split; [lia|]. exists l. split; [done|]. intros n Hn. specialize (Hlgt n Hn). lia. }
      pose proof (settle_spec cp h d (Some f) (blocks_above cp h) Hwf Hhb Hmax Hsame) as Hsettle.
      ospecialize (Hsettle _); [by apply (insert_panics_below cp h d (Some f)); [..|lia]|].
      ospecialize (Hsettle _); [unfold conflict_at; by rewrite Hget|].
      destruct (settle h d f (blocks_above cp h)); [done|by rewrite Hsettle|].
      destruct Hsettle as [-> ?]. by rewrite Hsame.
  - assert (Hhb : highest_below cp h None).
    { intros n Hn. apply (floor_by_None _ _ _ n) in Hf; [lia|done]. }
    assert (Hget : cp_get cp h = None).
    { apply cp_get_None; [done|]. intros n Hn Hnh.
      apply (floor_by_None _ _ _ n) in Hf; [lia|done]. }
    assert (Hsame : same_at cp h d = false) by (unfold same_at; by rewrite Hget).
    pose proof (settle_spec cp h d None (blocks_above cp h) Hwf Hhb Hmax Hsame) as Hsettle.
    ospecialize (Hsettle _).
    { unfold insert_panics. destruct (cp_get cp 0) as [n|] eqn:Hn; [|done].
      apply cp_get_Some in Hn as [Hn Hn0]; [|done].
      apply (floor_by_None _ _ _ n) in Hf; [lia|done]. }
    ospecialize (Hsettle _); [unfold conflict_at; by rewrite Hget|].
    destruct Hsettle as [-> ?]. by rewrite Hsame.
Qed.
End insert.
