(* ===== verification/Samples.v ===== *)
(** * Concrete data on which the properties are instantiated

    Small chains over plain block hashes and over a header type that knows its
    parent hash and its time. *)
From S2P Require Import Prelude Block CheckPoint CheckPointFacts.
#[local] Open Scope N_scope.

(** A header: its hash, its parent's hash and its time. *)
Record SampleHeader := mkHeader { sh_hash : N; sh_prev : N; sh_time : N }.

#[export] Instance SampleHeader_eq_dec : EqDecision SampleHeader.
Proof. solve_decision. Defined.

#[export] Instance SampleHeader_BlockHeader : BlockHeader SampleHeader := {
  header_block_hash := sh_hash;
  header_prev_blockhash := sh_prev;
  header_time := sh_time;
}.
#[export] Instance SampleHeader_ToBlockHash : ToBlockHash SampleHeader :=
  Header_ToBlockHash.
#[export] Instance SampleHeader_ToBlockTime : ToBlockTime SampleHeader :=
  Header_ToBlockTime.

(** The chain holding [blocks], given lowest first. *)
Definition sample_chain {D} `{!ToBlockHash D} (h : N) (d : D) (blocks : list (N * D)) :
    CheckPoint D :=
  either_side (cp_extend (cp_new h d) blocks).

Lemma sample_chain_wf {D} `{!ToBlockHash D} (h : N) (d : D) (blocks : list (N * D)) :
  forallb (λ b : N * D, b.1 <=? U32_MAX) ((h, d) :: blocks) = true →
  cp_wf (sample_chain h d blocks).
Proof.
  simpl. intros [Hh Hfit]%andb_true_iff.
  destruct (cp_extend_spec (cp_new h d) blocks) as (l1 & l2 & _ & Hwf & _); [| |done].
  - constructor. by apply N.leb_le.
  - apply Forall_forall. intros b Hb%list_elem_of_In.
    eapply forallb_forall in Hfit; [|done]. by apply N.leb_le.
Qed.

(** Heights 0, 1, 2, 5, 7, 8, 20 over block hashes 100 + height. *)
Definition hash_chain : CheckPoint BlockHash :=
  sample_chain 0 100 [(1, 101); (2, 102); (5, 105); (7, 107); (8, 108); (20, 120)].

Lemma hash_chain_wf : cp_wf hash_chain.
Proof. by apply sample_chain_wf. Qed.

(** Twelve consecutive headers, with times out of order. *)
Definition header_chain : CheckPoint SampleHeader :=
  sample_chain 0 (mkHeader 100 0 50)
    [(1, mkHeader 101 100 90); (2, mkHeader 102 101 70); (3, mkHeader 103 102 60);
     (4, mkHeader 104 103 95); (5, mkHeader 105 104 85); (6, mkHeader 106 105 110);
     (7, mkHeader 107 106 100); (8, mkHeader 108 107 130); (9, mkHeader 109 108 120);
     (10, mkHeader 110 109 140); (11, mkHeader 111 110 105)].

Lemma header_chain_wf : cp_wf header_chain.
Proof. by apply sample_chain_wf. Qed.

#[export] Hint Resolve hash_chain_wf header_chain_wf : core.
