(* ===== verification/CheckPointSpec.v ===== *)
(** * What checkpoint chains promise

    The properties of [crates/core/src/checkpoint.rs], each with an instance
    on a sample chain. *)
From S2P Require Import Prelude Block CheckPoint CheckPointFacts CheckPointInsert Samples.
#[local] Open Scope N_scope.

Section spec.
Context {D : Type} `{!ToBlockHash D}.
Implicit Types cp n : CheckPoint D.

Lemma cp_iter_lookup cp i n :
  cp_wf cp → cp_iter cp !! i = Some n → cp_index n + N.of_nat i = cp_index cp.
Proof.
  revert i. induction cp as [cp Hp|cp p Hp IH] using cp_prev_ind; intros i Hwf.
  - rewrite cp_iter_unfold, Hp. destruct i as [|i]; simpl; [|done]. intros [= ->]. lia.
  - rewrite (cp_iter_prev cp p) by done. destruct i as [|i]; simpl; [intros [= ->]; lia|].
    intros Hi. destruct (cp_wf_prev_lt cp p Hwf Hp) as [_ ->].
    apply IH in Hi; [lia|]. by eapply cp_wf_prev.
Qed.

Lemma cp_iter_lookup_index cp n :
  cp_wf cp → n ∈ cp_iter cp → cp_iter cp !! N.to_nat (cp_index cp - cp_index n) = Some n.
Proof.
  intros Hwf [i Hi]%list_elem_of_lookup. pose proof (cp_iter_lookup cp i n Hwf Hi).
  by replace (N.to_nat (cp_index cp - cp_index n)) with i by lia.
Qed.

(** [ancestor_by_index], which rides skip pointers, returns the node of
    the chain with the requested index: the one reached by as many [prev]
    steps as the indices differ.  In particular its [expect] never panics. *)
Theorem ancestor_by_index_correct cp target :
  cp_wf cp → target ≤ cp_index cp →
  ∃ n, ancestor_by_index cp target = Some n ∧ cp_index n = target ∧
    cp_iter cp !! N.to_nat (cp_index cp - target) = Some n.
Proof.
  intros Hwf Hle. destruct (floor_by_index_exact cp target) as (n & Hn & <-); [done..|].
  exists n. rewrite ancestor_by_index_floor by done. split_and!; [done..|].
  apply cp_iter_lookup_index; [done|]. by apply floor_by_Some in Hn as [? _].
Qed.

(** [walk_to_floor], which rides skip pointers by height, finds exactly
    what a linear scan from the tip finds: the highest checkpoint at or below
    the target, and [None] only when the base lies above it. *)
Theorem walk_to_floor_correct cp target_height :
  cp_wf cp →
  walk_to_floor cp target_height =
    List.find (λ n, cp_height n <=? target_height) (cp_iter cp).
Proof. intros Hwf. by rewrite walk_to_floor_floor. Qed.

(** ** Ranges *)

Definition below_end (end_bound : Bound) (cp : CheckPoint D) : bool :=
  match end_bound with
  | Included b => cp_height cp <=? b
  | Excluded b => cp_height cp <? b
  | Unbounded => true
  end.

Lemma take_while_filter (f : CheckPoint D → bool) l :
  (∀ i j a b, l !! i = Some a → l !! j = Some b → (i < j)%nat → f b = true → f a = true) →
  take_while f l = filter (λ n, f n = true) l.
Proof.
  induction l as [|x l IH]; intros Hdown; simpl; [done|].
  destruct (f x) eqn:Hx.
  - rewrite filter_cons_True by done. f_equal. apply IH. intros i j a b Hi Hj Hij.
    apply (Hdown (S i) (S j)); [done..|lia].
  - rewrite filter_cons_False by (by rewrite Hx). symmetry. apply filter_none.
    intros y [j Hj]%list_elem_of_lookup Hy.
    rewrite (Hdown 0%nat (S j) x y) in Hx; [done..|lia|done].
Qed.

Lemma cp_iter_lookup_lt cp i j a b :
  cp_wf cp → cp_iter cp !! i = Some a → cp_iter cp !! j = Some b → (i < j)%nat →
  cp_height b < cp_height a.
Proof.
  intros Hwf. apply (StronglySorted_lookup (λ a b, cp_height b < cp_height a)).
  by apply cp_iter_sorted; [apply cp_height_decreasing|].
Qed.

Lemma take_while_above cp start_bound :
  cp_wf cp →
  take_while (above_start start_bound) (cp_iter cp) =
    filter (λ n, above_start start_bound n = true) (cp_iter cp).
Proof.
  intros Hwf. apply take_while_filter. intros i j a b Hi Hj Hij.
  pose proof (cp_iter_lookup_lt cp i j a b Hwf Hi Hj Hij) as Hlt.
  unfold above_start. destruct start_bound; rewrite ?N.leb_le, ?N.ltb_lt; [lia..|done].
Qed.

Lemma range_from_floor cp start_bound t :
  cp_wf cp →
  match walk_to_floor cp t with
  | Some start => take_while (above_start start_bound) (cp_iter start)
  | None => []
  end = filter (λ n, above_start start_bound n && (cp_height n <=? t) = true) (cp_iter cp).
Proof.
  intros Hwf. rewrite walk_to_floor_floor by done.
  destruct (floor_by cp_height cp t) as [f|] eqn:Hf.
  - destruct (floor_by_split cp t f Hf) as (l & Hl & Hlt).
    apply floor_by_Some in Hf as [Hin Hle].
    assert (cp_wf f) as Hwff by (by eapply cp_wf_iter).
    rewrite take_while_above by done. rewrite Hl, filter_app.
    rewrite (filter_none _ l), app_nil_l.
    + apply filter_ext_in. intros n Hn.
      destruct (decreasing_le cp_height f n) as [->|];
        auto using cp_height_decreasing; rewrite andb_true_iff, N.leb_le; naive_solver lia.
    + intros n Hn. specialize (Hlt n Hn). rewrite andb_true_iff, N.leb_le. lia.
  - symmetry. apply filter_none. intros n Hn. apply (floor_by_None _ _ _ n) in Hf; [|done].
    rewrite andb_true_iff, N.leb_le. lia.
Qed.

(** [range] yields, tip first, exactly the checkpoints of the chain whose
    height lies within the two bounds, whatever their kind. *)
Theorem cp_range_correct cp start_bound end_bound :
  cp_wf cp →
  cp_range cp start_bound end_bound =
    filter (λ n, above_start start_bound n && below_end end_bound n = true) (cp_iter cp).
Proof.
  intros Hwf. unfold cp_range. destruct end_bound as [b|b|]; simpl.
  - by apply range_from_floor.
  - destruct (checked_sub b 1) as [b'|] eqn:Hb; simpl.
    + apply checked_sub_Some in Hb as [Hb ->]. rewrite range_from_floor by done.
      apply list_filter_iff. intros n. rewrite !andb_true_iff, N.leb_le, N.ltb_lt. naive_solver lia.
    + apply checked_sub_None in Hb. symmetry. apply filter_none. intros n _.
      rewrite andb_true_iff, N.ltb_lt. lia.
  - rewrite take_while_above by done. apply list_filter_iff. intros n. by rewrite andb_true_r.
Qed.

Lemma cp_floor_at_floor cp h : cp_wf cp → cp_floor_at cp h = floor_by cp_height cp h.
Proof.
  intros Hwf. unfold cp_floor_at, cp_range. rewrite walk_to_floor_floor by done.
  destruct (floor_by cp_height cp h) as [f|]; [|done].
  by rewrite cp_iter_unfold.
Qed.

(** ** Iterators *)

Definition iter_rest (it : CheckPointIter D) : list (CheckPoint D) :=
  match it with Some cp => cp_iter cp | None => [] end.

(** The accelerated iterator methods agree with stepping: [nth n] yields
    the [n]-th checkpoint and leaves the iterator behind it, [last] yields the
    base, [count] and both bounds of [size_hint] are the number of
    checkpoints. *)
Theorem iter_methods_correct cp (n : N) :
  cp_wf cp →
  (iter_nth (Some cp) n).1 = cp_iter cp !! N.to_nat n ∧
  iter_rest (iter_nth (Some cp) n).2 = drop (S (N.to_nat n)) (cp_iter cp) ∧
  iter_last (Some cp) = last (cp_iter cp) ∧
  iter_count (Some cp) = N.of_nat (length (cp_iter cp)) ∧
  iter_size_hint (Some cp) =
    (N.of_nat (length (cp_iter cp)), Some (N.of_nat (length (cp_iter cp)))).
Proof.
  intros Hwf. pose proof (cp_wf_length cp Hwf) as Hlen.
  pose proof (cp_wf_index_le_height cp Hwf). pose proof (cp_wf_height_max cp Hwf).
  assert (Hlast : iter_last (Some cp) = last (cp_iter cp)).
  { simpl. destruct (ancestor_by_index_correct cp 0) as (b & -> & _ & Hb); [done|lia|].
    rewrite last_lookup. by replace (pred (length (cp_iter cp)))
      with (N.to_nat (cp_index cp - 0)) by lia. }
  assert (Hout : cp_index cp < n → cp_iter cp !! N.to_nat n = None ∧
                 drop (S (N.to_nat n)) (cp_iter cp) = []).
  { intros Hn. split; [apply lookup_ge_None; lia|apply drop_ge; lia]. }
  split_and!; [| |done|simpl; lia|unfold iter_size_hint; by rewrite Hlen]; simpl.
  - destruct (N.ltb_spec U32_MAX n); [by destruct Hout as [-> _]; [lia|]|].
    destruct (checked_sub (cp_index cp) n) as [t|] eqn:Ht.
    + apply checked_sub_Some in Ht as [Hle ->].
      destruct (ancestor_by_index_correct cp (cp_index cp - n)) as (b & -> & Hidx & Hb);
        [done|lia|]. simpl. rewrite <-Hb. f_equal. lia.
    + apply checked_sub_None in Ht. by destruct Hout as [-> _].
  - destruct (N.ltb_spec U32_MAX n); [by destruct Hout as [_ ->]; [lia|]|].
    destruct (checked_sub (cp_index cp) n) as [t|] eqn:Ht.
    + apply checked_sub_Some in Ht as [Hle ->].
      destruct (ancestor_by_index_correct cp (cp_index cp - n)) as (b & -> & Hidx & Hb);
        [done|lia|]. simpl.
      destruct (cp_iter_suffix cp b) as [l Hl]; [by eapply list_elem_of_lookup_2|].
      assert (length l = N.to_nat n) as Hll.
      { pose proof (cp_wf_length b ltac:(eapply cp_wf_iter; [done|];
          by eapply list_elem_of_lookup_2)) as Hlb.
        rewrite Hl, length_app in Hlen. lia. }
      rewrite Hl, <-Hll, cp_iter_unfold.
      rewrite (cons_middle b l), (assoc_L (++)), drop_app_length';
        [by destruct (cp_prev b)|]. rewrite length_app. simpl. lia.
    + apply checked_sub_None in Ht. by destruct Hout as [_ ->].
Qed.

(** ** Construction *)

(** [push] accepts a block exactly when it is higher than the tip and, if
    contiguous, does not name another parent.  The new chain is the old one
    with the block on top, is well formed again (its skip pointer is the
    ancestor at [skip_index]), and the index it counts fits [u32]; a refusal
    returns the chain unchanged. *)
Theorem cp_push_correct cp h d :
  cp_wf cp → h ≤ U32_MAX →
  match cp_push cp h d with
  | Ok cp' =>
      cp_height cp < h ∧ push_conflict cp h d = false ∧
      cp_wf cp' ∧ cp_blocks cp' = (h, d) :: cp_blocks cp ∧
      cp_index cp' = cp_index cp + 1 ∧ cp_index cp' ≤ U32_MAX ∧
      ∃ skip, cp_skip cp' = Some skip ∧ skip ∈ cp_iter cp ∧
        cp_index skip = skip_index (cp_index cp')
  | Err e => e = cp ∧ (h ≤ cp_height cp ∨ push_conflict cp h d = true)
  end.
Proof.
  intros Hwf Hmax. destruct (cp_push cp h d) as [cp'|e] eqn:Hpush;
    [|by apply cp_push_Err].
  assert (cp_height cp < h ∧ push_conflict cp h d = false) as [Hlt Hconf].
  { revert Hpush. unfold cp_push. destruct (N.leb_spec h (cp_height cp)); [done|].
    by destruct (push_conflict cp h d). }
  apply cp_push_wf in Hpush as (Hwf' & Hh & Hd & Hp); [|done..].
  destruct (cp_wf_prev_lt cp' cp Hwf' Hp) as [_ Hidx].
  pose proof (cp_wf_index_le_height cp' Hwf').
  assert (∃ skip, cp_skip cp' = Some skip) as [skip Hskip].
  { clear -Hwf' Hp. destruct Hwf'; simpl in *; [done|eauto]. }
  destruct (cp_wf_skip cp' skip Hwf' Hskip) as (Hin & Hsi & Hslt).
  split_and!; [done..| |done|lia|].
  - by rewrite (cp_blocks_cons cp' cp), Hh, Hd.
  - exists skip. split_and!; [done| |done].
    rewrite (cp_iter_prev cp' cp) in Hin by done.
    apply elem_of_cons in Hin as [->|]; [lia|done].
Qed.

Lemma linked_from_head h x l : linked_from h x l → linked l.
Proof. destruct l as [|[h' d'] l]; [done|]. by intros (_ & _ & ?). Qed.

(** Rebuilding: [from_blocks] on the blocks of a chain, lowest first,
    gives back the very same chain, skip pointers and indices included. *)
Theorem cp_from_blocks_roundtrip cp :
  cp_wf cp → cp_from_blocks (reverse (cp_blocks cp)) = Ok cp.
Proof.
  intros Hwf. pose proof (cp_blocks_linked cp Hwf) as Hl.
  assert (heights_fit (reverse (cp_blocks cp))) as Hfit
    by (apply Forall_reverse, blocks_fit, Hwf).
  destruct (reverse (cp_blocks cp)) as [|[h d] l] eqn:Hr.
  - apply (f_equal reverse) in Hr. rewrite reverse_involutive in Hr.
    unfold cp_blocks in Hr. by rewrite cp_iter_unfold in Hr.
  - simpl in *. apply Forall_cons in Hfit as [Hh Hfit].
    assert (cp_wf (cp_new h d)) as Hnew by (by constructor).
    destruct (cp_extend_linked (cp_new h d) l) as (cp' & -> & Hwf' & Hbl); [done..|].
    simpl. f_equal. apply cp_ext; [done..|]. rewrite Hbl.
    apply (f_equal reverse) in Hr. rewrite reverse_involutive, reverse_cons in Hr.
    by rewrite Hr.
Qed.

(** [insert] panics exactly when the inserted data implies a genesis other
    than the recorded one; it returns the chain unchanged when a checkpoint of
    that hash is already there; otherwise the new chain consists of the block,
    the blocks below it (without the one right below when the data names
    another parent) and the blocks above it, which are all kept unless the
    block at, right below or right above the insertion conflicts, in which
    case they are all evicted. *)
Theorem cp_insert_contract cp h d :
  cp_wf cp → h ≤ U32_MAX →
  if insert_panics cp h d then cp_insert cp h d = None
  else ∃ cp', cp_insert cp h d = Some cp' ∧ cp_wf cp' ∧
    if same_at cp h d then cp' = cp
    else cp_blocks cp' =
      (if conflict_at cp h d || conflict_below cp h d || conflict_above cp h d then []
       else filter (λ b : N * D, h < b.1) (cp_blocks cp)) ++
      (h, d) ::
      filter (λ b : N * D, b.1 < h ∧ (conflict_below cp h d = true → b.1 + 1 ≠ h))
        (cp_blocks cp).
Proof.
  intros Hwf Hmax. pose proof (cp_insert_correct cp h d Hwf Hmax) as Hins.
  destruct (insert_panics cp h d); [done|]. destruct Hins as (cp' & -> & Hwf' & Hres).
  exists cp'. split_and!; [done..|]. destruct (same_at cp h d); [done|].
  rewrite Hres. unfold insert_blocks, insert_keeps_above, insert_below, blocks_above.
  by destruct (conflict_at cp h d || conflict_below cp h d || conflict_above cp h d).
Qed.

(** ** Median time past *)

Lemma mapM_Some_forall {A B} (f : A → option B) (l : list A) (k : list B) :
  mapM f l = Some k → Forall2 (λ x y, f x = Some y) l k.
Proof. by apply mapM_Some_1. Qed.

Lemma sorted_count (l : list N) k t :
  StronglySorted N.le l → l !! k = Some t →
  (length (filter (λ x, x < t)%N l) ≤ k)%nat ∧
  (length (filter (λ x, t < x)%N l) ≤ length l - S k)%nat.
Proof.
  intros Hs Hk. rewrite <-(take_drop_middle l k t Hk) at 1 2.
  assert (Hlen := lookup_lt_Some _ _ _ Hk).
  split; rewrite filter_app, length_app.
  - rewrite (filter_none _ (t :: drop (S k) l)).
    + etrans; [apply Nat.add_le_mono; [apply length_filter|done]|].
      rewrite length_take. simpl. lia.
    + intros x [->|Hx]%elem_of_cons; [lia|].
      apply list_elem_of_lookup in Hx as [j Hj]. rewrite lookup_drop in Hj.
      enough (t ≤ x)%N by lia. eapply (StronglySorted_lookup N.le); [done..|lia].
  - rewrite (filter_none _ (take k l)).
    + simpl. rewrite filter_cons_False by lia.
      etrans; [apply length_filter|]. rewrite length_drop. lia.
    + intros x Hx. apply list_elem_of_lookup in Hx as [j Hj].
      apply lookup_take_Some in Hj as [Hj Hjk].
      enough (x ≤ t)%N by lia. eapply (StronglySorted_lookup N.le); [done..|lia].
Qed.

(** The heights of the window: the tip and up to ten heights below it. *)
Definition mtp_window (cp : CheckPoint D) : list N :=
  range_inclusive (cp_height cp - 10) (cp_height cp).

(** [median_time_past] is [None] exactly when a block of the eleven-block
    window is missing; otherwise it is the time of a block of the window such
    that at most half of the window is earlier and fewer than half is later
    (the higher middle value on an even count). *)
Theorem median_time_past_correct `{!ToBlockTime D} cp :
  cp_wf cp →
  match median_time_past cp with
  | None => ∃ h, h ∈ mtp_window cp ∧ cp_get cp h = None
  | Some t =>
      ∃ times, Forall2 (λ h u, ∃ n, cp_get cp h = Some n ∧ to_blocktime (cp_data n) = u)
                 (mtp_window cp) times ∧
        t ∈ times ∧
        (2 * length (filter (λ x, x < t)%N times) ≤ length times)%nat ∧
        (2 * length (filter (λ x, t < x)%N times) < length times)%nat
  end.
Proof.
  intros Hwf. unfold median_time_past. fold (mtp_window cp).
  destruct (mapM _ (mtp_window cp)) as [times|] eqn:Hmap; cbn [mbind option_bind].
  - apply mapM_Some_forall in Hmap.
    set (s := merge_sort N.le times). cbv zeta.
    assert (Hperm : s ≡ₚ times) by apply merge_sort_Permutation.
    assert (Hs : StronglySorted N.le s) by apply (StronglySorted_merge_sort N.le).
    assert (Hpos : (0 < length times)%nat).
    { rewrite <-(Forall2_length _ _ _ Hmap). unfold mtp_window, range_inclusive.
      rewrite length_range_exclusive. lia. }
    rewrite <-(Permutation_length Hperm) in Hpos.
    destruct (lookup_lt_is_Some_2 s (length s / 2)) as [t Ht].
    { apply Nat.div_lt; lia. }
    rewrite Ht. exists times.
    destruct (sorted_count s (length s / 2) t Hs Ht) as [Hlo Hhi].
    pose proof (Nat.div_mod_eq (length s) 2). pose proof (Nat.mod_upper_bound (length s) 2).
    split_and!.
    + eapply Forall2_impl; [done|]. intros h u Hu. simpl in Hu.
      destruct (cp_get cp h) as [n|]; [|done]. simpl in Hu. exists n. by simplify_eq.
    + rewrite <-Hperm. by eapply list_elem_of_lookup_2.
    + rewrite <-Hperm. lia.
    + rewrite <-Hperm. lia.
  - apply mapM_None in Hmap. apply Exists_exists in Hmap as (h & Hh & Hg).
    exists h. split; [done|]. by destruct (cp_get cp h).
Qed.
End spec.

(** ** Instances on the sample chains *)

Lemma ancestor_by_index_correct_witness :
  2 ≤ cp_index hash_chain ∧
  ∃ n, ancestor_by_index hash_chain 2 = Some n ∧ cp_index n = 2 ∧
    cp_iter hash_chain !! N.to_nat (cp_index hash_chain - 2) = Some n.
Proof.
  assert (2 ≤ cp_index hash_chain) as Hle by (vm_compute; discriminate).
  split; [exact Hle|].
  apply (ancestor_by_index_correct hash_chain 2); [apply hash_chain_wf|exact Hle].
Defined.

Lemma walk_to_floor_correct_witness :
  cp_height <$> walk_to_floor hash_chain 6 = Some 5 ∧
  walk_to_floor hash_chain 6 =
    List.find (λ n, cp_height n <=? 6) (cp_iter hash_chain).
Proof.
  split; [vm_compute; reflexivity|].
  apply (walk_to_floor_correct hash_chain 6), hash_chain_wf.
Defined.

Lemma cp_range_correct_witness :
  cp_height <$> cp_range hash_chain (Included 2) (Excluded 8) = [7; 5; 2] ∧
  cp_range hash_chain (Included 2) (Excluded 8) =
    filter (λ n, above_start (Included 2) n && below_end (Excluded 8) n = true)
      (cp_iter hash_chain).
Proof.
  split; [vm_compute; reflexivity|].
  apply (cp_range_correct hash_chain (Included 2) (Excluded 8)), hash_chain_wf.
Defined.

Lemma iter_methods_correct_witness :
  (iter_nth (Some hash_chain) 3).1 = cp_iter hash_chain !! N.to_nat 3 ∧
  iter_count (Some hash_chain) = 7.
Proof.
  split; [|vm_compute; reflexivity].
  apply (iter_methods_correct hash_chain 3), hash_chain_wf.
Defined.

Lemma cp_push_correct_witness :
  (∃ cp', cp_push header_chain 12 (mkHeader 112 111 200) = Ok cp') ∧
  match cp_push header_chain 12 (mkHeader 112 7 200) with
  | Ok _ => False
  | Err e => e = header_chain ∧
      (12 ≤ cp_height header_chain ∨
       push_conflict header_chain 12 (mkHeader 112 7 200) = true)
  end.
Proof.
  split; [eexists; vm_compute; reflexivity|].
  pose proof (cp_push_correct header_chain 12 (mkHeader 112 7 200) header_chain_wf
    ltac:(vm_compute; discriminate)) as H.
  destruct (cp_push header_chain 12 (mkHeader 112 7 200)) eqn:E; [|exact H].
  vm_compute in E. discriminate E.
Defined.

Lemma cp_from_blocks_roundtrip_witness :
  length (cp_blocks header_chain) = 12%nat ∧
  cp_from_blocks (reverse (cp_blocks header_chain)) = Ok header_chain.
Proof.
  split; [vm_compute; reflexivity|].
  apply (cp_from_blocks_roundtrip header_chain), header_chain_wf.
Defined.

(** A header at height 5 with another hash evicts everything above; its parent
    is the recorded one, so everything below stays. *)
Lemma cp_insert_contract_witness :
  insert_panics header_chain 5 (mkHeader 205 104 85) = false ∧
  ∃ cp', cp_insert header_chain 5 (mkHeader 205 104 85) = Some cp' ∧ cp_wf cp' ∧
    (cp_blocks cp').*1 = [5; 4; 3; 2; 1; 0].
Proof.
  pose proof (cp_insert_contract header_chain 5 (mkHeader 205 104 85) header_chain_wf
    ltac:(vm_compute; discriminate)) as H.
  assert (insert_panics header_chain 5 (mkHeader 205 104 85) = false) as E
    by (vm_compute; reflexivity).
  rewrite E in H. split; [exact E|]. destruct H as (cp' & Hi & Hwf & Hb).
  exists cp'. split; [exact Hi|]. split; [exact Hwf|].
  assert (same_at header_chain 5 (mkHeader 205 104 85) = false) as E'
    by (vm_compute; reflexivity).
  rewrite E' in Hb. rewrite Hb. vm_compute. reflexivity.
Defined.

Lemma median_time_past_correct_witness :
  median_time_past header_chain = Some 100 ∧
  match median_time_past header_chain with
  | None => False
  | Some t =>
      ∃ times, Forall2 (λ h u, ∃ n, cp_get header_chain h = Some n ∧
                          to_blocktime (cp_data n) = u)
                 (mtp_window header_chain) times ∧
        t ∈ times ∧
        (2 * length (filter (λ x, x < t)%N times) ≤ length times)%nat ∧
        (2 * length (filter (λ x, t < x)%N times) < length times)%nat
  end.
Proof.
  assert (median_time_past header_chain = Some 100) as E by (vm_compute; reflexivity).
  split; [exact E|].
  pose proof (median_time_past_correct header_chain header_chain_wf) as H.
  rewrite E in H |- *. exact H.
Defined.
