(* ===== verification/CheckPointEntry.v ===== *)
(** * Checkpoint entries

    Models [crates/core/src/checkpoint_entry.rs]: the entries of a chain are
    its checkpoints and, where a checkpoint names a parent that is not
    recorded, a placeholder for that parent. *)
From S2P Require Import Prelude Block CheckPoint CheckPointFacts CheckPointInsert Samples.
#[local] Open Scope N_scope.

Section entry.
Context {D : Type}.

Inductive CheckPointEntry : Type :=
| Placeholder (block_id : BlockId) (checkpoint_above : CheckPoint D)
| Occupied (checkpoint : CheckPoint D).

Definition entry_checkpoint (e : CheckPointEntry) : option (CheckPoint D) :=
  match e with
  | Placeholder _ _ => None
  | Occupied checkpoint => Some checkpoint
  end.

Definition is_placeholder (e : CheckPointEntry) : bool :=
  match e with Placeholder _ _ => true | Occupied _ => false end.

Definition source_checkpoint (e : CheckPointEntry) : CheckPoint D :=
  match e with
  | Placeholder _ checkpoint_above => checkpoint_above
  | Occupied checkpoint => checkpoint
  end.

Definition floor_checkpoint (e : CheckPointEntry) : option (CheckPoint D) :=
  match e with
  | Placeholder _ linking_checkpoint => cp_prev linking_checkpoint
  | Occupied checkpoint => Some checkpoint
  end.

(** [data_ref] and [data]: a clone is the value itself. *)
Definition entry_data (e : CheckPointEntry) : option D :=
  match e with
  | Placeholder _ _ => None
  | Occupied checkpoint => Some (cp_data checkpoint)
  end.

Definition entry_block_id (e : CheckPointEntry) : BlockId :=
  match e with
  | Placeholder block_id _ => block_id
  | Occupied checkpoint => cp_block_id checkpoint
  end.

Definition entry_hash (e : CheckPointEntry) : BlockHash := bid_hash (entry_block_id e).
Definition entry_height (e : CheckPointEntry) : N := bid_height (entry_block_id e).

Context `{!ToBlockHash D}.

Definition entry_prev (e : CheckPointEntry) : option CheckPointEntry :=
  match e with
  | Placeholder _ checkpoint_above => Occupied <$> cp_prev checkpoint_above
  | Occupied checkpoint =>
      match checked_sub (cp_height checkpoint) 1 with
      | None => None
      | Some prev_height =>
          match prev_blockhash (cp_data checkpoint) with
          | None => Occupied <$> cp_prev checkpoint
          | Some prev_hash =>
              let placeholder := Placeholder (mkBlockId prev_height prev_hash) checkpoint in
              match cp_prev checkpoint with
              | Some prev_checkpoint =>
                  if cp_height prev_checkpoint =? prev_height
                  then Some (Occupied prev_checkpoint)
                  else Some placeholder
              | None => Some placeholder
              end
          end
      end
  end.

(** The state of a [CheckPointEntryIter] is its [next] entry. *)
Definition CheckPointEntryIter : Type := option CheckPointEntry.

Definition entry_iter_next (it : CheckPointEntryIter) :
    option (CheckPointEntry * CheckPointEntryIter) :=
  match it with
  | Some item => Some (item, entry_prev item)
  | None => None
  end.

(** What [entry_iter] yields from a checkpoint, tip first: the structural
    unfolding of repeated [next] calls ([entry_collect_iter]). *)
Fixpoint entry_iter (cp : CheckPoint D) : list CheckPointEntry :=
  Occupied cp ::
  match checked_sub (cp_height cp) 1 with
  | None => []
  | Some prev_height =>
      match prev_blockhash (cp_data cp) with
      | None => match cp_prev cp with Some prev => entry_iter prev | None => [] end
      | Some prev_hash =>
          match cp_prev cp with
          | Some prev =>
              if cp_height prev =? prev_height then entry_iter prev
              else Placeholder (mkBlockId prev_height prev_hash) cp :: entry_iter prev
          | None => [Placeholder (mkBlockId prev_height prev_hash) cp]
          end
      end
  end.

Fixpoint entry_collect (fuel : nat) (it : CheckPointEntryIter) : list CheckPointEntry :=
  match fuel with
  | O => []
  | S fuel => match entry_iter_next it with
              | Some (e, it) => e :: entry_collect fuel it
              | None => []
              end
  end.

(** ** Theory *)

Implicit Types cp n : CheckPoint D.

(** The placeholder [cp] implies, if any. *)
Definition placeholder_of (cp : CheckPoint D) : option BlockId :=
  match checked_sub (cp_height cp) 1, prev_blockhash (cp_data cp) with
  | Some prev_height, Some prev_hash =>
      match cp_prev cp with
      | Some prev => if cp_height prev =? prev_height then None
                     else Some (mkBlockId prev_height prev_hash)
      | None => Some (mkBlockId prev_height prev_hash)
      end
  | _, _ => None
  end.

Definition own_entries (cp : CheckPoint D) : list CheckPointEntry :=
  Occupied cp :: match placeholder_of cp with Some b => [Placeholder b cp] | None => [] end.

Lemma entry_iter_unfold cp :
  cp_wf cp →
  entry_iter cp = own_entries cp ++ match cp_prev cp with Some p => entry_iter p | None => [] end.
Proof.
  intros Hwf.
  assert (entry_iter cp = Occupied cp ::
    match checked_sub (cp_height cp) 1 with
    | None => []
    | Some prev_height =>
        match prev_blockhash (cp_data cp) with
        | None => match cp_prev cp with Some prev => entry_iter prev | None => [] end
        | Some prev_hash =>
            match cp_prev cp with
            | Some prev =>
                if cp_height prev =? prev_height then entry_iter prev
                else Placeholder (mkBlockId prev_height prev_hash) cp :: entry_iter prev
            | None => [Placeholder (mkBlockId prev_height prev_hash) cp]
            end
        end
    end) as -> by (by destruct cp).
  unfold own_entries, placeholder_of.
  destruct (checked_sub (cp_height cp) 1) as [h|] eqn:Hh.
  - destruct (prev_blockhash (cp_data cp)), (cp_prev cp) as [p|]; try done.
    by destruct (cp_height p =? h).
  - apply checked_sub_None in Hh. destruct (cp_prev cp) as [p|] eqn:Hp; [|done].
    pose proof (cp_height_decreasing cp p Hwf Hp). lia.
Qed.

Lemma placeholder_of_Some cp b :
  cp_wf cp → placeholder_of cp = Some b →
  bid_height b + 1 = cp_height cp ∧ prev_blockhash (cp_data cp) = Some (bid_hash b) ∧
  (∀ p, cp_prev cp = Some p → cp_height p < bid_height b).
Proof.
  intros Hwf. unfold placeholder_of.
  destruct (checked_sub (cp_height cp) 1) as [h|] eqn:Hh; [|done].
  apply checked_sub_Some in Hh as [Hh ->].
  destruct (prev_blockhash (cp_data cp)) as [x|]; [|done].
  destruct (cp_prev cp) as [p|] eqn:Hp.
  - pose proof (cp_height_decreasing cp p Hwf Hp).
    destruct (N.eqb_spec (cp_height p) (cp_height cp - 1)); [done|].
    intros [= <-]; simpl. split_and!; [lia|done|]. intros ? [= <-]. lia.
  - intros [= <-]; simpl. split_and!; [lia|done|done].
Qed.

Lemma elem_of_entry_iter cp e :
  cp_wf cp → e ∈ entry_iter cp ↔ ∃ n, n ∈ cp_iter cp ∧ e ∈ own_entries n.
Proof.
  induction cp as [cp Hp|cp p Hp IH] using cp_prev_ind; intros Hwf;
    rewrite entry_iter_unfold, cp_iter_unfold, Hp by done.
  - rewrite app_nil_r. setoid_rewrite list_elem_of_singleton. naive_solver.
  - rewrite elem_of_app, IH by (by eapply cp_wf_prev).
    setoid_rewrite elem_of_cons. naive_solver.
Qed.

Lemma elem_of_own_entries n e :
  e ∈ own_entries n ↔ e = Occupied n ∨ ∃ b, e = Placeholder b n ∧ placeholder_of n = Some b.
Proof.
  unfold own_entries. rewrite elem_of_cons.
  destruct (placeholder_of n); [|set_solver].
  rewrite list_elem_of_singleton. naive_solver.
Qed.

Lemma own_entries_height n e :
  cp_wf n → e ∈ own_entries n →
  entry_height e ≤ cp_height n ∧ ∀ p, cp_prev n = Some p → cp_height p < entry_height e.
Proof.
  intros Hwf [->|(b & -> & Hb)]%elem_of_own_entries.
  - split; [done|]. intros p Hp. by apply cp_height_decreasing.
  - apply placeholder_of_Some in Hb as (Hh & _ & Hp); [|done].
    unfold entry_height; simpl. split; [lia|done].
Qed.

Lemma entry_iter_height cp e :
  cp_wf cp → e ∈ entry_iter cp → entry_height e ≤ cp_height cp.
Proof.
  intros Hwf (n & Hn & He)%elem_of_entry_iter; [|done].
  pose proof (own_entries_height n e (cp_wf_iter cp n Hwf Hn) He) as [Hle _].
  destruct (decreasing_le cp_height cp n) as [->|]; auto using cp_height_decreasing. lia.
Qed.

Lemma entry_iter_sorted cp :
  cp_wf cp → StronglySorted (λ a b, entry_height b < entry_height a) (entry_iter cp).
Proof.
  assert (Hown : ∀ n, cp_wf n →
    StronglySorted (λ a b, entry_height b < entry_height a) (own_entries n)).
  { intros n Hn. unfold own_entries. destruct (placeholder_of n) as [b|] eqn:Hb;
      [|repeat constructor].
    apply placeholder_of_Some in Hb as (Hh & _ & _); [|done].
    repeat constructor. unfold entry_height; simpl. unfold cp_height in Hh. lia. }
  induction cp as [cp Hp|cp p Hp IH] using cp_prev_ind; intros Hwf;
    rewrite entry_iter_unfold, Hp by done.
  - rewrite app_nil_r. auto.
  - assert (cp_wf p) as Hwfp by (by eapply cp_wf_prev).
    apply StronglySorted_app_2; [|auto..]. intros a b Ha Hb.
    apply own_entries_height in Ha as [_ Ha]; [|done]. specialize (Ha p Hp).
    apply entry_iter_height in Hb; [|done]. lia.
Qed.

Lemma entry_iter_checkpoints cp : cp_wf cp → omap entry_checkpoint (entry_iter cp) = cp_iter cp.
Proof.
  induction cp as [cp Hp|cp p Hp IH] using cp_prev_ind; intros Hwf;
    rewrite entry_iter_unfold, cp_iter_unfold, Hp by done; unfold own_entries.
  - by destruct (placeholder_of cp).
  - rewrite <-IH by (by eapply cp_wf_prev). by destruct (placeholder_of cp).
Qed.

Lemma entry_collect_iter fuel cp :
  cp_wf cp → (length (entry_iter cp) ≤ fuel)%nat →
  entry_collect fuel (Some (Occupied cp)) = entry_iter cp.
Proof.
  revert fuel. induction cp as [cp Hp|cp p Hp IH] using cp_prev_ind; intros fuel Hwf.
  - rewrite entry_iter_unfold, Hp, app_nil_r by done. unfold own_entries, placeholder_of.
    destruct fuel as [|fuel]; simpl; [lia|]. rewrite Hp.
    destruct (checked_sub (cp_height cp) 1) as [h|]; [|by destruct fuel].
    destruct (prev_blockhash (cp_data cp)); [|by destruct fuel].
    destruct fuel as [|fuel]; simpl; [lia|]. rewrite Hp. by destruct fuel.
  - assert (cp_wf p) as Hwfp by (by eapply cp_wf_prev).
    rewrite entry_iter_unfold, Hp by done. unfold own_entries, placeholder_of.
    destruct fuel as [|fuel]; simpl; [lia|]. rewrite Hp.
    destruct (checked_sub (cp_height cp) 1) as [h|] eqn:Hh; cycle 1.
    { apply checked_sub_None in Hh. pose proof (cp_height_decreasing cp p Hwf Hp). lia. }
    destruct (prev_blockhash (cp_data cp)); simpl.
    + destruct (cp_height p =? h); simpl; intros Hlen.
      * rewrite IH by (done || lia). done.
      * destruct fuel as [|fuel]; [simpl in Hlen; lia|]. simpl. rewrite Hp. simpl.
        rewrite IH by (done || lia). done.
    + intros Hlen. rewrite IH by (done || lia). done.
Qed.

(** [entry_iter] walks a chain completely and in order: stepping [next]
    yields [entry_iter cp] (so the iteration ends), heights strictly descend, the
    occupied entries are exactly the checkpoints, and a placeholder appears
    exactly for a checkpoint whose named parent, one height below, is not
    recorded. *)
Theorem entry_iter_correct cp :
  cp_wf cp →
  entry_collect (length (entry_iter cp)) (Some (Occupied cp)) = entry_iter cp ∧
  StronglySorted (λ a b, entry_height b < entry_height a) (entry_iter cp) ∧
  omap entry_checkpoint (entry_iter cp) = cp_iter cp ∧
  (∀ b n, Placeholder b n ∈ entry_iter cp ↔
     n ∈ cp_iter cp ∧ bid_height b + 1 = cp_height n ∧
     prev_blockhash (cp_data n) = Some (bid_hash b) ∧ cp_get cp (bid_height b) = None).
Proof.
  intros Hwf. split_and!; [by apply entry_collect_iter|by apply entry_iter_sorted|
    by apply entry_iter_checkpoints|].
  intros b n. rewrite elem_of_entry_iter by done. split.
  - intros (m & Hm & [?|(b' & Heq & Hb)]%elem_of_own_entries); [done|].
    injection Heq as -> ->. pose proof (cp_wf_iter cp m Hwf Hm) as Hwfm.
    apply placeholder_of_Some in Hb as (Hh & Hprev & Hp); [|done].
    split_and!; [done..|]. apply cp_get_None; [done|]. intros k Hk Hkh.
    assert (k ∈ cp_iter m) as Hkm.
    { pose proof (floor_by_unique cp_height cp k cp_height_decreasing Hwf Hk) as Hf.
      rewrite (floor_by_ancestor cp_height cp m) in Hf; auto using cp_height_decreasing; [|lia].
      by apply floor_by_Some in Hf as [? _]. }
    destruct (cp_prev m) as [p|] eqn:Hpm.
    + rewrite (cp_iter_prev m p) in Hkm by done.
      apply elem_of_cons in Hkm as [->|Hkm]; [lia|]. specialize (Hp p eq_refl).
      destruct (decreasing_le cp_height p k) as [->|]; auto using cp_height_decreasing;
        [by eapply cp_wf_prev|lia..].
    + rewrite cp_iter_unfold, Hpm in Hkm. apply list_elem_of_singleton in Hkm as ->. lia.
  - intros (Hn & Hh & Hprev & Hg). exists n. split; [done|]. apply elem_of_own_entries. right.
    exists b. split; [done|]. unfold placeholder_of.
    destruct (checked_sub (cp_height n) 1) as [h|] eqn:Hs;
      [|apply checked_sub_None in Hs; lia].
    apply checked_sub_Some in Hs as [_ ->]. rewrite Hprev.
    replace (cp_height n - 1) with (bid_height b) by lia.
    destruct (cp_prev n) as [p|] eqn:Hp; [|by destruct b].
    destruct (N.eqb_spec (cp_height p) (bid_height b)) as [Heq|]; [|by destruct b].
    exfalso. apply (proj1 (cp_get_None cp _ Hwf) Hg p); [|done].
    eapply cp_iter_trans; [done|]. rewrite (cp_iter_prev n p) by done.
    apply elem_of_cons. right. apply cp_iter_self.
Qed.
End entry.
Arguments CheckPointEntry : clear implicits.
Arguments CheckPointEntryIter : clear implicits.

(** A header chain with gaps below heights 3 and 9. *)
Definition gap_chain : CheckPoint SampleHeader :=
  sample_chain 0 (mkHeader 100 0 50)
    [(3, mkHeader 103 102 60); (4, mkHeader 104 103 95); (9, mkHeader 109 108 120)].

Lemma gap_chain_wf : cp_wf gap_chain.
Proof. by apply sample_chain_wf. Qed.

Lemma entry_iter_correct_witness :
  (λ e, (entry_height e, entry_hash e, is_placeholder e)) <$> entry_iter gap_chain =
    [(9, 109, false); (8, 108, true); (4, 104, false); (3, 103, false); (2, 102, true);
     (0, 100, false)] ∧
  omap entry_checkpoint (entry_iter gap_chain) = cp_iter gap_chain.
Proof.
  split; [vm_compute; reflexivity|].
  apply (entry_iter_correct gap_chain), gap_chain_wf.
Defined.
