(* ===== verification/LocalChain.v ===== *)
(** * The local chain

    Models [crates/chain/src/local_chain.rs].  Methods taking [&mut self]
    return the chain they leave behind; those that fail leave [self] as it
    was, so their error case carries no chain.

    [Arc] addresses are not part of the model: [eq_ptr] is a parameter of
    [merge_chains], and pointer equality is only known to imply that the two
    checkpoints are the same value. *)
From S2P Require Import Prelude Block CheckPoint CheckPointEntry.
#[local] Open Scope N_scope.

(** ** Change sets and errors *)

(** [ChangeSet<D>]: the map from heights to an added ([Some]) or removed
    ([None]) block. *)
Record ChangeSet (D : Type) := mkChangeSet { cs_blocks : gmap N (option D) }.
Arguments mkChangeSet {D}.
Arguments cs_blocks {D}.

Definition ChangeSet_default {D} : ChangeSet D := mkChangeSet ∅.

#[export] Instance ChangeSet_merge {D} : Merge (ChangeSet D) := {
  merge_default := ChangeSet_default;
  merge cs other := mkChangeSet (merge (cs_blocks cs) (cs_blocks other));
  merge_is_empty cs := merge_is_empty (cs_blocks cs);
}.

(** Collecting an iterator into a [BTreeMap]: later entries win. *)
Definition collect_map {V} (l : list (N * V)) : gmap N V :=
  foldl (λ m p, <[p.1 := p.2]> m) ∅ l.

(** [FromIterator<(u32, Option<D>)>] (and [From] of such an iterator), and
    [FromIterator<(u32, D)>]. *)
Definition ChangeSet_from_iter {D} (l : list (N * option D)) : ChangeSet D :=
  mkChangeSet (collect_map l).
Definition ChangeSet_from_blocks_iter {D} (l : list (N * D)) : ChangeSet D :=
  mkChangeSet (collect_map (prod_map id Some <$> l)).

Definition cs_insert {D} (h : N) (v : option D) (cs : ChangeSet D) : ChangeSet D :=
  mkChangeSet (<[h := v]> (cs_blocks cs)).

Inductive ApplyBlockError :=
| MissingGenesis
| PrevBlockhashMismatch (expected : BlockId).

(** [MissingGenesisError] is a unit struct. *)
Inductive MissingGenesisError := mkMissingGenesisError.

Record AlterCheckPointError := mkAlterCheckPointError {
  ace_height : N;
  ace_original_hash : BlockHash;
  ace_update_hash : option BlockHash;
}.

Record CannotConnectError := mkCannotConnect { try_include_height : N }.

Inductive ApplyHeaderError :=
| InconsistentBlocks
| CannotConnect (e : CannotConnectError).

Record LocalChain (D : Type) := mkLocalChain { lc_tip : CheckPoint D }.
Arguments mkLocalChain {D}.
Arguments lc_tip {D}.

(** ** Reading the chain *)

Section read.
Context {D : Type}.

Definition lc_eqb (a b : LocalChain D) : bool := cp_eqb (lc_tip a) (lc_tip b).

(** [None] is the panic of [expect("genesis must exist")]. *)
Definition genesis_hash (c : LocalChain D) : option BlockHash :=
  cp_hash <$> cp_get (lc_tip c) 0.

Definition iter_checkpoints (c : LocalChain D) : list (CheckPoint D) := cp_iter (lc_tip c).
Definition lc_get (c : LocalChain D) (height : N) : option (CheckPoint D) :=
  cp_get (lc_tip c) height.
Definition lc_range (c : LocalChain D) (start_bound end_bound : Bound) : list (CheckPoint D) :=
  cp_range (lc_tip c) start_bound end_bound.
End read.

Definition chain_tip (c : LocalChain BlockHash) : BlockId := cp_block_id (lc_tip c).

Definition is_block_in_chain (c : LocalChain BlockHash) (block chain_tip : BlockId) :
    option bool :=
  match cp_get (lc_tip c) (bid_height chain_tip) with
  | Some cp =>
      if cp_hash cp =? bid_hash chain_tip then
        (λ cp, cp_hash cp =? bid_hash block) <$> cp_get cp (bid_height block)
      else None
  | None => None
  end.

(** ** Applying change sets *)

Section apply.
Context {D : Type} `{!ToBlockHash D}.

(** [LocalChain::from_blocks].  The [expect] cannot fail, the map being
    non-empty ([lc_from_blocks_not_empty]). *)
Definition lc_from_blocks (blocks : gmap N D) : result ApplyBlockError (LocalChain D) :=
  match blocks !! 0 with
  | None => Err MissingGenesis
  | Some _ =>
      match cp_from_blocks (map_iter blocks) with
      | Ok tip => Ok (mkLocalChain tip)
      | Err (Some last_cp) => Err (PrevBlockhashMismatch (cp_block_id last_cp))
      | Err None => Err MissingGenesis
      end
  end.

(** The first loop of [apply_changeset_to_checkpoint]: the blocks from
    [start_height] up, and the point of agreement below them. *)
Fixpoint split_at_start (cps : list (CheckPoint D)) (start_height : N) (extension : gmap N D) :
    gmap N D * option (CheckPoint D) :=
  match cps with
  | [] => (extension, None)
  | cp :: cps =>
      if start_height <=? cp_height cp
      then split_at_start cps start_height (<[cp_height cp := cp_data cp]> extension)
      else (extension, Some cp)
  end.

(** One iteration of its second loop. *)
Definition apply_entry (extension : gmap N D) (entry : N * option D) : gmap N D :=
  match entry.2 with
  | Some data => <[entry.1 := data]> extension
  | None => delete entry.1 extension
  end.

Definition apply_changeset_to_checkpoint (init_cp : CheckPoint D) (changeset : ChangeSet D) :
    result ApplyBlockError (CheckPoint D) :=
  match head (map_iter (cs_blocks changeset)) with
  | None => Ok init_cp
  | Some (start_height, _) =>
      let '(extension, base) := split_at_start (cp_iter init_cp) start_height ∅ in
      let extension := foldl apply_entry extension (map_iter (cs_blocks changeset)) in
      match base with
      | Some base =>
          map_err (λ last_cp, PrevBlockhashMismatch (cp_block_id last_cp))
            (cp_extend base (map_iter extension))
      | None => lc_tip <$> lc_from_blocks extension
      end
  end.

Definition lc_apply_changeset (c : LocalChain D) (changeset : ChangeSet D) :
    result ApplyBlockError (LocalChain D) :=
  mkLocalChain <$> apply_changeset_to_checkpoint (lc_tip c) changeset.

(** The loop of [_check_changeset_is_applied], over the entries in descending
    order of height. *)
Fixpoint check_entries (cur : CheckPoint D) (entries : list (N * option D)) : bool :=
  match entries with
  | [] => true
  | (exp_height, exp_data) :: entries =>
      match cp_get cur exp_height with
      | Some cp =>
          if negb (cp_height cp =? exp_height) ||
             negb (bool_decide (Some (cp_hash cp) = (to_blockhash <$> exp_data)))
          then false
          else check_entries cp entries
      | None => match exp_data with
                | Some _ => false
                | None => check_entries cur entries
                end
      end
  end.

Definition check_changeset_is_applied (c : LocalChain D) (changeset : ChangeSet D) : bool :=
  check_entries (lc_tip c) (reverse (map_iter (cs_blocks changeset))).

Definition initial_changeset (c : LocalChain D) : ChangeSet D :=
  ChangeSet_from_iter ((λ cp, (cp_height cp, Some (cp_data cp))) <$> cp_iter (lc_tip c)).

Definition from_genesis (data : D) : LocalChain D * ChangeSet D :=
  let chain := mkLocalChain (cp_new 0 data) in
  (chain, initial_changeset chain).

Definition from_changeset (changeset : ChangeSet D) : result ApplyBlockError (LocalChain D) :=
  match mjoin (cs_blocks changeset !! 0) with
  | None => Err MissingGenesis
  | Some genesis_data => lc_apply_changeset (from_genesis genesis_data).1 changeset
  end.

(** [from_tip]; [iter().last()] always yields a checkpoint, so [None] (the
    panic of [expect]) does not occur on a well-formed chain. *)
Definition from_tip (tip : CheckPoint D) : option (result MissingGenesisError (LocalChain D)) :=
  match iter_last (Some tip) with
  | None => None
  | Some genesis_cp =>
      if cp_height genesis_cp =? 0 then Some (Ok (mkLocalChain tip))
      else Some (Err mkMissingGenesisError)
  end.

(** [insert_block]; the inner [None] of [genesis_hash] is its panic. *)
Definition insert_block (c : LocalChain D) (height : N) (data : D) :
    option (result AlterCheckPointError (LocalChain D * ChangeSet D)) :=
  match cp_get (lc_tip c) height with
  | Some original_cp =>
      let original_hash := cp_hash original_cp in
      if original_hash =? to_blockhash data then Some (Ok (c, ChangeSet_default))
      else Some (Err (mkAlterCheckPointError height original_hash (Some (to_blockhash data))))
  | None =>
      let changeset := cs_insert height (Some data) ChangeSet_default in
      match lc_apply_changeset c changeset with
      | Ok c' => Some (Ok (c', changeset))
      | Err _ =>
          genesis ← genesis_hash c;
          Some (Err (mkAlterCheckPointError 0 genesis
            (to_blockhash <$> mjoin (cs_blocks changeset !! 0))))
      end
  end.

(** The loop of [disconnect_from]: the changeset so far and the checkpoint to
    remove from. *)
Fixpoint disconnect_loop (cps : list (CheckPoint D)) (block_id : BlockId)
    (remove_from : option (CheckPoint D)) (changeset : ChangeSet D) :
    option (CheckPoint D) * ChangeSet D :=
  match cps with
  | [] => (remove_from, changeset)
  | cp :: cps =>
      if cp_height cp <? bid_height block_id then (remove_from, changeset)
      else disconnect_loop cps block_id
        (if decide (cp_block_id cp = block_id) then Some cp else remove_from)
        (cs_insert (cp_height cp) None changeset)
  end.

Definition disconnect_from (c : LocalChain D) (block_id : BlockId) :
    result MissingGenesisError (LocalChain D * ChangeSet D) :=
  let '(remove_from, changeset) :=
    disconnect_loop (cp_iter (lc_tip c)) block_id None ChangeSet_default in
  match cp_prev <$> remove_from with
  | Some (Some new_tip) => Ok (mkLocalChain new_tip, changeset)
  | Some None => Err mkMissingGenesisError
  | None => Ok (c, ChangeSet_default)
  end.
End apply.

(** ** Merging an update into the chain *)

Section merge_chains.
Context {D : Type} `{!ToBlockHash D}.
Context (eq_ptr : CheckPoint D → CheckPoint D → bool).

Definition MergeResult : Type := result CannotConnectError (CheckPoint D * ChangeSet D).

Definition merge_finish (original_tip : CheckPoint D) (changeset : ChangeSet D) : MergeResult :=
  match apply_changeset_to_checkpoint original_tip changeset with
  | Ok new_tip => Ok (new_tip, changeset)
  | Err MissingGenesis => Err (mkCannotConnect 0)
  | Err (PrevBlockhashMismatch expected) => Err (mkCannotConnect (bid_height expected))
  end.

(** The variables of the loop.  An iterator is the list of what it will still
    yield; [curr_orig] and [curr_update], filled at the top of an iteration,
    are the heads of these lists. *)
Record MergeState := mkMergeState {
  ms_orig : list (CheckPointEntry D);
  ms_update : list (CheckPointEntry D);
  ms_prev_orig : option (CheckPointEntry D);
  ms_prev_update : option (CheckPointEntry D);
  ms_point_of_agreement_found : bool;
  ms_prev_orig_was_invalidated : bool;
  ms_potentially_invalidated_heights : list N;
  ms_is_update_height_superset_of_original : bool;
  ms_changeset : ChangeSet D;
}.

Inductive MergeStep :=
| MSContinue (st : MergeState)
| MSBreak (st : MergeState)
| MSReturn (r : MergeResult).

Definition merge_init (original_tip update_tip : CheckPoint D) : MergeState := {|
  ms_orig := entry_iter original_tip;
  ms_update := entry_iter update_tip;
  ms_prev_orig := None;
  ms_prev_update := None;
  ms_point_of_agreement_found := false;
  ms_prev_orig_was_invalidated := false;
  ms_potentially_invalidated_heights := [];
  ms_is_update_height_superset_of_original := true;
  ms_changeset := ChangeSet_default;
|}.

(** Update block that does not exist in the original chain. *)
Definition step_update_only (u : CheckPointEntry D) (update : list (CheckPointEntry D))
    (st : MergeState) : MergeStep :=
  MSContinue {|
    ms_orig := ms_orig st;
    ms_update := update;
    ms_prev_orig := ms_prev_orig st;
    ms_prev_update := Some u;
    ms_point_of_agreement_found := ms_point_of_agreement_found st;
    ms_prev_orig_was_invalidated := ms_prev_orig_was_invalidated st;
    ms_potentially_invalidated_heights := ms_potentially_invalidated_heights st;
    ms_is_update_height_superset_of_original := ms_is_update_height_superset_of_original st;
    ms_changeset :=
      match entry_data u with
      | Some data => cs_insert (entry_height u) (Some data) (ms_changeset st)
      | None => ms_changeset st
      end;
  |}.

(** Original block that is not in the update. *)
Definition step_orig_only (o : CheckPointEntry D) (orig : list (CheckPointEntry D))
    (st : MergeState) : MergeStep :=
  let st' := {|
    ms_orig := orig;
    ms_update := ms_update st;
    ms_prev_orig := Some o;
    ms_prev_update := ms_prev_update st;
    ms_point_of_agreement_found := ms_point_of_agreement_found st;
    ms_prev_orig_was_invalidated := false;
    ms_potentially_invalidated_heights :=
      ms_potentially_invalidated_heights st ++
      (if is_placeholder o then [] else [entry_height o]);
    ms_is_update_height_superset_of_original := false;
    ms_changeset := ms_changeset st;
  |} in
  match ms_update st with [] => MSBreak st' | _ => MSContinue st' end.

(** What an iteration leaves behind when the two entries agree and the loop
    goes on, and when they do not. *)
Definition state_after_agreement (o u : CheckPointEntry D)
    (orig update : list (CheckPointEntry D)) (st : MergeState) : MergeState := {|
  ms_orig := orig;
  ms_update := update;
  ms_prev_orig := Some o;
  ms_prev_update := Some u;
  ms_point_of_agreement_found := true;
  ms_prev_orig_was_invalidated := false;
  ms_potentially_invalidated_heights := ms_potentially_invalidated_heights st;
  ms_is_update_height_superset_of_original :=
    ms_is_update_height_superset_of_original st;
  ms_changeset :=
    match entry_data u with
    | Some u_data =>
        if is_placeholder o
        then cs_insert (entry_height u) (Some u_data) (ms_changeset st)
        else ms_changeset st
    | None => ms_changeset st
    end;
|}.

Definition state_after_conflict (o u : CheckPointEntry D)
    (orig update : list (CheckPointEntry D)) (st : MergeState) : MergeState := {|
  ms_orig := orig;
  ms_update := update;
  ms_prev_orig := Some o;
  ms_prev_update := Some u;
  ms_point_of_agreement_found := ms_point_of_agreement_found st;
  ms_prev_orig_was_invalidated := true;
  ms_potentially_invalidated_heights := [];
  ms_is_update_height_superset_of_original := ms_is_update_height_superset_of_original st;
  ms_changeset :=
    foldl (λ cs invalidated_height, cs_insert invalidated_height None cs)
      (cs_insert (entry_height u) (entry_data u) (ms_changeset st))
      (ms_potentially_invalidated_heights st);
|}.

(** Both chains have an entry at this height. *)
Definition step_both (original_tip update_tip : CheckPoint D)
    (o u : CheckPointEntry D) (orig update : list (CheckPointEntry D))
    (st : MergeState) : MergeStep :=
  if entry_hash o =? entry_hash u then
    match negb (ms_prev_orig_was_invalidated st) && negb (ms_point_of_agreement_found st),
          ms_prev_orig st, ms_prev_update st with
    | true, Some prev_orig, Some _ => MSReturn (Err (mkCannotConnect (entry_height prev_orig)))
    | _, _, _ =>
        if eq_ptr (source_checkpoint o) (source_checkpoint u) then
          if ms_is_update_height_superset_of_original st
          then MSReturn (Ok (update_tip, ms_changeset st))
          else MSReturn (merge_finish original_tip (ms_changeset st))
        else MSContinue (state_after_agreement o u orig update st)
    end
  else if (entry_height o =? 0) && negb (is_placeholder o) then
    MSReturn (Err (mkCannotConnect 0))
  else MSContinue (state_after_conflict o u orig update st).

Definition merge_step (original_tip update_tip : CheckPoint D) (st : MergeState) : MergeStep :=
  match ms_orig st, ms_update st with
  | [], [] => MSBreak st
  | [], u :: update => step_update_only u update st
  | o :: orig, [] => step_orig_only o orig st
  | o :: orig, u :: update =>
      if entry_height o <? entry_height u then step_update_only u update st
      else if entry_height u <? entry_height o then step_orig_only o orig st
      else step_both original_tip update_tip o u orig update st
  end.

(** The connectivity check after the loop. *)
Definition merge_end (original_tip : CheckPoint D) (st : MergeState) : MergeResult :=
  match negb (ms_prev_orig_was_invalidated st) && negb (ms_point_of_agreement_found st),
        ms_prev_orig st with
  | true, Some prev_orig => Err (mkCannotConnect (entry_height prev_orig))
  | _, _ => merge_finish original_tip (ms_changeset st)
  end.

(** [None] is exhausted fuel. *)
Fixpoint merge_loop (fuel : nat) (original_tip update_tip : CheckPoint D) (st : MergeState) :
    option MergeResult :=
  match fuel with
  | O => None
  | S fuel =>
      match merge_step original_tip update_tip st with
      | MSContinue st => merge_loop fuel original_tip update_tip st
      | MSBreak st => Some (merge_end original_tip st)
      | MSReturn r => Some r
      end
  end.

(** Every iteration consumes an entry, so the number of entries bounds the
    iterations. *)
Definition merge_chains (original_tip update_tip : CheckPoint D) : option MergeResult :=
  merge_loop (S (length (entry_iter original_tip) + length (entry_iter update_tip)))
    original_tip update_tip (merge_init original_tip update_tip).

Definition apply_update (c : LocalChain D) (update : CheckPoint D) :
    option (result CannotConnectError (LocalChain D * ChangeSet D)) :=
  r ← merge_chains (lc_tip c) update;
  Some (match r with
        | Ok (new_tip, changeset) => Ok (mkLocalChain new_tip, changeset)
        | Err e => Err e
        end).
End merge_chains.
Arguments MergeState : clear implicits.
Arguments MergeStep : clear implicits.
Arguments MergeResult : clear implicits.

(** ** Headers, on chains of block hashes *)

Section header.
Context {H : Type} `{!BlockHeader H}.
Context (eq_ptr : CheckPoint BlockHash → CheckPoint BlockHash → bool).

(** The block to connect through: [Ok None] when it is one of the two header
    blocks. *)
Definition header_connection (this : BlockId) (prev : option BlockId) (height : N)
    (connected_to : BlockId) : result ApplyHeaderError (option BlockId) :=
  if decide (connected_to = this ∨ Some connected_to = prev) then Ok None
  else if saturating_sub height 1 <=? bid_height connected_to then Err InconsistentBlocks
  else Ok (Some connected_to).

(** The outer [None] is a panic (the [expect] on the order of the blocks). *)
Definition apply_header_connected_to (c : LocalChain BlockHash) (header : H) (height : N)
    (connected_to : BlockId) :
    option (result ApplyHeaderError (LocalChain BlockHash * ChangeSet BlockHash)) :=
  let this := mkBlockId height (header_block_hash header) in
  let prev := (λ prev_height, mkBlockId prev_height (header_prev_blockhash header))
                <$> checked_sub height 1 in
  match header_connection this prev height connected_to with
  | Err e => Some (Err e)
  | Ok conn =>
      match cp_from_blocks (BlockId_to_pair <$> omap id [conn; prev; Some this]) with
      | Err _ => None
      | Ok update => map_err CannotConnect <$> apply_update eq_ptr c update
      end
  end.

(** The outer [None] is a panic (that [expect], or the [unreachable!]). *)
Definition apply_header (c : LocalChain BlockHash) (header : H) (height : N) :
    option (result CannotConnectError (LocalChain BlockHash * ChangeSet BlockHash)) :=
  let connected_to :=
    match checked_sub height 1 with
    | Some prev_height => mkBlockId prev_height (header_prev_blockhash header)
    | None => mkBlockId height (header_block_hash header)
    end in
  match apply_header_connected_to c header height connected_to with
  | Some (Ok r) => Some (Ok r)
  | Some (Err (CannotConnect err)) => Some (Err err)
  | Some (Err InconsistentBlocks) | None => None
  end.
End header.
