(* ===== verification/LocalChainFacts.v ===== *)
(** * Theory of the local chain

    Change sets act on the map from heights to blocks; applying one to a chain
    computes exactly that action. *)
From S2P Require Import Prelude Block CheckPoint CheckPointFacts CheckPointInsert CheckPointEntry.
From S2P Require Import LocalChain.
#[local] Open Scope N_scope.

(** ** Change sets as actions on maps *)

Section action.
Context {D : Type}.

(** What a change set does to the blocks of a chain. *)
Definition cs_apply (m : gmap N D) (cs : ChangeSet D) : gmap N D :=
  omap id (cs_blocks cs ∪ (Some <$> m)).

Lemma lookup_cs_apply m cs k :
  cs_apply m cs !! k = match cs_blocks cs !! k with Some v => v | None => m !! k end.
Proof.
  unfold cs_apply. rewrite lookup_omap, lookup_union, lookup_fmap.
  destruct (cs_blocks cs !! k) as [v|], (m !! k); by destruct v || done.
Qed.

Lemma cs_apply_default m : cs_apply m ChangeSet_default = m.
Proof. apply map_eq. intros k. by rewrite lookup_cs_apply. Qed.

(** Merging change sets is applying one after the other. *)
Lemma cs_apply_merge m a b : cs_apply m (merge a b) = cs_apply (cs_apply m a) b.
Proof.
  apply map_eq. intros k. rewrite !lookup_cs_apply. cbn.
  rewrite lookup_union. by destruct (cs_blocks a !! k), (cs_blocks b !! k).
Qed.

#[export] Instance ChangeSet_merge_laws : MergeLaws (ChangeSet D).
Proof.
  split; cbn.
  - intros [m]; cbn. rewrite bool_decide_eq_true. unfold ChangeSet_default.
    split; [by intros ->|by intros [= ->]].
  - intros [m]; cbn. f_equal. apply (right_id_L ∅ (∪)).
  - intros [m]; cbn. f_equal. apply (left_id_L ∅ (∪)).
  - intros [a] [b] [c]; cbn. f_equal. by rewrite (assoc_L (∪)).
Qed.

Lemma lookup_collect_map {V} (l : list (N * V)) (m : gmap N V) k :
  foldl (λ m p, <[p.1 := p.2]> m) m l !! k =
    match list_to_map (M:=gmap N V) (reverse l) !! k with Some v => Some v | None => m !! k end.
Proof.
  revert m. induction l as [|[h v] l IH]; intros m; simpl; [done|].
  rewrite IH, reverse_cons, list_to_map_app, lookup_union. simpl.
  destruct (list_to_map (M:=gmap N V) (reverse l) !! k); simpl; [by destruct (_ !! k)|].
  rewrite !lookup_insert, lookup_empty. by destruct (decide (h = k)).
Qed.

Lemma lookup_foldl_apply_entry (l : list (N * option D)) (m : gmap N D) k :
  NoDup l.*1 →
  foldl apply_entry m l !! k =
    match list_to_map (M:=gmap N (option D)) l !! k with Some v => v | None => m !! k end.
Proof.
  revert m. induction l as [|[h v] l IH]; intros m; simpl; [done|].
  intros [Hnin Hnd]%NoDup_cons. rewrite IH by done. rewrite lookup_insert.
  destruct (decide (h = k)) as [->|Hne].
  - rewrite (not_elem_of_list_to_map_1 (M:=gmap N)) by done.
    unfold apply_entry; simpl. destruct v; [apply lookup_insert_eq|apply lookup_delete_eq].
  - destruct (list_to_map (M:=gmap N (option D)) l !! k); [done|].
    unfold apply_entry; simpl.
    destruct v; [by rewrite lookup_insert_ne|by rewrite lookup_delete_ne].
Qed.

Lemma lookup_apply_entries (m : gmap N D) cs k :
  foldl apply_entry m (map_iter (cs_blocks cs)) !! k =
    match cs_blocks cs !! k with Some v => v | None => m !! k end.
Proof.
  rewrite lookup_foldl_apply_entry by apply NoDup_map_iter.
  by rewrite list_to_map_map_iter.
Qed.

Lemma lookup_cs_insert h (v : option D) cs k :
  cs_blocks (cs_insert h v cs) !! k =
    if decide (h = k) then Some v else cs_blocks cs !! k.
Proof. apply lookup_insert. Qed.

Definition cs_fit (cs : ChangeSet D) : Prop :=
  map_Forall (λ h _, h ≤ U32_MAX) (cs_blocks cs).
End action.

Section apply.
Context {D : Type} `{!ToBlockHash D}.
Implicit Types cp c e n : CheckPoint D.

Lemma cp_map_Some cp k d : cp_wf cp → cp_map cp !! k = Some d ↔ (k, d) ∈ cp_blocks cp.
Proof.
  intros Hwf. unfold cp_map. symmetry. by apply elem_of_list_to_map, NoDup_cp_blocks.
Qed.

Lemma cp_map_get cp k d :
  cp_wf cp → cp_map cp !! k = Some d ↔ ∃ n, cp_get cp k = Some n ∧ cp_data n = d.
Proof. intros Hwf. rewrite cp_map_lookup, fmap_Some by done. naive_solver. Qed.

(** Extending by blocks in ascending order can only fail on a parent hash. *)
Lemma extend_ascending c l :
  cp_wf c → heights_fit l → StronglySorted key_lt l →
  Forall (λ b : N * D, cp_height c < b.1) l →
  match cp_extend c l with
  | Ok c' => cp_wf c' ∧ cp_blocks c' = reverse l ++ cp_blocks c
  | Err e => cp_wf e ∧ ∃ l1 h d l2, l = l1 ++ (h, d) :: l2 ∧
      cp_blocks e = reverse l1 ++ cp_blocks c ∧ push_conflict e h d = true
  end.
Proof.
  intros Hwf Hfit Hs Hab.
  destruct (cp_extend_spec c l Hwf Hfit) as (l1 & l2 & -> & Hwf' & Hbl & Hres).
  destruct (cp_extend c _) as [c'|e]; simpl in *.
  - subst. by rewrite app_nil_r.
  - destruct Hres as (h & d & rest & -> & Hres). split; [done|].
    exists l1, h, d, rest. split_and!; [done..|].
    destruct Hres as [Hle|]; [|done]. exfalso.
    assert ((cp_height e, cp_data e) ∈ cp_blocks e) as Hin.
    { apply elem_of_cp_blocks. exists e. split; [apply cp_iter_self|done]. }
    rewrite Hbl in Hin. apply elem_of_app in Hin as [Hin|Hin]; [rewrite elem_of_reverse in Hin|].
    + eapply StronglySorted_app_1_elem_of in Hs; [|exact Hin|by left].
      destruct Hs as [Hle' Hne]. unfold tle in Hle'. simpl in *. lia.
    + apply blocks_le_height in Hin; [|done]. simpl in Hin.
      rewrite Forall_app, Forall_cons in Hab. simpl in Hab. lia.
Qed.

Lemma push_conflict_true c h d :
  push_conflict c h d = true ↔
  cp_height c + 1 = h ∧ ∃ y, prev_blockhash d = Some y ∧ y ≠ cp_hash c.
Proof.
  unfold push_conflict. destruct (prev_blockhash d) as [y|]; [|naive_solver].
  rewrite andb_true_iff, N.eqb_eq, negb_true_iff, N.eqb_neq. naive_solver.
Qed.

(** Contiguous blocks of [m] of which the upper names another parent. *)
Definition mismatch_at (m : gmap N D) (b : BlockId) : Prop :=
  ∃ d d' y, m !! bid_height b = Some d ∧ to_blockhash d = bid_hash b ∧
    m !! (bid_height b + 1) = Some d' ∧ prev_blockhash d' = Some y ∧ y ≠ bid_hash b.

Lemma extend_outcome c l (m : gmap N D) :
  cp_wf c → heights_fit l → StronglySorted key_lt l →
  Forall (λ b : N * D, cp_height c < b.1) l →
  (∀ k d, m !! k = Some d ↔ (k, d) ∈ l ∨ (k, d) ∈ cp_blocks c) →
  match cp_extend c l with
  | Ok c' => cp_wf c' ∧ cp_map c' = m
  | Err e => mismatch_at m (cp_block_id e)
  end.
Proof.
  intros Hwf Hfit Hs Hab Hm. pose proof (extend_ascending c l Hwf Hfit Hs Hab) as Hext.
  destruct (cp_extend c l) as [c'|e].
  - destruct Hext as [Hwf' Hbl]. split; [done|].
    apply map_eq. intros k. apply option_eq. intros d.
    rewrite cp_map_Some, Hbl, Hm, elem_of_app, elem_of_reverse by done. done.
  - destruct Hext as (Hwfe & l1 & h & d & l2 & -> & Hbl & Hconf).
    apply push_conflict_true in Hconf as (Hh & y & Hy & Hne).
    exists (cp_data e), d, y. split_and!.
    + apply Hm. assert ((cp_height e, cp_data e) ∈ cp_blocks e) as Hin.
      { apply elem_of_cp_blocks. exists e. split; [apply cp_iter_self|done]. }
      rewrite Hbl in Hin. apply elem_of_app in Hin as [Hin|Hin]; [|by right].
      rewrite elem_of_reverse in Hin. left. apply elem_of_app. by left.
    + symmetry. by apply cp_wf_hash.
    + apply Hm. left. unfold cp_height in Hh. rewrite Hh. apply elem_of_app. right. by left.
    + done.
    + done.
Qed.

Lemma split_at_start_spec cp start ext :
  cp_wf cp →
  let '(ext', base) := split_at_start (cp_iter cp) start ext in
  (∀ k, ext' !! k = if start <=? k
                    then match cp_map cp !! k with Some d => Some d | None => ext !! k end
                    else ext !! k) ∧
  match base with
  | Some b => b ∈ cp_iter cp ∧ cp_height b < start ∧
      ∀ k d, (k, d) ∈ cp_blocks b ↔ k < start ∧ cp_map cp !! k = Some d
  | None => ∀ n, n ∈ cp_iter cp → start ≤ cp_height n
  end.
Proof.
  revert ext. induction cp as [cp Hp|cp p Hp IH] using cp_prev_ind; intros ext Hwf.
  - rewrite cp_iter_unfold, Hp. simpl. destruct (N.leb_spec start (cp_height cp)).
    + split.
      * intros k. rewrite cp_map_base, lookup_insert by done.
        destruct (decide (cp_height cp = k)) as [<-|].
        -- rewrite lookup_singleton_eq. by destruct (N.leb_spec start (cp_height cp)); [|lia].
        -- rewrite lookup_singleton_ne by done. by destruct (start <=? k).
      * by intros n ->%list_elem_of_singleton.
    + split_and!; [|set_solver|done|].
      * intros k. rewrite cp_map_base by done.
        destruct (N.leb_spec start k); [|done].
        by rewrite lookup_singleton_ne by lia.
      * intros k d. rewrite cp_map_Some by done. split; [|by intros [_ ?]].
        intros Hin. split; [|done]. apply blocks_le_height in Hin; [simpl in Hin; lia|done].
  - rewrite (cp_iter_prev cp p) by done. simpl. destruct (N.leb_spec start (cp_height cp)).
    + assert (cp_wf p) as Hwfp by (by eapply cp_wf_prev).
      specialize (IH (<[cp_height cp:=cp_data cp]> ext) Hwfp).
      destruct (split_at_start (cp_iter p) start _) as [ext' base].
      destruct IH as [Hext Hbase].
      assert (Hpk : ∀ k d, cp_map p !! k = Some d → k < cp_height cp).
      { intros k d Hk. apply cp_map_Some, blocks_le_height in Hk; [|done..]. simpl in Hk.
        pose proof (cp_height_decreasing cp p Hwf Hp). lia. }
      split.
      * intros k. rewrite Hext, (cp_map_cons cp p), !lookup_insert by done.
        destruct (decide (cp_height cp = k)) as [<-|].
        -- destruct (cp_map p !! cp_height cp) as [d|] eqn:Hk; [apply Hpk in Hk; lia|].
           by destruct (N.leb_spec start (cp_height cp)); [|lia].
        -- done.
      * destruct base as [b|].
        -- destruct Hbase as (Hb & Hbh & Hbk). split_and!; [set_solver|done|].
           intros k d. rewrite Hbk, (cp_map_cons cp p), lookup_insert by done.
           destruct (decide (cp_height cp = k)); [naive_solver lia|done].
        -- intros n [->|Hn]%elem_of_cons; [done|auto].
    + split_and!; [|set_solver|done|].
      * intros k. destruct (N.leb_spec start k); [|done].
        destruct (cp_map cp !! k) as [d|] eqn:Hk; [|done].
        apply cp_map_Some, blocks_le_height in Hk; [simpl in Hk; lia|done..].
      * intros k d. rewrite cp_map_Some by done. split; [|by intros [_ ?]].
        intros Hin. split; [|done]. apply blocks_le_height in Hin; [simpl in Hin; lia|done].
Qed.

(** ** Applying a change set *)

Lemma map_iter_fit (m : gmap N D) :
  map_Forall (λ h _, h ≤ U32_MAX) m → heights_fit (map_iter m).
Proof.
  intros Hm. apply Forall_forall. intros [h d] Hin. simpl.
  apply elem_of_map_iter in Hin. by apply (Hm h d).
Qed.

Lemma head_map_iter_min {V} (m : gmap N V) h v :
  head (map_iter m) = Some (h, v) → m !! h = Some v ∧ ∀ k, is_Some (m !! k) → h ≤ k.
Proof.
  intros Hh. pose proof (map_iter_sorted m) as Hs.
  assert (∀ k w, (k, w) ∈ map_iter m ↔ m !! k = Some w) as Hin by apply elem_of_map_iter.
  destruct (map_iter m) as [|[h' v'] l]; [done|]. simpl in Hh. simplify_eq. split.
  - apply Hin. by left.
  - intros k [w Hk]. apply Hin, elem_of_cons in Hk as [|Hk]; [by simplify_eq|].
    apply StronglySorted_inv in Hs as [_ Hs]. eapply Forall_forall in Hs; [|done].
    destruct Hs as [Hs _]. exact Hs.
Qed.

Lemma lc_from_blocks_outcome (m : gmap N D) :
  map_Forall (λ h _, h ≤ U32_MAX) m →
  match lc_from_blocks m with
  | Ok c => cp_wf (lc_tip c) ∧ cp_map (lc_tip c) = m ∧ is_Some (m !! 0)
  | Err MissingGenesis => m !! 0 = None
  | Err (PrevBlockhashMismatch b) => mismatch_at m b
  end.
Proof.
  intros Hfit. unfold lc_from_blocks. destruct (m !! 0) as [g|] eqn:H0; [|done].
  pose proof (map_iter_fit m Hfit) as Hf. pose proof (map_iter_sorted m) as Hs.
  assert (Hin : ∀ k d, m !! k = Some d ↔ (k, d) ∈ map_iter m) by (intros; by rewrite elem_of_map_iter).
  destruct (map_iter m) as [|[h d] l].
  { apply Hin in H0. by apply elem_of_nil in H0. }
  apply Forall_cons in Hf as [Hh Hf]. apply StronglySorted_inv in Hs as [Hs Hhd].
  assert (cp_wf (cp_new h d)) as Hnew by (by constructor). simpl.
  pose proof (extend_outcome (cp_new h d) l m Hnew Hf Hs) as Hext.
  ospecialize (Hext _ _).
  - eapply Forall_impl; [done|]. intros [h' d'] [Hle Hne]. unfold tle in Hle. simpl in *.
    change (cp_height (cp_new h d)) with h. lia.
  - intros k d'. rewrite Hin, elem_of_cons, cp_blocks_base, list_elem_of_singleton by done. naive_solver.
  - destruct (cp_extend (cp_new h d) l); [|done]. naive_solver.
Qed.

(** The [expect] of [LocalChain::from_blocks] cannot fail. *)
Lemma lc_from_blocks_not_empty (m : gmap N D) :
  is_Some (m !! 0) → cp_from_blocks (map_iter m) ≠ Err None.
Proof.
  intros [g H0] Heq. destruct (map_iter m) as [|[h d] l] eqn:Hm.
  - apply map_iter_nil in Hm. by subst.
  - simpl in Heq. by destruct (cp_extend (cp_new h d) l).
Qed.

Lemma apply_changeset_outcome cp cs :
  cp_wf cp → cs_fit cs →
  match apply_changeset_to_checkpoint cp cs with
  | Ok cp' => cp_wf cp' ∧ cp_map cp' = cs_apply (cp_map cp) cs ∧
      (is_Some (cp_map cp !! 0) → is_Some (cp_map cp' !! 0))
  | Err MissingGenesis => cs_apply (cp_map cp) cs !! 0 = None
  | Err (PrevBlockhashMismatch b) => mismatch_at (cs_apply (cp_map cp) cs) b
  end.
Proof.
  intros Hwf Hfit. unfold apply_changeset_to_checkpoint.
  destruct (head (map_iter (cs_blocks cs))) as [[start v]|] eqn:Hhead; cycle 1.
  { assert (cp_map cp = cs_apply (cp_map cp) cs) as <-; [|done]. apply head_None, map_iter_nil in Hhead.
    destruct cs as [m]. simpl in Hhead. subst m. symmetry. apply cs_apply_default. }
  apply head_map_iter_min in Hhead as [Hstart Hmin].
  pose proof (split_at_start_spec cp start ∅ Hwf) as Hsplit.
  destruct (split_at_start (cp_iter cp) start ∅) as [ext base].
  destruct Hsplit as [Hext Hbase].
  set (ext' := foldl apply_entry ext (map_iter (cs_blocks cs))).
  assert (Hext' : ∀ k, ext' !! k = if start <=? k then cs_apply (cp_map cp) cs !! k else None).
  { intros k. unfold ext'. rewrite lookup_apply_entries, lookup_cs_apply, Hext, lookup_empty.
    destruct (cs_blocks cs !! k) as [w|] eqn:Hk.
    - by destruct (N.leb_spec start k) as [|Hlt]; [|pose proof (Hmin k ltac:(eauto)); lia].
    - by destruct (start <=? k), (cp_map cp !! k). }
  assert (Hfit' : map_Forall (λ h _, h ≤ U32_MAX) ext').
  { intros k d Hk. rewrite Hext' in Hk. destruct (start <=? k); [|done].
    rewrite lookup_cs_apply in Hk. destruct (cs_blocks cs !! k) as [w|] eqn:Hw;
      [by apply (Hfit k w)|].
    apply cp_map_Some, blocks_le_height in Hk; [|done..].
    pose proof (cp_wf_height_max cp Hwf). simpl in Hk. lia. }
  destruct base as [b|].
  - destruct Hbase as (Hb & Hbh & Hbk).
    assert (cp_wf b) as Hwfb by (by eapply cp_wf_iter).
    pose proof (extend_outcome b (map_iter ext') (cs_apply (cp_map cp) cs) Hwfb
      (map_iter_fit _ Hfit') (map_iter_sorted _)) as Hout.
    ospecialize (Hout _ _).
    + apply Forall_forall. intros [k d] Hin. apply elem_of_map_iter in Hin.
      rewrite Hext' in Hin. simpl. destruct (N.leb_spec start k); [lia|done].
    + intros k d. rewrite elem_of_map_iter, Hext', Hbk.
      destruct (N.leb_spec start k); [naive_solver lia|].
      rewrite lookup_cs_apply. destruct (cs_blocks cs !! k) as [w|] eqn:Hw;
        [pose proof (Hmin k ltac:(eauto)); lia|]. naive_solver.
    + destruct (cp_extend b (map_iter ext')) as [cp'|e]; [|done].
      destruct Hout as [Hwf' Hmap]. split_and!; [done..|]. intros H0. rewrite Hmap, lookup_cs_apply.
      destruct (cs_blocks cs !! 0) as [w|] eqn:Hw; [|done].
      pose proof (Hmin 0 ltac:(eauto)). lia.
  - assert (ext' = cs_apply (cp_map cp) cs) as ->.
    { apply map_eq. intros k. rewrite Hext'. destruct (N.leb_spec start k); [done|].
      rewrite lookup_cs_apply. destruct (cs_blocks cs !! k) as [w|] eqn:Hw;
        [pose proof (Hmin k ltac:(eauto)); lia|].
      destruct (cp_map cp !! k) as [d|] eqn:Hd; [|done].
      apply cp_map_get in Hd as (n & [Hn <-]%cp_get_Some & _); [|done..].
      specialize (Hbase n Hn). lia. }
    pose proof (lc_from_blocks_outcome _ Hfit') as Hout.
    destruct (lc_from_blocks (cs_apply (cp_map cp) cs)) as [c|[|]]; [|done..].
    destruct Hout as (? & Hmap & ?). simpl. by rewrite Hmap.
Qed.

(** ** Chains with a genesis block *)

(** Looking a height up from any node at or above it. *)
Lemma cp_get_ancestor cp n k :
  cp_wf cp → n ∈ cp_iter cp → k ≤ cp_height n → cp_get cp k = cp_get n k.
Proof.
  intros Hwf Hn Hk. pose proof (cp_wf_iter cp n Hwf Hn) as Hwfn.
  unfold cp_get. rewrite !walk_to_floor_floor by done.
  rewrite (floor_by_ancestor cp_height cp n) by auto using cp_height_decreasing.
  destruct (N.ltb_spec (cp_height n) k); [lia|].
  destruct (decreasing_le cp_height cp n) as [->|]; auto using cp_height_decreasing.
  - by destruct (N.ltb_spec (cp_height cp) k); [lia|].
  - by destruct (N.ltb_spec (cp_height cp) k); [lia|].
Qed.

(** A well-formed chain is internally consistent. *)
Lemma cp_map_no_mismatch cp b : cp_wf cp → ¬ mismatch_at (cp_map cp) b.
Proof.
  intros Hwf (d & d' & y & Hd & Hh & Hd' & Hy & Hne).
  apply cp_map_get in Hd as (n & Hn & <-); [|done].
  apply cp_map_get in Hd' as (n' & Hn' & <-); [|done].
  pose proof Hn as [Hin Hnh]%cp_get_Some; [|done].
  apply cp_get_Some in Hn' as [Hin' Hnh']; [|done].
  pose proof (cp_wf_iter cp n' Hwf Hin') as Hwf'.
  rewrite (cp_get_ancestor cp n') in Hn by (done || lia).
  apply cp_get_Some in Hn as [Hnn' _]; [|done].
  rewrite cp_iter_unfold in Hnn'. apply elem_of_cons in Hnn' as [->|Hp]; [lia|].
  destruct (cp_prev n') as [p|] eqn:Hprev; [|by apply elem_of_nil in Hp].
  pose proof (cp_height_decreasing n' p Hwf' Hprev).
  pose proof (cp_wf_no_conflict n' p Hwf' Hprev) as Hnc.
  destruct (decreasing_le cp_height p n) as [->|];
    [apply cp_height_decreasing|by eapply cp_wf_prev|done| |lia].
  rewrite push_conflict_false in Hnc. apply Hne.
  rewrite <-Hh, <-cp_wf_hash by (by apply (cp_wf_iter cp)). apply Hnc; [lia|done].
Qed.

Definition lc_wf (c : LocalChain D) : Prop :=
  cp_wf (lc_tip c) ∧ is_Some (cp_map (lc_tip c) !! 0).

Lemma lc_ext (a b : LocalChain D) : lc_wf a → lc_wf b → cp_map (lc_tip a) = cp_map (lc_tip b) → a = b.
Proof.
  destruct a as [a], b as [b]. intros [Ha _] [Hb _] Heq. f_equal. by apply cp_map_inj.
Qed.

Lemma lc_apply_outcome (c : LocalChain D) cs :
  lc_wf c → cs_fit cs →
  match lc_apply_changeset c cs with
  | Ok c' => lc_wf c' ∧ cp_map (lc_tip c') = cs_apply (cp_map (lc_tip c)) cs
  | Err MissingGenesis => cs_apply (cp_map (lc_tip c)) cs !! 0 = None
  | Err (PrevBlockhashMismatch b) => mismatch_at (cs_apply (cp_map (lc_tip c)) cs) b
  end.
Proof.
  intros [Hwf Hgen] Hfit. pose proof (apply_changeset_outcome _ _ Hwf Hfit) as Hout.
  unfold lc_apply_changeset. destruct (apply_changeset_to_checkpoint _ _); simpl; [|done].
  destruct Hout as (? & ? & ?). repeat split; auto.
Qed.

(** The outcome when the target of a change set is known to be a chain. *)
Lemma lc_apply_to (c c' : LocalChain D) cs :
  lc_wf c → cs_fit cs → lc_wf c' → cp_map (lc_tip c') = cs_apply (cp_map (lc_tip c)) cs →
  lc_apply_changeset c cs = Ok c'.
Proof.
  intros Hwf Hfit Hwf' Hmap. pose proof (lc_apply_outcome c cs Hwf Hfit) as Hout.
  rewrite <-Hmap in Hout. destruct (lc_apply_changeset c cs) as [c''|[|b]].
  - destruct Hout as [Hwf'' Heq]. f_equal. by apply lc_ext.
  - destruct Hwf' as [_ [g Hg]]. congruence.
  - destruct Hwf' as [Hwf' _]. by destruct (cp_map_no_mismatch _ b Hwf').
Qed.

Lemma cs_fit_merge a b : @cs_fit D a → cs_fit b → cs_fit (merge a b).
Proof.
  intros Ha Hb h v. unfold cs_fit, map_Forall in *. cbn. rewrite lookup_union_Some_raw.
  naive_solver.
Qed.

Lemma cp_map_fit cp k d : cp_wf cp → cp_map cp !! k = Some d → k ≤ U32_MAX.
Proof.
  intros Hwf Hk. apply cp_map_Some, blocks_le_height in Hk; [|done..].
  pose proof (cp_wf_height_max cp Hwf). simpl in Hk. lia.
Qed.
End apply.
