(* ===== verification/LocalChainSpec.v ===== *)
(** * What the local chain promises

    The properties of [crates/chain/src/local_chain.rs] other than those of
    [merge_chains]: change sets, insertion, disconnection and the oracle. *)
From S2P Require Import Prelude Block CheckPoint CheckPointFacts CheckPointInsert CheckPointEntry.
From S2P Require Import LocalChain LocalChainFacts Samples.
#[local] Open Scope N_scope.

Section spec.
Context {D : Type} `{!ToBlockHash D}.
Implicit Types (c : LocalChain D) (cs : ChangeSet D) (cp n : CheckPoint D).

(** ** The check of an applied change set *)

Lemma check_entries_spec cur (l : list (N * option D)) :
  cp_wf cur → StronglySorted (λ a b : N * option D, b.1 < a.1) l →
  (∀ h v, (h, v) ∈ l → cp_map cur !! h = v) →
  check_entries cur l = true.
Proof.
  revert cur. induction l as [|[h v] l IH]; intros cur Hwf Hs Hl; [done|]. simpl.
  apply StronglySorted_inv in Hs as [Hs Hlt].
  assert (cp_map cur !! h = v) as Hv by (apply Hl; by left).
  rewrite cp_map_lookup in Hv by done.
  destruct (cp_get cur h) as [n|] eqn:Hn; simpl in Hv; subst v; simpl.
  - apply cp_get_Some in Hn as [Hin Hnh]; [|done].
    pose proof (cp_wf_iter cur n Hwf Hin) as Hwfn.
    rewrite (proj2 (N.eqb_eq _ _)) by done. rewrite <-cp_wf_hash by done.
    rewrite bool_decide_eq_true_2 by done. simpl. apply IH; [done..|].
    intros k v Hk. rewrite <-(Hl k v) by (by right). rewrite !cp_map_lookup by done.
    rewrite (cp_get_ancestor cur n); [done..|].
    eapply Forall_forall in Hlt; [|done]. simpl in Hlt. lia.
  - apply IH; [done..|]. intros k v Hk. apply Hl. by right.
Qed.

Lemma reverse_map_iter_sorted {V} (m : gmap N V) :
  StronglySorted (λ a b : N * V, b.1 < a.1) (reverse (map_iter m)).
Proof.
  eapply StronglySorted_weaken; [|apply StronglySorted_reverse, map_iter_sorted].
  intros [] [] [Hle Hne]. unfold tle in Hle. simpl in *. lia.
Qed.

(** [apply_changeset] computes the action of the change set on the map of
    blocks (entries added, replaced or removed, everything else kept), on a
    chain that stays well formed and keeps a genesis; the change set then
    passes [_check_changeset_is_applied], which the code asserts.  It fails
    only when the result would have no genesis block, or would hold two
    contiguous blocks of which the upper names another parent. *)
Theorem apply_changeset_correct c cs :
  lc_wf c → cs_fit cs →
  match lc_apply_changeset c cs with
  | Ok c' => lc_wf c' ∧
      (∀ k, cp_map (lc_tip c') !! k =
        match cs_blocks cs !! k with Some v => v | None => cp_map (lc_tip c) !! k end) ∧
      check_changeset_is_applied c' cs = true
  | Err MissingGenesis => cs_apply (cp_map (lc_tip c)) cs !! 0 = None
  | Err (PrevBlockhashMismatch b) => mismatch_at (cs_apply (cp_map (lc_tip c)) cs) b
  end.
Proof.
  intros Hwf Hfit. pose proof (lc_apply_outcome c cs Hwf Hfit) as Hout.
  destruct (lc_apply_changeset c cs) as [c'|[|b]]; [|done..].
  destruct Hout as [Hwf' Hmap]. split_and!; [done|..].
  - intros k. by rewrite Hmap, lookup_cs_apply.
  - apply check_entries_spec; [apply Hwf'|apply reverse_map_iter_sorted|].
    intros h v Hin. rewrite elem_of_reverse in Hin. apply elem_of_map_iter in Hin.
    by rewrite Hmap, lookup_cs_apply, Hin.
Qed.

(** Merging change sets is faithful: applying one and then another gives
    the chain that applying their merge gives. *)
Theorem apply_changeset_merge c c1 c2 a b :
  lc_wf c → cs_fit a → cs_fit b →
  lc_apply_changeset c a = Ok c1 → lc_apply_changeset c1 b = Ok c2 →
  lc_apply_changeset c (merge a b) = Ok c2.
Proof.
  intros Hwf Ha Hb H1 H2. pose proof (lc_apply_outcome c a Hwf Ha) as Hout1.
  rewrite H1 in Hout1. destruct Hout1 as [Hwf1 Hm1].
  pose proof (lc_apply_outcome c1 b Hwf1 Hb) as Hout2.
  rewrite H2 in Hout2. destruct Hout2 as [Hwf2 Hm2].
  apply lc_apply_to; [done|by apply cs_fit_merge|done|].
  by rewrite cs_apply_merge, <-Hm1.
Qed.

(** ** Persisting and loading *)

Lemma lookup_collect_fmap {V W} (f : V → W) (g : V → N) (l : list V) k :
  collect_map ((λ v, (g v, f v)) <$> l) !! k = f <$> List.find (λ v, g v =? k) (reverse l).
Proof.
  unfold collect_map. rewrite lookup_collect_map, <-fmap_reverse, lookup_empty.
  assert (∀ o : option W, match o with Some v => Some v | None => None end = o) as ->
    by (by intros []).
  induction (reverse l) as [|v l' IH]; simpl; [done|]. rewrite lookup_insert.
  destruct (decide (g v = k)) as [->|Hne].
  - by rewrite N.eqb_refl.
  - by rewrite (proj2 (N.eqb_neq _ _)).
Qed.

Lemma initial_changeset_blocks c :
  cp_wf (lc_tip c) → cs_blocks (initial_changeset c) = Some <$> cp_map (lc_tip c).
Proof.
  intros Hwf. apply map_eq. intros k. unfold initial_changeset, ChangeSet_from_iter; simpl.
  rewrite (lookup_collect_fmap (λ cp, Some (cp_data cp)) cp_height), lookup_fmap,
    cp_map_lookup by done.
  destruct (List.find _ (reverse _)) as [n|] eqn:Hf; simpl.
  - apply find_some in Hf as [Hin Hk%N.eqb_eq]. apply list_elem_of_In in Hin.
    rewrite elem_of_reverse in Hin.
    by rewrite (proj2 (cp_get_Some (lc_tip c) k n Hwf) (conj Hin Hk)).
  - destruct (cp_get (lc_tip c) k) as [n|] eqn:Hn; [|done].
    apply cp_get_Some in Hn as [Hin Hk]; [|done].
    eapply find_none in Hf; [|apply list_elem_of_In; by rewrite elem_of_reverse].
    by apply N.eqb_neq in Hf.
Qed.

Lemma from_genesis_wf (d : D) :
  lc_wf (from_genesis d).1 ∧ cp_map (lc_tip (from_genesis d).1) = {[0 := d]}.
Proof.
  assert (cp_map (lc_tip (from_genesis d).1) = {[0 := d]}) as Hm by (by apply cp_map_base).
  split; [|done]. split; [by constructor|]. rewrite Hm, lookup_singleton_eq. by eexists.
Qed.

(** [LocalChain::from_blocks] and [from_changeset] on any input. *)
Lemma from_changeset_outcome cs :
  cs_fit cs →
  match from_changeset cs with
  | Ok c => lc_wf c ∧ cp_map (lc_tip c) = omap id (cs_blocks cs)
  | Err MissingGenesis => mjoin (cs_blocks cs !! 0) = None
  | Err (PrevBlockhashMismatch b) => mismatch_at (omap id (cs_blocks cs)) b
  end.
Proof.
  intros Hfit. unfold from_changeset.
  destruct (mjoin (cs_blocks cs !! 0)) as [d|] eqn:H0; [|done].
  destruct (from_genesis_wf d) as [Hwf Hm].
  pose proof (lc_apply_outcome _ cs Hwf Hfit) as Hout.
  assert (cs_apply (cp_map (lc_tip (from_genesis d).1)) cs = omap id (cs_blocks cs)) as Heq.
  { apply map_eq. intros k. rewrite lookup_cs_apply, Hm, lookup_omap.
    destruct (cs_blocks cs !! k) as [v|] eqn:Hk; [done|].
    simpl. rewrite lookup_singleton_ne; [done|]. intros <-. by rewrite Hk in H0. }
  rewrite Heq in Hout. destruct (lc_apply_changeset _ cs) as [c|[|b]]; [done| |done].
  rewrite lookup_omap in Hout. by destruct (cs_blocks cs !! 0) as [[]|].
Qed.

(** The initial change set of a chain persists it completely: loading it
    gives the chain back.  [from_tip] accepts exactly the tips whose chain has
    a genesis block, and never panics. *)
Theorem from_changeset_roundtrip c :
  cp_wf (lc_tip c) →
  if decide (is_Some (cp_get (lc_tip c) 0))
  then from_changeset (initial_changeset c) = Ok c ∧
       from_tip (lc_tip c) = Some (Ok c)
  else from_changeset (initial_changeset c) = Err MissingGenesis ∧
       from_tip (lc_tip c) = Some (Err mkMissingGenesisError).
Proof.
  intros Hwf. pose proof (initial_changeset_blocks c Hwf) as Hcs.
  unfold from_tip. destruct (iter_last_base (lc_tip c) Hwf) as (g & -> & Hg & Hmin).
  pose proof (from_changeset_outcome (initial_changeset c)) as Hout.
  rewrite Hcs in Hout. ospecialize (Hout _).
  { intros k v Hk. rewrite Hcs in Hk. apply lookup_fmap_Some in Hk as (d & _ & Hk).
    by eapply cp_map_fit. }
  assert (omap id (Some <$> cp_map (lc_tip c)) = cp_map (lc_tip c)) as Hid.
  { apply map_eq. intros k. rewrite lookup_omap, lookup_fmap. by destruct (_ !! k). }
  rewrite Hid in Hout. rewrite lookup_fmap, cp_map_lookup in Hout by done.
  destruct (decide (is_Some (cp_get (lc_tip c) 0))) as [[n Hn]|Hnone].
  - pose proof Hn as [Hin Hn0]%cp_get_Some; [|done].
    rewrite (proj2 (N.eqb_eq _ _)) by (specialize (Hmin n Hin); lia). rewrite Hn in Hout.
    destruct (from_changeset _) as [c'|[|b]]; [|done|].
    + destruct Hout as [Hwf' Hm]. destruct c as [tip]. split; [|done]. f_equal.
      apply lc_ext; [done| |done]. split; [done|]. by rewrite cp_map_lookup, Hn by done.
    + by destruct (cp_map_no_mismatch _ b Hwf).
  - rewrite (proj2 (N.eqb_neq _ _)); cycle 1.
    { intros Hg0. apply Hnone. exists g. by apply cp_get_Some. }
    split; [|by destruct c].
    apply eq_None_not_Some in Hnone. rewrite Hnone in Hout.
    destruct (from_changeset _) as [c'|[|b]]; [|done|].
    + destruct Hout as [[Hwf' [d Hd]] Hm]. rewrite Hm, cp_map_lookup, Hnone in Hd; done.
    + by destruct (cp_map_no_mismatch _ b Hwf).
Qed.

(** ** Inserting and disconnecting *)

(** [insert_block] never panics.  A block already present with the same
    hash changes nothing; a height occupied by another hash is refused,
    reporting the occupant.  Otherwise the block alone is added, and the
    returned change set says so; the only obstacle is a contiguous neighbour
    naming another parent, reported with the genesis block's hash. *)
Theorem insert_block_correct c height (data : D) :
  lc_wf c → height ≤ U32_MAX →
  match insert_block c height data with
  | None => False
  | Some (Ok (c', cs)) => lc_wf c' ∧
      match cp_get (lc_tip c) height with
      | Some n => cp_hash n = to_blockhash data ∧ c' = c ∧ cs = ChangeSet_default
      | None => cs_blocks cs = {[height := Some data]} ∧
          cp_map (lc_tip c') = <[height := data]> (cp_map (lc_tip c)) ∧
          lc_apply_changeset c cs = Ok c'
      end
  | Some (Err e) =>
      match cp_get (lc_tip c) height with
      | Some n => cp_hash n ≠ to_blockhash data ∧
          e = mkAlterCheckPointError height (cp_hash n) (Some (to_blockhash data))
      | None => (∃ b, mismatch_at (<[height := data]> (cp_map (lc_tip c))) b) ∧
          ∃ g, cp_get (lc_tip c) 0 = Some g ∧ e = mkAlterCheckPointError 0 (cp_hash g) None
      end
  end.
Proof.
  intros Hwf Hmax. pose proof Hwf as [Hcp [d0 H0]]. unfold insert_block.
  destruct (cp_get (lc_tip c) height) as [n|] eqn:Hn.
  { destruct (N.eqb_spec (cp_hash n) (to_blockhash data)); [|done]. done. }
  pose proof (lc_apply_outcome c (cs_insert height (Some data) ChangeSet_default) Hwf) as Hout.
  set (cs := cs_insert height (Some data) ChangeSet_default) in *.
  ospecialize (Hout _).
  { unfold cs_fit, cs; simpl. by apply map_Forall_insert_2. }
  assert (Hact : cs_apply (cp_map (lc_tip c)) cs = <[height := data]> (cp_map (lc_tip c))).
  { apply map_eq. intros k. rewrite lookup_cs_apply. simpl. rewrite !lookup_insert, lookup_empty.
    by destruct (decide (height = k)). }
  apply cp_map_get in H0 as (g & Hg & _); [|done].
  assert (height ≠ 0) as Hh0 by (intros ->; congruence).
  rewrite Hact in Hout. destruct (lc_apply_changeset c cs) as [c'|[|b]] eqn:Happ.
  - destruct Hout as [? ?]. by split_and!.
  - rewrite lookup_insert_ne, cp_map_lookup, Hg in Hout by done. done.
  - unfold genesis_hash. rewrite Hg. cbn [fmap option_fmap option_map mbind option_bind].
    split; [by eexists|]. exists g. split; [done|].
    unfold cs; simpl. by rewrite lookup_insert_ne by done.
Qed.

Lemma cp_get_cons cp p k :
  cp_wf cp → cp_prev cp = Some p →
  cp_get cp k = if decide (cp_height cp = k) then Some cp else cp_get p k.
Proof.
  intros Hwf Hp. pose proof (cp_wf_prev cp p Hwf Hp) as Hwfp.
  apply option_eq. intros n. rewrite cp_get_Some by done. rewrite (cp_iter_prev cp p) by done.
  rewrite elem_of_cons. destruct (decide (cp_height cp = k)) as [<-|Hne].
  - split; [|naive_solver]. intros [[->|Hn] Hk]; [done|].
    pose proof (cp_height_decreasing cp p Hwf Hp).
    destruct (decreasing_le cp_height p n) as [->|]; auto using cp_height_decreasing; lia.
  - rewrite cp_get_Some by done. naive_solver.
Qed.

Lemma cp_get_above cp k : cp_height cp < k → cp_get cp k = None.
Proof. intros Hlt. unfold cp_get. by rewrite (proj2 (N.ltb_lt _ _) Hlt). Qed.

Lemma cp_get_base cp k :
  cp_wf cp → cp_prev cp = None →
  cp_get cp k = if decide (cp_height cp = k) then Some cp else None.
Proof.
  intros Hwf Hp. apply option_eq. intros n. rewrite cp_get_Some by done.
  rewrite cp_iter_unfold, Hp, list_elem_of_singleton.
  destruct (decide (cp_height cp = k)); naive_solver.
Qed.

Lemma disconnect_loop_spec cp (b : BlockId) rf cs :
  cp_wf cp →
  let '(rf', cs') := disconnect_loop (cp_iter cp) b rf cs in
  (rf' = match cp_get cp (bid_height b) with
         | Some n => if decide (cp_block_id n = b) then Some n else rf
         | None => rf
         end) ∧
  ∀ k, cs_blocks cs' !! k =
    if decide (bid_height b ≤ k ∧ is_Some (cp_get cp k)) then Some None
    else cs_blocks cs !! k.
Proof.
  revert rf cs. induction cp as [cp Hp|cp p Hp IH] using cp_prev_ind; intros rf cs Hwf.
  - rewrite cp_iter_unfold, Hp. simpl. destruct (N.ltb_spec (cp_height cp) (bid_height b)).
    + split; [by rewrite cp_get_above|]. intros k. rewrite decide_False; [done|].
      intros [Hk [n Hn]]. rewrite cp_get_above in Hn; [done|lia].
    + split.
      * rewrite cp_get_base by done. destruct (decide (cp_block_id cp = b)) as [<-|Hne].
        -- rewrite decide_True by done. by rewrite decide_True by done.
        -- by destruct (decide (cp_height cp = bid_height b)); rewrite ?decide_False.
      * intros k. rewrite cp_get_base, lookup_cs_insert by done.
        destruct (decide (cp_height cp = k)) as [<-|].
        -- by rewrite decide_True by (split; [done|by eexists]).
        -- rewrite decide_False; [done|]. by intros [_ [? ?]].
  - rewrite (cp_iter_prev cp p) by done. simpl.
    destruct (N.ltb_spec (cp_height cp) (bid_height b)) as [Hlt|Hge].
    + split; [by rewrite cp_get_above|]. intros k. rewrite decide_False; [done|].
      intros [Hk [n Hn]]. rewrite cp_get_above in Hn; [done|lia].
    + pose proof (cp_wf_prev cp p Hwf Hp) as Hwfp. pose proof (cp_height_decreasing cp p Hwf Hp).
      specialize (IH (if decide (cp_block_id cp = b) then Some cp else rf)
        (cs_insert (cp_height cp) None cs) Hwfp).
      destruct (disconnect_loop (cp_iter p) b _ _) as [rf' cs']. destruct IH as [-> Hcs]. split.
      * rewrite (cp_get_cons cp p) by done. destruct (decide (cp_block_id cp = b)) as [<-|Hne].
        -- rewrite (cp_get_above p) by done. rewrite decide_True by done.
           by rewrite decide_True by done.
        -- destruct (decide (cp_height cp = bid_height b)) as [Heq|]; [|done].
           rewrite cp_get_above by lia. by rewrite decide_False.
      * intros k. rewrite Hcs, (cp_get_cons cp p), lookup_cs_insert by done.
        destruct (decide (cp_height cp = k)) as [<-|Hne]; [|done].
        rewrite (decide_True (P:=_ ∧ is_Some (Some cp))) by (split; [done|by eexists]).
        by destruct (decide _).
Qed.

Lemma cp_get_prev_below cp n p k :
  cp_wf cp → n ∈ cp_iter cp → cp_prev n = Some p →
  cp_get p k = if decide (k < cp_height n) then cp_get cp k else None.
Proof.
  intros Hwf Hn Hp. pose proof (cp_wf_iter cp n Hwf Hn) as Hwfn.
  pose proof (cp_height_decreasing n p Hwfn Hp). destruct (decide (k < cp_height n)).
  - rewrite (cp_get_ancestor cp n k), (cp_get_cons n p) by (done || lia).
    by rewrite decide_False by lia.
  - apply cp_get_above. lia.
Qed.

(** [disconnect_from] on a block that is not in the chain changes
    nothing; on the base of the chain it fails; otherwise the chain is cut
    just below the block: exactly the checkpoints under its height remain,
    the change set removes exactly the others, and applying it to the old
    chain gives the new one. *)
Theorem disconnect_from_correct c (b : BlockId) :
  lc_wf c →
  match cp_get (lc_tip c) (bid_height b) with
  | Some n =>
      if decide (cp_block_id n = b) then
        if decide (bid_height b = 0) then disconnect_from c b = Err mkMissingGenesisError
        else ∃ c' cs, disconnect_from c b = Ok (c', cs) ∧ lc_wf c' ∧
          (∀ k, cp_get (lc_tip c') k =
             if decide (k < bid_height b) then cp_get (lc_tip c) k else None) ∧
          (∀ k, cs_blocks cs !! k =
             if decide (bid_height b ≤ k ∧ is_Some (cp_get (lc_tip c) k))
             then Some None else None) ∧
          lc_apply_changeset c cs = Ok c'
      else disconnect_from c b = Ok (c, ChangeSet_default)
  | None => disconnect_from c b = Ok (c, ChangeSet_default)
  end.
Proof.
  intros Hwf. pose proof Hwf as [Hcp [d0 H0]].
  apply cp_map_get in H0 as (g & Hg & _); [|done].
  unfold disconnect_from.
  pose proof (disconnect_loop_spec (lc_tip c) b None ChangeSet_default Hcp) as Hloop.
  destruct (disconnect_loop _ b None _) as [rf cs]. destruct Hloop as [-> Hcs].
  destruct (cp_get (lc_tip c) (bid_height b)) as [n|] eqn:Hn; [|done].
  destruct (decide (cp_block_id n = b)) as [Hb|]; [|done]. simpl.
  apply cp_get_Some in Hn as [Hin Hnh]; [|done].
  pose proof (cp_wf_iter _ n Hcp Hin) as Hwfn.
  destruct (cp_prev n) as [p|] eqn:Hp; cycle 1.
  { destruct (decide (bid_height b = 0)); [done|]. exfalso.
    rewrite (cp_get_ancestor _ n) in Hg by (done || lia).
    rewrite cp_get_base in Hg by done. destruct (decide (cp_height n = 0)); [lia|done]. }
  pose proof (cp_height_decreasing n p Hwfn Hp).
  rewrite decide_False by lia. exists (mkLocalChain p), cs.
  assert (Hget : ∀ k, cp_get p k =
    if decide (k < bid_height b) then cp_get (lc_tip c) k else None).
  { intros k. rewrite <-Hnh. by apply cp_get_prev_below. }
  assert (cp_wf p) as Hwfp by (by eapply cp_wf_prev).
  assert (lc_wf (mkLocalChain p)) as Hwf'.
  { split; [done|]. simpl. rewrite cp_map_lookup, Hget, decide_True by (done || lia).
    rewrite Hg. by eexists. }
  split_and!; [done..|]. apply lc_apply_to; [done| |done|].
  - intros k v Hk. rewrite Hcs in Hk. destruct (decide _) as [[_ [m Hm]]|]; [|done].
    apply (cp_map_fit (lc_tip c) k (cp_data m)); [done|]. by rewrite cp_map_lookup, Hm.
  - apply map_eq. intros k. rewrite lookup_cs_apply, Hcs. simpl.
    rewrite !cp_map_lookup, Hget by done. rewrite lookup_empty.
    destruct (decide (k < bid_height b)).
    + by rewrite decide_False by lia.
    + destruct (decide _) as [|Hno]; [done|].
      destruct (cp_get (lc_tip c) k) eqn:Hk; [|done]. destruct Hno. split; [lia|done].
Qed.
End spec.

(** ** The chain as an oracle *)

(** [is_block_in_chain] answers only for a tip the chain contains, and
    then by the block the chain holds at the queried height, if that is at or
    below the tip. *)
Theorem is_block_in_chain_correct (c : LocalChain BlockHash) (block tip : BlockId) :
  cp_wf (lc_tip c) →
  is_block_in_chain c block tip =
    if decide (cp_map (lc_tip c) !! bid_height tip = Some (bid_hash tip) ∧
               bid_height block ≤ bid_height tip)
    then (λ h, h =? bid_hash block) <$> cp_map (lc_tip c) !! bid_height block
    else None.
Proof.
  intros Hwf. unfold is_block_in_chain. rewrite !cp_map_lookup by done.
  destruct (cp_get (lc_tip c) (bid_height tip)) as [n|] eqn:Hn; cycle 1.
  { by rewrite decide_False by naive_solver. }
  cbn [fmap option_fmap option_map].
  apply cp_get_Some in Hn as [Hin Hnh]; [|done].
  pose proof (cp_wf_iter _ n Hwf Hin) as Hwfn.
  assert (cp_data n = cp_hash n) as -> by (by rewrite cp_wf_hash).
  destruct (N.eqb_spec (cp_hash n) (bid_hash tip)) as [Heq|Hne]; cycle 1.
  { by rewrite decide_False by naive_solver. }
  destruct (decide (bid_height block ≤ bid_height tip)) as [Hle|Hgt].
  - rewrite decide_True by (split; [by rewrite Heq|done]).
    rewrite (cp_get_ancestor (lc_tip c) n) by (done || lia).
    destruct (cp_get n (bid_height block)) as [m|] eqn:Hm; [|done]. simpl.
    apply cp_get_Some in Hm as [Hm _]; [|done]. f_equal. f_equal.
    by rewrite (cp_wf_hash m) by (by eapply cp_wf_iter).
  - rewrite decide_False by (by intros [_ ?]). by rewrite cp_get_above by lia.
Qed.

(** ** Instances *)

Definition hash_lc : LocalChain BlockHash := mkLocalChain hash_chain.
Definition header_lc : LocalChain SampleHeader := mkLocalChain header_chain.

Lemma hash_lc_wf : lc_wf hash_lc.
Proof. split; [apply hash_chain_wf|]. by exists 100. Qed.
Lemma header_lc_wf : lc_wf header_lc.
Proof. split; [apply header_chain_wf|]. by exists (mkHeader 100 0 50). Qed.

(** Height 2 is removed, 5 is replaced and 9 is added. *)
Definition sample_cs : ChangeSet BlockHash :=
  ChangeSet_from_iter [(9, Some 109); (2, None); (5, Some 205)].
Definition sample_cs2 : ChangeSet BlockHash :=
  ChangeSet_from_iter [(9, None); (2, Some 202)].

Lemma sample_cs_fit : cs_fit sample_cs ∧ cs_fit sample_cs2.
Proof. split; by apply (bool_decide_unpack (map_Forall (λ h _, h ≤ U32_MAX) _)). Qed.

Definition applied {E D} (r : result E (LocalChain D)) : option (list (N * D)) :=
  match r with Ok c => Some (cp_blocks (lc_tip c)) | Err _ => None end.

Lemma apply_changeset_correct_witness :
  applied (lc_apply_changeset hash_lc sample_cs) =
    Some [(20, 120); (9, 109); (8, 108); (7, 107); (5, 205); (1, 101); (0, 100)] ∧
  match lc_apply_changeset hash_lc sample_cs with
  | Ok c' => check_changeset_is_applied c' sample_cs = true
  | Err _ => False
  end.
Proof.
  split; [by vm_compute|].
  pose proof (apply_changeset_correct hash_lc sample_cs hash_lc_wf (proj1 sample_cs_fit)) as H.
  destruct (lc_apply_changeset hash_lc sample_cs) as [c'|e] eqn:Heq; [|by vm_compute in Heq].
  apply H.
Defined.

Lemma apply_changeset_merge_witness :
  ∃ c1 c2, lc_apply_changeset hash_lc sample_cs = Ok c1 ∧
    lc_apply_changeset c1 sample_cs2 = Ok c2 ∧
    lc_apply_changeset hash_lc (merge sample_cs sample_cs2) = Ok c2 ∧
    cp_blocks (lc_tip c2) =
      [(20, 120); (8, 108); (7, 107); (5, 205); (2, 202); (1, 101); (0, 100)].
Proof.
  destruct (lc_apply_changeset hash_lc sample_cs) as [c1|e] eqn:H1; [|by vm_compute in H1].
  destruct (lc_apply_changeset c1 sample_cs2) as [c2|e] eqn:H2;
    [|vm_compute in H1; injection H1 as <-; by vm_compute in H2].
  exists c1, c2. split_and!; [done..| |].
  - apply (apply_changeset_merge hash_lc c1 c2 sample_cs sample_cs2);
      [apply hash_lc_wf|apply sample_cs_fit..|exact H1|exact H2].
  - vm_compute in H1. injection H1 as <-. vm_compute in H2. by injection H2 as <-.
Defined.

Lemma from_changeset_roundtrip_witness :
  from_changeset (initial_changeset header_lc) = Ok header_lc ∧
  from_tip header_chain = Some (Ok header_lc).
Proof.
  exact (from_changeset_roundtrip header_lc header_chain_wf).
Defined.

Lemma insert_block_correct_witness :
  match insert_block hash_lc 6 106 with
  | Some (Ok (c', cs)) => lc_apply_changeset hash_lc cs = Ok c' ∧
      cp_map (lc_tip c') = <[6 := 106]> (cp_map hash_chain)
  | _ => False
  end.
Proof.
  pose proof (insert_block_correct hash_lc 6 106 hash_lc_wf) as H.
  ospecialize (H _); [by vm_compute|].
  destruct (insert_block hash_lc 6 106) as [[[c' cs]|e]|] eqn:Heq;
    [|by vm_compute in Heq|by vm_compute in Heq].
  destruct H as (_ & _ & Hm & Ha). split; [exact Ha|exact Hm].
Defined.

Lemma disconnect_from_correct_witness :
  ∃ c' cs, disconnect_from hash_lc (mkBlockId 7 107) = Ok (c', cs) ∧
    lc_apply_changeset hash_lc cs = Ok c' ∧ cp_get (lc_tip c') 7 = None.
Proof.
  destruct (disconnect_from_correct hash_lc (mkBlockId 7 107) hash_lc_wf)
    as (c' & cs & H1 & _ & H2 & _ & H3).
  exists c', cs. split_and!; [exact H1|exact H3|]. by rewrite (H2 7).
Defined.

Lemma is_block_in_chain_correct_witness :
  is_block_in_chain hash_lc (mkBlockId 5 105) (mkBlockId 8 108) = Some true ∧
  is_block_in_chain hash_lc (mkBlockId 5 104) (mkBlockId 8 108) = Some false ∧
  is_block_in_chain hash_lc (mkBlockId 20 120) (mkBlockId 8 108) = None.
Proof.
  split_and!; rewrite (is_block_in_chain_correct hash_lc) by apply hash_chain_wf; by vm_compute.
Defined.

(** The error [insert_block] returns for a block whose neighbour above names
    another parent is about the genesis block. *)
Lemma insert_block_mismatch_reports_genesis :
  ∃ c : LocalChain SampleHeader, lc_wf c ∧
    insert_block c 2 (mkHeader 202 101 0) = Some (Err (mkAlterCheckPointError 0 100 None)).
Proof.
  exists (mkLocalChain (sample_chain 0 (mkHeader 100 0 50)
    [(1, mkHeader 101 100 60); (3, mkHeader 103 102 70)])).
  split; [|by vm_compute]. split; [by apply sample_chain_wf|]. by exists (mkHeader 100 0 50).
Qed.
