(* ===== verification/MergeFacts.v ===== *)
(** * What merging two chains should do, and the loop that does it

    The specification of [merge_chains] is pointwise: what happens to a height
    depends on the entries of the two chains there, and on whether the chains
    contradict each other further down.  The loop of the code maintains it for
    the entries already consumed. *)
From S2P Require Import Prelude Block CheckPoint CheckPointFacts CheckPointInsert CheckPointEntry.
From S2P Require Import LocalChain LocalChainFacts.
#[local] Open Scope N_scope.

Section entries.
Context {D : Type} `{!ToBlockHash D}.
Implicit Types (cp n p : CheckPoint D) (e o u : CheckPointEntry D).
Implicit Types lo lu : list (CheckPointEntry D).

(** ** Entries by height *)

Definition entry_at (l : list (CheckPointEntry D)) (k : N) : option (CheckPointEntry D) :=
  List.find (λ e, entry_height e =? k) l.

Lemma entry_at_elem l k e : entry_at l k = Some e → e ∈ l ∧ entry_height e = k.
Proof. intros [Hin Hk%N.eqb_eq]%find_some. by rewrite list_elem_of_In. Qed.

Lemma entry_at_None l k : entry_at l k = None ↔ ∀ e, e ∈ l → entry_height e ≠ k.
Proof.
  split.
  - intros Hf e He%list_elem_of_In. eapply find_none in Hf; [|done]. by apply N.eqb_neq.
  - intros Hall. destruct (entry_at l k) as [e|] eqn:He; [|done].
    apply entry_at_elem in He as [Hin Hk]. by destruct (Hall e Hin).
Qed.

Lemma entry_at_app l1 l2 k :
  entry_at (l1 ++ l2) k =
    match entry_at l1 k with Some e => Some e | None => entry_at l2 k end.
Proof.
  unfold entry_at. induction l1 as [|x l1 IH]; simpl; [done|]. by destruct (_ =? _).
Qed.

Lemma entry_at_singleton e k :
  entry_at [e] k = if decide (entry_height e = k) then Some e else None.
Proof.
  unfold entry_at; simpl. destruct (decide _) as [->|Hne].
  - by rewrite N.eqb_refl.
  - by rewrite (proj2 (N.eqb_neq _ _)).
Qed.

(** Consuming the next lower entry. *)
Lemma entry_at_snoc l e k :
  (∀ x, x ∈ l → entry_height e < entry_height x) →
  entry_at (l ++ [e]) k = if decide (entry_height e = k) then Some e else entry_at l k.
Proof.
  intros Hlt. rewrite entry_at_app, entry_at_singleton. destruct (decide _) as [<-|Hne].
  - rewrite (proj2 (entry_at_None _ _)); [done|]. intros x Hx. specialize (Hlt x Hx). lia.
  - by destruct (entry_at l k).
Qed.

Definition descending (l : list (CheckPointEntry D)) : Prop :=
  StronglySorted (λ a b, entry_height b < entry_height a) l.

Lemma entry_at_Some l k e :
  descending l → entry_at l k = Some e ↔ e ∈ l ∧ entry_height e = k.
Proof.
  intros Hs. split; [apply entry_at_elem|]. intros [Hin <-].
  destruct (entry_at l (entry_height e)) as [e'|] eqn:He'; cycle 1.
  { exfalso. by apply (proj1 (entry_at_None _ _) He' e). }
  apply entry_at_elem in He' as [Hin' Hh]. f_equal.
  apply list_elem_of_lookup in Hin as [i Hi], Hin' as [j Hj].
  destruct (Nat.lt_trichotomy i j) as [Hij|[->|Hij]]; [|congruence|].
  - pose proof (StronglySorted_lookup _ l i j e e' Hs Hi Hj Hij) as Hlt. simpl in Hlt. lia.
  - pose proof (StronglySorted_lookup _ l j i e' e Hs Hj Hi Hij) as Hlt. simpl in Hlt. lia.
Qed.

(** Entries of a chain and its checkpoints. *)
Lemma entry_at_occupied cp k n :
  cp_wf cp → entry_at (entry_iter cp) k = Some (Occupied n) ↔ cp_get cp k = Some n.
Proof.
  intros Hwf. rewrite entry_at_Some by (by apply entry_iter_sorted).
  rewrite cp_get_Some, elem_of_entry_iter by done. split.
  - intros [(m & Hm & He) Hh]. apply elem_of_own_entries in He as [He|(b & He & _)]; [|done].
    by simplify_eq.
  - intros [Hn Hh]. split; [|done]. exists n. split; [done|]. by left.
Qed.

Lemma entry_at_placeholder cp k b m :
  cp_wf cp → entry_at (entry_iter cp) k = Some (Placeholder b m) →
  bid_height b = k ∧ cp_get cp (k + 1) = Some m ∧
  prev_blockhash (cp_data m) = Some (bid_hash b) ∧ cp_get cp k = None.
Proof.
  intros Hwf He. pose proof He as [Hin Hh]%entry_at_elem.
  apply elem_of_entry_iter in Hin as (n & Hn & Hown); [|done].
  apply elem_of_own_entries in Hown as [?|(b' & ? & Hb)]; simplify_eq.
  unfold entry_height in *; simpl in *.
  apply placeholder_of_Some in Hb as (Hb & Hy & _); [|by eapply cp_wf_iter].
  split_and!; [done| |done|].
  - apply cp_get_Some; [done|]. by split.
  - destruct (cp_get cp (bid_height b')) as [x|] eqn:Hx; [|done].
    apply entry_at_occupied in Hx; [|done]. congruence.
Qed.

(** A block naming its parent puts an entry with that hash below itself. *)
Lemma entry_at_parent cp k n y :
  cp_wf cp → cp_get cp (k + 1) = Some n → prev_blockhash (cp_data n) = Some y →
  ∃ e, entry_at (entry_iter cp) k = Some e ∧ entry_hash e = y.
Proof.
  intros Hwf Hn Hy. apply cp_get_Some in Hn as [Hin Hh]; [|done].
  pose proof (cp_wf_iter cp n Hwf Hin) as Hwfn.
  assert (Hsub : checked_sub (cp_height n) 1 = Some k).
  { apply checked_sub_Some. lia. }
  destruct (cp_prev n) as [p|] eqn:Hp; [destruct (decide (cp_height p = k)) as [Hpk|Hpk]|].
  - exists (Occupied p). rewrite entry_at_occupied, cp_get_Some by done. split_and!; [|done|].
    + eapply cp_iter_trans; [done|]. rewrite (cp_iter_prev n p) by done.
      apply elem_of_cons. right. apply cp_iter_self.
    + pose proof (cp_wf_no_conflict n p Hwfn Hp) as Hnc.
      rewrite push_conflict_false in Hnc. symmetry. apply Hnc; [lia|done].
  - exists (Placeholder (mkBlockId k y) n). split; [|done].
    apply entry_at_Some; [by apply entry_iter_sorted|]. split; [|done].
    apply elem_of_entry_iter; [done|]. exists n. split; [done|].
    apply elem_of_own_entries. right. eexists. split; [done|].
    unfold placeholder_of. rewrite Hsub, Hy, Hp. by rewrite (proj2 (N.eqb_neq _ _)).
  - exists (Placeholder (mkBlockId k y) n). split; [|done].
    apply entry_at_Some; [by apply entry_iter_sorted|]. split; [|done].
    apply elem_of_entry_iter; [done|]. exists n. split; [done|].
    apply elem_of_own_entries. right. eexists. split; [done|].
    unfold placeholder_of. by rewrite Hsub, Hy, Hp.
Qed.

(** What follows an entry does not depend on the chain above it. *)
Definition entries_below (e : CheckPointEntry D) : list (CheckPointEntry D) :=
  match e with
  | Placeholder _ m => match cp_prev m with Some p => entry_iter p | None => [] end
  | Occupied n => tail (entry_iter n)
  end.

Lemma entry_iter_below cp l e r :
  cp_wf cp → entry_iter cp = l ++ e :: r → r = entries_below e.
Proof.
  revert l. induction cp as [cp Hp|cp p Hp IH] using cp_prev_ind; intros l Hwf;
    pose proof (entry_iter_unfold cp Hwf) as Hu; rewrite Hp in Hu; unfold own_entries in Hu.
  - rewrite Hu. destruct l as [|x [|y l]]; simpl; intros Heq.
    + injection Heq as <- <-. unfold entries_below. by rewrite Hu.
    + destruct (placeholder_of cp); simplify_eq/=. by rewrite Hp.
    + by destruct (placeholder_of cp), l; simplify_eq/=.
  - assert (cp_wf p) as Hwfp by (by eapply cp_wf_prev).
    rewrite Hu. destruct l as [|x l]; simpl; intros Heq.
    + injection Heq as <- <-. unfold entries_below. by rewrite Hu.
    + injection Heq as <- Heq. destruct (placeholder_of cp) as [b|]; [|by eapply IH].
      destruct l as [|y l]; simpl in Heq; injection Heq as <- Heq; [|by eapply IH].
      subst. simpl. by rewrite Hp.
Qed.
End entries.

(** ** The specification *)

Section merge_spec.
Context {D : Type} `{!ToBlockHash D}.
Implicit Types (cp n p : CheckPoint D) (e o u : CheckPointEntry D).
Implicit Types lo lu ro ru : list (CheckPointEntry D).

(** Whether the chains agree, or disagree, at the height of [o]. *)
Definition agrees lu o : bool :=
  match entry_at lu (entry_height o) with
  | Some u => entry_hash o =? entry_hash u
  | None => false
  end.
Definition conflicts lu o : bool :=
  match entry_at lu (entry_height o) with
  | Some u => negb (entry_hash o =? entry_hash u)
  | None => false
  end.

Definition conflict_below lo lu (k : N) : bool :=
  existsb (λ o, (entry_height o <? k) && conflicts lu o) lo.

(** What the change set says about a height. *)
Definition merge_change lo lu (k : N) : option (option D) :=
  match entry_at lu k, entry_at lo k with
  | Some u, Some o =>
      if entry_hash o =? entry_hash u
      then (if is_placeholder o then Some <$> entry_data u else None)
      else Some (entry_data u)
  | Some u, None => Some <$> entry_data u
  | None, Some o =>
      if is_placeholder o then None
      else if conflict_below lo lu k then Some None else None
  | None, None => None
  end.

(** The chains connect without ambiguity: they agree somewhere, and at the
    highest agreement either one of them ends, or the next original block
    above it is contradicted by the update. *)
Definition connects lo lu : Prop :=
  ∃ a, a ∈ lo ∧ agrees lu a = true ∧
    (∀ o, o ∈ lo → entry_height a < entry_height o → agrees lu o = false) ∧
    ((∀ o, o ∈ lo → entry_height o ≤ entry_height a) ∨
     (∀ u, u ∈ lu → entry_height u ≤ entry_height a) ∨
     ∃ c, c ∈ lo ∧ entry_height a < entry_height c ∧ conflicts lu c = true ∧
       ∀ o, o ∈ lo → entry_height a < entry_height o → entry_height c ≤ entry_height o).

(** The update does not replace the genesis block. *)
Definition genesis_kept lo lu : Prop :=
  ∀ o, o ∈ lo → entry_height o = 0 → is_placeholder o = false → conflicts lu o = false.

(** [ro] and [ru] are the entries that follow [lo] and [lu]. *)
Definition follows lo lu ro ru : Prop :=
  ∀ x y, x ∈ lo ∨ x ∈ lu → y ∈ ro ∨ y ∈ ru → entry_height y < entry_height x.

Lemma entry_at_follows lo lu ro ru k x :
  follows lo lu ro ru → x ∈ lo ∨ x ∈ lu → entry_height x ≤ k →
  entry_at ro k = None ∧ entry_at ru k = None.
Proof.
  intros Hf Hx Hk. split; apply entry_at_None; intros y Hy Heq;
    specialize (Hf x y Hx); specialize (Hf ltac:(auto)); lia.
Qed.

Lemma entry_at_above lo lu ro ru k y :
  follows lo lu ro ru → y ∈ ro ∨ y ∈ ru → k ≤ entry_height y →
  entry_at lo k = None ∧ entry_at lu k = None.
Proof.
  intros Hf Hy Hk. split; apply entry_at_None; intros x Hx Heq;
    specialize (Hf x y ltac:(auto) Hy); lia.
Qed.

Lemma conflicts_app lo lu ro ru o :
  follows lo lu ro ru → o ∈ lo → conflicts (lu ++ ru) o = conflicts lu o.
Proof.
  intros Hf Ho. unfold conflicts. rewrite entry_at_app.
  destruct (entry_at lu _); [done|].
  by destruct (entry_at_follows lo lu ro ru (entry_height o) o) as [_ ->]; auto.
Qed.

Lemma agrees_app lo lu ro ru o :
  follows lo lu ro ru → o ∈ lo → agrees (lu ++ ru) o = agrees lu o.
Proof.
  intros Hf Ho. unfold agrees. rewrite entry_at_app.
  destruct (entry_at lu _); [done|].
  by destruct (entry_at_follows lo lu ro ru (entry_height o) o) as [_ ->]; auto.
Qed.

Lemma conflicts_app_r lo lu ro ru o :
  follows lo lu ro ru → o ∈ ro → conflicts (lu ++ ru) o = conflicts ru o.
Proof.
  intros Hf Ho. unfold conflicts. rewrite entry_at_app.
  by destruct (entry_at_above lo lu ro ru (entry_height o) o) as [_ ->]; auto.
Qed.

Lemma agrees_app_r lo lu ro ru o :
  follows lo lu ro ru → o ∈ ro → agrees (lu ++ ru) o = agrees ru o.
Proof.
  intros Hf Ho. unfold agrees. rewrite entry_at_app.
  by destruct (entry_at_above lo lu ro ru (entry_height o) o) as [_ ->]; auto.
Qed.

Lemma conflict_below_true lo lu k :
  conflict_below lo lu k = true ↔ ∃ o, o ∈ lo ∧ entry_height o < k ∧ conflicts lu o = true.
Proof.
  unfold conflict_below. rewrite existsb_exists. setoid_rewrite <-list_elem_of_In.
  setoid_rewrite andb_true_iff. setoid_rewrite N.ltb_lt. done.
Qed.

Lemma conflict_below_false lo lu k :
  conflict_below lo lu k = false ↔
  ∀ o, o ∈ lo → entry_height o < k → conflicts lu o = false.
Proof.
  rewrite <-not_true_iff_false, conflict_below_true. split.
  - intros Hn o Ho Hk. apply not_true_iff_false. intros Hc. by apply Hn; exists o.
  - intros Hall (o & Ho & Hk & Hc). rewrite Hall in Hc; done.
Qed.

Lemma conflict_below_app lo lu ro ru k :
  follows lo lu ro ru →
  conflict_below (lo ++ ro) (lu ++ ru) k = conflict_below lo lu k || conflict_below ro ru k.
Proof.
  intros Hf. apply eq_true_iff_eq. rewrite orb_true_iff, !conflict_below_true.
  setoid_rewrite elem_of_app. split.
  - intros (o & [Ho|Ho] & Hk & Hc); [left|right]; exists o.
    + by rewrite <-(conflicts_app lo lu ro ru).
    + by rewrite <-(conflicts_app_r lo lu ro ru).
  - intros [(o & Ho & Hk & Hc)|(o & Ho & Hk & Hc)]; exists o.
    + rewrite (conflicts_app lo lu ro ru); auto.
    + rewrite (conflicts_app_r lo lu ro ru); auto.
Qed.

Lemma merge_change_none lo lu k :
  entry_at lo k = None → entry_at lu k = None → merge_change lo lu k = None.
Proof. intros Ho Hu. unfold merge_change. by rewrite Ho, Hu. Qed.

(** The change of a single step of the loop. *)
Lemma merge_change_update u k :
  merge_change [] [u] k = if decide (entry_height u = k) then Some <$> entry_data u else None.
Proof. unfold merge_change. rewrite entry_at_singleton. by destruct (decide _). Qed.

Lemma merge_change_orig o k : merge_change [o] [] k = None.
Proof.
  unfold merge_change, conflict_below, conflicts; simpl. rewrite andb_false_r; simpl.
  by destruct (_ =? _), (is_placeholder o).
Qed.

Lemma merge_change_agree o u k :
  entry_height o = entry_height u → entry_hash o = entry_hash u →
  merge_change [o] [u] k =
    if decide (entry_height u = k)
    then (if is_placeholder o then Some <$> entry_data u else None) else None.
Proof.
  intros Hh Hx. unfold merge_change. rewrite !entry_at_singleton, Hh.
  destruct (decide _); [|done]. by rewrite Hx, N.eqb_refl.
Qed.

Lemma conflicts_singleton o u :
  entry_height o = entry_height u → conflicts [u] o = negb (entry_hash o =? entry_hash u).
Proof.
  intros Hh. unfold conflicts. by rewrite entry_at_singleton, decide_True by done.
Qed.

Lemma agrees_singleton o u :
  entry_height o = entry_height u → agrees [u] o = (entry_hash o =? entry_hash u).
Proof.
  intros Hh. unfold agrees. by rewrite entry_at_singleton, decide_True by done.
Qed.

(** The entries above [k], if there is one at [k], contradict nothing below. *)
Lemma conflict_below_above lo lu ro ru k :
  follows lo lu ro ru → is_Some (entry_at ro k) ∨ is_Some (entry_at ru k) →
  conflict_below lo lu k = false.
Proof.
  intros Hf Hk. apply conflict_below_false. intros o Ho Hlt. exfalso.
  assert (∃ y, (y ∈ ro ∨ y ∈ ru) ∧ entry_height y = k) as (y & Hy & Hyk).
  { destruct Hk as [[y Hy]|[y Hy]]; exists y; apply entry_at_elem in Hy; naive_solver. }
  specialize (Hf o y ltac:(auto) Hy). lia.
Qed.

(** Entries that bring no contradiction only add their own changes. *)
Lemma merge_change_app lo lu ro ru k :
  follows lo lu ro ru → (∀ o, o ∈ ro → conflicts ru o = false) →
  merge_change (lo ++ ro) (lu ++ ru) k =
    match merge_change lo lu k with Some v => Some v | None => merge_change ro ru k end.
Proof.
  intros Hf Hnc.
  assert (conflict_below ro ru k = false) as Hcb by (apply conflict_below_false; auto).
  destruct (decide (is_Some (entry_at lo k) ∨ is_Some (entry_at lu k))) as [Hin|Hout].
  - assert (entry_at ro k = None ∧ entry_at ru k = None) as [Hro Hru].
    { destruct Hin as [[x Hx]|[x Hx]]; apply entry_at_elem in Hx as [Hx <-];
        apply (entry_at_follows lo lu ro ru _ x); auto. }
    rewrite (merge_change_none ro ru) by done. unfold merge_change.
    rewrite conflict_below_app, Hcb, orb_false_r, !entry_at_app, Hro, Hru by done.
    destruct (entry_at lu k), (entry_at lo k); try done; repeat case_match; done.
  - assert (entry_at lo k = None ∧ entry_at lu k = None) as [Hlo Hlu].
    { split; apply eq_None_not_Some; tauto. }
    rewrite (merge_change_none lo lu) by done. unfold merge_change.
    rewrite conflict_below_app, Hcb, !entry_at_app, Hlo, Hlu, orb_false_r by done.
    destruct (entry_at ru k) as [u|] eqn:Hu; [done|].
    destruct (entry_at ro k) as [o|] eqn:Ho; [|done].
    by rewrite (conflict_below_above lo lu ro ru) by eauto.
Qed.

(** Two contradicting entries also remove what the original alone holds
    above. *)
Lemma merge_change_conflict lo lu o u k :
  follows lo lu [o] [u] → entry_height o = entry_height u → entry_hash o ≠ entry_hash u →
  merge_change (lo ++ [o]) (lu ++ [u]) k =
    if decide (entry_height u = k) then Some (entry_data u)
    else match entry_at lu k, entry_at lo k with
         | None, Some x => if is_placeholder x then None else Some None
         | _, _ => merge_change lo lu k
         end.
Proof.
  intros Hf Hh Hne.
  assert (Hsu : ∀ x, x ∈ lu → entry_height u < entry_height x) by (intros x Hx; apply Hf; set_solver).
  assert (Hso : ∀ x, x ∈ lo → entry_height o < entry_height x) by (intros x Hx; apply Hf; set_solver).
  assert (conflicts [u] o = true) as Hc.
  { rewrite conflicts_singleton by done. by apply negb_true_iff, N.eqb_neq. }
  unfold merge_change. rewrite !entry_at_snoc, conflict_below_app, Hh by done.
  destruct (decide (entry_height u = k)) as [<-|Hk].
  - by rewrite (proj2 (N.eqb_neq _ _)).
  - destruct (entry_at lu k); [done|]. destruct (entry_at lo k) as [x|] eqn:Hx; [|done].
    destruct (is_placeholder x); [done|].
    apply entry_at_elem in Hx as [Hx Hxk]. specialize (Hso x Hx).
    assert (conflict_below [o] [u] k = true) as ->; [|by rewrite orb_true_r].
    apply conflict_below_true. exists o. split_and!; [by left|lia|done].
Qed.

Lemma connects_app lo lu ro ru :
  follows lo lu ro ru → connects lo lu → connects (lo ++ ro) (lu ++ ru).
Proof.
  intros Hf (a & Ha & Hag & Hmax & Hcond). exists a. split_and!.
  - set_solver.
  - by rewrite (agrees_app lo lu ro ru).
  - intros o [Ho|Ho]%elem_of_app Hlt.
    + rewrite (agrees_app lo lu ro ru) by done. auto.
    + specialize (Hf a o ltac:(auto) ltac:(auto)). lia.
  - assert (Hr : ∀ y, y ∈ ro ∨ y ∈ ru → entry_height y < entry_height a)
      by (intros y Hy; apply Hf; auto).
    destruct Hcond as [Hc|[Hc|(c & Hc & Hlt & Hcc & Hlow)]].
    + left. intros o [Ho|Ho]%elem_of_app; [auto|]. specialize (Hr o ltac:(auto)). lia.
    + right; left. intros o [Ho|Ho]%elem_of_app; [auto|]. specialize (Hr o ltac:(auto)). lia.
    + right; right. exists c. split_and!; [set_solver|done|by rewrite (conflicts_app lo lu ro ru)|].
      intros o [Ho|Ho]%elem_of_app Hao; [auto|]. specialize (Hr o ltac:(auto)). lia.
Qed.

Lemma genesis_kept_app lo lu ro ru :
  follows lo lu ro ru → genesis_kept lo lu →
  (∀ o, o ∈ ro → entry_height o = 0 → is_placeholder o = false → conflicts ru o = false) →
  genesis_kept (lo ++ ro) (lu ++ ru).
Proof.
  intros Hf Hg Hr o [Ho|Ho]%elem_of_app H0 Hp.
  - rewrite (conflicts_app lo lu ro ru) by done. auto.
  - rewrite (conflicts_app_r lo lu ro ru) by done. auto.
Qed.
End merge_spec.
