(* ===== verification/MergeLoop.v ===== *)
(** * The loop of [merge_chains]

    Every iteration keeps the state in step with the specification of
    [MergeFacts], for the entries consumed so far; the ways out of the loop
    are then read off the invariant. *)
From S2P Require Import Prelude Block CheckPoint CheckPointFacts CheckPointInsert CheckPointEntry.
From S2P Require Import LocalChain LocalChainFacts MergeFacts.
#[local] Open Scope N_scope.

Section loop.
Context {D : Type} `{!ToBlockHash D}.
Context (O U : CheckPoint D).
Implicit Types (e o u : CheckPointEntry D) (st : MergeState D).
Implicit Types lo lu : list (CheckPointEntry D).

(** [lo] and [lu] are the entries consumed. *)
Record merge_inv lo lu st : Prop := {
  mi_orig : entry_iter O = lo ++ ms_orig st;
  mi_update : entry_iter U = lu ++ ms_update st;
  mi_follows : follows lo lu (ms_orig st) (ms_update st);
  mi_prev_orig : ms_prev_orig st = last lo;
  mi_prev_update : ms_prev_update st = last lu;
  mi_agreement : ms_point_of_agreement_found st = true → connects lo lu;
  mi_no_agreement : ms_point_of_agreement_found st = false →
    ∀ o, o ∈ lo → agrees lu o = false;
  mi_invalidated : ms_prev_orig_was_invalidated st =
    match last lo with Some o => conflicts lu o | None => false end;
  mi_potential : ∀ k, k ∈ ms_potentially_invalidated_heights st ↔
    ∃ o, entry_at lo k = Some o ∧ is_placeholder o = false ∧ entry_at lu k = None ∧
      conflict_below lo lu k = false;
  mi_superset : ms_is_update_height_superset_of_original st = true →
    ∀ o, o ∈ lo → is_Some (entry_at lu (entry_height o));
  mi_changeset : ∀ k, cs_blocks (ms_changeset st) !! k = merge_change lo lu k;
  mi_genesis : genesis_kept lo lu;
}.

Context (HO : cp_wf O) (HU : cp_wf U).

Lemma merge_inv_init : merge_inv [] [] (merge_init O U).
Proof.
  split; simpl; try done.
  - intros x y [Hx|Hx]; by apply elem_of_nil in Hx.
  - intros k. split; [intros Hk; by apply elem_of_nil in Hk|]. by intros (o & ? & _).
  - intros _ o Ho. by apply elem_of_nil in Ho.
Qed.

Lemma conflicts_nil o : conflicts [] o = false.
Proof. done. Qed.

(** Splitting the head of the remaining entries. *)
Lemma descending_app (l : list (CheckPointEntry D)) e r x :
  descending (l ++ e :: r) → x ∈ r → entry_height x < entry_height e.
Proof.
  unfold descending. rewrite cons_middle, (assoc_L (++)). intros Hs Hx.
  eapply StronglySorted_app_1_elem_of in Hs; [exact Hs|set_solver|done].
Qed.

Lemma follows_move lo lu ro ru ro' ru' :
  follows lo lu (ro ++ ro') (ru ++ ru') → follows ro ru ro' ru' →
  follows (lo ++ ro) (lu ++ ru) ro' ru'.
Proof.
  intros Hf Hr x y Hx Hy. rewrite !elem_of_app in Hx.
  assert (x ∈ lo ∨ x ∈ lu ∨ x ∈ ro ∨ x ∈ ru) as [Hx'|[Hx'|Hx']] by tauto;
    [apply Hf; set_solver..|]. by apply Hr.
Qed.

Lemma follows_sub lo lu ro ru ro' ru' :
  follows lo lu ro ru → ro' ⊆ ro → ru' ⊆ ru → follows lo lu ro' ru'.
Proof. intros Hf Ho Hu x y Hx Hy. apply Hf; [done|]. set_solver. Qed.

(** What both ends of the state look like when an update entry is next. *)
Lemma inv_update_only lo lu st u update :
  merge_inv lo lu st → ms_update st = u :: update →
  (∀ o, o ∈ ms_orig st → entry_height o < entry_height u) →
  ∃ st', step_update_only u update st = MSContinue st' ∧ merge_inv lo (lu ++ [u]) st' ∧
    ms_orig st' = ms_orig st ∧ ms_update st' = update.
Proof.
  intros [] Hupd Hlow. eexists. split; [done|]. split; [|done]. rewrite Hupd in *.
  assert (Hsub : follows lo lu [] [u]) by (eapply follows_sub; [done|set_solver..]).
  assert (Hmove : follows (lo ++ []) (lu ++ [u]) (ms_orig st) update).
  { apply follows_move; [done|]. intros x y [Hx|Hx] [Hy|Hy]; try by apply elem_of_nil in Hx.
    - apply list_elem_of_singleton in Hx as ->. auto.
    - apply list_elem_of_singleton in Hx as ->.
      pose proof (entry_iter_sorted U HU) as Hs. rewrite mi_update0 in Hs.
      by eapply descending_app. }
  assert (Hc : ∀ o, o ∈ lo → conflicts (lu ++ [u]) o = conflicts lu o)
    by (intros o Ho; by apply (conflicts_app lo lu [])).
  assert (Ha : ∀ o, o ∈ lo → agrees (lu ++ [u]) o = agrees lu o)
    by (intros o Ho; by apply (agrees_app lo lu [])).
  rewrite (app_nil_r lo) in Hmove.
  assert (Hcb : ∀ k, conflict_below lo (lu ++ [u]) k = conflict_below lo lu k).
  { intros k. rewrite <-(app_nil_r lo) at 1. rewrite conflict_below_app by done.
    apply orb_false_r. }
  split; simpl; rewrite ?last_snoc; try done.
  - by rewrite <-(assoc_L (++)).
  - intros Hp. rewrite <-(app_nil_r lo). apply connects_app; auto.
  - intros Hp o Ho. rewrite Ha by done. auto.
  - rewrite mi_invalidated0. destruct (last lo) as [o|] eqn:Hl; [|done].
    symmetry. apply Hc. apply last_Some_elem_of in Hl. done.
  - intros k. rewrite mi_potential0. apply exist_proper. intros o. rewrite Hcb.
    split; intros (Ho & Hp & Hn & Hb); split_and!; try done.
    + rewrite entry_at_app, Hn, entry_at_singleton, decide_False; [done|].
      apply entry_at_elem in Ho as [Ho <-]. intros Heq.
      specialize (Hsub o u ltac:(auto) ltac:(set_solver)). lia.
    + rewrite entry_at_app in Hn. by destruct (entry_at lu k).
  - intros Hp o Ho. rewrite entry_at_app. destruct (mi_superset0 Hp o Ho) as [x ->]. by eexists.
  - intros k. rewrite <-(app_nil_r lo), merge_change_app by (done || set_solver).
    rewrite merge_change_update, <-mi_changeset0.
    destruct (entry_data u) as [d|]; cycle 1.
    { by destruct (decide _), (_ !! k). }
    rewrite lookup_cs_insert. destruct (decide (entry_height u = k)) as [<-|];
      [|by destruct (_ !! k)].
    rewrite mi_changeset0.
    destruct (entry_at_above lo lu [] [u] (entry_height u) u) as [Hlo Hlu];
      [done|set_solver|done|]. by rewrite merge_change_none.
  - rewrite <-(app_nil_r lo). apply genesis_kept_app; [done..|]. set_solver.
Qed.

Lemma conflict_below_nil lo k : conflict_below lo [] k = false.
Proof. by apply conflict_below_false. Qed.

Lemma inv_orig_only lo lu st o orig :
  merge_inv lo lu st → ms_orig st = o :: orig →
  (∀ u, u ∈ ms_update st → entry_height u < entry_height o) →
  ∃ st', step_orig_only o orig st =
      match ms_update st with [] => MSBreak st' | _ => MSContinue st' end ∧
    merge_inv (lo ++ [o]) lu st' ∧ ms_orig st' = orig ∧ ms_update st' = ms_update st.
Proof.
  intros [] Horig Hlow. eexists. split; [done|]. split; [|done]. rewrite Horig in *.
  assert (Hsub : follows lo lu [o] []) by (eapply follows_sub; [done|set_solver..]).
  assert (Hmove : follows (lo ++ [o]) (lu ++ []) orig (ms_update st)).
  { apply follows_move; [done|]. intros x y [Hx|Hx] [Hy|Hy]; try by apply elem_of_nil in Hx.
    - apply list_elem_of_singleton in Hx as ->.
      pose proof (entry_iter_sorted O HO) as Hs. rewrite mi_orig0 in Hs.
      by eapply descending_app.
    - apply list_elem_of_singleton in Hx as ->. auto. }
  assert (Hho : entry_at lo (entry_height o) = None ∧ entry_at lu (entry_height o) = None).
  { apply (entry_at_above lo lu [o] [] _ o); [done|set_solver|done]. }
  destruct Hho as [Hlo Hlu].
  assert (Hco : conflicts lu o = false) by (unfold conflicts; by rewrite Hlu).
  assert (Hao : agrees lu o = false) by (unfold agrees; by rewrite Hlu).
  rewrite (app_nil_r lu) in Hmove.
  assert (Hcb : ∀ k, conflict_below (lo ++ [o]) lu k = conflict_below lo lu k).
  { intros k. rewrite <-(app_nil_r lu) at 1. rewrite conflict_below_app by done.
    by rewrite conflict_below_nil, orb_false_r. }
  split; simpl; rewrite ?last_snoc; try done.
  - by rewrite <-(assoc_L (++)).
  - intros Hp. rewrite <-(app_nil_r lu). apply connects_app; auto.
  - intros Hp x [Hx|Hx]%elem_of_app; [auto|]. by apply list_elem_of_singleton in Hx as ->.
  - intros k. rewrite elem_of_app, mi_potential0, Hcb.
    rewrite (entry_at_snoc lo o) by (intros x Hx; apply Hsub; set_solver). split.
    + intros [(x & Hx & Hrest)|Hk].
      * exists x. split; [|done]. rewrite decide_False; [done|]. intros <-. congruence.
      * destruct (is_placeholder o) eqn:Hp; [by apply elem_of_nil in Hk|].
        apply list_elem_of_singleton in Hk as ->. exists o.
        rewrite decide_True by done. split_and!; [done..|].
        apply (conflict_below_above lo lu [o] []); [done|]. left.
        rewrite entry_at_singleton, decide_True by done. by eexists.
    + intros (x & Hx & Hp & Hrest). destruct (decide (entry_height o = k)) as [<-|]; [|eauto].
      right. simplify_eq. rewrite Hp. by left.
  - intros k. rewrite <-(app_nil_r lu), merge_change_app; [|done|by intros].
    rewrite merge_change_orig, <-mi_changeset0. by destruct (_ !! k).
  - rewrite <-(app_nil_r lu). apply genesis_kept_app; [done..|]. by intros.
Qed.

(** When the code asks for another block to connect through. *)
Definition ambiguous (st : MergeState D) : bool :=
  match negb (ms_prev_orig_was_invalidated st) && negb (ms_point_of_agreement_found st),
        ms_prev_orig st, ms_prev_update st with
  | true, Some _, Some _ => true
  | _, _, _ => false
  end.

(** Two entries at the same height are consumed together. *)
Section both.
Context (lo lu : list (CheckPointEntry D)) (st : MergeState D).
Context (o u : CheckPointEntry D) (orig update : list (CheckPointEntry D)).
Context (Hinv : merge_inv lo lu st).
Context (Horig : ms_orig st = o :: orig) (Hupd : ms_update st = u :: update).
Context (Hh : entry_height o = entry_height u).

Lemma both_follows :
  follows lo lu [o] [u] ∧ follows (lo ++ [o]) (lu ++ [u]) orig update.
Proof using All.
  destruct Hinv as [Ho Hu Hf _ _ _ _ _ _ _ _]. rewrite Horig in *. rewrite Hupd in *. split.
  - eapply follows_sub; [done|set_solver..].
  - apply follows_move; [done|].
    pose proof (entry_iter_sorted O HO) as Hso. rewrite Ho in Hso.
    pose proof (entry_iter_sorted U HU) as Hsu. rewrite Hu in Hsu.
    intros x y Hx [Hy|Hy].
    + pose proof (descending_app _ _ _ _ Hso Hy).
      destruct Hx as [->%list_elem_of_singleton| ->%list_elem_of_singleton]; lia.
    + pose proof (descending_app _ _ _ _ Hsu Hy).
      destruct Hx as [->%list_elem_of_singleton| ->%list_elem_of_singleton]; lia.
Qed.

Lemma both_above : entry_at lo (entry_height u) = None ∧ entry_at lu (entry_height u) = None.
Proof using All.
  destruct both_follows as [Hf _]. apply (entry_at_above lo lu [o] [u] _ u); set_solver.
Qed.

Lemma both_agrees :
  agrees (lu ++ [u]) o = (entry_hash o =? entry_hash u) ∧
  conflicts (lu ++ [u]) o = negb (entry_hash o =? entry_hash u) ∧
  ∀ x, x ∈ lo → agrees (lu ++ [u]) x = agrees lu x ∧
    conflicts (lu ++ [u]) x = conflicts lu x.
Proof using All.
  destruct both_follows as [Hf _]. split_and!.
  - rewrite (agrees_app_r lo lu [o] [u]) by (done || set_solver). by apply agrees_singleton.
  - rewrite (conflicts_app_r lo lu [o] [u]) by (done || set_solver).
    by apply conflicts_singleton.
  - intros x Hx. by rewrite (agrees_app lo lu [o] [u]), (conflicts_app lo lu [o] [u]).
Qed.

(** The parts of the invariant that do not depend on the hashes. *)
Lemma both_lists :
  entry_iter O = (lo ++ [o]) ++ orig ∧ entry_iter U = (lu ++ [u]) ++ update ∧
  (ms_is_update_height_superset_of_original st = true →
    ∀ x, x ∈ lo ++ [o] → is_Some (entry_at (lu ++ [u]) (entry_height x))).
Proof using All.
  destruct both_above as [_ Hlu]. destruct Hinv as [Ho Hu _ _ _ _ _ _ _ Hsup _ _].
  rewrite <-!(assoc_L (++)). simpl. rewrite <-Horig, <-Hupd. split_and!; [done..|].
  intros Hp x [Hx| ->%list_elem_of_singleton]%elem_of_app; rewrite entry_at_app.
  - destruct (Hsup Hp x Hx) as [y ->]. by eexists.
  - rewrite Hh, Hlu, entry_at_singleton, decide_True by done. by eexists.
Qed.

Lemma inv_agree :
  entry_hash o = entry_hash u → ambiguous st = false →
  connects (lo ++ [o]) (lu ++ [u]) ∧
  merge_inv (lo ++ [o]) (lu ++ [u]) (state_after_agreement o u orig update st).
Proof using All.
  intros Hx Hamb. destruct both_follows as [Hf Hmove]. destruct both_above as [Hlo Hlu].
  destruct both_agrees as (Hao & Hco & Hold). destruct both_lists as (HlO & HlU & Hsup).
  rewrite Hx, N.eqb_refl in Hao, Hco. destruct Hinv.
  assert (Hnc : ∀ x, x ∈ [o] → conflicts [u] x = false).
  { intros x ->%list_elem_of_singleton. by rewrite conflicts_singleton, Hx, N.eqb_refl. }
  assert (Hcb : ∀ k, conflict_below (lo ++ [o]) (lu ++ [u]) k = conflict_below lo lu k).
  { intros k. rewrite conflict_below_app by done.
    rewrite (proj2 (conflict_below_false [o] [u] k)); [apply orb_false_r|auto]. }
  assert (Hcon : connects (lo ++ [o]) (lu ++ [u])).
  { destruct (ms_point_of_agreement_found st) eqn:Hpoa; [by apply connects_app; auto|].
    exists o. split_and!; [set_solver|done| |].
    - intros x [Hin| ->%list_elem_of_singleton]%elem_of_app ?; [|lia].
      rewrite (proj1 (Hold x Hin)). by apply mi_no_agreement0.
    - unfold ambiguous in Hamb. rewrite Hpoa, andb_true_r in Hamb.
      destruct (ms_prev_orig_was_invalidated st) eqn:Hinval.
      + right; right. destruct (last lo) as [c|] eqn:Hlast; [|done].
        pose proof (last_Some_elem_of _ _ Hlast) as Hc. exists c. split_and!.
        * set_solver.
        * apply Hf; set_solver.
        * by rewrite (proj2 (Hold c Hc)).
        * pose proof (entry_iter_sorted O HO) as Hs. rewrite HlO in Hs.
          apply last_Some in Hlast as [l' ->].
          intros x Hin Hlt. rewrite !elem_of_app, !list_elem_of_singleton in Hin.
          destruct Hin as [[Hin| ->]| ->]; [|lia..].
          rewrite <-!(assoc_L (++)) in Hs.
          eapply StronglySorted_app_1_elem_of in Hs; [|exact Hin|by left]. simpl in Hs. lia.
      + simpl in Hamb. rewrite mi_prev_orig0, mi_prev_update0 in Hamb.
        destruct (last lo) eqn:Hl; [destruct (last lu) eqn:Hl'; [done|]|].
        * right; left. apply last_None in Hl' as ->. set_solver by lia.
        * left. apply last_None in Hl as ->. set_solver by lia. }
  split; [done|]. split; simpl; rewrite ?last_snoc; try done.
  - intros k. rewrite mi_potential0, Hcb. apply exist_proper. intros x.
    rewrite entry_at_snoc by (intros; apply Hf; set_solver).
    rewrite (entry_at_snoc lu u) by (intros; apply Hf; set_solver). rewrite Hh.
    destruct (decide (entry_height u = k)) as [<-|]; [|done].
    rewrite Hlo. split; [by intros [? _]|by intros (_ & _ & ? & _)].
  - intros k. rewrite merge_change_app by done.
    rewrite merge_change_agree, <-mi_changeset0 by done.
    destruct (entry_data u) as [d|] eqn:Hd; cycle 1.
    { by destruct (decide _), (is_placeholder o), (_ !! k). }
    destruct (is_placeholder o); [|by destruct (decide _), (_ !! k)].
    rewrite lookup_cs_insert. destruct (decide (entry_height u = k)) as [<-|];
      [|by destruct (_ !! k)].
    by rewrite mi_changeset0, merge_change_none.
  - apply genesis_kept_app; [done..|]. auto.
Qed.

Lemma lookup_drain (l : list N) (cs : ChangeSet D) k :
  cs_blocks (foldl (λ cs h, cs_insert h None cs) cs l) !! k =
    if decide (k ∈ l) then Some None else cs_blocks cs !! k.
Proof using.
  revert cs. induction l as [|h l IH]; intros cs.
  - rewrite decide_False; [done|]. apply not_elem_of_nil.
  - cbn [foldl]. rewrite IH, lookup_cs_insert. destruct (decide (k ∈ l)) as [Hk|Hk].
    + rewrite decide_True; [done|]. by right.
    + destruct (decide (h = k)) as [->|]; [rewrite decide_True; [done|by left]|].
      rewrite decide_False; [done|]. by intros [|]%elem_of_cons.
Qed.

Lemma inv_conflict :
  entry_hash o ≠ entry_hash u → (entry_height o =? 0) && negb (is_placeholder o) = false →
  merge_inv (lo ++ [o]) (lu ++ [u]) (state_after_conflict o u orig update st).
Proof using All.
  intros Hx Hgen. destruct both_follows as [Hf Hmove]. destruct both_above as [Hlo Hlu].
  destruct both_agrees as (Hao & Hco & Hold). destruct both_lists as (HlO & HlU & Hsup).
  rewrite (proj2 (N.eqb_neq _ _)) in Hao, Hco by done. destruct Hinv.
  assert (Hlt : ∀ x, x ∈ lo → entry_height u < entry_height x)
    by (intros; apply Hf; set_solver).
  split; simpl; rewrite ?last_snoc; try done.
  - intros Hp. apply connects_app; auto.
  - intros Hp x [Hin| ->%list_elem_of_singleton]%elem_of_app; [|done].
    rewrite (proj1 (Hold x Hin)). auto.
  - intros k. split; [intros Hk; by apply elem_of_nil in Hk|].
    rewrite entry_at_snoc by (intros; rewrite Hh; auto). rewrite Hh.
    rewrite entry_at_app, entry_at_singleton.
    destruct (decide (entry_height u = k)) as [<-|Hne].
    { rewrite Hlu. by intros (y & _ & _ & ? & _). }
    intros (x & Hxk & _ & _ & Hb). exfalso.
    apply entry_at_elem in Hxk as [Hin <-].
    rewrite conflict_below_false in Hb. specialize (Hb o).
    rewrite Hco in Hb. specialize (Hlt x Hin).
    ospecialize (Hb _ _); [set_solver|lia|done].
  - intros k. rewrite lookup_drain, lookup_cs_insert, merge_change_conflict by done.
    destruct (decide (entry_height u = k)) as [<-|Hne].
    { rewrite decide_False; [done|]. intros (x & Hxk & _)%mi_potential0. congruence. }
    destruct (decide (k ∈ ms_potentially_invalidated_heights st)) as [Hk|Hk].
    + apply mi_potential0 in Hk as (x & -> & -> & -> & _). done.
    + rewrite mi_changeset0. unfold merge_change.
      destruct (entry_at lu k) eqn:Hluk; [done|].
      destruct (entry_at lo k) as [x|] eqn:Hlok; [|done].
      destruct (is_placeholder x) eqn:Hpx; [done|].
      destruct (conflict_below lo lu k) eqn:Hb; [done|].
      destruct Hk. apply mi_potential0. by exists x.
  - apply genesis_kept_app; [done..|].
    intros x ->%list_elem_of_singleton H0 Hp. by rewrite H0, Hp in Hgen.
Qed.
End both.

(** ** Leaving the loop *)

Notation EO := (entry_iter O).
Notation EU := (entry_iter U).

(** Every entry of the original has one of the update at its height. *)
Definition covered : Prop := ∀ o, o ∈ EO → is_Some (entry_at EU (entry_height o)).

(** The change set prescribed by the specification, when the chains connect. *)
Definition planned (cs : ChangeSet D) : Prop :=
  (∀ k, cs_blocks cs !! k = merge_change EO EU k) ∧ connects EO EU ∧ genesis_kept EO EU.

Inductive merge_exit : MergeResult D → Prop :=
| exit_refused err :
    ¬ (connects EO EU ∧ genesis_kept EO EU) →
    is_Some (entry_at EO (try_include_height err)) →
    merge_exit (Err err)
| exit_finish cs : planned cs → merge_exit (merge_finish O cs)
| exit_update cs : planned cs → covered → merge_exit (Ok (U, cs)).

Lemma entry_at_iter_O o : o ∈ EO → entry_at EO (entry_height o) = Some o.
Proof. intros Ho. apply entry_at_Some; [by apply entry_iter_sorted|done]. Qed.

(** An entry of either chain is determined by its height. *)
Lemma entry_O_inj o o' : o ∈ EO → o' ∈ EO → entry_height o = entry_height o' → o = o'.
Proof.
  intros Ho Ho' Hh. apply entry_at_iter_O in Ho, Ho'. congruence.
Qed.

Lemma exit_ambiguous lo lu st o u orig update prev_orig :
  merge_inv lo lu st → ms_orig st = o :: orig → ms_update st = u :: update →
  entry_height o = entry_height u → entry_hash o = entry_hash u →
  ambiguous st = true → ms_prev_orig st = Some prev_orig →
  merge_exit (Err (mkCannotConnect (entry_height prev_orig))).
Proof.
  intros Hinv Horig Hupd Hh Hx Hamb Hprev. destruct Hinv. rewrite Horig in *. rewrite Hupd in *.
  unfold ambiguous in Hamb. rewrite Hprev in Hamb.
  destruct (ms_prev_orig_was_invalidated st) eqn:Hinval; [done|].
  destruct (ms_point_of_agreement_found st) eqn:Hpoa; [done|]. simpl in Hamb.
  destruct (ms_prev_update st) as [prev_u|] eqn:Hpu; [|done].
  symmetry in mi_prev_orig0, mi_prev_update0. rewrite Hprev in mi_prev_orig0.
  rewrite mi_prev_orig0 in mi_invalidated0.
  pose proof (last_Some_elem_of _ _ mi_prev_orig0) as Hx'.
  pose proof (last_Some_elem_of _ _ mi_prev_update0) as Hu'.
  assert (HinO : prev_orig ∈ EO) by (rewrite mi_orig0; set_solver).
  assert (Hlto : entry_height o < entry_height prev_orig) by (apply mi_follows0; set_solver).
  apply exit_refused; [|simpl; by rewrite entry_at_iter_O by done; eexists].
  intros [(a & Ha & Hag & Hmax & Hcond) _].
  assert (Hago : agrees EU o = true).
  { rewrite mi_update0, (agrees_app_r lo lu (o :: orig) (u :: update)) by (done || set_solver).
    unfold agrees, entry_at; simpl. by rewrite Hh, N.eqb_refl, Hx, N.eqb_refl. }
  assert (a = o) as ->.
  { rewrite mi_orig0 in Ha. apply elem_of_app in Ha as [Ha|Ha].
    - rewrite mi_update0, (agrees_app lo lu (o :: orig)) in Hag by done.
      by rewrite mi_no_agreement0 in Hag.
    - apply elem_of_cons in Ha as [->|Ha]; [done|].
      pose proof (entry_iter_sorted O HO) as Hs. rewrite mi_orig0 in Hs.
      pose proof (descending_app _ _ _ _ Hs Ha).
      rewrite Hmax in Hago; [done|rewrite mi_orig0; set_solver|done]. }
  destruct Hcond as [Hc|[Hc|(c & Hc & Hlt & Hcc & Hlow)]].
  - specialize (Hc prev_orig HinO). lia.
  - specialize (Hc prev_u ltac:(rewrite mi_update0; set_solver)).
    specialize (mi_follows0 prev_u u ltac:(auto) ltac:(set_solver)). lia.
  - assert (c = prev_orig) as ->.
    { specialize (Hlow prev_orig HinO Hlto). apply last_Some in mi_prev_orig0 as [l' ->].
      pose proof (entry_iter_sorted O HO) as Hs. rewrite mi_orig0 in Hs, Hc.
      rewrite <-(assoc_L (++)) in Hs, Hc. simpl in Hs, Hc.
      apply elem_of_app in Hc as [Hc|Hc].
      + eapply StronglySorted_app_1_elem_of in Hs; [|exact Hc|by left]. simpl in Hs. lia.
      + apply elem_of_cons in Hc as [->|Hc]; [done|].
        apply elem_of_cons in Hc as [->|Hc]; [lia|].
        pose proof (entry_iter_sorted O HO) as Hs'. rewrite mi_orig0 in Hs'.
        pose proof (descending_app _ _ _ _ Hs' Hc). lia. }
    rewrite mi_update0, (conflicts_app lo lu (o :: orig)) in Hcc by done. congruence.
Qed.

Lemma exit_genesis lo lu st o u orig update :
  merge_inv lo lu st → ms_orig st = o :: orig → ms_update st = u :: update →
  entry_height o = entry_height u → entry_hash o ≠ entry_hash u →
  (entry_height o =? 0) && negb (is_placeholder o) = true →
  merge_exit (Err (mkCannotConnect 0)).
Proof.
  intros Hinv Horig Hupd Hh Hx [H0%N.eqb_eq Hp%negb_true_iff]%andb_true_iff.
  destruct Hinv. rewrite Horig in *. rewrite Hupd in *.
  assert (o ∈ EO) as Hin by (rewrite mi_orig0; set_solver).
  apply exit_refused.
  - intros [_ Hg]. specialize (Hg o Hin H0 Hp).
    rewrite mi_update0, (conflicts_app_r lo lu (o :: orig)) in Hg by (done || set_solver).
    unfold conflicts, entry_at in Hg; simpl in Hg.
    by rewrite Hh, N.eqb_refl, (proj2 (N.eqb_neq _ _)) in Hg.
  - simpl. rewrite <-H0, entry_at_iter_O by done. by eexists.
Qed.

(** With the update exhausted, what is left of the original changes nothing. *)
Lemma inv_final lo lu st :
  merge_inv lo lu st → ms_update st = [] → ms_point_of_agreement_found st = true →
  planned (ms_changeset st).
Proof.
  intros [] Hupd Hpoa. rewrite Hupd in *. unfold planned.
  rewrite mi_orig0, mi_update0. split_and!.
  - intros k. rewrite merge_change_app, mi_changeset0; [|done|by intros].
    destruct (merge_change lo lu k); [done|].
    unfold merge_change. simpl. rewrite conflict_below_nil.
    destruct (entry_at _ k) as [x|]; [|done]. by destruct (is_placeholder x).
  - apply connects_app; auto.
  - apply genesis_kept_app; [done..|]. by intros.
Qed.

Lemma exit_end lo lu st :
  is_Some (cp_get O 0) →
  merge_inv lo lu st → ms_update st = [] → lo ≠ [] →
  ms_orig st = [] ∨ ms_prev_orig_was_invalidated st = false →
  merge_exit (merge_end O st).
Proof.
  intros [g Hg] Hinv Hupd Hlo Hbreak.
  unfold merge_end. destruct (ms_point_of_agreement_found st) eqn:Hpoa.
  { rewrite andb_false_r. apply exit_finish. by eapply inv_final. }
  destruct Hinv. rewrite mi_prev_orig0.
  destruct (last lo) as [x|] eqn:Hlast; [|by apply last_None in Hlast].
  pose proof (last_Some_elem_of _ _ Hlast) as Hx.
  assert (x ∈ EO) as HxO by (rewrite mi_orig0; set_solver).
  assert (ms_prev_orig_was_invalidated st = false) as ->.
  { destruct Hbreak as [Horig|]; [|done]. rewrite Horig, app_nil_r in mi_orig0.
    rewrite mi_invalidated0. apply entry_at_occupied in Hg; [|done].
    apply entry_at_elem in Hg as [Hg Hg0]. assert (x = Occupied g) as ->.
    { apply last_Some in Hlast as [l' Hl']. pose proof (entry_iter_sorted O HO) as Hs.
      rewrite mi_orig0, Hl' in Hs, Hg. apply elem_of_app in Hg as [Hg|Hg]; [|set_solver].
      eapply StronglySorted_app_1_elem_of in Hs; [|exact Hg|by left]. simpl in Hs. lia. }
    apply mi_genesis0; [by rewrite <-mi_orig0|done..]. }
  simpl. apply exit_refused; [|simpl; rewrite entry_at_iter_O by done; by eexists].
  intros [(a & Ha & Hag & _) _]. rewrite mi_update0, Hupd, app_nil_r in Hag.
  rewrite mi_orig0 in Ha. apply elem_of_app in Ha as [Ha|Ha].
  - by rewrite mi_no_agreement0 in Hag.
  - unfold agrees in Hag. rewrite Hupd in mi_follows0.
    by destruct (entry_at_above lo lu (ms_orig st) [] (entry_height a) a) as [_ Hn];
      [done|auto|done|rewrite Hn in Hag].
Qed.

(** Entries at the same height of the same source checkpoint are the same. *)
Lemma source_checkpoint_inj o u :
  o ∈ EO → u ∈ EU → source_checkpoint o = source_checkpoint u →
  entry_height o = entry_height u → o = u.
Proof.
  intros (n & Hn & Ho)%elem_of_entry_iter (m & Hm & Hu)%elem_of_entry_iter; [|done..].
  pose proof (cp_wf_iter _ _ HO Hn). pose proof (cp_wf_iter _ _ HU Hm).
  apply elem_of_own_entries in Ho as [->|(b & -> & Hb)],
    Hu as [->|(b' & -> & Hb')]; simpl; intros -> Hh; [done| | |congruence];
    first [apply placeholder_of_Some in Hb as (Hb & _)|apply placeholder_of_Some in Hb' as (Hb & _)];
    try done; unfold entry_height, cp_height in *; simpl in *; lia.
Qed.

Lemma exit_shared lo lu st r :
  merge_inv lo lu st → ms_orig st = r → ms_update st = r →
  ms_point_of_agreement_found st = true →
  planned (ms_changeset st) ∧
  (ms_is_update_height_superset_of_original st = true → covered).
Proof.
  intros [] Hor Hup Hpoa. rewrite Hor in *. rewrite Hup in *. unfold planned, covered.
  assert (Hat : ∀ o, o ∈ r → entry_at r (entry_height o) = Some o).
  { intros o Ho. apply entry_at_Some; [|done]. pose proof (entry_iter_sorted O HO) as Hs.
    rewrite mi_orig0 in Hs. by eapply StronglySorted_app_1_r. }
  assert (Hnc : ∀ o, o ∈ r → conflicts r o = false).
  { intros o Ho. unfold conflicts. by rewrite Hat, N.eqb_refl. }
  rewrite mi_orig0, mi_update0. split_and!.
  - intros k. rewrite merge_change_app, mi_changeset0 by done.
    destruct (merge_change lo lu k); [done|].
    unfold merge_change. destruct (entry_at r k) as [x|] eqn:Hx; [|done].
    rewrite N.eqb_refl. by destruct x.
  - apply connects_app; auto.
  - apply genesis_kept_app; [done..|]. auto.
  - intros Hp o [Ho|Ho]%elem_of_app; rewrite entry_at_app.
    + destruct (mi_superset0 Hp o Ho) as [x ->]. by eexists.
    + destruct (entry_at lu _); [by eexists|]. rewrite Hat by done. by eexists.
Qed.

(** ** Running the loop *)

Section run.
Context (eq_ptr : CheckPoint D → CheckPoint D → bool).
Context (eq_ptr_sound : ∀ a b, eq_ptr a b = true → a = b).
Context (Hgenesis : is_Some (cp_get O 0)).

Definition remaining (st : MergeState D) : nat := length (ms_orig st) + length (ms_update st).

(** The outcome of one iteration. *)
Definition step_good (st : MergeState D) (s : MergeStep D) : Prop :=
  match s with
  | MSContinue st' => (∃ lo lu, merge_inv lo lu st') ∧ (remaining st' < remaining st)%nat
  | MSBreak st' => merge_exit (merge_end O st')
  | MSReturn r => merge_exit r
  end.

Lemma step_both_good lo lu st o u orig update :
  merge_inv lo lu st → ms_orig st = o :: orig → ms_update st = u :: update →
  entry_height o = entry_height u →
  step_good st (step_both eq_ptr O U o u orig update st).
Proof using All.
  intros Hinv Horig Hupd Hh. unfold step_both.
  destruct (N.eqb_spec (entry_hash o) (entry_hash u)) as [Hx|Hx]; cycle 1.
  { destruct (_ && _) eqn:Hgen; [by eapply exit_genesis|]. split.
    - exists (lo ++ [o]), (lu ++ [u]). by apply inv_conflict.
    - unfold remaining. simpl. rewrite Horig, Hupd. simpl. lia. }
  destruct (ambiguous st) eqn:Hamb.
  { pose proof Hamb as Hamb'. unfold ambiguous in Hamb'. destruct (_ && _); [|done].
    destruct (ms_prev_orig st) as [x|] eqn:Hpx; [|done].
    destruct (ms_prev_update st); [|done]. by eapply exit_ambiguous. }
  destruct (inv_agree lo lu st o u orig update Hinv Horig Hupd Hh Hx Hamb) as [Hcon Hinv'].
  assert (Hgood : step_good st (
    if eq_ptr (source_checkpoint o) (source_checkpoint u) then
      if ms_is_update_height_superset_of_original st
      then MSReturn (Ok (U, ms_changeset st))
      else MSReturn (merge_finish O (ms_changeset st))
    else MSContinue (state_after_agreement o u orig update st))); cycle 1.
  { unfold ambiguous in Hamb.
    by destruct (_ && _), (ms_prev_orig st), (ms_prev_update st). }
  destruct (eq_ptr _ _) eqn:Heq; cycle 1.
  { split; [by eauto|]. unfold remaining. simpl. rewrite Horig, Hupd. simpl. lia. }
  apply eq_ptr_sound in Heq.
  pose proof (mi_orig _ _ _ Hinv) as HlO. pose proof (mi_update _ _ _ Hinv) as HlU.
  rewrite Horig in HlO. rewrite Hupd in HlU.
  assert (o = u) as <-.
  { apply source_checkpoint_inj; [rewrite HlO; set_solver|rewrite HlU; set_solver|done..]. }
  pose proof (entry_iter_below O lo o orig HO HlO) as Hbo.
  pose proof (entry_iter_below U lu o update HU HlU) as Hbu.
  rewrite Hbo, Hbu in Hinv'.
  destruct (exit_shared _ _ _ (entries_below o) Hinv') as [Hplan Hcov]; [done..|].
  simpl in Hplan, Hcov.
  assert (match entry_data o with
          | Some u_data => if is_placeholder o
              then cs_insert (entry_height o) (Some u_data) (ms_changeset st)
              else ms_changeset st
          | None => ms_changeset st
          end = ms_changeset st) as Hsame by (by destruct o).
  rewrite Hsame in Hplan. simpl.
  destruct (ms_is_update_height_superset_of_original st).
  - apply exit_update; auto.
  - by apply exit_finish.
Qed.

Lemma merge_step_good lo lu st :
  merge_inv lo lu st → step_good st (merge_step eq_ptr O U st).
Proof using All.
  intros Hinv. pose proof (entry_iter_sorted O HO) as HsO.
  pose proof (entry_iter_sorted U HU) as HsU.
  pose proof (mi_orig _ _ _ Hinv) as HlO. pose proof (mi_update _ _ _ Hinv) as HlU.
  rewrite HlO in HsO. rewrite HlU in HsU. unfold merge_step.
  destruct (ms_orig st) as [|o orig] eqn:Horig, (ms_update st) as [|u update] eqn:Hupd.
  - simpl. apply (exit_end lo lu); [done..| |by left].
    intros ->. rewrite app_nil_r in HlO. by destruct O.
  - destruct (inv_update_only lo lu st u update) as (st' & -> & Hinv' & Ho & Hu); [done..| |].
    { intros o Ho. rewrite Horig in Ho. by apply elem_of_nil in Ho. }
    split; [by eauto|]. unfold remaining. rewrite Ho, Hu, Horig, Hupd. simpl. lia.
  - destruct (inv_orig_only lo lu st o orig) as (st' & -> & Hinv' & Ho & Hu); [done..| |].
    { intros u Hu. rewrite Hupd in Hu. by apply elem_of_nil in Hu. }
    rewrite Hupd in *. simpl. apply (exit_end (lo ++ [o]) lu); [done..| |].
    + by destruct lo.
    + right. rewrite (mi_invalidated _ _ _ Hinv'), last_snoc. unfold conflicts.
      pose proof (mi_follows _ _ _ Hinv) as Hf. rewrite Horig, Hupd in Hf.
      destruct (entry_at_above lo lu (o :: orig) [] (entry_height o) o) as [_ ->];
        [done|set_solver|done|done].
  - destruct (N.ltb_spec (entry_height o) (entry_height u)) as [Hlt|Hge].
    { destruct (inv_update_only lo lu st u update) as (st' & -> & Hinv' & Ho & Hu); [done..| |].
      { intros x Hx. rewrite Horig in Hx. apply elem_of_cons in Hx as [->|Hx]; [done|].
        pose proof (descending_app _ _ _ _ HsO Hx). lia. }
      split; [by eauto|]. unfold remaining. rewrite Ho, Hu, Horig, Hupd. simpl. lia. }
    destruct (N.ltb_spec (entry_height u) (entry_height o)) as [Hlt|Hle].
    { destruct (inv_orig_only lo lu st o orig) as (st' & -> & Hinv' & Ho & Hu); [done..| |].
      { intros x Hx. rewrite Hupd in Hx. apply elem_of_cons in Hx as [->|Hx]; [done|].
        pose proof (descending_app _ _ _ _ HsU Hx). lia. }
      rewrite Hupd in *. split; [by eauto|]. unfold remaining.
      rewrite Ho, Hu, Horig, Hupd. simpl. lia. }
    eapply step_both_good; [done..|lia].
Qed.

(** The fuel is enough, and the loop leaves by one of its exits. *)
Lemma merge_chains_exit : ∃ r, merge_chains eq_ptr O U = Some r ∧ merge_exit r.
Proof using All.
  unfold merge_chains.
  assert (Hrun : ∀ fuel lo lu st, merge_inv lo lu st → (remaining st < fuel)%nat →
    ∃ r, merge_loop eq_ptr fuel O U st = Some r ∧ merge_exit r).
  { induction fuel as [|fuel IH]; intros lo lu st Hinv Hfuel; [lia|]. simpl.
    pose proof (merge_step_good lo lu st Hinv) as Hstep.
    destruct (merge_step eq_ptr O U st) as [st'|st'|r]; simpl in Hstep; [|by eauto..].
    destruct Hstep as [(lo' & lu' & Hinv') Hlt]. eapply IH; [done|lia]. }
  eapply Hrun; [apply merge_inv_init|]. unfold remaining. simpl. lia.
Qed.
End run.
End loop.
