(* ===== verification/MergeSpec.v ===== *)
(** * What merging an update promises

    The properties of [merge_chains], and of the methods of the local chain
    built on it. *)
From S2P Require Import Prelude Block CheckPoint CheckPointFacts CheckPointInsert CheckPointEntry.
From S2P Require Import LocalChain LocalChainFacts MergeFacts MergeLoop Samples.
#[local] Open Scope N_scope.

Section merged.
Context {D : Type} `{!ToBlockHash D}.
Implicit Types (O U n m : CheckPoint D).

(** The blocks of the merged chain: the blocks of the update; where it only
    names a block, the original's if it is that block; and elsewhere those of
    the original that stand on no block the update contradicts. *)
Definition merged O U (k : N) : option D :=
  match entry_at (entry_iter U) k with
  | Some (Occupied n) => Some (cp_data n)
  | Some (Placeholder b _) =>
      match cp_map O !! k with
      | Some d => if to_blockhash d =? bid_hash b then Some d else None
      | None => None
      end
  | None => if conflict_below (entry_iter O) (entry_iter U) k then None else cp_map O !! k
  end.

(** Where the update only names a block that the original holds, and holds
    the block below itself, that block is the parent. *)
Definition coherent O U : Prop :=
  ∀ k b m n d y, entry_at (entry_iter U) (k + 1) = Some (Placeholder b m) →
    cp_get U k = Some n → cp_map O !! (k + 1) = Some d → to_blockhash d = bid_hash b →
    prev_blockhash d = Some y → y = cp_hash n.

(** The update names, without holding it, a block that the original holds. *)
Definition names_held O U : Prop :=
  ∃ k b m d, entry_at (entry_iter U) k = Some (Placeholder b m) ∧
    cp_map O !! k = Some d ∧ to_blockhash d = bid_hash b.

Context (O U : CheckPoint D) (HO : cp_wf O) (HU : cp_wf U).
Notation EO := (entry_iter O).
Notation EU := (entry_iter U).

Lemma cp_map_entry k :
  cp_map O !! k = match entry_at EO k with Some (Occupied n) => Some (cp_data n) | _ => None end.
Proof using HO.
  rewrite cp_map_lookup by done. destruct (entry_at EO k) as [[b m|n]|] eqn:He.
  - by apply entry_at_placeholder in He as (_ & _ & _ & ->).
  - by apply entry_at_occupied in He as ->.
  - destruct (cp_get O k) eqn:Hg; [|done]. apply entry_at_occupied in Hg; [|done]. congruence.
Qed.

Lemma entry_hash_occupied cp k n :
  cp_wf cp → entry_at (entry_iter cp) k = Some (Occupied n) →
  entry_hash (Occupied n) = to_blockhash (cp_data n).
Proof.
  intros Hwf Hn. apply entry_at_occupied, cp_get_Some in Hn as [Hn _]; [|done..].
  apply cp_wf_hash. by eapply cp_wf_iter.
Qed.

Lemma conflicts_at k o u :
  entry_at EO k = Some o → entry_at EU k = Some u → entry_hash o ≠ entry_hash u →
  conflicts EU o = true.
Proof.
  intros [_ <-]%entry_at_elem Hu Hne. unfold conflicts. rewrite Hu.
  by apply negb_true_iff, N.eqb_neq.
Qed.

(** The prescribed change set, applied to the original, merges. *)
Lemma cs_apply_merged `{!Inj (=) (=) (to_blockhash (D:=D))} (cs : ChangeSet D) k :
  (∀ k, cs_blocks cs !! k = merge_change EO EU k) →
  cs_apply (cp_map O) cs !! k = merged O U k.
Proof using HO HU.
  intros Hcs. rewrite lookup_cs_apply, Hcs, cp_map_entry. unfold merge_change, merged.
  rewrite cp_map_entry.
  destruct (entry_at EU k) as [u|] eqn:Hu, (entry_at EO k) as [o|] eqn:Ho.
  - destruct u as [b m|n], o as [b' m'|n']; simpl.
    + by destruct (_ =? _).
    + rewrite (entry_hash_occupied O k n') by done.
      change (entry_hash (Placeholder b m)) with (bid_hash b). by destruct (_ =? _).
    + by destruct (_ =? _).
    + destruct (N.eqb_spec (entry_hash (Occupied n')) (entry_hash (Occupied n))) as [Heq|];
        [|done].
      rewrite (entry_hash_occupied O k n'), (entry_hash_occupied U k n) in Heq by done.
      by apply (inj to_blockhash) in Heq as ->.
  - by destruct u.
  - destruct o; simpl; [by destruct (conflict_below _ _ _)|]. by destruct (conflict_below _ _ _).
  - by destruct (conflict_below _ _ _).
Qed.

(** The merged chain is internally consistent. *)
Lemma merged_no_mismatch (M : gmap N D) b :
  coherent O U → (∀ k, M !! k = merged O U k) → ¬ mismatch_at M b.
Proof using HO HU.
  intros Hcoh HM (d & d' & y & Hd & Hh & Hd' & Hy & Hne).
  set (k := bid_height b) in *. rewrite HM in Hd, Hd'. unfold merged in Hd'.
  (* no entry of the update contradicts the original at [k] *)
  assert (Hdown : entry_at EU k = None → cp_map O !! (k + 1) = Some d' → y = bid_hash b).
  { intros Hnone Hd'O. unfold merged in Hd. rewrite Hnone in Hd.
    destruct (conflict_below EO EU k); [done|].
    destruct (decide (y = bid_hash b)) as [|Hyb]; [done|]. exfalso.
    apply (cp_map_no_mismatch O b HO). by exists d, d', y. }
  assert (Hup : ∀ e, entry_at EU k = Some e → entry_hash e = y → y = bid_hash b).
  { intros e He Hey. unfold merged in Hd. rewrite He in Hd. destruct e as [b' m|n].
    - destruct (cp_map O !! k) as [d0|]; [|done].
      destruct (N.eqb_spec (to_blockhash d0) (bid_hash b')) as [Heq|]; [|done].
      simplify_eq. change (entry_hash (Placeholder b' m)) with (bid_hash b'). congruence.
    - rewrite (entry_hash_occupied U k) in Hey by done. congruence. }
  assert (HupO : ∀ n, cp_get O (k + 1) = Some n → cp_data n = d' →
    conflict_below EO EU (k + 1) = false → y = bid_hash b).
  { intros n Hn Hnd Hcb. assert (cp_map O !! (k + 1) = Some d') as Hd'O
      by (rewrite cp_map_lookup, Hn by done; simpl; by rewrite Hnd).
    destruct (entry_at_parent O k n y) as (o & Ho & Hoy); [done..|by rewrite Hnd|].
    destruct (entry_at EU k) as [u|] eqn:Hu; [|by apply Hdown].
    apply (Hup u eq_refl). destruct (decide (entry_hash o = entry_hash u)); [congruence|].
    exfalso. rewrite conflict_below_false in Hcb. pose proof Ho as [Hin Hoh]%entry_at_elem.
    specialize (Hcb o Hin ltac:(lia)). by rewrite (conflicts_at k o u) in Hcb. }
  apply Hne. destruct (entry_at EU (k + 1)) as [[b' m|n']|] eqn:Hu1.
  - destruct (cp_map O !! (k + 1)) as [d0|] eqn:Hd0; [|done].
    destruct (N.eqb_spec (to_blockhash d0) (bid_hash b')) as [Heq|]; [|done]. simplify_eq.
    destruct (entry_at EU k) as [[b2 m2|n]|] eqn:Hu.
    + apply entry_at_placeholder in Hu as (_ & Hm2 & _); [|done].
      by apply entry_at_placeholder in Hu1 as (_ & _ & _ & Hm); [congruence|].
    + apply (Hup _ eq_refl). symmetry.
      apply (Hcoh k b' m n d' y); [done| |done..]. by apply entry_at_occupied.
    + by apply Hdown.
  - simplify_eq. apply entry_at_occupied in Hu1; [|done].
    destruct (entry_at_parent U k n' y) as (u & Hu & Huy); [done..|]. by eapply Hup.
  - destruct (conflict_below EO EU (k + 1)) eqn:Hcb; [done|].
    rewrite cp_map_lookup in Hd' by done.
    apply fmap_Some in Hd' as (n & Hn & ->). by eapply HupO.
Qed.

Lemma merge_change_fit (cs : ChangeSet D) :
  (∀ k, cs_blocks cs !! k = merge_change EO EU k) → cs_fit cs.
Proof using HO HU.
  intros Hcs k v Hk. rewrite Hcs in Hk.
  assert (is_Some (entry_at EU k) ∨ is_Some (entry_at EO k)) as [[e He]|[e He]].
  { destruct (entry_at EU k) eqn:Hu; [left; by eexists|].
    destruct (entry_at EO k) eqn:Ho; [right; by eexists|].
    by rewrite merge_change_none in Hk. }
  - apply entry_at_elem in He as [Hin <-]. apply entry_iter_height in Hin; [|done].
    pose proof (cp_wf_height_max U HU). lia.
  - apply entry_at_elem in He as [Hin <-]. apply entry_iter_height in Hin; [|done].
    pose proof (cp_wf_height_max O HO). lia.
Qed.

Lemma merged_genesis g :
  cp_get O 0 = Some g → genesis_kept EO EU → is_Some (merged O U 0).
Proof using HO HU.
  intros Hg Hk. pose proof Hg as Hg'. apply entry_at_occupied in Hg'; [|done].
  pose proof Hg' as [Hin Hg0]%entry_at_elem. specialize (Hk _ Hin Hg0 eq_refl).
  unfold merged, conflicts in *. rewrite Hg0 in Hk. rewrite cp_map_lookup, Hg by done. simpl.
  destruct (entry_at EU 0) as [[b m|n]|] eqn:Hu; [|by eexists|].
  - apply negb_false_iff in Hk.
    rewrite (entry_hash_occupied O 0 g) in Hk by done.
    change (entry_hash (Placeholder b m)) with (bid_hash b) in Hk. rewrite Hk. by eexists.
  - assert (conflict_below EO EU 0 = false) as -> by (apply conflict_below_false; intros; lia).
    by eexists.
Qed.

(** When the whole original is covered and nothing is only named, the update
    is the merged chain. *)
Lemma update_merged k :
  covered O U → ¬ names_held O U → cp_map U !! k = merged O U k.
Proof using HO HU.
  intros Hcov Hn. unfold merged. rewrite cp_map_lookup by done.
  destruct (entry_at EU k) as [[b m|n]|] eqn:Hu.
  - pose proof Hu as (_ & _ & _ & ->)%entry_at_placeholder; [|done].
    destruct (cp_map O !! k) as [d|] eqn:Hd; [|done].
    destruct (N.eqb_spec (to_blockhash d) (bid_hash b)); [|done].
    destruct Hn. by exists k, b, m, d.
  - by apply entry_at_occupied in Hu as ->.
  - assert (cp_get U k = None) as ->.
    { destruct (cp_get U k) eqn:Hg; [|done]. apply entry_at_occupied in Hg; [|done]. congruence. }
    assert (cp_map O !! k = None) as ->; [|by destruct (conflict_below _ _ _)].
    rewrite cp_map_entry. destruct (entry_at EO k) as [o|] eqn:Ho; [|done].
    apply entry_at_elem in Ho as [Hin <-]. destruct (Hcov o Hin) as [? Hx]. congruence.
Qed.
End merged.

Section spec.
Context {D : Type} `{!ToBlockHash D, !Inj (=) (=) (to_blockhash (D:=D))}.
Implicit Types (O U T n m : CheckPoint D) (c : LocalChain D).

Context (eq_ptr : CheckPoint D → CheckPoint D → bool).
Context (eq_ptr_sound : ∀ a b, eq_ptr a b = true → a = b).

Lemma planned_finish O U (cs : ChangeSet D) :
  cp_wf O → is_Some (cp_get O 0) → cp_wf U → coherent O U → planned O U cs →
  ∃ T, merge_finish O cs = Ok (T, cs) ∧ cp_wf T ∧ ∀ k, cp_map T !! k = merged O U k.
Proof using Inj0.
  intros HO [g Hg] HU Hcoh (Hcs & _ & Hgen). unfold merge_finish.
  pose proof (apply_changeset_outcome O cs HO (merge_change_fit O U HO HU cs Hcs)) as Hout.
  pose proof (λ k, cs_apply_merged O U HO HU cs k Hcs) as Hm.
  destruct (apply_changeset_to_checkpoint O cs) as [T|[|b]].
  - destruct Hout as (HT & Hmap & _). exists T. split_and!; [done..|].
    intros k. by rewrite Hmap, Hm.
  - rewrite Hm in Hout. destruct (merged_genesis O U HO HU g Hg Hgen). congruence.
  - by destruct (merged_no_mismatch O U HO HU (cs_apply (cp_map O) cs) b Hcoh Hm).
Qed.

(** C2. Block data with different hashes; a well-formed original that holds a
    genesis block; and a well-formed update that is coherent with it: where the
    update only names a block, by the parent hash of the next, and holds the
    block below, and the original has the block named, that one's parent is the
    block below.  Then [merge_chains] terminates and does not panic.  It accepts
    the update exactly when the two chains connect without ambiguity and the
    genesis block is kept, and then its change set makes of the original the
    merge of the two, height by height: the update's blocks win, and an original
    block survives unless it stands on a block the update contradicts.  The new
    tip is that merge too, or else it is the update itself, which happens only
    if the update names, without holding it, a block that the original holds.
    When the update is refused, the height suggested is one at which the
    original chain has an entry. *)
Theorem merge_chains_correct O U :
  cp_wf O → is_Some (cp_get O 0) → cp_wf U → coherent O U →
  ∃ r, merge_chains eq_ptr O U = Some r ∧
    match r with
    | Ok (T, cs) =>
        connects (entry_iter O) (entry_iter U) ∧ genesis_kept (entry_iter O) (entry_iter U) ∧
        cp_wf T ∧ (∀ k, cs_apply (cp_map O) cs !! k = merged O U k) ∧
        (T = U ∨ ∀ k, cp_map T !! k = merged O U k) ∧
        (¬ names_held O U → ∀ k, cp_map T !! k = merged O U k)
    | Err e =>
        ¬ (connects (entry_iter O) (entry_iter U) ∧ genesis_kept (entry_iter O) (entry_iter U)) ∧
        is_Some (entry_at (entry_iter O) (try_include_height e))
    end.
Proof using Inj0 eq_ptr_sound.
  intros HO Hg HU Hcoh.
  destruct (merge_chains_exit O U HO HU eq_ptr eq_ptr_sound Hg) as (r & Hr & Hexit).
  exists r. split; [done|]. destruct Hexit as [e Hno Hat|cs Hplan|cs Hplan Hcov]; [done|..].
  - destruct (planned_finish O U cs HO Hg HU Hcoh Hplan) as (T & -> & HT & Hmap).
    destruct Hplan as (Hcs & Hcon & Hgen). split_and!; auto.
    intros k. by apply cs_apply_merged.
  - destruct Hplan as (Hcs & Hcon & Hgen). split_and!; auto.
    + intros k. by apply cs_apply_merged.
    + intros Hn k. by apply update_merged.
Qed.

(** ** Through the methods of the chain *)

Lemma merge_persists O U T cs :
  cp_wf O → is_Some (cp_get O 0) → cp_wf U → coherent O U →
  merge_chains eq_ptr O U = Some (Ok (T, cs)) →
  cs_fit cs ∧ cp_wf T ∧ (connects (entry_iter O) (entry_iter U) ∧ genesis_kept (entry_iter O) (entry_iter U)) ∧
  (∀ k, cs_blocks cs !! k = merge_change (entry_iter O) (entry_iter U) k) ∧
  is_Some (merged O U 0) ∧ (¬ names_held O U → ∀ k, cp_map T !! k = merged O U k).
Proof using Inj0 eq_ptr_sound.
  intros HO Hg HU Hcoh Hm.
  destruct (merge_chains_exit O U HO HU eq_ptr eq_ptr_sound Hg) as (r & Hr & Hexit).
  rewrite Hm in Hr. injection Hr as <-. destruct Hg as [g Hg].
  inversion Hexit as [|cs' Hplan Heq|cs' Hplan Hcov]; subst.
  - destruct (planned_finish O U cs' HO (mk_is_Some _ _ Hg) HU Hcoh Hplan) as (T' & HT' & HT & Hmap).
    rewrite HT' in Heq. simplify_eq. destruct Hplan as (Hcs & Hcon & Hgen).
    split_and!; [by apply (merge_change_fit O U)|done..|by apply (merged_genesis O U HO HU g)|done].
  - destruct Hplan as (Hcs & Hcon & Hgen).
    split_and!; [by apply (merge_change_fit O T)|done..|by apply (merged_genesis O T HO HU g)|].
    intros Hn k. by apply update_merged.
Qed.

(** An update that names no block of the chain without holding it is merged, and
    the change set persists the merge, or it is refused for not connecting. *)
Lemma apply_update_outcome c U :
  lc_wf c → cp_wf U → coherent (lc_tip c) U → ¬ names_held (lc_tip c) U →
  ∃ r, apply_update eq_ptr c U = Some r ∧
    let connected := connects (entry_iter (lc_tip c)) (entry_iter U) ∧
      genesis_kept (entry_iter (lc_tip c)) (entry_iter U) in
    match r with
    | Ok (c', cs) => connected ∧ lc_wf c' ∧ lc_apply_changeset c cs = Ok c' ∧
        (∀ k, cs_blocks cs !! k = merge_change (entry_iter (lc_tip c)) (entry_iter U) k) ∧
        ∀ k, cp_map (lc_tip c') !! k = merged (lc_tip c) U k
    | Err e => ¬ connected ∧ is_Some (entry_at (entry_iter (lc_tip c)) (try_include_height e))
    end.
Proof using Inj0 eq_ptr_sound.
  intros Hc HU Hcoh Hn. pose proof Hc as [HO [d0 H0]].
  apply cp_map_get in H0 as (g & Hg & _); [|done].
  destruct (merge_chains_exit (lc_tip c) U HO HU eq_ptr eq_ptr_sound (mk_is_Some _ _ Hg)) as (r & Hr & Hexit).
  unfold apply_update. rewrite Hr. destruct r as [[T cs]|e]; (eexists; split; [reflexivity|]); cbn zeta iota beta.
  - destruct (merge_persists (lc_tip c) U T cs) as (Hfit & HT & Hcon & Hcs & Hgen & Hmap);
      [done|by eexists|done..|]. specialize (Hmap Hn).
    assert (lc_wf (mkLocalChain T)) as HcT by (split; [done|by rewrite Hmap]).
    split_and!; [apply Hcon|apply Hcon|done..| |done|done]. apply lc_apply_to; [done..|]. apply map_eq. intros k.
    by rewrite (cs_apply_merged (lc_tip c) U), Hmap.
  - inversion Hexit as [err Hno Hat Heq|cs Hplan Heq|]; [done|].
    destruct (planned_finish (lc_tip c) U cs HO (mk_is_Some _ _ Hg) HU Hcoh Hplan) as (T & HT & _). congruence.
Qed.

(** C28. Block data with different hashes; a well-formed local chain with a
    genesis block; and a well-formed update that is coherent with it (as for
    [merge_chains_correct]) and that does not name, without holding it, a block
    that the chain holds.  If [apply_update] accepts the update, its change set
    persists what it did: the new chain is well formed and keeps a genesis
    block, and replaying the change set on the old chain gives exactly the new
    chain. *)
Theorem apply_update_persists c U c' (cs : ChangeSet D) :
  lc_wf c → cp_wf U → coherent (lc_tip c) U → ¬ names_held (lc_tip c) U →
  apply_update eq_ptr c U = Some (Ok (c', cs)) →
  lc_wf c' ∧ lc_apply_changeset c cs = Ok c'.
Proof using Inj0 eq_ptr_sound.
  intros Hc HU Hcoh Hn Hrun. destruct (apply_update_outcome c U) as (r & Hr & Hres); [done..|].
  rewrite Hrun in Hr. injection Hr as <-. by destruct Hres as (_ & ? & ? & _).
Qed.

Lemma connects_self O : cp_wf O → connects (entry_iter O) (entry_iter O).
Proof.
  intros HO. exists (Occupied O).
  assert (Occupied O ∈ entry_iter O) as Hin.
  { apply elem_of_entry_iter; [done|]. exists O. split; [apply cp_iter_self|by left]. }
  split_and!; [done| |..].
  - unfold agrees. rewrite entry_at_iter_O by done. apply N.eqb_refl.
  - intros o Ho Hlt. apply entry_iter_height in Ho; [|done].
    change (entry_height (Occupied O)) with (cp_height O) in Hlt. lia.
  - left. intros o Ho. by apply entry_iter_height in Ho.
Qed.

Lemma merge_change_self O k : cp_wf O → merge_change (entry_iter O) (entry_iter O) k = None.
Proof.
  intros HO. unfold merge_change. destruct (entry_at _ k) as [[]|]; [..|done];
    by rewrite N.eqb_refl.
Qed.

(** Updating a chain with itself changes nothing, whether or not pointer
    equality is noticed. *)
Theorem apply_update_self c :
  lc_wf c → apply_update eq_ptr c (lc_tip c) = Some (Ok (c, ChangeSet_default)).
Proof using Inj0 eq_ptr_sound.
  intros Hc. pose proof Hc as [HO [d0 H0]].
  apply cp_map_get in H0 as (g & Hg & _); [|done].
  assert (Hcoh : coherent (lc_tip c) (lc_tip c)).
  { intros k b m n d y Hp _ Hd. apply entry_at_placeholder in Hp as (_ & _ & _ & Hn); [|done].
    by rewrite cp_map_lookup, Hn in Hd by done. }
  assert (Hnh : ¬ names_held (lc_tip c) (lc_tip c)).
  { intros (k & b & m & d & Hp & Hd & _).
    apply entry_at_placeholder in Hp as (_ & _ & _ & Hn); [|done].
    by rewrite cp_map_lookup, Hn in Hd by done. }
  destruct (apply_update_outcome c (lc_tip c)) as (r & -> & Hres); [done..|].
  destruct r as [[c' cs]|e].
  - destruct Hres as (_ & [HT _] & _ & Hcs & Hmap).
    assert (cs = ChangeSet_default) as ->.
    { destruct cs as [m]. unfold ChangeSet_default. f_equal. apply map_eq. intros k.
      by rewrite lookup_empty, <-(merge_change_self (lc_tip c) k), <-Hcs. }
    assert (lc_tip c' = lc_tip c) as Heq; [|destruct c, c'; cbn in Heq; by subst].
    apply cp_map_inj; [done..|]. apply map_eq. intros k. rewrite Hmap.
    rewrite <-(cs_apply_merged (lc_tip c) (lc_tip c) HO HO ChangeSet_default).
    + by rewrite cs_apply_default.
    + intros k'. by rewrite merge_change_self.
  - destruct Hres as [[] _]. split; [by apply connects_self|]. intros o Ho _ _. unfold conflicts.
    rewrite entry_at_iter_O by done. by rewrite N.eqb_refl.
Qed.
End spec.

(** ** Chains of block hashes, and headers *)

Section header.
Context {H : Type} `{!BlockHeader H}.
Context (eq_ptr : CheckPoint BlockHash → CheckPoint BlockHash → bool).
Context (eq_ptr_sound : ∀ a b, eq_ptr a b = true → a = b).
Implicit Types (c : LocalChain BlockHash) (U : CheckPoint BlockHash).

#[local] Instance to_blockhash_inj : Inj (=) (=) (to_blockhash (D:=BlockHash)).
Proof. by intros a b. Qed.

(** Block hashes name no parent, so their chains have no placeholders. *)
Lemma hash_no_placeholder U k b m :
  cp_wf U → entry_at (entry_iter U) k ≠ Some (Placeholder b m).
Proof. intros HU Hp. by apply entry_at_placeholder in Hp as (_ & _ & ? & _). Qed.

Lemma hash_coherent c U : cp_wf U → coherent (lc_tip c) U ∧ ¬ names_held (lc_tip c) U.
Proof.
  intros HU. split.
  - intros k b m n d y Hp. by apply hash_no_placeholder in Hp.
  - intros (k & b & m & d & Hp & _). by apply hash_no_placeholder in Hp.
Qed.

Lemma hash_from_blocks (l : list (N * BlockHash)) :
  l ≠ [] → heights_fit l → StronglySorted key_lt l →
  ∃ U, cp_from_blocks l = Ok U ∧ cp_wf U ∧ cp_blocks U = reverse l.
Proof.
  destruct l as [|[h d] l]; [done|]. intros _ [Hh Hfit]%Forall_cons [Hs Hhd]%StronglySorted_inv.
  assert (cp_wf (cp_new h d)) as Hnew by (by constructor).
  pose proof (extend_ascending (cp_new h d) l Hnew Hfit Hs) as Hext.
  ospecialize (Hext _).
  { eapply Forall_impl; [done|]. intros [h' d'] [Hle Hne]. unfold tle in Hle. simpl in *.
    change (cp_height (cp_new h d)) with h. lia. }
  simpl. destruct (cp_extend (cp_new h d) l) as [U|e].
  - destruct Hext as [HU Hbl]. exists U. split_and!; [done..|].
    by rewrite Hbl, cp_blocks_base, reverse_cons.
  - by destruct Hext as (_ & ? & ? & ? & ? & _ & _ & ?).
Qed.

(** An update over block hashes is applied or refused, and holds afterwards. *)
Lemma hash_apply_update c U :
  lc_wf c → cp_wf U →
  ∃ r, apply_update eq_ptr c U = Some r ∧
    match r with
    | Ok (c', cs) => lc_wf c' ∧ lc_apply_changeset c cs = Ok c' ∧
        ∀ k n, cp_get U k = Some n → cp_map (lc_tip c') !! k = Some (cp_data n)
    | Err e => is_Some (cp_get (lc_tip c) (try_include_height e))
    end.
Proof using eq_ptr_sound.
  intros Hc HU. destruct (hash_coherent c U HU) as [Hcoh Hnh].
  destruct (apply_update_outcome eq_ptr eq_ptr_sound c U) as (r & Hr & Hres); [done..|].
  exists r. split; [done|]. destruct r as [[c' cs]|e].
  - destruct Hres as (_ & Hwf & Happ & _ & Hm). split_and!; [done..|]. intros k n Hn.
    rewrite Hm. unfold merged. by rewrite (proj2 (entry_at_occupied U k n HU) Hn).
  - destruct Hres as [_ [[b m|n] He]].
    + by apply hash_no_placeholder in He; [|apply Hc].
    + apply entry_at_occupied in He; [|apply Hc]. by eexists.
Qed.

(** What holds of the chain after applying a header. *)
Definition header_applied c (header : H) (height : N) (connected_to : BlockId)
    (r : LocalChain BlockHash * ChangeSet BlockHash) : Prop :=
  let m := cp_map (lc_tip r.1) in
  lc_wf r.1 ∧ lc_apply_changeset c r.2 = Ok r.1 ∧
  m !! height = Some (header_block_hash header) ∧
  (0 < height → m !! (height - 1) = Some (header_prev_blockhash header)) ∧
  m !! bid_height connected_to = Some (bid_hash connected_to).

Lemma sorted_blocks_get U (l : list (N * BlockHash)) k d :
  cp_wf U → cp_blocks U = reverse l → (k, d) ∈ l →
  ∃ n, cp_get U k = Some n ∧ cp_data n = d.
Proof.
  intros HU Hbl Hin. apply cp_map_get; [done|]. apply cp_map_Some; [done|].
  by rewrite Hbl, elem_of_reverse.
Qed.

Lemma header_update c (header : H) height connected_to (l : list (N * BlockHash)) :
  lc_wf c → heights_fit l → StronglySorted key_lt l →
  (height, header_block_hash header) ∈ l →
  (0 < height → (height - 1, header_prev_blockhash header) ∈ l) →
  (bid_height connected_to, bid_hash connected_to) ∈ l →
  ∃ U r, cp_from_blocks l = Ok U ∧ apply_update eq_ptr c U = Some r ∧
    match r with
    | Ok r => header_applied c header height connected_to r
    | Err e => is_Some (cp_get (lc_tip c) (try_include_height e))
    end.
Proof using eq_ptr_sound.
  intros Hc Hfit Hs Hthis Hprev Hct.
  destruct (hash_from_blocks l) as (U & HU & HwfU & Hbl); [by intros ->; inversion Hthis|done..|].
  destruct (hash_apply_update c U Hc HwfU) as (r & Hr & Hres).
  exists U, r. split_and!; [done..|]. destruct r as [[c' cs]|e]; [|done].
  destruct Hres as (Hwf & Happ & Hget).
  assert (Hin : ∀ k d, (k, d) ∈ l → cp_map (lc_tip c') !! k = Some d).
  { intros k d Hin. destruct (sorted_blocks_get U l k d) as (n & Hn & <-); [done..|]. auto. }
  split_and!; auto.
Qed.

(** The blocks are inconsistent when the point of connection is neither of the
    header's blocks and is not below the parent. *)
Definition header_inconsistent (header : H) (height : N) (connected_to : BlockId) : Prop :=
  connected_to ≠ mkBlockId height (header_block_hash header) ∧
  ¬ (0 < height ∧ connected_to = mkBlockId (height - 1) (header_prev_blockhash header)) ∧
  height - 1 ≤ bid_height connected_to.

Lemma apply_header_connected_to_outcome c (header : H) (height : N) (connected_to : BlockId) :
  lc_wf c → height ≤ U32_MAX →
  let inconsistent := header_inconsistent header height connected_to in
  match apply_header_connected_to eq_ptr c header height connected_to with
  | None => False
  | Some (Err InconsistentBlocks) => inconsistent
  | Some (Err (CannotConnect e)) => ¬ inconsistent ∧
      is_Some (cp_get (lc_tip c) (try_include_height e))
  | Some (Ok r) => ¬ inconsistent ∧ header_applied c header height connected_to r
  end.
Proof using eq_ptr_sound.
  intros Hc Hmax inconsistent. unfold apply_header_connected_to.
  unfold header_inconsistent in inconsistent.
  set (this := mkBlockId height (header_block_hash header)) in *.
  set (prev := mkBlockId (height - 1) (header_prev_blockhash header)) in *.
  set (oprev := (λ ph, mkBlockId ph _) <$> checked_sub height 1).
  assert (Hop : oprev = if decide (0 < height) then Some prev else None).
  { unfold oprev. destruct (checked_sub height 1) as [ph|] eqn:Hs.
    - apply checked_sub_Some in Hs as [Hs ->]. by rewrite decide_True by lia.
    - apply checked_sub_None in Hs. by rewrite decide_False by lia. }
  clearbody oprev.
  assert (Hgo : ∀ conn, ¬ inconsistent →
    (∃ b, b ∈ omap id [conn; oprev; Some this] ∧ b = connected_to) →
    match conn with Some b => bid_height b < height - 1 | None => True end →
    match match cp_from_blocks (BlockId_to_pair <$> omap id [conn; oprev; Some this]) with
          | Err _ => None
          | Ok update => map_err CannotConnect <$> apply_update eq_ptr c update
          end with
    | None => False
    | Some (Err InconsistentBlocks) => inconsistent
    | Some (Err (CannotConnect e)) => ¬ inconsistent ∧
        is_Some (cp_get (lc_tip c) (try_include_height e))
    | Some (Ok r) => ¬ inconsistent ∧ header_applied c header height connected_to r
    end).
  { intros conn Hni (b & Hb & ->) Hlow.
    destruct (header_update c header height connected_to
      (BlockId_to_pair <$> omap id [conn; oprev; Some this])) as (U & r & -> & Hr & Hres).
    - done.
    - rewrite Hop. destruct conn as [b|], (decide (0 < height)); simpl;
        repeat constructor; simpl; lia.
    - rewrite Hop. destruct conn as [b|], (decide (0 < height)); simpl;
        repeat constructor; unfold tle; simpl; lia.
    - apply list_elem_of_fmap. exists this. split; [done|]. destruct conn, oprev; simpl; set_solver.
    - intros Hpos. apply list_elem_of_fmap. exists prev. split; [done|].
      rewrite Hop, decide_True by done. destruct conn; simpl; set_solver.
    - apply list_elem_of_fmap. by exists connected_to.
    - rewrite Hr. by destruct r. }
  unfold header_connection.
  destruct (decide (connected_to = this ∨ Some connected_to = oprev)) as [Hin|Hout].
  - apply Hgo; [| |done].
    + unfold inconsistent. rewrite Hop in Hin. destruct (decide (0 < height)); naive_solver lia.
    + exists connected_to. split; [|done]. rewrite Hop in *.
      destruct Hin as [->|Hin]; destruct (decide (0 < height)); simpl; simplify_eq; set_solver.
  - destruct (N.leb_spec (saturating_sub height 1) (bid_height connected_to)) as [Hle|Hlt].
    + unfold saturating_sub in Hle. unfold inconsistent. rewrite Hop in Hout.
      destruct (decide (0 < height)); naive_solver lia.
    + unfold saturating_sub in Hlt. apply Hgo; [unfold inconsistent; lia| |done].
      exists connected_to. split; [|done]. destruct oprev; simpl; set_solver.
Qed.

(** [apply_header_connected_to] never panics.  It reports inconsistent
    blocks exactly when the point of connection is neither of the header's
    blocks and is not below the parent; otherwise the chain either refuses
    the update, naming one of its own heights, or afterwards contains the
    header, its parent and the point of connection.  [apply_header] does the
    same with the parent as the point of connection, and its [unreachable!]
    is never reached. *)
Theorem apply_header_correct c (header : H) (height : N) (connected_to : BlockId) :
  lc_wf c → height ≤ U32_MAX →
  match apply_header_connected_to eq_ptr c header height connected_to with
  | None => False
  | Some (Err InconsistentBlocks) => header_inconsistent header height connected_to
  | Some (Err (CannotConnect e)) => ¬ header_inconsistent header height connected_to ∧
      is_Some (cp_get (lc_tip c) (try_include_height e))
  | Some (Ok r) => ¬ header_inconsistent header height connected_to ∧
      header_applied c header height connected_to r
  end ∧
  match apply_header eq_ptr c header height with
  | None => False
  | Some (Err e) => is_Some (cp_get (lc_tip c) (try_include_height e))
  | Some (Ok r) =>
      header_applied c header height (mkBlockId height (header_block_hash header)) r
  end.
Proof using eq_ptr_sound.
  intros Hc Hmax. split; [by apply apply_header_connected_to_outcome|].
  unfold apply_header. destruct (checked_sub height 1) as [ph|] eqn:Hs.
  - apply checked_sub_Some in Hs as [Hs ->].
    pose proof (apply_header_connected_to_outcome c header height
      (mkBlockId (height - 1) (header_prev_blockhash header)) Hc Hmax) as Hout.
    destruct (apply_header_connected_to _ _ _ _ _) as [[r|[|e]]|]; [|exfalso|by destruct Hout|done].
    + destruct Hout as (_ & ? & ? & ? & ? & _). by split_and!.
    + destruct Hout as (_ & Hno & _). apply Hno. split; [lia|done].
  - pose proof (apply_header_connected_to_outcome c header height
      (mkBlockId height (header_block_hash header)) Hc Hmax) as Hout.
    destruct (apply_header_connected_to _ _ _ _ _) as [[r|[|e]]|]; [|exfalso|by destruct Hout|done].
    + by destruct Hout as [_ ?].
    + by destruct Hout as [Hne _].
Qed.
End header.

(** ** Instances *)

(** A block that knows its parent, and whose hash is injective. *)
Record LinkedBlock := mkLinked { lb_tag : N; lb_prev : N }.

Definition linked_hash (b : LinkedBlock) : N := Npos (encode (lb_tag b, lb_prev b)).

#[export] Instance LinkedBlock_ToBlockHash : ToBlockHash LinkedBlock := {
  to_blockhash := linked_hash;
  prev_blockhash b := Some (lb_prev b);
}.

#[export] Instance linked_hash_inj : Inj (=) (=) (to_blockhash (D:=LinkedBlock)).
Proof. intros [] [] [= Heq]. apply (inj encode) in Heq. by simplify_eq. Qed.

#[export] Instance LinkedBlock_eq_dec : EqDecision LinkedBlock.
Proof. solve_decision. Defined.

(** Equality of nodes as values: the most that pointer equality can say. *)
Fixpoint cp_same (a b : CheckPoint LinkedBlock) : bool :=
  bool_decide (cp_block_id a = cp_block_id b) && bool_decide (cp_data a = cp_data b) &&
  (cp_index a =? cp_index b) &&
  match cp_prev a, cp_prev b with
  | Some x, Some y => cp_same x y | None, None => true | _, _ => false
  end &&
  match cp_skip a, cp_skip b with
  | Some x, Some y => cp_same x y | None, None => true | _, _ => false
  end.

Lemma cp_same_sound a b : cp_same a b = true → a = b.
Proof.
  revert a b. fix IH 1. intros [ia da pa sa xa] [ib db pb sb xb]; simpl.
  rewrite !andb_true_iff, !bool_decide_eq_true, N.eqb_eq.
  intros [[[[-> ->] ->] Hp] Hs]. f_equal.
  - destruct pa, pb; try done. f_equal. by apply IH.
  - destruct sa, sb; try done. f_equal. by apply IH.
Qed.

Definition block0 : LinkedBlock := mkLinked 0 0.
Definition child (tag : N) (parent : LinkedBlock) : LinkedBlock :=
  mkLinked tag (linked_hash parent).
Definition block1 : LinkedBlock := child 1 block0.
Definition block2 : LinkedBlock := child 2 block1.
Definition block3 : LinkedBlock := child 3 block2.
Definition block3' : LinkedBlock := child 30 block2.
Definition block4' : LinkedBlock := child 40 block3'.
Definition block5 : LinkedBlock := child 5 (child 4 block3).

(** The update replaces height 3 and above; block 4 of the original is only
    named by block 5. *)
Definition old_chain : CheckPoint LinkedBlock :=
  sample_chain 0 block0 [(1, block1); (2, block2); (3, block3); (5, block5)].
Definition reorg_update : CheckPoint LinkedBlock :=
  sample_chain 2 block2 [(3, block3'); (4, block4')].
Definition full_update : CheckPoint LinkedBlock :=
  sample_chain 0 block0 [(1, block1); (2, block2); (3, block3'); (4, block4')].

Lemma old_chain_wf : cp_wf old_chain.
Proof. by apply sample_chain_wf. Qed.
Lemma reorg_update_wf : cp_wf reorg_update.
Proof. by apply sample_chain_wf. Qed.
Lemma full_update_wf : cp_wf full_update.
Proof. by apply sample_chain_wf. Qed.

Lemma coherent_check {D} `{!ToBlockHash D} (O U : CheckPoint D) :
  forallb (λ e, negb (is_placeholder e) ||
    match cp_get U (entry_height e - 1) with Some _ => false | None => true end)
    (entry_iter U) = true →
  coherent O U.
Proof.
  intros Hall k b m n d y Hp Hn _ _ _. exfalso. rewrite forallb_forall in Hall.
  apply entry_at_elem in Hp as [Hin Hh]. apply list_elem_of_In, Hall in Hin.
  rewrite Hh in Hin. replace (k + 1 - 1) with k in Hin by lia. by rewrite Hn in Hin.
Qed.

Lemma names_held_check {D} `{!ToBlockHash D} (O U : CheckPoint D) :
  forallb (λ e, negb (is_placeholder e)) (entry_iter U) = true → ¬ names_held O U.
Proof.
  intros Hall (k & b & m & d & Hp & _). rewrite forallb_forall in Hall.
  apply entry_at_elem in Hp as [Hin _]. by apply list_elem_of_In, Hall in Hin.
Qed.

Definition merge_blocks {D} (r : option (MergeResult D)) : option (list (N * D)) :=
  match r with Some (Ok (T, _)) => Some (cp_blocks T) | _ => None end.

Lemma merge_chains_correct_witness :
  merge_blocks (merge_chains cp_same old_chain reorg_update) =
    Some [(4, block4'); (3, block3'); (2, block2); (1, block1); (0, block0)] ∧
  ∃ T cs, merge_chains cp_same old_chain reorg_update = Some (Ok (T, cs)) ∧
    ∀ k, cs_apply (cp_map old_chain) cs !! k = merged old_chain reorg_update k.
Proof.
  split; [by vm_compute|].
  destruct (merge_chains_correct cp_same cp_same_sound old_chain reorg_update)
    as (r & Hr & Hres);
    [apply old_chain_wf|by eexists|apply reorg_update_wf|by apply coherent_check|].
  destruct r as [[T cs]|e]; [|by vm_compute in Hr].
  exists T, cs. split; [exact Hr|]. apply Hres.
Defined.

Lemma old_lc_wf : lc_wf (mkLocalChain old_chain).
Proof. split; [apply old_chain_wf|]. by exists block0. Qed.

Lemma apply_update_persists_witness :
  ∃ c' cs, apply_update cp_same (mkLocalChain old_chain) full_update = Some (Ok (c', cs)) ∧
    lc_apply_changeset (mkLocalChain old_chain) cs = Ok c' ∧
    cp_get (lc_tip c') 5 = None.
Proof.
  destruct (apply_update cp_same (mkLocalChain old_chain) full_update)
    as [[[c' cs]|e]|] eqn:Heq; [|by vm_compute in Heq..].
  exists c', cs. split; [done|].
  destruct (apply_update_persists cp_same cp_same_sound (mkLocalChain old_chain) full_update
    c' cs) as [_ Happ];
    [apply old_lc_wf|apply full_update_wf|by apply coherent_check|by apply names_held_check
    |exact Heq|].
  split; [exact Happ|]. vm_compute in Heq. by injection Heq as <- _.
Defined.

Lemma apply_update_self_witness :
  apply_update cp_same (mkLocalChain old_chain) old_chain =
    Some (Ok (mkLocalChain old_chain, ChangeSet_default)).
Proof. exact (apply_update_self cp_same cp_same_sound (mkLocalChain old_chain) old_lc_wf). Defined.

Lemma apply_header_correct_witness :
  ∃ r, apply_header_connected_to (λ _ _, false) (mkLocalChain hash_chain)
      (mkHeader 122 121 0) 22 (mkBlockId 20 120) = Some (Ok r) ∧
    header_applied (mkLocalChain hash_chain) (mkHeader 122 121 0) 22 (mkBlockId 20 120) r.
Proof.
  destruct (apply_header_correct (H:=SampleHeader) (λ _ _, false) ltac:(done)
    (mkLocalChain hash_chain) (mkHeader 122 121 0) 22 (mkBlockId 20 120)) as [Hout _].
  - split; [apply hash_chain_wf|]. by exists 100.
  - by vm_compute.
  - destruct (apply_header_connected_to _ _ _ _ _) as [[r|[|e]]|] eqn:Heq;
      [|by vm_compute in Heq..].
    exists r. split; [done|apply Hout].
Defined.

(** ** Two corners of the merge *)

(** The pointer shortcut can drop a block: the update names block 2 by the
    parent hash of block 3 and shares block 1 with the original; it becomes
    the new tip, without block 2, while the change set records no removal. *)
Lemma merge_shortcut_drops_named_block :
  ∃ O U T cs, cp_wf O ∧ cp_wf U ∧
    merge_chains cp_same O U = Some (Ok (T, cs)) ∧
    cp_map O !! 2 = Some block2 ∧ cp_map T !! 2 = None ∧ cs_blocks cs !! 2 = None.
Proof.
  exists (sample_chain 0 block0 [(1, block1); (2, block2)]),
    (sample_chain 0 block0 [(1, block1); (3, block3)]).
  destruct (merge_chains cp_same _ _) as [[[T cs]|e]|] eqn:Heq; [|by vm_compute in Heq..].
  exists T, cs. vm_compute in Heq. injection Heq as <- <-.
  split_and!; [by apply sample_chain_wf..|done|by vm_compute|by vm_compute|by vm_compute].
Qed.

(** An update that holds block 1 but names, two blocks up, a block of the
    original whose parent is another block 1, reaches the arm of the final
    step that the code takes to be a bug of its own. *)
Lemma merge_reaches_prev_blockhash_arm :
  let O := sample_chain 0 block0 [(1, block1); (2, block2)] in
  let U := sample_chain 0 block0 [(1, child 11 block0); (3, block3)] in
  let cs := ChangeSet_from_iter [(3, Some block3); (1, Some (child 11 block0))] in
  cp_wf O ∧ cp_wf U ∧
  merge_chains (λ _ _, false) O U = Some (merge_finish O cs) ∧
  apply_changeset_to_checkpoint O cs =
    Err (PrevBlockhashMismatch (mkBlockId 1 (linked_hash (child 11 block0)))).
Proof.
  intros O U cs. split_and!; [by apply sample_chain_wf..|by vm_compute|by vm_compute].
Qed.
