(* ===== verification/Tx.v ===== *)
(** * Transactions, as the graph sees them

    The transaction types belong to the [bitcoin] crate: they are the fields
    of the class [Bitcoin], and what the graph relies on is [BitcoinLaws].
    Also the order in which hash collections are iterated, which the standard
    library leaves open, and [crates/core/src/tx_update.rs]. *)
From S2P Require Import Prelude Block.
#[local] Open Scope N_scope.

(** ** Identifiers *)

Definition Txid : Type := N.

Record OutPoint := mkOutPoint { op_txid : Txid; op_vout : N }.

#[export] Instance OutPoint_eq_dec : EqDecision OutPoint.
Proof. solve_decision. Defined.

Definition OutPoint_key (o : OutPoint) : Txid * N := (op_txid o, op_vout o).

#[export] Instance OutPoint_countable : Countable OutPoint.
Proof.
  apply (inj_countable' OutPoint_key (λ p, mkOutPoint p.1 p.2)). by intros [].
Defined.

(** Outpoints are ordered by transaction first. *)
#[export] Instance OutPoint_ord : TotalOrd OutPoint.
Proof.
  apply (ord_by_key OutPoint_key).
  intros [] []; unfold OutPoint_key; simpl. by intros [= -> ->].
Defined.

(** ** The [bitcoin] crate *)

Class Bitcoin := {
  Transaction : Type;
  TxIn : Type;
  TxOut : Type;
  Witness : Type;
  Transaction_eq_dec :: EqDecision Transaction;
  Transaction_countable :: Countable Transaction;
  Transaction_ord :: TotalOrd Transaction;
  TxIn_eq_dec :: EqDecision TxIn;
  TxOut_eq_dec :: EqDecision TxOut;
  Witness_eq_dec :: EqDecision Witness;
  Witness_ord :: TotalOrd Witness;
  compute_txid : Transaction → Txid;
  tx_input : Transaction → list TxIn;
  tx_output : Transaction → list TxOut;
  (** [Transaction { input, ..self }]. *)
  with_input : Transaction → list TxIn → Transaction;
  is_coinbase : Transaction → bool;
  previous_output : TxIn → OutPoint;
  outpoint_is_null : OutPoint → bool;
  txin_witness : TxIn → Witness;
  (** The input with its witness cleared. *)
  txin_stripped : TxIn → TxIn;
  witness_is_empty : Witness → bool;
  witness_size : Witness → N;
  txout_value : TxOut → N;
}.

(** What the crate documents: the id of a transaction commits to its inputs
    and outputs without the witnesses. *)
Class BitcoinLaws `{Bitcoin} : Prop := {
  txid_commits_inputs : ∀ a b, compute_txid a = compute_txid b →
    txin_stripped <$> tx_input a = txin_stripped <$> tx_input b;
  txid_commits_outputs : ∀ a b, compute_txid a = compute_txid b → tx_output a = tx_output b;
  stripped_previous_output : ∀ i, previous_output (txin_stripped i) = previous_output i;
  txin_ext : ∀ i j, txin_stripped i = txin_stripped j → txin_witness i = txin_witness j → i = j;
  with_input_input : ∀ t l, tx_input (with_input t l) = l;
  with_input_txid : ∀ t l, txin_stripped <$> l = txin_stripped <$> tx_input t →
    compute_txid (with_input t l) = compute_txid t;
}.

(** The outpoints a transaction spends. *)
Definition tx_prevouts `{Bitcoin} (tx : Transaction) : list OutPoint :=
  previous_output <$> tx_input tx.

Lemma txid_prevouts `{BitcoinLaws} a b :
  compute_txid a = compute_txid b → tx_prevouts a = tx_prevouts b.
Proof.
  intros Heq%txid_commits_inputs. unfold tx_prevouts.
  apply (f_equal (fmap previous_output)) in Heq. rewrite <-!list_fmap_compose in Heq.
  rewrite !(list_fmap_ext (previous_output ∘ txin_stripped) previous_output) in Heq;
    [done|intros; apply stripped_previous_output..].
Qed.

(** ** Hash collections

    A [HashMap] is a [gmap] and a [HashSet] a [gset]; only their iteration
    order is left open. *)
Class HashOrder := {
  hash_iter : ∀ {K} `{Countable K}, gset K → list K;
  hash_map_iter : ∀ {K V} `{Countable K}, gmap K V → list (K * V);
  hash_iter_perm : ∀ {K} `{Countable K} (s : gset K), hash_iter s ≡ₚ elements s;
  hash_map_iter_perm : ∀ {K V} `{Countable K} (m : gmap K V),
    hash_map_iter m ≡ₚ map_to_list m;
}.

Section hash.
Context `{HashOrder} `{Countable K}.

Lemma elem_of_hash_iter (s : gset K) x : x ∈ hash_iter s ↔ x ∈ s.
Proof. by rewrite hash_iter_perm, elem_of_elements. Qed.

Lemma NoDup_hash_iter (s : gset K) : NoDup (hash_iter s).
Proof. rewrite hash_iter_perm. apply NoDup_elements. Qed.

Lemma elem_of_hash_map_iter {V} (m : gmap K V) k v :
  (k, v) ∈ hash_map_iter m ↔ m !! k = Some v.
Proof. by rewrite hash_map_iter_perm, elem_of_map_to_list. Qed.

Lemma NoDup_hash_map_iter {V} (m : gmap K V) : NoDup (hash_map_iter m).*1.
Proof. rewrite hash_map_iter_perm. apply NoDup_fst_map_to_list. Qed.
End hash.

(** ** [TxUpdate] *)

Record TxUpdate `{Bitcoin} (A : Type) `{Countable A} := mkTxUpdate {
  tu_txs : list Transaction;
  tu_txouts : gmap OutPoint TxOut;
  tu_anchors : gset (A * Txid);
  tu_seen_ats : gset (Txid * N);
  tu_evicted_ats : gset (Txid * N);
}.
Arguments mkTxUpdate {_ A _ _}.
Arguments tu_txs {_ A _ _}.
Arguments tu_txouts {_ A _ _}.
Arguments tu_anchors {_ A _ _}.
Arguments tu_seen_ats {_ A _ _}.
Arguments tu_evicted_ats {_ A _ _}.

Section tx_update.
Context `{Bitcoin} `{Countable A}.

Definition TxUpdate_default : TxUpdate A := mkTxUpdate [] ∅ ∅ ∅ ∅.

Definition TxUpdate_is_empty (u : TxUpdate A) : bool :=
  match tu_txs u with [] => true | _ => false end &&
  bool_decide (tu_txouts u = ∅) && bool_decide (tu_anchors u = ∅) &&
  bool_decide (tu_seen_ats u = ∅) && bool_decide (tu_evicted_ats u = ∅).

Definition TxUpdate_extend (u other : TxUpdate A) : TxUpdate A :=
  mkTxUpdate (tu_txs u ++ tu_txs other) (tu_txouts other ∪ tu_txouts u)
    (tu_anchors u ∪ tu_anchors other) (tu_seen_ats u ∪ tu_seen_ats other)
    (tu_evicted_ats u ∪ tu_evicted_ats other).
End tx_update.

(** [map_anchors]: collecting the mapped anchors into a set. *)
Definition TxUpdate_map_anchors `{Bitcoin} `{Countable A} `{Countable A2}
    (map : A → A2) (u : TxUpdate A) : TxUpdate A2 :=
  mkTxUpdate (tu_txs u) (tu_txouts u) (set_map (λ p, (map p.1, p.2)) (tu_anchors u))
    (tu_seen_ats u) (tu_evicted_ats u).
