(* ===== verification/TxGraph.v ===== *)
(** * The transaction graph

    Models [crates/chain/src/tx_graph.rs].  A method taking [&mut self]
    returns the graph it leaves behind, with the change set where the code
    returns one.  The two [empty_*] fields, which only let methods return
    references, are left out.  [debug_assert]s are not modelled: these are the
    semantics of a release build. *)
From S2P Require Import Prelude Block Tx.
#[local] Open Scope N_scope.

Section types.
Context `{Bitcoin} (A : Type) `{Countable A}.

Inductive TxNodeInternal :=
| Whole (tx : Transaction)
| Partial (txouts : gmap N TxOut).

Record TxGraph := mkTxGraph {
  txs : gmap Txid TxNodeInternal;
  spends : gmap OutPoint (gset Txid);
  anchors : gmap Txid (gset A);
  first_seen : gmap Txid N;
  last_seen : gmap Txid N;
  last_evicted : gmap Txid N;
  txs_by_highest_conf_heights : gset (N * Txid);
  txs_by_last_seen : gset (N * Txid);
}.

(** [ChangeSet<A>] of this module. *)
Record TxChangeSet := mkTxChangeSet {
  cs_txs : gset Transaction;
  cs_txouts : gmap OutPoint TxOut;
  cs_anchors : gset (A * Txid);
  cs_last_seen : gmap Txid N;
  cs_last_evicted : gmap Txid N;
  cs_first_seen : gmap Txid N;
}.

(** [TxNode] of a full transaction. *)
Record TxNode := mkTxNode {
  node_txid : Txid;
  node_tx : Transaction;
  node_anchors : gset A;
  node_first_seen : option N;
  node_last_seen : option N;
  node_last_evicted : option N;
}.
End types.

Arguments Whole {_} tx.
Arguments Partial {_} txouts.
Arguments mkTxGraph {_ A _ _}.
Arguments txs {_ A _ _}.
Arguments spends {_ A _ _}.
Arguments anchors {_ A _ _}.
Arguments first_seen {_ A _ _}.
Arguments last_seen {_ A _ _}.
Arguments last_evicted {_ A _ _}.
Arguments txs_by_highest_conf_heights {_ A _ _}.
Arguments txs_by_last_seen {_ A _ _}.
Arguments mkTxChangeSet {_ A _ _}.
Arguments cs_txs {_ A _ _}.
Arguments cs_txouts {_ A _ _}.
Arguments cs_anchors {_ A _ _}.
Arguments cs_last_seen {_ A _ _}.
Arguments cs_last_evicted {_ A _ _}.
Arguments cs_first_seen {_ A _ _}.
Arguments mkTxNode {_ A _ _}.
Arguments node_txid {_ A _ _}.
Arguments node_tx {_ A _ _}.
Arguments node_anchors {_ A _ _}.
Arguments node_first_seen {_ A _ _}.
Arguments node_last_seen {_ A _ _}.
Arguments node_last_evicted {_ A _ _}.

Section graph.
Context `{Bitcoin} {A : Type} `{Countable A} `{!TotalOrd A, !Anchor A} `{HashOrder}.
Implicit Types (g : TxGraph A) (cs : TxChangeSet A).

Definition TxGraph_default : TxGraph A := mkTxGraph ∅ ∅ ∅ ∅ ∅ ∅ ∅ ∅.
Definition TxChangeSet_default : TxChangeSet A := mkTxChangeSet ∅ ∅ ∅ ∅ ∅ ∅.
Definition TxNodeInternal_default : TxNodeInternal := Partial ∅.

(** ** Change sets *)

(** [first_seen] only decreases, [last_seen] and [last_evicted] only
    increase: the entries of [other] that pass the filter overwrite. *)
Definition is_lower (self : gmap Txid N) (p : Txid * N) : bool :=
  match self !! p.1 with Some existing => p.2 <? existing | None => true end.
Definition is_higher (self : gmap Txid N) (p : Txid * N) : bool :=
  match self !! p.1 with Some existing => existing <? p.2 | None => true end.
Definition keep_lower (self other : gmap Txid N) : gmap Txid N :=
  filter (λ p, is_lower self p = true) other ∪ self.
Definition keep_higher (self other : gmap Txid N) : gmap Txid N :=
  filter (λ p, is_higher self p = true) other ∪ self.

#[export] Instance TxChangeSet_merge : Merge (TxChangeSet A) := {
  merge_default := TxChangeSet_default;
  merge self other := {|
    cs_txs := cs_txs self ∪ cs_txs other;
    cs_txouts := cs_txouts other ∪ cs_txouts self;
    cs_anchors := cs_anchors self ∪ cs_anchors other;
    cs_first_seen := keep_lower (cs_first_seen self) (cs_first_seen other);
    cs_last_seen := keep_higher (cs_last_seen self) (cs_last_seen other);
    cs_last_evicted := keep_higher (cs_last_evicted self) (cs_last_evicted other);
  |};
  merge_is_empty self :=
    bool_decide (cs_txs self = ∅) && bool_decide (cs_txouts self = ∅) &&
    bool_decide (cs_anchors self = ∅) && bool_decide (cs_first_seen self = ∅) &&
    bool_decide (cs_last_seen self = ∅) && bool_decide (cs_last_evicted self = ∅);
}.

(** Outputs of a transaction with their outpoints. *)
Definition enumerate {X} (l : list X) : list (N * X) :=
  imap (λ i x, (N.of_nat i, x)) l.

(** [ChangeSet::txouts]. *)
Definition cs_all_txouts (cs : TxChangeSet A) : list (OutPoint * TxOut) :=
  (tx ← set_iter (cs_txs cs);
   (λ p : N * TxOut, (mkOutPoint (compute_txid tx) p.1, p.2)) <$> enumerate (tx_output tx)) ++
  map_iter (cs_txouts cs).

(** The filter of [anchor_heights], which drops repeats of the last height. *)
Fixpoint dedup_heights (dedup : option N) (l : list N) : list N :=
  match l with
  | [] => []
  | height :: l =>
      let duplicate := bool_decide (dedup = Some height) in
      if duplicate then dedup_heights (Some height) l
      else height :: dedup_heights (Some height) l
  end.

Definition anchor_heights (cs : TxChangeSet A) : list N :=
  dedup_heights None ((λ p : A * Txid, bid_height (anchor_block p.1)) <$> set_iter (cs_anchors cs)).

(** ** Reading the graph *)

(** [TxNode::is_evicted]. *)
Definition is_evicted (node : TxNode A) : bool :=
  match node_last_seen node, node_last_evicted node with
  | _, None => false
  | Some last_seen, Some last_evicted => last_seen <=? last_evicted
  | None, Some _ => true
  end.

Definition node_of g (txid : Txid) (tx : Transaction) : TxNode A := {|
  node_txid := txid;
  node_tx := tx;
  node_anchors := default ∅ (anchors g !! txid);
  node_first_seen := first_seen g !! txid;
  node_last_seen := last_seen g !! txid;
  node_last_evicted := last_evicted g !! txid;
|}.

Definition all_txouts g : list (OutPoint * TxOut) :=
  p ← hash_map_iter (txs g);
  match p.2 with
  | Whole tx => (λ q : N * TxOut, (mkOutPoint p.1 q.1, q.2)) <$> enumerate (tx_output tx)
  | Partial txouts => (λ q : N * TxOut, (mkOutPoint p.1 q.1, q.2)) <$> map_iter txouts
  end.

Definition floating_txouts g : list (OutPoint * TxOut) :=
  p ← hash_map_iter (txs g);
  match p.2 with
  | Whole _ => []
  | Partial txouts => (λ q : N * TxOut, (mkOutPoint p.1 q.1, q.2)) <$> map_iter txouts
  end.

Definition full_txs g : list (TxNode A) :=
  omap (λ p : Txid * TxNodeInternal,
    match p.2 with Whole tx => Some (node_of g p.1 tx) | Partial _ => None end)
    (hash_map_iter (txs g)).

Definition txs_with_no_anchor_or_last_seen g : list (TxNode A) :=
  filter (λ n, node_anchors n = ∅ ∧ node_last_seen n = None) (full_txs g).

Definition get_tx_node g (txid : Txid) : option (TxNode A) :=
  match txs g !! txid with
  | Some (Whole tx) => Some (node_of g txid tx)
  | _ => None
  end.

Definition get_tx g (txid : Txid) : option Transaction := node_tx <$> get_tx_node g txid.

Definition get_txout g (outpoint : OutPoint) : option TxOut :=
  match txs g !! op_txid outpoint with
  | Some (Whole tx) => tx_output tx !! N.to_nat (op_vout outpoint)
  | Some (Partial txouts) => txouts !! op_vout outpoint
  | None => None
  end.

Definition tx_outputs g (txid : Txid) : option (gmap N TxOut) :=
  match txs g !! txid with
  | Some (Whole tx) => Some (list_to_map (enumerate (tx_output tx)))
  | Some (Partial txouts) => Some txouts
  | None => None
  end.

Definition outspends g (outpoint : OutPoint) : gset Txid := default ∅ (spends g !! outpoint).

(** The entries of [spends] in [OutPoint(txid, 0)..=OutPoint(txid, u32::MAX)],
    in ascending order. *)
Definition spends_range g (txid : Txid) : list (OutPoint * gset Txid) :=
  filter (λ p, tle (mkOutPoint txid 0) p.1 ∧ tle p.1 (mkOutPoint txid U32_MAX))
    (map_iter (spends g)).

Definition tx_spends g (txid : Txid) : list (N * gset Txid) :=
  (λ p : OutPoint * gset Txid, (op_vout p.1, p.2)) <$> spends_range g txid.

Definition direct_conflicts g (tx : Transaction) : list (N * Txid) :=
  let txid := compute_txid tx in
  filter (λ p, p.2 ≠ txid)
    (p ← enumerate (tx_input tx);
     match spends g !! previous_output p.2 with
     | Some spends => (λ t, (p.1, t)) <$> hash_iter spends
     | None => []
     end).

Definition all_anchors g : gmap Txid (gset A) := anchors g.
Definition TxGraph_is_empty g : bool := bool_decide (txs g = ∅).

Definition txids_by_descending_anchor_height g : list (N * Txid) :=
  reverse (set_iter (txs_by_highest_conf_heights g)).

Definition txids_by_descending_last_seen g : list (N * Txid) :=
  filter (λ p : N * Txid, match last_evicted g !! p.2 with
            | Some last_evicted => last_evicted <? p.1
            | None => true
            end = true)
    (reverse (set_iter (txs_by_last_seen g))).

(** ** Fees

    A [SignedAmount] has 64 bits.  [None] stands for leaving that range:
    [expect("valid `SignedAmount`")] panics on a value above it, and what the
    sums of the [bitcoin] crate do there is not modelled. *)

Inductive CalculateFeeError :=
| MissingTxOut (outpoints : list OutPoint)
| NegativeFee (fee : Z).

Definition I64_MAX : Z := 9223372036854775807.
Definition I64_MIN : Z := -9223372036854775808.

Definition checked_i64 (z : Z) : option Z :=
  if ((I64_MIN <=? z) && (z <=? I64_MAX))%Z then Some z else None.

(** [Amount::to_signed]. *)
Definition to_signed (value : N) : option Z :=
  if (Z.of_N value <=? I64_MAX)%Z then Some (Z.of_N value) else None.

Fixpoint fold_inputs g (inputs : list TxIn) (sum : Z) (missing_outpoints : list OutPoint) :
    option (Z * list OutPoint) :=
  match inputs with
  | [] => Some (sum, missing_outpoints)
  | txin :: inputs =>
      match get_txout g (previous_output txin) with
      | None => fold_inputs g inputs sum (missing_outpoints ++ [previous_output txin])
      | Some txout =>
          value ← to_signed (txout_value txout);
          sum ← checked_i64 (sum + value)%Z;
          fold_inputs g inputs sum missing_outpoints
      end
  end.

Fixpoint sum_outputs (outputs : list TxOut) (sum : Z) : option Z :=
  match outputs with
  | [] => Some sum
  | txout :: outputs =>
      value ← to_signed (txout_value txout);
      sum ← checked_i64 (sum + value)%Z;
      sum_outputs outputs sum
  end.

Definition calculate_fee g (tx : Transaction) : option (result CalculateFeeError N) :=
  if is_coinbase tx then Some (Ok 0)
  else
    '(inputs_sum, missing_outputs) ← fold_inputs g (tx_input tx) 0%Z [];
    match missing_outputs with
    | _ :: _ => Some (Err (MissingTxOut missing_outputs))
    | [] =>
        outputs_sum ← sum_outputs (tx_output tx) 0%Z;
        fee ← checked_i64 (inputs_sum - outputs_sum)%Z;
        Some (if (fee <? 0)%Z then Err (NegativeFee fee) else Ok (Z.to_N fee))
    end.

(** ** Inserting *)

Definition insert_txout g (outpoint : OutPoint) (txout : TxOut) : TxGraph A * TxChangeSet A :=
  let tx_node := default TxNodeInternal_default (txs g !! op_txid outpoint) in
  let with_node node :=
    mkTxGraph (<[op_txid outpoint := node]> (txs g)) (spends g) (anchors g) (first_seen g)
      (last_seen g) (last_evicted g) (txs_by_highest_conf_heights g) (txs_by_last_seen g) in
  match tx_node with
  | Whole _ => (with_node tx_node, TxChangeSet_default)
  | Partial partial_tx =>
      (with_node (Partial (<[op_vout outpoint := txout]> partial_tx)),
       match partial_tx !! op_vout outpoint with
       | Some _ => TxChangeSet_default
       | None => mkTxChangeSet ∅ {[outpoint := txout]} ∅ ∅ ∅ ∅
       end)
  end.

(** The key by which two witnesses of the same input are compared; the code
    wraps it in [Reverse]. *)
Definition witness_key (txin : TxIn) : N * (N * Witness) :=
  (if witness_is_empty (txin_witness txin) then 1 else 0,
   (witness_size (txin_witness txin), txin_witness txin)).

Definition merge_txin (original_txin other_txin : TxIn) : TxIn :=
  if decide (tlt (witness_key original_txin) (witness_key other_txin))
  then original_txin else other_txin.

Definition merge_tx_witnesses (original_tx other_tx : Transaction) : option Transaction :=
  let merged_input := zip_with merge_txin (tx_input original_tx) (tx_input other_tx) in
  if decide (merged_input = tx_input original_tx) then None
  else if decide (merged_input = tx_input other_tx) then Some other_tx
  else Some (with_input original_tx merged_input).

(** The loop over the inputs of a new transaction. *)
Definition add_spend (txid : Txid) (spends : gmap OutPoint (gset Txid)) (txin : TxIn) :
    gmap OutPoint (gset Txid) :=
  if outpoint_is_null (previous_output txin) then spends
  else <[previous_output txin := {[txid]} ∪ default ∅ (spends !! previous_output txin)]> spends.

Definition insert_tx g (tx : Transaction) : TxGraph A * TxChangeSet A :=
  let txid := compute_txid tx in
  let with_node node spends :=
    mkTxGraph (<[txid := node]> (txs g)) spends (anchors g) (first_seen g)
      (last_seen g) (last_evicted g) (txs_by_highest_conf_heights g) (txs_by_last_seen g) in
  match default TxNodeInternal_default (txs g !! txid) with
  | Whole existing_tx =>
      if decide (existing_tx = tx) then (g, TxChangeSet_default)
      else match merge_tx_witnesses existing_tx tx with
           | Some merged_tx =>
               (with_node (Whole merged_tx) (spends g), mkTxChangeSet {[merged_tx]} ∅ ∅ ∅ ∅ ∅)
           | None => (g, TxChangeSet_default)
           end
  | Partial _ =>
      (with_node (Whole tx) (foldl (add_spend txid) (spends g) (tx_input tx)),
       mkTxChangeSet {[tx]} ∅ ∅ ∅ ∅ ∅)
  end.

Definition insert_anchor g (txid : Txid) (anchor : A) : TxGraph A * TxChangeSet A :=
  let old_anchors := anchors g !! txid in
  let old_top_h := confirmation_height_upper_bound <$> (old_anchors ≫= set_last) in
  let new_top_h :=
    match old_top_h with
    | Some old_top_h =>
        if confirmation_height_upper_bound anchor <? old_top_h
        then old_top_h else confirmation_height_upper_bound anchor
    | None => confirmation_height_upper_bound anchor
    end in
  let is_changed :=
    match old_anchors with Some s => bool_decide (anchor ∉ s) | None => true end in
  let new_anchors := <[txid := {[anchor]} ∪ default ∅ old_anchors]> (anchors g) in
  if is_changed then
    let new_top_is_changed :=
      match old_top_h with None => true | Some old_top_h => negb (old_top_h =? new_top_h) end in
    let conf_heights :=
      if new_top_is_changed then
        {[(new_top_h, txid)]} ∪
        match old_top_h with
        | Some prev_top_h => txs_by_highest_conf_heights g ∖ {[(prev_top_h, txid)]}
        | None => txs_by_highest_conf_heights g
        end
      else txs_by_highest_conf_heights g in
    (mkTxGraph (txs g) (spends g) new_anchors (first_seen g) (last_seen g) (last_evicted g)
       conf_heights (txs_by_last_seen g),
     mkTxChangeSet ∅ ∅ {[(anchor, txid)]} ∅ ∅ ∅)
  else
    (mkTxGraph (txs g) (spends g) new_anchors (first_seen g) (last_seen g) (last_evicted g)
       (txs_by_highest_conf_heights g) (txs_by_last_seen g),
     TxChangeSet_default).

Definition update_first_seen g (txid : Txid) (seen_at : N) : TxGraph A * TxChangeSet A :=
  let is_changed :=
    match first_seen g !! txid with Some first_seen => seen_at <? first_seen | None => true end in
  if is_changed then
    (mkTxGraph (txs g) (spends g) (anchors g) (<[txid := seen_at]> (first_seen g)) (last_seen g)
       (last_evicted g) (txs_by_highest_conf_heights g) (txs_by_last_seen g),
     mkTxChangeSet ∅ ∅ ∅ ∅ ∅ {[txid := seen_at]})
  else (g, TxChangeSet_default).

Definition update_last_seen g (txid : Txid) (seen_at : N) : TxGraph A * TxChangeSet A :=
  let old_last_seen := last_seen g !! txid in
  let is_changed :=
    match old_last_seen with Some last_seen => last_seen <? seen_at | None => true end in
  if is_changed then
    (mkTxGraph (txs g) (spends g) (anchors g) (first_seen g) (<[txid := seen_at]> (last_seen g))
       (last_evicted g) (txs_by_highest_conf_heights g)
       ({[(seen_at, txid)]} ∪
        match old_last_seen with
        | Some old_last_seen => txs_by_last_seen g ∖ {[(old_last_seen, txid)]}
        | None => txs_by_last_seen g
        end),
     mkTxChangeSet ∅ ∅ ∅ {[txid := seen_at]} ∅ ∅)
  else (g, TxChangeSet_default).

Definition insert_seen_at g (txid : Txid) (seen_at : N) : TxGraph A * TxChangeSet A :=
  let '(g, changeset_first_seen) := update_first_seen g txid seen_at in
  let '(g, changeset_last_seen) := update_last_seen g txid seen_at in
  (g, merge changeset_first_seen changeset_last_seen).

Definition insert_evicted_at g (txid : Txid) (evicted_at : N) : TxGraph A * TxChangeSet A :=
  let is_changed :=
    match last_evicted g !! txid with
    | Some last_evicted => last_evicted <? evicted_at
    | None => true
    end in
  if is_changed then
    (mkTxGraph (txs g) (spends g) (anchors g) (first_seen g) (last_seen g)
       (<[txid := evicted_at]> (last_evicted g)) (txs_by_highest_conf_heights g)
       (txs_by_last_seen g),
     mkTxChangeSet ∅ ∅ ∅ ∅ {[txid := evicted_at]} ∅)
  else (g, TxChangeSet_default).

(** ** Batches *)

(** Runs an operation on each item, merging the change sets. *)
Definition insert_all {X} (op : TxGraph A → X → TxGraph A * TxChangeSet A)
    (l : list X) (acc : TxGraph A * TxChangeSet A) : TxGraph A * TxChangeSet A :=
  foldl (λ acc x, let '(g, cs) := op acc.1 x in (g, merge acc.2 cs)) acc l.

Definition batch_insert_unconfirmed g (l : list (Transaction * N)) : TxGraph A * TxChangeSet A :=
  foldl (λ acc p,
    let '(g, cs1) := insert_seen_at acc.1 (compute_txid p.1) p.2 in
    let '(g, cs2) := insert_tx g p.1 in
    (g, merge (merge acc.2 cs1) cs2)) (g, TxChangeSet_default) l.

Definition batch_insert_relevant_evicted_at g (l : list (Txid * N)) :
    TxGraph A * TxChangeSet A :=
  foldl (λ acc p,
    match txs acc.1 !! p.1 with
    | Some _ => let '(g, cs) := insert_evicted_at acc.1 p.1 p.2 in (g, merge acc.2 cs)
    | None => acc
    end) (g, TxChangeSet_default) l.

Definition TxGraph_new (l : list Transaction) : TxGraph A :=
  foldl (λ g tx, (insert_tx g tx).1) TxGraph_default l.

Definition graph_apply_update g (update : TxUpdate A) : TxGraph A * TxChangeSet A :=
  let acc := (g, TxChangeSet_default) in
  let acc := insert_all insert_tx (tu_txs update) acc in
  let acc := insert_all (λ g p, insert_txout g p.1 p.2) (map_iter (tu_txouts update)) acc in
  let acc := insert_all (λ g p, insert_anchor g p.2 p.1) (set_iter (tu_anchors update)) acc in
  let acc := insert_all (λ g p, insert_seen_at g p.1 p.2) (hash_iter (tu_seen_ats update)) acc in
  insert_all (λ g p, insert_evicted_at g p.1 p.2) (hash_iter (tu_evicted_ats update)) acc.

Definition graph_initial_changeset g : TxChangeSet A := {|
  cs_txs := list_to_set (node_tx <$> full_txs g);
  cs_txouts := list_to_map (floating_txouts g);
  cs_anchors := list_to_set
    (p ← hash_map_iter (anchors g); (λ a, (a, p.1)) <$> set_iter p.2);
  cs_first_seen := list_to_map (hash_map_iter (first_seen g));
  cs_last_seen := list_to_map (hash_map_iter (last_seen g));
  cs_last_evicted := list_to_map (hash_map_iter (last_evicted g));
|}.

Definition graph_apply_changeset g (changeset : TxChangeSet A) : TxGraph A :=
  let g := foldl (λ g tx, (insert_tx g tx).1) g (set_iter (cs_txs changeset)) in
  let g := foldl (λ g p, (insert_txout g p.1 p.2).1) g (map_iter (cs_txouts changeset)) in
  let g := foldl (λ g p, (insert_anchor g p.2 p.1).1) g (set_iter (cs_anchors changeset)) in
  let g := foldl (λ g p, (insert_seen_at g p.1 p.2).1) g (map_iter (cs_last_seen changeset)) in
  foldl (λ g p, (insert_evicted_at g p.1 p.2).1) g (map_iter (cs_last_evicted changeset)).

Definition graph_from_changeset (changeset : TxChangeSet A) : TxGraph A :=
  graph_apply_changeset TxGraph_default changeset.

(** [From<TxGraph<A>> for TxUpdate<A>] and back. *)
Definition update_of_graph g : TxUpdate A := {|
  tu_txs := node_tx <$> full_txs g;
  tu_txouts := list_to_map (floating_txouts g);
  tu_anchors := list_to_set
    (p ← hash_map_iter (anchors g); (λ a, (a, p.1)) <$> set_iter p.2);
  tu_seen_ats := list_to_set (hash_map_iter (last_seen g));
  tu_evicted_ats := list_to_set (hash_map_iter (last_evicted g));
|}.

Definition graph_of_update (update : TxUpdate A) : TxGraph A :=
  (graph_apply_update TxGraph_default update).1.
End graph.

(** [map_anchors], of change sets and of graphs. *)
Section map_anchors.
Context `{Bitcoin} {A A2 : Type} `{Countable A, Countable A2}.
Context `{!TotalOrd A, !TotalOrd A2, !Anchor A2} `{HashOrder}.

Definition cs_map_anchors (f : A → A2) (cs : TxChangeSet A) : TxChangeSet A2 := {|
  cs_txs := cs_txs cs;
  cs_txouts := cs_txouts cs;
  cs_anchors := list_to_set ((λ p : A * Txid, (f p.1, p.2)) <$> set_iter (cs_anchors cs));
  cs_first_seen := cs_first_seen cs;
  cs_last_seen := cs_last_seen cs;
  cs_last_evicted := cs_last_evicted cs;
|}.

Definition map_anchors (f : A → A2) (g : TxGraph A) : TxGraph A2 :=
  graph_apply_changeset TxGraph_default (cs_map_anchors f (graph_initial_changeset g)).
End map_anchors.
