(* ===== verification/TxGraphFacts.v ===== *)
(** * Theory of the transaction graph

    What each operation does to each field, the invariant the operations
    maintain, and the determination of the indices by the primary data. *)
From S2P Require Import Prelude Block Tx TxGraph.
#[local] Open Scope N_scope.

(** ** Sets with a greatest element *)

Section set_last.
Context `{TotalOrd K, EqDecision K, !Countable K}.

Lemma set_last_is_Some (s : gset K) : s ≠ ∅ → is_Some (set_last s).
Proof.
  intros Hs. unfold set_last. destruct (last (set_iter s)) as [x|] eqn:Hl; [by eexists|].
  apply last_None, set_iter_nil in Hl. done.
Qed.

Lemma set_last_empty : set_last (∅ : gset K) = None.
Proof. unfold set_last. by rewrite (proj2 (set_iter_nil ∅)). Qed.

(** The greatest element after inserting [x]. *)
Lemma set_last_insert (s : gset K) x :
  set_last ({[x]} ∪ s) =
    Some (match set_last s with Some y => if decide (tle x y) then y else x | None => x end).
Proof.
  apply set_last_spec. destruct (set_last s) as [y|] eqn:Hy.
  - apply set_last_spec in Hy as [Hy Hmax]. destruct (decide (tle x y)) as [Hxy|Hxy].
    + split; [set_solver|]. intros z [->%elem_of_singleton|Hz]%elem_of_union; auto.
    + split; [set_solver|]. intros z [->%elem_of_singleton|Hz]%elem_of_union; [done|].
      etrans; [by apply Hmax|]. by destruct (total tle x y).
  - assert (s = ∅) as ->.
    { destruct (decide (s = ∅)) as [|Hne]; [done|].
      apply set_last_is_Some in Hne as [? ?]. congruence. }
    split; [set_solver|]. intros z Hz. by assert (z = x) as -> by set_solver.
Qed.
End set_last.

(** ** Joins of optional timestamps *)

Definition opt_max (o : option N) (n : N) : N := match o with Some m => N.max m n | None => n end.
Definition opt_min (o : option N) (n : N) : N := match o with Some m => N.min m n | None => n end.

Section facts.
Context `{Bitcoin} {A : Type} `{Countable A} `{!TotalOrd A, !Anchor A} `{HashOrder}.
Implicit Types (g : TxGraph A) (cs : TxChangeSet A).

(** ** The effect of each operation, field by field *)

Definition node_insert_tx (node : option TxNodeInternal) (tx : Transaction) : Transaction :=
  match node with
  | Some (Whole existing_tx) => default existing_tx (merge_tx_witnesses existing_tx tx)
  | _ => tx
  end.

Lemma zip_merge_refl (l : list TxIn) : zip_with merge_txin l l = l.
Proof.
  induction l as [|i l IH]; simpl; [done|]. rewrite IH. f_equal.
  unfold merge_txin. by destruct (decide _).
Qed.

Lemma merge_tx_witnesses_refl tx : merge_tx_witnesses tx tx = None.
Proof. unfold merge_tx_witnesses. rewrite zip_merge_refl. by rewrite decide_True. Qed.

Lemma insert_tx_txs g tx :
  txs (insert_tx g tx).1 =
    <[compute_txid tx := Whole (node_insert_tx (txs g !! compute_txid tx) tx)]> (txs g).
Proof.
  unfold insert_tx, node_insert_tx.
  destruct (txs g !! compute_txid tx) as [[e|m]|] eqn:Hn; simpl; [|done..].
  destruct (decide (e = tx)) as [->|Hne]; simpl.
  - rewrite merge_tx_witnesses_refl. simpl. by rewrite insert_id.
  - destruct (merge_tx_witnesses e tx) as [m|]; simpl; [done|]. by rewrite insert_id.
Qed.

Lemma insert_tx_spends g tx :
  spends (insert_tx g tx).1 =
    match txs g !! compute_txid tx with
    | Some (Whole _) => spends g
    | _ => foldl (add_spend (compute_txid tx)) (spends g) (tx_input tx)
    end.
Proof.
  unfold insert_tx. destruct (txs g !! compute_txid tx) as [[e|m]|]; simpl; [|done..].
  destruct (decide (e = tx)); [done|]. by destruct (merge_tx_witnesses e tx).
Qed.

Lemma insert_tx_rest g tx :
  let g' := (insert_tx g tx).1 in
  anchors g' = anchors g ∧ first_seen g' = first_seen g ∧ last_seen g' = last_seen g ∧
  last_evicted g' = last_evicted g ∧
  txs_by_highest_conf_heights g' = txs_by_highest_conf_heights g ∧
  txs_by_last_seen g' = txs_by_last_seen g.
Proof.
  unfold insert_tx. destruct (default _ _) as [e|m]; simpl; [|done].
  destruct (decide (e = tx)); [done|]. by destruct (merge_tx_witnesses e tx).
Qed.

Definition node_insert_txout (node : option TxNodeInternal) (vout : N) (txout : TxOut) :
    TxNodeInternal :=
  match node with
  | Some (Whole tx) => Whole tx
  | Some (Partial m) => Partial (<[vout := txout]> m)
  | None => Partial {[vout := txout]}
  end.

Lemma insert_txout_txs g op txout :
  txs (insert_txout g op txout).1 =
    <[op_txid op := node_insert_txout (txs g !! op_txid op) (op_vout op) txout]> (txs g).
Proof. unfold insert_txout. by destruct (txs g !! op_txid op) as [[]|]. Qed.

Lemma insert_txout_rest g op txout :
  let g' := (insert_txout g op txout).1 in
  spends g' = spends g ∧ anchors g' = anchors g ∧ first_seen g' = first_seen g ∧
  last_seen g' = last_seen g ∧ last_evicted g' = last_evicted g ∧
  txs_by_highest_conf_heights g' = txs_by_highest_conf_heights g ∧
  txs_by_last_seen g' = txs_by_last_seen g.
Proof. unfold insert_txout. by destruct (default _ _). Qed.

Lemma insert_anchor_anchors g txid a :
  anchors (insert_anchor g txid a).1 =
    <[txid := {[a]} ∪ default ∅ (anchors g !! txid)]> (anchors g).
Proof. unfold insert_anchor. by destruct (match anchors g !! txid with Some _ => _ | _ => _ end). Qed.

Lemma insert_anchor_rest g txid a :
  let g' := (insert_anchor g txid a).1 in
  txs g' = txs g ∧ spends g' = spends g ∧ first_seen g' = first_seen g ∧
  last_seen g' = last_seen g ∧ last_evicted g' = last_evicted g ∧
  txs_by_last_seen g' = txs_by_last_seen g.
Proof. unfold insert_anchor. by destruct (match anchors g !! txid with Some _ => _ | _ => _ end). Qed.

Lemma insert_seen_at_fst g txid t :
  (insert_seen_at g txid t).1 = (update_last_seen (update_first_seen g txid t).1 txid t).1.
Proof.
  unfold insert_seen_at. destruct (update_first_seen g txid t) as [g1 cs1]; simpl.
  by destruct (update_last_seen g1 txid t).
Qed.

Lemma update_first_seen_fields g txid t :
  let g' := (update_first_seen g txid t).1 in
  first_seen g' = <[txid := opt_min (first_seen g !! txid) t]> (first_seen g) ∧
  txs g' = txs g ∧ spends g' = spends g ∧ anchors g' = anchors g ∧ last_seen g' = last_seen g ∧
  last_evicted g' = last_evicted g ∧
  txs_by_highest_conf_heights g' = txs_by_highest_conf_heights g ∧
  txs_by_last_seen g' = txs_by_last_seen g.
Proof.
  unfold update_first_seen, opt_min.
  destruct (first_seen g !! txid) as [f|] eqn:Hf; simpl; [|done].
  destruct (N.ltb_spec t f); simpl; [by rewrite N.min_r by lia|].
  by rewrite N.min_l, insert_id by (done || lia).
Qed.

Lemma update_last_seen_fields g txid t :
  let g' := (update_last_seen g txid t).1 in
  last_seen g' = <[txid := opt_max (last_seen g !! txid) t]> (last_seen g) ∧
  txs g' = txs g ∧ spends g' = spends g ∧ anchors g' = anchors g ∧
  first_seen g' = first_seen g ∧ last_evicted g' = last_evicted g ∧
  txs_by_highest_conf_heights g' = txs_by_highest_conf_heights g.
Proof.
  unfold update_last_seen, opt_max.
  destruct (last_seen g !! txid) as [l|] eqn:Hl; simpl; [|done].
  destruct (N.ltb_spec l t); simpl; [by rewrite N.max_r by lia|].
  by rewrite N.max_l, insert_id by (done || lia).
Qed.

Lemma insert_seen_at_fields g txid t :
  let g' := (insert_seen_at g txid t).1 in
  first_seen g' = <[txid := opt_min (first_seen g !! txid) t]> (first_seen g) ∧
  last_seen g' = <[txid := opt_max (last_seen g !! txid) t]> (last_seen g) ∧
  txs g' = txs g ∧ spends g' = spends g ∧ anchors g' = anchors g ∧
  last_evicted g' = last_evicted g ∧
  txs_by_highest_conf_heights g' = txs_by_highest_conf_heights g.
Proof.
  rewrite insert_seen_at_fst. cbv zeta.
  destruct (update_first_seen_fields g txid t) as (F1 & F2 & F3 & F4 & F5 & F6 & F7 & F8).
  destruct (update_last_seen_fields (update_first_seen g txid t).1 txid t)
    as (L1 & L2 & L3 & L4 & L5 & L6 & L7). rewrite L1, L2, L3, L4, L5, L6, L7, F5. by split_and!.
Qed.

Lemma insert_evicted_at_fields g txid t :
  let g' := (insert_evicted_at g txid t).1 in
  last_evicted g' = <[txid := opt_max (last_evicted g !! txid) t]> (last_evicted g) ∧
  txs g' = txs g ∧ spends g' = spends g ∧ anchors g' = anchors g ∧
  first_seen g' = first_seen g ∧ last_seen g' = last_seen g ∧
  txs_by_highest_conf_heights g' = txs_by_highest_conf_heights g ∧
  txs_by_last_seen g' = txs_by_last_seen g.
Proof.
  unfold insert_evicted_at, opt_max.
  destruct (last_evicted g !! txid) as [l|] eqn:Hl; simpl; [|done].
  destruct (N.ltb_spec l t); simpl; [by rewrite N.max_r by lia|].
  by rewrite N.max_l, insert_id by (done || lia).
Qed.

(** ** The invariant *)

(** The outpoints a graph records as spent by a transaction. *)
Definition spends_of (tx : Transaction) (op : OutPoint) : Prop :=
  op ∈ tx_prevouts tx ∧ outpoint_is_null op = false.

(** Transactions are filed under their id; a partial one holds some output;
    [spends] is the inverse of the inputs of the whole transactions; and the
    two indices hold exactly the upper bound of the highest anchor, and the
    last-seen time, of every transaction that has one. *)
Record graph_wf g : Prop := {
  wf_txid : ∀ txid tx, txs g !! txid = Some (Whole tx) → compute_txid tx = txid;
  wf_partial : ∀ txid m, txs g !! txid = Some (Partial m) → m ≠ ∅;
  wf_spends : ∀ op txid, txid ∈ outspends g op ↔
    ∃ tx, txs g !! txid = Some (Whole tx) ∧ spends_of tx op;
  wf_spends_nonempty : ∀ op s, spends g !! op = Some s → s ≠ ∅;
  wf_anchors : ∀ txid s, anchors g !! txid = Some s → s ≠ ∅;
  wf_conf_heights : ∀ h txid, (h, txid) ∈ txs_by_highest_conf_heights g ↔
    ∃ s a, anchors g !! txid = Some s ∧ set_last s = Some a ∧
      confirmation_height_upper_bound a = h;
  wf_last_seen : ∀ t txid, (t, txid) ∈ txs_by_last_seen g ↔ last_seen g !! txid = Some t;
}.

Lemma graph_wf_default : graph_wf TxGraph_default.
Proof.
  split; simpl; try done.
  - intros op txid. unfold outspends. simpl. split; [set_solver|]. by intros (tx & ? & _).
  - intros h txid. split; [set_solver|]. by intros (s & a & ? & _).
Qed.

(** The indices are determined by the primary data. *)
Lemma graph_ext g g' :
  graph_wf g → graph_wf g' →
  txs g = txs g' → anchors g = anchors g' → first_seen g = first_seen g' →
  last_seen g = last_seen g' → last_evicted g = last_evicted g' → g = g'.
Proof.
  intros Hg Hg' Ht Ha Hf Hl He.
  assert (spends g = spends g') as Hs.
  { apply map_eq. intros op.
    assert (outspends g op = outspends g' op) as Ho.
    { apply leibniz_equiv. intros x. by rewrite (wf_spends g Hg), (wf_spends g' Hg'), Ht. }
    unfold outspends in Ho.
    destruct (spends g !! op) as [s|] eqn:E, (spends g' !! op) as [s'|] eqn:E'; simpl in Ho;
      subst; [done| | |done].
    - by apply (wf_spends_nonempty g Hg) in E.
    - by apply (wf_spends_nonempty g' Hg') in E'. }
  assert (txs_by_highest_conf_heights g = txs_by_highest_conf_heights g') as Hc.
  { apply leibniz_equiv. intros [h txid].
    by rewrite (wf_conf_heights g Hg), (wf_conf_heights g' Hg'), Ha. }
  assert (txs_by_last_seen g = txs_by_last_seen g') as Hb.
  { apply leibniz_equiv. intros [t txid].
    by rewrite (wf_last_seen g Hg), (wf_last_seen g' Hg'), Hl. }
  destruct g, g'; simpl in *; by subst.
Qed.

(** ** Preservation *)

Context `{!BitcoinLaws, !AnchorLaws A}.

Lemma foldl_add_spend txid (l : list TxIn) (m : gmap OutPoint (gset Txid)) op x :
  x ∈ default ∅ (foldl (add_spend txid) m l !! op) ↔
  x ∈ default ∅ (m !! op) ∨
    (x = txid ∧ op ∈ previous_output <$> l ∧ outpoint_is_null op = false).
Proof.
  revert m. induction l as [|i l IH]; intros m; simpl.
  { split; [auto|]. by intros [?|(_ & ?%elem_of_nil & _)]. }
  rewrite IH, elem_of_cons. unfold add_spend.
  destruct (outpoint_is_null (previous_output i)) eqn:Hnull.
  - split; [tauto|]. intros [?|(-> & [->|?] & Hn)]; [tauto|congruence|tauto].
  - rewrite lookup_insert. destruct (decide (previous_output i = op)) as [<-|Hne]; simpl.
    + rewrite elem_of_union, elem_of_singleton. tauto.
    + split; [tauto|]. intros [?|(-> & [->|?] & Hn)]; tauto.
Qed.

Lemma foldl_add_spend_nonempty txid (l : list TxIn) (m : gmap OutPoint (gset Txid)) :
  (∀ op s, m !! op = Some s → s ≠ ∅) →
  ∀ op s, foldl (add_spend txid) m l !! op = Some s → s ≠ ∅.
Proof.
  revert m. induction l as [|i l IH]; intros m Hm; simpl; [done|].
  apply IH. intros op s. unfold add_spend.
  destruct (outpoint_is_null (previous_output i)); [apply Hm|].
  rewrite lookup_insert. destruct (decide _); [|apply Hm]. intros [= <-]. set_solver.
Qed.

(** Merging witnesses keeps the id and the spends. *)
Lemma merge_inputs_stripped (l k : list TxIn) :
  txin_stripped <$> l = txin_stripped <$> k →
  txin_stripped <$> zip_with merge_txin l k = txin_stripped <$> l.
Proof.
  revert k. induction l as [|i l IH]; intros [|j k]; simpl; try done.
  intros [= Hij Hlk]. rewrite IH by done. f_equal.
  unfold merge_txin. by destruct (decide _).
Qed.

Lemma merge_tx_witnesses_txid a b m :
  compute_txid a = compute_txid b → merge_tx_witnesses a b = Some m →
  compute_txid m = compute_txid a.
Proof.
  intros Heq. unfold merge_tx_witnesses. destruct (decide _); [done|].
  destruct (decide _); [by intros [= <-]|]. intros [= <-].
  apply with_input_txid. apply merge_inputs_stripped. by apply txid_commits_inputs.
Qed.

Lemma node_insert_tx_txid g tx :
  graph_wf g →
  compute_txid (node_insert_tx (txs g !! compute_txid tx) tx) = compute_txid tx.
Proof.
  intros Hg. destruct (txs g !! compute_txid tx) as [[e|m]|] eqn:Hn; simpl; [|done..].
  pose proof (wf_txid g Hg _ _ Hn) as He.
  destruct (merge_tx_witnesses e tx) as [m|] eqn:Hm; simpl; [|done].
  apply merge_tx_witnesses_txid in Hm; congruence.
Qed.

Lemma insert_tx_wf g tx : graph_wf g → graph_wf (insert_tx g tx).1.
Proof.
  intros Hg. destruct (insert_tx_rest g tx) as (Ha & Hf & Hl & He & Hc & Hb).
  pose proof (node_insert_tx_txid g tx Hg) as Hid.
  split; rewrite ?Ha, ?Hl, ?Hc, ?Hb, ?insert_tx_txs; try apply Hg.
  - intros txid x. rewrite lookup_insert. destruct (decide _) as [<-|]; [|apply Hg].
    by intros [= <-].
  - intros txid m. rewrite lookup_insert. destruct (decide _); [done|apply Hg].
  - intros op txid. unfold outspends. rewrite insert_tx_spends, lookup_insert.
    destruct (txs g !! compute_txid tx) as [[e|m]|] eqn:Hn;
      [|rewrite foldl_add_spend; change (default ∅ (spends g !! op)) with (outspends g op)..].
    + change (default ∅ (spends g !! op)) with (outspends g op). rewrite (wf_spends g Hg).
      destruct (decide (compute_txid tx = txid)) as [<-|]; [|done].
      assert (tx_prevouts (node_insert_tx (Some (Whole e)) tx) = tx_prevouts e) as Hp.
      { apply txid_prevouts. rewrite Hid. symmetry. by apply (wf_txid g Hg). }
      unfold spends_of. split.
      * intros (x & Hx & Hop). eexists. split; [done|]. rewrite Hp.
        by assert (x = e) as -> by congruence.
      * intros (x & [= <-] & Hop). exists e. by rewrite <-Hp.
    + rewrite (wf_spends g Hg). simpl. destruct (decide (compute_txid tx = txid)) as [<-|].
      * rewrite Hn. unfold spends_of, tx_prevouts. naive_solver.
      * naive_solver.
    + rewrite (wf_spends g Hg). simpl. destruct (decide (compute_txid tx = txid)) as [<-|].
      * rewrite Hn. unfold spends_of, tx_prevouts. naive_solver.
      * naive_solver.
  - rewrite insert_tx_spends. destruct (txs g !! compute_txid tx) as [[e|m]|];
      [apply Hg|apply foldl_add_spend_nonempty, Hg..].
Qed.

Lemma insert_txout_wf g op txout : graph_wf g → graph_wf (insert_txout g op txout).1.
Proof.
  intros Hg. destruct (insert_txout_rest g op txout) as (Hs & Ha & Hf & Hl & He & Hc & Hb).
  split; rewrite ?Ha, ?Hl, ?Hc, ?Hb, ?Hs, ?insert_txout_txs; try apply Hg.
  - intros txid x. rewrite lookup_insert. destruct (decide _) as [<-|]; [|apply Hg].
    destruct (txs g !! op_txid op) as [[e|m]|] eqn:Hn; simpl; try done.
    intros [= <-]. by apply (wf_txid g Hg).
  - intros txid m. rewrite lookup_insert. destruct (decide _); [|apply Hg].
    destruct (txs g !! op_txid op) as [[w|m']|]; simpl; try done; intros [= <-].
    + apply insert_non_empty.
    + apply map_non_empty_singleton.
  - intros op' txid. unfold outspends. rewrite Hs.
    change (default ∅ (spends g !! op')) with (outspends g op'). rewrite (wf_spends g Hg).
    rewrite lookup_insert. destruct (decide _) as [<-|]; [|done].
    destruct (txs g !! op_txid op) as [[w|m']|]; simpl; naive_solver.
Qed.

(** The highest anchor after an insertion, and its upper bound. *)
Lemma insert_anchor_top (s : gset A) a :
  ∃ t, set_last ({[a]} ∪ s) = Some t ∧
    confirmation_height_upper_bound t =
      match confirmation_height_upper_bound <$> set_last s with
      | Some old => N.max old (confirmation_height_upper_bound a)
      | None => confirmation_height_upper_bound a
      end.
Proof.
  rewrite set_last_insert. eexists. split; [done|].
  destruct (set_last s) as [y|]; simpl; [|done].
  destruct (decide (tle a y)) as [Hay|Hay].
  - apply anchor_height_mono in Hay. lia.
  - assert (tle y a) as Hya by (by destruct (total tle a y)).
    apply anchor_height_mono in Hya. lia.
Qed.

Lemma insert_anchor_conf_heights g txid a h x :
  graph_wf g →
  (h, x) ∈ txs_by_highest_conf_heights (insert_anchor g txid a).1 ↔
  if decide (x = txid)
  then match confirmation_height_upper_bound <$> set_last (default ∅ (anchors g !! txid)) with
       | Some old => h = N.max old (confirmation_height_upper_bound a)
       | None => h = confirmation_height_upper_bound a
       end
  else (h, x) ∈ txs_by_highest_conf_heights g.
Proof.
  intros Hg. set (s := default ∅ (anchors g !! txid)).
  assert (Hold : anchors g !! txid ≫= set_last = set_last s).
  { unfold s. destruct (anchors g !! txid); simpl; [done|]. by rewrite set_last_empty. }
  assert (Hin : ∀ k, (k, txid) ∈ txs_by_highest_conf_heights g ↔
    confirmation_height_upper_bound <$> set_last s = Some k).
  { intros k. rewrite (wf_conf_heights g Hg), fmap_Some. split.
    - intros (s' & y & Hs & Hy & <-). exists y. split; [|done]. unfold s. by rewrite Hs.
    - intros (y & Hy & ->). unfold s in Hy. destruct (anchors g !! txid) as [s'|]; simpl in Hy.
      + by exists s', y.
      + by rewrite set_last_empty in Hy. }
  unfold insert_anchor. rewrite Hold.
  destruct (match anchors g !! txid with Some s => bool_decide (a ∉ s) | None => true end)
    eqn:Hch; cycle 1.
  { simpl. destruct (decide (x = txid)) as [->|]; [|done]. rewrite Hin.
    assert (a ∈ s) as Has.
    { unfold s. destruct (anchors g !! txid) as [s'|]; [|done].
      apply bool_decide_eq_false in Hch. simpl. destruct (decide (a ∈ s')); [done|].
      by destruct Hch. }
    destruct (set_last s) as [y|] eqn:Hy; simpl; cycle 1.
    { assert (s = ∅) as Hs; [|set_solver]. destruct (decide (s = ∅)) as [|Hne]; [done|].
      apply set_last_is_Some in Hne as [? ?]. congruence. }
    apply set_last_spec in Hy as [_ Hmax]. specialize (Hmax a Has).
    apply anchor_height_mono in Hmax. rewrite N.max_l by done. naive_solver. }
  clear Hch. destruct (confirmation_height_upper_bound <$> set_last s) as [p|] eqn:Hp; simpl.
  - set (new_top := if confirmation_height_upper_bound a <? p then p
                    else confirmation_height_upper_bound a).
    assert (new_top = N.max p (confirmation_height_upper_bound a)) as ->.
    { unfold new_top. destruct (N.ltb_spec (confirmation_height_upper_bound a) p); lia. }
    destruct (N.eqb_spec p (N.max p (confirmation_height_upper_bound a))) as [He|He];
      simpl.
    + destruct (decide (x = txid)) as [->|]; [|done]. rewrite Hin, <-He. naive_solver.
    + rewrite elem_of_union, elem_of_difference, !elem_of_singleton.
      destruct (decide (x = txid)) as [->|Hne]; [rewrite Hin; naive_solver|naive_solver].
  - rewrite elem_of_union, elem_of_singleton.
    destruct (decide (x = txid)) as [->|Hne]; [rewrite Hin; naive_solver|naive_solver].
Qed.

Lemma insert_anchor_wf g txid a : graph_wf g → graph_wf (insert_anchor g txid a).1.
Proof.
  intros Hg. destruct (insert_anchor_rest g txid a) as (Ht & Hs & Hf & Hl & He & Hb).
  split; rewrite ?Ht, ?Hl, ?Hb, ?Hs, ?insert_anchor_anchors; try apply Hg.
  - intros op x. unfold outspends. rewrite Hs. apply Hg.
  - intros x s. rewrite lookup_insert. destruct (decide _); [|apply Hg].
    intros [= <-]. set_solver.
  - intros h x. rewrite insert_anchor_conf_heights, lookup_insert by done.
    destruct (decide (x = txid)) as [->|Hne].
    + rewrite decide_True by done.
      destruct (insert_anchor_top (default ∅ (anchors g !! txid)) a) as (t & Ht' & Hh).
      destruct (confirmation_height_upper_bound <$> set_last _) as [p|].
      * split; [intros ->; by eexists _, t|]. intros (? & ? & [= <-] & ? & <-). congruence.
      * split; [intros ->; by eexists _, t|]. intros (? & ? & [= <-] & ? & <-). congruence.
    + rewrite decide_False by congruence. apply Hg.
Qed.

Lemma update_first_seen_wf g txid t : graph_wf g → graph_wf (update_first_seen g txid t).1.
Proof.
  intros Hg. destruct (update_first_seen_fields g txid t) as (_ & Ht & Hs & Ha & Hl & He & Hc & Hb).
  split; rewrite ?Ht, ?Ha, ?Hl, ?Hb, ?Hc, ?Hs; try apply Hg.
  intros op x. unfold outspends. rewrite Hs. apply Hg.
Qed.

Lemma update_last_seen_wf g txid t : graph_wf g → graph_wf (update_last_seen g txid t).1.
Proof.
  intros Hg. destruct (update_last_seen_fields g txid t) as (Hl & Ht & Hs & Ha & Hf & He & Hc).
  split; rewrite ?Ht, ?Ha, ?Hc, ?Hs; try apply Hg.
  - intros op x. unfold outspends. rewrite Hs. apply Hg.
  - intros u x. rewrite Hl, lookup_insert. unfold update_last_seen, opt_max.
    destruct (last_seen g !! txid) as [l|] eqn:Hlk; [destruct (N.ltb_spec l t)|]; simpl;
      rewrite ?elem_of_union, ?elem_of_difference, ?elem_of_singleton, (wf_last_seen g Hg);
      (destruct (decide (txid = x)) as [<-|Hne]; [rewrite Hlk|]).
    + rewrite N.max_r by lia. naive_solver.
    + naive_solver.
    + rewrite N.max_l by lia. done.
    + done.
    + naive_solver.
    + naive_solver.
Qed.

Lemma insert_seen_at_wf g txid t : graph_wf g → graph_wf (insert_seen_at g txid t).1.
Proof.
  intros Hg. rewrite insert_seen_at_fst. by apply update_last_seen_wf, update_first_seen_wf.
Qed.

Lemma insert_evicted_at_wf g txid t : graph_wf g → graph_wf (insert_evicted_at g txid t).1.
Proof.
  intros Hg. destruct (insert_evicted_at_fields g txid t) as (_ & Ht & Hs & Ha & Hf & Hl & Hc & Hb).
  split; rewrite ?Ht, ?Ha, ?Hl, ?Hb, ?Hc, ?Hs; try apply Hg.
  intros op x. unfold outspends. rewrite Hs. apply Hg.
Qed.

(** Folding operations that keep the invariant. *)
Lemma insert_all_fst {X} (op : TxGraph A → X → TxGraph A * TxChangeSet A) l acc :
  (insert_all op l acc).1 = foldl (λ g x, (op g x).1) acc.1 l.
Proof.
  unfold insert_all. revert acc. induction l as [|x l IH]; intros acc; simpl; [done|].
  rewrite IH. by destruct (op acc.1 x).
Qed.

Lemma foldl_wf {X} (f : TxGraph A → X → TxGraph A) l g :
  (∀ g x, graph_wf g → graph_wf (f g x)) → graph_wf g → graph_wf (foldl f g l).
Proof. intros Hf. revert g. induction l as [|x l IH]; intros g Hg; simpl; auto. Qed.
End facts.

#[export] Hint Resolve graph_wf_default insert_tx_wf insert_txout_wf insert_anchor_wf
  insert_seen_at_wf insert_evicted_at_wf : bdk.
