(* ===== verification/TxGraphFold.v ===== *)
(** * Folding the operations of the transaction graph

    What a batch of insertions does to each field: transactions and outputs
    accumulate, anchors are united, times are joined. *)
From S2P Require Import Prelude Block Tx TxGraph TxGraphFacts.
#[local] Open Scope N_scope.

(** A projection of a state that each step updates on its own. *)
Lemma foldl_proj {S T X} (proj : S → T) (f : S → X → S) (h : T → X → T) l s :
  (∀ s x, proj (f s x) = h (proj s) x) → proj (foldl f s l) = foldl h (proj s) l.
Proof. intros Hf. revert s. induction l as [|x l IH]; intros s; simpl; [done|]. by rewrite IH, Hf. Qed.

Lemma foldl_same {S T X} (proj : S → T) (f : S → X → S) l s :
  (∀ s x, proj (f s x) = proj s) → proj (foldl f s l) = proj s.
Proof. intros Hf. revert s. induction l as [|x l IH]; intros s; simpl; [done|]. by rewrite IH. Qed.

(** ** Times *)

Section times.
Context (R : relation N) `{!Transitive R, !AntiSymm (=) R, !Reflexive R}.
Context (join : option N → N → N).
Context (join_None : ∀ n, join None n = n).
Context (join_Some : ∀ m n, join (Some m) n = m ∨ join (Some m) n = n).
Context (join_l : ∀ m n, R m (join (Some m) n)) (join_r : ∀ m n, R n (join (Some m) n)).

Definition join_all (m : gmap Txid N) (l : list (Txid * N)) : gmap Txid N :=
  foldl (λ m p, <[p.1 := join (m !! p.1) p.2]> m) m l.

(** The time recorded is one of those known, and extremal among them. *)
Definition joined (m : gmap Txid N) (l : list (Txid * N)) (k : Txid) (t : N) : Prop :=
  (m !! k = Some t ∨ (k, t) ∈ l) ∧ ∀ t', m !! k = Some t' ∨ (k, t') ∈ l → R t' t.

Lemma join_all_joined m l k t : join_all m l !! k = Some t ↔ joined m l k t.
Proof using All.
  unfold join_all. revert m. induction l as [|[k' n] l IH]; intros m; simpl.
  - unfold joined. setoid_rewrite elem_of_nil. split; [|naive_solver].
    intros Hk. split; [auto|]. intros t' [Hk'|[]]. by simplify_eq.
  - rewrite IH. unfold joined. rewrite lookup_insert. setoid_rewrite elem_of_cons.
    destruct (decide (k' = k)) as [->|Hne]; [|naive_solver].
    destruct (m !! k) as [c|] eqn:Hc.
    + split.
      * intros [Hin Hall]. assert (Hj : R (join (Some c) n) t) by auto.
        split; [destruct Hin as [[= <-]|]; [destruct (join_Some c n) as [-> | ->]|]; auto|].
        intros t' [[= <-]|[[= <-]|]]; [etrans; [apply join_l|done]|etrans; [apply join_r|done]|auto].
      * intros [Hin Hall]. assert (R c t ∧ R n t) as [Hct Hnt] by auto.
        assert (R (join (Some c) n) t) as Hjt by (by destruct (join_Some c n) as [-> | ->]).
        split; [|intros t' [[= <-]|]; auto].
        destruct Hin as [[= <-]|[[= <-]|]]; [left; f_equal; by apply (anti_symm R)..|by right].
    + rewrite join_None. split.
      * intros [Hin Hall]. split; [destruct Hin as [[= <-]|]; auto|].
        intros t' [?|[[= <-]|]]; [done|auto..].
      * intros [Hin Hall]. split; [destruct Hin as [|[[= <-]|]]; auto; done|].
        intros t' [[= <-]|]; auto.
Qed.

Lemma join_all_None m l k :
  join_all m l !! k = None ↔ m !! k = None ∧ ∀ t, (k, t) ∉ l.
Proof using.
  unfold join_all. revert m. induction l as [|[k' n] l IH]; intros m; simpl.
  - split; [|by intros [? _]]. intros ?. split; [done|]. intros t. apply not_elem_of_nil.
  - rewrite IH, lookup_insert. setoid_rewrite not_elem_of_cons.
    destruct (decide (k' = k)) as [->|Hne]; [naive_solver|]. naive_solver.
Qed.

(** From nothing, the entries of a map give the map. *)
Lemma join_all_map (m : gmap Txid N) l :
  (∀ k t, (k, t) ∈ l ↔ m !! k = Some t) → join_all ∅ l = m.
Proof using All.
  intros Hl. apply map_eq. intros k. apply option_eq. intros t.
  rewrite join_all_joined. unfold joined. setoid_rewrite Hl. rewrite lookup_empty.
  split; [naive_solver|]. intros Hk. split; [auto|]. intros t' [|]; [done|]. by simplify_eq.
Qed.
End times.

Definition max_all := join_all opt_max.
Definition min_all := join_all opt_min.

#[export] Instance N_ge_trans : Transitive N.ge.
Proof. intros a b c. lia. Qed.
#[export] Instance N_ge_antisymm : AntiSymm (=) N.ge.
Proof. intros a b. lia. Qed.
#[export] Instance N_ge_refl : Reflexive N.ge.
Proof. intros a. lia. Qed.

Lemma max_all_joined m l k t : max_all m l !! k = Some t ↔ joined N.le m l k t.
Proof. apply join_all_joined; try apply _; simpl; lia. Qed.
Lemma min_all_joined m l k t : min_all m l !! k = Some t ↔ joined N.ge m l k t.
Proof. apply join_all_joined; try apply _; simpl; lia. Qed.
Lemma max_all_map (m : gmap Txid N) l :
  (∀ k t, (k, t) ∈ l ↔ m !! k = Some t) → max_all ∅ l = m.
Proof. apply (join_all_map N.le); try apply _; simpl; lia. Qed.
Lemma min_all_map (m : gmap Txid N) l :
  (∀ k t, (k, t) ∈ l ↔ m !! k = Some t) → min_all ∅ l = m.
Proof. apply (join_all_map N.ge); try apply _; simpl; lia. Qed.

Section fold.
Context `{Bitcoin} {A : Type} `{Countable A} `{!TotalOrd A, !Anchor A} `{HashOrder}.
Implicit Types (g : TxGraph A) (cs : TxChangeSet A).

(** ** The batches of [apply_update] and [apply_changeset] *)

Definition fold_txs g (l : list Transaction) : TxGraph A :=
  foldl (λ g tx, (insert_tx g tx).1) g l.
Definition fold_txouts g (l : list (OutPoint * TxOut)) : TxGraph A :=
  foldl (λ g p, (insert_txout g p.1 p.2).1) g l.
Definition fold_anchors g (l : list (A * Txid)) : TxGraph A :=
  foldl (λ g p, (insert_anchor g p.2 p.1).1) g l.
Definition fold_seen g (l : list (Txid * N)) : TxGraph A :=
  foldl (λ g p, (insert_seen_at g p.1 p.2).1) g l.
Definition fold_evicted g (l : list (Txid * N)) : TxGraph A :=
  foldl (λ g p, (insert_evicted_at g p.1 p.2).1) g l.

Lemma fold_seen_fields g l :
  let g' := fold_seen g l in
  first_seen g' = min_all (first_seen g) l ∧ last_seen g' = max_all (last_seen g) l ∧
  txs g' = txs g ∧ spends g' = spends g ∧ anchors g' = anchors g ∧
  last_evicted g' = last_evicted g.
Proof.
  cbv zeta. unfold fold_seen, min_all, max_all, join_all. split_and!.
  - apply (foldl_proj first_seen). intros s [k t]; simpl. by destruct (insert_seen_at_fields s k t) as (-> & _).
  - apply (foldl_proj last_seen). intros s [k t]; simpl. by destruct (insert_seen_at_fields s k t) as (_ & -> & _).
  - apply (foldl_same txs). intros s [k t]; simpl. by destruct (insert_seen_at_fields s k t) as (? & ? & ? & _).
  - apply (foldl_same spends). intros s [k t]; simpl. by destruct (insert_seen_at_fields s k t) as (? & ? & ? & ? & _).
  - apply (foldl_same anchors). intros s [k t]; simpl.
    by destruct (insert_seen_at_fields s k t) as (? & ? & ? & ? & ? & _).
  - apply (foldl_same last_evicted). intros s [k t]; simpl.
    by destruct (insert_seen_at_fields s k t) as (? & ? & ? & ? & ? & ? & _).
Qed.

Lemma fold_evicted_fields g l :
  let g' := fold_evicted g l in
  last_evicted g' = max_all (last_evicted g) l ∧
  txs g' = txs g ∧ spends g' = spends g ∧ anchors g' = anchors g ∧
  first_seen g' = first_seen g ∧ last_seen g' = last_seen g.
Proof.
  cbv zeta. unfold fold_evicted, max_all, join_all. split_and!.
  - apply (foldl_proj last_evicted). intros s [k t]; simpl. by destruct (insert_evicted_at_fields s k t) as (-> & _).
  - apply (foldl_same txs). intros s [k t]; simpl. by destruct (insert_evicted_at_fields s k t) as (? & ? & _).
  - apply (foldl_same spends). intros s [k t]; simpl. by destruct (insert_evicted_at_fields s k t) as (? & ? & ? & _).
  - apply (foldl_same anchors). intros s [k t]; simpl. by destruct (insert_evicted_at_fields s k t) as (? & ? & ? & ? & _).
  - apply (foldl_same first_seen). intros s [k t]; simpl.
    by destruct (insert_evicted_at_fields s k t) as (? & ? & ? & ? & ? & _).
  - apply (foldl_same last_seen). intros s [k t]; simpl.
    by destruct (insert_evicted_at_fields s k t) as (? & ? & ? & ? & ? & ? & _).
Qed.

Lemma fold_anchors_rest g l :
  let g' := fold_anchors g l in
  txs g' = txs g ∧ spends g' = spends g ∧ first_seen g' = first_seen g ∧
  last_seen g' = last_seen g ∧ last_evicted g' = last_evicted g.
Proof.
  cbv zeta. unfold fold_anchors.
  split_and!;
    [apply (foldl_same txs)|apply (foldl_same spends)|apply (foldl_same first_seen)|apply (foldl_same last_seen)|apply (foldl_same last_evicted)]; intros s [a t]; simpl;
    by destruct (insert_anchor_rest s t a) as (? & ? & ? & ? & ? & _).
Qed.

Definition anchors_of g (txid : Txid) : gset A := default ∅ (anchors g !! txid).

Lemma fold_anchors_anchors g l txid a :
  a ∈ anchors_of (fold_anchors g l) txid ↔ a ∈ anchors_of g txid ∨ (a, txid) ∈ l.
Proof.
  unfold fold_anchors, anchors_of. revert g. induction l as [|[b k] l IH]; intros g; simpl.
  { split; [auto|]. by intros [?|?%elem_of_nil]. }
  rewrite IH, insert_anchor_anchors, lookup_insert, elem_of_cons.
  destruct (decide (k = txid)) as [->|Hne]; simpl.
  - rewrite elem_of_union, elem_of_singleton. naive_solver.
  - naive_solver.
Qed.

Lemma fold_txouts_rest g l :
  let g' := fold_txouts g l in
  spends g' = spends g ∧ anchors g' = anchors g ∧ first_seen g' = first_seen g ∧
  last_seen g' = last_seen g ∧ last_evicted g' = last_evicted g.
Proof.
  cbv zeta. unfold fold_txouts.
  split_and!;
    [apply (foldl_same spends)|apply (foldl_same anchors)|apply (foldl_same first_seen)|apply (foldl_same last_seen)|apply (foldl_same last_evicted)]; intros s [op o]; simpl;
    by destruct (insert_txout_rest s op o) as (? & ? & ? & ? & ? & _).
Qed.

Lemma fold_txs_rest g l :
  let g' := fold_txs g l in
  anchors g' = anchors g ∧ first_seen g' = first_seen g ∧
  last_seen g' = last_seen g ∧ last_evicted g' = last_evicted g.
Proof.
  cbv zeta. unfold fold_txs.
  split_and!;
    [apply (foldl_same anchors)|apply (foldl_same first_seen)|apply (foldl_same last_seen)|apply (foldl_same last_evicted)]; intros s tx; simpl;
    by destruct (insert_tx_rest s tx) as (? & ? & ? & ? & _).
Qed.

Lemma graph_apply_update_fst g (u : TxUpdate A) :
  (graph_apply_update g u).1 =
    fold_evicted (fold_seen (fold_anchors (fold_txouts (fold_txs g (tu_txs u))
      (map_iter (tu_txouts u))) (set_iter (tu_anchors u))) (hash_iter (tu_seen_ats u)))
      (hash_iter (tu_evicted_ats u)).
Proof. unfold graph_apply_update. by rewrite !insert_all_fst. Qed.

(** ** Transactions and outputs *)

Definition is_whole (n : option TxNodeInternal) : Prop := ∃ tx, n = Some (Whole tx).
Definition partial_of (n : option TxNodeInternal) : gmap N TxOut :=
  match n with Some (Partial m) => m | _ => ∅ end.

Lemma fold_txs_whole g l k :
  is_whole (txs g !! k) ∨ (∃ tx, tx ∈ l ∧ compute_txid tx = k) → is_whole (txs (fold_txs g l) !! k).
Proof.
  unfold fold_txs. revert g. induction l as [|t l IH]; intros g Hk; simpl.
  { destruct Hk as [|(tx & ?%elem_of_nil & _)]; done. }
  apply IH. rewrite insert_tx_txs, lookup_insert.
  destruct (decide (compute_txid t = k)) as [He|Hne]; [left; by eexists|].
  destruct Hk as [Hk|(tx & Hin & Hid)]; [by left|].
  right. exists tx. split; [|done]. apply elem_of_cons in Hin as [->|]; done.
Qed.

Lemma fold_txs_other g l k :
  (∀ tx, tx ∈ l → compute_txid tx ≠ k) → txs (fold_txs g l) !! k = txs g !! k.
Proof.
  unfold fold_txs. revert g. induction l as [|t l IH]; intros g Hall; simpl; [done|].
  rewrite IH by (intros; apply Hall; by right).
  rewrite insert_tx_txs. apply lookup_insert_ne, Hall. by left.
Qed.

Lemma fold_txs_whole_inv g l k :
  is_whole (txs (fold_txs g l) !! k) → is_whole (txs g !! k) ∨ ∃ tx, tx ∈ l ∧ compute_txid tx = k.
Proof.
  intros Hk. destruct (decide (Exists (λ tx, compute_txid tx = k) l)) as [Hex|Hno].
  - right. apply Exists_exists in Hex as (tx & ? & ?). by exists tx.
  - left. rewrite fold_txs_other in Hk; [done|]. intros tx Hin Hid. apply Hno.
    apply Exists_exists. by exists tx.
Qed.

(** New transactions with distinct ids are stored as they are. *)
Lemma fold_txs_fresh g l k :
  NoDup (compute_txid <$> l) → (∀ tx, tx ∈ l → txs g !! compute_txid tx = None) →
  (∀ tx, tx ∈ l → compute_txid tx = k → txs (fold_txs g l) !! k = Some (Whole tx)) ∧
  ((∀ tx, tx ∈ l → compute_txid tx ≠ k) → txs (fold_txs g l) !! k = txs g !! k).
Proof.
  unfold fold_txs. revert g. induction l as [|t l IH]; intros g Hnd Hfresh; simpl.
  { split; [by intros tx ?%elem_of_nil|done]. }
  apply NoDup_cons in Hnd as [Hnin Hnd].
  assert (Ht : txs (insert_tx g t).1 = <[compute_txid t := Whole t]> (txs g)).
  { by rewrite insert_tx_txs, Hfresh by (by left). }
  destruct (IH (insert_tx g t).1 Hnd) as [IH1 IH2].
  { intros tx Hin. rewrite Ht, lookup_insert_ne; [apply Hfresh; by right|].
    intros Heq. apply Hnin. rewrite Heq. by apply list_elem_of_fmap_2. }
  split.
  - intros tx [->|Hin]%elem_of_cons Hk; [|by apply IH1].
    rewrite IH2, Ht; [subst; apply lookup_insert_eq|].
    intros tx' Hin' Heq. apply Hnin. rewrite Hk, <-Heq. by apply list_elem_of_fmap_2.
  - intros Hall. rewrite IH2, Ht; [apply lookup_insert_ne; apply Hall; by left|].
    intros tx Hin. apply Hall. by right.
Qed.

Lemma fold_txouts_whole g l k tx :
  txs (fold_txouts g l) !! k = Some (Whole tx) ↔ txs g !! k = Some (Whole tx).
Proof.
  unfold fold_txouts. revert g. induction l as [|[op o] l IH]; intros g; simpl; [done|].
  rewrite IH, insert_txout_txs, lookup_insert. destruct (decide _) as [<-|]; [|done].
  destruct (txs g !! op_txid op) as [[w|m]|]; simpl; naive_solver.
Qed.

Lemma fold_txouts_partial g l k v o :
  NoDup l.*1 → ¬ is_whole (txs g !! k) →
  partial_of (txs (fold_txouts g l) !! k) !! v = Some o ↔
    (mkOutPoint k v, o) ∈ l ∨
    (partial_of (txs g !! k) !! v = Some o ∧ mkOutPoint k v ∉ l.*1).
Proof.
  unfold fold_txouts. revert g. induction l as [|[op x] l IH]; intros g Hnd Hw; simpl.
  { rewrite elem_of_nil. split; [|naive_solver]. intros ?. right. split; [done|].
    apply not_elem_of_nil. }
  apply NoDup_cons in Hnd as [Hnin Hnd].
  assert (Hn : txs (insert_txout g op x).1 !! k =
    if decide (op_txid op = k) then Some (node_insert_txout (txs g !! k) (op_vout op) x)
    else txs g !! k).
  { rewrite insert_txout_txs, lookup_insert. by destruct (decide _) as [<-|]. }
  rewrite IH, Hn, elem_of_cons; [|done|]; cycle 1.
  { rewrite Hn. destruct (decide _); [|done]. unfold is_whole in *.
    destruct (txs g !! k) as [[w|m]|]; simpl; naive_solver. }
  rewrite not_elem_of_cons.
  assert (Hp : partial_of (if decide (op_txid op = k)
                 then Some (node_insert_txout (txs g !! k) (op_vout op) x) else txs g !! k) =
    if decide (op_txid op = k) then <[op_vout op := x]> (partial_of (txs g !! k))
    else partial_of (txs g !! k)).
  { destruct (decide _); [|done]. destruct (txs g !! k) as [[w|m]|]; simpl; [|done..].
    destruct Hw. by eexists. }
  rewrite Hp. destruct op as [k' v']; simpl in *. destruct (decide (k' = k)) as [->|Hne].
  - rewrite lookup_insert. destruct (decide (v' = v)) as [->|Hv]; [|naive_solver].
    split; [|naive_solver]. intros [?|[[= ->] ?]]; auto.
  - naive_solver.
Qed.

Lemma fold_txouts_None g l k :
  txs (fold_txouts g l) !! k = None ↔ txs g !! k = None ∧ ∀ v, mkOutPoint k v ∉ l.*1.
Proof.
  unfold fold_txouts. revert g. induction l as [|[op x] l IH]; intros g; simpl.
  { split; [|by intros [? _]]. intros ?. split; [done|]. intros v. apply not_elem_of_nil. }
  rewrite IH, insert_txout_txs, lookup_insert. setoid_rewrite not_elem_of_cons.
  destruct op as [k' v']; simpl. destruct (decide (k' = k)) as [->|Hne]; [|naive_solver].
  split; [by intros [? _]|]. intros [_ Hv]. destruct (Hv v') as [? _]. done.
Qed.
End fold.
