(* ===== verification/TxSamples.v ===== *)
(** * A concrete transaction type

    An instance of [Bitcoin] and of [HashOrder] on which the properties of the
    transaction graph and of canonicalization are instantiated: a transaction
    is its inputs and its output values, and its id encodes the prevouts and
    the values. *)
From S2P Require Import Prelude Block Tx TxGraph.
#[local] Open Scope N_scope.

Record SampleIn := mkSampleIn { si_prevout : OutPoint; si_witness : N }.
Record SampleTx := mkSampleTx { st_inputs : list SampleIn; st_outputs : list N }.

#[export] Instance SampleIn_eq_dec : EqDecision SampleIn.
Proof. solve_decision. Defined.
#[export] Instance SampleTx_eq_dec : EqDecision SampleTx.
Proof. solve_decision. Defined.

Definition SampleIn_key (i : SampleIn) : OutPoint * N := (si_prevout i, si_witness i).
#[export] Instance SampleIn_countable : Countable SampleIn.
Proof.
  apply (inj_countable' SampleIn_key (λ p, mkSampleIn p.1 p.2)). by intros [].
Defined.

Definition SampleTx_key (t : SampleTx) : list SampleIn * list N := (st_inputs t, st_outputs t).
#[export] Instance SampleTx_countable : Countable SampleTx.
Proof.
  apply (inj_countable' SampleTx_key (λ p, mkSampleTx p.1 p.2)). by intros [].
Defined.

(** An injective numbering. *)
Definition number {T} `{Countable T} (t : T) : N := N.pos (encode t).

Lemma number_inj {T} `{Countable T} (a b : T) : number a = number b → a = b.
Proof. unfold number. intros [= Heq]. by apply (inj encode). Qed.

#[export] Instance SampleTx_ord : TotalOrd SampleTx.
Proof. apply (ord_by_key number). intros a b. apply number_inj. Defined.

Fixpoint flat_prevouts (l : list OutPoint) (rest : list N) : list N :=
  match l with [] => rest | o :: l => op_txid o :: op_vout o :: flat_prevouts l rest end.

Lemma flat_prevouts_inj l k r s :
  length l = length k → flat_prevouts l r = flat_prevouts k s → l = k ∧ r = s.
Proof.
  revert k. induction l as [|[] l IH]; intros [|[] k]; simpl; try done.
  intros [= Hlen] [= -> -> Heq]. by destruct (IH k Hlen Heq) as [-> ->].
Qed.

(** At most eight outputs count. *)
Definition sample_outputs (t : SampleTx) : list N := take 8 (st_outputs t).

Definition sample_txid (t : SampleTx) : Txid :=
  number (N.of_nat (length (si_prevout <$> st_inputs t)) ::
          flat_prevouts (si_prevout <$> st_inputs t) (sample_outputs t)).

Lemma sample_txid_inj a b :
  sample_txid a = sample_txid b →
  si_prevout <$> st_inputs a = si_prevout <$> st_inputs b ∧ sample_outputs a = sample_outputs b.
Proof.
  intros [= Hlen Heq]%number_inj. apply flat_prevouts_inj; [lia|done].
Qed.

(** The outpoint of a coinbase input; no transaction has the id 0. *)
Definition null_outpoint : OutPoint := mkOutPoint 0 0.

#[export] Instance SampleBitcoin : Bitcoin := {
  Transaction := SampleTx;
  TxIn := SampleIn;
  TxOut := N;
  Witness := N;
  compute_txid := sample_txid;
  tx_input := st_inputs;
  tx_output := sample_outputs;
  with_input t l := mkSampleTx l (st_outputs t);
  is_coinbase t := match st_inputs t with
                   | [i] => bool_decide (si_prevout i = null_outpoint)
                   | _ => false
                   end;
  previous_output := si_prevout;
  outpoint_is_null op := bool_decide (op = null_outpoint);
  txin_witness := si_witness;
  txin_stripped i := mkSampleIn (si_prevout i) 0;
  witness_is_empty w := w =? 0;
  witness_size w := w;
  txout_value v := v;
}.

#[export] Instance SampleBitcoinLaws : BitcoinLaws.
Proof.
  assert (Hstrip : ∀ l : list SampleIn,
    (λ i, mkSampleIn (si_prevout i) 0) <$> l =
    (λ o, mkSampleIn o 0) <$> (si_prevout <$> l)).
  { intros l. by rewrite <-list_fmap_compose. }
  split; simpl.
  - intros a b [Hi Ho]%sample_txid_inj. by rewrite !Hstrip, Hi.
  - intros a b [Hi Ho]%sample_txid_inj. done.
  - done.
  - intros [] []; simpl. by intros [= ->] ->.
  - done.
  - intros t l Heq. unfold sample_txid. simpl.
    apply (f_equal (fmap si_prevout)) in Heq. rewrite <-!list_fmap_compose in Heq.
    change (si_prevout <$> l = si_prevout <$> st_inputs t) in Heq. by rewrite Heq.
Qed.

#[export] Instance SampleHashOrder : HashOrder.
Proof.
  refine {| hash_iter := λ K _ _ s, elements s; hash_map_iter := λ K V _ _ m, map_to_list m |};
    done.
Defined.

(** A coinbase of 50 coins, a payment splitting it, and two transactions
    spending the payment's first output, the second with a child. *)
Definition tx_coinbase : SampleTx := mkSampleTx [mkSampleIn null_outpoint 0] [50].
Definition spend_of (tx : SampleTx) (vout : N) (w : N) : SampleIn :=
  mkSampleIn (mkOutPoint (sample_txid tx) vout) w.
Definition tx_pay : SampleTx := mkSampleTx [spend_of tx_coinbase 0 7] [20; 30].
Definition tx_left : SampleTx := mkSampleTx [spend_of tx_pay 0 7] [19].
Definition tx_right : SampleTx := mkSampleTx [spend_of tx_pay 0 7] [18].
Definition tx_child : SampleTx := mkSampleTx [spend_of tx_right 0 7] [17].

(** Blocks at heights 1 and 2. *)
Definition anchor_at (height : N) : ConfirmationBlockTime :=
  mkCBT (mkBlockId height (100 + height)) (1000 + height).

(** An update with all of them: the first two confirmed, the rest seen. *)
Definition sample_update : TxUpdate ConfirmationBlockTime := {|
  tu_txs := [tx_coinbase; tx_pay; tx_left; tx_right; tx_child];
  tu_txouts := {[mkOutPoint 3 1 := 5]};
  tu_anchors := {[(anchor_at 1, sample_txid tx_coinbase); (anchor_at 2, sample_txid tx_pay)]};
  tu_seen_ats := {[(sample_txid tx_pay, 5); (sample_txid tx_left, 10);
                   (sample_txid tx_right, 20); (sample_txid tx_left, 12);
                   (sample_txid tx_child, 21)]};
  tu_evicted_ats := {[(sample_txid tx_left, 11)]};
|}.

Definition sample_graph : TxGraph ConfirmationBlockTime := graph_of_update sample_update.
