(* ===== verification/TxGraphSpec.v ===== *)
(** * What the transaction graph promises

    The properties of [crates/chain/src/tx_graph.rs]: the invariant, updates
    as joins, idempotence, persistence, merging of change sets, and fees. *)
From S2P Require Import Prelude Block Tx TxGraph TxGraphFacts TxGraphFold.
#[local] Open Scope N_scope.

Section spec.
Context `{Bitcoin} {A : Type} `{Countable A} `{!TotalOrd A, !Anchor A} `{HashOrder}.
Context `{!BitcoinLaws, !AnchorLaws A}.
Implicit Types (g : TxGraph A) (cs : TxChangeSet A) (u : TxUpdate A).

(** ** The invariant *)

Lemma fold_txs_wf g l : graph_wf g → graph_wf (fold_txs g l).
Proof. apply foldl_wf. auto with bdk. Qed.
Lemma fold_txouts_wf g l : graph_wf g → graph_wf (fold_txouts g l).
Proof. apply foldl_wf. auto with bdk. Qed.
Lemma fold_anchors_wf g l : graph_wf g → graph_wf (fold_anchors g l).
Proof. apply foldl_wf. auto with bdk. Qed.
Lemma fold_seen_wf g l : graph_wf g → graph_wf (fold_seen g l).
Proof. apply foldl_wf. auto with bdk. Qed.
Lemma fold_evicted_wf g l : graph_wf g → graph_wf (fold_evicted g l).
Proof. apply foldl_wf. auto with bdk. Qed.

#[local] Hint Resolve fold_txs_wf fold_txouts_wf fold_anchors_wf fold_seen_wf
  fold_evicted_wf : bdk.

Lemma apply_update_wf g u : graph_wf g → graph_wf (graph_apply_update g u).1.
Proof. intros Hg. rewrite graph_apply_update_fst. auto 6 with bdk. Qed.

Lemma apply_changeset_wf g cs : graph_wf g → graph_wf (graph_apply_changeset g cs).
Proof.
  intros Hg. change (graph_wf (fold_evicted (fold_seen (fold_anchors (fold_txouts
    (fold_txs g (set_iter (cs_txs cs))) (map_iter (cs_txouts cs))) (set_iter (cs_anchors cs)))
    (map_iter (cs_last_seen cs))) (map_iter (cs_last_evicted cs)))).
  auto 6 with bdk.
Qed.

(** C4. Every operation keeps the invariant of the graph: transactions are
    filed under their ids; [spends] is exactly the inverse of the inputs of
    the full transactions, null outpoints excepted; and the two ordered
    indices hold exactly each transaction's highest confirmation height upper
    bound and its last-seen time.  So does any sequence of them, the
    application of updates and of change sets included. *)
Theorem graph_operations_keep_invariant g :
  graph_wf g →
  (∀ tx, graph_wf (insert_tx g tx).1) ∧
  (∀ op txout, graph_wf (insert_txout g op txout).1) ∧
  (∀ txid a, graph_wf (insert_anchor g txid a).1) ∧
  (∀ txid t, graph_wf (insert_seen_at g txid t).1) ∧
  (∀ txid t, graph_wf (insert_evicted_at g txid t).1) ∧
  (∀ l, graph_wf (batch_insert_unconfirmed g l).1) ∧
  (∀ l, graph_wf (batch_insert_relevant_evicted_at g l).1) ∧
  (∀ u, graph_wf (graph_apply_update g u).1) ∧
  (∀ cs, graph_wf (graph_apply_changeset g cs)) ∧
  (∀ l, graph_wf (TxGraph_new l)).
Proof.
  intros Hg. split_and!; intros; [auto with bdk..| | | | |].
  - unfold batch_insert_unconfirmed. generalize (@TxChangeSet_default _ A _ _).
    revert g Hg. induction l as [|[tx t] l IH]; intros g Hg cs; simpl; [done|].
    pose proof (insert_seen_at_wf g (compute_txid tx) t Hg) as H1'.
    destruct (insert_seen_at g (compute_txid tx) t) as [g1 cs1]; simpl in H1'.
    pose proof (insert_tx_wf g1 tx H1') as H2'. destruct (insert_tx g1 tx) as [g2 cs2]. by apply IH.
  - unfold batch_insert_relevant_evicted_at. generalize (@TxChangeSet_default _ A _ _).
    revert g Hg. induction l as [|[x t] l IH]; intros g Hg cs; simpl; [done|].
    destruct (txs g !! x); [|by apply IH].
    pose proof (insert_evicted_at_wf g x t Hg) as H1'.
    destruct (insert_evicted_at g x t). by apply IH.
  - by apply apply_update_wf.
  - by apply apply_changeset_wf.
  - apply foldl_wf; auto with bdk.
Qed.

(** ** Updates *)

(** Witness preference: the inputs of [a] are at least as preferable. *)
Definition inputs_le (a b : Transaction) : Prop :=
  Forall2 (λ i j, tle (witness_key i) (witness_key j)) (tx_input a) (tx_input b).

Lemma merge_txin_spec i j :
  txin_stripped i = txin_stripped j →
  tle (witness_key (merge_txin i j)) (witness_key i) ∧
  tle (witness_key (merge_txin i j)) (witness_key j) ∧
  (tle (witness_key i) (witness_key j) → merge_txin i j = i).
Proof.
  intros Hs. unfold merge_txin. destruct (decide (tlt _ _)) as [[Hle Hne]|Hn].
  - done.
  - assert (tle (witness_key j) (witness_key i)) as Hji.
    { destruct (total tle (witness_key i) (witness_key j)) as [Hij|]; [|done].
      destruct (decide (witness_key i = witness_key j)) as [->|]; [done|]. by destruct Hn. }
    split_and!; [done..|]. intros Hij.
    assert (witness_key i = witness_key j) as Hk by (by apply (anti_symm tle)).
    symmetry. apply txin_ext; [done|]. unfold witness_key in Hk. congruence.
Qed.

Lemma zip_merge_spec (l k : list TxIn) :
  txin_stripped <$> l = txin_stripped <$> k →
  Forall2 (λ i j, tle (witness_key i) (witness_key j)) (zip_with merge_txin l k) l ∧
  Forall2 (λ i j, tle (witness_key i) (witness_key j)) (zip_with merge_txin l k) k ∧
  (Forall2 (λ i j, tle (witness_key i) (witness_key j)) l k → zip_with merge_txin l k = l).
Proof.
  revert k. induction l as [|i l IH]; intros [|j k]; simpl; try done.
  intros [= Hs Hl]. destruct (merge_txin_spec i j Hs) as (H1' & H2' & H3').
  destruct (IH k Hl) as (H4' & H5' & H6'). split_and!; [by constructor..|].
  intros Hf. apply Forall2_cons in Hf as [Hij Hlk]. by rewrite H3', H6'.
Qed.

Lemma inputs_le_trans a b c : inputs_le a b → inputs_le b c → inputs_le a c.
Proof.
  unfold inputs_le. intros Hab Hbc. revert Hab Hbc.
  generalize (tx_input a) (tx_input b) (tx_input c). clear.
  intros l k m Hlk. revert m. induction Hlk as [|i j l k Hij Hlk IH]; intros m Hm.
  - by inversion Hm.
  - inversion Hm; subst. constructor; [by etrans|auto].
Qed.

(** The stored transaction is preferable to the old one and to the new one. *)
Lemma node_insert_tx_le e tx :
  compute_txid e = compute_txid tx →
  inputs_le (node_insert_tx (Some (Whole e)) tx) e ∧
  inputs_le (node_insert_tx (Some (Whole e)) tx) tx.
Proof.
  intros Hid%txid_commits_inputs. destruct (zip_merge_spec _ _ Hid) as (He & Ht & _).
  unfold inputs_le. simpl. unfold merge_tx_witnesses.
  destruct (decide (zip_with merge_txin _ _ = tx_input e)) as [Heq|]; simpl.
  { by rewrite Heq in He, Ht. }
  destruct (decide (zip_with merge_txin _ _ = tx_input tx)) as [Heq|]; simpl.
  { by rewrite Heq in He, Ht. }
  by rewrite with_input_input.
Qed.

Lemma inputs_le_refl tx : inputs_le tx tx.
Proof. unfold inputs_le. induction (tx_input tx); by constructor. Qed.

(** Inserting a transaction that is already superseded changes nothing. *)
Definition has_tx g (tx : Transaction) : Prop :=
  ∃ e, txs g !! compute_txid tx = Some (Whole e) ∧ inputs_le e tx.

Lemma insert_tx_has g tx :
  graph_wf g → has_tx g tx → insert_tx g tx = (g, TxChangeSet_default).
Proof.
  intros Hg (e & He & Hle). unfold insert_tx. rewrite He. simpl.
  destruct (decide (e = tx)); [done|].
  assert (merge_tx_witnesses e tx = None) as ->; [|done].
  unfold merge_tx_witnesses. rewrite decide_True; [done|].
  pose proof (wf_txid g Hg _ _ He) as Hid%txid_commits_inputs.
  by destruct (zip_merge_spec _ _ Hid) as (_ & _ & Heq); auto.
Qed.

Lemma insert_tx_now_has g tx : graph_wf g → has_tx (insert_tx g tx).1 tx.
Proof.
  intros Hg. unfold has_tx. rewrite insert_tx_txs, lookup_insert_eq. eexists. split; [done|].
  destruct (txs g !! compute_txid tx) as [[e|m]|] eqn:Hn; [|apply inputs_le_refl..].
  apply node_insert_tx_le. by apply (wf_txid g Hg).
Qed.

Lemma insert_tx_keeps_has g tx tx' : graph_wf g → has_tx g tx → has_tx (insert_tx g tx').1 tx.
Proof.
  intros Hg (e & He & Hle). unfold has_tx. rewrite insert_tx_txs, lookup_insert.
  destruct (decide (compute_txid tx' = compute_txid tx)) as [Heq|]; [|by exists e].
  rewrite Heq, He. eexists. split; [done|]. eapply inputs_le_trans; [|done].
  apply node_insert_tx_le. rewrite Heq. by apply (wf_txid g Hg).
Qed.

Lemma insert_txout_keeps_has g op o tx : has_tx g tx → has_tx (insert_txout g op o).1 tx.
Proof.
  intros (e & He & Hle). exists e. split; [|done]. rewrite insert_txout_txs, lookup_insert.
  destruct (decide _) as [Heq|]; [|done]. by rewrite Heq, He.
Qed.

(** What an update says of the graph it has been applied to. *)
Record holds_update g u : Prop := {
  holds_txs : ∀ tx, tx ∈ tu_txs u → has_tx g tx;
  holds_txouts : ∀ op o, tu_txouts u !! op = Some o →
    is_whole (txs g !! op_txid op) ∨ partial_of (txs g !! op_txid op) !! op_vout op = Some o;
  holds_anchors : ∀ a txid, (a, txid) ∈ tu_anchors u → a ∈ anchors_of g txid;
  holds_seen : ∀ txid t, (txid, t) ∈ tu_seen_ats u → ∃ f l,
    first_seen g !! txid = Some f ∧ f ≤ t ∧ last_seen g !! txid = Some l ∧ t ≤ l;
  holds_evicted : ∀ txid t, (txid, t) ∈ tu_evicted_ats u → ∃ e,
    last_evicted g !! txid = Some e ∧ t ≤ e;
}.

Lemma keep_lower_lookup (s o : gmap Txid N) k :
  keep_lower s o !! k =
    match s !! k, o !! k with
    | Some a, Some b => Some (N.min a b) | Some a, None => Some a | None, r => r
    end.
Proof.
  unfold keep_lower. rewrite lookup_union, map_lookup_filter.
  destruct (o !! k) as [b|] eqn:Ho, (s !! k) as [a|] eqn:Hs; simpl; unfold is_lower; simpl;
    rewrite ?Hs; try done.
  destruct (N.ltb_spec b a); simpl; [by rewrite N.min_r by lia|by rewrite N.min_l by lia].
Qed.

Lemma keep_higher_lookup (s o : gmap Txid N) k :
  keep_higher s o !! k =
    match s !! k, o !! k with
    | Some a, Some b => Some (N.max a b) | Some a, None => Some a | None, r => r
    end.
Proof.
  unfold keep_higher. rewrite lookup_union, map_lookup_filter.
  destruct (o !! k) as [b|] eqn:Ho, (s !! k) as [a|] eqn:Hs; simpl; unfold is_higher; simpl;
    rewrite ?Hs; try done.
  destruct (N.ltb_spec a b); simpl; [by rewrite N.max_r by lia|by rewrite N.max_l by lia].
Qed.

#[local] Ltac solve_keep :=
  apply map_eq; intros k; rewrite ?keep_lower_lookup, ?keep_higher_lookup, ?lookup_empty;
  repeat match goal with |- context [?m !! k] => destruct (m !! k) end; f_equal; lia.

Lemma cs_eq cs cs' :
  cs_txs cs = cs_txs cs' → cs_txouts cs = cs_txouts cs' → cs_anchors cs = cs_anchors cs' →
  cs_last_seen cs = cs_last_seen cs' → cs_last_evicted cs = cs_last_evicted cs' →
  cs_first_seen cs = cs_first_seen cs' → cs = cs'.
Proof. destruct cs, cs'; simpl. by intros -> -> -> -> -> ->. Qed.

#[export] Instance TxChangeSet_merge_laws : MergeLaws (TxChangeSet A).
Proof.
  split.
  - intros cs. cbn. rewrite !andb_true_iff, !bool_decide_eq_true. split.
    + intros [[[[[? ?] ?] ?] ?] ?]. by apply cs_eq.
    + by intros ->.
  - intros cs. apply cs_eq; cbn; try apply (left_id_L ∅ (∪)); try apply (right_id_L ∅ (∪));
      solve_keep.
  - intros cs. apply cs_eq; cbn; try apply (left_id_L ∅ (∪)); try apply (right_id_L ∅ (∪));
      solve_keep.
  - intros a b c. apply cs_eq; cbn; try apply (assoc_L (∪)); [by rewrite (assoc_L (∪))|..];
      try (by rewrite (assoc_L (∪))); solve_keep.
Qed.

Lemma insert_all_idle {X} (op : TxGraph A → X → TxGraph A * TxChangeSet A) l g :
  (∀ x, x ∈ l → op g x = (g, TxChangeSet_default)) →
  insert_all op l (g, TxChangeSet_default) = (g, TxChangeSet_default).
Proof.
  unfold insert_all. induction l as [|x l IH]; intros Hop; cbn [foldl fst snd]; [done|].
  rewrite Hop by (by left).
  pose proof (merge_default_l (T:=TxChangeSet A) TxChangeSet_default) as Hm.
  change (merge_default (T:=TxChangeSet A)) with (TxChangeSet_default (A:=A)) in Hm.
  rewrite Hm. apply IH. intros y Hy. apply Hop. by right.
Qed.

Lemma graph_eta g :
  mkTxGraph (txs g) (spends g) (anchors g) (first_seen g) (last_seen g) (last_evicted g)
    (txs_by_highest_conf_heights g) (txs_by_last_seen g) = g.
Proof. by destruct g. Qed.

Lemma apply_update_idle g u :
  graph_wf g → holds_update g u → graph_apply_update g u = (g, TxChangeSet_default).
Proof.
  intros Hg []. unfold graph_apply_update.
  rewrite (insert_all_idle insert_tx); [|intros; apply insert_tx_has; auto].
  rewrite (insert_all_idle (λ g p, insert_txout g p.1 p.2)); cycle 1.
  { intros [op o] Hin%elem_of_map_iter. simpl. specialize (holds_txouts0 op o Hin).
    unfold insert_txout. destruct holds_txouts0 as [[tx Hw]|Hp].
    - rewrite Hw. simpl. by rewrite insert_id, graph_eta.
    - destruct (txs g !! op_txid op) as [[w|m]|] eqn:Hn; simpl in *; [done| |done].
      by rewrite Hp, (insert_id m), insert_id, graph_eta. }
  rewrite (insert_all_idle (λ g p, insert_anchor g p.2 p.1)); cycle 1.
  { intros [a txid] Hin%elem_of_set_iter. simpl. specialize (holds_anchors0 a txid Hin).
    unfold anchors_of in holds_anchors0. unfold insert_anchor.
    destruct (anchors g !! txid) as [s|] eqn:Hs; simpl in *; [|set_solver].
    rewrite bool_decide_eq_false_2 by (intros Hn; by apply Hn).
    assert ({[a]} ∪ s = s) as -> by set_solver. by rewrite insert_id, graph_eta. }
  rewrite (insert_all_idle (λ g p, insert_seen_at g p.1 p.2)); cycle 1.
  { intros [txid t] Hin%elem_of_hash_iter. simpl.
    destruct (holds_seen0 txid t Hin) as (f & l & Hf & Hft & Hl & Htl).
    unfold insert_seen_at, update_first_seen. rewrite Hf.
    rewrite (proj2 (N.ltb_ge t f)) by done. unfold update_last_seen. rewrite Hl.
    by rewrite (proj2 (N.ltb_ge l t)) by done. }
  apply insert_all_idle. intros [txid t] Hin%elem_of_hash_iter. simpl.
  destruct (holds_evicted0 txid t Hin) as (e & He & Hte).
  unfold insert_evicted_at. rewrite He. by rewrite (proj2 (N.ltb_ge e t)).
Qed.

(** ** What an update does *)

Lemma fold_txs_has g l tx :
  graph_wf g → tx ∈ l ∨ has_tx g tx → has_tx (fold_txs g l) tx.
Proof.
  unfold fold_txs. revert g. induction l as [|t l IH]; intros g Hg Hin; simpl.
  { by destruct Hin as [?%elem_of_nil|]. }
  apply IH; [by apply insert_tx_wf|].
  destruct Hin as [[->|Hin]%elem_of_cons|Hh]; [right|by left|right].
  - by apply insert_tx_now_has.
  - by apply insert_tx_keeps_has.
Qed.

Lemma fold_txouts_has g l tx : has_tx (fold_txouts g l) tx ↔ has_tx g tx.
Proof. unfold has_tx. by setoid_rewrite fold_txouts_whole. Qed.

(** A batch of each kind, field by field. *)
Definition fold_all g l_txs l_txouts l_anchors l_seen l_evicted : TxGraph A :=
  fold_evicted (fold_seen (fold_anchors (fold_txouts (fold_txs g l_txs) l_txouts) l_anchors)
    l_seen) l_evicted.

Lemma fold_all_fields g l_txs l_txouts l_anchors l_seen l_evicted :
  let g' := fold_all g l_txs l_txouts l_anchors l_seen l_evicted in
  txs g' = txs (fold_txouts (fold_txs g l_txs) l_txouts) ∧
  (∀ txid a, a ∈ anchors_of g' txid ↔ a ∈ anchors_of g txid ∨ (a, txid) ∈ l_anchors) ∧
  first_seen g' = min_all (first_seen g) l_seen ∧
  last_seen g' = max_all (last_seen g) l_seen ∧
  last_evicted g' = max_all (last_evicted g) l_evicted.
Proof.
  cbv zeta. unfold fold_all.
  set (g1 := fold_txs g l_txs). set (g2 := fold_txouts g1 l_txouts).
  set (g3 := fold_anchors g2 l_anchors). set (g4 := fold_seen g3 l_seen).
  destruct (fold_evicted_fields g4 l_evicted) as (E1 & E2 & _ & E4 & E5 & E6).
  destruct (fold_seen_fields g3 l_seen) as (S1 & S2 & S3 & _ & S5 & S6).
  destruct (fold_anchors_rest g2 l_anchors) as (A1 & _ & A3 & A4 & A5).
  destruct (fold_txouts_rest g1 l_txouts) as (_ & O2 & O3 & O4 & O5).
  destruct (fold_txs_rest g l_txs) as (T1 & T2 & T3 & T4).
  fold g4 in S1, S2, S3, S5, S6. fold g3 in A1, A3, A4, A5. fold g2 in O2, O3, O4, O5.
  fold g1 in T1, T2, T3, T4. split_and!.
  - by rewrite E2, S3, A1.
  - intros txid a. unfold anchors_of at 1. rewrite E4, S5.
    change (default ∅ (anchors g3 !! txid)) with (anchors_of g3 txid). unfold g3.
    rewrite fold_anchors_anchors. unfold anchors_of. by rewrite O2, T1.
  - by rewrite E5, S1, A3, O3, T2.
  - by rewrite E6, S2, A4, O4, T3.
  - by rewrite E1, S6, A5, O5, T4.
Qed.

(** The graph after an update. *)
Lemma apply_update_fields g u :
  let g' := (graph_apply_update g u).1 in
  txs g' = txs (fold_txouts (fold_txs g (tu_txs u)) (map_iter (tu_txouts u))) ∧
  (∀ txid a, a ∈ anchors_of g' txid ↔ a ∈ anchors_of g txid ∨ (a, txid) ∈ tu_anchors u) ∧
  first_seen g' = min_all (first_seen g) (hash_iter (tu_seen_ats u)) ∧
  last_seen g' = max_all (last_seen g) (hash_iter (tu_seen_ats u)) ∧
  last_evicted g' = max_all (last_evicted g) (hash_iter (tu_evicted_ats u)).
Proof.
  cbv zeta. rewrite graph_apply_update_fst.
  destruct (fold_all_fields g (tu_txs u) (map_iter (tu_txouts u)) (set_iter (tu_anchors u))
    (hash_iter (tu_seen_ats u)) (hash_iter (tu_evicted_ats u))) as (Ht & Ha & Hrest).
  split; [done|]. split; [|done]. intros txid a. by rewrite Ha, elem_of_set_iter.
Qed.

Lemma apply_update_holds g u : graph_wf g → holds_update (graph_apply_update g u).1 u.
Proof.
  intros Hg. destruct (apply_update_fields g u) as (Ht & Ha & Hf & Hl & He). split.
  - intros tx Hin. unfold has_tx. rewrite Ht. apply fold_txouts_has, fold_txs_has; auto.
  - intros op o Hop. rewrite Ht.
    set (g1 := fold_txs g (tu_txs u)).
    destruct (txs (fold_txouts g1 (map_iter (tu_txouts u))) !! op_txid op) as [[w|m]|] eqn:Hn.
    + left. by eexists.
    + right. rewrite <-Hn. apply fold_txouts_partial.
      * apply NoDup_map_iter.
      * intros [w Hw]. apply (fold_txouts_whole g1 (map_iter (tu_txouts u))) in Hw. congruence.
      * left. apply elem_of_map_iter. by destruct op.
    + apply fold_txouts_None in Hn as [_ Hn]. destruct (Hn (op_vout op)).
      apply list_elem_of_fmap. exists (op, o). split; [by destruct op|]. by apply elem_of_map_iter.
  - intros a txid Hin. apply Ha. by right.
  - intros txid t Hin%elem_of_hash_iter. rewrite Hf, Hl.
    destruct (min_all _ _ !! txid) as [f|] eqn:Ef; cycle 1.
    { apply (join_all_None opt_min) in Ef as [_ Hn]. by destruct (Hn t). }
    destruct (max_all _ _ !! txid) as [l|] eqn:El; cycle 1.
    { apply (join_all_None opt_max) in El as [_ Hn]. by destruct (Hn t). }
    apply min_all_joined in Ef as [_ Hmin]. apply max_all_joined in El as [_ Hmax].
    exists f, l. specialize (Hmin t (or_intror Hin)). specialize (Hmax t (or_intror Hin)).
    split_and!; [done|lia|done|done].
  - intros txid t Hin%elem_of_hash_iter. rewrite He.
    destruct (max_all _ _ !! txid) as [l|] eqn:El; cycle 1.
    { apply (join_all_None opt_max) in El as [_ Hn]. by destruct (Hn t). }
    apply max_all_joined in El as [_ Hmax]. exists l. split; [done|]. auto.
Qed.

(** C27. [apply_update] is a join with the graph: afterwards a full
    transaction is stored exactly for the ids that had one or that the update
    brings, with witnesses at least as preferable as every version seen;
    floating outputs are added or overwritten; anchors are united; and
    first-seen is the least, last-seen and last-evicted the greatest, of the
    times known before and brought by the update. *)
Theorem apply_update_joins g u :
  graph_wf g →
  let g' := (graph_apply_update g u).1 in
  (∀ txid, is_whole (txs g' !! txid) ↔
     is_whole (txs g !! txid) ∨ ∃ tx, tx ∈ tu_txs u ∧ compute_txid tx = txid) ∧
  (∀ tx, tx ∈ tu_txs u ∨ has_tx g tx → has_tx g' tx) ∧
  (∀ op o, ¬ is_whole (txs g' !! op_txid op) →
     get_txout g' op = Some o ↔
       tu_txouts u !! op = Some o ∨ (tu_txouts u !! op = None ∧ get_txout g op = Some o)) ∧
  (∀ txid a, a ∈ anchors_of g' txid ↔ a ∈ anchors_of g txid ∨ (a, txid) ∈ tu_anchors u) ∧
  (∀ txid t, first_seen g' !! txid = Some t ↔
     joined N.ge (first_seen g) (hash_iter (tu_seen_ats u)) txid t) ∧
  (∀ txid t, last_seen g' !! txid = Some t ↔
     joined N.le (last_seen g) (hash_iter (tu_seen_ats u)) txid t) ∧
  (∀ txid t, last_evicted g' !! txid = Some t ↔
     joined N.le (last_evicted g) (hash_iter (tu_evicted_ats u)) txid t).
Proof.
  intros Hg g'. destruct (apply_update_fields g u) as (Ht & Ha & Hf & Hl & He).
  fold g' in Ht, Ha, Hf, Hl, He.
  assert (Hw : ∀ txid, is_whole (txs g' !! txid) ↔ is_whole (txs (fold_txs g (tu_txs u)) !! txid)).
  { intros txid. unfold is_whole. rewrite Ht. by setoid_rewrite fold_txouts_whole. }
  split_and!.
  - intros txid. rewrite Hw. split; [apply fold_txs_whole_inv|apply fold_txs_whole].
  - intros tx Hin. unfold has_tx. rewrite Ht. by apply fold_txouts_has, fold_txs_has.
  - intros op o Hnw. pose proof Hnw as Hnw'. rewrite Hw in Hnw'.
    assert (Hsame : txs (fold_txs g (tu_txs u)) !! op_txid op = txs g !! op_txid op).
    { apply fold_txs_other. intros tx Hin Hid. apply Hnw', fold_txs_whole. eauto. }
    assert (Hgp : ∀ g0, ¬ is_whole (txs g0 !! op_txid op) →
      get_txout g0 op = partial_of (txs g0 !! op_txid op) !! op_vout op).
    { intros g0 Hn. unfold get_txout. destruct (txs g0 !! op_txid op) as [[w|m]|]; try done.
      destruct Hn. by eexists. }
    rewrite (Hgp g' Hnw), (Hgp g) by (by rewrite <-Hsame). rewrite Ht.
    rewrite fold_txouts_partial; [|apply NoDup_map_iter|done]. rewrite Hsame.
    replace (mkOutPoint (op_txid op) (op_vout op)) with op by (by destruct op).
    rewrite elem_of_map_iter. split.
    + intros [?|[? Hn]]; [by left|right]. split; [|done].
      destruct (tu_txouts u !! op) as [x|] eqn:Hx; [|done]. destruct Hn.
      apply list_elem_of_fmap. exists (op, x). split; [done|]. by apply elem_of_map_iter.
    + intros [?|[Hn ?]]; [by left|right]. split; [done|].
      intros ([op' x] & Hop & Hx)%list_elem_of_fmap. simpl in Hop. subst op'.
      apply elem_of_map_iter in Hx. congruence.
  - done.
  - intros txid t. by rewrite Hf, min_all_joined.
  - intros txid t. by rewrite Hl, max_all_joined.
  - intros txid t. by rewrite He, max_all_joined.
Qed.

(** Applying an update a second time changes nothing and returns an empty
    change set, whatever order the hash sets of the update are iterated in. *)
Theorem apply_update_idempotent g u :
  graph_wf g →
  let g' := (graph_apply_update g u).1 in
  graph_apply_update g' u = (g', TxChangeSet_default).
Proof.
  intros Hg g'. apply apply_update_idle; [by apply apply_update_wf|by apply apply_update_holds].
Qed.

(** Change sets of the graph form a monoid under [merge], whose unit is
    the empty one; times merge by least and greatest. *)
Theorem graph_changeset_merge_laws (a b c : TxChangeSet A) :
  merge (merge a b) c = merge a (merge b c) ∧
  merge TxChangeSet_default a = a ∧ merge a TxChangeSet_default = a ∧
  (merge_is_empty a = true ↔ a = TxChangeSet_default) ∧
  ∀ k, cs_first_seen (merge a b) !! k =
         union_with (λ x y, Some (N.min x y)) (cs_first_seen a !! k) (cs_first_seen b !! k) ∧
       cs_last_seen (merge a b) !! k =
         union_with (λ x y, Some (N.max x y)) (cs_last_seen a !! k) (cs_last_seen b !! k) ∧
       cs_last_evicted (merge a b) !! k =
         union_with (λ x y, Some (N.max x y)) (cs_last_evicted a !! k) (cs_last_evicted b !! k).
Proof.
  split_and!.
  - apply (merge_assoc (T:=TxChangeSet A)).
  - exact (merge_default_l (T:=TxChangeSet A) a).
  - exact (merge_default_r (T:=TxChangeSet A) a).
  - exact (merge_empty_iff (T:=TxChangeSet A) a).
  - intros k. cbn. rewrite keep_lower_lookup, !keep_higher_lookup.
    split_and!; by repeat destruct (_ !! k).
Qed.

(** ** Persistence *)

Lemma elem_of_full_txs g tx :
  tx ∈ node_tx <$> full_txs g ↔ ∃ k, txs g !! k = Some (Whole tx).
Proof.
  unfold full_txs. rewrite list_elem_of_fmap. setoid_rewrite list_elem_of_omap. split.
  - intros (n & -> & [k [t|m]] & Hin & Hn); simplify_eq/=.
    exists k. by apply elem_of_hash_map_iter.
  - intros [k Hk]. exists (node_of g k tx). split; [done|]. exists (k, Whole tx).
    split; [by apply elem_of_hash_map_iter|done].
Qed.

Lemma elem_of_floating_txouts g op o :
  (op, o) ∈ floating_txouts g ↔
  ∃ m, txs g !! op_txid op = Some (Partial m) ∧ m !! op_vout op = Some o.
Proof.
  unfold floating_txouts. rewrite list_elem_of_bind. split.
  - intros ([k [t|m]] & Hop & Hin); simpl in Hop; [by apply elem_of_nil in Hop|].
    apply list_elem_of_fmap in Hop as ([v x] & [= -> ->] & Hv). apply elem_of_map_iter in Hv.
    exists m. split; [by apply elem_of_hash_map_iter|done].
  - intros (m & Hm & Ho). exists (op_txid op, Partial m). split; [|by apply elem_of_hash_map_iter].
    simpl. apply list_elem_of_fmap. exists (op_vout op, o).
    split; [by destruct op|by apply elem_of_map_iter].
Qed.

Lemma initial_txouts_lookup g op o :
  cs_txouts (graph_initial_changeset g) !! op = Some o ↔
  ∃ m, txs g !! op_txid op = Some (Partial m) ∧ m !! op_vout op = Some o.
Proof.
  simpl. rewrite <-elem_of_floating_txouts. symmetry. apply elem_of_list_to_map'.
  intros x (m & Hm & Hx)%elem_of_floating_txouts. intros (m' & Hm' & Hx')%elem_of_floating_txouts.
  congruence.
Qed.

Lemma elem_of_initial_anchors g a txid :
  (a, txid) ∈ cs_anchors (graph_initial_changeset g) ↔ a ∈ anchors_of g txid.
Proof.
  simpl. rewrite elem_of_list_to_set, list_elem_of_bind. unfold anchors_of. split.
  - intros ([k s] & Hin & Hk). simpl in Hin.
    apply list_elem_of_fmap in Hin as (b & [= -> ->] & Hb). apply elem_of_set_iter in Hb.
    apply elem_of_hash_map_iter in Hk. by rewrite Hk.
  - intros Ha. destruct (anchors g !! txid) as [s|] eqn:Hs; simpl in Ha; [|set_solver].
    exists (txid, s). split; [|by apply elem_of_hash_map_iter]. simpl.
    apply list_elem_of_fmap. exists a. split; [done|]. by apply elem_of_set_iter.
Qed.

Lemma list_to_map_hash_iter {V} (m : gmap Txid V) : list_to_map (hash_map_iter m) = m.
Proof.
  apply map_eq. intros k. apply option_eq. intros v.
  rewrite <-elem_of_list_to_map by apply NoDup_hash_map_iter. apply elem_of_hash_map_iter.
Qed.

Definition with_first_seen g (m : gmap Txid N) : TxGraph A :=
  mkTxGraph (txs g) (spends g) (anchors g) m (last_seen g) (last_evicted g)
    (txs_by_highest_conf_heights g) (txs_by_last_seen g).

Lemma restored_txs g k :
  graph_wf g →
  txs (fold_txouts (fold_txs (TxGraph_default (A:=A)) (set_iter (cs_txs (graph_initial_changeset g))))
        (map_iter (cs_txouts (graph_initial_changeset g)))) !! k = txs g !! k.
Proof.
  intros Hg. set (l := set_iter (cs_txs (graph_initial_changeset g))).
  assert (Hl : ∀ tx, tx ∈ l ↔ txs g !! compute_txid tx = Some (Whole tx)).
  { intros tx. unfold l. rewrite elem_of_set_iter. simpl.
    rewrite elem_of_list_to_set, elem_of_full_txs. split; [|by eexists].
    intros [k' Hk']. pose proof (wf_txid g Hg _ _ Hk') as <-. done. }
  assert (Hnd : NoDup (compute_txid <$> l)).
  { apply NoDup_fmap_2_strong; [|apply NoDup_set_iter].
    intros x y Hx%Hl Hy%Hl Heq. rewrite Heq in Hx. congruence. }
  destruct (fold_txs_fresh (TxGraph_default (A:=A)) l k Hnd) as [Hin Hout]; [by intros|].
  destruct (txs g !! k) as [[tx|m]|] eqn:Hk.
  - apply fold_txouts_whole. pose proof (wf_txid g Hg _ _ Hk) as <-.
    apply Hin; [by apply Hl|done].
  - assert (Hnone : txs (fold_txs (TxGraph_default (A:=A)) l) !! k = None).
    { rewrite Hout; [done|]. intros tx Htx%Hl <-. congruence. }
    set (r := txs (fold_txouts _ _) !! k).
    assert (Hr : ∀ v, partial_of r !! v = m !! v).
    { intros v. apply option_eq. intros o. unfold r.
      rewrite fold_txouts_partial; [|apply NoDup_map_iter|].
      - rewrite Hnone, elem_of_map_iter, initial_txouts_lookup. simpl. rewrite Hk.
        split; [intros [(m' & [= <-] & ?)|[? _]]; done|]. intros ?. left. by exists m.
      - rewrite Hnone. by intros [? ?]. }
    assert (Hm : m ≠ ∅) by (by apply (wf_partial g Hg k)).
    apply map_choose in Hm as (v & o & Hv).
    destruct r as [[w|m']|] eqn:Er.
    + unfold r in Er. apply fold_txouts_whole in Er. congruence.
    + do 2 f_equal. apply map_eq. intros v'. apply Hr.
    + specialize (Hr v). simpl in Hr. rewrite Hv in Hr. done.
  - apply fold_txouts_None. split.
    + rewrite Hout; [done|]. intros tx Htx%Hl <-. congruence.
    + intros v ([op x] & Hop & Hx)%list_elem_of_fmap. simpl in Hop. subst op.
      apply elem_of_map_iter, initial_txouts_lookup in Hx as (m & Hm & _). simpl in Hm. congruence.
Qed.

Lemma map_iter_seen (m : gmap Txid N) k t : (k, t) ∈ map_iter m ↔ m !! k = Some t.
Proof. apply elem_of_map_iter. Qed.

(** Persisting a graph through its initial change set and loading it back
    restores everything (transactions, floating outputs, spends, anchors,
    last-seen and last-evicted times and both indices) except the first-seen
    times, which come back as the last-seen times. *)
Theorem graph_persist_roundtrip g :
  graph_wf g →
  graph_from_changeset (graph_initial_changeset g) = with_first_seen g (last_seen g).
Proof.
  intros Hg. set (cs := graph_initial_changeset g).
  destruct (fold_all_fields (TxGraph_default (A:=A)) (set_iter (cs_txs cs))
    (map_iter (cs_txouts cs)) (set_iter (cs_anchors cs)) (map_iter (cs_last_seen cs))
    (map_iter (cs_last_evicted cs))) as (Ht & Ha & Hf & Hl & He).
  set (g' := fold_all _ _ _ _ _ _) in *. change (graph_from_changeset cs) with g'.
  assert (Hwf : graph_wf g') by apply (apply_changeset_wf _ cs graph_wf_default).
  apply graph_ext; [done|by destruct Hg|..].
  - rewrite Ht. apply map_eq. intros k. exact (restored_txs g k Hg).
  - apply map_eq. intros k. simpl.
    assert (Heq : anchors_of g' k = anchors_of g k).
    { apply leibniz_equiv. intros a. rewrite Ha, elem_of_set_iter. unfold cs.
      rewrite elem_of_initial_anchors. unfold anchors_of at 1. simpl. rewrite lookup_empty.
      set_solver. }
    unfold anchors_of in Heq.
    destruct (anchors g' !! k) as [s|] eqn:E', (anchors g !! k) as [s'|] eqn:Eg; simpl in Heq;
      subst; try done.
    + by apply (wf_anchors g' Hwf) in E'.
    + by apply (wf_anchors g Hg) in Eg.
  - rewrite Hf. simpl. rewrite list_to_map_hash_iter. apply min_all_map, map_iter_seen.
  - rewrite Hl. simpl. rewrite list_to_map_hash_iter. apply max_all_map, map_iter_seen.
  - rewrite He. simpl. rewrite list_to_map_hash_iter. apply max_all_map, map_iter_seen.
Qed.

(** ** Fees *)

Definition missing_outpoints g (tx : Transaction) : list OutPoint :=
  filter (λ op, get_txout g op = None) (tx_prevouts tx).

Definition sum_values (l : list TxOut) : N := foldr (λ o s, txout_value o + s) 0 l.

(** The value of the outputs a transaction spends, those the graph knows. *)
Definition inputs_value g (tx : Transaction) : N := sum_values (omap (get_txout g) (tx_prevouts tx)).

Lemma to_signed_fits v : (Z.of_N v <= I64_MAX)%Z → to_signed v = Some (Z.of_N v).
Proof. intros H'. unfold to_signed. by rewrite (proj2 (Z.leb_le _ _) H'). Qed.

Lemma checked_i64_fits z : (I64_MIN <= z <= I64_MAX)%Z → checked_i64 z = Some z.
Proof.
  intros [Hl Hu]. unfold checked_i64. by rewrite (proj2 (Z.leb_le _ _) Hl), (proj2 (Z.leb_le _ _) Hu).
Qed.

Lemma checked_i64_sum (n v k : N) :
  (Z.of_N (n + (v + k)) <= I64_MAX)%Z →
  to_signed v = Some (Z.of_N v) ∧ checked_i64 (Z.of_N n + Z.of_N v) = Some (Z.of_N (n + v)).
Proof.
  intros Hle. split; [apply to_signed_fits; lia|]. rewrite checked_i64_fits.
  - f_equal. lia.
  - unfold I64_MIN. lia.
Qed.

Lemma fold_inputs_spec g (l : list TxIn) (n : N) missing :
  (Z.of_N (n + sum_values (omap (get_txout g) (previous_output <$> l))) <= I64_MAX)%Z →
  fold_inputs g l (Z.of_N n) missing =
    Some (Z.of_N (n + sum_values (omap (get_txout g) (previous_output <$> l))),
          missing ++ filter (λ op, get_txout g op = None) (previous_output <$> l)).
Proof.
  revert n missing. induction l as [|i l IH]; intros n missing Hle.
  { simpl. rewrite N.add_0_r. by rewrite app_nil_r. }
  rewrite fmap_cons in *. cbn [fold_inputs]. rewrite filter_cons. cbn [omap list_omap] in *.
  destruct (get_txout g (previous_output i)) as [o|] eqn:Ho.
  - cbn [sum_values foldr] in Hle. fold (sum_values (omap (get_txout g) (previous_output <$> l))) in Hle.
    destruct (checked_i64_sum n (txout_value o)
      (sum_values (omap (get_txout g) (previous_output <$> l))) Hle) as [-> Hs]. simpl.
    rewrite Hs. simpl. rewrite IH by (rewrite <-N.add_assoc; exact Hle).
    do 3 f_equal. by rewrite <-N.add_assoc.
  - rewrite IH by done. rewrite decide_True by done. by rewrite <-app_assoc.
Qed.

Lemma sum_outputs_spec (l : list TxOut) (n : N) :
  (Z.of_N (n + sum_values l) <= I64_MAX)%Z →
  sum_outputs l (Z.of_N n) = Some (Z.of_N (n + sum_values l)).
Proof.
  revert n. induction l as [|o l IH]; intros n Hle; [by simpl; rewrite N.add_0_r|].
  destruct (checked_i64_sum n (txout_value o) (sum_values l) Hle) as [Hv Hs]. cbn [sum_outputs].
  rewrite Hv. simpl. rewrite Hs. simpl. rewrite IH; [do 2 f_equal; simpl; lia|].
  rewrite <-N.add_assoc. exact Hle.
Qed.

(** Within the 64-bit range, [calculate_fee] is zero for a coinbase;
    otherwise it reports exactly the spent outpoints the graph does not know,
    in input order, or if there are none the difference between the spent and
    the created value, as a fee or as a negative-fee error. *)
Theorem calculate_fee_correct g tx :
  (Z.of_N (inputs_value g tx) <= I64_MAX)%Z →
  (Z.of_N (sum_values (tx_output tx)) <= I64_MAX)%Z →
  calculate_fee g tx =
    Some (if is_coinbase tx then Ok 0
          else if decide (missing_outpoints g tx = []) then
            let fee := (Z.of_N (inputs_value g tx) - Z.of_N (sum_values (tx_output tx)))%Z in
            if (fee <? 0)%Z then Err (NegativeFee fee)
            else Ok (inputs_value g tx - sum_values (tx_output tx))
          else Err (MissingTxOut (missing_outpoints g tx))).
Proof.
  intros Hin Hout. unfold calculate_fee. destruct (is_coinbase tx); [done|].
  pose proof (fold_inputs_spec g (tx_input tx) 0 [] Hin) as Hf.
  rewrite N.add_0_l in Hf. change (Z.of_N 0) with 0%Z in Hf. rewrite Hf. simpl.
  fold (tx_prevouts tx). fold (missing_outpoints g tx). fold (inputs_value g tx).
  destruct (missing_outpoints g tx) as [|op l]; [|by rewrite decide_False].
  rewrite decide_True by done.
  pose proof (sum_outputs_spec (tx_output tx) 0 Hout) as Hs. rewrite N.add_0_l in Hs.
  change (Z.of_N 0) with 0%Z in Hs. rewrite Hs. simpl.
  rewrite checked_i64_fits by (unfold I64_MIN, I64_MAX in *; lia). simpl.
  destruct (Z.ltb_spec (Z.of_N (inputs_value g tx) - Z.of_N (sum_values (tx_output tx))) 0);
    [done|]. do 2 f_equal. lia.
Qed.
End spec.

(** ** The properties on a concrete graph *)

From S2P Require Import TxSamples.

Lemma sample_graph_wf : graph_wf sample_graph.
Proof. apply apply_update_wf, graph_wf_default. Qed.

Lemma graph_operations_keep_invariant_witness :
  graph_wf (insert_tx sample_graph tx_child).1.
Proof.
  exact (proj1 (graph_operations_keep_invariant sample_graph sample_graph_wf) tx_child).
Defined.

Lemma apply_update_joins_witness :
  is_whole (txs (graph_apply_update sample_graph sample_update).1 !! sample_txid tx_left).
Proof.
  apply (proj1 (apply_update_joins sample_graph sample_update sample_graph_wf)).
  right. exists tx_left. split; [|done]. do 2 right. left.
Defined.

Lemma apply_update_idempotent_witness :
  graph_apply_update sample_graph sample_update = (sample_graph, TxChangeSet_default).
Proof.
  exact (apply_update_idempotent TxGraph_default sample_update graph_wf_default).
Defined.

Lemma graph_persist_roundtrip_witness :
  graph_from_changeset (graph_initial_changeset sample_graph) =
  with_first_seen sample_graph (last_seen sample_graph).
Proof. exact (graph_persist_roundtrip sample_graph sample_graph_wf). Defined.

(** The restored graph differs: [tx_left] was first seen at 10, last at 12. *)
Lemma persisting_loses_first_seen :
  first_seen sample_graph !! sample_txid tx_left = Some 10 ∧
  first_seen (graph_from_changeset (graph_initial_changeset sample_graph))
    !! sample_txid tx_left = Some 12.
Proof. split; vm_compute; reflexivity. Qed.

Lemma calculate_fee_correct_witness :
  calculate_fee sample_graph tx_child = Some (Ok 1).
Proof.
  rewrite (calculate_fee_correct sample_graph tx_child); vm_compute; [reflexivity|done..].
Defined.
