(* ===== verification/TxWalk.v ===== *)
(** * Walks over the transaction graph

    [TxAncestors] and [TxDescendants] of [crates/chain/src/tx_graph.rs].  The
    closure of a walk is an [FnMut]: it threads a state [St] and answers an
    optional item.  [desc_run] and [anc_run] drive the iterator to its end; the
    fuel of [desc_fuel] and [anc_fuel] is enough for it. *)
From S2P Require Import Prelude Block Tx TxGraph TxGraphFacts.
#[local] Open Scope N_scope.

(** A breadth-first traversal: the visited set and the queue. *)
Record Walk (T : Type) := mkWalk { visited : gset Txid; queue : list (N * T) }.
Arguments mkWalk {T} visited queue.
Arguments visited {T}.
Arguments queue {T}.

Definition TxDescendants : Type := Walk Txid.
Definition TxAncestors `{Bitcoin} : Type := Walk Transaction.

Section walk.
Context `{Bitcoin} {A : Type} `{Countable A} `{!TotalOrd A, !Anchor A} `{HashOrder}.
Context (g : TxGraph A).

(** ** Descendants *)

(** [TxDescendants::populate_queue]. *)
Definition desc_spend_paths (depth : N) (txid : Txid) : list (N * Txid) :=
  p ← spends_range g txid; (λ t, (depth, t)) <$> hash_iter p.2.
Definition desc_populate (w : TxDescendants) (depth : N) (txid : Txid) : TxDescendants :=
  mkWalk (visited w) (queue w ++ desc_spend_paths depth txid).

Definition desc_include_root (txid : Txid) : TxDescendants := mkWalk ∅ [(0, txid)].
Definition desc_exclude_root (txid : Txid) : TxDescendants :=
  desc_populate (mkWalk ∅ []) 1 txid.
Definition desc_multiple_include_root (txids : list Txid) : TxDescendants :=
  mkWalk ∅ ((λ txid, (0, txid)) <$> txids).
Definition desc_multiple_exclude_root (txids : list Txid) : TxDescendants :=
  foldl (λ w txid, desc_populate w 1 txid) (mkWalk ∅ []) txids.

(** [walk_conflicts]. *)
Definition walk_conflicts (tx : Transaction) : TxDescendants :=
  desc_multiple_include_root (direct_conflicts g tx).*2.

Section descendants.
Context {St R : Type} (filter_map : St → N → Txid → St * option R).

(** One turn of the loop of [TxDescendants::next]: [None] when the queue is
    empty, otherwise the walk, the closure's state and the item found. *)
Definition desc_turn (w : TxDescendants) (s : St) : option (TxDescendants * St * option R) :=
  match queue w with
  | [] => None
  | (op_spends, txid) :: rest =>
      if decide (txid ∈ visited w) then Some (mkWalk (visited w) rest, s, None)
      else
        let w := mkWalk ({[txid]} ∪ visited w) rest in
        match filter_map s op_spends txid with
        | (s, Some item) => Some (desc_populate w (op_spends + 1) txid, s, Some item)
        | (s, None) => Some (w, s, None)
        end
  end.

(** [TxDescendants::next]. *)
Fixpoint desc_next (fuel : nat) (w : TxDescendants) (s : St) : TxDescendants * St * option R :=
  match fuel with
  | O => (w, s, None)
  | S fuel =>
      match desc_turn w s with
      | None => (w, s, None)
      | Some (w, s, Some item) => (w, s, Some item)
      | Some (w, s, None) => desc_next fuel w s
      end
  end.

(** All the items of the iterator, in order. *)
Fixpoint desc_run (fuel : nat) (w : TxDescendants) (s : St) : TxDescendants * St * list R :=
  match fuel with
  | O => (w, s, [])
  | S fuel =>
      match desc_turn w s with
      | None => (w, s, [])
      | Some (w, s, item) =>
          let '(w, s, items) := desc_run fuel w s in (w, s, option_list item ++ items)
      end
  end.
End descendants.

(** The spends recorded for transactions not yet visited. *)
Definition pending_spends (v : gset Txid) : nat :=
  foldr (λ p n, (if decide (op_txid p.1 ∈ v) then 0 else size p.2) + n)%nat 0%nat
    (map_to_list (spends g)).
Definition desc_fuel (w : TxDescendants) : nat :=
  length (queue w) + pending_spends (visited w).

(** ** Ancestors *)

(** The chain of adapters of [TxAncestors::populate_queue], for one input. *)
Definition anc_push (depth : N) (w : TxAncestors) (txin : TxIn) : TxAncestors :=
  let prev_txid := op_txid (previous_output txin) in
  if decide (prev_txid ∈ visited w) then w
  else
    mkWalk ({[prev_txid]} ∪ visited w)
      match get_tx g prev_txid with
      | Some tx => queue w ++ [(depth, tx)]
      | None => queue w
      end.

(** [TxAncestors::populate_queue]. *)
Definition anc_populate (w : TxAncestors) (depth : N) (tx : Transaction) : TxAncestors :=
  foldl (anc_push depth) w (tx_input tx).

Definition anc_include_root (tx : Transaction) : TxAncestors := mkWalk ∅ [(0, tx)].
Definition anc_exclude_root (tx : Transaction) : TxAncestors := anc_populate (mkWalk ∅ []) 1 tx.
Definition anc_multiple_include_root (l : list Transaction) : TxAncestors :=
  mkWalk ∅ ((λ tx, (0, tx)) <$> l).
Definition anc_multiple_exclude_root (l : list Transaction) : TxAncestors :=
  foldl (λ w tx, anc_populate w 1 tx) (mkWalk ∅ []) l.

Section ancestors.
Context {St R : Type} (filter_map : St → N → Transaction → St * option R).

(** One turn of the loop of [TxAncestors::next]. *)
Definition anc_turn (w : TxAncestors) (s : St) : option (TxAncestors * St * option R) :=
  match queue w with
  | [] => None
  | (ancestor_depth, tx) :: rest =>
      let w := mkWalk (visited w) rest in
      match filter_map s ancestor_depth tx with
      | (s, Some item) => Some (anc_populate w (ancestor_depth + 1) tx, s, Some item)
      | (s, None) => Some (w, s, None)
      end
  end.

(** [TxAncestors::next]. *)
Fixpoint anc_next (fuel : nat) (w : TxAncestors) (s : St) : TxAncestors * St * option R :=
  match fuel with
  | O => (w, s, None)
  | S fuel =>
      match anc_turn w s with
      | None => (w, s, None)
      | Some (w, s, Some item) => (w, s, Some item)
      | Some (w, s, None) => anc_next fuel w s
      end
  end.

Fixpoint anc_run (fuel : nat) (w : TxAncestors) (s : St) : TxAncestors * St * list R :=
  match fuel with
  | O => (w, s, [])
  | S fuel =>
      match anc_turn w s with
      | None => (w, s, [])
      | Some (w, s, item) =>
          let '(w, s, items) := anc_run fuel w s in (w, s, option_list item ++ items)
      end
  end.
End ancestors.

Definition anc_fuel (w : TxAncestors) : nat :=
  length (queue w) + size (dom (txs g) ∖ visited w).

(** [walk_descendants] and [walk_ancestors], run to their end. *)
Definition walk_descendants {St R} (f : St → N → Txid → St * option R) (txid : Txid) (s : St) :=
  let w := desc_exclude_root txid in desc_run f (desc_fuel w) w s.
Definition walk_ancestors {St R} (f : St → N → Transaction → St * option R)
    (tx : Transaction) (s : St) :=
  let w := anc_exclude_root tx in anc_run f (anc_fuel w) w s.

(** ** The fuel is enough *)

(** A direct descendant: it spends an output of [txid]. *)
Definition spends_from (txid child : Txid) : Prop :=
  ∃ op, op_txid op = txid ∧ op_vout op ≤ U32_MAX ∧ child ∈ outspends g op.

Lemma elem_of_spends_range txid p :
  p ∈ spends_range g txid ↔
  spends g !! p.1 = Some p.2 ∧ op_txid p.1 = txid ∧ op_vout p.1 ≤ U32_MAX.
Proof.
  destruct p as [[t v] s]. unfold spends_range.
  rewrite list_elem_of_filter, elem_of_map_iter. cbn [fst snd op_txid op_vout].
  assert (tle (mkOutPoint txid 0) (mkOutPoint t v) ∧ tle (mkOutPoint t v) (mkOutPoint txid U32_MAX)
    ↔ t = txid ∧ v ≤ U32_MAX) as Hr; [|tauto].
  unfold tle; simpl. unfold key_order_le, OutPoint_key, tle; simpl. unfold lex_le, tle; simpl.
  split; [|intros [-> ?]; split; right; split; [done|lia|done|lia]].
  intros [[[? ?]|[-> ?]] [[? ?]|[? ?]]]; split; lia.
Qed.

Lemma elem_of_spend_paths depth txid p :
  p ∈ desc_spend_paths depth txid ↔ p.1 = depth ∧ spends_from txid p.2.
Proof.
  unfold desc_spend_paths, spends_from, outspends. rewrite list_elem_of_bind. split.
  - intros ([op s] & (t & -> & Ht%elem_of_hash_iter)%list_elem_of_fmap & Hin).
    apply elem_of_spends_range in Hin as (Hs & Htx & Hv). simpl in *. split; [done|].
    exists op. by rewrite Hs.
  - intros [<- (op & Htx & Hv & Hc)]. destruct p as [d t]; simpl in *.
    destruct (spends g !! op) as [s|] eqn:Hs; simpl in Hc; [|set_solver].
    exists (op, s). split.
    + apply list_elem_of_fmap. exists t. split; [done|]. by apply elem_of_hash_iter.
    + by apply elem_of_spends_range.
Qed.

Definition sizes (l : list (OutPoint * gset Txid)) : nat := foldr (λ p n, size p.2 + n)%nat 0%nat l.

Lemma length_spend_paths depth txid :
  (length (desc_spend_paths depth txid) =
   sizes (spends_range g txid))%nat.
Proof.
  unfold desc_spend_paths. induction (spends_range g txid) as [|p l IH]; [done|].
  cbn [mbind list_bind sizes foldr]. rewrite length_app, length_fmap. f_equal; [|done].
  rewrite hash_iter_perm. done.
Qed.

Lemma sizes_perm l k : l ≡ₚ k → sizes l = sizes k.
Proof. induction 1; simpl; lia. Qed.

Lemma sizes_filter_le P Q `{!∀ p, Decision (P p), !∀ p, Decision (Q p)} l :
  (∀ p, p ∈ filter P l → Q p) → (sizes (filter P l) ≤ sizes (filter Q l))%nat.
Proof.
  induction l as [|p l IH]; intros Hin; [done|]. rewrite !filter_cons in *.
  destruct (decide (P p)).
  - rewrite decide_True by (apply Hin; by left). simpl. apply Nat.add_le_mono_l, IH.
    intros q Hq. apply Hin. by right.
  - specialize (IH Hin). destruct (decide (Q p)); simpl; lia.
Qed.

Lemma pending_visit v txid :
  txid ∉ v → (pending_spends ({[txid]} ∪ v) + sizes (spends_range g txid) ≤ pending_spends v)%nat.
Proof.
  intros Hv. unfold pending_spends.
  assert (sizes (spends_range g txid) ≤
    sizes (filter (λ p, op_txid p.1 = txid) (map_to_list (spends g))))%nat as Hle.
  { rewrite <-(sizes_perm (filter (λ p, op_txid p.1 = txid) (map_iter (spends g))) _
      (filter_Permutation _ _ _ (map_iter_perm _))).
    apply sizes_filter_le. intros p Hp. apply (elem_of_spends_range txid p). exact Hp. }
  etrans; [by apply Nat.add_le_mono_l|]. clear Hle.
  induction (map_to_list (spends g)) as [|p l IH]; [done|]. rewrite filter_cons. cbn [foldr].
  destruct (decide (op_txid p.1 = txid)) as [Heq|Hne].
  - rewrite (decide_True (P:=op_txid p.1 ∈ {[txid]} ∪ v)) by set_solver.
    rewrite decide_False by congruence. simpl. lia.
  - destruct (decide (op_txid p.1 ∈ v)).
    + rewrite decide_True by set_solver. lia.
    + rewrite decide_False by set_solver. lia.
Qed.

Section desc_runs.
Context {St R : Type} (f : St → N → Txid → St * option R).

(** Every turn uses up one unit of the measure. *)
Lemma desc_turn_fuel w s w' s' i :
  desc_turn f w s = Some (w', s', i) → (desc_fuel w' < desc_fuel w)%nat.
Proof.
  unfold desc_turn, desc_fuel. destruct (queue w) as [|[d t] rest]; [done|].
  destruct (decide (t ∈ visited w)); [intros [= <- <- <-]; simpl; lia|].
  pose proof (pending_visit (visited w) t ltac:(done)) as Hp.
  destruct (f s d t) as [s1 [item|]]; intros [= <- <- <-]; simpl; [|lia].
  rewrite length_app, length_spend_paths. lia.
Qed.

Lemma desc_turn_None w s : desc_turn f w s = None ↔ queue w = [].
Proof.
  unfold desc_turn. destruct (queue w) as [|[d t] rest]; [done|].
  destruct (decide (t ∈ visited w)); [done|]. by destruct (f s d t) as [s1 [item|]].
Qed.

(** Rule induction over the turns of a run with enough fuel. *)
Lemma desc_run_ind (I : TxDescendants → St → list R → Prop) fuel w s acc :
  (desc_fuel w ≤ fuel)%nat →
  (∀ w s acc w' s' i, I w s acc → desc_turn f w s = Some (w', s', i) →
     I w' s' (acc ++ option_list i)) →
  I w s acc →
  let '(w', s', items) := desc_run f fuel w s in queue w' = [] ∧ I w' s' (acc ++ items).
Proof.
  intros Hfuel Hstep. revert w s acc Hfuel. induction fuel as [|fuel IH]; intros w s acc Hfuel HI.
  { simpl. rewrite app_nil_r. split; [|done]. unfold desc_fuel in Hfuel.
    apply length_zero_iff_nil. lia. }
  cbn [desc_run]. destruct (desc_turn f w s) as [[[w1 s1] i]|] eqn:Ht.
  - pose proof (desc_turn_fuel _ _ _ _ _ Ht).
    specialize (IH w1 s1 (acc ++ option_list i) ltac:(lia) ltac:(by eapply Hstep)).
    destruct (desc_run f fuel w1 s1) as [[w2 s2] items]. by rewrite <-app_assoc in IH.
  - rewrite app_nil_r. split; [|done]. by apply desc_turn_None in Ht.
Qed.
End desc_runs.

Lemma anc_push_fuel d w i : (anc_fuel (anc_push d w i) ≤ anc_fuel w)%nat.
Proof.
  unfold anc_push, anc_fuel. set (t := op_txid (previous_output i)).
  destruct (decide (t ∈ visited w)) as [|Hv]; [done|]. cbn [visited queue].
  destruct (get_tx g t) as [tx|] eqn:Hg.
  - assert (Hd : t ∈ dom (txs g)).
    { unfold get_tx, get_tx_node in Hg. destruct (txs g !! t) eqn:Ht; [|done].
      by eapply elem_of_dom_2. }
    rewrite length_app. simpl.
    pose proof (size_difference_insert (dom (txs g)) (visited w) t Hd Hv). lia.
  - apply Nat.add_le_mono_l. apply subseteq_size. set_solver.
Qed.

Lemma anc_populate_fuel d w tx : (anc_fuel (anc_populate w d tx) ≤ anc_fuel w)%nat.
Proof.
  unfold anc_populate. revert w. induction (tx_input tx) as [|i l IH]; intros w; simpl; [done|].
  etrans; [apply IH|]. apply anc_push_fuel.
Qed.

Section anc_runs.
Context {St R : Type} (f : St → N → Transaction → St * option R).

Lemma anc_turn_fuel w s w' s' i :
  anc_turn f w s = Some (w', s', i) → (anc_fuel w' < anc_fuel w)%nat.
Proof.
  unfold anc_turn. destruct (queue w) as [|[d t] rest] eqn:Hq; [done|].
  assert (anc_fuel (mkWalk (visited w) rest) < anc_fuel w)%nat.
  { unfold anc_fuel. rewrite Hq. simpl. lia. }
  destruct (f s d t) as [s1 [item|]]; intros [= <- <- <-]; [|done].
  eapply Nat.le_lt_trans; [apply anc_populate_fuel|done].
Qed.

Lemma anc_turn_None w s : anc_turn f w s = None ↔ queue w = [].
Proof.
  unfold anc_turn. destruct (queue w) as [|[d t] rest]; [done|].
  by destruct (f s d t) as [s1 [item|]].
Qed.

(** Rule induction over the turns of a run with enough fuel. *)
Lemma anc_run_ind (I : TxAncestors → St → list R → Prop) fuel w s acc :
  (anc_fuel w ≤ fuel)%nat →
  (∀ w s acc w' s' i, I w s acc → anc_turn f w s = Some (w', s', i) →
     I w' s' (acc ++ option_list i)) →
  I w s acc →
  let '(w', s', items) := anc_run f fuel w s in queue w' = [] ∧ I w' s' (acc ++ items).
Proof.
  intros Hfuel Hstep. revert w s acc Hfuel. induction fuel as [|fuel IH]; intros w s acc Hfuel HI.
  { simpl. rewrite app_nil_r. split; [|done]. unfold anc_fuel in Hfuel.
    apply length_zero_iff_nil. lia. }
  cbn [anc_run]. destruct (anc_turn f w s) as [[[w1 s1] i]|] eqn:Ht.
  - pose proof (anc_turn_fuel _ _ _ _ _ Ht).
    specialize (IH w1 s1 (acc ++ option_list i) ltac:(lia) ltac:(by eapply Hstep)).
    destruct (anc_run f fuel w1 s1) as [[w2 s2] items]. by rewrite <-app_assoc in IH.
  - rewrite app_nil_r. split; [|done]. by apply anc_turn_None in Ht.
Qed.
End anc_runs.

(** What populating the queue with the inputs of a transaction does. *)
Lemma anc_populate_spec d w tx :
  let w' := anc_populate w d tx in
  (∀ t, t ∈ visited w' ↔ t ∈ visited w ∨ t ∈ op_txid <$> tx_prevouts tx) ∧
  (∀ p, p ∈ queue w' ↔ p ∈ queue w ∨
     p.1 = d ∧ ∃ t, t ∈ op_txid <$> tx_prevouts tx ∧ t ∉ visited w ∧ get_tx g t = Some p.2).
Proof.
  cbv zeta. unfold anc_populate, tx_prevouts. revert w.
  induction (tx_input tx) as [|i l IH]; intros w.
  { simpl. split; [set_solver|]. intros p. split; [auto|].
    intros [?|(_ & t & []%elem_of_nil & _)]. done. }
  cbn [foldl]. destruct (IH (anc_push d w i)) as [IHv IHq]. rewrite fmap_cons, fmap_cons.
  set (u := op_txid (previous_output i)).
  assert (Hv : ∀ t, t ∈ visited (anc_push d w i) ↔ t ∈ visited w ∨ t = u).
  { intros t. unfold anc_push. fold u. destruct (decide (u ∈ visited w)); simpl; set_solver. }
  assert (Hq : ∀ p, p ∈ queue (anc_push d w i) ↔ p ∈ queue w ∨
    p.1 = d ∧ u ∉ visited w ∧ get_tx g u = Some p.2).
  { intros p. unfold anc_push. fold u. destruct (decide (u ∈ visited w)); simpl; [tauto|].
    destruct (get_tx g u) as [x|]; simpl; [|naive_solver].
    rewrite elem_of_app, list_elem_of_singleton. destruct p as [e y]; simpl. naive_solver. }
  split.
  - intros t. rewrite IHv, Hv, elem_of_cons. tauto.
  - intros p. rewrite IHq, Hq. split.
    + intros [[?|(? & ? & ?)]|(? & t & Ht & Hn & ?)]; [tauto|right|right].
      * split; [done|]. exists u. split_and!; [by left|done|done].
      * split; [done|]. exists t. rewrite Hv in Hn. split_and!; [by right|tauto|done].
    + intros [?|(? & t & [->|Ht]%elem_of_cons & Hn & ?)]; [tauto|tauto|].
      destruct (decide (t = u)) as [->|Hne]; [tauto|].
      right. split; [done|]. exists t. rewrite Hv. split_and!; [done|tauto|done].
Qed.
End walk.
