(* ===== verification/ChainData.v ===== *)
(** * Chain positions and balances

    Models [crates/chain/src/chain_data.rs] and [crates/chain/src/balance.rs]:
    where a transaction stands, the order of such positions, and the balance
    of a wallet by category. *)
From S2P Require Import Prelude Block Tx.
#[local] Open Scope N_scope.

(** ** [ChainPosition] *)

Inductive ChainPosition (A : Type) :=
| Confirmed (anchor : A) (transitively : option Txid)
| Unconfirmed (first_seen last_seen : option N).
Arguments Confirmed {A} anchor transitively.
Arguments Unconfirmed {A} first_seen last_seen.

#[export] Instance ChainPosition_eq_dec `{EqDecision A} : EqDecision (ChainPosition A).
Proof. solve_decision. Defined.

(** Rust's [Ord::cmp] of a total order. *)
Definition tcmp `{TotalOrd K, EqDecision K} (a b : K) : comparison :=
  if decide (a = b) then Eq else if decide (tle a b) then Lt else Gt.

Definition then_with (c d : comparison) : comparison :=
  match c with Eq => d | c => c end.

(** [None] sorts last. *)
Definition cmp_none_last `{TotalOrd K, EqDecision K} (t1 t2 : option K) : comparison :=
  match t1, t2 with
  | None, None => Eq
  | None, Some _ => Gt
  | Some _, None => Lt
  | Some t1, Some t2 => tcmp t1 t2
  end.

Section chain_position.
Context `{TotalOrd A, EqDecision A}.

Definition is_confirmed (pos : ChainPosition A) : bool :=
  match pos with Confirmed _ _ => true | _ => false end.
Definition is_unconfirmed (pos : ChainPosition A) : bool :=
  match pos with Unconfirmed _ _ => true | _ => false end.

Definition pos_height_upper_bound `{!Anchor A} (pos : ChainPosition A) : option N :=
  match pos with
  | Confirmed anchor _ => Some (confirmation_height_upper_bound anchor)
  | Unconfirmed _ _ => None
  end.

(** [Ord for ChainPosition]. *)
Definition pos_cmp (self other : ChainPosition A) : comparison :=
  match self, other with
  | Confirmed a1 t1, Confirmed a2 t2 =>
      match tcmp a1 a2 with
      | Eq => cmp_none_last t1 t2
      | other => other
      end
  | Unconfirmed f1 l1, Unconfirmed f2 l2 =>
      match cmp_none_last f1 f2 with
      | Eq => cmp_none_last l1 l2
      | other => other
      end
  | Confirmed _ _, Unconfirmed _ _ => Lt
  | Unconfirmed _ _, Confirmed _ _ => Gt
  end.
End chain_position.

(** ** [Balance]

    Amounts have 64 bits and are added by the [bitcoin] crate; [None] is a sum
    that leaves the range, whose outcome there is not modelled. *)

Record Balance := mkBalance {
  immature : N;
  trusted_pending : N;
  untrusted_pending : N;
  confirmed : N;
}.

#[export] Instance Balance_eq_dec : EqDecision Balance.
Proof. solve_decision. Defined.

Definition Balance_default : Balance := mkBalance 0 0 0 0.

Definition amount_add (a b : N) : option N := if a + b <=? U64_MAX then Some (a + b) else None.

Definition trusted_spendable (b : Balance) : option N := amount_add (confirmed b) (trusted_pending b).

Definition balance_total (b : Balance) : option N :=
  s ← amount_add (confirmed b) (trusted_pending b);
  s ← amount_add s (untrusted_pending b);
  amount_add s (immature b).

Definition balance_add (self other : Balance) : option Balance :=
  i ← amount_add (immature self) (immature other);
  t ← amount_add (trusted_pending self) (trusted_pending other);
  u ← amount_add (untrusted_pending self) (untrusted_pending other);
  c ← amount_add (confirmed self) (confirmed other);
  Some (mkBalance i t u c).

(** ** The order of positions *)

(** What it takes for a comparison function to be a total order. *)
Record IsTotalCmp {K} (cmp : K → K → comparison) : Prop := {
  cmp_eq : ∀ a b, cmp a b = Eq ↔ a = b;
  cmp_sym : ∀ a b, cmp b a = CompOpp (cmp a b);
  cmp_trans : ∀ a b c, cmp a b = Lt → cmp b c = Lt → cmp a c = Lt;
}.

Lemma cmp_refl {K} (cmp : K → K → comparison) (Hc : IsTotalCmp cmp) a : cmp a a = Eq.
Proof. by apply (cmp_eq cmp Hc). Qed.

Lemma cmp_gt {K} (cmp : K → K → comparison) (Hc : IsTotalCmp cmp) a b :
  cmp a b = Gt ↔ cmp b a = Lt.
Proof. rewrite (cmp_sym cmp Hc a b). by destruct (cmp a b). Qed.

Lemma tcmp_Lt `{TotalOrd K, EqDecision K} (a b : K) : tcmp a b = Lt ↔ tlt a b.
Proof.
  unfold tcmp, tlt. destruct (decide (a = b)); [naive_solver|].
  destruct (decide (tle a b)); naive_solver.
Qed.

Lemma tcmp_total `{TotalOrd K, EqDecision K} : IsTotalCmp (tcmp (K:=K)).
Proof.
  split.
  - intros a b. unfold tcmp. destruct (decide (a = b)); [done|]. by destruct (decide (tle a b)).
  - intros a b. unfold tcmp. destruct (decide (a = b)) as [->|Hn]; [by rewrite decide_True|].
    rewrite decide_False by congruence.
    destruct (decide (tle a b)), (decide (tle b a)); try done.
    + destruct Hn. by apply (anti_symm tle).
    + by destruct (total tle a b).
  - intros a b c. rewrite !tcmp_Lt. apply tlt_trans.
Qed.

Lemma cmp_none_last_total `{TotalOrd K, EqDecision K} : IsTotalCmp (cmp_none_last (K:=K)).
Proof.
  pose proof (tcmp_total (K:=K)) as Ht. split.
  - intros [a|] [b|]; simpl; try done. rewrite (cmp_eq _ Ht). split; congruence.
  - intros [a|] [b|]; simpl; try done. apply (cmp_sym _ Ht).
  - intros [a|] [b|] [c|]; simpl; try done. apply (cmp_trans _ Ht).
Qed.

(** Comparing by one key and then by another is total. *)
Lemma lexicographic_total {K L T} (f : T → K) (h : T → L) cmpK cmpL :
  IsTotalCmp cmpK → IsTotalCmp cmpL → (∀ a b, f a = f b → h a = h b → a = b) →
  IsTotalCmp (λ a b, match cmpK (f a) (f b) with Eq => cmpL (h a) (h b) | c => c end).
Proof.
  intros HK HL Hinj. split.
  - intros a b. split; [|intros ->; by rewrite !cmp_refl by done].
    destruct (cmpK (f a) (f b)) eqn:E; [|done..]. intros EL.
    apply Hinj; [by apply (cmp_eq _ HK)|by apply (cmp_eq _ HL)].
  - intros a b. rewrite (cmp_sym _ HK (f a)), (cmp_sym _ HL (h a)).
    by destruct (cmpK (f a) (f b)).
  - intros a b c. destruct (cmpK (f a) (f b)) eqn:E1, (cmpK (f b) (f c)) eqn:E2; try done;
      try apply (cmp_eq _ HK) in E1; try apply (cmp_eq _ HK) in E2.
    + rewrite E1, E2, cmp_refl by done. apply (cmp_trans _ HL).
    + by rewrite E1, E2.
    + by rewrite <-E2, E1.
    + by rewrite (cmp_trans _ HK _ _ _ E1 E2).
Qed.

Section order.
Context `{TotalOrd A, EqDecision A}.

(** The order of chain positions is total and agrees with equality, puts
    everything confirmed first, orders the confirmed by anchor with a
    transitive confirmation before a direct one, and the unconfirmed by
    first-seen and then last-seen time with a missing time last. *)
Theorem chain_position_order :
  IsTotalCmp (pos_cmp (A:=A)) ∧
  (∀ p q, is_confirmed p = true → is_confirmed q = false → pos_cmp p q = Lt) ∧
  (∀ a b t u, (a ≺ b)%bdk → pos_cmp (Confirmed a t) (Confirmed b u) = Lt) ∧
  (∀ a t, pos_cmp (Confirmed a (Some t)) (Confirmed a None) = Lt) ∧
  (∀ f g l m, f < g → pos_cmp (Unconfirmed (Some f) l) (Unconfirmed (Some g) m) = Lt) ∧
  (∀ f l m, l < m → pos_cmp (Unconfirmed f (Some l)) (Unconfirmed f (Some m)) = Lt) ∧
  (∀ f l m, pos_cmp (Unconfirmed (Some f) l) (Unconfirmed None m) = Lt) ∧
  (∀ f l, pos_cmp (Unconfirmed f (Some l)) (Unconfirmed f None) = Lt).
Proof.
  pose proof (tcmp_total (K:=A)) as HA. pose proof (cmp_none_last_total (K:=N)) as HN.
  assert (HC : IsTotalCmp (λ p q : A * option N,
    match tcmp p.1 q.1 with Eq => cmp_none_last p.2 q.2 | c => c end)).
  { apply lexicographic_total; [done..|]. intros [] []; simpl; congruence. }
  assert (HU : IsTotalCmp (λ p q : option N * option N,
    match cmp_none_last p.1 q.1 with Eq => cmp_none_last p.2 q.2 | c => c end)).
  { apply lexicographic_total; [done..|]. intros [] []; simpl; congruence. }
  split_and!.
  - split.
    + intros [a t|f l] [b u|g m]; [pose proof (cmp_eq _ HC (a, t) (b, u)) as Hc| | |
        pose proof (cmp_eq _ HU (f, l) (g, m)) as Hc]; simpl in *; try done;
        rewrite Hc; split; congruence.
    + intros [a t|f l] [b u|g m]; [apply (cmp_sym _ HC (a, t) (b, u))|done|done|
        apply (cmp_sym _ HU (f, l) (g, m))].
    + intros [a t|f l] [b u|g m] [c v|h n]; try done;
        [apply (cmp_trans _ HC (a, t) (b, u) (c, v))|apply (cmp_trans _ HU (f, l) (g, m) (h, n))].
  - by intros [] [].
  - intros a b t u Hab. simpl. by rewrite (proj2 (tcmp_Lt a b)).
  - intros a t. simpl. by rewrite (cmp_refl _ HA).
  - intros f g l m Hfg. simpl. by rewrite (proj2 (tcmp_Lt f g)) by (by apply tlt_N).
  - intros f l m Hlm. simpl. rewrite (cmp_refl _ HN). by apply tcmp_Lt, tlt_N.
  - done.
  - intros f l. simpl. by rewrite (cmp_refl _ HN).
Qed.
End order.
