(* ===== verification/ChainQuery.v ===== *)
(** * Queries against a chain

    Models [crates/core/src/chain_query.rs] and the driver
    [LocalChain::canonicalize] of [crates/chain/src/local_chain.rs].  The
    trait [ChainQuery] is a class; [ChainQueryLaws] is what an implementation
    promises to a driver: an invariant that rules out panics, and a measure
    that every answered query decreases. *)
From S2P Require Import Prelude Block CheckPoint LocalChain.

Definition ChainRequest : Type := list BlockId.
Definition ChainResponse : Type := option BlockId.

(** [None] is a panic. *)
Class ChainQuery (Q : Type) := {
  Output : Type;
  tip : Q → BlockId;
  next_query : Q → option (Q * option ChainRequest);
  resolve_query : Q → ChainResponse → option Q;
  finish : Q → Output;
}.

(** What follows a call of [next_query]. *)
Definition after_next {Q} `{ChainQuery Q} (inv : Q → Prop) (left : Q → nat) (task : Q) : Prop :=
  ∃ task' request, next_query task = Some (task', request) ∧ inv task' ∧
    tip task' = tip task ∧
    (is_Some request → ∀ response, ∃ task'', resolve_query task' response = Some task'' ∧
       inv task'' ∧ tip task'' = tip task ∧ (left task'' < left task)%nat).

Class ChainQueryLaws (Q : Type) `{ChainQuery Q} := {
  query_inv : Q → Prop;
  queries_left : Q → nat;
  query_progress : ∀ task, query_inv task → after_next query_inv queries_left task;
}.

(** The loop over the blocks of a request. *)
Fixpoint best_block_id (c : LocalChain BlockHash) (chain_tip : BlockId) (request : ChainRequest) :
    ChainResponse :=
  match request with
  | [] => None
  | block_id :: request =>
      if decide (is_block_in_chain c block_id chain_tip = Some true) then Some block_id
      else best_block_id c chain_tip request
  end.

Section canonicalize.
Context {Q : Type} `{ChainQuery Q} (c : LocalChain BlockHash).

Fixpoint canonicalize_loop (fuel : nat) (chain_tip : BlockId) (task : Q) : option Output :=
  match fuel with
  | O => None
  | S fuel =>
      match next_query task with
      | None => None
      | Some (task, None) => Some (finish task)
      | Some (task, Some request) =>
          task ← resolve_query task (best_block_id c chain_tip request);
          canonicalize_loop fuel chain_tip task
      end
  end.

Definition canonicalize (fuel : nat) (task : Q) : option Output :=
  canonicalize_loop fuel (tip task) task.

(** The tasks a driver can bring about, with the answers that [c] gives. *)
Inductive driven (chain_tip : BlockId) : Q → Q → Prop :=
| driven_refl task : driven chain_tip task task
| driven_query task task' request task'' last :
    next_query task = Some (task', Some request) →
    resolve_query task' (best_block_id c chain_tip request) = Some task'' →
    driven chain_tip task'' last → driven chain_tip task last.

Lemma canonicalize_loop_finishes `{!ChainQueryLaws Q} fuel chain_tip task :
  query_inv task → (queries_left task < fuel)%nat →
  ∃ last last', driven chain_tip task last ∧ next_query last = Some (last', None) ∧
    query_inv last' ∧ tip last' = tip task ∧
    canonicalize_loop fuel chain_tip task = Some (finish last').
Proof.
  revert task. induction fuel as [|fuel IH]; intros task Hinv Hleft; [lia|].
  destruct (query_progress task Hinv) as (task' & request & Hn & Hinv' & Htip & Hq).
  cbn [canonicalize_loop]. rewrite Hn. destruct request as [request|].
  - destruct (Hq ltac:(done) (best_block_id c chain_tip request))
      as (task'' & Hr & Hinv'' & Htip'' & Hlt). rewrite Hr. simpl.
    destruct (IH task'' Hinv'' ltac:(lia)) as (last & last' & Hd & Hl & Hi & Ht & Hc).
    exists last, last'. split_and!; [|done|done|congruence|done]. by econstructor.
  - exists task, task'. split_and!; [constructor|done|done|congruence|done].
Qed.
End canonicalize.

(** The answer is the first requested block that the chain contains below the
    chain tip. *)
Lemma best_block_id_spec c chain_tip request b :
  best_block_id c chain_tip request = Some b →
  b ∈ request ∧ is_block_in_chain c b chain_tip = Some true.
Proof.
  induction request as [|x request IH]; [done|]. simpl.
  destruct (decide _) as [Hx|]; [intros [= <-]; split; [by left|done]|].
  intros [? ?]%IH. split; [by right|done].
Qed.

Lemma best_block_id_None c chain_tip request b :
  best_block_id c chain_tip request = None → b ∈ request →
  is_block_in_chain c b chain_tip ≠ Some true.
Proof.
  induction request as [|x request IH]; intros Hn Hb; [by apply elem_of_nil in Hb|].
  simpl in Hn. destruct (decide _) as [|Hx]; [done|].
  apply elem_of_cons in Hb as [->|Hb]; auto.
Qed.
