(* ===== verification/CanonicalTask.v ===== *)
(** * Which transactions are canonical

    Models [crates/chain/src/canonical_task.rs]: the first phase of
    canonicalization, a task that answers [ChainQuery].  The iterators the
    task holds read an immutable graph, so they are the lists of what they
    yield.  [None] is a panic; [debug_assert]s are not modelled. *)
From S2P Require Import Prelude Block Tx TxGraph TxWalk LocalChain ChainQuery.
#[local] Open Scope N_scope.

(** ** Stages, parameters and reasons *)

Inductive CanonicalStage := AssumedTxs | AnchoredTxs | SeenTxs | LeftOverTxs | Finished.

Definition stage_default : CanonicalStage := AssumedTxs.
Definition stage_advance (stage : CanonicalStage) : CanonicalStage :=
  match stage with
  | AssumedTxs => AnchoredTxs
  | AnchoredTxs => SeenTxs
  | SeenTxs => LeftOverTxs
  | LeftOverTxs => Finished
  | Finished => Finished
  end.

Record CanonicalParams := mkCanonicalParams { assume_canonical : list Txid }.

Inductive ObservedIn := InBlock (height : N) | InMempool (last_seen : N).

(** [CanonicalReason]: [Assumed], [Anchor] and [ObservedIn]. *)
Inductive CanonicalReason (A : Type) :=
| Assumed (descendant : option Txid)
| ByAnchor (anchor : A) (descendant : option Txid)
| ByObservedIn (observed_in : ObservedIn) (descendant : option Txid).
Arguments Assumed {A} descendant.
Arguments ByAnchor {A} anchor descendant.
Arguments ByObservedIn {A} observed_in descendant.

Section reason.
Context {A : Type}.
Implicit Types reason : CanonicalReason A.

Definition reason_assumed : CanonicalReason A := Assumed None.
Definition from_anchor (anchor : A) : CanonicalReason A := ByAnchor anchor None.
Definition from_observed_in (observed_in : ObservedIn) : CanonicalReason A :=
  ByObservedIn observed_in None.

Definition to_transitive reason (descendant : Txid) : CanonicalReason A :=
  match reason with
  | Assumed _ => Assumed (Some descendant)
  | ByAnchor anchor _ => ByAnchor anchor (Some descendant)
  | ByObservedIn observed_in _ => ByObservedIn observed_in (Some descendant)
  end.

Definition reason_descendant reason : option Txid :=
  match reason with
  | Assumed descendant => descendant
  | ByAnchor _ descendant => descendant
  | ByObservedIn _ descendant => descendant
  end.

Definition is_transitive reason : bool := bool_decide (is_Some (reason_descendant reason)).
Definition is_assumed reason : bool := match reason with Assumed _ => true | _ => false end.
End reason.

(** ** [Canonical], the output of the task *)

Record Canonical `{Bitcoin} (P : Type) := mkCanonical {
  view_tip : BlockId;
  view_order : list Txid;
  view_txs : gmap Txid (Transaction * P);
  view_spends : gmap OutPoint Txid;
}.
Arguments mkCanonical {_ P}.
Arguments view_tip {_ P}.
Arguments view_order {_ P}.
Arguments view_txs {_ P}.
Arguments view_spends {_ P}.

Definition CanonicalTxs `{Bitcoin} (A : Type) : Type := Canonical (CanonicalReason A).

(** ** The task *)

(** The three fields that [mark_canonical] writes. *)
Record Marks `{Bitcoin} (A : Type) := mkMarks {
  canonical : gmap Txid (Transaction * CanonicalReason A);
  not_canonical : gset Txid;
  canonical_order : list Txid;
}.
Arguments mkMarks {_ A}.
Arguments canonical {_ A}.
Arguments not_canonical {_ A}.
Arguments canonical_order {_ A}.

Record CanonicalTask `{Bitcoin} (A : Type) `{Countable A} := mkTask {
  ct_graph : TxGraph A;
  ct_tip : BlockId;
  unprocessed_assumed_txs : list (Txid * Transaction);
  unprocessed_anchored_txs : list (Txid * Transaction * gset A);
  unprocessed_seen_txs : list (Txid * Transaction * N);
  unprocessed_leftover_txs : list (Txid * Transaction * N);
  ct_marks : Marks A;
  current_stage : CanonicalStage;
}.
Arguments mkTask {_ A _ _}.
Arguments ct_graph {_ A _ _}.
Arguments ct_tip {_ A _ _}.
Arguments unprocessed_assumed_txs {_ A _ _}.
Arguments unprocessed_anchored_txs {_ A _ _}.
Arguments unprocessed_seen_txs {_ A _ _}.
Arguments unprocessed_leftover_txs {_ A _ _}.
Arguments ct_marks {_ A _ _}.
Arguments current_stage {_ A _ _}.

(** The locals of [mark_canonical] and the two maps its closures write. *)
Record MarkState `{Bitcoin} (A : Type) := mkMarkState {
  ms_canonical : gmap Txid (Transaction * CanonicalReason A);
  ms_not_canonical : gset Txid;
  is_starting_tx : bool;
  detected_self_double_spend : bool;
  undo_not_canonical : list Txid;
  staged_canonical : list (Txid * Transaction * CanonicalReason A);
}.
Arguments mkMarkState {_ A}.
Arguments ms_canonical {_ A}.
Arguments ms_not_canonical {_ A}.
Arguments is_starting_tx {_ A}.
Arguments detected_self_double_spend {_ A}.
Arguments undo_not_canonical {_ A}.
Arguments staged_canonical {_ A}.

Section task.
Context `{Bitcoin} {A : Type} `{Countable A} `{!TotalOrd A, !Anchor A} `{HashOrder}.
Implicit Types (g : TxGraph A) (m : Marks A) (task : CanonicalTask A).

(** The closure given to [TxDescendants], on [not_canonical] and the undo list. *)
Definition insert_not_canonical (s : gset Txid * list Txid) (_ : N) (txid : Txid) :
    (gset Txid * list Txid) * option unit :=
  if decide (txid ∈ s.1) then (s, None)
  else (({[txid]} ∪ s.1, s.2 ++ [txid]), Some tt).

Definition prune g (s : gset Txid * list Txid) (conflict_txid : Txid) : gset Txid * list Txid :=
  let w := desc_include_root conflict_txid in
  (desc_run g insert_not_canonical (desc_fuel g w) w s).1.2.

Definition prune_conflicts g (s : gset Txid * list Txid) (tx : Transaction) :
    gset Txid * list Txid :=
  foldl (prune g) s (direct_conflicts g tx).*2.

(** The closure given to [TxAncestors]. *)
Definition mark_visit g (starting_txid : Txid) (reason : CanonicalReason A)
    (s : MarkState A) (_ : N) (tx : Transaction) : MarkState A * option Txid :=
  let this_txid := compute_txid tx in
  let this_reason := if is_starting_tx s then reason else to_transitive reason starting_txid in
  match ms_canonical s !! this_txid with
  | Some _ =>
      (mkMarkState (ms_canonical s) (ms_not_canonical s) false (detected_self_double_spend s)
         (undo_not_canonical s) (staged_canonical s), None)
  | None =>
      let '(nc, undo) := prune_conflicts g (ms_not_canonical s, undo_not_canonical s) tx in
      if decide (this_txid ∈ nc) then
        (mkMarkState (ms_canonical s) nc false true undo (staged_canonical s), None)
      else
        (mkMarkState (<[this_txid := (tx, this_reason)]> (ms_canonical s)) nc false
           (detected_self_double_spend s) undo
           (staged_canonical s ++ [(this_txid, tx, this_reason)]), Some this_txid)
  end.

Definition mark_start m : MarkState A :=
  mkMarkState (canonical m) (not_canonical m) true false [] [].

(** The walk of [mark_canonical] over [tx] and its ancestors. *)
Definition mark_walk g m (txid : Txid) (tx : Transaction) (reason : CanonicalReason A) :
    MarkState A :=
  let w := anc_include_root tx in
  (anc_run g (mark_visit g txid reason) (anc_fuel g w) w (mark_start m)).1.2.

Definition mark_canonical g m (txid : Txid) (tx : Transaction) (reason : CanonicalReason A) :
    Marks A :=
  let s := mark_walk g m txid tx reason in
  if detected_self_double_spend s then
    mkMarks (foldl (λ c p, delete p.1.1 c) (ms_canonical s) (staged_canonical s))
      (foldl (λ n txid, n ∖ {[txid]}) (ms_not_canonical s) (undo_not_canonical s))
      (canonical_order m)
  else
    mkMarks (ms_canonical s) (ms_not_canonical s)
      (canonical_order m ++ ((λ p, p.1.1) <$> staged_canonical s)).

Definition is_canonicalized m (txid : Txid) : bool :=
  bool_decide (is_Some (canonical m !! txid)) || bool_decide (txid ∈ not_canonical m).

(** [if !self.is_canonicalized(txid) { self.mark_canonical(..) }]. *)
Definition mark_if_new g m (txid : Txid) (tx : Transaction) (reason : CanonicalReason A) :
    Marks A :=
  if is_canonicalized m txid then m else mark_canonical g m txid tx reason.

(** [CanonicalTask::new]. *)
Definition CanonicalTask_new g (chain_tip : BlockId) (params : CanonicalParams) :
    CanonicalTask A := {|
  ct_graph := g;
  ct_tip := chain_tip;
  unprocessed_assumed_txs :=
    omap (λ txid, tx ← get_tx g txid; Some (txid, tx)) (reverse (assume_canonical params));
  unprocessed_anchored_txs :=
    omap (λ p : N * Txid, tx ← get_tx g p.2; a ← all_anchors g !! p.2; Some (p.2, tx, a))
      (txids_by_descending_anchor_height g);
  unprocessed_seen_txs :=
    omap (λ p : N * Txid, tx ← get_tx g p.2; Some (p.2, tx, p.1))
      (txids_by_descending_last_seen g);
  unprocessed_leftover_txs := [];
  ct_marks := mkMarks ∅ ∅ [];
  current_stage := stage_default;
|}.

(** [TxGraph::canonical_task]. *)
Definition canonical_task g (chain_tip : BlockId) (params : CanonicalParams) :
    CanonicalTask A := CanonicalTask_new g chain_tip params.

Definition with_stage task (stage : CanonicalStage) : CanonicalTask A :=
  mkTask (ct_graph task) (ct_tip task) (unprocessed_assumed_txs task)
    (unprocessed_anchored_txs task) (unprocessed_seen_txs task)
    (unprocessed_leftover_txs task) (ct_marks task) stage.

(** One turn of the loop of [next_query]: [inl] to go round again, [inr] to
    return. *)
Definition next_turn task : option (CanonicalTask A + CanonicalTask A * option ChainRequest) :=
  let g := ct_graph task in
  let advance := Some (inl (with_stage task (stage_advance (current_stage task)))) in
  match current_stage task with
  | AssumedTxs =>
      match unprocessed_assumed_txs task with
      | (txid, tx) :: rest =>
          Some (inl (mkTask g (ct_tip task) rest (unprocessed_anchored_txs task)
            (unprocessed_seen_txs task) (unprocessed_leftover_txs task)
            (mark_if_new g (ct_marks task) txid tx reason_assumed) (current_stage task)))
      | [] => advance
      end
  | AnchoredTxs =>
      match unprocessed_anchored_txs task with
      | (_, _, anchors) :: _ => Some (inr (task, Some (anchor_block <$> set_iter anchors)))
      | [] => advance
      end
  | SeenTxs =>
      match unprocessed_seen_txs task with
      | (txid, tx, last_seen) :: rest =>
          Some (inl (mkTask g (ct_tip task) (unprocessed_assumed_txs task)
            (unprocessed_anchored_txs task) rest (unprocessed_leftover_txs task)
            (mark_if_new g (ct_marks task) txid tx (from_observed_in (InMempool last_seen)))
            (current_stage task)))
      | [] => advance
      end
  | LeftOverTxs =>
      match unprocessed_leftover_txs task with
      | (txid, tx, height) :: rest =>
          node ← get_tx_node g txid;
          let marks :=
            if negb (is_canonicalized (ct_marks task) txid) && negb (is_coinbase tx) &&
               negb (is_evicted node)
            then mark_canonical g (ct_marks task) txid tx (from_observed_in (InBlock height))
            else ct_marks task in
          Some (inl (mkTask g (ct_tip task) (unprocessed_assumed_txs task)
            (unprocessed_anchored_txs task) (unprocessed_seen_txs task) rest marks
            (current_stage task)))
      | [] => advance
      end
  | Finished => Some (inr (task, None))
  end.

Fixpoint next_loop (fuel : nat) task : option (CanonicalTask A * option ChainRequest) :=
  match fuel with
  | O => None
  | S fuel =>
      match next_turn task with
      | None => None
      | Some (inl task) => next_loop fuel task
      | Some (inr r) => Some r
      end
  end.

Definition stage_rank (stage : CanonicalStage) : nat :=
  match stage with AssumedTxs => 4 | AnchoredTxs => 3 | SeenTxs => 2 | LeftOverTxs => 1 | Finished => 0 end.

(** The turns that [next_query] can take. *)
Definition turns_left task : nat :=
  length (unprocessed_assumed_txs task) + length (unprocessed_seen_txs task) +
  length (unprocessed_leftover_txs task) + stage_rank (current_stage task) + 1.

Definition task_next_query task : option (CanonicalTask A * option ChainRequest) :=
  next_loop (turns_left task) task.

(** [anchors.iter().find(|anchor| anchor.anchor_block() == block_id)]. *)
Definition find_anchor (anchors : gset A) (block_id : BlockId) : option A :=
  snd <$> list_find (λ a, anchor_block a = block_id) (set_iter anchors).

Definition task_resolve_query task (response : ChainResponse) : option (CanonicalTask A) :=
  let g := ct_graph task in
  match current_stage task with
  | AnchoredTxs =>
      match unprocessed_anchored_txs task with
      | (txid, tx, anchors) :: rest =>
          let best_anchor := response ≫= find_anchor anchors in
          match best_anchor with
          | Some best_anchor =>
              Some (mkTask g (ct_tip task) (unprocessed_assumed_txs task) rest
                (unprocessed_seen_txs task) (unprocessed_leftover_txs task)
                (mark_if_new g (ct_marks task) txid tx (from_anchor best_anchor))
                (current_stage task))
          | None =>
              last ← set_last anchors;
              Some (mkTask g (ct_tip task) (unprocessed_assumed_txs task) rest
                (unprocessed_seen_txs task)
                (unprocessed_leftover_txs task ++
                   [(txid, tx, confirmation_height_upper_bound last)])
                (ct_marks task) (current_stage task))
          end
      | [] => Some task
      end
  | _ => Some task
  end.

(** The loop of [finish], over the canonical order. *)
Definition finish_one (m : gmap Txid (Transaction * CanonicalReason A))
    (acc : list Txid * gmap Txid (Transaction * CanonicalReason A) * gmap OutPoint Txid)
    (txid : Txid) :
    list Txid * gmap Txid (Transaction * CanonicalReason A) * gmap OutPoint Txid :=
  let '(order, txs, spends) := acc in
  match m !! txid with
  | Some (tx, reason) =>
      (order ++ [txid], <[txid := (tx, reason)]> txs,
       if is_coinbase tx then spends
       else foldl (λ s op, <[op := txid]> s) spends (tx_prevouts tx))
  | None => acc
  end.

Definition task_finish task : CanonicalTxs A :=
  let '(order, txs, spends) :=
    foldl (finish_one (canonical (ct_marks task))) ([], ∅, ∅) (canonical_order (ct_marks task)) in
  mkCanonical (ct_tip task) order txs spends.

#[export] Instance CanonicalTask_query : ChainQuery (CanonicalTask A) := {
  Output := CanonicalTxs A;
  tip := ct_tip;
  next_query := task_next_query;
  resolve_query := task_resolve_query;
  finish := task_finish;
}.
End task.
