(* ===== verification/CanonicalMarks.v ===== *)
(** * Marking a transaction canonical

    Theory of [mark_canonical] of [crates/chain/src/canonical_task.rs]: what
    pruning the conflicts of a transaction adds to [not_canonical], the
    invariant of the two sets, and when and how a transaction is marked. *)
From stdpp Require Import relations.
From S2P Require Import Prelude Block Tx TxGraph TxGraphFacts TxWalk CanonicalTask.
#[local] Open Scope N_scope.

Section marks.
Context `{Bitcoin} {A : Type} `{Countable A} `{!TotalOrd A, !Anchor A} `{HashOrder}.
Context (g : TxGraph A).

(** ** Conflicts and ancestry *)

(** Two transactions of the graph that spend the same output. *)
Definition conflicts (t u : Txid) : Prop :=
  t ≠ u ∧ ∃ op, t ∈ outspends g op ∧ u ∈ outspends g op.

Lemma conflicts_sym t u : conflicts t u → conflicts u t.
Proof. intros [Hne (op & ? & ?)]. split; [done|]. by exists op. Qed.

(** [p] is a full transaction whose output [t] spends. *)
Definition parent (p t : Txid) : Prop :=
  (∃ ptx, txs g !! p = Some (Whole ptx)) ∧
  ∃ tx, txs g !! t = Some (Whole tx) ∧ p ∈ op_txid <$> tx_prevouts tx.

(** [u] is [t] or an ancestor of it. *)
Definition ancestor_of (t u : Txid) : Prop := rtc parent u t.

(** A set that holds the descendants of its members. *)
Definition closed (X : gset Txid) : Prop := ∀ t u, t ∈ X → spends_from g t u → u ∈ X.

Lemma elem_of_direct_conflicts tx c :
  c ∈ (direct_conflicts g tx).*2 ↔
  c ≠ compute_txid tx ∧ ∃ op, op ∈ tx_prevouts tx ∧ c ∈ outspends g op.
Proof.
  unfold direct_conflicts, outspends, tx_prevouts. rewrite list_elem_of_fmap. split.
  - intros ([i t] & -> & [Hne ([j x] & Hp & Hx)%list_elem_of_bind]%list_elem_of_filter).
    simpl in *. split; [done|]. exists (previous_output x). split.
    + apply list_elem_of_fmap_2. unfold enumerate in Hx.
      apply elem_of_lookup_imap in Hx as (k & y & [= -> ->] & Hy).
      by eapply list_elem_of_lookup_2.
    + destruct (spends g !! previous_output x) as [s|]; [|by apply elem_of_nil in Hp].
      apply list_elem_of_fmap in Hp as (u & [= -> ->] & Hu%elem_of_hash_iter). done.
  - intros [Hne (op & (x & -> & Hx)%list_elem_of_fmap & Hc)].
    apply list_elem_of_lookup_1 in Hx as [k Hk]. exists (N.of_nat k, c). split; [done|].
    apply list_elem_of_filter. split; [done|]. apply list_elem_of_bind. exists (N.of_nat k, x).
    split; simpl.
    + destruct (spends g !! previous_output x) as [s|]; simpl in Hc; [|set_solver].
      apply list_elem_of_fmap. exists c. split; [done|]. by apply elem_of_hash_iter.
    + unfold enumerate. apply elem_of_lookup_imap. by exists k, x.
Qed.

(** ** Pruning *)

(** What pruning from the roots [cs] does to the set and to the undo list. *)
Record pruned (cs : list Txid) (s s' : gset Txid * list Txid) : Prop := {
  pr_news : ∃ news, s'.2 = s.2 ++ news ∧ NoDup news ∧
    (∀ x, x ∈ s'.1 ↔ x ∈ s.1 ∨ x ∈ news) ∧ (∀ x, x ∈ news → x ∉ s.1);
  pr_roots : ∀ c, c ∈ cs → c ∈ s'.1;
  pr_origin : ∀ x, x ∈ s'.1 → x ∈ s.1 ∨ ∃ c, c ∈ cs ∧ rtc (spends_from g) c x;
  pr_closed : closed s.1 → closed s'.1;
}.

(** The state of the pruning walk from [c], having started on [s]. *)
Definition prune_inv (c : Txid) (s : gset Txid * list Txid) (w : TxDescendants)
    (s' : gset Txid * list Txid) : Prop :=
  (∃ news, s'.2 = s.2 ++ news ∧ NoDup news ∧
    (∀ x, x ∈ s'.1 ↔ x ∈ s.1 ∨ x ∈ news) ∧ (∀ x, x ∈ news → x ∉ s.1)) ∧
  (∀ x, x ∈ visited w → x ∈ s'.1) ∧
  (c ∈ s'.1 ∨ c ∈ (queue w).*2) ∧
  (∀ x, x ∈ s'.1 → x ∈ s.1 ∨ rtc (spends_from g) c x) ∧
  (∀ x, x ∈ (queue w).*2 → rtc (spends_from g) c x) ∧
  (∀ t u, t ∈ s'.1 → t ∉ s.1 → spends_from g t u → u ∈ s'.1 ∨ u ∈ (queue w).*2).

Lemma prune_turn c s w s1 w' s' i :
  prune_inv c s w s1 → desc_turn g insert_not_canonical w s1 = Some (w', s', i) →
  prune_inv c s w' s'.
Proof.
  intros ((news & H1' & H2' & H3' & H4') & Hvis & Hroot & Horig & Hq & Hch).
  unfold desc_turn. destruct (queue w) as [|[d t] rest] eqn:Hqueue; [done|]. simpl in *.
  destruct (decide (t ∈ visited w)) as [Hv|Hv].
  { intros [= <- <- <-]. apply Hvis in Hv. split; [by exists news|]. simpl. split_and!; [done|..].
    - rewrite elem_of_cons in Hroot. by destruct Hroot as [?|[->|?]]; auto.
    - done.
    - intros x Hx. apply Hq. by right.
    - intros y u Hy Hn Hu. destruct (Hch y u Hy Hn Hu) as [?|[->|?]%elem_of_cons]; auto. }
  unfold insert_not_canonical. destruct (decide (t ∈ s1.1)) as [Hin|Hin].
  { intros [= <- <- <-]. split; [by exists news|]. simpl. split_and!.
    - intros x. rewrite elem_of_union, elem_of_singleton. intros [->|?]; auto.
    - rewrite elem_of_cons in Hroot. by destruct Hroot as [?|[->|?]]; auto.
    - done.
    - intros x Hx. apply Hq. by right.
    - intros y u Hy Hn Hu. destruct (Hch y u Hy Hn Hu) as [?|[->|?]%elem_of_cons]; auto. }
  intros [= <- <- <-].
  assert (Hnew : ∀ x, x ∈ (rest ++ desc_spend_paths g (d + 1) t).*2 ↔
    x ∈ rest.*2 ∨ spends_from g t x).
  { intros x. rewrite fmap_app, elem_of_app, (list_elem_of_fmap _ (desc_spend_paths _ _ _)).
    setoid_rewrite elem_of_spend_paths. split.
    - intros [?|([e y] & -> & _ & ?)]; auto.
    - intros [?|?]; [by left|right]. by exists (d + 1, x). }
  assert (Ht : rtc (spends_from g) c t) by (apply Hq; by left).
  split; [exists (news ++ [t]); split_and!|]; simpl.
  - by rewrite H1', app_assoc.
  - apply NoDup_app. split_and!; [done| |apply NoDup_singleton].
    intros x Hx ->%list_elem_of_singleton. apply Hin, H3'. by right.
  - intros x. rewrite elem_of_union, elem_of_singleton, H3', elem_of_app, list_elem_of_singleton.
    tauto.
  - intros x [?| ->%list_elem_of_singleton]%elem_of_app; [auto|]. intros ?. apply Hin, H3'. by left.
  - split_and!.
    + intros x. rewrite !elem_of_union, elem_of_singleton. naive_solver.
    + rewrite elem_of_union, elem_of_singleton, Hnew. rewrite elem_of_cons in Hroot. naive_solver.
    + intros x. rewrite elem_of_union, elem_of_singleton. intros [->|?]; auto.
    + intros x [?|?]%Hnew; [apply Hq; by right|]. by eapply rtc_r.
    + intros y u. rewrite !elem_of_union, !elem_of_singleton, Hnew. intros [->|Hy] Hn Hu; [auto|].
      destruct (Hch y u Hy Hn Hu) as [?|[->|?]%elem_of_cons]; auto.
Qed.

Lemma prune_spec s c : pruned [c] s (prune g s c).
Proof.
  unfold prune. set (w := desc_include_root c).
  pose proof (desc_run_ind g insert_not_canonical (λ w s' _, prune_inv c s w s')
    (desc_fuel g w) w s []) as Hrun.
  destruct (desc_run g insert_not_canonical (desc_fuel g w) w s) as [[w' s'] items].
  destruct Hrun as [Hq ((news & H1' & H2' & H3' & H4') & Hvis & Hroot & Horig & _ & Hch)];
    [done| | |].
  { intros ??????. intros. by eapply prune_turn. }
  { split; [exists []; split_and!; [by rewrite app_nil_r|constructor|set_solver|set_solver]|].
    simpl. split_and!; [set_solver|right; by left|auto| |].
    - intros x ->%list_elem_of_singleton. done.
    - intros t u ? ?. done. }
  rewrite Hq in Hroot, Hch. simpl in *. split; simpl.
  - by exists news.
  - intros x ->%list_elem_of_singleton. by destruct Hroot as [?|?%elem_of_nil].
  - intros x [?|?]%Horig; [by left|right]. exists c. split; [by left|done].
  - intros Hcl t u Ht Hu. destruct (decide (t ∈ s.1)) as [Hs|Hs].
    + apply H3'. left. by apply (Hcl t).
    + by destruct (Hch t u Ht Hs Hu) as [?|?%elem_of_nil].
Qed.

Lemma prune_conflicts_spec s tx :
  pruned (direct_conflicts g tx).*2 s (prune_conflicts g s tx).
Proof.
  unfold prune_conflicts. generalize ((direct_conflicts g tx).*2). intros cs. revert s.
  induction cs as [|c cs IH]; intros s; simpl.
  { split; [|set_solver|auto|done]. exists []. rewrite app_nil_r. split_and!; [done|constructor|set_solver..]. }
  destruct (prune_spec s c) as [(n1 & A1 & A2 & A3 & A4) B C D].
  destruct (IH (prune g s c)) as [(n2 & E1 & E2 & E3 & E4) F I J]. split.
  - exists (n1 ++ n2). rewrite E1, A1, app_assoc. split_and!; [done| | |].
    + apply NoDup_app. split_and!; [done| |done]. intros x Hx Hx2%E4. apply Hx2, A3. by right.
    + intros x. rewrite E3, A3, elem_of_app. tauto.
    + intros x [?|Hx%E4]%elem_of_app Hs; [by eapply A4|]. apply Hx, A3. by left.
  - intros x [->|Hx]%elem_of_cons; [|by apply F]. apply E3. left. apply B. by left.
  - intros x [[?|(y & ->%list_elem_of_singleton & ?)]%C|(y & Hy & ?)]%I; [by left|right..].
    + exists c. split; [by left|done].
    + exists y. split; [by right|done].
  - auto.
Qed.

(** ** The invariant of the two sets *)

Context (Hwf : graph_wf g).
Notation marks := (gmap Txid (Transaction * CanonicalReason A)).

Lemma whole_spends t tx op :
  txs g !! t = Some (Whole tx) → op ∈ tx_prevouts tx → outpoint_is_null op = false →
  t ∈ outspends g op.
Proof using Hwf. intros Ht Hop Hn. apply (wf_spends g Hwf). by exists tx. Qed.

Lemma outspends_whole t op :
  t ∈ outspends g op → ∃ tx, txs g !! t = Some (Whole tx) ∧ spends_of tx op.
Proof using Hwf. apply (wf_spends g Hwf). Qed.

(** The direct conflicts of a transaction of the graph. *)
Lemma direct_conflicts_conflicts t tx c :
  txs g !! t = Some (Whole tx) → c ∈ (direct_conflicts g tx).*2 ↔ conflicts t c.
Proof using Hwf.
  intros Ht. rewrite elem_of_direct_conflicts. rewrite (wf_txid g Hwf _ _ Ht). unfold conflicts.
  split.
  - intros [Hne (op & Hop & Hc)]. split; [done|]. exists op. split; [|done].
    destruct (outspends_whole _ _ Hc) as (ctx & _ & _ & Hnull).
    by eapply whole_spends.
  - intros [Hne (op & Ho & Hc)]. split; [done|]. exists op. split; [|done].
    destruct (outspends_whole _ _ Ho) as (tx' & Ht' & Hin & _). congruence.
Qed.

Lemma spends_from_parent t u ttx :
  txs g !! t = Some (Whole ttx) → spends_from g t u → parent t u.
Proof using Hwf.
  intros Ht (op & Hop & _ & Hu). split; [by exists ttx|].
  destruct (outspends_whole _ _ Hu) as (utx & Hutx & Hin & _). exists utx. split; [done|].
  rewrite <-Hop. by apply list_elem_of_fmap_2.
Qed.

(** Descending from a full transaction is descending from an ancestor. *)
Lemma descends_ancestor t u ttx :
  txs g !! t = Some (Whole ttx) → rtc (spends_from g) t u → ancestor_of u t.
Proof using Hwf.
  intros Ht Hrtc. revert ttx Ht. induction Hrtc as [t|t v u Htv _ IH]; intros ttx Ht; [apply rtc_refl|].
  pose proof (spends_from_parent t v ttx Ht Htv) as Hp.
  eapply rtc_l; [done|]. destruct Hp as [_ (vtx & Hv & _)]. by eapply IH.
Qed.

(** The two sets: [c] holds full transactions no two of which conflict; their
    conflicts are in [nc]; [nc] is closed under descendants; and everything
    in [nc] descends from such a conflict. *)
Record sets_ok (c : marks) (nc : gset Txid) : Prop := {
  so_whole : ∀ t p, c !! t = Some p → txs g !! t = Some (Whole p.1);
  so_apart : ∀ t u, is_Some (c !! t) → is_Some (c !! u) → ¬ conflicts t u;
  so_conflicts : ∀ t u, is_Some (c !! t) → conflicts t u → u ∈ nc;
  so_closed : closed nc;
  so_origin : ∀ x, x ∈ nc → ∃ t u, is_Some (c !! t) ∧ conflicts t u ∧ rtc (spends_from g) u x;
}.

(** With every parent of a canonical transaction canonical too. *)
Record marks_ok (m : Marks A) : Prop := {
  mo_sets : sets_ok (canonical m) (not_canonical m);
  mo_parents : ∀ p t, parent p t → is_Some (canonical m !! t) → is_Some (canonical m !! p);
  mo_order : ∀ t, t ∈ canonical_order m ↔ is_Some (canonical m !! t);
  mo_order_nodup : NoDup (canonical_order m);
}.

Lemma marks_ok_ancestor (m : Marks A) t u :
  marks_ok m → is_Some (canonical m !! t) → ancestor_of t u → is_Some (canonical m !! u).
Proof.
  intros Hm Ht Hu. unfold ancestor_of in Hu. revert Ht.
  induction Hu as [u|u v t Huv _ IH]; intros Ht; [done|].
  eapply (mo_parents m Hm); [done|]. auto.
Qed.

(** The two sets are disjoint. *)
Lemma marks_ok_disjoint (m : Marks A) t :
  marks_ok m → is_Some (canonical m !! t) → t ∉ not_canonical m.
Proof using Hwf.
  intros Hm Ht Hn. pose proof (mo_sets m Hm) as Hs.
  destruct (so_origin _ _ Hs t Hn) as (v & u & Hv & Hvu & Hut).
  apply (so_apart _ _ Hs v u Hv); [|done].
  destruct Hvu as [_ (op & _ & Hu)]. apply outspends_whole in Hu as (utx & Hu & _).
  eapply marks_ok_ancestor; [done|exact Ht|]. by eapply descends_ancestor.
Qed.

Lemma sets_ok_insert c nc nc' t tx r undo undo' :
  sets_ok c nc → txs g !! t = Some (Whole tx) →
  pruned (direct_conflicts g tx).*2 (nc, undo) (nc', undo') → t ∉ nc' →
  sets_ok (<[t := (tx, r)]> c) nc'.
Proof using Hwf.
  intros Hs Ht [(news & _ & _ & Hiff & _) Hroots Horig Hcl] Hnin. simpl in *.
  assert (Hsub : ∀ x, x ∈ nc → x ∈ nc') by (intros x Hx; apply Hiff; by left).
  assert (Hget : ∀ u, is_Some (<[t := (tx, r)]> c !! u) ↔ u = t ∨ is_Some (c !! u)).
  { intros u. rewrite lookup_insert_is_Some. destruct (decide (t = u)); naive_solver. }
  assert (Hnew : ∀ u, conflicts t u → u ∈ nc').
  { intros u Hu. apply Hroots. by eapply direct_conflicts_conflicts. }
  split.
  - intros u p. rewrite lookup_insert. case_decide; [|apply (so_whole _ _ Hs)].
    subst. by intros [= <-].
  - intros u v [->|Hu]%Hget [->|Hv]%Hget Huv.
    + by destruct Huv.
    + apply Hnin, Hsub. by apply (so_conflicts _ _ Hs v), conflicts_sym.
    + apply Hnin, Hsub. by apply (so_conflicts _ _ Hs u).
    + by apply (so_apart _ _ Hs u v).
  - intros u v [->|Hu]%Hget Huv; [auto|]. apply Hsub. by apply (so_conflicts _ _ Hs u).
  - apply Hcl, (so_closed _ _ Hs).
  - intros x [Hx|(u & Hu & Hx)]%Horig.
    + destruct (so_origin _ _ Hs x Hx) as (v & u & Hv & ? & ?). exists v, u. by rewrite Hget; auto.
    + exists t, u. rewrite Hget. split_and!; [by left| |done]. by eapply direct_conflicts_conflicts.
Qed.

(** ** The walk over a transaction and its ancestors *)

Section walk.
Context (m : Marks A) (txid : Txid) (tx : Transaction) (reason : CanonicalReason A).
Context (Hm : marks_ok m) (Htx : txs g !! txid = Some (Whole tx)).
Context (Hfresh : canonical m !! txid = None).

(** [txid] or one of its ancestors is already excluded, or two of them
    conflict. *)
Definition double_spent : Prop :=
  (∃ u, ancestor_of txid u ∧ u ∈ not_canonical m) ∨
  (∃ u v, ancestor_of txid u ∧ ancestor_of txid v ∧ conflicts u v).

Definition staged_ids (s : MarkState A) : list Txid := (λ p, p.1.1) <$> staged_canonical s.

Lemma elem_of_staged_app (l : list (Txid * Transaction * CanonicalReason A)) p x :
  x ∈ (λ p, p.1.1) <$> (l ++ [p]) ↔ x ∈ (λ p, p.1.1) <$> l ∨ x = p.1.1.
Proof.
  rewrite fmap_app, elem_of_app. cbn [fmap list_fmap]. by rewrite list_elem_of_singleton.
Qed.

(** What undoing relies on. *)
Record undoable (s : MarkState A) : Prop := {
  ud_canonical : ∀ t, ms_canonical s !! t = canonical m !! t ∨
    (t ∈ staged_ids s ∧ canonical m !! t = None);
  ud_staged : ∀ t, t ∈ staged_ids s → canonical m !! t = None ∧ is_Some (ms_canonical s !! t);
  ud_nodup : NoDup (staged_ids s);
  ud_not_canonical : ∀ x, x ∈ ms_not_canonical s ↔
    x ∈ not_canonical m ∨ x ∈ undo_not_canonical s;
  ud_fresh : ∀ x, x ∈ undo_not_canonical s → x ∉ not_canonical m;
}.

(** The reasons recorded so far: the first turn is that of [txid] itself. *)
Definition reasons_ok (w : TxAncestors) (s : MarkState A) : Prop :=
  if is_starting_tx s then queue w = [(0, tx)] ∧ ms_canonical s = canonical m
  else ms_canonical s !! txid = Some (tx, reason) ∧
    ∀ t p, ms_canonical s !! t = Some p → canonical m !! t = None → t ≠ txid →
      p.2 = to_transitive reason txid.

(** A walk that has met no double spend. *)
Record healthy (w : TxAncestors) (s : MarkState A) : Prop := {
  hl_sets : sets_ok (ms_canonical s) (ms_not_canonical s);
  hl_queue : ∀ d t, (d, t) ∈ queue w →
    txs g !! compute_txid t = Some (Whole t) ∧ ancestor_of txid (compute_txid t);
  hl_staged : ∀ t, t ∈ staged_ids s → ancestor_of txid t;
  hl_visited : ∀ p ptx, p ∈ visited w → txs g !! p = Some (Whole ptx) →
    is_Some (ms_canonical s !! p) ∨ ∃ d, (d, ptx) ∈ queue w;
  hl_parents : ∀ p t ptx, txs g !! p = Some (Whole ptx) → parent p t →
    is_Some (ms_canonical s !! t) → is_Some (ms_canonical s !! p) ∨ ∃ d, (d, ptx) ∈ queue w;
  hl_reasons : reasons_ok w s;
}.

Definition mark_inv (w : TxAncestors) (s : MarkState A) : Prop :=
  undoable s ∧
  if detected_self_double_spend s then double_spent else healthy w s.

Lemma visit_undoable s d t :
  undoable s → undoable (mark_visit g txid reason s d t).1.
Proof.
  intros [U1 U2 U3 U4 U5]. unfold mark_visit, staged_ids in *.
  destruct (ms_canonical s !! compute_txid t) as [x|] eqn:Hc; [by split|].
  pose proof (prune_conflicts_spec (ms_not_canonical s, undo_not_canonical s) t)
    as [(news & N1 & N2 & N3 & N4) _ _ _].
  destruct (prune_conflicts g _ t) as [nc undo]; simpl in *.
  assert (Hnc : ∀ x, x ∈ nc ↔ x ∈ not_canonical m ∨ x ∈ undo).
  { intros x. rewrite N3, U4, N1, elem_of_app. tauto. }
  assert (Hu : ∀ x, x ∈ undo → x ∉ not_canonical m).
  { intros x. rewrite N1. intros [?|Hx%N4]%elem_of_app; [by apply U5|].
    intros ?. apply Hx, U4. by left. }
  destruct (decide (compute_txid t ∈ nc)); [by split|].
  split; unfold staged_ids; cbn [fst ms_canonical ms_not_canonical undo_not_canonical staged_canonical];
    [| | |done..].
  - intros x. rewrite lookup_insert, elem_of_staged_app. cbn [fst].
    destruct (decide (compute_txid t = x)) as [<-|Hne].
    + right. split; [by right|]. destruct (U1 (compute_txid t)) as [Heq|[? ?]]; [congruence|done].
    + destruct (U1 x) as [?|[? ?]]; auto.
  - intros x. rewrite lookup_insert, elem_of_staged_app. cbn [fst].
    destruct (decide (compute_txid t = x)) as [<-|Hne].
    + intros _. split; [|done]. destruct (U1 (compute_txid t)) as [Heq|[? ?]]; [congruence|done].
    + intros [?|?]; [by apply U2|congruence].
  - rewrite fmap_app. apply NoDup_app. split_and!; [done| |apply NoDup_singleton].
    intros x Hx ->%list_elem_of_singleton. simpl in Hx. apply U2 in Hx as [_ [? ?]]. congruence.
Qed.

(** Detecting a double spend is right. *)
Lemma visit_detects w s d t nc undo :
  undoable s → healthy w s → (d, t) ∈ queue w →
  prune_conflicts g (ms_not_canonical s, undo_not_canonical s) t = (nc, undo) →
  compute_txid t ∈ nc → double_spent.
Proof using Hwf Hm.
  intros Hud Hh Hin Hpr Hnc.
  destruct (hl_queue w s Hh d t Hin) as [Hwhole Hanc].
  pose proof (prune_conflicts_spec (ms_not_canonical s, undo_not_canonical s) t) as Hspec.
  rewrite Hpr in Hspec. destruct (pr_origin _ _ _ Hspec _ Hnc) as [Hx|(c & Hc & Hrtc)]; simpl in *.
  - destruct (so_origin _ _ (hl_sets w s Hh) _ Hx) as (v & u & Hv & Hvu & Hrtc).
    destruct (ud_canonical s Hud v) as [Heq|[Hst _]].
    + left. exists (compute_txid t). split; [done|].
      assert (u ∈ not_canonical m) as Hu.
      { apply (so_conflicts _ _ (mo_sets m Hm) v); [by rewrite <-Heq|done]. }
      clear Hvu. induction Hrtc as [|u y z Huy _ IH]; [done|]. apply IH; try done.
      by eapply (so_closed _ _ (mo_sets m Hm)).
    + right. exists v, u. split_and!; [by apply (hl_staged w s Hh)| |done].
      unfold ancestor_of in *. etrans; [|exact Hanc].
      destruct Hvu as [_ (op & _ & Hu)]. apply outspends_whole in Hu as (utx & Hu & _).
      by eapply descends_ancestor.
  - apply (direct_conflicts_conflicts _ _ _ Hwhole) in Hc.
    right. exists (compute_txid t), c. split_and!; [done| |done].
    unfold ancestor_of in *. etrans; [|exact Hanc].
    destruct Hc as [_ (op & _ & Hu)]. apply outspends_whole in Hu as (utx & Hu & _).
    by eapply descends_ancestor.
Qed.

Lemma get_tx_whole u utx : get_tx g u = Some utx ↔ txs g !! u = Some (Whole utx).
Proof.
  unfold get_tx, get_tx_node. destruct (txs g !! u) as [[x|y]|]; simpl; [|done..].
  split; congruence.
Qed.

(** Leaving the head of the queue behind. *)
Lemma queue_rest d t (rest : list (N * Transaction)) p ptx :
  txs g !! p = Some (Whole ptx) → (∃ e, (e, ptx) ∈ (d, t) :: rest) →
  p = compute_txid t ∨ ∃ e, (e, ptx) ∈ rest.
Proof using Hwf.
  intros Hp [e [[= -> ->]|?]%elem_of_cons]; [left|right; by exists e].
  by rewrite (wf_txid g Hwf _ _ Hp).
Qed.

(** A transaction already canonical is passed over. *)
Lemma healthy_skip w s d t rest :
  healthy w s → queue w = (d, t) :: rest → is_Some (ms_canonical s !! compute_txid t) →
  healthy (mkWalk (visited w) rest)
    (mkMarkState (ms_canonical s) (ms_not_canonical s) false (detected_self_double_spend s)
       (undo_not_canonical s) (staged_canonical s)).
Proof using Hwf Htx Hfresh.
  intros [Hs Hq Hst Hv Hp Hr] Hqueue Hocc. rewrite Hqueue in *. split; simpl; [done|..].
  - intros e u Hu. apply (Hq e). by right.
  - done.
  - intros p ptx Hpv Hptx. destruct (Hv p ptx Hpv Hptx) as [?|Hin]; [by left|].
    apply (queue_rest d t rest p ptx Hptx) in Hin as [->|?]; auto.
  - intros p u ptx Hptx Hpar Hu. destruct (Hp p u ptx Hptx Hpar Hu) as [?|Hin]; [by left|].
    apply (queue_rest d t rest p ptx Hptx) in Hin as [->|?]; auto.
  - unfold reasons_ok in *. simpl. destruct (is_starting_tx s); [|done].
    destruct Hr as [Hq0 Hc]. rewrite Hqueue in Hq0. injection Hq0 as -> -> ->.
    rewrite Hc, (wf_txid g Hwf _ _ Htx), Hfresh in Hocc. by destruct Hocc.
Qed.

(** A transaction that joins the canonical ones. *)
Lemma healthy_accept w s d t rest nc undo :
  healthy w s → queue w = (d, t) :: rest → ms_canonical s !! compute_txid t = None →
  prune_conflicts g (ms_not_canonical s, undo_not_canonical s) t = (nc, undo) →
  compute_txid t ∉ nc →
  let r := if is_starting_tx s then reason else to_transitive reason txid in
  healthy (anc_populate g (mkWalk (visited w) rest) (d + 1) t)
    (mkMarkState (<[compute_txid t := (t, r)]> (ms_canonical s)) nc false
       (detected_self_double_spend s) undo (staged_canonical s ++ [(compute_txid t, t, r)])).
Proof using Hwf Htx Hfresh.
  intros [Hs Hq Hst Hv Hp Hr] Hqueue Hnone Hpr Hnin r. rewrite Hqueue in Hq, Hv, Hp.
  destruct (Hq d t ltac:(by left)) as [Hwhole Hanc].
  destruct (anc_populate_spec g (d + 1) (mkWalk (visited w) rest) t) as [Hvis Hque].
  cbn [visited queue] in Hvis, Hque.
  set (w' := anc_populate g (mkWalk (visited w) rest) (d + 1) t) in *.
  assert (Hget : ∀ u, is_Some (<[compute_txid t := (t, r)]> (ms_canonical s) !! u) ↔
    u = compute_txid t ∨ is_Some (ms_canonical s !! u)).
  { intros u. rewrite lookup_insert_is_Some. destruct (decide (compute_txid t = u)); naive_solver. }
  assert (Hvisited : ∀ p ptx, p ∈ visited w' → txs g !! p = Some (Whole ptx) →
    is_Some (<[compute_txid t := (t, r)]> (ms_canonical s) !! p) ∨ ∃ e, (e, ptx) ∈ queue w').
  { intros p ptx Hpv Hptx. rewrite Hget. apply Hvis in Hpv. destruct (decide (p ∈ visited w)) as [Hin|Hn].
    - destruct (Hv p ptx Hin Hptx) as [?|He]; [by left; right|].
      apply (queue_rest d t rest p ptx Hptx) in He as [->|[e He]]; [by left; left|].
      right. exists e. apply Hque. by left.
    - destruct Hpv as [?|Hpv]; [done|]. right. exists (d + 1). apply Hque. right. split; [done|].
      exists p. split_and!; [done|done|by apply get_tx_whole]. }
  split; cbn [ms_canonical ms_not_canonical staged_canonical].
  - eapply sets_ok_insert; [done|done| |done]. rewrite <-Hpr. apply prune_conflicts_spec.
  - intros e u [Hu|(_ & v & Hv' & _ & Hu)]%Hque; [apply (Hq e); by right|].
    cbn [snd] in Hu. apply get_tx_whole in Hu. pose proof (wf_txid g Hwf _ _ Hu) as ->.
    split; [done|]. eapply rtc_l; [|exact Hanc]. split; [by eexists|]. by exists t.
  - intros u. unfold staged_ids. cbn [staged_canonical]. rewrite elem_of_staged_app. by intros [?| ->]; [apply Hst|].
  - done.
  - intros p u ptx Hptx Hpar [->|Hu]%Hget.
    + apply Hvisited; [|done]. apply Hvis. right. destruct Hpar as [_ (utx & Hutx & Hin)].
      rewrite Hwhole in Hutx. by injection Hutx as <-.
    + rewrite Hget. destruct (Hp p u ptx Hptx Hpar Hu) as [?|He]; [by left; right|].
      apply (queue_rest d t rest p ptx Hptx) in He as [->|[e He]]; [by left; left|].
      right. exists e. apply Hque. by left.
  - unfold reasons_ok in *. cbn [is_starting_tx ms_canonical]. destruct (is_starting_tx s).
    + destruct Hr as [Hq0 Hc]. rewrite Hqueue in Hq0. injection Hq0 as -> -> ->.
      rewrite (wf_txid g Hwf _ _ Htx). split; [by rewrite lookup_insert_eq|].
      intros u p Hu Hnu Hne. rewrite lookup_insert_ne, Hc in Hu by done. congruence.
    + destruct Hr as [Hroot Hothers].
      assert (compute_txid t ≠ txid) by congruence. split; [by rewrite lookup_insert_ne|].
      intros u p. rewrite lookup_insert. case_decide; [by intros [= <-]|]. apply Hothers.
Qed.

Lemma mark_turn w s w' s' i :
  mark_inv w s → anc_turn g (mark_visit g txid reason) w s = Some (w', s', i) → mark_inv w' s'.
Proof using Hwf Hm Htx Hfresh.
  intros [Hud Hd]. unfold anc_turn. destruct (queue w) as [|[d t] rest] eqn:Hqueue; [done|].
  pose proof (visit_undoable s d t Hud) as Hud'. revert Hud'. unfold mark_visit.
  destruct (ms_canonical s !! compute_txid t) as [x|] eqn:Hocc.
  { intros Hud' [= <- <- <-]. split; [done|]. simpl.
    destruct (detected_self_double_spend s) eqn:Hds; [done|].
    pose proof (healthy_skip w s d t rest Hd Hqueue (mk_is_Some _ _ Hocc)) as Hh.
    by rewrite Hds in Hh. }
  destruct (prune_conflicts g _ t) as [nc undo] eqn:Hpr.
  destruct (decide (compute_txid t ∈ nc)) as [Hin|Hnin]; intros Hud' [= <- <- <-].
  - split; [done|]. simpl. destruct (detected_self_double_spend s); [done|].
    eapply (visit_detects w s d t); [done|done|rewrite Hqueue; by left|done|done].
  - split; [done|]. simpl. destruct (detected_self_double_spend s) eqn:Hds; [done|].
    pose proof (healthy_accept w s d t rest nc undo Hd Hqueue Hocc Hpr Hnin) as Hh.
    by rewrite Hds in Hh.
Qed.

(** The whole walk. *)
Lemma mark_walk_inv :
  mark_inv (mkWalk (visited (anc_include_root tx)) [(0, tx)]) (mark_start m) →
  ∃ w, queue w = [] ∧ mark_inv w (mark_walk g m txid tx reason).
Proof using Hwf Hm Htx Hfresh.
  intros Hinit. unfold mark_walk. set (w := anc_include_root tx).
  pose proof (anc_run_ind g (mark_visit g txid reason) (λ w s _, mark_inv w s)
    (anc_fuel g w) w (mark_start m) []) as Hrun.
  destruct (anc_run g _ (anc_fuel g w) w (mark_start m)) as [[w' s'] items].
  destruct Hrun as [Hq Hinv]; [done| |done|by exists w'].
  intros ??????. intros. by eapply mark_turn.
Qed.

Lemma mark_start_inv : mark_inv (mkWalk ∅ [(0, tx)]) (mark_start m).
Proof using Hwf Hm Htx Hfresh.
  split.
  - split; simpl; [auto|by intros t ?%elem_of_nil|constructor| |by intros x ?%elem_of_nil].
    intros x. rewrite elem_of_nil. tauto.
  - simpl. destruct Hm as [Hs Hp _ _]. split; simpl; [done|..].
    + intros d t [= -> ->]%list_elem_of_singleton. rewrite (wf_txid g Hwf _ _ Htx).
      split; [done|apply rtc_refl].
    + by intros t ?%elem_of_nil.
    + set_solver.
    + intros p t ptx Hptx Hpar Ht. left. by eapply Hp.
    + by unfold reasons_ok.
Qed.

(** ** The outcome *)

Lemma foldl_delete_staged (l : list (Txid * Transaction * CanonicalReason A)) (c : marks) t :
  foldl (λ c p, delete p.1.1 c) c l !! t =
    if decide (t ∈ (λ p, p.1.1) <$> l) then None else c !! t.
Proof.
  revert c. induction l as [|p l IH]; intros c; [done|]. rewrite fmap_cons. cbn [foldl].
  rewrite IH. destruct (decide (t ∈ (λ p, p.1.1) <$> l)).
  - rewrite decide_True; [done|]. by right.
  - destruct (decide (t = p.1.1)) as [->|Hne].
    + rewrite lookup_delete_eq, decide_True; [done|]. by left.
    + rewrite lookup_delete_ne, decide_False; [done| |done]. by intros [?|?]%elem_of_cons.
Qed.

Lemma foldl_difference (l : list Txid) (n : gset Txid) x :
  x ∈ foldl (λ n t, n ∖ {[t]}) n l ↔ x ∈ n ∧ x ∉ l.
Proof.
  revert n. induction l as [|t l IH]; intros n; simpl; [rewrite elem_of_nil; tauto|].
  rewrite IH, elem_of_difference, elem_of_singleton, elem_of_cons. tauto.
Qed.

(** Undoing restores the two sets. *)
Lemma undo_restores s :
  undoable s →
  foldl (λ c p, delete p.1.1 c) (ms_canonical s) (staged_canonical s) = canonical m ∧
  foldl (λ n t, n ∖ {[t]}) (ms_not_canonical s) (undo_not_canonical s) = not_canonical m.
Proof.
  intros [U1 U2 U3 U4 U5]. split.
  - apply map_eq. intros t. rewrite foldl_delete_staged. fold (staged_ids s).
    destruct (decide (t ∈ staged_ids s)) as [Hin|Hn].
    + symmetry. by apply U2.
    + by destruct (U1 t) as [?|[? _]].
  - apply leibniz_equiv. intros x. rewrite foldl_difference, U4. specialize (U5 x). tauto.
Qed.

Lemma undoable_keys s t :
  undoable s → is_Some (ms_canonical s !! t) ↔ is_Some (canonical m !! t) ∨ t ∈ staged_ids s.
Proof.
  intros Hud. split.
  - intros Ht. destruct (ud_canonical s Hud t) as [Heq|[? _]]; [left|by right]. by rewrite <-Heq.
  - intros [Ht|Ht]; [|by apply (ud_staged s Hud)].
    destruct (ud_canonical s Hud t) as [->|[_ Hn]]; [done|]. rewrite Hn in Ht. by destruct Ht.
Qed.

(** The marks once the walk is over without a double spend. *)
Lemma healthy_marks_ok w s :
  undoable s → healthy w s → queue w = [] →
  marks_ok (mkMarks (ms_canonical s) (ms_not_canonical s) (canonical_order m ++ staged_ids s)).
Proof using Hm.
  intros Hud Hh Hq. split; cbn [canonical not_canonical canonical_order].
  - apply (hl_sets w s Hh).
  - intros p t Hpar Ht. destruct (Hpar) as [[ptx Hptx] _].
    destruct (hl_parents w s Hh p t ptx Hptx Hpar Ht) as [?|[e He]]; [done|].
    rewrite Hq in He. by apply elem_of_nil in He.
  - intros t. by rewrite elem_of_app, (mo_order m Hm), undoable_keys.
  - apply NoDup_app. split_and!; [apply (mo_order_nodup m Hm)| |apply (ud_nodup s Hud)].
    intros t Ht%(mo_order m Hm) [Hn _]%(ud_staged s Hud). rewrite Hn in Ht. by destruct Ht.
Qed.

(** What marking has achieved, when it does not fail. *)
Record marked (m' : Marks A) : Prop := {
  mk_ok : marks_ok m';
  mk_tx : canonical m' !! txid = Some (tx, reason);
  mk_keys : ∀ t, is_Some (canonical m' !! t) ↔ is_Some (canonical m !! t) ∨ ancestor_of txid t;
  mk_kept : ∀ t p, canonical m !! t = Some p → canonical m' !! t = Some p;
  mk_reason : ∀ t p, canonical m' !! t = Some p → canonical m !! t = None → t ≠ txid →
    p.2 = to_transitive reason txid;
  mk_excluded : not_canonical m ⊆ not_canonical m';
  mk_order : ∃ l, canonical_order m' = canonical_order m ++ l;
}.

Lemma marked_not_double_spent m' : marked m' → ¬ double_spent.
Proof using Hwf.
  intros Hk. pose proof (mk_ok m' Hk) as Hok.
  assert (Hanc : ∀ u, ancestor_of txid u → is_Some (canonical m' !! u)).
  { intros u Hu. apply (mk_keys m' Hk). by right. }
  intros [(u & Hu & Hn)|(u & v & Hu & Hv & Huv)].
  - apply (marks_ok_disjoint m' u Hok); [by apply Hanc|]. by apply (mk_excluded m' Hk).
  - by apply (so_apart _ _ (mo_sets m' Hok) u v); auto.
Qed.

Lemma mark_canonical_outcome :
  (double_spent ∧ mark_canonical g m txid tx reason = m) ∨
  (¬ double_spent ∧ marked (mark_canonical g m txid tx reason)).
Proof using Hwf Hm Htx Hfresh.
  destruct (mark_walk_inv mark_start_inv) as (w & Hq & Hud & Hd). unfold mark_canonical.
  set (s := mark_walk g m txid tx reason) in *.
  destruct (detected_self_double_spend s).
  { left. split; [done|]. destruct (undo_restores s Hud) as [-> ->]. by destruct m. }
  right. assert (Hok := healthy_marks_ok w s Hud Hd Hq). fold (staged_ids s).
  set (m' := mkMarks _ _ _) in *.
  pose proof (hl_reasons w s Hd) as Hr. unfold reasons_ok in Hr. destruct (is_starting_tx s).
  { destruct Hr as [Hq' _]. congruence. }
  destruct Hr as [Hroot Hothers].
  assert (Hmk : marked m').
  { split; cbn [canonical not_canonical canonical_order].
    - done.
    - done.
    - intros t. split.
      + intros [?|Ht]%(undoable_keys s t Hud); [by left|right]. by apply (hl_staged w s Hd).
      + intros [Ht|Ht]; [apply (undoable_keys s t Hud); by left|].
        apply (marks_ok_ancestor m' txid t Hok); [by exists (tx, reason)|done].
    - intros t p Ht. simpl. destruct (ud_canonical s Hud t) as [->|[_ Hn]]; [done|congruence].
    - done.
    - intros x Hx. apply (ud_not_canonical s Hud). by left.
    - by eexists. }
  split; [by eapply marked_not_double_spent|done].
Qed.
End walk.
End marks.
