(* ===== verification/CanonicalSpec.v ===== *)
(** * What canonicalization promises

    The task of [crates/chain/src/canonical_task.rs] keeps the promises of
    [ChainQueryLaws]; driven by any local chain it ends with a set of
    transactions without conflicts, closed under ancestors, from which
    nothing it was asked to consider is missing without a reason. *)
From stdpp Require Import relations.
From S2P Require Import Prelude Block CheckPoint LocalChain ChainQuery.
From S2P Require Import Tx TxGraph TxGraphFacts TxWalk CanonicalTask CanonicalMarks.
#[local] Open Scope N_scope.

Section spec.
Context `{Bitcoin} {A : Type} `{Countable A} `{!TotalOrd A, !Anchor A} `{HashOrder}.
Implicit Types (g : TxGraph A) (m : Marks A) (task : CanonicalTask A).

(** ** Marks only grow *)

Definition grows m m' : Prop :=
  (∀ t p, canonical m !! t = Some p → canonical m' !! t = Some p) ∧
  not_canonical m ⊆ not_canonical m'.

#[local] Instance grows_preorder : PreOrder grows.
Proof.
  split.
  - intros m. by split.
  - intros m1 m2 m3 [K1 N1] [K2 N2]. split; [auto|by etrans].
Qed.

(** A transaction that has been dealt with: it is canonical, or it cannot be. *)
Definition accounted g m (t : Txid) : Prop :=
  is_Some (canonical m !! t) ∨ double_spent g m t.

Lemma accounted_grows g m m' t : grows m m' → accounted g m t → accounted g m' t.
Proof.
  intros [Hk Hn] [[p Hp]|[(u & Hu & Hin)|?]].
  - left. exists p. auto.
  - right. left. exists u. auto.
  - right. by right.
Qed.

Lemma mark_canonical_grows g m txid tx reason :
  graph_wf g → marks_ok g m → txs g !! txid = Some (Whole tx) → canonical m !! txid = None →
  let m' := mark_canonical g m txid tx reason in
  marks_ok g m' ∧ grows m m' ∧ accounted g m' txid.
Proof.
  intros Hwf Hm Htx Hf.
  destruct (mark_canonical_outcome g Hwf m txid tx reason Hm Htx Hf) as [[Hds ->]|[_ Hk]].
  - split_and!; [done|done|by right].
  - split_and!; [apply Hk| |left; rewrite (mk_tx _ _ _ _ _ _ Hk); by eexists].
    split; [apply (mk_kept _ _ _ _ _ _ Hk)|apply (mk_excluded _ _ _ _ _ _ Hk)].
Qed.

Lemma mark_if_new_ok g m txid tx reason :
  graph_wf g → marks_ok g m → txs g !! txid = Some (Whole tx) →
  let m' := mark_if_new g m txid tx reason in
  marks_ok g m' ∧ grows m m' ∧ accounted g m' txid.
Proof.
  intros Hwf Hm Htx. unfold mark_if_new, is_canonicalized.
  destruct (bool_decide_reflect (is_Some (canonical m !! txid))) as [Hc|Hc]; simpl.
  { split_and!; [done|done|by left]. }
  destruct (bool_decide_reflect (txid ∈ not_canonical m)) as [Hn|Hn]; simpl.
  { split_and!; [done|done|]. right. left. exists txid. split; [apply rtc_refl|done]. }
  apply mark_canonical_grows; try done. by apply eq_None_not_Some.
Qed.

Lemma mark_leftover_ok g m txid tx reason b c :
  graph_wf g → marks_ok g m → txs g !! txid = Some (Whole tx) →
  let m' := if negb (is_canonicalized m txid) && b && c
            then mark_canonical g m txid tx reason else m in
  marks_ok g m' ∧ grows m m'.
Proof.
  intros Hwf Hm Htx. pose proof (mark_if_new_ok g m txid tx reason Hwf Hm Htx) as (? & ? & _).
  unfold mark_if_new in *. by destruct (is_canonicalized m txid), b, c.
Qed.

(** ** The invariant of the task *)

Record task_ok task : Prop := {
  tk_wf : graph_wf (ct_graph task);
  tk_marks : marks_ok (ct_graph task) (ct_marks task);
  tk_assumed : ∀ p, p ∈ unprocessed_assumed_txs task →
    txs (ct_graph task) !! p.1 = Some (Whole p.2);
  tk_anchored : ∀ p, p ∈ unprocessed_anchored_txs task →
    txs (ct_graph task) !! p.1.1 = Some (Whole p.1.2) ∧ p.2 ≠ ∅;
  tk_seen : ∀ p, p ∈ unprocessed_seen_txs task →
    txs (ct_graph task) !! p.1.1 = Some (Whole p.1.2);
  tk_leftover : ∀ p, p ∈ unprocessed_leftover_txs task →
    txs (ct_graph task) !! p.1.1 = Some (Whole p.1.2);
}.

(** A turn that goes round: it keeps what the other turns rely on. *)
Record turn_ok task task' : Prop := {
  tn_ok : task_ok task';
  tn_graph : ct_graph task' = ct_graph task;
  tn_tip : ct_tip task' = ct_tip task;
  tn_anchored : unprocessed_anchored_txs task' = unprocessed_anchored_txs task;
  tn_grows : grows (ct_marks task) (ct_marks task');
  tn_left : (turns_left task' < turns_left task)%nat;
}.

Lemma stage_advance_rank stage :
  stage ≠ Finished → stage_rank stage = S (stage_rank (stage_advance stage)).
Proof. by destruct stage. Qed.

Lemma advance_ok task :
  task_ok task → current_stage task ≠ Finished →
  turn_ok task (with_stage task (stage_advance (current_stage task))).
Proof.
  intros [] Hs. split; try done. unfold turns_left. simpl.
  rewrite (stage_advance_rank (current_stage task)) by done. lia.
Qed.

(** Where [next_query] returns. *)
Definition turn_returns task (request : option ChainRequest) : Prop :=
  match request with
  | None => current_stage task = Finished
  | Some request => current_stage task = AnchoredTxs ∧
      ∃ txid tx anchors rest, unprocessed_anchored_txs task = (txid, tx, anchors) :: rest ∧
        request = anchor_block <$> set_iter anchors
  end.

Definition turn_result task (r : CanonicalTask A + CanonicalTask A * option ChainRequest) : Prop :=
  match r with
  | inl task' => turn_ok task task'
  | inr (task', request) => task' = task ∧ turn_returns task request
  end.

Lemma next_turn_ok task : task_ok task → ∃ r, next_turn task = Some r ∧ turn_result task r.
Proof.
  intros Hok. pose proof Hok as [Hwf Hm Ha Hn Hs Hl]. unfold next_turn.
  destruct (current_stage task) eqn:Hst.
  - destruct (unprocessed_assumed_txs task) as [|[txid tx] rest] eqn:Hq.
    { eexists. split; [done|]. rewrite <-Hst. apply advance_ok; [done|by rewrite Hst]. }
    eexists. split; [done|].
    destruct (mark_if_new_ok _ _ txid tx reason_assumed Hwf Hm (Ha _ ltac:(by left))) as (? & ? & _).
    split; try done; [split; try done; simpl; intros p Hp; apply Ha; by right|].
    unfold turns_left. rewrite Hq, Hst. simpl. lia.
  - destruct (unprocessed_anchored_txs task) as [|[[txid tx] anchors] rest] eqn:Hq.
    { eexists. split; [done|]. rewrite <-Hst. apply advance_ok; [done|by rewrite Hst]. }
    eexists. split; [done|]. split; [done|]. split; [done|]. by exists txid, tx, anchors, rest.
  - destruct (unprocessed_seen_txs task) as [|[[txid tx] last] rest] eqn:Hq.
    { eexists. split; [done|]. rewrite <-Hst. apply advance_ok; [done|by rewrite Hst]. }
    eexists. split; [done|].
    destruct (mark_if_new_ok _ _ txid tx (from_observed_in (InMempool last)) Hwf Hm
      (Hs _ ltac:(by left))) as (? & ? & _).
    split; try done; [split; try done; simpl; intros p Hp; apply Hs; by right|].
    unfold turns_left. rewrite Hq, Hst. simpl. lia.
  - destruct (unprocessed_leftover_txs task) as [|[[txid tx] height] rest] eqn:Hq.
    { eexists. split; [done|]. rewrite <-Hst. apply advance_ok; [done|by rewrite Hst]. }
    pose proof (Hl _ ltac:(by left)) as Htx. simpl in Htx.
    unfold get_tx_node. rewrite Htx. simpl. eexists. split; [done|].
    destruct (mark_leftover_ok (ct_graph task) (ct_marks task) txid tx
      (from_observed_in (InBlock height)) (negb (is_coinbase tx))
      (negb (is_evicted (node_of (ct_graph task) txid tx))) Hwf Hm Htx).
    split; try done; [split; try done; simpl; intros p Hp; apply Hl; by right|].
    unfold turns_left. rewrite Hq, Hst. simpl. lia.
  - eexists. split; [done|]. by split.
Qed.

(** [next_query] always returns, after turns that keep any property that
    turns keep. *)
Lemma next_query_ok (P : CanonicalTask A → Prop) task :
  task_ok task → P task →
  (∀ t t', task_ok t → P t → next_turn t = Some (inl t') → P t') →
  ∃ task' request, task_next_query task = Some (task', request) ∧ task_ok task' ∧
    ct_graph task' = ct_graph task ∧ ct_tip task' = ct_tip task ∧
    unprocessed_anchored_txs task' = unprocessed_anchored_txs task ∧
    turn_returns task' request ∧ P task'.
Proof.
  unfold task_next_query. intros Hok HP Hstep.
  assert (Hfuel : (turns_left task ≤ turns_left task)%nat) by done. revert Hfuel.
  generalize (turns_left task) at 2 3 as fuel. intros fuel. revert task Hok HP.
  induction fuel as [|fuel IH]; intros task Hok HP Hfuel.
  { unfold turns_left in Hfuel. lia. }
  cbn [next_loop]. destruct (next_turn_ok task Hok) as ([task1|[task1 request]] & Hn & Hr).
  - rewrite Hn. destruct Hr as [Hok1 Hg Ht Ha _ Hleft].
    destruct (IH task1 Hok1) as (task' & request & Heq & ? & ? & ? & ? & ? & ?); [by eauto|lia|].
    exists task', request. split_and!; congruence || done.
  - rewrite Hn. destruct Hr as [-> Hret]. by exists task, request.
Qed.

(** ** Answers *)

Lemma resolve_ok task txid tx anchors rest response :
  task_ok task → current_stage task = AnchoredTxs →
  unprocessed_anchored_txs task = (txid, tx, anchors) :: rest →
  ∃ task', task_resolve_query task response = Some task' ∧ task_ok task' ∧
    ct_graph task' = ct_graph task ∧ ct_tip task' = ct_tip task ∧
    unprocessed_anchored_txs task' = rest ∧
    unprocessed_assumed_txs task' = unprocessed_assumed_txs task ∧
    unprocessed_seen_txs task' = unprocessed_seen_txs task ∧
    current_stage task' = AnchoredTxs ∧
    grows (ct_marks task) (ct_marks task') ∧
    (is_Some (response ≫= find_anchor anchors) → accounted (ct_graph task) (ct_marks task') txid).
Proof.
  intros [Hwf Hm Ha Hn Hs Hl] Hst Hq. unfold task_resolve_query. rewrite Hst, Hq.
  rewrite Hq in Hn. destruct (Hn (txid, tx, anchors) ltac:(by left)) as [Htx Hne]; simpl in Htx, Hne.
  destruct (response ≫= find_anchor anchors) as [best|].
  - destruct (mark_if_new_ok _ _ txid tx (from_anchor best) Hwf Hm Htx) as (? & ? & ?).
    eexists. split; [done|]. split_and!; try done.
    split; try done. simpl. intros p Hp. apply Hn. by right.
  - destruct (set_last_is_Some anchors Hne) as [last Hlast]. rewrite Hlast. simpl.
    eexists. split; [done|]. split_and!; try done.
    split; try done; simpl.
    + intros p Hp. apply Hn. by right.
    + intros p [?| ->%list_elem_of_singleton]%elem_of_app; [by apply Hl|done].
Qed.

#[export] Instance CanonicalTask_laws : ChainQueryLaws (CanonicalTask A).
Proof.
  refine {| query_inv := task_ok; queries_left t := length (unprocessed_anchored_txs t) |}.
  intros task Hok.
  destruct (next_query_ok (λ _, True) task Hok) as (task' & request & Hn & Hok' & _ & Ht & Ha & Hr & _);
    [done..|].
  exists task', request. split_and!; [done..|]. intros [req ->] response.
  destruct Hr as [Hst (txid & tx & anchors & rest & Hq & _)].
  destruct (resolve_ok task' txid tx anchors rest response Hok' Hst Hq)
    as (task'' & Hres & Hok'' & _ & Ht'' & Ha'' & _).
  exists task''. split_and!; [done|done|simpl; congruence|]. rewrite Ha'', <-Ha, Hq. simpl. lia.
Defined.

Lemma marks_ok_empty g : marks_ok g (mkMarks ∅ ∅ []).
Proof.
  split; simpl.
  - split.
    + intros t p Ht. by rewrite lookup_empty in Ht.
    + intros t u [? Ht]. by rewrite lookup_empty in Ht.
    + intros t u [? Ht]. by rewrite lookup_empty in Ht.
    + intros t u Ht. by apply not_elem_of_empty in Ht.
    + intros x Hx. by apply not_elem_of_empty in Hx.
  - by intros p t _ [? ?].
  - intros t. rewrite elem_of_nil, lookup_empty. split; [done|by intros [? ?]].
  - constructor.
Qed.

Lemma CanonicalTask_new_ok g chain_tip params :
  graph_wf g → task_ok (CanonicalTask_new g chain_tip params).
Proof.
  intros Hwf. split; simpl; [done|apply marks_ok_empty|..].
  - intros [t x] (y & _ & Hy)%list_elem_of_omap. simpl in Hy.
    destruct (get_tx g y) as [z|] eqn:Hz; simpl in Hy; simplify_eq. by apply get_tx_whole.
  - intros [[t x] s] ([h y] & _ & Hy)%list_elem_of_omap. simpl in Hy.
    destruct (get_tx g y) as [z|] eqn:Hz; simpl in Hy; [|done].
    destruct (all_anchors g !! y) as [an|] eqn:Hs; simpl in Hy; simplify_eq.
    split; [by apply get_tx_whole|]. by eapply (wf_anchors g Hwf).
  - intros [[t x] s] ([h y] & _ & Hy)%list_elem_of_omap. simpl in Hy.
    destruct (get_tx g y) as [z|] eqn:Hz; simpl in Hy; simplify_eq. by apply get_tx_whole.
  - by intros p ?%elem_of_nil.
Qed.

(** ** The output *)

Lemma insert_spends_lookup (l : list OutPoint) (s : gmap OutPoint Txid) txid op :
  foldl (λ s op, <[op := txid]> s) s l !! op = if decide (op ∈ l) then Some txid else s !! op.
Proof.
  revert s. induction l as [|o l IH]; intros s; simpl; [done|]. rewrite IH.
  destruct (decide (op ∈ l)).
  - rewrite decide_True; [done|]. by right.
  - destruct (decide (o = op)) as [->|Hne].
    + rewrite lookup_insert_eq, decide_True; [done|]. by left.
    + rewrite lookup_insert_ne, decide_False; [done| |done]. by intros [?|?]%elem_of_cons.
Qed.

(** What the loop of [finish] has built after the transactions [l]. *)
Definition finished_with (c : gmap Txid (Transaction * CanonicalReason A)) (l : list Txid)
    (acc : list Txid * gmap Txid (Transaction * CanonicalReason A) * gmap OutPoint Txid) : Prop :=
  acc.1.1 = l ∧
  (∀ t, acc.1.2 !! t = if decide (t ∈ l) then c !! t else None) ∧
  (∀ op t, acc.2 !! op = Some t → t ∈ l ∧ ∃ tx r, c !! t = Some (tx, r) ∧
     is_coinbase tx = false ∧ op ∈ tx_prevouts tx) ∧
  (∀ op t tx r, t ∈ l → c !! t = Some (tx, r) → is_coinbase tx = false → op ∈ tx_prevouts tx →
     is_Some (acc.2 !! op)).

Lemma finish_loop c (l l0 : list Txid) acc :
  (∀ t, t ∈ l → is_Some (c !! t)) → finished_with c l0 acc →
  finished_with c (l0 ++ l) (foldl (finish_one c) acc l).
Proof.
  revert l0 acc. induction l as [|t l IH]; intros l0 acc Hl Hacc; [by rewrite app_nil_r|].
  simpl. rewrite (app_assoc l0 [t] l : l0 ++ t :: l = (l0 ++ [t]) ++ l).
  apply IH; [intros u Hu; apply Hl; by right|].
  destruct (Hl t ltac:(by left)) as [[tx r] Ht]. destruct acc as [[o ts] sp].
  destruct Hacc as (Ho & Hts & Hsp & Hsp'); simpl in *. rewrite Ht. subst o.
  split_and!; simpl; [done| | |].
  - intros u. rewrite lookup_insert, Hts. destruct (decide (t = u)) as [->|Hne].
    + rewrite decide_True; [done|]. apply elem_of_app. right. by left.
    + apply decide_ext. rewrite elem_of_app, list_elem_of_singleton. naive_solver.
  - intros op u Hu. destruct (is_coinbase tx) eqn:Hcb.
    { destruct (Hsp op u Hu) as [? ?]. split; [|done]. apply elem_of_app. by left. }
    rewrite insert_spends_lookup in Hu. destruct (decide (op ∈ tx_prevouts tx)).
    + injection Hu as <-. split; [apply elem_of_app; right; by left|]. by exists tx, r.
    + destruct (Hsp op u Hu) as [? ?]. split; [|done]. apply elem_of_app. by left.
  - intros op u utx ur Hu Huc Hcb Hop.
    assert (Hcase : u = t ∨ u ∈ l0) by (apply elem_of_app in Hu as [?| ->%list_elem_of_singleton]; auto).
    destruct (is_coinbase tx) eqn:Hcb'.
    + destruct Hcase as [->|?]; [congruence|by eapply Hsp'].
    + rewrite insert_spends_lookup. destruct (decide (op ∈ tx_prevouts tx)) as [|Hn]; [done|].
      destruct Hcase as [->|?]; [|by eapply Hsp']. congruence.
Qed.

(** The transactions of the output are the canonical ones, in order; its
    spends are theirs. *)
Lemma task_finish_spec task :
  task_ok task →
  let v := task_finish task in
  view_tip v = ct_tip task ∧ view_order v = canonical_order (ct_marks task) ∧
  view_txs v = canonical (ct_marks task) ∧
  (∀ op t, outpoint_is_null op = false →
     view_spends v !! op = Some t ↔ ∃ tx r, view_txs v !! t = Some (tx, r) ∧
       is_coinbase tx = false ∧ op ∈ tx_prevouts tx).
Proof.
  intros [Hwf Hm _ _ _ _]. cbv zeta. unfold task_finish.
  pose proof (finish_loop (canonical (ct_marks task)) (canonical_order (ct_marks task)) []
    ([], ∅, ∅)) as Hf. simpl in Hf.
  destruct (foldl _ _ _) as [[o ts] sp]. destruct Hf as (Ho & Hts & Hsp & Hsp'); simpl in *.
  { intros t. apply (mo_order _ _ Hm). }
  { split_and!; simpl; [done|intros t; by rewrite lookup_empty|done|].
    by intros op t tx r ?%elem_of_nil. }
  assert (Hts' : ts = canonical (ct_marks task)).
  { apply map_eq. intros t. rewrite Hts. case_decide as Hd; [done|]. symmetry.
    apply eq_None_not_Some. by rewrite <-(mo_order _ _ Hm). }
  split_and!; [done|done|done|]. intros op t Hnull. rewrite Hts'. split.
  - intros Ht. apply (Hsp op t Ht).
  - intros (tx & r & Ht & Hcb & Hop).
    destruct (Hsp' op t tx r) as [u Hu]; [|done..|].
    { apply (mo_order _ _ Hm). by eexists. }
    rewrite Hu. f_equal. destruct (Hsp op u Hu) as [_ (utx & ur & Hut & _ & Hopu)].
    destruct (decide (u = t)) as [|Hne]; [done|]. exfalso.
    apply (so_apart _ _ _ (mo_sets _ _ Hm) u t); [by eexists|by eexists|].
    split; [done|]. exists op.
    pose proof (so_whole _ _ _ (mo_sets _ _ Hm)) as Hw.
    split; [apply (whole_spends _ Hwf u utx)|apply (whole_spends _ Hwf t tx)];
      (done || by apply (Hw _ _ Hut) || by apply (Hw _ _ Ht)).
Qed.

(** ** What has been considered *)

Section history.
Context (c : LocalChain BlockHash) (t0 : CanonicalTask A).

(** Of the items [P] of a list, those no longer in it are accounted for. *)
Definition tracked {X} g m (P : X → Prop) (id : X → Txid) (l : list X) : Prop :=
  ∀ p, P p → p ∈ l ∨ accounted g m (id p).

Lemma tracked_keep {X} g m m' (P : X → Prop) id l :
  tracked g m P id l → grows m m' → tracked g m' P id l.
Proof. intros Ht Hg p Hp. destruct (Ht p Hp); [by left|right]. by eapply accounted_grows. Qed.

Lemma tracked_pop {X} g m m' (P : X → Prop) id x l :
  tracked g m P id (x :: l) → grows m m' → (P x → accounted g m' (id x)) →
  tracked g m' P id l.
Proof.
  intros Ht Hg Hx p Hp. destruct (Ht p Hp) as [[->|?]%elem_of_cons|?]; [right; auto|by left|right].
  by eapply accounted_grows.
Qed.

(** The items of the first task that must be dealt with: anchored ones only
    if the chain has one of their blocks. *)
Definition in_best_chain (s : gset A) : Prop :=
  ∃ a, a ∈ s ∧ is_block_in_chain c (anchor_block a) (ct_tip t0) = Some true.

Record history task : Prop := {
  hs_ok : task_ok task;
  hs_graph : ct_graph task = ct_graph t0;
  hs_tip : ct_tip task = ct_tip t0;
  hs_assumed : tracked (ct_graph t0) (ct_marks task) (.∈ unprocessed_assumed_txs t0) fst
    (unprocessed_assumed_txs task);
  hs_anchored : tracked (ct_graph t0) (ct_marks task)
    (λ p, p ∈ unprocessed_anchored_txs t0 ∧ in_best_chain p.2) (λ p, p.1.1)
    (unprocessed_anchored_txs task);
  hs_seen : tracked (ct_graph t0) (ct_marks task) (.∈ unprocessed_seen_txs t0) (λ p, p.1.1)
    (unprocessed_seen_txs task);
  hs_after_assumed : (stage_rank (current_stage task) < 4)%nat → unprocessed_assumed_txs task = [];
  hs_after_anchored : (stage_rank (current_stage task) < 3)%nat → unprocessed_anchored_txs task = [];
  hs_after_seen : (stage_rank (current_stage task) < 2)%nat → unprocessed_seen_txs task = [];
}.

#[local] Ltac solve_stages :=
  match goal with Hst : current_stage _ = _ |- _ => try rewrite Hst end; simpl;
  solve [done | match goal with Hq : _ = [] |- _ => rewrite Hq end; done | congruence | intros; congruence | intros; lia
        | intros; match goal with E : _ → _ = [] |- _ = [] => apply E; lia end].

Lemma history_turn task task' :
  history task → next_turn task = Some (inl task') → history task'.
Proof.
  intros [Hok Hgr Htip HA HN HS EA EN ES] Ht.
  destruct (next_turn_ok task Hok) as (r & Hr & Hres). rewrite Ht in Hr. injection Hr as <-.
  destruct Hres as [Hok' Hg' Ht' _ Hgrow _].
  pose proof (tracked_keep _ _ _ _ _ _ HA Hgrow) as HA'.
  pose proof (tracked_keep _ _ _ _ _ _ HN Hgrow) as HN'.
  pose proof (tracked_keep _ _ _ _ _ _ HS Hgrow) as HS'.
  pose proof Hok as [Hwf Hm Ha _ Hs _]. unfold next_turn in Ht.
  destruct (current_stage task) eqn:Hst; simpl in EA, EN, ES.
  - destruct (unprocessed_assumed_txs task) as [|[txid tx] rest] eqn:Hq; simplify_eq;
      split; simpl in *; try solve_stages.
    apply (tracked_pop _ _ _ _ _ _ _ HA Hgrow). intros _. rewrite <-Hgr.
    apply mark_if_new_ok; [done..|]. apply (Ha (txid, tx)). by left.
  - destruct (unprocessed_anchored_txs task) as [|[[txid tx] s] rest] eqn:Hq; simplify_eq.
    split; simpl in *; solve_stages.
  - destruct (unprocessed_seen_txs task) as [|[[txid tx] last] rest] eqn:Hq; simplify_eq;
      split; simpl in *; try solve_stages.
    apply (tracked_pop _ _ _ _ _ _ _ HS Hgrow). intros _. rewrite <-Hgr.
    apply mark_if_new_ok; [done..|]. apply (Hs (txid, tx, last)). by left.
  - destruct (unprocessed_leftover_txs task) as [|[[txid tx] height] rest] eqn:Hq; simplify_eq.
    { split; simpl in *; solve_stages. }
    destruct (get_tx_node _ _); simplify_eq/=. split; simpl in *; solve_stages.
  - done.
Qed.

(** A request about anchors one of which is in the chain finds one that is. *)
Lemma find_anchor_in_chain (anchors : gset A) chain_tip :
  (∃ a, a ∈ anchors ∧ is_block_in_chain c (anchor_block a) chain_tip = Some true) →
  is_Some (best_block_id c chain_tip (anchor_block <$> set_iter anchors) ≫= find_anchor anchors).
Proof.
  intros (a & Ha & Hin).
  destruct (best_block_id c chain_tip _) as [b|] eqn:Hb.
  - apply best_block_id_spec in Hb as [Hb _]. apply list_elem_of_fmap in Hb as (a' & -> & Ha').
    simpl. unfold find_anchor. apply fmap_is_Some. by apply (list_find_elem_of _ _ a').
  - exfalso. eapply (best_block_id_None c chain_tip _ (anchor_block a)); [exact Hb| |done].
    apply list_elem_of_fmap_2. by apply elem_of_set_iter.
Qed.

Lemma history_answer task txid tx anchors rest task' :
  history task → current_stage task = AnchoredTxs →
  unprocessed_anchored_txs task = (txid, tx, anchors) :: rest →
  task_resolve_query task (best_block_id c (ct_tip t0) (anchor_block <$> set_iter anchors))
    = Some task' →
  history task'.
Proof.
  intros [Hok Hgr Htip HA HN HS EA EN ES] Hst Hq Hres.
  destruct (resolve_ok task txid tx anchors rest
    (best_block_id c (ct_tip t0) (anchor_block <$> set_iter anchors)) Hok Hst Hq)
    as (t' & Ht' & Hok' & Hg' & Htip' & Hn' & Ha' & Hs' & Hst' & Hgrow & Hacc).
  rewrite Hres in Ht'. injection Ht' as <-. rewrite Hst in *. simpl in *.
  split; rewrite ?Hst', ?Hn', ?Ha', ?Hs'; simpl; try congruence; try lia.
  - by eapply tracked_keep.
  - rewrite Hq in HN. apply (tracked_pop _ _ _ _ _ _ _ HN Hgrow). intros [_ Hin]. rewrite <-Hgr.
    apply Hacc. by apply find_anchor_in_chain.
  - by eapply tracked_keep.
  - intros _. apply EA. lia.
Qed.

Lemma history_driven task last :
  history task → driven c (ct_tip t0) task last → history last.
Proof.
  intros Hh Hd. induction Hd as [task|task task' request task'' last Hn Hr _ IH]; [done|].
  apply IH. destruct (next_query_ok history task (hs_ok task Hh) Hh)
    as (t' & req & Heq & _ & _ & _ & _ & Hret & Hh'); [intros; by eapply history_turn|].
  cbn in Hn. rewrite Heq in Hn. injection Hn as -> ->.
  destruct Hret as [Hst (txid & tx & anchors & rest & Hq & ->)].
  cbn in Hr. by eapply history_answer.
Qed.

Lemma history_start :
  task_ok t0 → current_stage t0 = AssumedTxs → history t0.
Proof.
  intros Hok Hst. split; rewrite ?Hst; simpl; try done; try lia.
  - by left.
  - intros p [? _]. by left.
  - by left.
Qed.

Lemma history_finished last last' :
  history last → next_query last = Some (last', None) →
  history last' ∧ current_stage last' = Finished.
Proof.
  intros Hh Hn. destruct (next_query_ok history last (hs_ok last Hh) Hh)
    as (t' & req & Heq & _ & _ & _ & _ & Hret & Hh'); [intros; by eapply history_turn|].
  cbn in Hn. rewrite Heq in Hn. by injection Hn as -> ->.
Qed.
End history.

(** ** The canonical set *)

(** What a client can rely on. *)
Record consistent_view {P} g (v : Canonical P) : Prop := {
  cv_order_nodup : NoDup (view_order v);
  cv_order : ∀ t, t ∈ view_order v ↔ is_Some (view_txs v !! t);
  cv_whole : ∀ t p, view_txs v !! t = Some p → txs g !! t = Some (Whole p.1);
  cv_apart : ∀ t u, is_Some (view_txs v !! t) → is_Some (view_txs v !! u) → ¬ conflicts g t u;
  cv_parents : ∀ p t, parent g p t → is_Some (view_txs v !! t) → is_Some (view_txs v !! p);
  cv_spends : ∀ op t, outpoint_is_null op = false →
    view_spends v !! op = Some t ↔ ∃ tx r, view_txs v !! t = Some (tx, r) ∧
      is_coinbase tx = false ∧ op ∈ tx_prevouts tx;
}.

Lemma task_ok_consistent task : task_ok task → consistent_view (ct_graph task) (task_finish task).
Proof.
  intros Hok. destruct (task_finish_spec task Hok) as (_ & Ho & Ht & Hs).
  destruct Hok as [_ [Hsets Hp Hord Hnd] _ _ _ _]. split; rewrite ?Ho, ?Ht; try done.
  - apply (so_whole _ _ _ Hsets).
  - apply (so_apart _ _ _ Hsets).
  - intros op t Hop. rewrite Hs by done. by rewrite Ht.
Qed.

(** The run of a fresh task. *)
Lemma canonicalize_run g c chain_tip params fuel :
  graph_wf g → (length (unprocessed_anchored_txs (canonical_task g chain_tip params)) < fuel)%nat →
  ∃ last, history c (canonical_task g chain_tip params) last ∧ current_stage last = Finished ∧
    canonicalize c fuel (canonical_task g chain_tip params) = Some (task_finish last).
Proof.
  intros Hwf Hfuel. pose proof (CanonicalTask_new_ok g chain_tip params Hwf) as Hok.
  change (query_inv (canonical_task g chain_tip params)) in Hok.
  destruct (canonicalize_loop_finishes (Q:=CanonicalTask A) c fuel chain_tip
    (canonical_task g chain_tip params) Hok Hfuel) as (last & last' & Hd & Hn & _ & _ & Hc).
  destruct (history_finished c (canonical_task g chain_tip params) last last') as [? ?].
  - eapply history_driven; [|exact Hd]. by apply history_start.
  - done.
  - by exists last'.
Qed.


(** C22. Marking a full transaction canonical keeps the marks sound.  It fails,
    changing nothing, exactly when the transaction or one of its ancestors is
    already excluded or two of them conflict; otherwise it adds exactly the
    transaction, with the given reason, and its ancestors, with the transitive
    one, and keeps everything already decided. *)
Theorem mark_canonical_correct g m txid tx reason :
  graph_wf g → marks_ok g m → txs g !! txid = Some (Whole tx) → canonical m !! txid = None →
  let m' := mark_canonical g m txid tx reason in
  marks_ok g m' ∧
  (double_spent g m txid → m' = m) ∧
  (¬ double_spent g m txid →
     canonical m' !! txid = Some (tx, reason) ∧
     (∀ t, is_Some (canonical m' !! t) ↔ is_Some (canonical m !! t) ∨ ancestor_of g txid t) ∧
     (∀ t p, canonical m !! t = Some p → canonical m' !! t = Some p) ∧
     (∀ t p, canonical m' !! t = Some p → canonical m !! t = None → t ≠ txid →
        p.2 = to_transitive reason txid) ∧
     not_canonical m ⊆ not_canonical m' ∧
     ∃ l, canonical_order m' = canonical_order m ++ l).
Proof.
  intros Hwf Hm Htx Hf m'.
  destruct (mark_canonical_outcome g Hwf m txid tx reason Hm Htx Hf) as [[Hds Heq]|[Hn Hk]].
  - fold m' in Heq. rewrite Heq. split_and!; [done|done|]. by intros [].
  - fold m' in Hk. split_and!; [apply Hk|by intros ?|]. intros _.
    by destruct Hk as [_ ? ? ? ? ? ?].
Qed.

(** C1. Driven by a local chain, canonicalization terminates without a panic
    after at most one query per anchored transaction, and its output is sound:
    no two canonical transactions spend the same output, every full parent of
    a canonical transaction is canonical, the order lists each exactly once,
    and the spends are exactly those of the canonical transactions. *)
Theorem canonicalize_consistent g c chain_tip params fuel :
  graph_wf g → (length (unprocessed_anchored_txs (canonical_task g chain_tip params)) < fuel)%nat →
  ∃ v, canonicalize c fuel (canonical_task g chain_tip params) = Some v ∧
    view_tip v = chain_tip ∧ consistent_view g v.
Proof.
  intros Hwf Hfuel.
  destruct (canonicalize_run g c chain_tip params fuel Hwf Hfuel) as (last & Hh & _ & Hc).
  exists (task_finish last). split; [done|]. pose proof (hs_ok _ _ _ Hh) as Hok. split.
  - destruct (task_finish_spec last Hok) as (-> & _). apply (hs_tip _ _ _ Hh).
  - pose proof (task_ok_consistent last Hok) as Hv. by rewrite (hs_graph _ _ _ Hh) in Hv.
Qed.

(** A transaction has a conflict that is canonical, or descends from one that
    has, or spends from two that conflict. *)
Definition excluded g (v : CanonicalTxs A) (txid : Txid) : Prop :=
  (∃ u, ancestor_of g txid u ∧ ∃ t x, is_Some (view_txs v !! t) ∧ conflicts g t x ∧
     rtc (spends_from g) x u) ∨
  (∃ u w, ancestor_of g txid u ∧ ancestor_of g txid w ∧ conflicts g u w).

Lemma accounted_excluded task txid :
  task_ok task → accounted (ct_graph task) (ct_marks task) txid →
  is_Some (view_txs (task_finish task) !! txid) ∨ excluded (ct_graph task) (task_finish task) txid.
Proof.
  intros Hok Hacc. destruct (task_finish_spec task Hok) as (_ & _ & Ht & _). unfold excluded.
  rewrite Ht. destruct Hacc as [?|[(u & Hu & Hn)|?]]; [by left|right; left|right; by right].
  exists u. split; [done|].
  apply (so_origin _ _ _ (mo_sets _ _ (tk_marks task Hok)) u Hn).
Qed.

(** What the task is asked to consider: the assumed transactions, those
    anchored in the best chain, and those seen and not evicted since. *)
Definition considered g c (chain_tip : BlockId) (params : CanonicalParams) (txid : Txid) : Prop :=
  txid ∈ assume_canonical params ∨
  (∃ s, anchors g !! txid = Some s ∧
     ∃ a, a ∈ s ∧ is_block_in_chain c (anchor_block a) chain_tip = Some true) ∨
  (∃ l, last_seen g !! txid = Some l ∧
     match last_evicted g !! txid with Some e => e < l | None => True end).

Lemma elem_of_assumed g chain_tip params txid tx :
  txs g !! txid = Some (Whole tx) → txid ∈ assume_canonical params →
  (txid, tx) ∈ unprocessed_assumed_txs (canonical_task g chain_tip params).
Proof.
  intros Htx Hin. simpl. apply list_elem_of_omap. exists txid. rewrite elem_of_reverse.
  split; [done|]. by rewrite (proj2 (get_tx_whole g txid tx) Htx).
Qed.

Lemma elem_of_anchored g chain_tip params txid tx s :
  graph_wf g → txs g !! txid = Some (Whole tx) → anchors g !! txid = Some s →
  (txid, tx, s) ∈ unprocessed_anchored_txs (canonical_task g chain_tip params).
Proof.
  intros Hwf Htx Hs. simpl. apply list_elem_of_omap.
  destruct (set_last_is_Some s (wf_anchors g Hwf _ _ Hs)) as [a Ha].
  exists (confirmation_height_upper_bound a, txid). split.
  - unfold txids_by_descending_anchor_height. rewrite elem_of_reverse, elem_of_set_iter.
    apply (wf_conf_heights g Hwf). by exists s, a.
  - simpl. rewrite (proj2 (get_tx_whole g txid tx) Htx). simpl. unfold all_anchors. by rewrite Hs.
Qed.

Lemma elem_of_seen g chain_tip params txid tx l :
  graph_wf g → txs g !! txid = Some (Whole tx) → last_seen g !! txid = Some l →
  match last_evicted g !! txid with Some e => e < l | None => True end →
  (txid, tx, l) ∈ unprocessed_seen_txs (canonical_task g chain_tip params).
Proof.
  intros Hwf Htx Hl He. simpl. apply list_elem_of_omap. exists (l, txid). split.
  - unfold txids_by_descending_last_seen. apply list_elem_of_filter. simpl. split.
    + destruct (last_evicted g !! txid) as [e|]; [|done]. by apply N.ltb_lt.
    + rewrite elem_of_reverse, elem_of_set_iter. by apply (wf_last_seen g Hwf).
  - simpl. by rewrite (proj2 (get_tx_whole g txid tx) Htx).
Qed.

(** C25. Canonicalization is complete: a full transaction that is assumed,
    anchored in the best chain, or seen and not evicted since is in the
    output, unless it is excluded by what is in the output or spends from two
    conflicting transactions. *)
Theorem canonicalize_complete g c chain_tip params fuel txid tx v :
  graph_wf g → (length (unprocessed_anchored_txs (canonical_task g chain_tip params)) < fuel)%nat →
  canonicalize c fuel (canonical_task g chain_tip params) = Some v →
  txs g !! txid = Some (Whole tx) → considered g c chain_tip params txid →
  is_Some (view_txs v !! txid) ∨ excluded g v txid.
Proof.
  intros Hwf Hfuel Hv Htx Hcons.
  destruct (canonicalize_run g c chain_tip params fuel Hwf Hfuel) as (last & Hh & Hst & Hc).
  assert (v = task_finish last) as -> by congruence.
  pose proof (accounted_excluded last txid (hs_ok _ _ _ Hh)) as Hacc.
  rewrite (hs_graph _ _ _ Hh) in Hacc. apply Hacc. cbn [ct_graph canonical_task CanonicalTask_new].
  destruct Hh as [_ _ _ HA HN HS EA EN ES]. rewrite Hst in *. simpl in EA, EN, ES.
  destruct Hcons as [Hin|[(s & Hs & Hin)|(l & Hl & He)]].
  - destruct (HA (txid, tx)) as [Hq|?]; [by apply elem_of_assumed| |done].
    rewrite EA in Hq by lia. by apply elem_of_nil in Hq.
  - destruct (HN (txid, tx, s)) as [Hq|?]; [split; [by apply elem_of_anchored|done]| |done].
    rewrite EN in Hq by lia. by apply elem_of_nil in Hq.
  - destruct (HS (txid, tx, l)) as [Hq|?]; [by apply elem_of_seen| |done].
    rewrite ES in Hq by lia. by apply elem_of_nil in Hq.
Qed.
End spec.

(** ** On a concrete graph *)

From S2P Require Import Samples TxSamples TxGraphSpec.

(** Blocks 0, 1 and 2 of the sample anchors. *)
Definition sample_local_chain : LocalChain BlockHash :=
  mkLocalChain (sample_chain 0 100 [(1, 101); (2, 102)]).

Definition sample_task : CanonicalTask ConfirmationBlockTime :=
  canonical_task sample_graph (mkBlockId 2 102) (mkCanonicalParams []).

(** The later seen of the two conflicting payments wins, with its child. *)
Lemma sample_canonical :
  (λ v, (view_order v, (λ t, reason_descendant <$> (snd <$> view_txs v !! sample_txid t)) <$>
          [tx_coinbase; tx_pay; tx_left; tx_right; tx_child])) <$>
    canonicalize sample_local_chain 3 sample_task =
  Some ([sample_txid tx_pay; sample_txid tx_coinbase; sample_txid tx_child; sample_txid tx_right],
        [Some (Some (sample_txid tx_pay)); Some None; None; Some (Some (sample_txid tx_child));
         Some None]).
Proof. vm_compute. reflexivity. Qed.

Lemma mark_canonical_correct_witness :
  marks_ok sample_graph (mark_canonical sample_graph (mkMarks ∅ ∅ []) (sample_txid tx_child)
    tx_child reason_assumed).
Proof.
  apply (mark_canonical_correct sample_graph); [apply sample_graph_wf|apply marks_ok_empty| |done].
  vm_compute. reflexivity.
Defined.

Lemma canonicalize_consistent_witness :
  ∃ v, canonicalize sample_local_chain 3 sample_task = Some v ∧
    view_tip v = mkBlockId 2 102 ∧ consistent_view sample_graph v.
Proof.
  apply (canonicalize_consistent sample_graph sample_local_chain (mkBlockId 2 102)
    (mkCanonicalParams []) 3 sample_graph_wf).
  apply Nat.ltb_lt. vm_compute. reflexivity.
Defined.

Lemma canonicalize_complete_witness :
  match canonicalize sample_local_chain 3 sample_task with
  | Some v => is_Some (view_txs v !! sample_txid tx_left) ∨
              excluded sample_graph v (sample_txid tx_left)
  | None => False
  end.
Proof.
  assert (Hfuel : (length (unprocessed_anchored_txs sample_task) < 3)%nat).
  { apply Nat.ltb_lt. vm_compute. reflexivity. }
  destruct (canonicalize_run sample_graph sample_local_chain (mkBlockId 2 102)
    (mkCanonicalParams []) 3 sample_graph_wf Hfuel) as (last & _ & _ & Hc).
  fold sample_task in Hc. rewrite Hc.
  apply (canonicalize_complete sample_graph sample_local_chain (mkBlockId 2 102)
    (mkCanonicalParams []) 3 (sample_txid tx_left) tx_left _ sample_graph_wf Hfuel Hc).
  - vm_compute. reflexivity.
  - do 2 right. exists 12. split; vm_compute; reflexivity.
Defined.
