(* ===== verification/CanonicalReasons.v ===== *)
(** * Why transactions are canonical

    The reasons that the task of [crates/chain/src/canonical_task.rs] records
    are sound: an anchor reason names an anchor, in the chain, of the
    transaction or of the canonical descendant it gives; and a transaction
    with an anchor in the chain is never canonical merely because it was
    observed. *)
From stdpp Require Import relations.
From S2P Require Import Prelude Block CheckPoint LocalChain ChainQuery.
From S2P Require Import Tx TxGraph TxGraphFacts TxWalk CanonicalTask CanonicalMarks CanonicalSpec.
#[local] Open Scope N_scope.

Section reasons.
Context `{Bitcoin} {A : Type} `{Countable A} `{!TotalOrd A, !Anchor A} `{HashOrder}.
Implicit Types (g : TxGraph A) (m : Marks A) (task : CanonicalTask A).

Lemma ancestor_whole g t u tx :
  txs g !! t = Some (Whole tx) → ancestor_of g t u → ∃ utx, txs g !! u = Some (Whole utx).
Proof.
  intros Ht Hu. unfold ancestor_of in Hu. inversion Hu as [|? y ? [Hw _] _]; subst; [by exists tx|done].
Qed.

Lemma canonical_not_double_spent g m t :
  graph_wf g → marks_ok g m → is_Some (canonical m !! t) → ¬ double_spent g m t.
Proof.
  intros Hwf Hm Ht [(u & Hu & Hn)|(u & w & Hu & Hw & Hc)].
  - apply (marks_ok_disjoint g Hwf m u Hm); [|done]. by eapply marks_ok_ancestor.
  - apply (so_apart _ _ _ (mo_sets _ _ Hm) u w); [..|done]; by eapply marks_ok_ancestor.
Qed.

Lemma double_spent_ancestor g m t u :
  ancestor_of g t u → double_spent g m u → double_spent g m t.
Proof.
  intros Htu.
  assert (Htrans : ∀ v, ancestor_of g u v → ancestor_of g t v).
  { intros v Huv. unfold ancestor_of in *. by etrans. }
  intros [(v & Hv & Hn)|(v & w & Hv & Hw & Hc)]; [left; exists v|right; exists v, w]; auto.
Qed.

(** A property of reasons that the new ones have is kept. *)
Lemma mark_if_new_reasons g m txid tx reason (Q : Txid → CanonicalReason A → Prop) :
  graph_wf g → marks_ok g m → txs g !! txid = Some (Whole tx) →
  (∀ t p, canonical m !! t = Some p → Q t p.2) →
  (canonical m !! txid = None → ¬ double_spent g m txid → Q txid reason) →
  (∀ t, ancestor_of g txid t → t ≠ txid → canonical m !! t = None → ¬ double_spent g m txid →
     Q t (to_transitive reason txid)) →
  ∀ t p, canonical (mark_if_new g m txid tx reason) !! t = Some p → Q t p.2.
Proof.
  intros Hwf Hm Htx Hold Hroot Hanc t p. unfold mark_if_new.
  destruct (is_canonicalized m txid) eqn:Hc; [apply Hold|].
  unfold is_canonicalized in Hc. apply orb_false_iff in Hc as [Hc _].
  apply bool_decide_eq_false in Hc. rewrite <-eq_None_not_Some in Hc.
  destruct (mark_canonical_outcome g Hwf m txid tx reason Hm Htx Hc) as [[_ ->]|[Hds Hk]];
    [apply Hold|].
  intros Ht. destruct (canonical m !! t) as [q|] eqn:Hq.
  { pose proof (mk_kept _ _ _ _ _ _ Hk t q Hq). assert (q = p) as -> by congruence. by apply Hold. }
  destruct (decide (t = txid)) as [->|Hne].
  - rewrite (mk_tx _ _ _ _ _ _ Hk) in Ht. injection Ht as <-. by apply Hroot.
  - rewrite (mk_reason _ _ _ _ _ _ Hk t p Ht Hq Hne). apply Hanc; try done.
    destruct (proj1 (mk_keys _ _ _ _ _ _ Hk t)) as [Hs|?]; [by eexists| |done].
    rewrite Hq in Hs. by destruct Hs.
Qed.

(** The descendant a reason gives is canonical and descends indeed. *)
Definition descendants_sound g m : Prop := ∀ t p d,
  canonical m !! t = Some p → reason_descendant p.2 = Some d →
  is_Some (canonical m !! d) ∧ ancestor_of g d t ∧ d ≠ t.

Lemma mark_if_new_descendants g m txid tx reason :
  graph_wf g → marks_ok g m → txs g !! txid = Some (Whole tx) →
  reason_descendant reason = None →
  descendants_sound g m → descendants_sound g (mark_if_new g m txid tx reason).
Proof.
  intros Hwf Hm Htx Hnone Hold. set (m' := mark_if_new g m txid tx reason).
  destruct (mark_if_new_ok g m txid tx reason Hwf Hm Htx) as (Hok & [Hkept _] & Hacc).
  fold m' in Hok, Hkept, Hacc. intros t p d Ht.
  refine (mark_if_new_reasons g m txid tx reason
    (λ t r, reason_descendant r = Some d → is_Some (canonical m' !! d) ∧ ancestor_of g d t ∧ d ≠ t)
    Hwf Hm Htx _ _ _ t p Ht).
  - intros u q Hu Hd. destruct (Hold u q d Hu Hd) as ([r Hr] & ? & ?).
    split_and!; [exists r; by apply Hkept|done|done].
  - intros _ _ Hd. congruence.
  - intros u Hu Hne _ Hds Hd. assert (d = txid) as -> by (destruct reason; simpl in Hd; congruence).
    split_and!; [|done|done]. destruct Hacc as [?|Hds']; [done|]. exfalso.
    unfold m', mark_if_new in *. destruct (is_canonicalized m txid) eqn:Hc; [done|].
    unfold is_canonicalized in Hc. apply orb_false_iff in Hc as [Hc _].
    apply bool_decide_eq_false in Hc. rewrite <-eq_None_not_Some in Hc.
    destruct (mark_canonical_outcome g Hwf m txid tx reason Hm Htx Hc) as [[? _]|[_ Hk]]; [done|].
    eapply canonical_not_double_spent; [exact Hwf|exact Hok| |exact Hds'].
    rewrite (mk_tx _ _ _ _ _ _ Hk). by eexists.
Qed.

Section run.
Context (c : LocalChain BlockHash) (t0 : CanonicalTask A).

(** The transaction has an anchor in the chain. *)
Definition anchored_in_chain (t : Txid) : Prop :=
  ∃ s, anchors (ct_graph t0) !! t = Some s ∧ in_best_chain c t0 s.

Definition reason_sound (stage : CanonicalStage) (t : Txid) (r : CanonicalReason A) : Prop :=
  match r with
  | Assumed _ => True
  | ByAnchor a d =>
      (∃ s, anchors (ct_graph t0) !! default t d = Some s ∧ a ∈ s) ∧
      is_block_in_chain c (anchor_block a) (ct_tip t0) = Some true
  | ByObservedIn _ _ => (stage_rank stage < 3)%nat ∧ ¬ anchored_in_chain t
  end.

Record reasons_sound task : Prop := {
  rs_reasons : ∀ t p, canonical (ct_marks task) !! t = Some p →
    reason_sound (current_stage task) t p.2;
  rs_descendants : descendants_sound (ct_graph t0) (ct_marks task);
  rs_items : ∀ p, p ∈ unprocessed_anchored_txs task →
    anchors (ct_graph t0) !! p.1.1 = Some p.2;
}.

Context (H0anchored : ∀ t tx s, txs (ct_graph t0) !! t = Some (Whole tx) →
  anchors (ct_graph t0) !! t = Some s → (t, tx, s) ∈ unprocessed_anchored_txs t0).

(** Once the anchored stage is over, what is new is not anchored. *)
Lemma new_not_anchored task t tx :
  history c t0 task → (stage_rank (current_stage task) < 3)%nat →
  txs (ct_graph t0) !! t = Some (Whole tx) → canonical (ct_marks task) !! t = None →
  ¬ double_spent (ct_graph t0) (ct_marks task) t → ¬ anchored_in_chain t.
Proof using H0anchored.
  intros Hh Hst Htx Hn Hds (s & Hs & Hin).
  destruct (hs_anchored _ _ _ Hh (t, tx, s)) as [Hq|[[p Hp]|?]]; [|..|done].
  - split; [by apply H0anchored|done].
  - rewrite (hs_after_anchored _ _ _ Hh Hst) in Hq. by apply elem_of_nil in Hq.
  - simpl in Hp. congruence.
Qed.

(** Marking what was merely observed. *)
Lemma observed_reasons task txid tx o :
  history c t0 task → reasons_sound task → (stage_rank (current_stage task) < 3)%nat →
  txs (ct_graph t0) !! txid = Some (Whole tx) →
  let m' := mark_if_new (ct_graph t0) (ct_marks task) txid tx (from_observed_in o) in
  (∀ t p, canonical m' !! t = Some p → reason_sound (current_stage task) t p.2) ∧
  descendants_sound (ct_graph t0) m'.
Proof using H0anchored.
  intros Hh [Hr Hd _] Hst Htx m'. pose proof Hh as [[Hwf Hm _ _ _ _] Hgr _ _ _ _ _ _ _].
  rewrite Hgr in Hwf, Hm. split; [|by apply mark_if_new_descendants].
  unfold m'. apply mark_if_new_reasons; try done.
  - intros Hn Hds. split; [done|]. by eapply new_not_anchored.
  - intros t Ht Hne Hn Hds. split; [done|].
    destruct (ancestor_whole _ _ _ _ Htx Ht) as [ttx Httx].
    eapply new_not_anchored; [done|done|done|done|].
    intros Hds'. by eapply Hds, double_spent_ancestor.
Qed.

Lemma reason_sound_later s s' t r :
  (stage_rank s' ≤ stage_rank s)%nat → reason_sound s t r → reason_sound s' t r.
Proof. destruct r; simpl; [done|done|]. intros ? [? ?]. split; [lia|done]. Qed.

Lemma stage_advance_le s : (stage_rank (stage_advance s) ≤ stage_rank s)%nat.
Proof. destruct s; simpl; lia. Qed.

Lemma reasons_advance task :
  reasons_sound task → reasons_sound (with_stage task (stage_advance (current_stage task))).
Proof.
  intros [Hr Hd Hi]. split; simpl; [|done|done]. intros t p Hp.
  eapply reason_sound_later; [apply stage_advance_le|]. by apply Hr.
Qed.

Lemma reasons_turn task task' :
  history c t0 task → reasons_sound task → next_turn task = Some (inl task') →
  reasons_sound task'.
Proof using H0anchored.
  intros Hh Hrs Ht. pose proof Hrs as [Hr Hd Hi].
  pose proof Hh as [[Hwf Hm Ha _ Hs Hl] Hgr _ _ _ _ _ _ _]. rewrite Hgr in Hwf, Hm, Ha, Hs, Hl.
  unfold next_turn in Ht. rewrite Hgr in Ht. destruct (current_stage task) eqn:Hst.
  - destruct (unprocessed_assumed_txs task) as [|[txid tx] rest] eqn:Hq; simplify_eq.
    { rewrite <-Hst. by apply reasons_advance. }
    pose proof (Ha _ ltac:(by left)) as Htx. split; simpl; [|by apply mark_if_new_descendants|done].
    by apply mark_if_new_reasons.
  - destruct (unprocessed_anchored_txs task) as [|[[txid tx] s] rest] eqn:Hq; simplify_eq.
    rewrite <-Hst. by apply reasons_advance.
  - destruct (unprocessed_seen_txs task) as [|[[txid tx] last] rest] eqn:Hq; simplify_eq.
    { rewrite <-Hst. by apply reasons_advance. }
    destruct (observed_reasons task txid tx (InMempool last) Hh Hrs) as [? ?];
      [rewrite Hst; simpl; lia|apply (Hs _ ltac:(by left))|].
    rewrite <-Hst in *. by split.
  - destruct (unprocessed_leftover_txs task) as [|[[txid tx] height] rest] eqn:Hq; simplify_eq.
    { rewrite <-Hst. by apply reasons_advance. }
    destruct (get_tx_node _ _) as [node|]; simplify_eq/=.
    destruct (observed_reasons task txid tx (InBlock height) Hh Hrs) as [? ?];
      [rewrite Hst; simpl; lia|apply (Hl _ ltac:(by left))|].
    rewrite <-Hst in *. unfold mark_if_new in *.
    destruct (is_canonicalized _ txid), (is_coinbase tx), (is_evicted node); by split.
  - done.
Qed.

Lemma find_anchor_spec (s : gset A) b a :
  find_anchor s b = Some a → a ∈ s ∧ anchor_block a = b.
Proof.
  unfold find_anchor. intros ([i x] & Hf & [= <-])%fmap_Some.
  apply list_find_Some in Hf as (Hi & Hb & _). split; [|done].
  apply elem_of_set_iter. by eapply list_elem_of_lookup_2.
Qed.

Lemma reasons_answer task txid tx s rest task' :
  history c t0 task → reasons_sound task → current_stage task = AnchoredTxs →
  unprocessed_anchored_txs task = (txid, tx, s) :: rest →
  task_resolve_query task (best_block_id c (ct_tip t0) (anchor_block <$> set_iter s)) = Some task' →
  reasons_sound task'.
Proof.
  intros Hh [Hr Hd Hi] Hst Hq Hres. pose proof Hh as [[Hwf Hm _ Ha _ _] Hgr _ _ _ _ _ _ _].
  rewrite Hgr in Hwf, Hm, Ha. rewrite Hq in Ha, Hi.
  destruct (Ha (txid, tx, s) ltac:(by left)) as [Htx Hne]; simpl in Htx, Hne.
  pose proof (Hi _ ltac:(by left)) as Hs. simpl in Hs.
  unfold task_resolve_query in Hres. rewrite Hst, Hq, Hgr in Hres.
  destruct (_ ≫= find_anchor s) as [best|] eqn:Hbest.
  - injection Hres as <-.
    destruct (best_block_id c (ct_tip t0) _) as [b|] eqn:Hb; simpl in Hbest; [|done].
    apply find_anchor_spec in Hbest as [Hin <-]. apply best_block_id_spec in Hb as [_ Hb].
    split; simpl; [|by apply mark_if_new_descendants|intros p Hp; apply Hi; by right].
    rewrite Hst in Hr. apply mark_if_new_reasons; try done; simpl; eauto.
  - destruct (set_last_is_Some s Hne) as [last Hlast]. rewrite Hlast in Hres. simpl in Hres.
    injection Hres as <-. split; simpl; [by rewrite <-Hst|done|]. intros p Hp. apply Hi. by right.
Qed.

Lemma reasons_driven task last :
  history c t0 task → reasons_sound task → driven c (ct_tip t0) task last → reasons_sound last.
Proof using H0anchored.
  intros Hh Hr Hd. revert Hh Hr.
  induction Hd as [task|task task' request task'' last Hn Ha _ IH]; intros Hh Hr; [done|].
  destruct (next_query_ok (λ t, history c t0 t ∧ reasons_sound t) task (hs_ok _ _ _ Hh) (conj Hh Hr))
    as (t' & req & Heq & _ & _ & _ & _ & Hret & Hh' & Hr').
  { intros t t' _ [? ?] ?. split; [by eapply history_turn|by eapply reasons_turn]. }
  cbn in Hn. rewrite Heq in Hn. injection Hn as -> ->.
  destruct Hret as [Hst (txid & tx & s & rest & Hq & ->)]. cbn in Ha.
  apply IH; [by eapply history_answer|by eapply reasons_answer].
Qed.

Lemma reasons_finished last last' :
  history c t0 last → reasons_sound last → next_query last = Some (last', None) →
  reasons_sound last'.
Proof using H0anchored.
  intros Hh Hr Hn.
  destruct (next_query_ok (λ t, history c t0 t ∧ reasons_sound t) last (hs_ok _ _ _ Hh) (conj Hh Hr))
    as (t' & req & Heq & _ & _ & _ & _ & _ & _ & Hr').
  { intros t t' _ [? ?] ?. split; [by eapply history_turn|by eapply reasons_turn]. }
  cbn in Hn. rewrite Heq in Hn. by injection Hn as -> ->.
Qed.
End run.
End reasons.
