(* ===== verification/CanonicalView.v ===== *)
(** * The canonical view

    Models [crates/chain/src/canonical.rs], the queries on a canonical set and
    the balance, and [crates/chain/src/canonical_view_task.rs], the second
    phase of canonicalization, which turns reasons into chain positions; with
    [LocalChain::canonical_view], which runs both phases.

    [None] is a panic, here of an index into [txs].  [COINBASE_MATURITY] is a
    constant of the [bitcoin] crate.  [list_expected_spk_txids], which needs
    the script index, is left out. *)
From S2P Require Import Prelude Block CheckPoint LocalChain ChainQuery ChainData.
From S2P Require Import Tx TxGraph TxWalk CanonicalTask.
#[local] Open Scope N_scope.

(** ** Transactions and outputs with their position *)

Record CanonicalTx `{Bitcoin} (P : Type) := mkCanonicalTx {
  ctx_pos : P;
  ctx_txid : Txid;
  ctx_tx : Transaction;
}.
Arguments mkCanonicalTx {_ P}.
Arguments ctx_pos {_ P}.
Arguments ctx_txid {_ P}.
Arguments ctx_tx {_ P}.

Record CanonicalTxOut `{Bitcoin} (P : Type) := mkCanonicalTxOut {
  cto_pos : P;
  cto_outpoint : OutPoint;
  cto_txout : TxOut;
  cto_spent_by : option (P * Txid);
  cto_is_on_coinbase : bool;
}.
Arguments mkCanonicalTxOut {_ P}.
Arguments cto_pos {_ P}.
Arguments cto_outpoint {_ P}.
Arguments cto_txout {_ P}.
Arguments cto_spent_by {_ P}.
Arguments cto_is_on_coinbase {_ P}.

Section orders.
Context `{Bitcoin} {P : Type} (cmp : P → P → comparison).

Definition canonical_tx_cmp (self other : CanonicalTx P) : comparison :=
  then_with (cmp (ctx_pos self) (ctx_pos other)) (tcmp (ctx_txid self) (ctx_txid other)).

(** [Option<(P, Txid)>]: [None] first. *)
Definition spent_by_cmp (self other : option (P * Txid)) : comparison :=
  match self, other with
  | None, None => Eq
  | None, Some _ => Lt
  | Some _, None => Gt
  | Some p, Some q => then_with (cmp p.1 q.1) (tcmp p.2 q.2)
  end.

Definition canonical_txout_cmp (self other : CanonicalTxOut P) : comparison :=
  then_with
    (then_with (cmp (cto_pos self) (cto_pos other))
       (tcmp (cto_outpoint self) (cto_outpoint other)))
    (spent_by_cmp (cto_spent_by self) (cto_spent_by other)).
End orders.

Definition CanonicalView `{Bitcoin} (A : Type) : Type := Canonical (ChainPosition A).

Section queries.
Context `{Bitcoin} {P : Type}.
Implicit Types v : Canonical P.

Definition canonical_tx v (txid : Txid) : option (CanonicalTx P) :=
  (λ p : Transaction * P, mkCanonicalTx p.2 txid p.1) <$> view_txs v !! txid.

Definition canonical_txout v (op : OutPoint) : option (option (CanonicalTxOut P)) :=
  match view_txs v !! op_txid op with
  | None => Some None
  | Some (tx, pos) =>
      match tx_output tx !! N.to_nat (op_vout op) with
      | None => Some None
      | Some txout =>
          let with_spent_by spent_by :=
            Some (Some (mkCanonicalTxOut pos op txout spent_by (is_coinbase tx))) in
          match view_spends v !! op with
          | None => with_spent_by None
          | Some spent_by_txid =>
              p ← view_txs v !! spent_by_txid; with_spent_by (Some (p.2, spent_by_txid))
          end
      end
  end.

Definition canonical_txs v : option (list (CanonicalTx P)) :=
  mapM (canonical_tx v) (view_order v).

Fixpoint filter_outpoints {I} v (outpoints : list (I * OutPoint)) :
    option (list (I * CanonicalTxOut P)) :=
  match outpoints with
  | [] => Some []
  | (op_i, op) :: rest =>
      o ← canonical_txout v op;
      l ← filter_outpoints v rest;
      Some (match o with Some txo => (op_i, txo) :: l | None => l end)
  end.

Definition filter_unspent_outpoints {I} v (outpoints : list (I * OutPoint)) :
    option (list (I * CanonicalTxOut P)) :=
  filter (λ p, cto_spent_by p.2 = None) <$> filter_outpoints v outpoints.
End queries.

Section balance.
Context `{Bitcoin} {A : Type} `{!Anchor A} (COINBASE_MATURITY : N).

(** [age + 1] wraps at 32 bits in a release build. *)
Definition is_mature (o : CanonicalTxOut (ChainPosition A)) (tip : N) : bool :=
  if cto_is_on_coinbase o then
    match pos_height_upper_bound (cto_pos o) with
    | None => false
    | Some conf_height =>
        let age := saturating_sub tip conf_height in
        negb ((age + 1) mod 4294967296 <? COINBASE_MATURITY)
    end
  else true.

Definition is_confirmed_and_spendable (o : CanonicalTxOut (ChainPosition A)) (tip : N) : bool :=
  if negb (is_mature o tip) then false
  else
    match pos_height_upper_bound (cto_pos o) with
    | None => false
    | Some conf_height =>
        if tip <? conf_height then false
        else
          match cto_spent_by o ≫= (λ p, pos_height_upper_bound p.1) with
          | Some spend_height => negb (spend_height <=? tip)
          | None => true
          end
    end.

(** The loop body of [balance]; the trust predicate is a pure function. *)
Definition balance_add_txout {I} (trust_predicate : I → CanonicalTxOut (ChainPosition A) → bool)
    (tip_height min_confirmations : N) (b : Balance)
    (p : I * CanonicalTxOut (ChainPosition A)) : option Balance :=
  let '(spk_i, txout) := p in
  let value := txout_value (cto_txout txout) in
  let pending :=
    if trust_predicate spk_i txout then
      t ← amount_add (trusted_pending b) value;
      Some (mkBalance (immature b) t (untrusted_pending b) (confirmed b))
    else
      u ← amount_add (untrusted_pending b) value;
      Some (mkBalance (immature b) (trusted_pending b) u (confirmed b)) in
  match cto_pos txout with
  | Confirmed anchor _ =>
      let confirmation_height := confirmation_height_upper_bound anchor in
      let confirmations :=
        saturating_add_u32 (saturating_sub tip_height confirmation_height) 1 in
      let min_confirmations := N.max min_confirmations 1 in
      if confirmations <? min_confirmations then pending
      else if is_confirmed_and_spendable txout tip_height then
        c ← amount_add (confirmed b) value;
        Some (mkBalance (immature b) (trusted_pending b) (untrusted_pending b) c)
      else if negb (is_mature txout tip_height) then
        i ← amount_add (immature b) value;
        Some (mkBalance i (trusted_pending b) (untrusted_pending b) (confirmed b))
      else Some b
  | Unconfirmed _ _ => pending
  end.

Fixpoint balance_loop {I} (trust_predicate : I → CanonicalTxOut (ChainPosition A) → bool)
    (tip_height min_confirmations : N) (b : Balance)
    (l : list (I * CanonicalTxOut (ChainPosition A))) : option Balance :=
  match l with
  | [] => Some b
  | p :: l =>
      b ← balance_add_txout trust_predicate tip_height min_confirmations b p;
      balance_loop trust_predicate tip_height min_confirmations b l
  end.

Definition balance {I} (v : CanonicalView A) (outpoints : list (I * OutPoint))
    (trust_predicate : I → CanonicalTxOut (ChainPosition A) → bool) (min_confirmations : N) :
    option Balance :=
  l ← filter_unspent_outpoints v outpoints;
  balance_loop trust_predicate (bid_height (view_tip v)) min_confirmations Balance_default l.
End balance.

(** ** The second phase *)

Inductive ViewStage := ResolvingPositions | ViewFinished.

Record CanonicalViewTask `{Bitcoin} (A : Type) `{Countable A} := mkViewTask {
  vt_graph : TxGraph A;
  vt_tip : BlockId;
  vt_canonical_order : list Txid;
  vt_canonical_txs : gmap Txid (Transaction * CanonicalReason A);
  vt_spends : gmap OutPoint Txid;
  unprocessed_anchor_checks : list (Txid * gset A);
  direct_anchors : gmap Txid A;
  view_stage : ViewStage;
}.
Arguments mkViewTask {_ A _ _}.
Arguments vt_graph {_ A _ _}.
Arguments vt_tip {_ A _ _}.
Arguments vt_canonical_order {_ A _ _}.
Arguments vt_canonical_txs {_ A _ _}.
Arguments vt_spends {_ A _ _}.
Arguments unprocessed_anchor_checks {_ A _ _}.
Arguments direct_anchors {_ A _ _}.
Arguments view_stage {_ A _ _}.

Section view_task.
Context `{Bitcoin} {A : Type} `{Countable A} `{!TotalOrd A, !Anchor A} `{HashOrder}.
Implicit Types (g : TxGraph A) (t : CanonicalViewTask A).

(** The loop of [new]: the transactions whose own anchors are to be checked. *)
Definition anchor_check g (txs : gmap Txid (Transaction * CanonicalReason A)) (txid : Txid) :
    option (Txid * gset A) :=
  '(_, reason) ← txs !! txid;
  match reason with
  | ByObservedIn _ _ => None
  | _ =>
      if is_transitive reason || is_assumed reason then
        anchors ← all_anchors g !! txid; Some (txid, anchors)
      else None
  end.

Definition CanonicalViewTask_new g (tip : BlockId) (order : list Txid)
    (txs : gmap Txid (Transaction * CanonicalReason A)) (spends : gmap OutPoint Txid) :
    CanonicalViewTask A := {|
  vt_graph := g;
  vt_tip := tip;
  vt_canonical_order := order;
  vt_canonical_txs := txs;
  vt_spends := spends;
  unprocessed_anchor_checks := omap (anchor_check g txs) order;
  direct_anchors := ∅;
  view_stage := ResolvingPositions;
|}.

(** [CanonicalTxs::view_task]. *)
Definition view_task (v : CanonicalTxs A) g : CanonicalViewTask A :=
  CanonicalViewTask_new g (view_tip v) (view_order v) (view_txs v) (view_spends v).

Definition vt_next_query t : option (CanonicalViewTask A * option ChainRequest) :=
  match view_stage t with
  | ResolvingPositions =>
      match unprocessed_anchor_checks t with
      | (_, anchors) :: _ => Some (t, Some (anchor_block <$> set_iter anchors))
      | [] => Some (mkViewTask (vt_graph t) (vt_tip t) (vt_canonical_order t) (vt_canonical_txs t)
                      (vt_spends t) [] (direct_anchors t) ViewFinished, None)
      end
  | ViewFinished => Some (t, None)
  end.

Definition vt_resolve_query t (response : ChainResponse) : option (CanonicalViewTask A) :=
  match view_stage t, unprocessed_anchor_checks t with
  | ResolvingPositions, (txid, anchors) :: rest =>
      Some (mkViewTask (vt_graph t) (vt_tip t) (vt_canonical_order t) (vt_canonical_txs t)
        (vt_spends t) rest
        match response ≫= find_anchor anchors with
        | Some best_anchor => <[txid := best_anchor]> (direct_anchors t)
        | None => direct_anchors t
        end (view_stage t))
  | _, _ => Some t
  end.

(** The closure of the walk in [finish]: only canonical descendants. *)
Definition only_canonical t (s : unit) (_ : N) (desc_txid : Txid) : unit * option Txid :=
  (s, if decide (is_Some (vt_canonical_txs t !! desc_txid)) then Some desc_txid else None).

(** [Iterator::find_map]. *)
Fixpoint find_map {X Y} (f : X → option Y) (l : list X) : option Y :=
  match l with
  | [] => None
  | x :: l => match f x with Some y => Some y | None => find_map f l end
  end.

(** The position of an assumed transaction without an anchor of its own. *)
Definition assumed_position t (txid : Txid) (tx_node : TxNode A) : ChainPosition A :=
  let w := desc_exclude_root (vt_graph t) txid in
  let descendants :=
    (desc_run (vt_graph t) (only_canonical t) (desc_fuel (vt_graph t) w) w tt).2 in
  default (Unconfirmed (node_first_seen tx_node) (node_last_seen tx_node))
    (find_map (λ desc_txid,
       (λ anchor, Confirmed anchor (Some desc_txid)) <$> direct_anchors t !! desc_txid)
       descendants).

Definition chain_position t (txid : Txid) (tx_node : TxNode A) (reason : CanonicalReason A) :
    ChainPosition A :=
  match reason with
  | Assumed _ =>
      match direct_anchors t !! txid with
      | Some anchor => Confirmed anchor None
      | None => assumed_position t txid tx_node
      end
  | ByAnchor anchor descendant =>
      match descendant with
      | Some _ =>
          match direct_anchors t !! txid with
          | Some anchor => Confirmed anchor None
          | None => Confirmed anchor descendant
          end
      | None => Confirmed anchor None
      end
  | ByObservedIn (InMempool last_seen) _ => Unconfirmed (node_first_seen tx_node) (Some last_seen)
  | ByObservedIn (InBlock _) _ => Unconfirmed (node_first_seen tx_node) None
  end.

(** The loop body of [finish]. *)
Definition vt_finish_one t (acc : list Txid * gmap Txid (Transaction * ChainPosition A))
    (txid : Txid) : list Txid * gmap Txid (Transaction * ChainPosition A) :=
  match vt_canonical_txs t !! txid with
  | Some (tx, reason) =>
      let view_order := acc.1 ++ [txid] in
      match get_tx_node (vt_graph t) txid with
      | None => (view_order, acc.2)
      | Some tx_node => (view_order, <[txid := (tx, chain_position t txid tx_node reason)]> acc.2)
      end
  | None => acc
  end.

Definition vt_finish t : CanonicalView A :=
  let '(order, txs) := foldl (vt_finish_one t) ([], ∅) (vt_canonical_order t) in
  mkCanonical (vt_tip t) order txs (vt_spends t).

#[export] Instance CanonicalViewTask_query : ChainQuery (CanonicalViewTask A) := {
  Output := CanonicalView A;
  tip := vt_tip;
  next_query := vt_next_query;
  resolve_query := vt_resolve_query;
  finish := vt_finish;
}.

(** [LocalChain::canonical_view], with the fuel of the two driver loops. *)
Definition canonical_view (c : LocalChain BlockHash) (fuel : nat) g (tip : BlockId)
    (params : CanonicalParams) : option (CanonicalView A) :=
  match canonicalize c fuel (canonical_task g tip params) with
  | Some canonical_txs => canonicalize c fuel (view_task canonical_txs g)
  | None => None
  end.
End view_task.
