(* ===== verification/CanonicalViewSpec.v ===== *)
(** * What the canonical view promises

    The second phase of canonicalization keeps the promises of
    [ChainQueryLaws]; both phases together give every canonical transaction a
    sound position; and the queries and the balance on a view. *)
From stdpp Require Import relations.
From S2P Require Import Prelude Block CheckPoint LocalChain ChainQuery ChainData.
From S2P Require Import Tx TxGraph TxGraphFacts TxWalk CanonicalTask CanonicalMarks CanonicalSpec.
From S2P Require Import CanonicalReasons CanonicalView.
#[local] Open Scope N_scope.

Section view_task.
Context `{Bitcoin} {A : Type} `{Countable A} `{!TotalOrd A, !Anchor A} `{HashOrder}.
Implicit Types (g : TxGraph A) (t : CanonicalViewTask A).

(** ** The second phase as a query *)

Lemma vt_next_ok t :
  ∃ t' request, vt_next_query t = Some (t', request) ∧ vt_tip t' = vt_tip t ∧
    (∀ req, request = Some req → t' = t ∧ view_stage t = ResolvingPositions ∧
       ∃ txid s rest, unprocessed_anchor_checks t = (txid, s) :: rest ∧
         req = anchor_block <$> set_iter s).
Proof.
  unfold vt_next_query. destruct (view_stage t); [|by exists t, None].
  destruct (unprocessed_anchor_checks t) as [|[txid s] rest] eqn:Hq.
  - eexists _, None. by split_and!.
  - eexists t, _. split_and!; [done|done|]. intros req [= <-]. split_and!; [done|done|].
    by exists txid, s, rest.
Qed.

#[export] Instance CanonicalViewTask_laws : ChainQueryLaws (CanonicalViewTask A).
Proof.
  refine {| query_inv _ := True; queries_left t := length (unprocessed_anchor_checks t) |}.
  intros t _. destruct (vt_next_ok t) as (t' & request & Hn & Htip & Hreq).
  exists t', request. split_and!; [done..|]. intros [req ->] response.
  destruct (Hreq req eq_refl) as (-> & Hst & txid & s & rest & Hq & _).
  eexists. simpl. unfold vt_resolve_query. rewrite Hst, Hq. split_and!; [done..|]. simpl. lia.
Defined.

(** ** What the answers establish *)

Section checks.
Context (c : LocalChain BlockHash) (t0 : CanonicalViewTask A).
Context (Hnodup : NoDup (unprocessed_anchor_checks t0).*1).
Context (Hempty : direct_anchors t0 = ∅).

(** The anchors found are anchors of the transaction in the chain, and none
    was missed among those checked. *)
Record checked t : Prop := {
  ck_graph : vt_graph t = vt_graph t0;
  ck_tip : vt_tip t = vt_tip t0;
  ck_order : vt_canonical_order t = vt_canonical_order t0;
  ck_txs : vt_canonical_txs t = vt_canonical_txs t0;
  ck_spends : vt_spends t = vt_spends t0;
  ck_pending : ∀ p, p ∈ unprocessed_anchor_checks t → p ∈ unprocessed_anchor_checks t0;
  ck_sound : ∀ x a, direct_anchors t !! x = Some a →
    is_block_in_chain c (anchor_block a) (vt_tip t0) = Some true ∧
    ∃ s, (x, s) ∈ unprocessed_anchor_checks t0 ∧ a ∈ s;
  ck_complete : ∀ p, p ∈ unprocessed_anchor_checks t0 →
    (∃ a, a ∈ p.2 ∧ is_block_in_chain c (anchor_block a) (vt_tip t0) = Some true) →
    p ∈ unprocessed_anchor_checks t ∨ is_Some (direct_anchors t !! p.1);
  ck_done : view_stage t = ViewFinished → unprocessed_anchor_checks t = [];
}.

Lemma checked_start : view_stage t0 = ResolvingPositions → checked t0.
Proof using Hempty.
  intros Hst. split; try done.
  - intros x a. by rewrite Hempty, lookup_empty.
  - intros p Hp _. by left.
  - congruence.
Qed.

Lemma checked_next t t' request :
  checked t → vt_next_query t = Some (t', request) →
  checked t' ∧ (request = None → unprocessed_anchor_checks t' = []).
Proof.
  intros [C1 C2 C3 C4 C5 C6 C7 C8 C9]. unfold vt_next_query.
  destruct (view_stage t) eqn:Hst; [|intros [= <- <-]; split; [|by auto]; by split; rewrite ?Hst].
  destruct (unprocessed_anchor_checks t) as [|[txid s] rest] eqn:Hq; intros [= <- <-].
  - split; [|done]. by split.
  - split; [|done]. by split; rewrite ?Hst, ?Hq.
Qed.

Lemma checked_answer t txid s rest t' :
  checked t → view_stage t = ResolvingPositions →
  unprocessed_anchor_checks t = (txid, s) :: rest →
  vt_resolve_query t (best_block_id c (vt_tip t0) (anchor_block <$> set_iter s)) = Some t' →
  checked t'.
Proof.
  intros [C1 C2 C3 C4 C5 C6 C7 C8 C9] Hst Hq. unfold vt_resolve_query. rewrite Hst, Hq in *.
  intros [= <-].
  assert (Hin : (txid, s) ∈ unprocessed_anchor_checks t0) by (apply C6; by left).
  split; simpl; try done.
  - intros p Hp. apply C6. by right.
  - intros x a. destruct (_ ≫= find_anchor s) as [best|] eqn:Hbest; [|apply C7].
    rewrite lookup_insert. case_decide as Hx; [|apply C7]. subst x. intros [= ->].
    destruct (best_block_id c (vt_tip t0) _) as [b|] eqn:Hb; simpl in Hbest; [|done].
    apply find_anchor_spec in Hbest as [Ha <-]. apply best_block_id_spec in Hb as [_ Hb].
    split; [done|]. by exists s.
  - intros p Hp Hch. destruct (C8 p Hp Hch) as [[->|?]%elem_of_cons|Hd]; [|by left|].
    + right. simpl. simpl in Hch. destruct Hch as (a & Ha & Hb).
      pose proof (find_anchor_in_chain c s (vt_tip t0)) as [best ->]; [by exists a|].
      by rewrite lookup_insert_eq.
    + right. destruct (_ ≫= find_anchor s) as [best|]; [|done].
      rewrite lookup_insert_is_Some. destruct (decide (txid = p.1)); auto.
Qed.

Lemma checked_driven t last :
  checked t → driven c (vt_tip t0) t last → checked last.
Proof.
  intros Ht Hd. revert Ht.
  induction Hd as [t|t t' request t'' last Hn Hr _ IH]; intros Ht; [done|]. cbn in Hn, Hr.
  destruct (checked_next t t' (Some request) Ht Hn) as [Ht' _].
  destruct (vt_next_ok t) as (t1 & req & Hn1 & _ & Hreq). rewrite Hn in Hn1.
  injection Hn1 as <- <-.
  destruct (Hreq request eq_refl) as (-> & Hst & txid & s & rest & Hq & ->).
  apply IH. by eapply checked_answer.
Qed.
End checks.

(** ** The output *)

Definition finished_view t (l : list Txid)
    (acc : list Txid * gmap Txid (Transaction * ChainPosition A)) : Prop :=
  acc.1 = l ∧
  ∀ x, acc.2 !! x =
    if decide (x ∈ l) then
      '(tx, reason) ← vt_canonical_txs t !! x;
      tx_node ← get_tx_node (vt_graph t) x;
      Some (tx, chain_position t x tx_node reason)
    else None.

Lemma vt_finish_loop t l l0 acc :
  (∀ x, x ∈ l → is_Some (vt_canonical_txs t !! x)) → finished_view t l0 acc →
  finished_view t (l0 ++ l) (foldl (vt_finish_one t) acc l).
Proof.
  revert l0 acc. induction l as [|x l IH]; intros l0 acc Hl [Ho Hts]; [by rewrite app_nil_r|].
  cbn [foldl]. rewrite (app_assoc l0 [x] l : l0 ++ x :: l = (l0 ++ [x]) ++ l).
  apply IH; [intros y Hy; apply Hl; by right|].
  destruct (Hl x ltac:(by left)) as [[tx reason] Hx]. unfold vt_finish_one. rewrite Hx.
  assert (Hsame : ∀ y, y ≠ x → y ∈ l0 ↔ y ∈ l0 ++ [x]).
  { intros y Hne. rewrite elem_of_app, list_elem_of_singleton. naive_solver. }
  destruct (get_tx_node (vt_graph t) x) as [node|] eqn:Hnode; split; simpl; try (by subst); intros y.
  - rewrite lookup_insert. destruct (decide (x = y)) as [<-|Hne].
    + rewrite decide_True by (apply elem_of_app; right; by left). rewrite Hx. simpl. by rewrite Hnode.
    + rewrite Hts. by apply decide_ext, Hsame.
  - rewrite Hts. destruct (decide (x = y)) as [<-|Hne].
    + rewrite (decide_True (P:=x ∈ l0 ++ [x])) by (apply elem_of_app; right; by left).
      rewrite Hx. simpl. rewrite Hnode. by destruct (decide _).
    + by apply decide_ext, Hsame.
Qed.

Lemma vt_finish_spec t :
  (∀ x, x ∈ vt_canonical_order t → is_Some (vt_canonical_txs t !! x)) →
  let v := vt_finish t in
  view_tip v = vt_tip t ∧ view_order v = vt_canonical_order t ∧ view_spends v = vt_spends t ∧
  ∀ x, view_txs v !! x =
    if decide (x ∈ vt_canonical_order t) then
      '(tx, reason) ← vt_canonical_txs t !! x;
      tx_node ← get_tx_node (vt_graph t) x;
      Some (tx, chain_position t x tx_node reason)
    else None.
Proof.
  intros Hl. cbv zeta. unfold vt_finish.
  destruct (vt_finish_loop t (vt_canonical_order t) [] ([], ∅) Hl) as [Ho Hts].
  { split; [done|]. intros x. cbn [snd]. rewrite lookup_empty, decide_False; [done|]. apply not_elem_of_nil. }
  by destruct (foldl _ _ _) as [o ts].
Qed.
End view_task.

(** ** Positions *)

Section positions.
Context `{Bitcoin} {A : Type} `{Countable A} `{!TotalOrd A, !Anchor A} `{HashOrder}.
Context (g : TxGraph A) (c : LocalChain BlockHash) (chain_tip : BlockId).
Context (Hwf : graph_wf g).

(** [a] is an anchor of the transaction, in a block of the chain. *)
Definition anchored_by (x : Txid) (a : A) : Prop :=
  (∃ s, anchors g !! x = Some s ∧ a ∈ s) ∧
  is_block_in_chain c (anchor_block a) chain_tip = Some true.

Lemma find_map_Some {X Y} (f : X → option Y) l y :
  find_map f l = Some y → ∃ x, x ∈ l ∧ f x = Some y.
Proof.
  induction l as [|x l IH]; simpl; [done|]. destruct (f x) as [z|] eqn:Hx.
  - intros [= <-]. exists x. split; [by left|done].
  - intros (y' & ? & ?)%IH. exists y'. split; [by right|done].
Qed.

(** The walk of an assumed position visits canonical descendants only. *)
Lemma canonical_descendants (t : CanonicalViewTask A) x d :
  let w := desc_exclude_root g x in
  d ∈ (desc_run g (only_canonical t) (desc_fuel g w) w tt).2 →
  is_Some (vt_canonical_txs t !! d) ∧ rtc (spends_from g) x d.
Proof.
  cbv zeta. set (w := desc_exclude_root g x).
  pose proof (desc_run_ind g (only_canonical t) (λ w _ acc,
    (∀ q, q ∈ queue w → rtc (spends_from g) x q.2) ∧
    (∀ i, i ∈ acc → is_Some (vt_canonical_txs t !! i) ∧ rtc (spends_from g) x i))
    (desc_fuel g w) w tt []) as Hrun.
  destruct (desc_run g _ _ w tt) as [[w' s'] items]. destruct Hrun as [_ [_ Hitems]].
  - done.
  - intros w0 s0 acc w1 s1 i [Hq Hacc]. unfold desc_turn.
    destruct (queue w0) as [|[e y] rest] eqn:Hqueue; [done|].
    destruct (decide (y ∈ visited w0)).
    { intros [= <- <- <-]. rewrite app_nil_r. split; [|done]. intros q Hin. apply Hq. by right. }
    unfold only_canonical. pose proof (Hq (e, y) ltac:(by left)) as Hy. simpl in Hy.
    destruct (decide (is_Some (vt_canonical_txs t !! y))); intros [= <- <- <-]; simpl.
    + split.
      * intros q [Hin|[_ Hin]%elem_of_spend_paths]%elem_of_app; [apply Hq; by right|].
        by eapply rtc_r.
      * intros i [?| ->%list_elem_of_singleton]%elem_of_app; [by apply Hacc|done].
    + rewrite app_nil_r. split; [|done]. intros q Hin. apply Hq. by right.
  - split; [|by intros i ?%elem_of_nil]. simpl. intros q [_ Hin]%elem_of_spend_paths.
    by apply rtc_once.
  - apply Hitems.
Qed.

(** The position a task in its last state gives to a canonical transaction
    with a sound reason. *)
Section position.
Context (t : CanonicalViewTask A) (x : Txid) (tx : Transaction).
Context (Hgraph : vt_graph t = g) (Htx : txs g !! x = Some (Whole tx)).
Context (Hcan : is_Some (vt_canonical_txs t !! x)).
Context (Hdirect : ∀ y a, direct_anchors t !! y = Some a → anchored_by y a).

Definition sound_position (pos : ChainPosition A) : Prop :=
  ∀ a d, pos = Confirmed a d → anchored_by (default x d) a ∧
    ancestor_of g (default x d) x ∧ is_Some (vt_canonical_txs t !! default x d).

Lemma sound_direct a : anchored_by x a → sound_position (Confirmed a None).
Proof using Hcan. intros Ha a' d [= <- <-]. split_and!; [done|apply rtc_refl|done]. Qed.

Lemma assumed_position_sound node : sound_position (assumed_position t x node).
Proof using All.
  intros a d. unfold assumed_position. rewrite Hgraph.
  destruct (find_map _ _) as [pos|] eqn:Hf; [|done]. simpl. intros ->.
  apply find_map_Some in Hf as (y & Hy & Hpos).
  destruct (direct_anchors t !! y) as [b|] eqn:Hb; simplify_eq/=.
  apply canonical_descendants in Hy as [Hc Hr]. split_and!; [by apply Hdirect| |done].
  by eapply descends_ancestor.
Qed.

Context (reason : CanonicalReason A).
Context (Hreason : ∀ a d, reason = ByAnchor a d →
  anchored_by (default x d) a ∧ ancestor_of g (default x d) x ∧
  is_Some (vt_canonical_txs t !! default x d)).

Lemma chain_position_sound node : sound_position (chain_position t x node reason).
Proof using All.
  unfold chain_position. destruct reason as [d|a d|[h|l] d] eqn:Hr; try done.
  - destruct (direct_anchors t !! x) as [a|] eqn:Ha; [by apply sound_direct, Hdirect|].
    apply assumed_position_sound.
  - destruct d as [d|]; [|by intros a' d' [= <- <-]; apply Hreason].
    destruct (direct_anchors t !! x) as [b|] eqn:Hb; [by apply sound_direct, Hdirect|].
    intros a' d' [= <- <-]. by apply Hreason.
Qed.

(** A transaction with its own anchor in the chain is directly confirmed. *)
Lemma chain_position_direct node :
  (∀ o d, reason ≠ ByObservedIn o d) →
  (is_transitive reason || is_assumed reason = true → is_Some (direct_anchors t !! x)) →
  ∃ a, chain_position t x node reason = Confirmed a None.
Proof.
  intros Ho Hd. unfold chain_position. destruct reason as [d|a d|o d] eqn:Hr.
  - destruct Hd as [b ->]; [by rewrite orb_true_r|]. by exists b.
  - destruct d as [d|]; [|by exists a]. destruct Hd as [b ->]; [done|]. by exists b.
  - by destruct (Ho o d).
Qed.

Lemma chain_position_first_seen node f l :
  first_seen g !! x = node_first_seen node →
  chain_position t x node reason = Unconfirmed f l → f = first_seen g !! x.
Proof.
  intros Hf. unfold chain_position, assumed_position. rewrite Hf.
  destruct reason as [d|a d|[h|m] d].
  - destruct (direct_anchors t !! x); [done|]. destruct (find_map _ _) as [pos|] eqn:Hm; simpl.
    + apply find_map_Some in Hm as (y & _ & Hy). destruct (direct_anchors t !! y); simplify_eq/=.
      done.
    + congruence.
  - destruct d; [destruct (direct_anchors t !! x)|]; done.
  - congruence.
  - congruence.
Qed.
End position.

(** ** Both phases *)

Lemma first_phase params fuel :
  (length (unprocessed_anchored_txs (canonical_task g chain_tip params)) < fuel)%nat →
  let t0 := canonical_task g chain_tip params in
  ∃ last, history c t0 last ∧ reasons_sound c t0 last ∧
    canonicalize c fuel t0 = Some (task_finish last).
Proof using Hwf.
  intros Hfuel t0. pose proof (CanonicalTask_new_ok g chain_tip params Hwf) as Hok.
  change (query_inv t0) in Hok.
  destruct (canonicalize_loop_finishes (Q:=CanonicalTask A) c fuel chain_tip t0 Hok Hfuel)
    as (last & last' & Hd & Hn & _ & _ & Hc).
  assert (Hitems : ∀ t tx s, txs (ct_graph t0) !! t = Some (Whole tx) →
    anchors (ct_graph t0) !! t = Some s → (t, tx, s) ∈ unprocessed_anchored_txs t0).
  { intros. by apply elem_of_anchored. }
  assert (Hstart : history c t0 t0) by (by apply history_start).
  assert (Hrs : reasons_sound c t0 t0).
  { split; simpl; [done..|]. intros [[y ytx] s] ([h z] & _ & Hz)%list_elem_of_omap. simpl in *.
    destruct (get_tx g z); simplify_eq/=. destruct (all_anchors g !! z) eqn:Ha; simplify_eq/=.
    exact Ha. }
  assert (Hh : history c t0 last) by (by eapply history_driven).
  destruct (history_finished c t0 last last' Hh Hn) as [Hh' _].
  exists last'. split_and!; [done| |done].
  apply (reasons_finished c t0 Hitems last last' Hh); [|exact Hn].
  by apply (reasons_driven c t0 Hitems t0).
Qed.

(** The checks of a view task: anchored members of its order. *)
Lemma elem_of_checks (v : CanonicalTxs A) x s :
  (x, s) ∈ unprocessed_anchor_checks (view_task v g) ↔
  x ∈ view_order v ∧ anchors g !! x = Some s ∧
  ∃ tx reason, view_txs v !! x = Some (tx, reason) ∧
    (∀ o d, reason ≠ ByObservedIn o d) ∧ is_transitive reason || is_assumed reason = true.
Proof.
  simpl. rewrite list_elem_of_omap. unfold anchor_check, all_anchors. split.
  - intros (y & Hy & Hs). destruct (view_txs v !! y) as [[tx reason]|] eqn:Hv; [|done]. simpl in Hs.
    destruct reason as [d|a d|o d]; [..|done];
      destruct (_ || _) eqn:Hb in Hs; try done; destruct (anchors g !! y) eqn:Ha; simplify_eq/=;
      (split_and!; [done|done|]; eexists _, _; by split_and!).
  - intros (Hx & Ha & tx & reason & Hv & Ho & Hb). exists x. split; [done|]. rewrite Hv. simpl.
    destruct reason as [d|a d|o d]; [..|by destruct (Ho o d)]; rewrite Hb, Ha; done.
Qed.

Lemma NoDup_checks (v : CanonicalTxs A) :
  NoDup (view_order v) → NoDup (unprocessed_anchor_checks (view_task v g)).*1.
Proof.
  simpl. intros Hnd. assert (Hfst : ∀ y p, anchor_check g (view_txs v) y = Some p → p.1 = y).
  { intros y p. unfold anchor_check. destruct (view_txs v !! y) as [[tx reason]|]; simpl; [|done].
    destruct reason; [..|done]; destruct (_ || _); try done;
      destruct (all_anchors g !! y); intros; by simplify_eq/=. }
  induction Hnd as [|y l Hy Hnd IH]; simpl; [constructor|].
  destruct (anchor_check g (view_txs v) y) as [p|] eqn:Hp; [|done]. rewrite fmap_cons.
  constructor; [|done]. rewrite (Hfst y p Hp).
  intros (q & -> & (z & Hz & Hq)%list_elem_of_omap)%list_elem_of_fmap.
  by rewrite (Hfst z q Hq) in Hy.
Qed.

Lemma second_phase (v : CanonicalTxs A) fuel :
  NoDup (view_order v) → (length (unprocessed_anchor_checks (view_task v g)) < fuel)%nat →
  view_tip v = chain_tip →
  ∃ t, checked c (view_task v g) t ∧ unprocessed_anchor_checks t = [] ∧
    canonicalize c fuel (view_task v g) = Some (vt_finish t).
Proof.
  intros Hnd Hfuel Htip. assert (Hok : query_inv (view_task v g)) by exact I.
  destruct (canonicalize_loop_finishes (Q:=CanonicalViewTask A) c fuel (vt_tip (view_task v g))
    (view_task v g) Hok Hfuel) as (last & last' & Hd & Hn & _ & _ & Hc).
  assert (Hs : checked c (view_task v g) (view_task v g)) by (by apply checked_start).
  pose proof (checked_driven c (view_task v g) _ _ Hs Hd) as Hl.
  cbn in Hn. destruct (checked_next c (view_task v g) last last' None Hl Hn) as [Hl' Hq].
  exists last'. split_and!; [done|by apply Hq|done].
Qed.

Lemma length_omap {X Y} (f : X → option Y) (l : list X) : (length (omap f l) ≤ length l)%nat.
Proof.
  induction l as [|x l IH]; [done|]. cbn [omap list_omap].
  destruct (f x); cbn [length]; lia.
Qed.

Lemma order_size (v : CanonicalTxs A) :
  consistent_view g v → (length (view_order v) ≤ size (txs g))%nat.
Proof.
  intros Hv. rewrite <-(size_list_to_set (C:=gset Txid) (view_order v)) by apply Hv.
  rewrite <-size_dom. apply subseteq_size. intros x Hx%elem_of_list_to_set.
  apply (cv_order _ _ Hv) in Hx as [p Hp]. apply (cv_whole _ _ Hv) in Hp.
  by eapply elem_of_dom_2.
Qed.

Lemma get_tx_node_whole x tx :
  txs g !! x = Some (Whole tx) → get_tx_node g x = Some (node_of g x tx).
Proof. intros Hx. unfold get_tx_node. by rewrite Hx. Qed.

(** The transactions of the output of the second phase. *)
Lemma second_phase_txs (v1 : CanonicalTxs A) t x :
  consistent_view g v1 → checked c (view_task v1 g) t →
  view_txs (vt_finish t) !! x =
    '(tx, reason) ← view_txs v1 !! x; Some (tx, chain_position t x (node_of g x tx) reason).
Proof.
  intros Hv [C1 _ C3 C4 _ _ _ _ _]. simpl in *.
  destruct (vt_finish_spec t) as (_ & _ & _ & ->).
  { intros y. rewrite C3, C4. apply (cv_order _ _ Hv). }
  rewrite C1, C3, C4. destruct (view_txs v1 !! x) as [[tx reason]|] eqn:Hx; simpl; [|by case_decide].
  rewrite decide_True by (apply (cv_order _ _ Hv); by eexists).
  rewrite (get_tx_node_whole x tx); [done|]. apply (cv_whole _ _ Hv _ _ Hx).
Qed.

Lemma second_phase_keys (v1 : CanonicalTxs A) t x :
  consistent_view g v1 → checked c (view_task v1 g) t →
  is_Some (view_txs (vt_finish t) !! x) ↔ is_Some (view_txs v1 !! x).
Proof.
  intros Hv Ht. rewrite (second_phase_txs v1 t x Hv Ht).
  destruct (view_txs v1 !! x) as [[tx reason]|]; simpl; [|done]. by split; eexists.
Qed.

Lemma second_phase_consistent (v1 : CanonicalTxs A) t :
  consistent_view g v1 → checked c (view_task v1 g) t → consistent_view g (vt_finish t).
Proof.
  intros Hv Ht. pose proof (second_phase_txs v1 t) as Htxs.
  pose proof (λ x, second_phase_keys v1 t x Hv Ht) as Hkeys.
  destruct (vt_finish_spec t) as (_ & Ho & Hs & _).
  { intros y. rewrite (ck_order _ _ _ Ht), (ck_txs _ _ _ Ht). apply (cv_order _ _ Hv). }
  rewrite (ck_order _ _ _ Ht) in Ho. rewrite (ck_spends _ _ _ Ht) in Hs. simpl in Ho, Hs.
  split.
  - rewrite Ho. apply Hv.
  - intros x. rewrite Ho, Hkeys. apply Hv.
  - intros x p Hp. rewrite (Htxs x Hv Ht) in Hp.
    destruct (view_txs v1 !! x) as [[tx reason]|] eqn:Hx; simplify_eq/=.
    apply (cv_whole _ _ Hv _ _ Hx).
  - intros x y Hx%Hkeys Hy%Hkeys. by apply (cv_apart _ _ Hv).
  - intros x y Hpar Hy%Hkeys. apply Hkeys. by apply (cv_parents _ _ Hv x y).
  - intros op x Hop. rewrite Hs, (cv_spends _ _ Hv op x Hop). rewrite (Htxs x Hv Ht). split.
    + intros (tx & r & -> & ? & ?). simpl. by eexists _, _.
    + intros (tx & pos & Hx & ? & ?).
      destruct (view_txs v1 !! x) as [[tx' r]|]; simplify_eq/=. by exists tx, r.
Qed.

(** Everything known of one transaction after both phases. *)
Lemma second_phase_position params (last : CanonicalTask A) t x tx pos :
  let t0 := canonical_task g chain_tip params in
  let v1 := task_finish last in
  history c t0 last → reasons_sound c t0 last →
  checked c (view_task v1 g) t → unprocessed_anchor_checks t = [] →
  view_txs (vt_finish t) !! x = Some (tx, pos) →
  (∀ a d, pos = Confirmed a d → anchored_by (default x d) a ∧ ancestor_of g (default x d) x ∧
     is_Some (view_txs (vt_finish t) !! default x d)) ∧
  ((∃ a, anchored_by x a) → ∃ a, pos = Confirmed a None) ∧
  (∀ f l, pos = Unconfirmed f l → f = first_seen g !! x).
Proof using Hwf.
  intros t0 v1 Hh Hrs Ht Hq Hx.
  assert (Hgr : ct_graph last = g) by apply (hs_graph _ _ _ Hh).
  pose proof (task_ok_consistent last (hs_ok _ _ _ Hh)) as Hv. rewrite Hgr in Hv. fold v1 in Hv.
  destruct (task_finish_spec last (hs_ok _ _ _ Hh)) as (Hvtip & Hvord & Hvtxs & _).
  fold v1 in Hvtip, Hvord, Hvtxs. rewrite (hs_tip _ _ _ Hh) in Hvtip. cbn in Hvtip.
  rewrite (second_phase_txs v1 t x Hv Ht) in Hx.
  destruct (view_txs v1 !! x) as [[tx' reason]|] eqn:Hx1; simplify_eq/=.
  assert (Htx : txs g !! x = Some (Whole tx)) by apply (cv_whole _ _ Hv _ _ Hx1).
  assert (Hcan : is_Some (vt_canonical_txs t !! x)).
  { rewrite (ck_txs _ _ _ Ht). simpl. by rewrite Hx1. }
  assert (Hdirect : ∀ y a, direct_anchors t !! y = Some a → anchored_by y a).
  { intros y a Ha. destruct (ck_sound _ _ _ Ht y a Ha) as [Hc (s & Hs & Hin)].
    apply elem_of_checks in Hs as (_ & Hs & _). simpl in Hc. rewrite Hvtip in Hc.
    split; [by exists s|done]. }
  pose proof (rs_reasons _ _ _ Hrs x (tx, reason)) as Hr. rewrite <-Hvtxs in Hr.
  specialize (Hr Hx1). simpl in Hr.
  assert (Hreason : ∀ a d, reason = ByAnchor a d → anchored_by (default x d) a ∧
    ancestor_of g (default x d) x ∧ is_Some (vt_canonical_txs t !! default x d)).
  { intros a d ->. simpl in Hr. split; [exact Hr|]. rewrite (ck_txs _ _ _ Ht). simpl.
    destruct d as [d|]; [|split; [apply rtc_refl|exists (tx, ByAnchor a None); exact Hx1]].
    pose proof (rs_descendants _ _ _ Hrs x (tx, ByAnchor a (Some d)) d) as Hd.
    rewrite <-Hvtxs in Hd. destruct (Hd Hx1 eq_refl) as (? & ? & _). by split. }
  split_and!.
  - intros a d Hpos. destruct (chain_position_sound t x tx (ck_graph _ _ _ Ht) Htx Hcan Hdirect
      reason Hreason (node_of g x tx) a d Hpos) as (? & ? & Hc). split_and!; [done|done|].
    apply (second_phase_keys v1 t _ Hv Ht). rewrite (ck_txs _ _ _ Ht) in Hc. done.
  - intros [a [(s & Hs & Ha) Hin]].
    assert (Hanch : anchored_in_chain c t0 x) by (exists s; split; [done|]; by exists a).
    assert (Hno : ∀ o d, reason ≠ ByObservedIn o d).
    { intros o d ->. by destruct Hr as [_ Hn]. }
    apply (chain_position_direct t x reason); [done..|]. intros Hb.
    destruct (ck_complete _ _ _ Ht (x, s)) as [Hp|?]; [| |rewrite Hq in Hp; by apply elem_of_nil in Hp|done].
    + apply elem_of_checks. split_and!; [apply (cv_order _ _ Hv); by eexists|done|].
      by exists tx, reason.
    + exists a. simpl. by rewrite Hvtip.
  - intros f l Hpos. by eapply (chain_position_first_seen t x reason Hreason (node_of g x tx)).
Qed.

(** C3. Both phases together terminate and give a consistent view in which
    every position is right: a confirmed transaction has an anchor in the
    chain, its own or that of the canonical descendant named; a transaction
    with an anchor of its own in the chain is directly confirmed; and an
    unconfirmed one carries its own first-seen time. *)
Theorem canonical_view_positions params fuel :
  (length (unprocessed_anchored_txs (canonical_task g chain_tip params)) < fuel)%nat →
  (size (txs g) < fuel)%nat →
  ∃ v, canonical_view c fuel g chain_tip params = Some v ∧
    view_tip v = chain_tip ∧ consistent_view g v ∧
    ∀ x tx pos, view_txs v !! x = Some (tx, pos) →
      (∀ a d, pos = Confirmed a d → anchored_by (default x d) a ∧
         ancestor_of g (default x d) x ∧ is_Some (view_txs v !! default x d)) ∧
      ((∃ a, anchored_by x a) → ∃ a, pos = Confirmed a None) ∧
      (∀ f l, pos = Unconfirmed f l → f = first_seen g !! x).
Proof using Hwf.
  intros Hfuel Hsize. destruct (first_phase params fuel Hfuel) as (last & Hh & Hrs & Hc).
  pose proof (task_ok_consistent last (hs_ok _ _ _ Hh)) as Hv. rewrite (hs_graph _ _ _ Hh) in Hv.
  change (ct_graph (canonical_task g chain_tip params)) with g in Hv.
  destruct (task_finish_spec last (hs_ok _ _ _ Hh)) as (Hvtip & _).
  rewrite (hs_tip _ _ _ Hh) in Hvtip. cbn in Hvtip.
  destruct (second_phase (task_finish last) fuel) as (t & Ht & Hq & Hc2); [apply Hv| |done|].
  { eapply Nat.le_lt_trans; [|exact Hsize]. etrans; [apply length_omap|]. by apply order_size. }
  exists (vt_finish t). split_and!.
  - unfold canonical_view. cbn in Hc. by rewrite Hc.
  - destruct (vt_finish_spec t) as (-> & _).
    + intros y. rewrite (ck_order _ _ _ Ht), (ck_txs _ _ _ Ht). apply (cv_order _ _ Hv).
    + rewrite (ck_tip _ _ _ Ht). done.
  - by apply (second_phase_consistent (task_finish last)).
  - intros x tx pos. by apply (second_phase_position params last).
Qed.
End positions.

(** ** On a concrete graph *)

From S2P Require Import Samples TxSamples TxGraphSpec.

Lemma canonical_view_positions_witness :
  ∃ v, canonical_view sample_local_chain 7 sample_graph (mkBlockId 2 102) (mkCanonicalParams [])
      = Some v ∧ view_tip v = mkBlockId 2 102 ∧ consistent_view sample_graph v ∧
    ∀ x tx pos, view_txs v !! x = Some (tx, pos) →
      (∀ a d, pos = Confirmed a d →
         anchored_by sample_graph sample_local_chain (mkBlockId 2 102) (default x d) a ∧
         ancestor_of sample_graph (default x d) x ∧ is_Some (view_txs v !! default x d)) ∧
      ((∃ a, anchored_by sample_graph sample_local_chain (mkBlockId 2 102) x a) →
         ∃ a, pos = Confirmed a None) ∧
      (∀ f l, pos = Unconfirmed f l → f = first_seen sample_graph !! x).
Proof.
  apply (canonical_view_positions sample_graph sample_local_chain (mkBlockId 2 102)
    sample_graph_wf (mkCanonicalParams []) 7); apply Nat.ltb_lt; vm_compute; reflexivity.
Defined.

Definition position_of (v : option (CanonicalView ConfirmationBlockTime)) (tx : SampleTx) :
    option (ChainPosition ConfirmationBlockTime) :=
  snd <$> (v ≫= λ v, view_txs v !! sample_txid tx).

Lemma sample_positions :
  position_of (canonical_view sample_local_chain 7 sample_graph (mkBlockId 2 102)
    (mkCanonicalParams [])) <$> [tx_coinbase; tx_pay; tx_left; tx_right; tx_child] =
  [Some (Confirmed (anchor_at 1) None); Some (Confirmed (anchor_at 2) None); None;
   Some (Unconfirmed (Some 20) (Some 21)); Some (Unconfirmed (Some 21) (Some 21))].
Proof. vm_compute. reflexivity. Qed.

(** A payment that is assumed canonical, and a transaction spending it that
    is anchored in the chain. *)
Definition assumed_parent_graph : TxGraph ConfirmationBlockTime :=
  graph_of_update (mkTxUpdate [tx_pay; tx_right] ∅ {[(anchor_at 2, sample_txid tx_right)]} ∅ ∅).

(** The parent is given as unconfirmed although its child is confirmed: only
    the anchors of transactions that are themselves assumed or transitive are
    looked up, so [finish] does not find that of the child. *)
Lemma assumed_parent_of_confirmed_child_is_unconfirmed :
  let v := canonical_view sample_local_chain 7 assumed_parent_graph (mkBlockId 2 102)
             (mkCanonicalParams [sample_txid tx_pay]) in
  position_of v tx_right = Some (Confirmed (anchor_at 2) None) ∧
  position_of v tx_pay = Some (Unconfirmed None None).
Proof. split; vm_compute; reflexivity. Qed.

(** Without the assumption the parent is transitively confirmed. *)
Lemma parent_of_confirmed_child_is_confirmed :
  position_of (canonical_view sample_local_chain 7 assumed_parent_graph (mkBlockId 2 102)
    (mkCanonicalParams [])) tx_pay = Some (Confirmed (anchor_at 2) (Some (sample_txid tx_right))).
Proof. vm_compute. reflexivity. Qed.
