(* ===== verification/CanonicalBalance.v ===== *)
(** * Unspent outputs and the balance

    The queries of [crates/chain/src/canonical.rs] on a consistent view: what
    is unspent, and how the balance divides it. *)
From S2P Require Import Prelude Block CheckPoint LocalChain ChainQuery ChainData.
From S2P Require Import Tx TxGraph TxGraphFacts TxWalk CanonicalTask CanonicalMarks CanonicalSpec.
From S2P Require Import CanonicalView.
#[local] Open Scope N_scope.

Section unspent.
Context `{Bitcoin} {A : Type} `{Countable A} `{!TotalOrd A, !Anchor A} `{HashOrder} {P : Type}.
Context (g : TxGraph A) (v : Canonical P) (Hv : consistent_view g v).

(** An output of a canonical transaction. *)
Definition canonical_output (op : OutPoint) (o : CanonicalTxOut P) : Prop :=
  cto_outpoint o = op ∧
  ∃ tx, view_txs v !! op_txid op = Some (tx, cto_pos o) ∧
    tx_output tx !! N.to_nat (op_vout op) = Some (cto_txout o) ∧
    cto_is_on_coinbase o = is_coinbase tx.

(** The output is spent by the canonical transaction [t]. *)
Definition spent_by (op : OutPoint) (t : Txid) (pos : P) : Prop :=
  ∃ tx, view_txs v !! t = Some (tx, pos) ∧ is_coinbase tx = false ∧ op ∈ tx_prevouts tx.

Lemma canonical_txout_spec op :
  outpoint_is_null op = false →
  ∃ r, canonical_txout v op = Some r ∧
    (∀ o, r = Some o ↔ canonical_output op o ∧
       match cto_spent_by o with
       | Some (pos, t) => spent_by op t pos
       | None => ∀ t pos, ¬ spent_by op t pos
       end).
Proof using Hv.
  intros Hnull. unfold canonical_txout.
  destruct (view_txs v !! op_txid op) as [[tx pos]|] eqn:Htx; cycle 1.
  { exists None. split; [done|]. intros o. split; [done|].
    intros [(_ & tx & Htx' & _) _]. congruence. }
  destruct (tx_output tx !! N.to_nat (op_vout op)) as [txout|] eqn:Hout; cycle 1.
  { exists None. split; [done|]. intros o. split; [done|].
    intros [(_ & tx' & Htx' & Hout' & _) _]. congruence. }
  assert (Hcase : ∀ s, (∀ o, Some (mkCanonicalTxOut pos op txout s (is_coinbase tx)) = Some o ↔
    canonical_output op o ∧ cto_spent_by o = s)).
  { intros s o. split.
    - intros [= <-]. split; [|done]. split; [done|]. by exists tx.
    - intros [(Ho & tx' & Htx' & Hout' & Hcb) <-]. destruct o; simpl in *. congruence. }
  pose proof (cv_spends _ _ Hv op) as Hspends.
  destruct (view_spends v !! op) as [t|] eqn:Hs; cycle 1.
  { eexists. split; [done|]. intros o. rewrite Hcase. split.
    - intros [? ->]. split; [done|]. intros t p (tx' & Ht & ? & ?).
      enough (None = Some t) by done. apply Hspends; [done|]. by exists tx', p.
    - intros [? Hno]. split; [done|]. destruct (cto_spent_by o) as [[p t]|]; [|done].
      destruct Hno as (tx' & Ht & ? & ?). enough (None = Some t) by done.
      apply Hspends; [done|]. by exists tx', p. }
  destruct (proj1 (Hspends t Hnull) eq_refl) as (ttx & tpos & Ht & Hcb & Hin).
  rewrite Ht. simpl. eexists. split; [done|]. intros o. rewrite Hcase. split.
  - intros [? ->]. split; [done|]. by exists ttx.
  - intros [? Hsp]. split; [done|]. destruct (cto_spent_by o) as [[p u]|].
    + destruct Hsp as (utx & Hu & Hcbu & Hinu).
      assert (Some t = Some u) as [= <-] by (apply Hspends; [done|by exists utx, p]). congruence.
    + destruct (Hsp t tpos). by exists ttx.
Qed.

Lemma filter_outpoints_spec {I} (outs : list (I * OutPoint)) :
  (∀ p, p ∈ outs → outpoint_is_null p.2 = false) →
  ∃ l, filter_outpoints v outs = Some l ∧
    sublist ((λ p, (p.1, cto_outpoint p.2)) <$> l) outs ∧
    ∀ i o, (i, o) ∈ l ↔ ∃ op, (i, op) ∈ outs ∧ canonical_txout v op = Some (Some o).
Proof using Hv.
  induction outs as [|[i op] outs IH]; intros Hnull.
  { exists []. split_and!; [done|constructor|]. intros i o. rewrite elem_of_nil. split; [done|].
    by intros (op & ?%elem_of_nil & _). }
  destruct IH as (l & Hl & Hsub & Hin); [intros p Hp; apply Hnull; by right|].
  destruct (canonical_txout_spec op) as (r & Hr & Hspec); [apply (Hnull (i, op)); by left|].
  simpl. rewrite Hr. simpl. rewrite Hl. simpl. destruct r as [o|]; eexists; (split; [done|]).
  - destruct (proj1 (Hspec o) eq_refl) as [[Ho _] _]. rewrite fmap_cons. simpl. rewrite Ho.
    split; [by constructor|]. intros j o'. rewrite elem_of_cons, Hin. split.
    + intros [[= -> ->]|(op' & ? & ?)]; [exists op; split; [by left|done]|].
      exists op'. split; [by right|done].
    + intros (op' & [[= -> ->]|?]%elem_of_cons & Ho'); [left; congruence|right]. by exists op'.
  - split; [by constructor|]. intros j o'. rewrite Hin. split.
    + intros (op' & ? & ?). exists op'. split; [by right|done].
    + intros (op' & [[= -> ->]|?]%elem_of_cons & Ho'); [congruence|]. by exists op'.
Qed.

(** C31. On a consistent view, listing the unspent outputs never panics, keeps
    the order of the outpoints given, and returns exactly those of canonical
    transactions that no canonical transaction spends, with their position
    and value. *)
Theorem filter_unspent_correct {I} (outs : list (I * OutPoint)) :
  (∀ p, p ∈ outs → outpoint_is_null p.2 = false) →
  ∃ l, filter_unspent_outpoints v outs = Some l ∧
    sublist ((λ p, (p.1, cto_outpoint p.2)) <$> l) outs ∧
    ∀ i o, (i, o) ∈ l ↔ cto_spent_by o = None ∧
      ∃ op, (i, op) ∈ outs ∧ canonical_output op o ∧ ∀ t pos, ¬ spent_by op t pos.
Proof using Hv.
  intros Hnull. destruct (filter_outpoints_spec outs Hnull) as (l & Hl & Hsub & Hin).
  unfold filter_unspent_outpoints. rewrite Hl. simpl. eexists. split; [done|]. split.
  - etrans; [|exact Hsub]. apply fmap_sublist, sublist_filter.
  - intros i o. rewrite list_elem_of_filter, Hin. simpl. split.
    + intros [Hs (op & Hop & Ho)]. split; [done|]. exists op. split; [done|].
      destruct (canonical_txout_spec op) as (r & Hr & Hspec); [by apply (Hnull (i, op))|].
      rewrite Ho in Hr. injection Hr as <-. destruct (proj1 (Hspec o) eq_refl) as [? Hsp].
      by rewrite Hs in Hsp.
    + intros [Hs (op & Hop & Ho & Hno)]. split; [done|]. exists op. split; [done|].
      destruct (canonical_txout_spec op) as (r & -> & Hspec); [by apply (Hnull (i, op))|].
      f_equal. apply Hspec. by rewrite Hs.
Qed.
End unspent.

Section balance.
Context `{Bitcoin} {A : Type} `{!Anchor A} (COINBASE_MATURITY : N).
Context {I : Type} (trust : I → CanonicalTxOut (ChainPosition A) → bool).
Context (tip_height min_confirmations : N).
Implicit Types o : CanonicalTxOut (ChainPosition A).

(** The number of confirmations; 0 when unconfirmed. *)
Definition confirmations o : N :=
  match cto_pos o with
  | Confirmed anchor _ => tip_height - confirmation_height_upper_bound anchor + 1
  | Unconfirmed _ _ => 0
  end.

Definition settled o : bool := N.max min_confirmations 1 <=? confirmations o.
Definition mature o : bool :=
  negb (cto_is_on_coinbase o) || (COINBASE_MATURITY <=? confirmations o).

Definition value_of (l : list (I * CanonicalTxOut (ChainPosition A))) : N :=
  foldr (λ p s, txout_value (cto_txout p.2) + s) 0 l.

Definition part (f : I * CanonicalTxOut (ChainPosition A) → bool) l : N :=
  value_of (filter (λ p, f p = true) l).

Definition confirmed_part := part (λ p, settled p.2 && mature p.2).
Definition immature_part := part (λ p, settled p.2 && negb (mature p.2)).
Definition trusted_part := part (λ p, negb (settled p.2) && trust p.1 p.2).
Definition untrusted_part := part (λ p, negb (settled p.2) && negb (trust p.1 p.2)).

Lemma part_cons f p l :
  part f (p :: l) = (if f p then txout_value (cto_txout p.2) else 0) + part f l.
Proof. unfold part. rewrite filter_cons. by destruct (f p). Qed.

Lemma parts_add_up l :
  confirmed_part l + trusted_part l + untrusted_part l + immature_part l = value_of l.
Proof.
  unfold confirmed_part, trusted_part, untrusted_part, immature_part.
  induction l as [|p l IH]; [done|]. rewrite !part_cons. cbn [value_of foldr].
  fold (value_of l). rewrite <-IH. destruct (settled p.2), (mature p.2), (trust p.1 p.2); simpl; lia.
Qed.

(** The output is not confirmed above the tip. *)
Definition below_tip o : Prop :=
  ∀ anchor d, cto_pos o = Confirmed anchor d → confirmation_height_upper_bound anchor ≤ tip_height.

Lemma amount_add_fits a b : a + b ≤ U64_MAX → amount_add a b = Some (a + b).
Proof. intros Hle. unfold amount_add. by rewrite (proj2 (N.leb_le _ _) Hle). Qed.

Lemma is_mature_spec o :
  tip_height < U32_MAX → (∃ a d, cto_pos o = Confirmed a d) →
  is_mature COINBASE_MATURITY o tip_height = mature o.
Proof.
  intros Htip (a & d & Hpos). unfold is_mature, mature, confirmations, saturating_sub. rewrite Hpos.
  simpl. destruct (cto_is_on_coinbase o); [|done]. simpl. unfold U32_MAX in Htip.
  rewrite N.mod_small by lia. by rewrite N.leb_antisym.
Qed.

Lemma spendable_spec o :
  tip_height < U32_MAX → below_tip o → cto_spent_by o = None → (∃ a d, cto_pos o = Confirmed a d) →
  is_confirmed_and_spendable COINBASE_MATURITY o tip_height = mature o.
Proof.
  intros Htip Hbelow Hs Hpos. unfold is_confirmed_and_spendable.
  rewrite is_mature_spec, Hs by done. destruct Hpos as (a & d & Hpos). rewrite Hpos. simpl.
  rewrite (proj2 (N.ltb_ge tip_height _)) by (by eapply Hbelow). by destruct (mature o).
Qed.

Definition Balance_sum (b : Balance) : N :=
  immature b + trusted_pending b + untrusted_pending b + confirmed b.

Lemma add_txout_spec b i o :
  tip_height < U32_MAX → below_tip o → cto_spent_by o = None →
  Balance_sum b + txout_value (cto_txout o) ≤ U64_MAX →
  balance_add_txout COINBASE_MATURITY trust tip_height min_confirmations b (i, o) =
    Some (mkBalance (immature b + immature_part [(i, o)]) (trusted_pending b + trusted_part [(i, o)])
           (untrusted_pending b + untrusted_part [(i, o)]) (confirmed b + confirmed_part [(i, o)])).
Proof.
  intros Htip Hbelow Hs Hfits. unfold Balance_sum in Hfits.
  unfold immature_part, trusted_part, untrusted_part, confirmed_part. rewrite !part_cons.
  unfold part at 1 2 3 4. cbn [filter list_filter value_of foldr fst snd].
  assert (Hset : settled o = match cto_pos o with
    | Confirmed anchor _ => negb (saturating_add_u32 (saturating_sub tip_height
        (confirmation_height_upper_bound anchor)) 1 <? N.max min_confirmations 1)
    | Unconfirmed _ _ => false end).
  { unfold settled, confirmations, saturating_add_u32, saturating_sub.
    destruct (cto_pos o) as [a d|f l]; [|by destruct (N.leb_spec (N.max min_confirmations 1) 0); lia].
    rewrite N.min_l by lia. by rewrite N.leb_antisym. }
  unfold balance_add_txout. rewrite Hset. destruct (cto_pos o) as [a d|f l] eqn:Hpos.
  - destruct (_ <? _); simpl.
    + destruct (trust i o); simpl; rewrite amount_add_fits by lia; simpl; do 2 f_equal; lia.
    + rewrite spendable_spec, is_mature_spec by (try done; by exists a, d).
      destruct (mature o); simpl; rewrite amount_add_fits by lia; simpl; do 2 f_equal; lia.
  - destruct (trust i o); simpl; rewrite amount_add_fits by lia; simpl; do 2 f_equal; lia.
Qed.

Lemma balance_loop_spec l b :
  tip_height < U32_MAX → (∀ p, p ∈ l → below_tip p.2 ∧ cto_spent_by p.2 = None) →
  Balance_sum b + value_of l ≤ U64_MAX →
  balance_loop COINBASE_MATURITY trust tip_height min_confirmations b l =
    Some (mkBalance (immature b + immature_part l) (trusted_pending b + trusted_part l)
           (untrusted_pending b + untrusted_part l) (confirmed b + confirmed_part l)).
Proof.
  intros Htip. revert b. induction l as [|[i o] l IH]; intros b Hl Hfits.
  { simpl. rewrite !N.add_0_r. by destruct b. }
  destruct (Hl (i, o) ltac:(by left)) as [Hb Hs]. simpl in Hb, Hs.
  cbn [value_of foldr] in Hfits. fold (value_of l) in Hfits. cbn [snd] in Hfits.
  pose proof (parts_add_up [(i, o)]) as Hone. cbn [value_of foldr snd] in Hone.
  cbn [balance_loop]. rewrite add_txout_spec by (try done; lia). simpl.
  rewrite IH; [|intros p Hp; apply Hl; by right|unfold Balance_sum in *; simpl; lia]. simpl.
  assert (Hsplit : ∀ f, part f ((i, o) :: l) = part f [(i, o)] + part f l).
  { intros f. rewrite !part_cons. unfold part at 2. simpl. lia. }
  unfold immature_part, trusted_part, untrusted_part, confirmed_part.
  rewrite !(Hsplit). by rewrite !N.add_assoc.
Qed.

(** C32. The balance divides the unspent outputs by category and loses
    nothing: within the 64-bit range, and with no confirmation above the tip,
    an output counts as confirmed or immature when it has the required
    confirmations, by coinbase maturity, and otherwise as trusted or untrusted
    pending, and the total is the value of all of them. *)
Theorem balance_correct (v : CanonicalView A) outs l :
  filter_unspent_outpoints v outs = Some l →
  bid_height (view_tip v) = tip_height → tip_height < U32_MAX →
  (∀ p, p ∈ l → below_tip p.2) → value_of l ≤ U64_MAX →
  ∃ b, balance COINBASE_MATURITY v outs trust min_confirmations = Some b ∧
    b = mkBalance (immature_part l) (trusted_part l) (untrusted_part l) (confirmed_part l) ∧
    balance_total b = Some (value_of l).
Proof.
  intros Hl Htip Hmax Hbelow Hfits. unfold balance. rewrite Hl, Htip. simpl.
  assert (Hunspent : ∀ p, p ∈ l → cto_spent_by p.2 = None).
  { unfold filter_unspent_outpoints in Hl. destruct (filter_outpoints v outs); simplify_eq/=.
    by intros p [? _]%list_elem_of_filter. }
  rewrite balance_loop_spec; [|done|auto|done]. simpl. eexists. split_and!; [done|done|].
  pose proof (parts_add_up l). unfold balance_total. simpl.
  rewrite amount_add_fits by lia. simpl. rewrite amount_add_fits by lia. simpl.
  rewrite amount_add_fits by lia. f_equal. lia.
Qed.
End balance.

(** ** On a concrete view *)

From S2P Require Import Samples TxSamples TxGraphSpec.

Lemma filter_unspent_correct_witness :
  ∃ v l, canonicalize sample_local_chain 3 sample_task = Some v ∧
    filter_unspent_outpoints v
      [(0, mkOutPoint (sample_txid tx_pay) 0); (1, mkOutPoint (sample_txid tx_pay) 1)] = Some l ∧
    ∀ i o, (i, o) ∈ l → cto_spent_by o = None.
Proof.
  destruct (canonicalize_run sample_graph sample_local_chain (mkBlockId 2 102)
    (mkCanonicalParams []) 3 sample_graph_wf) as (last & Hh & _ & Hc).
  { apply Nat.ltb_lt. vm_compute. reflexivity. }
  pose proof (task_ok_consistent last (hs_ok _ _ _ Hh)) as Hv. rewrite (hs_graph _ _ _ Hh) in Hv.
  destruct (filter_unspent_correct sample_graph (task_finish last) Hv
    [(0, mkOutPoint (sample_txid tx_pay) 0); (1, mkOutPoint (sample_txid tx_pay) 1)])
    as (l & Hl & _ & Hin).
  { intros p Hp. apply elem_of_cons in Hp as [->|Hp]; [vm_compute; reflexivity|].
    apply elem_of_cons in Hp as [->|Hp]; [vm_compute; reflexivity|].
    destruct (not_elem_of_nil p Hp). }
  exists (task_finish last), l. split; [exact Hc|]. split; [exact Hl|].
  intros i o Hio. exact (proj1 (proj1 (Hin i o) Hio)).
Defined.

(** A mature coinbase at height 1, a payment at the tip, a payment seen. *)
Definition balance_view : CanonicalView ConfirmationBlockTime :=
  mkCanonical (mkBlockId 150 250)
    [sample_txid tx_coinbase; sample_txid tx_left; sample_txid tx_child]
    (list_to_map
       [(sample_txid tx_coinbase, (tx_coinbase, Confirmed (anchor_at 1) None));
        (sample_txid tx_left, (tx_left, Confirmed (anchor_at 150) None));
        (sample_txid tx_child, (tx_child, Unconfirmed (Some 7) (Some 9)))]) ∅.

Definition balance_outs : list (bool * OutPoint) :=
  [(true, mkOutPoint (sample_txid tx_coinbase) 0); (true, mkOutPoint (sample_txid tx_left) 0);
   (false, mkOutPoint (sample_txid tx_child) 0)].

Lemma balance_correct_witness :
  ∃ b, balance 100 balance_view balance_outs (λ trusted _, trusted) 6 = Some b ∧
    b = mkBalance 0 19 17 50 ∧ balance_total b = Some 86.
Proof.
  set (l := default [] (filter_unspent_outpoints balance_view balance_outs)). vm_compute in l.
  destruct (balance_correct 100 (λ trusted _, trusted) 150 6 balance_view balance_outs l)
    as (b & Hb & -> & Ht).
  - vm_compute. reflexivity.
  - reflexivity.
  - done.
  - intros p Hp a d Hpos. revert Hpos. unfold l in Hp.
    apply elem_of_cons in Hp as [->|Hp]; [by intros [= <- _]|].
    apply elem_of_cons in Hp as [->|Hp]; [by intros [= <- _]|].
    apply elem_of_cons in Hp as [->|Hp]; [done|by apply elem_of_nil in Hp].
  - done.
  - eexists. split; [exact Hb|]. split; [reflexivity|exact Ht].
Defined.
