(* ===== verification/SpkIndex.v ===== *)
(** * The script pubkey index

    Models [crates/chain/src/indexer/spk_txout.rs], the [Indexer] trait of
    [crates/chain/src/indexer.rs] and [crates/chain/src/litecoin_scripts.rs].
    Scripts are a type of the [bitcoin] crate: the class [Scripts].  [None] is
    a panic: a range whose start lies beyond its end, a sum of amounts that
    overflows, an input or output number above 32 bits. *)
From S2P Require Import Prelude Block Tx TxGraph ChainData.
#[local] Open Scope N_scope.

(** ** Scripts *)

Class Scripts `{Bitcoin} := {
  Script : Type;
  Script_eq_dec :: EqDecision Script;
  Script_countable :: Countable Script;
  Script_ord :: TotalOrd Script;
  script_pubkey : TxOut → Script;
  (** [Script::witness_version], a number up to 16. *)
  witness_version : Script → option N;
  (** [WitnessProgram::new] and [ScriptBuf::new_witness_program]. *)
  new_witness_program : N → list N → option Script;
}.

(** What the crate documents of witness programs: 2 to 40 bytes are accepted
    with a version up to 16 (20 or 32 for version 0), and the version is read
    back. *)
Class ScriptsLaws `{Scripts} : Prop := {
  new_witness_program_Some : ∀ v p, 0 < v ≤ 16 → (2 ≤ length p ≤ 40)%nat →
    is_Some (new_witness_program v p);
  new_witness_program_version : ∀ v p s, new_witness_program v p = Some s →
    witness_version s = Some v;
}.

Definition is_mweb_bridge_output `{Scripts} (script : Script) : bool :=
  match witness_version script with
  | Some version => (version =? 8) || (version =? 9)
  | None => false
  end.

(** The [expect] is the [None] of the program. *)
Definition mweb_pegin_script_pubkey `{Scripts} (kernel_id : list N) : option Script :=
  new_witness_program 9 kernel_id.

Lemma mweb_pegin_is_bridge `{ScriptsLaws} kernel_id :
  length kernel_id = 32%nat →
  ∃ s, mweb_pegin_script_pubkey kernel_id = Some s ∧ is_mweb_bridge_output s = true.
Proof.
  intros Hlen. unfold mweb_pegin_script_pubkey, is_mweb_bridge_output.
  destruct (new_witness_program_Some 9 kernel_id) as [s Hs]; [lia..|].
  exists s. by rewrite (new_witness_program_version _ _ _ Hs).
Qed.

(** ** Ranges of keys *)

(** [core::ops::Bound]. *)
Inductive KeyBound (K : Type) := KIncluded (k : K) | KExcluded (k : K) | KUnbounded.
Arguments KIncluded {K} k.
Arguments KExcluded {K} k.
Arguments KUnbounded {K}.

Record KeyRange (K : Type) := mkKeyRange { start_bound : KeyBound K; end_bound : KeyBound K }.
Arguments mkKeyRange {K}.
Arguments start_bound {K}.
Arguments end_bound {K}.

Section ranges.
Context {K : Type} `{Countable K} `{!TotalOrd K}.

Definition after_start (b : KeyBound K) (k : K) : bool :=
  match b with
  | KIncluded s => bool_decide (tle s k)
  | KExcluded s => bool_decide (tlt s k)
  | KUnbounded => true
  end.
Definition before_end (b : KeyBound K) (k : K) : bool :=
  match b with
  | KIncluded e => bool_decide (tle k e)
  | KExcluded e => bool_decide (tlt k e)
  | KUnbounded => true
  end.
(** [RangeBounds::contains]. *)
Definition range_contains (r : KeyRange K) (k : K) : bool :=
  after_start (start_bound r) k && before_end (end_bound r) k.

(** [BTreeSet::range] panics when the range starts beyond its end, or starts
    where it ends with both ends excluded. *)
Definition range_valid (r : KeyRange K) : bool :=
  match start_bound r, end_bound r with
  | KExcluded s, KExcluded e => bool_decide (tlt s e)
  | KIncluded s, KIncluded e | KIncluded s, KExcluded e | KExcluded s, KIncluded e =>
    bool_decide (tle s e)
  | _, _ => true
  end.
Definition set_range (r : KeyRange K) (s : gset K) : option (list K) :=
  if range_valid r then Some (filter (λ k, range_contains r k = true) (set_iter s)) else None.

(** [index..=index]. *)
Definition singleton_range (k : K) : KeyRange K := mkKeyRange (KIncluded k) (KIncluded k).
Definition full_range : KeyRange K := mkKeyRange KUnbounded KUnbounded.
End ranges.

(** ** Outpoints at their width *)

Definition as_u32 (n : N) : N := n mod 4294967296.
Definition u32_try_from (n : N) : option N := if n <=? U32_MAX then Some n else None.

(** [Txid::from_byte_array([0xff; 32])], ids being read as 256-bit numbers in
    the order of their bytes. *)
Definition TXID_MAX : N := 2 ^ 256 - 1.

Definition min_op : OutPoint := mkOutPoint 0 0.
Definition max_op : OutPoint := mkOutPoint TXID_MAX U32_MAX.

(** ** The index *)

Record SpkTxOutIndex `{Scripts} (I : Type) `{Countable I} := mkSpkTxOutIndex {
  spks : gmap I Script;
  spk_indices : gmap Script I;
  unused : gset I;
  txouts : gmap OutPoint (I * TxOut);
  spk_txouts : gset (I * OutPoint);
}.
Arguments mkSpkTxOutIndex {_ _ I _ _}.
Arguments spks {_ _ I _ _}.
Arguments spk_indices {_ _ I _ _}.
Arguments unused {_ _ I _ _}.
Arguments txouts {_ _ I _ _}.
Arguments spk_txouts {_ _ I _ _}.

Record SpentTxOut `{Bitcoin} (I : Type) := mkSpentTxOut {
  spent_txout : TxOut;
  spending_input : TxIn;
  spending_input_index : N;
  spent_spk_index : I;
}.
Arguments mkSpentTxOut {_ I}.
Arguments spent_txout {_ I}.
Arguments spending_input {_ I}.
Arguments spending_input_index {_ I}.
Arguments spent_spk_index {_ I}.

Definition spent_outpoint `{Bitcoin} {I} (s : SpentTxOut I) : OutPoint :=
  previous_output (spending_input s).

Record CreatedTxOut `{Bitcoin} (I : Type) := mkCreatedTxOut {
  created_outpoint : OutPoint;
  created_txout : TxOut;
  created_spk_index : I;
}.
Arguments mkCreatedTxOut {_ I}.
Arguments created_outpoint {_ I}.
Arguments created_txout {_ I}.
Arguments created_spk_index {_ I}.

Section index.
Context `{Scripts} {I : Type} `{Countable I} `{!TotalOrd I}.
Implicit Types (x : SpkTxOutIndex I) (i : I).

Definition SpkTxOutIndex_default : SpkTxOutIndex I := mkSpkTxOutIndex ∅ ∅ ∅ ∅ ∅.

Definition scan_txout x (op : OutPoint) (txout : TxOut) : SpkTxOutIndex I * option I :=
  if is_mweb_bridge_output (script_pubkey txout) then (x, None)
  else
    match spk_indices x !! script_pubkey txout with
    | Some spk_i =>
        (mkSpkTxOutIndex (spks x) (spk_indices x) (unused x ∖ {[spk_i]})
           (<[op := (spk_i, txout)]> (txouts x)) ({[(spk_i, op)]} ∪ spk_txouts x), Some spk_i)
    | None => (x, None)
    end.

(** One output of [scan]: the index and the set of indices found so far. *)
Definition scan_output (txid : Txid) (acc : SpkTxOutIndex I * gset I) (p : N * TxOut) :
    SpkTxOutIndex I * gset I :=
  let '(x, found) := scan_txout acc.1 (mkOutPoint txid (as_u32 p.1)) p.2 in
  (x, match found with Some spk_i => {[spk_i]} ∪ acc.2 | None => acc.2 end).

Definition scan x (tx : Transaction) : SpkTxOutIndex I * gset I :=
  foldl (scan_output (compute_txid tx)) (x, ∅) (enumerate (tx_output tx)).

Definition outpoints x : gset (I * OutPoint) := spk_txouts x.

Definition indexed_txouts x : list (I * OutPoint * TxOut) :=
  (λ p : OutPoint * (I * TxOut), (p.2.1, p.1, p.2.2)) <$> map_iter (txouts x).

Definition txouts_in_tx x (txid : Txid) : list (I * OutPoint * TxOut) :=
  filter (λ p : I * OutPoint * TxOut,
    tle (mkOutPoint txid 0) p.1.2 ∧ tle p.1.2 (mkOutPoint txid U32_MAX)) (indexed_txouts x).

Definition outputs_range (range : KeyRange I) : KeyRange (I * OutPoint) :=
  mkKeyRange
    (match start_bound range with
     | KIncluded index => KIncluded (index, min_op)
     | KExcluded index => KExcluded (index, max_op)
     | KUnbounded => KUnbounded
     end)
    (match end_bound range with
     | KIncluded index => KIncluded (index, max_op)
     | KExcluded index => KExcluded (index, min_op)
     | KUnbounded => KUnbounded
     end).

Definition outputs_in_range x (range : KeyRange I) : option (list (I * OutPoint)) :=
  set_range (outputs_range range) (spk_txouts x).

Definition txout x (outpoint : OutPoint) : option (I * TxOut) := txouts x !! outpoint.
Definition spk_at_index x i : option Script := spks x !! i.
Definition all_spks x : gmap I Script := spks x.

Definition insert_spk x i (spk : Script) : SpkTxOutIndex I * bool :=
  match spk_indices x !! spk with
  | None =>
      (mkSpkTxOutIndex (<[i := spk]> (spks x)) (<[spk := i]> (spk_indices x)) ({[i]} ∪ unused x)
         (txouts x) (spk_txouts x), true)
  | Some _ => (x, false)
  end.

(** The [expect] of the lookup is a [None] of the whole. *)
Definition unused_spks x (range : KeyRange I) : option (list (I * Script)) :=
  indices ← set_range range (unused x);
  mapM (λ i, spk ← spk_at_index x i; Some (i, spk)) indices.

Definition is_used x i : bool := negb (bool_decide (i ∈ unused x)).

Definition with_unused x (s : gset I) : SpkTxOutIndex I :=
  mkSpkTxOutIndex (spks x) (spk_indices x) s (txouts x) (spk_txouts x).

Definition mark_used x i : SpkTxOutIndex I * bool :=
  (with_unused x (unused x ∖ {[i]}), bool_decide (i ∈ unused x)).

Definition unmark_used x i : option (SpkTxOutIndex I * bool) :=
  match spks x !! i with
  | None => Some (x, false)
  | Some _ =>
      outputs ← outputs_in_range x (singleton_range i);
      Some (match outputs with
            | _ :: _ => (x, false)
            | [] => (with_unused x ({[i]} ∪ unused x), bool_decide (i ∉ unused x))
            end)
  end.

Definition index_of_spk x (script : Script) : option I := spk_indices x !! script.

Fixpoint sum_sent x (range : KeyRange I) (sent : N) (inputs : list TxIn) : option N :=
  match inputs with
  | [] => Some sent
  | txin :: inputs =>
      sent ← match txout x (previous_output txin) with
             | Some (index, txout) =>
                 if range_contains range index then amount_add sent (txout_value txout) else Some sent
             | None => Some sent
             end;
      sum_sent x range sent inputs
  end.

Fixpoint sum_received x (range : KeyRange I) (received : N) (outputs : list TxOut) : option N :=
  match outputs with
  | [] => Some received
  | txout :: outputs =>
      received ← match index_of_spk x (script_pubkey txout) with
                 | Some index =>
                     if range_contains range index then amount_add received (txout_value txout)
                     else Some received
                 | None => Some received
                 end;
      sum_received x range received outputs
  end.

Definition sent_and_received x (tx : Transaction) (range : KeyRange I) : option (N * N) :=
  sent ← sum_sent x range 0 (tx_input tx);
  received ← sum_received x range 0 (tx_output tx);
  Some (sent, received).

Definition net_value x (tx : Transaction) (range : KeyRange I) : option Z :=
  '(sent, received) ← sent_and_received x tx range;
  received ← to_signed received;
  sent ← to_signed sent;
  checked_i64 (received - sent)%Z.

Definition spent_txouts x (tx : Transaction) : option (list (SpentTxOut I)) :=
  mapM (λ p : N * (TxIn * (I * TxOut)),
    input_index ← u32_try_from p.1;
    Some (mkSpentTxOut p.2.2.2 p.2.1 input_index p.2.2.1))
  (omap (λ p : N * TxIn, (λ found, (p.1, (p.2, found))) <$> txout x (previous_output p.2))
    (enumerate (tx_input tx))).

Definition created_txouts x (tx : Transaction) : option (list (CreatedTxOut I)) :=
  mapM (λ p : N * (TxOut * I),
    output_index ← u32_try_from p.1;
    Some (mkCreatedTxOut (mkOutPoint (compute_txid tx) output_index) p.2.1 p.2.2))
  (omap (λ p : N * TxOut, (λ index, (p.1, (p.2, index))) <$> index_of_spk x (script_pubkey p.2))
    (enumerate (tx_output tx))).

Definition input_matches x (tx : Transaction) : bool :=
  existsb (λ input, bool_decide (is_Some (txouts x !! previous_output input))) (tx_input tx).
Definition output_matches x (tx : Transaction) : bool :=
  existsb (λ output, negb (is_mweb_bridge_output (script_pubkey output)) &&
    bool_decide (is_Some (spk_indices x !! script_pubkey output))) (tx_output tx).
Definition is_relevant x (tx : Transaction) : bool := input_matches x tx || output_matches x tx.

Definition spks_from_inputs x (tx : Transaction) : list (I * Script) :=
  omap (λ txin, (λ p : I * TxOut, (p.1, script_pubkey p.2)) <$> txouts x !! previous_output txin)
    (tx_input tx).
Definition spks_from_outputs x (tx : Transaction) : list (I * Script) :=
  omap (λ txout, (λ i, (i, script_pubkey txout)) <$> spk_indices x !! script_pubkey txout)
    (filter (λ txout, is_mweb_bridge_output (script_pubkey txout) = false) (tx_output tx)).
Definition relevant_spks_of_tx x (tx : Transaction) : gset (I * Script) :=
  list_to_set (spks_from_inputs x tx ++ spks_from_outputs x tx).
End index.

(** ** The [Indexer] trait *)

Class Indexer `{Bitcoin} (X : Type) := {
  IndexChangeSet : Type;
  IndexChangeSet_merge :: Merge IndexChangeSet;
  index_txout : X → OutPoint → TxOut → X * IndexChangeSet;
  index_tx : X → Transaction → X * IndexChangeSet;
  index_apply_changeset : X → IndexChangeSet → X;
  index_initial_changeset : X → IndexChangeSet;
  is_tx_relevant : X → Transaction → bool;
}.

#[export] Instance SpkTxOutIndex_indexer `{Scripts} {I} `{Countable I} :
  Indexer (SpkTxOutIndex I) := {
  IndexChangeSet := unit;
  index_txout x outpoint txout := ((scan_txout x outpoint txout).1, tt);
  index_tx x tx := ((scan x tx).1, tt);
  index_apply_changeset x _ := x;
  index_initial_changeset _ := tt;
  is_tx_relevant x tx := is_relevant x tx;
}.

(** The contract of an indexer that keeps what it is fed: it records exactly
    the outputs it watches, and a transaction is relevant when it spends a
    recorded output or has a watched one.  Outputs are real: outputs of a
    transaction with the id of their outpoint. *)
Definition real_txout `{Bitcoin} (op : OutPoint) (o : TxOut) : Prop :=
  ∃ tx, compute_txid tx = op_txid op ∧ tx_output tx !! N.to_nat (op_vout op) = Some o.

Definition output_of `{Bitcoin} (tx : Transaction) (op : OutPoint) (o : TxOut) : Prop :=
  op_txid op = compute_txid tx ∧ tx_output tx !! N.to_nat (op_vout op) = Some o.

(** The outputs of a transaction are numbered by 32 bits. *)
Class WidthLaws `{Bitcoin} : Prop :=
  outputs_bounded : ∀ tx, N.of_nat (length (tx_output tx)) ≤ U32_MAX.

Class IndexerLaws `{Bitcoin} X `{!Indexer X} := {
  index_ok : X → Prop;
  watches : X → TxOut → Prop;
  recorded : X → OutPoint → TxOut → Prop;
  recorded_real : ∀ x op o, index_ok x → recorded x op o → real_txout op o;
  index_txout_ok : ∀ x op o, index_ok x → real_txout op o → index_ok (index_txout x op o).1;
  index_txout_watches : ∀ x op o o', watches (index_txout x op o).1 o' ↔ watches x o';
  index_txout_recorded : ∀ x op o op' o', index_ok x → real_txout op o →
    recorded (index_txout x op o).1 op' o' ↔
    recorded x op' o' ∨ (op' = op ∧ o' = o ∧ watches x o);
  index_tx_ok : ∀ x tx, index_ok x → index_ok (index_tx x tx).1;
  index_tx_watches : ∀ x tx o, watches (index_tx x tx).1 o ↔ watches x o;
  index_tx_recorded : ∀ x tx op o, index_ok x →
    recorded (index_tx x tx).1 op o ↔
    recorded x op o ∨ (output_of tx op o ∧ watches x o);
  is_tx_relevant_iff : ∀ x tx, is_tx_relevant x tx = true ↔
    (∃ op o, op ∈ tx_prevouts tx ∧ recorded x op o) ∨
    (∃ o, o ∈ tx_output tx ∧ watches x o);
}.
