(* ===== verification/SpkSpec.v ===== *)
(** * The script pubkey index keeps what it is fed

    The invariant of [SpkTxOutIndex], the contract [IndexerLaws], and what its
    queries answer. *)
From S2P Require Import Prelude Block Tx TxGraph TxSamples TxGraphSpec ChainData CanonicalTask CanonicalView SpkIndex.
#[local] Open Scope N_scope.

Lemma real_txout_fun `{BitcoinLaws} op a b : real_txout op a → real_txout op b → a = b.
Proof.
  intros (t & Ht & Ha) (u & Hu & Hb). rewrite <-Hu in Ht.
  apply txid_commits_outputs in Ht. rewrite Ht in Ha. congruence.
Qed.

Lemma output_of_real `{Bitcoin} tx op o : output_of tx op o → real_txout op o.
Proof. intros [Hid Ho]. by exists tx. Qed.

Lemma elem_of_enumerate {T} (l : list T) n y :
  (n, y) ∈ enumerate l ↔ l !! N.to_nat n = Some y.
Proof.
  unfold enumerate. rewrite elem_of_lookup_imap. split.
  - intros (j & z & [= -> ->] & Hj). by rewrite Nat2N.id.
  - intros Hn. exists (N.to_nat n), y. by rewrite N2Nat.id.
Qed.

Lemma as_u32_small n : n ≤ U32_MAX → as_u32 n = n.
Proof. unfold as_u32, U32_MAX. intros. apply N.mod_small. lia. Qed.

Lemma real_txout_width `{WidthLaws} op o :
  real_txout op o → op_vout op ≤ U32_MAX.
Proof.
  intros (tx & _ & Ho).
  apply lookup_lt_Some in Ho. pose proof (outputs_bounded tx). lia.
Qed.

Section spec.
Context `{BitcoinLaws} `{!Scripts} {I : Type} `{Countable I} `{!TotalOrd I}.
Implicit Types (x : SpkTxOutIndex I) (i : I).

Definition spk_watches x (o : TxOut) : Prop :=
  is_mweb_bridge_output (script_pubkey o) = false ∧ is_Some (spk_indices x !! script_pubkey o).

(** ** The invariant *)

Record spk_ok x : Prop := {
  spk_forward : ∀ i s, spks x !! i = Some s → spk_indices x !! s = Some i;
  spk_backward : ∀ s i, spk_indices x !! s = Some i → is_Some (spks x !! i);
  spk_stored : ∀ op i o, txouts x !! op = Some (i, o) →
    spk_indices x !! script_pubkey o = Some i ∧ is_mweb_bridge_output (script_pubkey o) = false;
  spk_real : ∀ op i o, txouts x !! op = Some (i, o) → real_txout op o;
  spk_listed : ∀ i op, (i, op) ∈ spk_txouts x ↔ ∃ o, txouts x !! op = Some (i, o);
  spk_unused_known : ∀ i, i ∈ unused x → is_Some (spks x !! i);
  spk_unused_fresh : ∀ i op, i ∈ unused x → (i, op) ∉ spk_txouts x;
}.

Lemma spk_ok_default : spk_ok SpkTxOutIndex_default.
Proof. split; cbn; set_solver. Qed.

Lemma scan_txout_watched x op o i :
  is_mweb_bridge_output (script_pubkey o) = false → spk_indices x !! script_pubkey o = Some i →
  scan_txout x op o =
    (mkSpkTxOutIndex (spks x) (spk_indices x) (unused x ∖ {[i]}) (<[op := (i, o)]> (txouts x))
       ({[(i, op)]} ∪ spk_txouts x), Some i).
Proof. intros Hb Hi. unfold scan_txout. by rewrite Hb, Hi. Qed.

Lemma scan_txout_unwatched x op o : ¬ spk_watches x o → scan_txout x op o = (x, None).
Proof.
  intros Hw. unfold scan_txout. destruct (is_mweb_bridge_output _) eqn:Hb; [done|].
  destruct (spk_indices x !! _) eqn:Hi; [|done]. destruct Hw. by split; [|eexists].
Qed.

Lemma spk_watches_dec x o :
  (∃ i, is_mweb_bridge_output (script_pubkey o) = false ∧
     spk_indices x !! script_pubkey o = Some i) ∨ ¬ spk_watches x o.
Proof.
  destruct (is_mweb_bridge_output (script_pubkey o)) eqn:Hb.
  { right. unfold spk_watches. rewrite Hb. by intros [? _]. }
  destruct (spk_indices x !! script_pubkey o) as [i|] eqn:Hi; [left; by exists i|].
  right. intros [_ [? ?]]. congruence.
Qed.

Lemma scan_txout_ok x op o : spk_ok x → real_txout op o → spk_ok (scan_txout x op o).1.
Proof.
  intros Hx Hr. destruct (spk_watches_dec x o) as [(i & Hb & Hi)|Hw].
  2: { by rewrite scan_txout_unwatched. }
  rewrite (scan_txout_watched _ _ _ _ Hb Hi). destruct Hx as [F B S R L U V].
  split; cbn; [done|done| | | | |].
  - intros op' j o'. rewrite lookup_insert_Some. intros [(-> & [= -> ->])|(_ & ?)]; eauto.
  - intros op' j o'. rewrite lookup_insert_Some. intros [(-> & [= -> ->])|(_ & ?)]; eauto.
  - intros j op'. rewrite elem_of_union, elem_of_singleton, L. setoid_rewrite lookup_insert_Some.
    split.
    + intros [[= -> ->]|[o' Ho']]; [by exists o; left|].
      destruct (decide (op = op')) as [->|]; [|by exists o'; right].
      pose proof (real_txout_fun _ _ _ (R _ _ _ Ho') Hr) as ->.
      destruct (S _ _ _ Ho') as [Hj _]. exists o. left. split; [done|]. congruence.
    + intros [o' [(-> & [= -> ->])|(_ & ?)]]; [by left|right; eauto].
  - intros j. rewrite elem_of_difference. intros [? _]. eauto.
  - intros j op'. rewrite elem_of_difference, elem_of_singleton. intros [Hj Hne].
    rewrite elem_of_union, elem_of_singleton. intros [[= -> ->]|Hin]; [done|]. by apply (V j op').
Qed.

Lemma scan_txout_indices x op o : spk_indices (scan_txout x op o).1 = spk_indices x.
Proof. unfold scan_txout. destruct (is_mweb_bridge_output _); [done|]. by destruct (_ !! _). Qed.
Lemma scan_txout_spks x op o : spks (scan_txout x op o).1 = spks x.
Proof. unfold scan_txout. destruct (is_mweb_bridge_output _); [done|]. by destruct (_ !! _). Qed.

Definition spk_recorded x (op : OutPoint) (o : TxOut) : Prop :=
  ∃ i, txouts x !! op = Some (i, o).

Lemma scan_txout_recorded x op o op' o' :
  spk_ok x → real_txout op o →
  spk_recorded (scan_txout x op o).1 op' o' ↔
  spk_recorded x op' o' ∨ (op' = op ∧ o' = o ∧ spk_watches x o).
Proof.
  intros Hx Hr. unfold spk_recorded. destruct (spk_watches_dec x o) as [(i & Hb & Hi)|Hw].
  2: { rewrite scan_txout_unwatched by done. naive_solver. }
  rewrite (scan_txout_watched _ _ _ _ Hb Hi). cbn. setoid_rewrite lookup_insert_Some. split.
  - intros [j [(-> & [= -> ->])|(_ & ?)]]; [right|left; eauto].
    by split_and!; [..|split; [|eexists]].
  - intros [[j Hj]|(-> & -> & _)]; [|by exists i; left].
    destruct (decide (op = op')) as [->|]; [|by exists j; right].
    exists i. left. split; [done|].
    by rewrite (real_txout_fun _ _ _ (spk_real x Hx _ _ _ Hj) Hr).
Qed.

(** ** Scanning a transaction *)

Context `{!WidthLaws}.

Lemma scan_output_fold txid l acc :
  (foldl (scan_output txid) acc l).1 =
  foldl (λ x p, (scan_txout x (mkOutPoint txid (as_u32 p.1)) p.2).1) acc.1 l.
Proof.
  revert acc. induction l as [|p l IH]; intros [x f]; cbn [foldl]; [done|]. rewrite IH.
  f_equal. unfold scan_output. cbn. by destruct (scan_txout x _ p.2).
Qed.

Lemma scan_keeps x tx :
  spk_indices (scan x tx).1 = spk_indices x ∧ spks (scan x tx).1 = spks x.
Proof.
  unfold scan. rewrite scan_output_fold. cbn [fst]. generalize (enumerate (tx_output tx)).
  intros l. revert x. induction l as [|p l IH]; intros x; cbn [foldl]; [done|].
  destruct (IH (scan_txout x (mkOutPoint (compute_txid tx) (as_u32 p.1)) p.2).1) as [-> ->].
  by rewrite scan_txout_indices, scan_txout_spks.
Qed.

Lemma scan_spec x tx :
  spk_ok x → spk_ok (scan x tx).1 ∧
  ∀ op o, spk_recorded (scan x tx).1 op o ↔
    spk_recorded x op o ∨ (output_of tx op o ∧ spk_watches x o).
Proof.
  intros Hx. unfold scan. rewrite scan_output_fold. cbn [fst].
  assert (∀ p, p ∈ enumerate (tx_output tx) →
    as_u32 p.1 = p.1 ∧ output_of tx (mkOutPoint (compute_txid tx) p.1) p.2) as Hall.
  { intros [n o] Ho%elem_of_enumerate. cbn. split; [|by split].
    apply as_u32_small. apply lookup_lt_Some in Ho. pose proof (outputs_bounded tx). lia. }
  enough (∀ op o, spk_recorded (foldl (λ x p, (scan_txout x (mkOutPoint (compute_txid tx)
      (as_u32 p.1)) p.2).1) x (enumerate (tx_output tx))) op o ↔
    spk_recorded x op o ∨ ((∃ p, p ∈ enumerate (tx_output tx) ∧
      op = mkOutPoint (compute_txid tx) p.1 ∧ o = p.2) ∧ spk_watches x o)) as Hrec.
  { split.
    - clear Hrec. revert x Hx Hall. generalize (enumerate (tx_output tx)). intros l.
      induction l as [|p l IH]; intros x Hx Hall; cbn [foldl]; [done|]. apply IH.
      + destruct (Hall p) as [-> Ho%output_of_real]; [by left|]. by apply scan_txout_ok.
      + intros q Hq. apply Hall. by right.
    - intros op o. rewrite Hrec. apply or_iff_compat_l, and_iff_compat_r. split.
      + intros ([n y] & Hn & -> & ->). apply Hall in Hn as [_ ?]. done.
      + intros [Hid Ho]. exists (op_vout op, o). rewrite elem_of_enumerate. cbn.
        split_and!; [done| |done]. destruct op; cbn in *. by subst. }
  revert x Hx Hall. generalize (enumerate (tx_output tx)). intros l.
  induction l as [|p l IH]; intros x Hx Hall op o; cbn [foldl].
  { setoid_rewrite elem_of_nil. naive_solver. }
  destruct (Hall p) as [-> Ho%output_of_real]; [by left|].
  rewrite IH; [|by apply scan_txout_ok|intros q Hq; apply Hall; by right].
  rewrite scan_txout_recorded by done. unfold spk_watches at 2. rewrite scan_txout_indices.
  setoid_rewrite elem_of_cons. fold (spk_watches x o). split.
  - intros [[?|(-> & -> & ?)]|((q & ? & ?) & ?)]; eauto 8.
  - intros [?|((q & [->|?] & -> & ->) & ?)]; eauto 10.
Qed.

(** ** Relevance *)

Lemma input_matches_iff x tx :
  input_matches x tx = true ↔ ∃ op o, op ∈ tx_prevouts tx ∧ spk_recorded x op o.
Proof.
  unfold input_matches, tx_prevouts. rewrite existsb_exists. split.
  - intros (j & Hj%list_elem_of_In & Hs%bool_decide_eq_true). destruct Hs as [[i o] Hs].
    exists (previous_output j), o. split; [by apply list_elem_of_fmap_2|by exists i].
  - intros (op & o & (j & -> & Hj)%list_elem_of_fmap & [i Hi]). exists j.
    split; [by apply list_elem_of_In|]. apply bool_decide_eq_true. by eexists.
Qed.

Lemma output_matches_iff x tx :
  output_matches x tx = true ↔ ∃ o, o ∈ tx_output tx ∧ spk_watches x o.
Proof.
  unfold output_matches, spk_watches. rewrite existsb_exists. apply exist_proper. intros o.
  by rewrite list_elem_of_In, andb_true_iff, negb_true_iff, bool_decide_eq_true.
Qed.

#[export] Instance SpkTxOutIndex_laws : IndexerLaws (SpkTxOutIndex I).
Proof.
  refine {| index_ok := spk_ok; watches := spk_watches; recorded := spk_recorded |}.
  - intros x op o Hx [i Hi]. by eapply spk_real.
  - intros. by apply scan_txout_ok.
  - intros. unfold spk_watches. cbn. by rewrite scan_txout_indices.
  - intros. by apply scan_txout_recorded.
  - intros. by apply scan_spec.
  - intros x tx o. unfold spk_watches. cbn. by rewrite (proj1 (scan_keeps x tx)).
  - intros. by apply scan_spec.
  - intros x tx. cbn. unfold is_relevant.
    by rewrite orb_true_iff, input_matches_iff, output_matches_iff.
Defined.

(** ** Marks and queries *)

Lemma insert_spk_ok x i spk :
  spk_ok x → (spks x !! i = None ∨ is_Some (spk_indices x !! spk)) → spk_ok (insert_spk x i spk).1.
Proof.
  intros Hx Hfresh. unfold insert_spk. destruct (spk_indices x !! spk) as [j|] eqn:Hj; [done|].
  destruct Hfresh as [Hi|[? ?]]; [|congruence]. destruct Hx as [F B S R L U V].
  assert (∀ o, spk_indices x !! script_pubkey o = Some i → False) as Hnone.
  { intros o Ho. apply B in Ho as [? ?]. congruence. }
  split; cbn; [| | |done|done| |].
  - intros k s. rewrite lookup_insert_Some. intros [(-> & ->)|(Hk & Hs)].
    + apply lookup_insert_eq.
    + apply F in Hs. rewrite lookup_insert_ne; [done|]. intros ->. congruence.
  - intros s k. rewrite lookup_insert_Some. intros [(-> & ->)|(Hs & Hk)].
    + rewrite lookup_insert_eq. by eexists.
    + apply B in Hk. rewrite lookup_insert. by case_decide; [eexists|].
  - intros op k o Ho. apply S in Ho as [Ho ?]. split; [|done].
    rewrite lookup_insert_ne; [done|]. intros ->. congruence.
  - intros k. rewrite elem_of_union, elem_of_singleton, lookup_insert. intros Hk.
    case_decide; [by eexists|]. destruct Hk as [->|Hk]; [done|]. by apply U.
  - intros k op. rewrite elem_of_union, elem_of_singleton. intros [->|Hk]; [|by apply V].
    intros [o Ho]%L. apply S in Ho as [Ho _]. by eapply Hnone.
Qed.

Lemma with_unused_ok x s :
  spk_ok x → (∀ i, i ∈ s → is_Some (spks x !! i)) →
  (∀ i op, i ∈ s → (i, op) ∉ spk_txouts x) → spk_ok (with_unused x s).
Proof. by intros [F B S R L U V] Hs Hf; split. Qed.

Lemma with_unused_id x s : s = unused x → with_unused x s = x.
Proof. intros ->. by destruct x. Qed.

Lemma mark_used_ok x i : spk_ok x → spk_ok (mark_used x i).1.
Proof.
  intros Hx. apply with_unused_ok; [done|..].
  - intros j [Hj _]%elem_of_difference. by apply spk_unused_known.
  - intros j op [Hj _]%elem_of_difference. by apply spk_unused_fresh.
Qed.

(** Ids have 256 bits. *)
Definition txids_fit x : Prop := ∀ op, op ∈ dom (txouts x) → op_txid op ≤ TXID_MAX.

Lemma listed_width x i op : spk_ok x → txids_fit x → (i, op) ∈ spk_txouts x →
  tle min_op op ∧ tle op max_op.
Proof.
  intros Hx Hfit [o Ho]%spk_listed; [|done].
  pose proof (Hfit op (elem_of_dom_2 _ _ _ Ho)) as Ht.
  apply spk_real in Ho; [|done]. apply real_txout_width in Ho as Hv.
  destruct op as [t v]. cbn in Ht, Hv. unfold min_op, max_op. cbn. unfold lex_le, tlt.
  cbn. split.
  - destruct (decide (0 = t)) as [<-|]; [right|left]; split; try done; lia.
  - destruct (decide (t = TXID_MAX)) as [->|]; [right|left]; split; done.
Qed.

Lemma outputs_range_contains x r i op :
  spk_ok x → txids_fit x → (i, op) ∈ spk_txouts x →
  range_contains (outputs_range r) (i, op) = range_contains r i.
Proof.
  intros Hx Hfit Hin. destruct (listed_width x i op Hx Hfit Hin) as [Hmin Hmax].
  assert (∀ a b : I, ∀ p q : OutPoint, tle p q → tle (a, p) (b, q) ↔ tle a b) as Hle.
  { intros a b p q Hpq. cbn. unfold lex_le, tlt. cbn. split.
    - by intros [[? _]|[-> _]].
    - intros Hab. destruct (decide (a = b)) as [->|]; [by right|by left]. }
  assert (∀ a b : I, ∀ p q : OutPoint, tle q p → tlt (a, p) (b, q) ↔ tlt a b) as Hlt.
  { intros a b p q Hpq. unfold tlt at 1. cbn. unfold lex_le. cbn. split.
    - intros [[?|[-> Hle']] Hne]; [done|]. destruct Hne.
      f_equal. by apply (anti_symm tle).
    - intros Hab. split; [by left|]. intros [= -> _]. by apply (tlt_irrefl b). }
  unfold range_contains, outputs_range. destruct r as [s e]. cbn [start_bound end_bound].
  f_equal.
  - destruct s as [s|s|]; cbn [after_start]; [apply bool_decide_ext; by apply Hle| |done].
    apply bool_decide_ext. by apply Hlt.
  - destruct e as [e|e|]; cbn [before_end]; [apply bool_decide_ext; by apply Hle| |done].
    apply bool_decide_ext. by apply Hlt.
Qed.

Lemma outputs_range_valid r : range_valid r = true → range_valid (outputs_range (I:=I) r) = true.
Proof.
  assert (∀ a b : I, ∀ p q : OutPoint, tle a b → tle p q → tle (a, p) (b, q)) as Hle.
  { intros a b p q Hab Hpq. cbn. unfold lex_le, tlt. cbn.
    destruct (decide (a = b)) as [->|]; [by right|by left]. }
  assert (∀ a b : I, ∀ p q : OutPoint, tlt a b → tlt (a, p) (b, q)) as Hlt.
  { intros a b p q Hab. split; [by left|]. intros [= -> _]. by apply (tlt_irrefl b). }
  assert (tle min_op max_op) as Hm by (left; by vm_compute).
  unfold range_valid, outputs_range. destruct r as [s e]. cbn [start_bound end_bound].
  destruct s as [s|s|], e as [e|e|]; rewrite ?bool_decide_eq_true; try done; intros Hse;
    first [apply Hlt; done|apply Hle; [done|reflexivity || done]].
Qed.

Lemma outputs_in_range_spec x r :
  spk_ok x → txids_fit x → range_valid r = true →
  ∃ l, outputs_in_range x r = Some l ∧
    ∀ i op, (i, op) ∈ l ↔ (i, op) ∈ spk_txouts x ∧ range_contains r i = true.
Proof.
  intros Hx Hfit Hr. unfold outputs_in_range, set_range. rewrite outputs_range_valid by done.
  eexists. split; [done|]. intros i op. rewrite list_elem_of_filter, elem_of_set_iter.
  split.
  - intros [Hc Hin]. by rewrite (outputs_range_contains x) in Hc.
  - intros [Hin Hc]. by rewrite (outputs_range_contains x).
Qed.

Lemma singleton_range_contains (i j : I) : range_contains (singleton_range i) j = true ↔ j = i.
Proof.
  unfold range_contains. cbn. rewrite andb_true_iff, !bool_decide_eq_true. split.
  - intros [? ?]. by apply (anti_symm tle).
  - by intros ->.
Qed.

Lemma unmark_used_spec x i :
  spk_ok x → txids_fit x →
  unmark_used x i =
    if decide (is_Some (spks x !! i) ∧ i ∉ unused x ∧ ∀ op, op ∈ dom (txouts x) → (i, op) ∉ spk_txouts x)
    then Some (with_unused x ({[i]} ∪ unused x), true) else Some (x, false).
Proof.
  intros Hx Hfit. unfold unmark_used. destruct (spks x !! i) as [s|] eqn:Hs.
  2: { rewrite decide_False; [done|]. by intros [[? ?] _]. }
  destruct (outputs_in_range_spec x (singleton_range i) Hx Hfit) as (l & -> & Hl).
  { cbn. by apply bool_decide_eq_true. }
  cbn [mbind option_bind]. f_equal.
  setoid_rewrite singleton_range_contains in Hl. destruct l as [|[j op] l].
  - assert (∀ op, (i, op) ∉ spk_txouts x) as Hno.
    { intros op Hop. apply (not_elem_of_nil (i, op)). by apply Hl. }
    destruct (decide (i ∈ unused x)) as [Hi|Hi].
    + rewrite decide_False by naive_solver. rewrite bool_decide_eq_false_2 by auto.
      by rewrite with_unused_id by set_solver.
    + rewrite decide_True; [by rewrite bool_decide_eq_true_2|]. split_and!; [by eexists|done|auto].
  - destruct (proj1 (Hl j op)) as [Hin ->]; [by left|].
    rewrite decide_False; [done|]. intros (_ & _ & Hno). apply (Hno op); [|done].
    apply spk_listed in Hin as [o Ho]; [|done]. by apply elem_of_dom_2 in Ho.
Qed.

Lemma unmark_used_ok x i :
  spk_ok x → txids_fit x → ∃ x' b, unmark_used x i = Some (x', b) ∧ spk_ok x'.
Proof.
  intros Hx Hfit. rewrite unmark_used_spec by done. case_decide as Hd; [|by eexists _, _].
  destruct Hd as (Hi & _ & Hno). eexists _, _. split; [done|]. apply with_unused_ok; [done|..].
  - intros j [->%elem_of_singleton|Hj]%elem_of_union; [done|by apply spk_unused_known].
  - intros j op [->%elem_of_singleton|Hj]%elem_of_union Hin.
    + apply (Hno op); [|done]. apply spk_listed in Hin as [o Ho]; [|done]. by apply elem_of_dom_2 in Ho.
    + by apply (spk_unused_fresh x Hx j op).
Qed.

(** Scripts and indices determine each other. *)
Definition spk_bijective x : Prop := ∀ i s, spks x !! i = Some s ↔ spk_indices x !! s = Some i.

Lemma insert_spk_bijective x i spk :
  spk_bijective x → (spks x !! i = None ∨ is_Some (spk_indices x !! spk)) → spk_bijective (insert_spk x i spk).1.
Proof.
  intros Hx Hfresh. unfold insert_spk. destruct (spk_indices x !! spk) as [j|] eqn:Hj; [done|].
  destruct Hfresh as [Hi|[? ?]]; [|done]. intros k s. cbn. rewrite !lookup_insert_Some, (Hx k s : spks x !! k = Some s ↔ _). split.
  - intros [[<- <-]|[Hk Hs]]; [by left|right]. split; [|done]. intros <-. congruence.
  - intros [[<- <-]|[Hs Hk]]; [by left|right]. split; [|done]. intros <-. apply Hx in Hk. congruence.
Qed.

Lemma spk_bijective_same x y : spks y = spks x → spk_indices y = spk_indices x → spk_bijective x → spk_bijective y.
Proof. unfold spk_bijective. by intros -> ->. Qed.

Lemma unmark_used_scripts x x' i b :
  unmark_used x i = Some (x', b) → spks x' = spks x ∧ spk_indices x' = spk_indices x.
Proof.
  unfold unmark_used. destruct (spks x !! i); [|by intros [= <- _]].
  destruct (outputs_in_range x _) as [[|]|]; [by intros [= <- _]..|done].
Qed.

(** The invariant of the index, with the bijection. *)
Definition spk_index_ok x : Prop := spk_ok x ∧ spk_bijective x.

(** C40. The empty script index satisfies the invariant and its operations keep
    it: indices and scripts are in bijection, every stored output pays the
    script of its index and none is a bridge output, the ordered set of outputs
    is the exact inverse of the map of outputs, and an index counts as unused
    only while it has a script and no output is stored under it.  A script is
    inserted under a free index, or is already there; an output that is scanned
    alone is an output of a transaction with its id; unmarking needs ids of 256
    bits, and does not panic then.  Scanning and marking never touch the
    scripts. *)
Theorem spk_index_invariant :
  spk_index_ok SpkTxOutIndex_default ∧
  ∀ x, spk_index_ok x →
    (∀ i spk, spks x !! i = None ∨ is_Some (spk_indices x !! spk) → spk_index_ok (insert_spk x i spk).1) ∧
    (∀ op o, real_txout op o → spk_index_ok (scan_txout x op o).1) ∧
    (∀ tx, spk_index_ok (scan x tx).1 ∧ spk_indices (scan x tx).1 = spk_indices x ∧
      spks (scan x tx).1 = spks x) ∧
    (∀ i, spk_index_ok (mark_used x i).1) ∧
    (∀ i, txids_fit x → ∃ x' b, unmark_used x i = Some (x', b) ∧ spk_index_ok x').
Proof.
  split; [split; [apply spk_ok_default|]; intros i s; cbn; by rewrite !lookup_empty|].
  intros x [Hx Hbi]. split_and!; intros.
  - split; [by apply insert_spk_ok|by apply insert_spk_bijective].
  - split; [by apply scan_txout_ok|]. apply (spk_bijective_same x); [apply scan_txout_spks|apply scan_txout_indices|done].
  - destruct (scan_keeps x tx). split; [|done]. split; [by apply scan_spec|by apply (spk_bijective_same x)].
  - split; [by apply mark_used_ok|by apply (spk_bijective_same x)].
  - destruct (unmark_used_ok x i) as (x' & b & Hrun & Hok); [done..|]. exists x', b. split; [done|]. split; [done|].
    by apply unmark_used_scripts in Hrun as [? ?]; apply (spk_bijective_same x).
Qed.
End spec.

(** ** Expected transactions of the watched scripts

    [Canonical::list_expected_spk_txids] of [crates/chain/src/canonical.rs],
    which tells a chain source what the wallet already knows of each script. *)

Section expected.
Context `{Scripts} {I : Type} `{Countable I} `{!TotalOrd I} {P : Type}.
Implicit Types (v : Canonical P) (x : SpkTxOutIndex I).

(** The scripts of one transaction, in the order of the set. *)
Definition expected_of x (spk_index_range : KeyRange I) (c_tx : CanonicalTx P) :
    list (Script * Txid) :=
  (λ p : I * Script, (p.2, ctx_txid c_tx)) <$>
  filter (λ p : I * Script, range_contains spk_index_range p.1 = true)
    (set_iter (relevant_spks_of_tx x (ctx_tx c_tx))).

Definition list_expected_spk_txids v x (spk_index_range : KeyRange I) :
    option (list (Script * Txid)) :=
  txs ← canonical_txs v;
  Some (c_tx ← txs; expected_of x spk_index_range c_tx).

(** A script is listed with a transaction exactly when the transaction spends an
    indexed output of it or pays it, bridge outputs apart. *)
Lemma elem_of_expected x range c_tx spk txid :
  (spk, txid) ∈ expected_of x range c_tx ↔
  txid = ctx_txid c_tx ∧ ∃ i, range_contains range i = true ∧
    ((∃ txin o, txin ∈ tx_input (ctx_tx c_tx) ∧ txouts x !! previous_output txin = Some (i, o) ∧
        spk = script_pubkey o) ∨
     (∃ o, o ∈ tx_output (ctx_tx c_tx) ∧ is_mweb_bridge_output (script_pubkey o) = false ∧
        spk = script_pubkey o ∧ spk_indices x !! spk = Some i)).
Proof.
  assert (∀ i, (i, spk) ∈ relevant_spks_of_tx x (ctx_tx c_tx) ↔
    (∃ txin o, txin ∈ tx_input (ctx_tx c_tx) ∧ txouts x !! previous_output txin = Some (i, o) ∧
        spk = script_pubkey o) ∨
    (∃ o, o ∈ tx_output (ctx_tx c_tx) ∧ is_mweb_bridge_output (script_pubkey o) = false ∧
        spk = script_pubkey o ∧ spk_indices x !! spk = Some i)) as Hrel.
  { intros i. unfold relevant_spks_of_tx. rewrite elem_of_list_to_set, elem_of_app. f_equiv.
    - unfold spks_from_inputs. rewrite list_elem_of_omap. split.
      + intros (txin & Hin & ([j o] & Ho & [= -> ->])%fmap_Some). by exists txin, o.
      + intros (txin & o & Hin & Ho & ->). exists txin. by rewrite Ho.
    - unfold spks_from_outputs. rewrite list_elem_of_omap. setoid_rewrite list_elem_of_filter. split.
      + intros (o & [Hb Hin] & (j & Hj & [= -> ->])%fmap_Some). by exists o.
      + intros (o & Hin & Hb & -> & Hi). exists o. by rewrite Hi. }
  unfold expected_of. rewrite list_elem_of_fmap. setoid_rewrite list_elem_of_filter.
  setoid_rewrite elem_of_set_iter. split.
  - intros ([i s] & [= <- ->] & Hr & Hin). split; [done|]. exists i. split; [done|]. by apply Hrel.
  - intros (-> & i & Hr & Hin%Hrel). by exists (i, spk).
Qed.
End expected.
