(* ===== verification/IndexedGraph.v ===== *)
(** * The transaction graph with an index kept in step

    Models [crates/chain/src/indexed_tx_graph.rs].  The indexer is any instance
    of the trait ([SpkIndex.Indexer]).  A block is a type of the [bitcoin]
    crate: the class [Blocks]; how an anchor is made from a position in a block
    is the class [FromTxPos]. *)
From S2P Require Import Prelude Block Tx TxGraph ChainData CanonicalTask SpkIndex.
#[local] Open Scope N_scope.

Class Blocks `{Bitcoin} := {
  ChainBlock : Type;
  block_hash : ChainBlock → BlockHash;
  txdata : ChainBlock → list Transaction;
}.

(** [From<TxPosInBlock> for A]. *)
Class FromTxPos `{Blocks} (A : Type) := from_tx_pos : TxPosInBlock (Block:=ChainBlock) → A.

(** ** State and change sets *)

Record IndexedTxGraph `{Bitcoin} (A X : Type) `{Countable A} := mkIndexedTxGraph {
  ig_index : X;
  ig_graph : TxGraph A;
}.
Arguments mkIndexedTxGraph {_ A X _ _}.
Arguments ig_index {_ A X _ _}.
Arguments ig_graph {_ A X _ _}.

Record IndexedChangeSet `{Bitcoin} (A IC : Type) `{Countable A} := mkIndexedChangeSet {
  ics_tx_graph : TxChangeSet A;
  ics_indexer : IC;
}.
Arguments mkIndexedChangeSet {_ A IC _ _}.
Arguments ics_tx_graph {_ A IC _ _}.
Arguments ics_indexer {_ A IC _ _}.

Section indexed.
Context `{Bitcoin} {A : Type} `{Countable A} `{!TotalOrd A, !Anchor A} `{HashOrder}.
Context `{!Indexer X}.
Notation IC := (IndexChangeSet (X:=X)).
Notation CS := (IndexedChangeSet A IC).
Implicit Types (s : IndexedTxGraph A X) (cs : CS).

#[export] Instance IndexedChangeSet_merge : Merge CS := {
  merge_default := mkIndexedChangeSet TxChangeSet_default merge_default;
  merge self other :=
    mkIndexedChangeSet (merge (ics_tx_graph self) (ics_tx_graph other))
      (merge (ics_indexer self) (ics_indexer other));
  merge_is_empty self := merge_is_empty (ics_tx_graph self) && merge_is_empty (ics_indexer self);
}.

(** [From<tx_graph::ChangeSet<A>>]. *)
Definition from_graph_changeset (graph : TxChangeSet A) : CS := mkIndexedChangeSet graph merge_default.

(** Feeding items to the indexer, merging its change sets. *)
Definition index_txs (l : list Transaction) (acc : X * IC) : X * IC :=
  foldl (λ acc tx, let '(x, c) := index_tx acc.1 tx in (x, merge acc.2 c)) acc l.
Definition index_txouts (l : list (OutPoint * TxOut)) (acc : X * IC) : X * IC :=
  foldl (λ acc p, let '(x, c) := index_txout acc.1 p.1 p.2 in (x, merge acc.2 c)) acc l.

Definition ig_apply_changeset s cs : IndexedTxGraph A X :=
  let x := index_apply_changeset (ig_index s) (ics_indexer cs) in
  let x := (index_txs (set_iter (cs_txs (ics_tx_graph cs))) (x, merge_default)).1 in
  let x := (index_txouts (map_iter (cs_txouts (ics_tx_graph cs))) (x, merge_default)).1 in
  mkIndexedTxGraph x (graph_apply_changeset (ig_graph s) (ics_tx_graph cs)).

Definition ig_initial_changeset s : CS :=
  mkIndexedChangeSet (graph_initial_changeset (ig_graph s)) (index_initial_changeset (ig_index s)).

Definition is_tx_or_conflict_relevant s (tx : Transaction) : bool :=
  is_tx_relevant (ig_index s) tx ||
  existsb (is_tx_relevant (ig_index s))
    (omap (λ p, get_tx (ig_graph s) p.2) (direct_conflicts (ig_graph s) tx)).

Definition IndexedTxGraph_new (index : X) : IndexedTxGraph A X :=
  mkIndexedTxGraph index TxGraph_default.

Definition reindex s : IndexedTxGraph A X * CS :=
  let acc := index_txs (node_tx <$> full_txs (ig_graph s)) (ig_index s, merge_default) in
  let acc := index_txouts (floating_txouts (ig_graph s)) acc in
  (mkIndexedTxGraph acc.1 (ig_graph s), mkIndexedChangeSet TxChangeSet_default acc.2).

Definition ig_from_changeset {E} (changeset : CS) (indexer_from_changeset : IC → result E X) :
    result E (IndexedTxGraph A X * CS) :=
  let graph := graph_from_changeset (ics_tx_graph changeset) in
  index ← indexer_from_changeset (ics_indexer changeset);
  Ok (reindex (mkIndexedTxGraph index graph)).

Definition index_tx_graph_changeset (x : X) (tx_graph_changeset : TxChangeSet A) : X * IC :=
  let acc := index_txs (set_iter (cs_txs tx_graph_changeset)) (x, merge_default) in
  index_txouts (map_iter (cs_txouts tx_graph_changeset)) acc.

(** The graph has changed; the indexer follows. *)
Definition follow (x : X) (p : TxGraph A * TxChangeSet A) : IndexedTxGraph A X * CS :=
  let '(x, indexer) := index_tx_graph_changeset x p.2 in
  (mkIndexedTxGraph x p.1, mkIndexedChangeSet p.2 indexer).

Definition ig_apply_update s (update : TxUpdate A) : IndexedTxGraph A X * CS :=
  follow (ig_index s) (graph_apply_update (ig_graph s) update).
Definition ig_insert_txout s (outpoint : OutPoint) (txout : TxOut) : IndexedTxGraph A X * CS :=
  follow (ig_index s) (insert_txout (ig_graph s) outpoint txout).
Definition ig_insert_tx s (tx : Transaction) : IndexedTxGraph A X * CS :=
  follow (ig_index s) (insert_tx (ig_graph s) tx).

(** The graph changes and the indexer need not know. *)
Definition graph_only (x : X) (p : TxGraph A * TxChangeSet A) : IndexedTxGraph A X * CS :=
  (mkIndexedTxGraph x p.1, from_graph_changeset p.2).

Definition ig_insert_anchor s (txid : Txid) (anchor : A) : IndexedTxGraph A X * CS :=
  graph_only (ig_index s) (insert_anchor (ig_graph s) txid anchor).
Definition ig_insert_seen_at s (txid : Txid) (seen_at : N) : IndexedTxGraph A X * CS :=
  graph_only (ig_index s) (insert_seen_at (ig_graph s) txid seen_at).
Definition ig_insert_evicted_at s (txid : Txid) (evicted_at : N) : IndexedTxGraph A X * CS :=
  graph_only (ig_index s) (insert_evicted_at (ig_graph s) txid evicted_at).
Definition ig_batch_insert_relevant_evicted_at s (evicted_ats : list (Txid * N)) :
    IndexedTxGraph A X * CS :=
  graph_only (ig_index s) (batch_insert_relevant_evicted_at (ig_graph s) evicted_ats).

(** One transaction of [batch_insert_relevant], with the index as it is. *)
Definition insert_if_relevant (x : X) (acc : TxGraph A * TxChangeSet A)
    (p : Transaction * list A) : TxGraph A * TxChangeSet A :=
  if is_tx_or_conflict_relevant (mkIndexedTxGraph x acc.1) p.1 then
    let '(g, c) := insert_tx acc.1 p.1 in
    insert_all (λ g a, insert_anchor g (compute_txid p.1) a) p.2 (g, merge acc.2 c)
  else acc.

Definition batch_insert_relevant s (txs : list (Transaction * list A)) : IndexedTxGraph A X * CS :=
  let '(x, indexer) := index_txs txs.*1 (ig_index s, merge_default) in
  let '(g, tx_graph) := foldl (insert_if_relevant x) (ig_graph s, TxChangeSet_default) txs in
  (mkIndexedTxGraph x g, mkIndexedChangeSet tx_graph indexer).

Definition batch_insert_relevant_unconfirmed s (unconfirmed_txs : list (Transaction * N)) :
    IndexedTxGraph A X * CS :=
  let '(x, indexer) := index_txs unconfirmed_txs.*1 (ig_index s, merge_default) in
  let '(g, tx_graph) := batch_insert_unconfirmed (ig_graph s)
    (filter (λ p, is_tx_or_conflict_relevant (mkIndexedTxGraph x (ig_graph s)) p.1 = true)
       unconfirmed_txs) in
  (mkIndexedTxGraph x g, mkIndexedChangeSet tx_graph indexer).

Definition ig_batch_insert_unconfirmed s (txs : list (Transaction * N)) : IndexedTxGraph A X * CS :=
  follow (ig_index s) (batch_insert_unconfirmed (ig_graph s) txs).

(** ** Blocks *)

Section blocks.
Context `{!Blocks, !FromTxPos A}.

Definition anchor_in_block (block : ChainBlock) (height tx_pos : N) : A :=
  from_tx_pos (mkTxPosInBlock block (mkBlockId height (block_hash block)) tx_pos).

(** One transaction of [apply_block_relevant]. *)
Definition block_tx_if_relevant (block : ChainBlock) (height : N)
    (acc : IndexedTxGraph A X * CS) (p : N * Transaction) : IndexedTxGraph A X * CS :=
  let '(x, c) := index_tx (ig_index acc.1) p.2 in
  let s := mkIndexedTxGraph x (ig_graph acc.1) in
  let changeset := mkIndexedChangeSet (ics_tx_graph acc.2) (merge (ics_indexer acc.2) c) in
  if is_tx_or_conflict_relevant s p.2 then
    let '(g, c1) := insert_tx (ig_graph s) p.2 in
    let '(g, c2) := insert_anchor g (compute_txid p.2) (anchor_in_block block height p.1) in
    (mkIndexedTxGraph x g,
     mkIndexedChangeSet (merge (merge (ics_tx_graph changeset) c1) c2) (ics_indexer changeset))
  else (s, changeset).

Definition apply_block_relevant s (block : ChainBlock) (height : N) : IndexedTxGraph A X * CS :=
  foldl (block_tx_if_relevant block height) (s, merge_default) (enumerate (txdata block)).

Definition block_tx (block : ChainBlock) (height : N) (acc : TxGraph A * TxChangeSet A)
    (p : N * Transaction) : TxGraph A * TxChangeSet A :=
  let '(g, c1) := insert_anchor acc.1 (compute_txid p.2) (anchor_in_block block height p.1) in
  let '(g, c2) := insert_tx g p.2 in
  (g, merge (merge acc.2 c1) c2).

Definition apply_block s (block : ChainBlock) (height : N) : IndexedTxGraph A X * CS :=
  follow (ig_index s)
    (foldl (block_tx block height) (ig_graph s, TxChangeSet_default) (enumerate (txdata block))).
End blocks.

Definition ig_canonical_task s (chain_tip : BlockId) (params : CanonicalParams) :=
  canonical_task (ig_graph s) chain_tip params.
End indexed.
