(* ===== verification/IndexedSpec.v ===== *)
(** * Graph and index stay in step

    [IndexedTxGraph] promises that every transaction and floating output of the
    graph has been through the indexer.  For any indexer that satisfies
    [IndexerLaws], the index records exactly the graph's outputs that it
    watches, and every operation keeps that. *)
From S2P Require Import Prelude Block Tx TxGraph TxGraphFacts TxGraphFold TxGraphSpec ChainData CanonicalTask SpkIndex SpkSpec IndexedGraph.
#[local] Open Scope N_scope.

Section graph.
Context `{BitcoinLaws} {A : Type} `{Countable A} `{!TotalOrd A, !Anchor A, !AnchorLaws A} `{HashOrder}.
Implicit Types (g : TxGraph A) (cs : TxChangeSet A).

(** ** What a change set adds *)

Record graph_real g : Prop := {
  gr_wf : graph_wf g;
  gr_real : ∀ op o, get_txout g op = Some o → real_txout op o;
}.

(** The outputs a change set carries. *)
Definition carries cs (op : OutPoint) (o : TxOut) : Prop :=
  (∃ tx, tx ∈ cs_txs cs ∧ output_of tx op o) ∨ cs_txouts cs !! op = Some o.

(** [g'] is [g] with the outputs of [cs]. *)
Definition explains g cs g' : Prop :=
  graph_real g' ∧
  ∀ op o, get_txout g' op = Some o ↔ get_txout g op = Some o ∨ carries cs op o.

Lemma carries_default op o : ¬ carries TxChangeSet_default op o.
Proof. intros [(tx & ?%elem_of_empty & _)|Ho]; [done|]. cbn in Ho. by rewrite lookup_empty in Ho. Qed.

Lemma explains_same g cs g' :
  graph_real g → graph_wf g' → txs g' = txs g → cs_txs cs = ∅ → cs_txouts cs = ∅ → explains g cs g'.
Proof.
  intros Hg Hwf Ht H1' H2'. assert (∀ op, get_txout g' op = get_txout g op) as Hget.
  { intros op. unfold get_txout. by rewrite Ht. }
  split; [split; [done|]|]; intros op o; rewrite Hget; [apply Hg|].
  unfold carries. rewrite H1', H2', lookup_empty. set_solver.
Qed.

Lemma explains_refl g : graph_real g → explains g TxChangeSet_default g.
Proof. intros Hg. by apply explains_same; [|apply Hg|..]. Qed.

Lemma explains_carries_real g cs g' op o : explains g cs g' → carries cs op o → real_txout op o.
Proof. intros [Hg' Hex] Hc. apply (gr_real g' Hg'). apply Hex. by right. Qed.

Lemma carries_merge cs1 cs2 op o :
  (∀ a b, carries cs1 op a → carries cs2 op b → a = b) →
  carries (merge cs1 cs2) op o ↔ carries cs1 op o ∨ carries cs2 op o.
Proof.
  intros Hagree. unfold carries in *. cbn. rewrite lookup_union_Some_raw.
  setoid_rewrite elem_of_union. split; [naive_solver|].
  intros [[(t & ? & ?)|H1']|[(t & ? & ?)|?]]; [eauto 6| |eauto 6|eauto].
  destruct (cs_txouts cs2 !! op) as [b|] eqn:Hb; [|by eauto].
  right. left. f_equal. symmetry. apply Hagree; by right.
Qed.

Lemma explains_trans g0 cs1 g1 cs2 g2 :
  explains g0 cs1 g1 → explains g1 cs2 g2 → explains g0 (merge cs1 cs2) g2.
Proof.
  intros H1' H2'. split; [apply H2'|]. intros op o. rewrite carries_merge.
  - destruct H1' as [_ H1'], H2' as [_ H2']. rewrite H2', H1'. tauto.
  - intros a b Ha Hb. apply (explains_carries_real _ _ _ _ _ H1') in Ha.
    apply (explains_carries_real _ _ _ _ _ H2') in Hb. by eapply real_txout_fun.
Qed.

(** ** Each operation *)

Lemma get_txout_insert_tx g tx op o :
  graph_real g →
  get_txout (insert_tx g tx).1 op = Some o ↔ get_txout g op = Some o ∨ output_of tx op o.
Proof.
  intros Hg. unfold get_txout, output_of. rewrite insert_tx_txs.
  destruct (decide (compute_txid tx = op_txid op)) as [Heq|Hne].
  2: { rewrite lookup_insert_ne by done. naive_solver. }
  rewrite Heq, lookup_insert_eq.
  assert (tx_output (node_insert_tx (txs g !! op_txid op) tx) = tx_output tx) as ->.
  { apply txid_commits_outputs. rewrite <-Heq. apply node_insert_tx_txid, Hg. }
  split; [by right|]. intros [Ho|[_ Ho]]; [|done].
  assert (real_txout op o) as Hr by (apply (gr_real g Hg); exact Ho).
  destruct Hr as (t & Ht & Hto). rewrite <-Hto. f_equal. apply txid_commits_outputs. congruence.
Qed.

Lemma insert_tx_carries g tx :
  graph_real g →
  (∀ op o, carries (insert_tx g tx).2 op o → output_of tx op o) ∧
  (∀ op o, output_of tx op o → get_txout g op = Some o ∨ carries (insert_tx g tx).2 op o).
Proof.
  intros Hg. unfold insert_tx.
  assert (∀ t op o, compute_txid t = compute_txid tx → output_of t op o ↔ output_of tx op o) as Hout.
  { intros t op o Ht. unfold output_of. by rewrite Ht, (txid_commits_outputs _ _ Ht). }
  assert (∀ t op o, carries (mkTxChangeSet (A:=A) {[t]} ∅ ∅ ∅ ∅ ∅) op o ↔ output_of t op o) as Hone.
  { intros t op o. unfold carries. cbn. rewrite lookup_empty. set_solver. }
  destruct (txs g !! compute_txid tx) as [[e|m]|] eqn:Hn; cbn.
  - pose proof (wf_txid g (gr_wf g Hg) _ _ Hn) as He.
    assert (∀ op o, output_of tx op o → get_txout g op = Some o) as Hget.
    { intros op o. rewrite <-(Hout e) by done. intros [Hid Ho]. unfold get_txout.
      by rewrite Hid, He, Hn. }
    destruct (decide (e = tx)); cbn.
    { split; [by intros op o ?%carries_default|eauto]. }
    destruct (merge_tx_witnesses e tx) as [t|] eqn:Hm; cbn.
    2: { split; [by intros op o ?%carries_default|eauto]. }
    split; [|eauto]. intros op o. rewrite Hone. apply Hout.
    rewrite <-He. eapply merge_tx_witnesses_txid; [|done]. done.
  - split; intros op o; rewrite Hone; auto.
  - split; intros op o; rewrite Hone; auto.
Qed.

Lemma insert_tx_explains g tx :
  graph_real g → explains g (insert_tx g tx).2 (insert_tx g tx).1.
Proof.
  intros Hg. pose proof (get_txout_insert_tx g tx) as Hget.
  destruct (insert_tx_carries g tx Hg) as [Hc1 Hc2]. split.
  - split; [by apply insert_tx_wf, Hg|]. intros op o.
    rewrite Hget by done. intros [?|?]; [by apply Hg|by eapply output_of_real].
  - intros op o. rewrite Hget by done. naive_solver.
Qed.

Lemma insert_txout_carries g op o op' o' :
  carries (insert_txout g op o).2 op' o' → op' = op ∧ o' = o.
Proof.
  unfold insert_txout, carries. destruct (default _ _); cbn;
    [by rewrite lookup_empty; set_solver|].
  destruct (_ !! _); cbn; [by rewrite lookup_empty; set_solver|].
  rewrite lookup_singleton. case_decide; set_solver.
Qed.

Lemma insert_txout_explains g op o :
  graph_real g → real_txout op o → explains g (insert_txout g op o).2 (insert_txout g op o).1.
Proof.
  intros Hg Hr.
  assert (∀ op' o', get_txout (insert_txout g op o).1 op' = Some o' ↔
    get_txout g op' = Some o' ∨ carries (insert_txout g op o).2 op' o') as Hget.
  { intros op' o'. unfold insert_txout, get_txout, carries.
    destruct op as [t v], op' as [t' v']. cbn [op_txid op_vout].
    destruct (txs g !! t) as [[e|m]|] eqn:Hn; cbn [default fst snd].
    - cbn. rewrite lookup_empty. destruct (decide (t = t')) as [<-|Hne].
      + rewrite lookup_insert_eq, Hn. set_solver.
      + rewrite lookup_insert_ne by done. set_solver.
    - assert (∀ a, m !! v = Some a → a = o) as Hm.
      { intros a Ha. eapply real_txout_fun; [|exact Hr]. apply (gr_real g Hg).
        unfold get_txout. cbn. by rewrite Hn. }
      cbn. destruct (decide (t = t')) as [<-|Hne].
      + rewrite lookup_insert_eq, Hn, lookup_insert.
        destruct (m !! v) as [a|] eqn:Ha; cbn.
        * specialize (Hm a eq_refl) as ->. rewrite lookup_empty. case_decide; [subst|]; set_solver.
        * rewrite lookup_singleton. case_decide as Hd; case_decide as Hd'; try congruence;
            [subst; set_solver|]. set_solver.
      + rewrite lookup_insert_ne by done. destruct (m !! v); cbn.
        * rewrite lookup_empty. set_solver.
        * rewrite lookup_singleton_ne by congruence. set_solver.
    - cbn. rewrite lookup_empty. cbn. destruct (decide (t = t')) as [<-|Hne].
      + rewrite lookup_insert_eq, Hn, lookup_insert, lookup_empty, lookup_singleton.
        case_decide as Hd; case_decide as Hd'; try congruence; [subst; set_solver|]. set_solver.
      + rewrite lookup_insert_ne by done. rewrite lookup_singleton_ne by congruence. set_solver. }
  split; [|done]. split; [by apply insert_txout_wf, Hg|].
  intros op' o' [Ho|[-> ->]%insert_txout_carries]%Hget; [by apply Hg|done].
Qed.

(** ** Operations that leave the outputs alone *)

Lemma insert_anchor_explains g txid a :
  graph_real g → explains g (insert_anchor g txid a).2 (insert_anchor g txid a).1.
Proof.
  intros Hg. apply explains_same; [done|by apply insert_anchor_wf, Hg| | |].
  - apply insert_anchor_rest.
  - unfold insert_anchor. by repeat case_match.
  - unfold insert_anchor. by repeat case_match.
Qed.

Lemma insert_seen_at_explains g txid t :
  graph_real g → explains g (insert_seen_at g txid t).2 (insert_seen_at g txid t).1.
Proof.
  intros Hg. apply explains_same; [done|by apply insert_seen_at_wf, Hg| | |].
  - apply insert_seen_at_fields.
  - unfold insert_seen_at, update_first_seen, update_last_seen.
    repeat case_match; simplify_eq; cbn; set_solver.
  - unfold insert_seen_at, update_first_seen, update_last_seen.
    repeat case_match; simplify_eq; cbn; by rewrite (left_id_L ∅ (∪)).
Qed.

Lemma insert_evicted_at_explains g txid t :
  graph_real g → explains g (insert_evicted_at g txid t).2 (insert_evicted_at g txid t).1.
Proof.
  intros Hg. apply explains_same; [done|by apply insert_evicted_at_wf, Hg| | |].
  - apply insert_evicted_at_fields.
  - unfold insert_evicted_at. by repeat case_match.
  - unfold insert_evicted_at. by repeat case_match.
Qed.

(** ** Batches *)

(** Any fold of steps that explain themselves. *)
Lemma fold_explains {Y} (f : TxGraph A * TxChangeSet A → Y → TxGraph A * TxChangeSet A)
    g (l : list Y) acc :
  (∀ acc y, y ∈ l → explains g acc.2 acc.1 → explains g (f acc y).2 (f acc y).1) →
  explains g acc.2 acc.1 → explains g (foldl f acc l).2 (foldl f acc l).1.
Proof.
  revert acc. induction l as [|y l IH]; intros acc Hf Hacc; cbn [foldl]; [done|].
  apply IH; [intros; apply Hf; [by right|done]|]. apply Hf; [by left|done].
Qed.

Lemma insert_all_explains {Y} (op : TxGraph A → Y → TxGraph A * TxChangeSet A) g (l : list Y) acc :
  (∀ g y, y ∈ l → graph_real g → explains g (op g y).2 (op g y).1) →
  explains g acc.2 acc.1 → explains g (insert_all op l acc).2 (insert_all op l acc).1.
Proof.
  intros Hop. apply fold_explains. intros [g1 c1] y Hy Hacc. cbn.
  specialize (Hop g1 y Hy (proj1 Hacc)). destruct (op g1 y) as [g2 c2].
  exact (explains_trans _ _ _ _ _ Hacc Hop).
Qed.

Lemma batch_insert_unconfirmed_explains g l :
  graph_real g → explains g (batch_insert_unconfirmed g l).2 (batch_insert_unconfirmed g l).1.
Proof.
  intros Hg. apply fold_explains; [|by apply explains_refl]. intros [g1 c1] p _ Hacc. cbn.
  pose proof (insert_seen_at_explains g1 (compute_txid p.1) p.2 (proj1 Hacc)) as H1'.
  destruct (insert_seen_at g1 (compute_txid p.1) p.2) as [g2 c2].
  pose proof (insert_tx_explains g2 p.1 (proj1 H1')) as H2'.
  destruct (insert_tx g2 p.1) as [g3 c3].
  exact (explains_trans _ _ _ _ _ (explains_trans _ _ _ _ _ Hacc H1') H2').
Qed.

Lemma batch_insert_relevant_evicted_at_explains g l :
  graph_real g →
  explains g (batch_insert_relevant_evicted_at g l).2 (batch_insert_relevant_evicted_at g l).1.
Proof.
  intros Hg. apply fold_explains; [|by apply explains_refl]. intros [g1 c1] p _ Hacc. cbn.
  destruct (txs g1 !! p.1); [|done].
  pose proof (insert_evicted_at_explains g1 p.1 p.2 (proj1 Hacc)) as H1'.
  destruct (insert_evicted_at g1 p.1 p.2) as [g2 c2].
  exact (explains_trans _ _ _ _ _ Hacc H1').
Qed.

(** Floating outputs of an update or change set have to be real. *)
Definition real_txouts (m : gmap OutPoint TxOut) : Prop := ∀ op o, m !! op = Some o → real_txout op o.

Lemma apply_update_explains g u :
  graph_real g → real_txouts (tu_txouts u) →
  explains g (graph_apply_update g u).2 (graph_apply_update g u).1.
Proof.
  intros Hg Hu. unfold graph_apply_update.
  apply insert_all_explains; [by intros; apply insert_evicted_at_explains|].
  apply insert_all_explains; [by intros; apply insert_seen_at_explains|].
  apply insert_all_explains; [by intros; apply insert_anchor_explains|].
  apply insert_all_explains.
  - intros g' [op o] Hin Hg'. apply insert_txout_explains; [done|]. apply Hu.
    by apply elem_of_map_iter.
  - apply insert_all_explains; [|by apply explains_refl]. intros. by apply insert_tx_explains.
Qed.

(** ** Outputs after inserting *)

Lemma get_txout_insert_txout g op o op' o' :
  graph_real g → real_txout op o →
  get_txout (insert_txout g op o).1 op' = Some o' ↔
  get_txout g op' = Some o' ∨ (op' = op ∧ o' = o).
Proof.
  intros Hg Hr. destruct (insert_txout_explains g op o Hg Hr) as [Hg' Hex]. rewrite Hex.
  split; [intros [?|?%insert_txout_carries]; auto|].
  intros [?|[-> ->]]; [by left|]. rewrite <-Hex. unfold get_txout. rewrite insert_txout_txs.
  rewrite lookup_insert_eq. destruct (txs g !! op_txid op) as [[e|m]|] eqn:Hn; cbn.
  - destruct Hr as (t & Ht & Ho). rewrite <-Ho. f_equal. apply txid_commits_outputs.
    rewrite Ht. by apply (wf_txid g (gr_wf g Hg)).
  - apply lookup_insert_eq.
  - apply lookup_singleton_eq.
Qed.

Lemma fold_txs_get g l :
  graph_real g → graph_real (fold_txs g l) ∧
  ∀ op o, get_txout (fold_txs g l) op = Some o ↔
    get_txout g op = Some o ∨ ∃ tx, tx ∈ l ∧ output_of tx op o.
Proof.
  unfold fold_txs. revert g. induction l as [|t l IH]; intros g Hg; cbn [foldl].
  { split; [done|]. setoid_rewrite elem_of_nil. naive_solver. }
  destruct (IH (insert_tx g t).1) as [Hr Hget]; [apply (insert_tx_explains g t Hg)|].
  split; [done|]. intros op o. rewrite Hget, get_txout_insert_tx by done.
  setoid_rewrite elem_of_cons. naive_solver.
Qed.

Lemma fold_txouts_get g l :
  graph_real g → (∀ op o, (op, o) ∈ l → real_txout op o) →
  graph_real (fold_txouts g l) ∧
  ∀ op o, get_txout (fold_txouts g l) op = Some o ↔ get_txout g op = Some o ∨ (op, o) ∈ l.
Proof.
  unfold fold_txouts. revert g. induction l as [|[p q] l IH]; intros g Hg Hl; cbn [foldl].
  { split; [done|]. setoid_rewrite elem_of_nil. naive_solver. }
  assert (real_txout p q) as Hr by (apply Hl; by left).
  destruct (IH (insert_txout g p q).1) as [Hr' Hget].
  { apply (insert_txout_explains g p q Hg Hr). }
  { intros op o ?. apply Hl. by right. }
  split; [done|]. intros op o. rewrite Hget. cbn [fst snd].
  rewrite get_txout_insert_txout by done. setoid_rewrite elem_of_cons. naive_solver.
Qed.

Lemma get_txout_same g g' op : txs g' = txs g → get_txout g' op = get_txout g op.
Proof. intros Ht. unfold get_txout. by rewrite Ht. Qed.

Lemma graph_real_same g g' : graph_real g → graph_wf g' → txs g' = txs g → graph_real g'.
Proof.
  intros Hg Hwf Ht. split; [done|]. intros op o. rewrite (get_txout_same g g' op Ht). apply Hg.
Qed.

Lemma apply_changeset_get g cs :
  graph_real g → real_txouts (cs_txouts cs) →
  graph_real (graph_apply_changeset g cs) ∧
  ∀ op o, get_txout (graph_apply_changeset g cs) op = Some o ↔
    get_txout g op = Some o ∨ carries cs op o.
Proof.
  intros Hg Hcs. destruct (fold_txs_get g (set_iter (cs_txs cs)) Hg) as [Hg1 Hget1].
  destruct (fold_txouts_get (fold_txs g (set_iter (cs_txs cs))) (map_iter (cs_txouts cs)) Hg1)
    as [Hg2 Hget2]; [intros op o Hin%elem_of_map_iter; by apply Hcs|].
  assert (txs (graph_apply_changeset g cs) =
    txs (fold_txouts (fold_txs g (set_iter (cs_txs cs))) (map_iter (cs_txouts cs)))) as Ht.
  { apply (fold_all_fields g (set_iter (cs_txs cs)) (map_iter (cs_txouts cs))
      (set_iter (cs_anchors cs)) (map_iter (cs_last_seen cs)) (map_iter (cs_last_evicted cs))). }
  split.
  - eapply graph_real_same; [exact Hg2| |exact Ht]. by apply apply_changeset_wf, Hg.
  - intros op o. rewrite (get_txout_same _ _ op Ht), Hget2, Hget1. unfold carries.
    setoid_rewrite elem_of_set_iter. rewrite elem_of_map_iter. naive_solver.
Qed.

Lemma graph_real_default : graph_real (TxGraph_default : TxGraph A).
Proof. split; [apply graph_wf_default|]. intros op o. unfold get_txout. cbn. by rewrite lookup_empty. Qed.
End graph.

Section indexed.
Context `{BitcoinLaws} {A : Type} `{Countable A} `{!TotalOrd A, !Anchor A, !AnchorLaws A} `{HashOrder}.
Context `{!Indexer X, !IndexerLaws X}.
Implicit Types (s : IndexedTxGraph A X) (x : X) (g : TxGraph A).
Notation IC := (IndexChangeSet (X:=X)).

(** The index has recorded exactly the outputs of the graph that it watches. *)
Record synced s : Prop := {
  sy_ok : index_ok (ig_index s);
  sy_real : graph_real (ig_graph s);
  sy_recorded : ∀ op o, recorded (ig_index s) op o ↔
    get_txout (ig_graph s) op = Some o ∧ watches (ig_index s) o;
}.

(** [x'] is [x] after being fed the outputs in [P]. *)
Record fed x (P : OutPoint → TxOut → Prop) x' : Prop := {
  fed_ok : index_ok x';
  fed_watches : ∀ o, watches x' o ↔ watches x o;
  fed_recorded : ∀ op o, recorded x' op o ↔ recorded x op o ∨ (P op o ∧ watches x o);
}.

Lemma index_txs_fed x l (c : IC) :
  index_ok x → fed x (λ op o, ∃ tx, tx ∈ l ∧ output_of tx op o) (index_txs l (x, c)).1.
Proof.
  unfold index_txs. revert x c. induction l as [|t l IH]; intros x c Hx; cbn [foldl].
  { split; [done..|]. setoid_rewrite elem_of_nil. naive_solver. }
  pose proof (index_tx_ok x t Hx) as Ho. pose proof (index_tx_watches x t) as Hw.
  pose proof (index_tx_recorded x t) as Hr. cbn [fst snd].
  destruct (index_tx x t) as [x1 c1]. cbn [fst snd] in *.
  destruct (IH x1 (merge c c1) Ho) as [Ho' Hw' Hr']. split; [done|by intros; rewrite Hw', Hw|].
  intros op o. rewrite Hr', Hr, Hw by done. setoid_rewrite elem_of_cons. naive_solver.
Qed.

Lemma index_txouts_fed x l (c : IC) :
  index_ok x → (∀ op o, (op, o) ∈ l → real_txout op o) →
  fed x (λ op o, (op, o) ∈ l) (index_txouts l (x, c)).1.
Proof.
  unfold index_txouts. revert x c. induction l as [|[p q] l IH]; intros x c Hx Hl; cbn [foldl].
  { split; [done..|]. setoid_rewrite elem_of_nil. naive_solver. }
  assert (real_txout p q) as Hpq by (apply Hl; by left).
  pose proof (index_txout_ok x p q Hx Hpq) as Ho. pose proof (index_txout_watches x p q) as Hw.
  pose proof (index_txout_recorded x p q) as Hr. cbn [fst snd].
  destruct (index_txout x p q) as [x1 c1]. cbn [fst snd] in *.
  destruct (IH x1 (merge c c1) Ho) as [Ho' Hw' Hr']; [intros op o ?; apply Hl; by right|].
  split; [done|by intros; rewrite Hw', Hw|].
  intros op o. rewrite Hr', Hr, Hw by done. rewrite elem_of_cons. naive_solver.
Qed.

Lemma fed_trans x P x1 Q x2 : fed x P x1 → fed x1 Q x2 → fed x (λ op o, P op o ∨ Q op o) x2.
Proof.
  intros [O1 W1 R1] [O2 W2 R2]. split; [done|by intros; rewrite W2, W1|].
  intros op o. rewrite R2, R1, W1. tauto.
Qed.

(** Feeding the outputs a graph has gained keeps graph and index in step. *)
Lemma fed_synced x g x' g' P :
  synced (mkIndexedTxGraph x g) → fed x P x' → graph_real g' →
  (∀ op o, watches x o → get_txout g' op = Some o ↔ get_txout g op = Some o ∨ P op o) →
  synced (mkIndexedTxGraph x' g').
Proof.
  intros [Ho Hr Hs] [O W R] Hg' Hget. split; cbn in *; [done..|].
  intros op o. rewrite R, W, Hs. specialize (Hget op o). tauto.
Qed.

Lemma graph_only_synced s g' :
  synced s → graph_wf g' → txs g' = txs (ig_graph s) → synced (mkIndexedTxGraph (ig_index s) g').
Proof.
  intros [Ho Hr Hs] Hwf Ht. split; cbn; [done|by eapply graph_real_same|].
  intros op o. by rewrite (get_txout_same _ _ op Ht).
Qed.

Lemma follow_synced s (p : TxGraph A * TxChangeSet A) :
  synced s → explains (ig_graph s) p.2 p.1 → synced (follow (ig_index s) p).1.
Proof.
  intros Hs Hex. destruct p as [g' cs]. unfold follow. cbn [fst snd] in *.
  destruct (index_tx_graph_changeset (ig_index s) cs) as [x' c] eqn:Hx. cbn [fst].
  destruct s as [x g]. cbn in *. eapply fed_synced; [exact Hs| |apply Hex|].
  2: { intros op o _. apply Hex. }
  unfold index_tx_graph_changeset in Hx.
  pose proof (index_txs_fed x (set_iter (cs_txs cs)) merge_default (sy_ok _ Hs)) as H1'.
  destruct (index_txs (set_iter (cs_txs cs)) (x, merge_default)) as [x1 c1]. cbn [fst] in H1'.
  pose proof (index_txouts_fed x1 (map_iter (cs_txouts cs)) c1 (fed_ok _ _ _ H1')) as H2'.
  rewrite Hx in H2'. cbn [fst] in H2'. destruct H2' as [O W R].
  { intros op o Hin%elem_of_map_iter. eapply explains_carries_real; [exact Hex|]. by right. }
  destruct H1' as [O1 W1 R1]. split; [done|by intros; rewrite W, W1|].
  intros op o. rewrite R, R1, W1, elem_of_map_iter. unfold carries.
  setoid_rewrite elem_of_set_iter. tauto.
Qed.
End indexed.
