(* ===== verification/IndexedSync.v ===== *)
(** * What the indexed graph promises

    Every operation keeps graph and index in step; loading a persisted graph
    gives back the same records; relevance filtering drops only transactions
    without a watched or spent output and without a relevant conflict. *)
From S2P Require Import Prelude Block Tx TxGraph TxGraphFacts TxGraphFold TxSamples TxGraphSpec ChainData CanonicalTask SpkIndex SpkSpec IndexedGraph IndexedSpec.
#[local] Open Scope N_scope.

Section indexed.
Context `{BitcoinLaws} {A : Type} `{Countable A} `{!TotalOrd A, !Anchor A, !AnchorLaws A} `{HashOrder}.
Context `{!Indexer X, !IndexerLaws X}.
Implicit Types (s : IndexedTxGraph A X) (x : X) (g : TxGraph A).
Notation IC := (IndexChangeSet (X:=X)).

(** ** Inserting what is relevant *)

(** [g'] is [g] with some of the transactions [l]. *)
Record grown g (l : list Transaction) g' : Prop := {
  gn_real : graph_real g';
  gn_old : ∀ op o, get_txout g op = Some o → get_txout g' op = Some o;
  gn_new : ∀ op o, get_txout g' op = Some o →
    get_txout g op = Some o ∨ ∃ tx, tx ∈ l ∧ output_of tx op o;
}.

Lemma insert_tx_anchors_txs g tx (l : list A) acc :
  txs (insert_all (λ g a, insert_anchor g (compute_txid tx) a) l acc).1 = txs acc.1 ∧
  (graph_wf acc.1 →
    graph_wf (insert_all (λ g a, insert_anchor g (compute_txid tx) a) l acc).1).
Proof.
  rewrite insert_all_fst. generalize acc.1. clear acc g. induction l as [|a l IH]; intros g; [done|].
  cbn [foldl]. destruct (IH (insert_anchor g (compute_txid tx) a).1) as [-> Hwf].
  split; [apply insert_anchor_rest|]. intros Hg. by apply Hwf, insert_anchor_wf.
Qed.

Lemma insert_if_relevant_grown x acc p :
  graph_real acc.1 →
  let acc' := insert_if_relevant x acc p in
  grown acc.1 [p.1] acc'.1 ∧
  (is_tx_relevant x p.1 = true → ∀ op o, output_of p.1 op o → get_txout acc'.1 op = Some o).
Proof.
  intros Hg. unfold insert_if_relevant. cbv zeta.
  destruct (is_tx_or_conflict_relevant _ _) eqn:Hrel.
  2: { split; [split; auto|]. intros Hx. unfold is_tx_or_conflict_relevant in Hrel. cbn in Hrel.
       by rewrite Hx in Hrel. }
  destruct acc as [g c]. cbn [fst snd] in *.
  pose proof (insert_tx_explains g p.1 Hg) as [Hg' _]. pose proof (get_txout_insert_tx g p.1) as Hget.
  destruct (insert_tx g p.1) as [g1 c1]. cbn [fst snd] in *.
  destruct (insert_tx_anchors_txs g1 p.1 p.2 (g1, merge c c1)) as [Ht Hwf].
  set (acc' := insert_all _ _ _) in *. cbn [fst] in *.
  assert (∀ op, get_txout acc'.1 op = get_txout g1 op) as Hget' by (intros; by apply get_txout_same).
  split; [split|].
  - eapply graph_real_same; [exact Hg'|apply Hwf, Hg'|exact Ht].
  - intros op o Ho. rewrite Hget', Hget by done. by left.
  - intros op o. rewrite Hget', Hget by done. intros [?|?]; [by left|right].
    exists p.1. split; [by apply list_elem_of_singleton|done].
  - intros _ op o Ho. rewrite Hget', Hget by done. by right.
Qed.

Lemma insert_relevant_grown x l acc :
  graph_real acc.1 →
  let acc' := foldl (insert_if_relevant x) acc l in
  grown acc.1 l.*1 acc'.1 ∧
  (∀ p, p ∈ l → is_tx_relevant x p.1 = true →
    ∀ op o, output_of p.1 op o → get_txout acc'.1 op = Some o).
Proof.
  cbv zeta. revert acc. induction l as [|p l IH]; intros acc Hg; cbn [foldl].
  { split; [by split; auto|]. intros p ?%elem_of_nil. done. }
  destruct (insert_if_relevant_grown x acc p Hg) as [[R1 O1 N1] T1].
  destruct (IH (insert_if_relevant x acc p) R1) as [[R2 O2 N2] T2]. split; [split; [done|auto|]|].
  - intros op o Ho. rewrite fmap_cons. setoid_rewrite elem_of_cons.
    apply N2 in Ho as [Ho|(t & ? & ?)]; [|eauto].
    apply N1 in Ho as [Ho|(t & Ht & ?)]; [by left|].
    apply list_elem_of_singleton in Ht as ->. eauto.
  - intros q [->|Hq]%elem_of_cons Hrel op o Ho; [by apply O2, T1|by eapply T2].
Qed.

(** A transaction with an output the index watches is relevant. *)
Lemma watched_relevant x tx op o : output_of tx op o → watches x o → is_tx_relevant x tx = true.
Proof.
  intros [_ Ho] Hw. apply is_tx_relevant_iff. right. exists o. split; [|done].
  by apply list_elem_of_lookup_2 in Ho.
Qed.

(** All of [l] fed to the index, some of [l] inserted in the graph. *)
Lemma fed_grown_synced x g x' g' l :
  synced (mkIndexedTxGraph x g) → fed x (λ op o, ∃ tx, tx ∈ l ∧ output_of tx op o) x' →
  grown g l g' →
  (∀ tx, tx ∈ l → is_tx_relevant x' tx = true → ∀ op o, output_of tx op o → get_txout g' op = Some o) →
  synced (mkIndexedTxGraph x' g').
Proof.
  intros Hs Hfed [Hr Hold Hnew] Hrel. eapply fed_synced; [done|done|done|].
  intros op o Hw. split; [apply Hnew|]. intros [?|(tx & Hin & Ho)]; [by apply Hold|].
  eapply Hrel; [done| |done]. eapply watched_relevant; [done|]. by apply (fed_watches _ _ _ Hfed).
Qed.

Lemma batch_insert_relevant_synced s l : synced s → synced (batch_insert_relevant s l).1.
Proof.
  intros Hs. unfold batch_insert_relevant. destruct s as [x g]. cbn [ig_index ig_graph].
  pose proof (index_txs_fed x l.*1 merge_default (sy_ok _ Hs)) as Hfed.
  destruct (index_txs l.*1 (x, merge_default)) as [x' c]. cbn [fst] in Hfed.
  destruct (insert_relevant_grown x' l (g, TxChangeSet_default) (sy_real _ Hs)) as [Hgrown Hrel].
  destruct (foldl _ _ _) as [g' cs]. cbn [fst] in *.
  eapply fed_grown_synced; [done|done|done|].
  intros tx (p & -> & Hp)%list_elem_of_fmap. by apply Hrel.
Qed.

(** ** Unconfirmed batches *)

Lemma batch_insert_unconfirmed_grown g l :
  graph_real g →
  grown g l.*1 (batch_insert_unconfirmed g l).1 ∧
  ∀ tx op o, tx ∈ l.*1 → output_of tx op o →
    get_txout (batch_insert_unconfirmed g l).1 op = Some o.
Proof.
  unfold batch_insert_unconfirmed. generalize (TxChangeSet_default : TxChangeSet A).
  revert g. induction l as [|p l IH]; intros g c Hg; cbn [foldl].
  { split; [by split; auto|]. by intros tx op o ?%elem_of_nil. }
  pose proof (insert_seen_at_explains g (compute_txid p.1) p.2 Hg) as [Hg1 _].
  pose proof (proj1 (proj2 (proj2 (insert_seen_at_fields g (compute_txid p.1) p.2)))) as Ht.
  cbn [fst snd]. destruct (insert_seen_at g (compute_txid p.1) p.2) as [g1 c1]. cbn [fst snd] in *.
  pose proof (insert_tx_explains g1 p.1 Hg1) as [Hg2 _].
  pose proof (get_txout_insert_tx g1 p.1) as Hget.
  destruct (insert_tx g1 p.1) as [g2 c2]. cbn [fst snd] in *.
  assert (∀ op o, get_txout g2 op = Some o ↔ get_txout g op = Some o ∨ output_of p.1 op o) as Hg2'.
  { intros op o. rewrite Hget by done. by rewrite (get_txout_same g g1 op Ht). }
  destruct (IH g2 (merge (merge c c1) c2) Hg2) as [[R O N] T]. split; [split; [done| |]|].
  - intros op o Ho. apply O, Hg2'. by left.
  - intros op o Ho. rewrite fmap_cons. setoid_rewrite elem_of_cons.
    apply N in Ho as [Ho|(t & ? & ?)]; [|eauto]. apply Hg2' in Ho as [?|?]; eauto.
  - intros tx op o. rewrite fmap_cons, elem_of_cons. intros [->|Hin] Ho; [|by eapply T].
    apply O, Hg2'. by right.
Qed.

Lemma batch_insert_relevant_unconfirmed_synced s l :
  synced s → synced (batch_insert_relevant_unconfirmed s l).1.
Proof.
  intros Hs. unfold batch_insert_relevant_unconfirmed. destruct s as [x g]. cbn [ig_index ig_graph].
  pose proof (index_txs_fed x l.*1 merge_default (sy_ok _ Hs)) as Hfed.
  destruct (index_txs l.*1 (x, merge_default)) as [x' c]. cbn [fst] in Hfed.
  set (l' := filter _ l). destruct (batch_insert_unconfirmed_grown g l' (sy_real _ Hs)) as [[R O N] T].
  destruct (batch_insert_unconfirmed g l') as [g' cs]. cbn [fst] in *.
  eapply fed_grown_synced; [done|done|split; [done|done|]|].
  - intros op o Ho. apply N in Ho as [?|(t & Hin & ?)]; [by left|]. right. exists t. split; [|done].
    apply list_elem_of_fmap in Hin as (p & -> & Hp). apply list_elem_of_fmap_2.
    by apply list_elem_of_filter in Hp as [_ ?].
  - intros tx (p & -> & Hp)%list_elem_of_fmap Hrel op o Ho. eapply T; [|done].
    apply list_elem_of_fmap_2, list_elem_of_filter. split; [|done].
    unfold is_tx_or_conflict_relevant. cbn. by rewrite Hrel.
Qed.

(** ** Blocks *)

Section blocks.
Context `{!Blocks, !FromTxPos A}.

Lemma block_tx_if_relevant_synced block height acc p :
  synced acc.1 → synced (block_tx_if_relevant block height acc p).1.
Proof.
  intros Hs. unfold block_tx_if_relevant. destruct acc as [[x g] cs]. cbn [fst snd ig_index ig_graph] in *.
  pose proof (index_txs_fed x [p.2] merge_default (sy_ok _ Hs)) as Hfed. cbn in Hfed.
  destruct (index_tx x p.2) as [x' c]. cbn [fst snd] in Hfed.
  set (s' := mkIndexedTxGraph x' g).
  destruct (is_tx_or_conflict_relevant s' p.2) eqn:Hrel; cbn [ig_graph s'].
  - pose proof (insert_tx_explains g p.2 (sy_real _ Hs)) as [Hg1 _].
    pose proof (get_txout_insert_tx g p.2) as Hget.
    destruct (insert_tx g p.2) as [g1 c1]. cbn [fst snd] in *.
    set (a := anchor_in_block block height p.1).
    pose proof (insert_anchor_wf g1 (compute_txid p.2) a (gr_wf _ Hg1)) as Hwf.
    pose proof (proj1 (insert_anchor_rest g1 (compute_txid p.2) a)) as Ht.
    destruct (insert_anchor g1 (compute_txid p.2) a) as [g2 c2]. cbn [fst snd] in *.
    eapply fed_synced; [done|done|by eapply graph_real_same|].
    intros op o _. rewrite (get_txout_same g1 g2 op Ht), Hget by apply Hs.
    setoid_rewrite list_elem_of_singleton. naive_solver.
  - cbn [fst]. eapply fed_grown_synced; [done|done| |].
    + split; [apply Hs|auto|auto].
    + intros tx ->%list_elem_of_singleton Hr. unfold is_tx_or_conflict_relevant in Hrel.
      cbn in Hrel. by rewrite Hr in Hrel.
Qed.

Lemma apply_block_relevant_synced s block height :
  synced s → synced (apply_block_relevant s block height).1.
Proof.
  intros Hs. unfold apply_block_relevant. set (acc := (s, merge_default)).
  assert (synced acc.1) as Hacc by done. generalize (enumerate (txdata block)). clearbody acc.
  intros l. revert acc Hacc. induction l as [|p l IH]; intros acc Hacc; cbn [foldl]; [done|].
  by apply IH, block_tx_if_relevant_synced.
Qed.

Lemma apply_block_synced s block height : synced s → synced (apply_block s block height).1.
Proof.
  intros Hs. apply follow_synced; [done|].
  apply fold_explains; [|by apply explains_refl, Hs]. intros [g c] p _ Hacc. unfold block_tx.
  cbn [fst snd] in *. set (a := anchor_in_block block height p.1).
  pose proof (insert_anchor_explains g (compute_txid p.2) a (proj1 Hacc)) as H1'.
  destruct (insert_anchor g (compute_txid p.2) a) as [g1 c1]. cbn [fst snd] in *.
  pose proof (insert_tx_explains g1 p.2 (proj1 H1')) as H2'.
  destruct (insert_tx g1 p.2) as [g2 c2]. cbn [fst snd] in *.
  exact (explains_trans _ _ _ _ _ (explains_trans _ _ _ _ _ Hacc H1') H2').
Qed.
End blocks.

(** ** Loading *)

Lemma reindex_fed s :
  index_ok (ig_index s) → graph_real (ig_graph s) →
  fed (ig_index s) (λ op o, get_txout (ig_graph s) op = Some o) (ig_index (reindex s).1) ∧
  ig_graph (reindex s).1 = ig_graph s.
Proof.
  intros Hx Hg. unfold reindex. cbv zeta. cbn [fst ig_index ig_graph]. split; [|done].
  set (g := ig_graph s) in *.
  pose proof (index_txs_fed (ig_index s) (node_tx <$> full_txs g) merge_default Hx) as H1'.
  destruct (index_txs (node_tx <$> full_txs g) (ig_index s, merge_default)) as [x1 c1].
  cbn [fst] in H1'.
  assert (∀ op o, (op, o) ∈ floating_txouts g → get_txout g op = Some o) as Hfloat.
  { intros op o (m & Hm & Ho)%elem_of_floating_txouts. unfold get_txout. by rewrite Hm. }
  destruct (index_txouts_fed x1 (floating_txouts g) c1 (fed_ok _ _ _ H1')) as [O2 W2 R2].
  { intros op o ?. by apply (gr_real g Hg), Hfloat. }
  destruct H1' as [O1 W1 R1]. split; [done|by intros; rewrite W2, W1|].
  intros op o. rewrite R2, R1, W1.
  enough (((∃ tx, tx ∈ node_tx <$> full_txs g ∧ output_of tx op o) ∨ (op, o) ∈ floating_txouts g) ↔
    get_txout g op = Some o) by tauto.
  setoid_rewrite elem_of_full_txs. rewrite elem_of_floating_txouts. unfold get_txout. split.
  - intros [(tx & (k & Hk) & Hid & Ho)|(m & Hm & Ho)]; [|by rewrite Hm].
    rewrite (wf_txid g (gr_wf g Hg) _ _ Hk) in Hid. by rewrite Hid, Hk.
  - destruct (txs g !! op_txid op) as [[tx|m]|] eqn:Hn; intros Ho; [|right; by exists m|done].
    left. exists tx. split; [by eexists|]. split; [|done]. symmetry.
    by apply (wf_txid g (gr_wf g Hg)).
Qed.

(** Nothing is recorded that the graph does not have. *)
Definition behind s : Prop :=
  index_ok (ig_index s) ∧ graph_real (ig_graph s) ∧
  ∀ op o, recorded (ig_index s) op o →
    get_txout (ig_graph s) op = Some o ∧ watches (ig_index s) o.

Lemma reindex_synced s : behind s → synced (reindex s).1.
Proof.
  intros (Hx & Hg & Hb). destruct (reindex_fed s Hx Hg) as [[O W R] Heq].
  split; [done|by rewrite Heq|]. intros op o. rewrite Heq, R, W. specialize (Hb op o). tauto.
Qed.

(** An indexer whose change sets leave records and watched outputs alone. *)
Definition inert_changesets : Prop := ∀ x c, index_ok x →
  fed x (λ _ _, False) (index_apply_changeset x c).

Lemma apply_changeset_synced s cs :
  inert_changesets → synced s → real_txouts (cs_txouts (ics_tx_graph cs)) →
  synced (ig_apply_changeset s cs).
Proof.
  intros Hinert Hs Hcs. unfold ig_apply_changeset. destruct s as [x g]. cbn [ig_index ig_graph].
  destruct (apply_changeset_get g (ics_tx_graph cs) (sy_real _ Hs) Hcs) as [Hg' Hget].
  pose proof (Hinert x (ics_indexer cs) (sy_ok _ Hs)) as H0'.
  set (x0 := index_apply_changeset x (ics_indexer cs)) in *.
  pose proof (index_txs_fed x0 (set_iter (cs_txs (ics_tx_graph cs))) merge_default
    (fed_ok _ _ _ H0')) as H1'.
  set (x1 := (index_txs _ _).1) in *.
  pose proof (index_txouts_fed x1 (map_iter (cs_txouts (ics_tx_graph cs))) merge_default
    (fed_ok _ _ _ H1')) as H2'.
  eapply fed_synced; [exact Hs|eapply fed_trans; [eapply fed_trans; [exact H0'|exact H1']|apply H2']| |].
  - intros op o Hin%elem_of_map_iter. by apply Hcs.
  - done.
  - intros op o _. rewrite Hget. unfold carries. setoid_rewrite elem_of_set_iter.
    rewrite elem_of_map_iter. tauto.
Qed.

Lemma batch_evicted_txs g l : txs (batch_insert_relevant_evicted_at g l).1 = txs g.
Proof.
  unfold batch_insert_relevant_evicted_at. generalize (TxChangeSet_default : TxChangeSet A).
  revert g. induction l as [|p l IH]; intros g c; cbn [foldl]; [done|]. cbn [fst snd].
  destruct (txs g !! p.1); [|apply IH].
  pose proof (proj1 (proj2 (insert_evicted_at_fields g p.1 p.2))) as Ht.
  destruct (insert_evicted_at g p.1 p.2) as [g1 c1]. cbn [fst] in Ht. by rewrite IH.
Qed.

(** ** The contract *)

(** C5. The graph and the index of an [IndexedTxGraph] stay in step: whatever
    indexer keeps what it is fed, after every operation it has recorded exactly
    the outputs of the graph that it watches, spent or not, of whole
    transactions and floating ones alike. *)
Theorem indexed_graph_in_sync `{!Blocks, !FromTxPos A} s :
  synced s →
  (∀ u, real_txouts (tu_txouts u) → synced (ig_apply_update s u).1) ∧
  (∀ op o, real_txout op o → synced (ig_insert_txout s op o).1) ∧
  (∀ tx, synced (ig_insert_tx s tx).1) ∧
  (∀ txid a, synced (ig_insert_anchor s txid a).1) ∧
  (∀ txid t, synced (ig_insert_seen_at s txid t).1) ∧
  (∀ txid t, synced (ig_insert_evicted_at s txid t).1) ∧
  (∀ l, synced (ig_batch_insert_relevant_evicted_at s l).1) ∧
  (∀ l, synced (batch_insert_relevant s l).1) ∧
  (∀ l, synced (batch_insert_relevant_unconfirmed s l).1) ∧
  (∀ l, synced (ig_batch_insert_unconfirmed s l).1) ∧
  (∀ block height, synced (apply_block_relevant s block height).1) ∧
  (∀ block height, synced (apply_block s block height).1) ∧
  synced (reindex s).1 ∧
  (inert_changesets → ∀ cs, real_txouts (cs_txouts (ics_tx_graph cs)) →
    synced (ig_apply_changeset s cs)).
Proof.
  intros Hs. pose proof (sy_real s Hs) as Hg. split_and!; intros.
  - by apply follow_synced, apply_update_explains.
  - by apply follow_synced, insert_txout_explains.
  - by apply follow_synced, insert_tx_explains.
  - apply graph_only_synced; [done|by apply insert_anchor_wf, Hg|apply insert_anchor_rest].
  - apply graph_only_synced; [done|by apply insert_seen_at_wf, Hg|apply insert_seen_at_fields].
  - apply graph_only_synced; [done|by apply insert_evicted_at_wf, Hg|apply insert_evicted_at_fields].
  - apply graph_only_synced; [done|by apply (batch_insert_relevant_evicted_at_explains _ l Hg)|].
    apply batch_evicted_txs.
  - by apply batch_insert_relevant_synced.
  - by apply batch_insert_relevant_unconfirmed_synced.
  - by apply follow_synced, batch_insert_unconfirmed_explains.
  - by apply apply_block_relevant_synced.
  - by apply apply_block_synced.
  - apply reindex_synced. split; [apply Hs|]. split; [done|]. intros op o. by apply sy_recorded.
  - by apply apply_changeset_synced.
Qed.

(** Saving an indexed graph in step and loading it through an indexer that
    watches the same outputs gives back the graph (with first-seen times as in
    the graph's own round trip) and the records of the index. *)
Theorem indexed_graph_reload {E} s (restore : IC → result E X) x0 :
  synced s →
  restore (index_initial_changeset (ig_index s)) = Ok x0 → index_ok x0 →
  (∀ op o, ¬ recorded x0 op o) → (∀ o, watches x0 o ↔ watches (ig_index s) o) →
  ∃ s' cs, ig_from_changeset (ig_initial_changeset s) restore = Ok (s', cs) ∧
    synced s' ∧ ig_graph s' = with_first_seen (ig_graph s) (last_seen (ig_graph s)) ∧
    ∀ op o, recorded (ig_index s') op o ↔ recorded (ig_index s) op o.
Proof.
  intros Hs Hrestore Hx0 Hempty Hw. set (g := ig_graph s).
  assert (Hwf : graph_wf (graph_from_changeset (graph_initial_changeset g)))
    by apply apply_changeset_wf, graph_wf_default.
  pose proof (graph_persist_roundtrip g (gr_wf g (sy_real s Hs))) as Hg0.
  assert (graph_real (graph_from_changeset (graph_initial_changeset g))) as Hreal.
  { eapply graph_real_same; [apply Hs|done|]. by rewrite Hg0. }
  set (s0 := mkIndexedTxGraph x0 (graph_from_changeset (graph_initial_changeset g))).
  destruct (reindex_fed s0 Hx0 Hreal) as [[O W R] Heq].
  exists (reindex s0).1, (reindex s0).2. split_and!.
  - unfold ig_from_changeset, ig_initial_changeset. cbn [ics_tx_graph ics_indexer].
    rewrite Hrestore. cbn. by destruct (reindex s0).
  - apply reindex_synced. split_and!; [done..|]. by intros op o ?%Hempty.
  - by rewrite Heq.
  - intros op o. rewrite R, (sy_recorded s Hs). cbn [s0 ig_index ig_graph]. rewrite Hw.
    rewrite (get_txout_same g); [|by rewrite Hg0]. specialize (Hempty op o). tauto.
Qed.
End indexed.

(** ** Which transactions of a batch are kept

    [batch_insert_relevant] keeps every transaction that pays or spends what the
    index watches, in whatever order the batch lists them, and nothing but these
    and their conflicts.  The conflicts kept do depend on the order. *)

Section relevance.
Context `{BitcoinLaws} {A : Type} `{Countable A} `{!TotalOrd A, !Anchor A, !AnchorLaws A} `{HashOrder}.
Context `{!Indexer X, !IndexerLaws X}.
Implicit Types (s : IndexedTxGraph A X) (x : X) (g : TxGraph A).

(** [tx] pays or spends an output watched in [s] or among the batch [l]. *)
Definition relevant s (l : list Transaction) (tx : Transaction) : Prop :=
  (∃ o, o ∈ tx_output tx ∧ watches (ig_index s) o) ∨
  ∃ op o, op ∈ tx_prevouts tx ∧ watches (ig_index s) o ∧
    (get_txout (ig_graph s) op = Some o ∨ ∃ t, t ∈ l ∧ output_of t op o).

Definition conflicting (t tx : Transaction) : Prop :=
  compute_txid t ≠ compute_txid tx ∧ ∃ op, op ∈ tx_prevouts t ∧ op ∈ tx_prevouts tx.

Lemma relevant_iff s l x' tx :
  synced s → fed (ig_index s) (λ op o, ∃ t, t ∈ l ∧ output_of t op o) x' →
  is_tx_relevant x' tx = true ↔ relevant s l tx.
Proof.
  intros Hs [_ W R]. rewrite is_tx_relevant_iff. unfold relevant.
  setoid_rewrite W. setoid_rewrite R. setoid_rewrite (sy_recorded s Hs). naive_solver.
Qed.

Lemma insert_tx_whole g tx k :
  is_whole (txs (insert_tx g tx).1 !! k) ↔ is_whole (txs g !! k) ∨ k = compute_txid tx.
Proof.
  rewrite insert_tx_txs, lookup_insert. destruct (decide (compute_txid tx = k)) as [<-|Hne].
  - split; [by right|]. intros _. by eexists.
  - split; [by left|]. by intros [?| ->].
Qed.

Lemma conflict_relevant_inv x g tx :
  graph_wf g → is_tx_or_conflict_relevant (mkIndexedTxGraph x g) tx = true →
  is_tx_relevant x tx = true ∨
  ∃ t, is_tx_relevant x t = true ∧ txs g !! compute_txid t = Some (Whole t) ∧ conflicting t tx.
Proof.
  intros Hg. unfold is_tx_or_conflict_relevant. cbn [ig_index ig_graph].
  rewrite orb_true_iff, existsb_exists. intros [?|(t & Ht%list_elem_of_In & Hrel)]; [by left|right].
  exists t. split; [done|]. apply list_elem_of_omap in Ht as ([n k] & Hc & Ht). cbn in Ht.
  unfold get_tx, get_tx_node in Ht. destruct (txs g !! k) as [[u|m]|] eqn:Hk; simplify_eq/=.
  pose proof (wf_txid g Hg _ _ Hk) as Hid. rewrite <-Hid in Hk. split; [done|].
  unfold direct_conflicts in Hc. apply list_elem_of_filter in Hc as [Hne Hc]. cbn in Hne.
  split; [congruence|].
  apply list_elem_of_bind in Hc as ([m i] & Hc & Hin). cbn in Hc.
  destruct (spends g !! previous_output i) as [sp|] eqn:Hsp; [|by apply elem_of_nil in Hc].
  apply list_elem_of_fmap in Hc as (k' & [= -> ->] & Hk'%elem_of_hash_iter).
  exists (previous_output i). split.
  - assert (k' ∈ outspends g (previous_output i)) as Ho by (unfold outspends; by rewrite Hsp).
    apply (wf_spends g Hg) in Ho as (u & Hu & Hu' & _). congruence.
  - apply elem_of_enumerate, list_elem_of_lookup_2 in Hin. by apply list_elem_of_fmap_2.
Qed.
(** What is kept of [l], the index being [x]. *)
Record kept x (l : list (Transaction * list A)) g g' : Prop := {
  kp_whole : ∀ k, is_whole (txs g !! k) → is_whole (txs g' !! k);
  kp_anchors : ∀ k a, a ∈ anchors_of g k → a ∈ anchors_of g' k;
  kp_relevant : ∀ p, p ∈ l → is_tx_relevant x p.1 = true →
    is_whole (txs g' !! compute_txid p.1) ∧ ∀ a, a ∈ p.2 → a ∈ anchors_of g' (compute_txid p.1);
  kp_new : ∀ k, is_whole (txs g' !! k) → is_whole (txs g !! k) ∨
    ∃ p, p ∈ l ∧ k = compute_txid p.1 ∧
      (is_tx_relevant x p.1 = true ∨
       ∃ t, is_tx_relevant x t = true ∧ is_whole (txs g' !! compute_txid t) ∧ conflicting t p.1);
}.

Lemma insert_if_relevant_kept x acc p :
  graph_wf acc.1 → kept x [p] acc.1 (insert_if_relevant x acc p).1 ∧
  graph_wf (insert_if_relevant x acc p).1.
Proof.
  intros Hg. unfold insert_if_relevant.
  destruct (is_tx_or_conflict_relevant (mkIndexedTxGraph x acc.1) p.1) eqn:Hrel.
  2: { split; [|done]. split; [done..| |by left]. intros q ->%list_elem_of_singleton Hx.
       unfold is_tx_or_conflict_relevant in Hrel. cbn in Hrel. by rewrite Hx in Hrel. }
  apply conflict_relevant_inv in Hrel; [|done].
  destruct acc as [g c]. cbn [fst snd] in *.
  pose proof (insert_tx_wf g p.1 Hg) as Hwf1. pose proof (insert_tx_whole g p.1) as Hwhole.
  pose proof (proj1 (insert_tx_rest g p.1)) as Hanch.
  destruct (insert_tx g p.1) as [g1 c1]. cbn [fst snd] in *.
  destruct (insert_tx_anchors_txs g1 p.1 p.2 (g1, merge c c1)) as [Ht Hwf].
  pose proof (fold_anchors_anchors g1 ((λ a, (a, compute_txid p.1)) <$> p.2)) as Ha.
  set (acc' := insert_all _ _ _) in *. cbn [fst] in *.
  assert (acc'.1 = fold_anchors g1 ((λ a, (a, compute_txid p.1)) <$> p.2)) as Hacc.
  { unfold acc', fold_anchors. by rewrite insert_all_fst, foldl_fmap. }
  rewrite <-Hacc in Ha. split; [split|by apply Hwf].
  - intros k Hk. rewrite Ht. apply Hwhole. by left.
  - intros k a. rewrite Ha. unfold anchors_of. rewrite Hanch. by left.
  - intros q ->%list_elem_of_singleton _. split; [rewrite Ht; apply Hwhole; by right|].
    intros a Hin. apply Ha. right. apply list_elem_of_fmap. by exists a.
  - intros k. rewrite Ht, Hwhole. intros [?| ->]; [by left|right]. exists p.
    split; [by apply list_elem_of_singleton|]. split; [done|].
    destruct Hrel as [?|(t & ? & Hin & ?)]; [by left|right]. exists t.
    split_and!; [done| |done]. apply Hwhole. left. by eexists.
Qed.

Lemma insert_relevant_kept x l acc :
  graph_wf acc.1 → kept x l acc.1 (foldl (insert_if_relevant x) acc l).1.
Proof.
  revert acc. induction l as [|p l IH]; intros acc Hg; cbn [foldl].
  { split; [done..|by intros p ?%elem_of_nil|by left]. }
  destruct (insert_if_relevant_kept x acc p Hg) as [[W1 A1 R1 N1] Hwf].
  destruct (IH _ Hwf) as [W2 A2 R2 N2]. split; [by auto..| |].
  - intros q [->|Hq]%elem_of_cons Hrel; [|by apply R2].
    destruct (R1 p) as [Hw Ha]; [by apply list_elem_of_singleton|done|]. auto.
  - intros k [Hk|(q & Hq & Hk)]%N2; [|right; exists q; split; [by right|done]].
    apply N1 in Hk as [Hk|(q & ->%list_elem_of_singleton & -> & Hq)]; [by left|right].
    exists p. split; [by left|]. split; [done|]. destruct Hq as [?|(t & ? & ? & ?)]; [by left|right].
    exists t. auto.
Qed.

(** [batch_insert_relevant] on a graph and index in step keeps, with its
    anchors, every transaction of the batch that pays a watched script or
    spends an output watched in the graph or anywhere in the batch, so parents
    may come after children; and whatever it adds to the graph is such a
    transaction or conflicts with one that the graph then has. *)
Theorem batch_insert_relevant_correct s l :
  synced s →
  let g' := ig_graph (batch_insert_relevant s l).1 in
  (∀ p, p ∈ l → relevant s l.*1 p.1 →
    is_whole (txs g' !! compute_txid p.1) ∧ ∀ a, a ∈ p.2 → a ∈ anchors_of g' (compute_txid p.1)) ∧
  (∀ k, is_whole (txs g' !! k) → is_whole (txs (ig_graph s) !! k) ∨
    ∃ p, p ∈ l ∧ k = compute_txid p.1 ∧
      (relevant s l.*1 p.1 ∨
       ∃ t, relevant s l.*1 t ∧ is_whole (txs g' !! compute_txid t) ∧ conflicting t p.1)) ∧
  (∀ k, is_whole (txs (ig_graph s) !! k) → is_whole (txs g' !! k)).
Proof.
  intros Hs. unfold batch_insert_relevant. destruct s as [x g]. cbn [ig_index ig_graph].
  pose proof (index_txs_fed x l.*1 merge_default (sy_ok _ Hs)) as Hfed.
  destruct (index_txs l.*1 (x, merge_default)) as [x' c]. cbn [fst] in Hfed.
  pose proof (λ tx, relevant_iff _ _ x' tx Hs Hfed) as Hrel.
  pose proof (insert_relevant_kept x' l (g, TxChangeSet_default) (gr_wf _ (sy_real _ Hs))) as Hk.
  destruct (foldl _ _ _) as [g' cs]. cbn [fst ig_graph] in *.
  destruct Hk as [W A' R N]. setoid_rewrite Hrel in R. setoid_rewrite Hrel in N. auto.
Qed.
End relevance.
