(* ===== verification/IndexedSamples.v ===== *)
(** * A watched script in a concrete graph

    The properties of the script index and of the indexed graph on the sample
    transactions of [TxSamples], and two corners of the code. *)
From S2P Require Import Prelude Block Tx TxGraph TxGraphFacts TxGraphFold TxGraphSpec ChainData CanonicalTask SpkIndex SpkSpec IndexedGraph IndexedSpec IndexedSync TxSamples.
#[local] Open Scope N_scope.

(** An output is its value, and so is its script; version and number of a
    script are its remainder and quotient by 17. *)
#[export, refine] Instance SampleScripts : Scripts := {
  Script := N;
  script_pubkey v := v;
  witness_version s := Some (s mod 17);
  new_witness_program v p := if v <=? 16 then Some (v + 17 * number p) else None;
}.
Proof. all: apply _. Defined.

#[export] Instance SampleScriptsLaws : ScriptsLaws.
Proof.
  split; cbn.
  - intros v p Hv _. destruct (N.leb_spec v 16); [by eexists|lia].
  - intros v p s. destruct (N.leb_spec v 16); [intros [= <-]|done].
    rewrite N.mul_comm, N.Div0.mod_add, N.mod_small by lia. done.
Qed.

#[export] Instance SampleWidth : WidthLaws.
Proof. intros tx. cbn. unfold sample_outputs, U32_MAX. rewrite length_take. lia. Qed.

Record SampleBlock := mkSampleBlock { sb_hash : N; sb_time : N; sb_txs : list SampleTx }.
#[export] Instance SampleBlocks : Blocks := {
  ChainBlock := SampleBlock; block_hash := sb_hash; txdata := sb_txs;
}.
#[export] Instance SampleFromTxPos : FromTxPos ConfirmationBlockTime :=
  ConfirmationBlockTime_from_TxPosInBlock sb_time.

(** Index 0 watches the first output of [tx_pay], index 1 that of [tx_right]. *)
Definition watching : SpkTxOutIndex N :=
  (insert_spk (insert_spk SpkTxOutIndex_default 0 20).1 1 18).1.

Definition watching_graph : IndexedTxGraph ConfirmationBlockTime (SpkTxOutIndex N) :=
  (ig_apply_update (IndexedTxGraph_new watching)
    (mkTxUpdate [tx_coinbase; tx_pay] ∅ ∅ ∅ ∅)).1.

Lemma watching_ok : spk_ok watching.
Proof.
  apply insert_spk_ok; [|by left]. apply insert_spk_ok; [|by left]. apply spk_ok_default.
Qed.

Lemma new_synced (x : SpkTxOutIndex N) :
  spk_ok x → txouts x = ∅ →
  synced (IndexedTxGraph_new x : IndexedTxGraph ConfirmationBlockTime (SpkTxOutIndex N)).
Proof.
  intros Hx Hnil. split; [done|apply graph_real_default|]. intros op o. cbn.
  unfold spk_recorded, get_txout. rewrite Hnil. cbn. rewrite !lookup_empty. naive_solver.
Qed.

Lemma watching_synced : synced watching_graph.
Proof.
  apply follow_synced; [by apply new_synced; [apply watching_ok|]|].
  apply apply_update_explains; [apply graph_real_default|]. intros op o Ho. done.
Qed.

Lemma spk_index_invariant_witness :
  spk_index_ok (scan watching tx_pay).1 ∧
  txouts (scan watching tx_pay).1 !! mkOutPoint (sample_txid tx_pay) 0 = Some (0, 20).
Proof.
  split; [|by vm_compute]. destruct (spk_index_invariant (I:=N)) as [Hdefault Hops].
  apply Hops. apply Hops; [|by left]. apply Hops; [exact Hdefault|by left].
Defined.

Lemma indexed_graph_in_sync_witness :
  synced (batch_insert_relevant watching_graph [(tx_right, [anchor_at 2]); (tx_child, [])]).1.
Proof.
  destruct (indexed_graph_in_sync watching_graph watching_synced)
    as (_ & _ & _ & _ & _ & _ & _ & Hbatch & _).
  apply Hbatch.
Defined.

(** An index with the scripts of [watching] and no outputs, as it would be
    restored before loading. *)
Lemma indexed_graph_reload_witness :
  ∃ s' cs, ig_from_changeset (ig_initial_changeset watching_graph) (λ _, Ok (E:=unit) watching) =
      Ok (s', cs) ∧ synced s' ∧
    ∀ op o, recorded (ig_index s') op o ↔ recorded (ig_index watching_graph) op o.
Proof.
  destruct (indexed_graph_reload (E:=unit) watching_graph (λ _, Ok watching) watching)
    as (s' & cs & Hload & Hs & _ & Hrec).
  - exact watching_synced.
  - reflexivity.
  - exact watching_ok.
  - intros op o [i Hi]. vm_compute in Hi. discriminate.
  - intros o. unfold watches, SpkTxOutIndex_laws, spk_watches.
    replace (spk_indices (ig_index watching_graph)) with (spk_indices watching); [done|].
    vm_compute. reflexivity.
  - exists s', cs. auto.
Defined.

(** [tx_child] spends an output of [tx_right] that is watched, and is listed
    before its parent. *)
Lemma batch_insert_relevant_correct_witness :
  is_whole (txs (ig_graph (batch_insert_relevant watching_graph
    [(tx_child, [anchor_at 2]); (tx_right, [])]).1) !! sample_txid tx_child).
Proof.
  apply (proj1 (batch_insert_relevant_correct watching_graph
    [(tx_child, [anchor_at 2]); (tx_right, [])] watching_synced) (tx_child, [anchor_at 2])).
  - left.
  - right. exists (mkOutPoint (sample_txid tx_right) 0), 18. split; [left|]. split.
    + split; [reflexivity|]. exists 1. reflexivity.
    + right. exists tx_right. split; [right; left|]. split; reflexivity.
Defined.

(** [tx_left] neither pays nor spends anything watched... but it conflicts with
    [tx_right], which does: it is kept when it is listed after [tx_right] and
    dropped when it is listed before, although the batch may be in any order. *)
Definition only_right : IndexedTxGraph ConfirmationBlockTime (SpkTxOutIndex N) :=
  IndexedTxGraph_new (insert_spk SpkTxOutIndex_default 1 18).1.

Lemma batch_order_decides_conflicts :
  bool_decide (is_Some (txs (ig_graph (batch_insert_relevant only_right
    [(tx_right, []); (tx_left, [])]).1) !! sample_txid tx_left)) = true ∧
  bool_decide (is_Some (txs (ig_graph (batch_insert_relevant only_right
    [(tx_left, []); (tx_right, [])]).1) !! sample_txid tx_left)) = false.
Proof. split; vm_compute; reflexivity. Qed.

(** A bridge output whose script is watched is never indexed nor relevant, yet
    counts as received and is listed as created. *)
Definition bridge_tx : SampleTx := mkSampleTx [spend_of tx_pay 0 7] [25].
Definition bridge_watching : SpkTxOutIndex N := (insert_spk SpkTxOutIndex_default 0 25).1.

Lemma watched_bridge_output_is_received :
  is_relevant bridge_watching bridge_tx = false ∧
  sent_and_received bridge_watching bridge_tx full_range = Some (0, 25) ∧
  (length <$> created_txouts bridge_watching bridge_tx) = Some 1%nat.
Proof. split_and!; vm_compute; reflexivity. Qed.
