(* ===== verification/SpkIter.v ===== *)
(** * Descriptors and the iterator over their scripts

    Models [crates/chain/src/spk_iter.rs] and [crates/chain/src/descriptor_ext.rs].
    Descriptors belong to the [miniscript] crate: the class [Descriptors].  A
    derivation that the code expects to succeed is [None] when it fails. *)
From S2P Require Import Prelude Block Tx SpkIndex.
#[local] Open Scope N_scope.

Class Descriptors `{Scripts} := {
  Descriptor : Type;
  Descriptor_eq_dec :: EqDecision Descriptor;
  has_wildcard : Descriptor → bool;
  (** [derived_descriptor(&secp, index)] and [at_derivation_index(index)], then
      [script_pubkey()]. *)
  derived_spk : Descriptor → N → option Script;
  (** [sha256::Hash::hash(spk.as_bytes())] *)
  spk_sha256 : Script → N;
  (** [Script::minimal_non_dust] *)
  minimal_non_dust : Script → N;
}.

Definition BIP32_MAX_INDEX : N := N.shiftl 1 31 - 1.

Lemma bip32_value : BIP32_MAX_INDEX = 2147483647.
Proof. reflexivity. Qed.

Notation DescriptorId := N (only parsing).

Section iter.
Context `{Descriptors}.
Implicit Types d : Descriptor.

Definition descriptor_id d : option DescriptorId := spk_sha256 <$> derived_spk d 0.
Definition dust_value d : option N := minimal_non_dust <$> derived_spk d 0.

(** ** The iterator *)

Record SpkIterator := mkSpkIterator {
  si_next_index : N;
  si_end : N;
  si_descriptor : Descriptor;
}.

Definition spk_iter_with_range d (range : KeyRange N) : SpkIterator :=
  let start := match start_bound range with
    | KIncluded start => start
    | KExcluded start => saturating_add_u32 start 1
    | KUnbounded => 0
    end in
  let end_ := match end_bound range with
    | KIncluded end_ => saturating_add_u32 end_ 1
    | KExcluded end_ => end_
    | KUnbounded => U32_MAX
    end in
  mkSpkIterator start (N.min end_ (BIP32_MAX_INDEX + 1)) d.

Definition spk_iter_new d : SpkIterator :=
  spk_iter_with_range d (mkKeyRange (KIncluded 0) (KIncluded BIP32_MAX_INDEX)).

(** [Iterator::next]: the item and the iterator left behind; the addition
    cannot overflow below the end. *)
Definition spk_iter_next (it : SpkIterator) : option (option (N * Script) * SpkIterator) :=
  if si_end it <=? si_next_index it then Some (None, it)
  else if negb (has_wildcard (si_descriptor it)) && negb (si_next_index it =? 0) then Some (None, it)
  else
    script ← derived_spk (si_descriptor it) (si_next_index it);
    Some (Some (si_next_index it, script),
      mkSpkIterator (si_next_index it + 1) (si_end it) (si_descriptor it)).

(** [Iterator::nth], of a [usize]. *)
Definition spk_iter_nth (it : SpkIterator) (n : N) : option (option (N * Script) * SpkIterator) :=
  spk_iter_next (mkSpkIterator
    (saturating_add_u32 (si_next_index it) (default U32_MAX (u32_try_from n)))
    (si_end it) (si_descriptor it)).

(** What a [for] loop sees of the iterator, in at most [fuel] turns. *)
Fixpoint spk_iter_take (fuel : nat) (it : SpkIterator) : option (list (N * Script)) :=
  match fuel with
  | O => Some []
  | S fuel =>
    '(item, it) ← spk_iter_next it;
    match item with
    | None => Some []
    | Some item => items ← spk_iter_take fuel it; Some (item :: items)
    end
  end.
Definition spk_iter_collect (it : SpkIterator) : option (list (N * Script)) :=
  spk_iter_take (N.to_nat (si_end it - si_next_index it)) it.

(** ** What the iterator yields *)

(** The descriptor needs no hardened derivation. *)
Definition derivable d : Prop := ∀ i, i ≤ BIP32_MAX_INDEX → is_Some (derived_spk d i).

(** The indices a descriptor has. *)
Definition has_index d (i : N) : Prop := i ≤ BIP32_MAX_INDEX ∧ (has_wildcard d = true ∨ i = 0).

(** The scripts at indices, all of which are derived. *)
Definition derived_spks d (l : list N) : option (list (N * Script)) :=
  mapM (λ i, script ← derived_spk d i; Some (i, script)) l.

Lemma derived_spks_Some d l :
  derivable d → Forall (λ i, i ≤ BIP32_MAX_INDEX) l → is_Some (derived_spks d l).
Proof.
  intros Hd Hl. apply mapM_is_Some. eapply Forall_impl; [exact Hl|]. intros i Hi. cbn.
  destruct (Hd i Hi) as [s ->]. by eexists.
Qed.

Lemma range_exclusive_cons lo hi : lo < hi → range_exclusive lo hi = lo :: range_exclusive (lo + 1) hi.
Proof.
  intros Hlt. unfold range_exclusive.
  replace (N.to_nat (hi - lo)) with (S (N.to_nat (hi - (lo + 1)))) by lia. cbn [seq fmap list_fmap].
  f_equal; [lia|]. rewrite <-seq_shift, <-list_fmap_compose. apply list_fmap_ext. intros i j _. cbn. lia.
Qed.

Lemma range_exclusive_nil lo hi : hi ≤ lo → range_exclusive lo hi = [].
Proof. intros Hle. unfold range_exclusive. by replace (N.to_nat (hi - lo)) with 0%nat by lia. Qed.

(** With a wildcard the loop sees every index up to the end. *)
Lemma spk_iter_wildcard d next end_ :
  has_wildcard d = true →
  spk_iter_collect (mkSpkIterator next end_ d) = derived_spks d (range_exclusive next end_).
Proof.
  intros Hw. unfold spk_iter_collect. cbn [si_end si_next_index].
  remember (N.to_nat (end_ - next)) as fuel eqn:Hfuel. revert next Hfuel.
  induction fuel as [|fuel IH]; intros next Hfuel; cbn [spk_iter_take].
  { by rewrite range_exclusive_nil by lia. }
  unfold spk_iter_next. cbn [si_end si_next_index si_descriptor]. rewrite Hw.
  destruct (N.leb_spec end_ next); [lia|]. cbn [negb andb]. rewrite range_exclusive_cons by lia.
  unfold derived_spks. cbn [mapM]. destruct (derived_spk d next) as [s|]; [|done].
  cbn [mbind option_bind]. rewrite IH by lia. done.
Qed.

(** Without one it sees index 0 alone. *)
Lemma spk_iter_fixed d next end_ :
  has_wildcard d = false →
  spk_iter_collect (mkSpkIterator next end_ d) =
  derived_spks d (if bool_decide (next = 0 ∧ 0 < end_) then [0] else []).
Proof.
  intros Hw. unfold spk_iter_collect. cbn [si_end si_next_index].
  destruct (N.to_nat (end_ - next)) as [|fuel] eqn:Hfuel; cbn [spk_iter_take].
  { by rewrite bool_decide_eq_false_2 by lia. }
  unfold spk_iter_next at 1. cbn [si_end si_next_index si_descriptor]. rewrite Hw.
  destruct (N.leb_spec end_ next); [lia|]. cbn [negb andb].
  destruct (N.eqb_spec next 0) as [->|Hne]; cbn [negb].
  2:{ by rewrite bool_decide_eq_false_2 by lia. }
  rewrite bool_decide_eq_true_2 by lia. unfold derived_spks. cbn [mapM].
  destruct (derived_spk d 0) as [s|]; [|done]. cbn [mbind option_bind].
  destruct fuel as [|fuel]; [done|]. cbn [spk_iter_take]. unfold spk_iter_next.
  cbn [si_end si_next_index si_descriptor]. rewrite Hw.
  destruct (N.leb_spec end_ (0 + 1)); [done|]. done.
Qed.

(** ** Skipping ahead *)

Lemma range_exclusive_drop lo hi n : drop n (range_exclusive lo hi) = range_exclusive (lo + N.of_nat n) hi.
Proof.
  revert lo. induction n as [|n IH]; intros lo; [by rewrite N.add_0_r|].
  destruct (N.ltb_spec lo hi) as [Hlt|Hge].
  - rewrite range_exclusive_cons by done. cbn [drop]. rewrite IH. f_equal. lia.
  - rewrite !range_exclusive_nil by lia. done.
Qed.

Lemma derived_spks_drop d l items n : derived_spks d l = Some items → derived_spks d (drop n l) = Some (drop n items).
Proof. unfold derived_spks. rewrite !mapM_Some. apply Forall2_drop. Qed.

Lemma derived_spks_length d l items : derived_spks d l = Some items → length items = length l.
Proof. unfold derived_spks. rewrite mapM_Some. intros Hall. symmetry. by eapply Forall2_length. Qed.

Lemma spk_iter_done it : si_end it ≤ si_next_index it → spk_iter_collect it = Some [].
Proof. intros Hle. unfold spk_iter_collect. by replace (N.to_nat _) with 0%nat by lia. Qed.

(** Where [nth] looks: past the end when the number overflows the index. *)
Definition jump_index (next n : N) : N := saturating_add_u32 next (default U32_MAX (u32_try_from n)).

Lemma jump_index_cases next n end_ :
  end_ ≤ BIP32_MAX_INDEX + 1 →
  jump_index next n < end_ ∧ jump_index next n = next + n ∨ end_ ≤ jump_index next n ∧ end_ - next ≤ n.
Proof.
  rewrite bip32_value. unfold jump_index, saturating_add_u32, u32_try_from, U32_MAX. intros Hend.
  destruct (N.leb_spec n 4294967295); cbn [from_option id default]; lia.
Qed.

Lemma jump_index_zero next n : jump_index next n = 0 → next = 0 ∧ n = 0.
Proof.
  unfold jump_index, saturating_add_u32, u32_try_from, U32_MAX.
  destruct (N.leb_spec n 4294967295); cbn [from_option id default]; lia.
Qed.

Lemma nth_wildcard d next end_ n items :
  has_wildcard d = true → end_ ≤ BIP32_MAX_INDEX + 1 →
  derived_spks d (range_exclusive next end_) = Some items →
  ∃ it', spk_iter_next (mkSpkIterator (jump_index next n) end_ d) = Some (items !! N.to_nat n, it') ∧
    spk_iter_collect it' = Some (drop (S (N.to_nat n)) items).
Proof.
  intros Hw Hend Hitems. pose proof (jump_index_cases next n end_ Hend) as Hnext.
  generalize dependent (jump_index next n). intros next' Hnext.
  unfold spk_iter_next. cbn [si_next_index si_end si_descriptor]. rewrite Hw. cbn [negb andb].
  destruct Hnext as [[Hlt Heq]|[Hge Hn]].
  - destruct (N.leb_spec end_ next'); [lia|]. pose proof Hitems as Hall. apply mapM_Some in Hall.
    assert (range_exclusive next end_ !! N.to_nat n = Some next') as Hat.
    { rewrite <-(N2Nat.id n) in Heq. rewrite <-(Nat.add_0_r (N.to_nat n)), <-lookup_drop, range_exclusive_drop,
        <-Heq, range_exclusive_cons by done. done. }
    destruct (Forall2_lookup_l _ _ _ _ _ Hall Hat) as (item & Hitem & Hs). cbn in Hs. rewrite Hitem.
    destruct (derived_spk d next') as [s|]; [|done]. injection Hs as <-. cbn [mbind option_bind].
    eexists. split; [done|]. rewrite spk_iter_wildcard by done.
    apply (derived_spks_drop _ _ _ (S (N.to_nat n))) in Hitems. rewrite range_exclusive_drop in Hitems.
    rewrite <-Hitems. do 2 f_equal. lia.
  - destruct (N.leb_spec end_ next'); [|lia].
    assert (length items ≤ N.to_nat n)%nat as Hlen.
    { rewrite (derived_spks_length _ _ _ Hitems). unfold range_exclusive. rewrite length_fmap, length_seq. lia. }
    rewrite lookup_ge_None_2 by done. rewrite drop_ge by lia. eexists. split; [done|]. by apply spk_iter_done.
Qed.

Lemma nth_fixed d next end_ n items :
  has_wildcard d = false → end_ ≤ BIP32_MAX_INDEX + 1 →
  derived_spks d (if bool_decide (next = 0 ∧ 0 < end_) then [0] else []) = Some items →
  ∃ it', spk_iter_next (mkSpkIterator (jump_index next n) end_ d) = Some (items !! N.to_nat n, it') ∧
    spk_iter_collect it' = Some (drop (S (N.to_nat n)) items).
Proof.
  intros Hw Hend Hitems. pose proof (jump_index_cases next n end_ Hend) as Hnext.
  pose proof (jump_index_zero next n) as Hzero.
  generalize dependent (jump_index next n). intros next' Hnext Hzero.
  unfold spk_iter_next. cbn [si_next_index si_end si_descriptor]. rewrite Hw. cbn [negb andb].
  destruct (N.eqb_spec next' 0) as [Hz|Hz]; cbn [negb].
  - destruct (Hzero Hz) as [-> ->]. destruct (N.leb_spec end_ next').
    + rewrite bool_decide_eq_false_2 in Hitems by lia. injection Hitems as <-. eexists. split; [done|].
      by apply spk_iter_done.
    + rewrite bool_decide_eq_true_2 in Hitems by lia. rewrite Hz. unfold derived_spks in Hitems. cbn [mapM] in Hitems.
      destruct (derived_spk d 0) as [s|]; [|done]. injection Hitems as <-. cbn [mbind option_bind].
      eexists. split; [done|]. rewrite spk_iter_fixed by done. by rewrite bool_decide_eq_false_2 by lia.
  - assert (length items ≤ N.to_nat n)%nat as Hlen.
    { rewrite (derived_spks_length _ _ _ Hitems). case_bool_decide as Hb; cbn; [|lia]. lia. }
    rewrite lookup_ge_None_2 by done. rewrite drop_ge by lia.
    assert (spk_iter_collect (mkSpkIterator next' end_ d) = Some []) as Hcollect.
    { rewrite spk_iter_fixed by done. by rewrite bool_decide_eq_false_2 by (intros [? _]; done). }
    destruct (N.leb_spec end_ next'); by eexists.
Qed.

(** [nth] derives one script and none of those it skips: it answers what
    stepping through the iterator would have found at that place, and goes on
    behind it, also when the number overflows the index. *)
Theorem spk_iter_nth_correct it n items :
  si_end it ≤ BIP32_MAX_INDEX + 1 → spk_iter_collect it = Some items →
  ∃ it', spk_iter_nth it n = Some (items !! N.to_nat n, it') ∧
    spk_iter_collect it' = Some (drop (S (N.to_nat n)) items).
Proof.
  destruct it as [next end_ d]. cbn [si_end]. intros Hend Hitems.
  change (spk_iter_nth (mkSpkIterator next end_ d) n) with (spk_iter_next (mkSpkIterator (jump_index next n) end_ d)).
  destruct (has_wildcard d) eqn:Hw.
  - apply nth_wildcard; [done|done|]. by rewrite <-spk_iter_wildcard.
  - apply nth_fixed; [done|done|]. by rewrite <-spk_iter_fixed.
Qed.
End iter.
