(* ===== verification/KeychainIndex.v ===== *)
(** * The keychain index

    Models [crates/chain/src/indexer/keychain_txout.rs]: which scripts of which
    descriptor are revealed, the lookahead beyond them, and the cache of derived
    scripts.  [None] is a panic: an [expect] on an invariant, a derivation that
    fails, the [unreachable!] of [next_index].  An iterator is the list of what
    it yields. *)
From S2P Require Import Prelude Block Tx TxGraph SpkIndex SpkIter.
#[local] Open Scope N_scope.

Definition DEFAULT_LOOKAHEAD : N := 25.

(** Addition of [u32]s without overflow checks. *)
Definition wrapping_add_u32 (a b : N) : N := (a + b) mod 2 ^ 32.

(** ** Change sets *)

Record KeychainChangeSet `{Scripts} := mkKeychainChangeSet {
  kcs_last_revealed : gmap DescriptorId N;
  kcs_spk_cache : gmap DescriptorId (gmap N Script);
}.
Arguments mkKeychainChangeSet {_ _}.
Arguments kcs_last_revealed {_ _}.
Arguments kcs_spk_cache {_ _}.

Section changeset.
Context `{Scripts}.

Definition KeychainChangeSet_default : KeychainChangeSet := mkKeychainChangeSet ∅ ∅.

(** One turn of each loop of [merge]. *)
Definition merge_last_revealed (m : gmap DescriptorId N) (p : DescriptorId * N) : gmap DescriptorId N :=
  match m !! p.1 with
  | None => <[p.1 := p.2]> m
  | Some old => if old <? p.2 then <[p.1 := p.2]> m else m
  end.
(** [entry(did).or_default().extend(spks)] *)
Definition extend_cache (m : gmap DescriptorId (gmap N Script)) (p : DescriptorId * gmap N Script) :
    gmap DescriptorId (gmap N Script) :=
  <[p.1 := p.2 ∪ default ∅ (m !! p.1)]> m.

Definition keychain_changeset_merge (self other : KeychainChangeSet) : KeychainChangeSet :=
  mkKeychainChangeSet
    (foldl merge_last_revealed (kcs_last_revealed self) (map_iter (kcs_last_revealed other)))
    (foldl extend_cache (kcs_spk_cache self) (map_iter (kcs_spk_cache other))).

#[export] Instance KeychainChangeSet_merge : Merge KeychainChangeSet := {
  merge_default := KeychainChangeSet_default;
  merge := keychain_changeset_merge;
  merge_is_empty cs := bool_decide (kcs_last_revealed cs = ∅) && bool_decide (kcs_spk_cache cs = ∅);
}.

Definition note_revealed (did : DescriptorId) (index : N) (cs : KeychainChangeSet) : KeychainChangeSet :=
  mkKeychainChangeSet (<[did := index]> (kcs_last_revealed cs)) (kcs_spk_cache cs).
End changeset.

(** ** The index *)

Record KeychainTxOutIndex `{Descriptors} (K : Type) `{Countable K} := mkKeychainTxOutIndex {
  inner : SpkTxOutIndex (K * N);
  keychain_to_descriptor_id : gmap K DescriptorId;
  descriptor_id_to_keychain : gmap DescriptorId K;
  descriptors : gmap DescriptorId Descriptor;
  last_revealed : gmap DescriptorId N;
  lookahead : N;
  persist_spks : bool;
  spk_cache : gmap DescriptorId (gmap N Script);
  spk_cache_stage : gmap DescriptorId (list (N * Script));
}.
Arguments mkKeychainTxOutIndex {_ _ _ K _ _}.
Arguments inner {_ _ _ K _ _}.
Arguments keychain_to_descriptor_id {_ _ _ K _ _}.
Arguments descriptor_id_to_keychain {_ _ _ K _ _}.
Arguments descriptors {_ _ _ K _ _}.
Arguments last_revealed {_ _ _ K _ _}.
Arguments lookahead {_ _ _ K _ _}.
Arguments persist_spks {_ _ _ K _ _}.
Arguments spk_cache {_ _ _ K _ _}.
Arguments spk_cache_stage {_ _ _ K _ _}.

Inductive InsertDescriptorError `{Descriptors} (K : Type) :=
| DescriptorAlreadyAssigned (descriptor : Descriptor) (existing_assignment : K)
| KeychainAlreadyAssigned (keychain : K) (existing_assignment : Descriptor).
Arguments DescriptorAlreadyAssigned {_ _ _ K}.
Arguments KeychainAlreadyAssigned {_ _ _ K}.

Section index.
Context `{Descriptors} {K : Type} `{Countable K} `{!TotalOrd K}.
Implicit Types (x : KeychainTxOutIndex K) (keychain : K) (did : DescriptorId) (cs : KeychainChangeSet).

Definition keychain_index_new (lookahead : N) (persist_spks : bool) : KeychainTxOutIndex K :=
  mkKeychainTxOutIndex SpkTxOutIndex_default ∅ ∅ ∅ ∅ lookahead persist_spks ∅ ∅.
Definition keychain_index_default : KeychainTxOutIndex K := keychain_index_new DEFAULT_LOOKAHEAD false.

(** Assignments to single fields. *)
Definition with_inner x (i : SpkTxOutIndex (K * N)) : KeychainTxOutIndex K :=
  mkKeychainTxOutIndex i (keychain_to_descriptor_id x) (descriptor_id_to_keychain x) (descriptors x)
    (last_revealed x) (lookahead x) (persist_spks x) (spk_cache x) (spk_cache_stage x).
Definition with_last_revealed x (m : gmap DescriptorId N) : KeychainTxOutIndex K :=
  mkKeychainTxOutIndex (inner x) (keychain_to_descriptor_id x) (descriptor_id_to_keychain x)
    (descriptors x) m (lookahead x) (persist_spks x) (spk_cache x) (spk_cache_stage x).
Definition with_cache x (cache : gmap DescriptorId (gmap N Script))
    (stage : gmap DescriptorId (list (N * Script))) : KeychainTxOutIndex K :=
  mkKeychainTxOutIndex (inner x) (keychain_to_descriptor_id x) (descriptor_id_to_keychain x)
    (descriptors x) (last_revealed x) (lookahead x) (persist_spks x) cache stage.

(** ** Keeping the lookahead *)

(** [BTreeMap::range] on the scripts, in ascending order. *)
Definition spks_range x (range : KeyRange (K * N)) : option (list (K * N * Script)) :=
  if range_valid range
  then Some (filter (λ p : K * N * Script, range_contains range p.1 = true) (map_iter (all_spks (inner x))))
  else None.

(** The index after the last stored one of the keychain. *)
Definition next_stored_index x keychain : option N :=
  spks ← spks_range x (mkKeyRange (KIncluded (keychain, 0)) (KIncluded (keychain, U32_MAX)));
  Some (match last spks with Some (_, index, _) => wrapping_add_u32 index 1 | None => 0 end).

(** Exclusive: the index to stop at. *)
Definition stop_index x did (descriptor : Descriptor) (lookahead : N) : N :=
  if has_wildcard descriptor then
    let next_reveal_index :=
      match last_revealed x !! did with Some v => wrapping_add_u32 v 1 | None => 0 end in
    N.min (wrapping_add_u32 next_reveal_index lookahead) BIP32_MAX_INDEX
  else 1.

Definition insert_inner x keychain (p : N * Script) : KeychainTxOutIndex K :=
  with_inner x (insert_spk (inner x) (keychain, p.1) p.2).1.

(** One turn with the cache: the script comes from it or is derived, cached and
    staged. *)
Definition replenish_cached did keychain (descriptor : Descriptor) x (spk_i : N) :
    option (KeychainTxOutIndex K) :=
  let cache := default ∅ (spk_cache x !! did) in
  match cache !! spk_i with
  | Some spk => Some (insert_inner x keychain (spk_i, spk))
  | None =>
    spk ← derived_spk descriptor spk_i;
    let x := with_cache x (<[did := <[spk_i := spk]> cache]> (spk_cache x))
      (<[did := default [] (spk_cache_stage x !! did) ++ [(spk_i, spk)]]> (spk_cache_stage x)) in
    Some (insert_inner x keychain (spk_i, spk))
  end.

Fixpoint try_fold {A B} (f : B → A → option B) (b : B) (l : list A) : option B :=
  match l with
  | [] => Some b
  | a :: l => b ← f b a; try_fold f b l
  end.

(** The first accesses create the entries of the cache and of the stage. *)
Definition replenish_inner_index x did keychain (lookahead : N) : option (KeychainTxOutIndex K) :=
  descriptor ← descriptors x !! did;
  next_index ← next_stored_index x keychain;
  let stop := stop_index x did descriptor lookahead in
  if persist_spks x then
    let x := with_cache x (<[did := default ∅ (spk_cache x !! did)]> (spk_cache x))
      (<[did := default [] (spk_cache_stage x !! did)]> (spk_cache_stage x)) in
    try_fold (replenish_cached did keychain descriptor) x (range_exclusive next_index stop)
  else
    spks ← spk_iter_collect
      (spk_iter_with_range descriptor (mkKeyRange (KIncluded next_index) (KExcluded stop)));
    Some (foldl (λ x p, insert_inner x keychain p) x spks).

Definition replenish_inner_index_did x did (lookahead : N) : option (KeychainTxOutIndex K) :=
  match descriptor_id_to_keychain x !! did with
  | Some keychain => replenish_inner_index x did keychain lookahead
  | None => Some x
  end.
Definition replenish_inner_index_keychain x keychain (lookahead : N) : option (KeychainTxOutIndex K) :=
  match keychain_to_descriptor_id x !! keychain with
  | Some did => replenish_inner_index x did keychain lookahead
  | None => Some x
  end.

(** ** Indexing outputs *)

Definition index_txout_into x cs (outpoint : OutPoint) (txout : TxOut) :
    option (KeychainTxOutIndex K * KeychainChangeSet) :=
  let '(i, found) := scan_txout (inner x) outpoint txout in
  let x := with_inner x i in
  match found with
  | None => Some (x, cs)
  | Some (keychain, index) =>
    did ← keychain_to_descriptor_id x !! keychain;
    let index_updated := match last_revealed x !! did with Some e => e <? index | None => true end in
    if index_updated then
      x ← replenish_inner_index (with_last_revealed x (<[did := index]> (last_revealed x))) did
        keychain (lookahead x);
      Some (x, note_revealed did index cs)
    else Some (x, cs)
  end.

(** The stage is taken and left empty. *)
Definition empty_stage_into_changeset x cs : KeychainTxOutIndex K * KeychainChangeSet :=
  if negb (persist_spks x) then (x, cs)
  else
    (with_cache x (spk_cache x) ∅,
     mkKeychainChangeSet (kcs_last_revealed cs)
       (foldl (λ m p, extend_cache m (p.1, foldl (λ spks q, <[q.1 := q.2]> spks) ∅ p.2))
         (kcs_spk_cache cs) (map_iter (spk_cache_stage x)))).

Definition keychain_index_txout x (outpoint : OutPoint) (txout : TxOut) :
    option (KeychainTxOutIndex K * KeychainChangeSet) :=
  '(x, cs) ← index_txout_into x KeychainChangeSet_default outpoint txout;
  Some (empty_stage_into_changeset x cs).

Definition keychain_index_tx x (tx : Transaction) : option (KeychainTxOutIndex K * KeychainChangeSet) :=
  '(x, cs) ← try_fold (λ acc p, index_txout_into acc.1 acc.2 (mkOutPoint (compute_txid tx) (as_u32 p.1)) p.2)
    (x, KeychainChangeSet_default) (enumerate (tx_output tx));
  Some (empty_stage_into_changeset x cs).

Definition keychain_initial_changeset x : KeychainChangeSet :=
  mkKeychainChangeSet (last_revealed x) (spk_cache x).

Definition keychain_is_tx_relevant x (tx : Transaction) : bool := is_relevant (inner x) tx.

(** One turn over the revealed indices of a change set. *)
Definition apply_last_revealed x (p : DescriptorId * N) : option (KeychainTxOutIndex K) :=
  let v := default 0 (last_revealed x !! p.1) in
  replenish_inner_index_did (with_last_revealed x (<[p.1 := N.max p.2 v]> (last_revealed x))) p.1
    (lookahead x).

Definition keychain_apply_changeset x cs : option (KeychainTxOutIndex K) :=
  let x := if persist_spks x
    then with_cache x (foldl extend_cache (spk_cache x) (map_iter (kcs_spk_cache cs))) (spk_cache_stage x)
    else x in
  try_fold apply_last_revealed x (map_iter (kcs_last_revealed cs)).

Definition keychain_from_changeset (lookahead : N) (use_spk_cache : bool) cs :
    option (KeychainTxOutIndex K) :=
  keychain_apply_changeset (keychain_index_new lookahead use_spk_cache) cs.

(** ** Descriptors *)

Definition keychains x : option (list (K * Descriptor)) :=
  mapM (λ p : K * DescriptorId, d ← descriptors x !! p.2; Some (p.1, d)) (map_iter (keychain_to_descriptor_id x)).

Definition get_descriptor x keychain : option Descriptor :=
  did ← keychain_to_descriptor_id x !! keychain; descriptors x !! did.

Definition register x keychain did (descriptor : Descriptor) : KeychainTxOutIndex K :=
  mkKeychainTxOutIndex (inner x) (<[keychain := did]> (keychain_to_descriptor_id x))
    (<[did := keychain]> (descriptor_id_to_keychain x)) (<[did := descriptor]> (descriptors x))
    (last_revealed x) (lookahead x) (persist_spks x) (spk_cache x) (spk_cache_stage x).

(** The checks when the keychain or the descriptor is known. *)
Definition check_assignment x keychain did : option (result (InsertDescriptorError K) bool) :=
  by_keychain ← match keychain_to_descriptor_id x !! keychain with
    | Some existing_desc_id =>
      descriptor ← descriptors x !! existing_desc_id;
      Some (if decide (existing_desc_id ≠ did) then Some (KeychainAlreadyAssigned keychain descriptor) else None)
    | None => Some None
    end;
  match by_keychain with
  | Some e => Some (Err e)
  | None =>
    match descriptor_id_to_keychain x !! did with
    | Some existing_keychain =>
      descriptor ← descriptors x !! did;
      Some (if decide (existing_keychain ≠ keychain)
        then Err (DescriptorAlreadyAssigned descriptor existing_keychain) else Ok false)
    | None => Some (Ok false)
    end
  end.

Definition insert_descriptor x keychain (descriptor : Descriptor) :
    option (KeychainTxOutIndex K * result (InsertDescriptorError K) bool) :=
  did ← descriptor_id descriptor;
  if bool_decide (keychain_to_descriptor_id x !! keychain = None) &&
     bool_decide (descriptor_id_to_keychain x !! did = None)
  then
    x ← replenish_inner_index (register x keychain did descriptor) did keychain (lookahead x);
    Some (x, Ok true)
  else
    r ← check_assignment x keychain did;
    Some (x, r).

(** ** Revealing *)

Definition next_index x keychain : option (option (N * bool)) :=
  match keychain_to_descriptor_id x !! keychain with
  | None => Some None
  | Some did =>
    descriptor ← descriptors x !! did;
    match last_revealed x !! did with
    | None => Some (Some (0, true))
    | Some index =>
      if negb (has_wildcard descriptor) then Some (Some (0, false))
      else if BIP32_MAX_INDEX <? index then None
      else if index =? BIP32_MAX_INDEX then Some (Some (index, false))
      else Some (Some (index + 1, true))
    end
  end.

Definition lookahead_to_target x keychain (target_index : N) :
    option (KeychainTxOutIndex K * KeychainChangeSet) :=
  next ← next_index x keychain;
  x ← match next with
    | Some (next_index, _) =>
      match checked_sub (wrapping_add_u32 target_index 1) next_index with
      | Some temp_lookahead =>
        if 0 <? temp_lookahead then replenish_inner_index_keychain x keychain temp_lookahead else Some x
      | None => Some x
      end
    | None => Some x
    end;
  Some (empty_stage_into_changeset x KeychainChangeSet_default).

(** The inner option is the answer of the code. *)
Definition reveal_next_spk_into x cs keychain :
    option (KeychainTxOutIndex K * KeychainChangeSet * option (N * Script)) :=
  next ← next_index x keychain;
  match next with
  | None => Some (x, cs, None)
  | Some (next_index, new) =>
    '(x, cs) ← (if new : bool then
        match keychain_to_descriptor_id x !! keychain with
        | None => Some (x, cs)
        | Some did =>
          x' ← replenish_inner_index (with_last_revealed x (<[did := next_index]> (last_revealed x))) did
            keychain (lookahead x);
          Some (x', note_revealed did next_index cs)
        end
      else Some (x, cs));
    script ← spk_at_index (inner x) (keychain, next_index);
    Some (x, cs, Some (next_index, script))
  end.

Definition reveal_next_spk x keychain :
    option (KeychainTxOutIndex K * option (N * Script * KeychainChangeSet)) :=
  '(x, cs, found) ← reveal_next_spk_into x KeychainChangeSet_default keychain;
  match found with
  | None => Some (x, None)
  | Some spk => let '(x, cs) := empty_stage_into_changeset x cs in Some (x, Some (spk, cs))
  end.

(** The loop of [_reveal_to_target]; each turn reveals one more index. *)
Fixpoint reveal_loop (fuel : nat) x cs keychain (target_index : N) (spks : list (N * Script)) :
    option (KeychainTxOutIndex K * KeychainChangeSet * option (list (N * Script))) :=
  match fuel with
  | O => None
  | S fuel =>
    next ← next_index x keychain;
    match next with
    | None => Some (x, cs, None)
    | Some (i, new) =>
      if negb new || (target_index <? i) then Some (x, cs, Some spks)
      else
        '(x, cs, found) ← reveal_next_spk_into x cs keychain;
        match found with
        | Some indexed_spk => reveal_loop fuel x cs keychain target_index (spks ++ [indexed_spk])
        | None => Some (x, cs, Some spks)
        end
    end
  end.
Definition reveal_fuel (target_index : N) : nat := N.to_nat (target_index + 2).
Definition reveal_to_target_into x cs keychain (target_index : N) :
    option (KeychainTxOutIndex K * KeychainChangeSet * option (list (N * Script))) :=
  reveal_loop (reveal_fuel target_index) x cs keychain target_index [].

Definition reveal_to_target x keychain (target_index : N) :
    option (KeychainTxOutIndex K * option (list (N * Script) * KeychainChangeSet)) :=
  '(x, cs, found) ← reveal_to_target_into x KeychainChangeSet_default keychain target_index;
  match found with
  | None => Some (x, None)
  | Some revealed_spks =>
    let '(x, cs) := empty_stage_into_changeset x cs in Some (x, Some (revealed_spks, cs))
  end.

Definition reveal_to_target_multi x (targets : gmap K N) :
    option (KeychainTxOutIndex K * KeychainChangeSet) :=
  '(x, cs) ← try_fold (λ acc p,
      '(x, cs, _) ← reveal_to_target_into acc.1 acc.2 p.1 p.2; Some (x, cs))
    (x, KeychainChangeSet_default) (map_iter targets);
  Some (empty_stage_into_changeset x cs).

Definition last_revealed_index x keychain : option N :=
  did ← keychain_to_descriptor_id x !! keychain; last_revealed x !! did.

Definition last_revealed_indices `{HashOrder} x : gmap K N :=
  foldl (λ m p, match descriptor_id_to_keychain x !! p.1 with
                | Some keychain => <[keychain := p.2]> m
                | None => m
                end) ∅ (hash_map_iter (last_revealed x)).

(** ** Revealed and unused scripts *)

(** A keychain range as a range of scripts. *)
Definition map_to_inner_bounds (bound : KeyRange K) : KeyRange (K * N) :=
  mkKeyRange
    (match start_bound bound with
     | KIncluded keychain => KIncluded (keychain, 0)
     | KExcluded keychain => KExcluded (keychain, U32_MAX)
     | KUnbounded => KUnbounded
     end)
    (match end_bound bound with
     | KIncluded keychain => KIncluded (keychain, U32_MAX)
     | KExcluded keychain => KExcluded (keychain, 0)
     | KUnbounded => KUnbounded
     end).

(** The loop [while current_keychain?.0 < keychain]; the head of the list is
    the current keychain, and an empty list ends the iteration. *)
Fixpoint skip_keychains keychain (current : list (K * option N)) : list (K * option N) :=
  match current with
  | [] => []
  | c :: rest => if bool_decide (tlt c.1 keychain) then skip_keychains keychain rest else current
  end.

(** [Some(index) <= last_revealed] *)
Definition is_revealed (index : N) (last_revealed : option N) : bool :=
  match last_revealed with Some l => index <=? l | None => false end.

Fixpoint revealed_loop (spks : list (K * N * Script)) (current : list (K * option N)) :
    list (K * N * Script) :=
  match spks with
  | [] => []
  | (keychain, index, spk) :: spks =>
    match skip_keychains keychain current with
    | [] => []
    | ((current_keychain, last_revealed) :: _) as current =>
      if bool_decide (current_keychain = keychain) && is_revealed index last_revealed
      then (keychain, index, spk) :: revealed_loop spks current
      else revealed_loop spks current
    end
  end.

Definition revealed_spks x (range : KeyRange K) : option (list (K * N * Script)) :=
  spks ← spks_range x (map_to_inner_bounds range);
  if range_valid range then
    Some (revealed_loop spks
      ((λ p : K * DescriptorId, (p.1, last_revealed x !! p.2)) <$>
        filter (λ p : K * DescriptorId, range_contains range p.1 = true) (map_iter (keychain_to_descriptor_id x))))
  else None.

Definition without_keychain {T} (l : list (K * N * T)) : list (N * T) := (λ p : K * N * T, (p.1.2, p.2)) <$> l.
Definition with_keychain {T} keychain (l : list (N * T)) : list (K * N * T) :=
  (λ p : N * T, (keychain, p.1, p.2)) <$> l.

Definition revealed_keychain_spks x keychain : option (list (N * Script)) :=
  let end_ := match last_revealed_index x keychain with Some v => wrapping_add_u32 v 1 | None => 0 end in
  spks ← spks_range x (mkKeyRange (KIncluded (keychain, 0)) (KExcluded (keychain, end_)));
  Some (without_keychain spks).

Definition unused_keychain_spks x keychain : option (list (N * Script)) :=
  let end_ := match keychain_to_descriptor_id x !! keychain with
    | Some did => match last_revealed x !! did with Some v => wrapping_add_u32 v 1 | None => 0 end
    | None => 0
    end in
  spks ← unused_spks (inner x) (mkKeyRange (KIncluded (keychain, 0)) (KExcluded (keychain, end_)));
  Some (without_keychain spks).

Definition keychain_unused_spks x : option (list (K * N * Script)) :=
  spks ← mapM (λ keychain,
      spks ← unused_keychain_spks x keychain;
      Some (with_keychain keychain spks))
    (map_iter (keychain_to_descriptor_id x)).*1;
  Some (mjoin spks).

Definition next_unused_spk x keychain :
    option (KeychainTxOutIndex K * option (N * Script * KeychainChangeSet)) :=
  unused ← unused_keychain_spks x keychain;
  '(x, cs, spk) ← match head unused with
    | Some spk => Some (x, KeychainChangeSet_default, Some spk)
    | None => reveal_next_spk_into x KeychainChangeSet_default keychain
    end;
  match spk with
  | None => Some (x, None)
  | Some spk => let '(x, cs) := empty_stage_into_changeset x cs in Some (x, Some (spk, cs))
  end.

(** ** What is re-exposed of the inner index *)

Definition keychain_outpoints_in_range x (range : KeyRange K) : option (list (K * N * OutPoint)) :=
  outputs_in_range (inner x) (map_to_inner_bounds range).
Definition keychain_outpoints x keychain : option (list (N * OutPoint)) :=
  outputs ← keychain_outpoints_in_range x (mkKeyRange (KIncluded keychain) (KIncluded keychain));
  Some (without_keychain outputs).

Definition last_used_index x keychain : option (option N) :=
  outputs ← keychain_outpoints x keychain;
  Some (fst <$> last outputs).
Definition last_used_indices x : option (gmap K N) :=
  used ← mapM (λ keychain, last ← last_used_index x keychain; Some (keychain, last))
    (map_iter (keychain_to_descriptor_id x)).*1;
  Some (list_to_map (omap (λ p : K * option N, i ← p.2; Some (p.1, i)) used)).

Definition keychain_all_outpoints x : gset (K * N * OutPoint) := outpoints (inner x).
Definition keychain_txouts x : list (K * N * OutPoint * TxOut) := indexed_txouts (inner x).
Definition keychain_txouts_in_tx x (txid : Txid) : list (K * N * OutPoint * TxOut) := txouts_in_tx (inner x) txid.
Definition keychain_txout x (outpoint : OutPoint) : option (K * N * TxOut) := txout (inner x) outpoint.
Definition keychain_index_of_spk x (script : Script) : option (K * N) := index_of_spk (inner x) script.
Definition keychain_spent_txouts x (tx : Transaction) : option (list (SpentTxOut (K * N))) := spent_txouts (inner x) tx.
Definition keychain_created_txouts x (tx : Transaction) : option (list (CreatedTxOut (K * N))) :=
  created_txouts (inner x) tx.
Definition keychain_spk_at_index x keychain (index : N) : option Script :=
  spk_at_index (inner x) (keychain, index).
Definition keychain_is_used x keychain (index : N) : bool := is_used (inner x) (keychain, index).
Definition keychain_mark_used x keychain (index : N) : KeychainTxOutIndex K * bool :=
  let '(i, b) := mark_used (inner x) (keychain, index) in (with_inner x i, b).
Definition keychain_unmark_used x keychain (index : N) : option (KeychainTxOutIndex K * bool) :=
  '(i, b) ← unmark_used (inner x) (keychain, index); Some (with_inner x i, b).
Definition keychain_sent_and_received x (tx : Transaction) (range : KeyRange K) : option (N * N) :=
  sent_and_received (inner x) tx (map_to_inner_bounds range).
Definition keychain_net_value x (tx : Transaction) (range : KeyRange K) : option Z :=
  net_value (inner x) tx (map_to_inner_bounds range).

Definition unbounded_spk_iter x keychain : option SpkIterator :=
  spk_iter_new <$> get_descriptor x keychain.
Definition all_unbounded_spk_iters x : option (gmap K SpkIterator) :=
  all ← keychains x;
  Some (list_to_map ((λ p : K * Descriptor, (p.1, spk_iter_new p.2)) <$> all)).
End index.
