(* ===== verification/KeychainFacts.v ===== *)
(** * The invariant of the keychain index

    Change sets merge by maxima and unions; the keychain index keeps, for every
    keychain, the scripts of an initial segment of indices that reaches the
    lookahead beyond the last revealed one. *)
From stdpp Require Import sorting.
From S2P Require Import Prelude Block Tx TxGraph TxGraphSpec SpkIndex SpkSpec SpkIter KeychainIndex.
#[local] Open Scope N_scope.

(** ** Change sets *)

Section changeset.
Context `{Scripts}.
Implicit Types cs : KeychainChangeSet.

(** A fold over a map that changes one key at a time. *)
Lemma fold_map_iter {V W} (f : gmap N W → N * V → gmap N W) (g : option W → option V → option W) m' m :
  (∀ m k v k', f m (k, v) !! k' = if decide (k' = k) then g (m !! k) (Some v) else m !! k') →
  (∀ o, g o None = o) →
  ∀ k, foldl f m (map_iter m') !! k = g (m !! k) (m' !! k).
Proof.
  intros Hf Hnone k.
  assert (∀ l m, NoDup l.*1 → foldl f m l !! k = g (m !! k) ((list_to_map l : gmap N V) !! k)) as Hall.
  { clear m m'. induction l as [|[k' v] l IH]; intros m Hnd; cbn [foldl list_to_map foldr fmap list_fmap fst] in *.
    - by rewrite lookup_empty, Hnone.
    - apply NoDup_cons in Hnd as [Hnin Hnd]. rewrite IH by done. cbn [list_to_map foldr]. rewrite Hf.
      cbn [fst snd]. case_decide as Hk.
      + subst k'. rewrite lookup_insert_eq. rewrite (not_elem_of_list_to_map_1 l k) by done.
        by rewrite Hnone.
      + by rewrite lookup_insert_ne by done. }
  rewrite Hall by apply NoDup_map_iter. by rewrite list_to_map_map_iter.
Qed.

Lemma merged_last_revealed a b k :
  kcs_last_revealed (merge a b) !! k =
  union_with (λ i j, Some (N.max i j)) (kcs_last_revealed a !! k) (kcs_last_revealed b !! k).
Proof.
  cbn [merge KeychainChangeSet_merge keychain_changeset_merge kcs_last_revealed].
  apply (fold_map_iter _ (union_with (λ i j, Some (N.max i j)))).
  - intros m k0 v k'. unfold merge_last_revealed. cbn [fst snd].
    destruct (m !! k0) as [old|] eqn:Hold.
    + destruct (N.ltb_spec old v); cbn iota; case_decide as Hk; subst.
      * rewrite lookup_insert_eq. cbn. f_equal. lia.
      * by rewrite lookup_insert_ne by done.
      * rewrite Hold. cbn. f_equal. lia.
      * done.
    + case_decide; subst; [by rewrite lookup_insert_eq|by rewrite lookup_insert_ne by done].
  - by intros [?|].
Qed.

Definition extended (a b : option (gmap N Script)) : option (gmap N Script) :=
  match b with Some b => Some (b ∪ default ∅ a) | None => a end.

Lemma extend_cache_fold (c c' : gmap DescriptorId (gmap N Script)) k :
  foldl extend_cache c (map_iter c') !! k = extended (c !! k) (c' !! k).
Proof.
  apply (fold_map_iter _ extended).
  - intros m k0 v k'. unfold extend_cache. cbn [fst snd].
    case_decide; subst; [by rewrite lookup_insert_eq|by rewrite lookup_insert_ne by done].
  - done.
Qed.

Lemma merged_spk_cache a b k :
  kcs_spk_cache (merge a b) !! k = extended (kcs_spk_cache a !! k) (kcs_spk_cache b !! k).
Proof. apply extend_cache_fold. Qed.

Lemma keychain_changeset_ext a b :
  (∀ k, kcs_last_revealed a !! k = kcs_last_revealed b !! k) →
  (∀ k, kcs_spk_cache a !! k = kcs_spk_cache b !! k) → a = b.
Proof. destruct a, b; cbn. intros Hl Hc. f_equal; by apply map_eq. Qed.

#[export] Instance KeychainChangeSet_laws : MergeLaws KeychainChangeSet.
Proof.
  split.
  - intros [l c]. cbn. rewrite andb_true_iff, !bool_decide_eq_true. unfold KeychainChangeSet_default.
    split; [intros [-> ->]; done|by intros [= -> ->]].
  - intros b. apply keychain_changeset_ext; intros k;
      rewrite ?merged_last_revealed, ?merged_spk_cache; cbn; rewrite lookup_empty.
    + by destruct (_ !! k).
    + destruct (kcs_spk_cache b !! k); [|done]. cbn. by rewrite map_union_empty.
  - intros a. apply keychain_changeset_ext; intros k;
      rewrite ?merged_last_revealed, ?merged_spk_cache; cbn; rewrite lookup_empty; [|done].
    by destruct (_ !! k).
  - intros a b c. apply keychain_changeset_ext; intros k; rewrite ?merged_last_revealed, ?merged_spk_cache.
    + destruct (kcs_last_revealed a !! k), (kcs_last_revealed b !! k), (kcs_last_revealed c !! k);
        cbn; f_equal; lia.
    + destruct (kcs_spk_cache a !! k), (kcs_spk_cache b !! k), (kcs_spk_cache c !! k); cbn;
        rewrite ?map_union_empty; try done; by rewrite (assoc_L (∪)).
Qed.
End changeset.

(** ** The descriptors of a wallet

    No two of them derive the same script, as the documentation asks of the
    caller, nor have the same id; and none needs hardened derivation. *)
Class DistinctDescriptors `{Descriptors} (family : Descriptor → Prop) : Prop := {
  family_derivable : ∀ d, family d → derivable d;
  family_distinct : ∀ d d' i i' s, family d → family d' → has_index d i → has_index d' i' →
    derived_spk d i = Some s → derived_spk d' i' = Some s → d = d' ∧ i = i';
  family_ids : ∀ d d' did, family d → family d' →
    descriptor_id d = Some did → descriptor_id d' = Some did → d = d';
}.

Section invariant.
Context `{BitcoinLaws, !Scripts, !Descriptors} {K : Type} `{Countable K} `{!TotalOrd K}.
Context (family : Descriptor → Prop) `{!DistinctDescriptors family}.
Implicit Types (x : KeychainTxOutIndex K) (keychain : K) (did : DescriptorId) (d : Descriptor).

(** The script is derived at the index of the keychain. *)
Definition derived_at x (ki : K * N) (s : Script) : Prop :=
  ∃ d, get_descriptor x ki.1 = Some d ∧ has_index d ki.2 ∧ derived_spk d ki.2 = Some s.

(** The scripts stored of the keychain are those of the first [n] indices. *)
Definition stored x keychain (n : N) : Prop :=
  ∀ i, is_Some (spks (inner x) !! (keychain, i)) ↔ i < n.

(** The revealed index is one of the descriptor's, and not the very last. *)
Definition revealed_ok did (i : N) : Prop :=
  i < BIP32_MAX_INDEX ∧ ∀ d, family d → descriptor_id d = Some did → has_wildcard d = false → i = 0.

(** Cached scripts are the ones derived. *)
Definition cache_ok (cache : gmap DescriptorId (gmap N Script)) : Prop :=
  ∀ d did c i s, family d → descriptor_id d = Some did → cache !! did = Some c → c !! i = Some s →
    derived_spk d i = Some s.

(** Staged scripts are in the cache. *)
Definition staged_ok (cache : gmap DescriptorId (gmap N Script))
    (stage : gmap DescriptorId (list (N * Script))) : Prop :=
  ∀ did l, stage !! did = Some l → ∃ c, cache !! did = Some c ∧ ∀ p, p ∈ l → c !! p.1 = Some p.2.

(** What holds also while scripts are being added. *)
Record keychain_base x : Prop := {
  kb_inner : spk_ok (inner x);
  kb_bijection : ∀ k did, keychain_to_descriptor_id x !! k = Some did ↔
    descriptor_id_to_keychain x !! did = Some k;
  kb_descriptors : ∀ k did, keychain_to_descriptor_id x !! k = Some did →
    ∃ d, descriptors x !! did = Some d ∧ descriptor_id d = Some did ∧ family d;
  kb_indices : ∀ s ki, spk_indices (inner x) !! s = Some ki → derived_at x ki s;
  kb_revealed : ∀ did i, last_revealed x !! did = Some i → revealed_ok did i;
  kb_lookahead : lookahead x < 2 ^ 31;
  kb_cache : cache_ok (spk_cache x);
  kb_stage : staged_ok (spk_cache x) (spk_cache_stage x);
  kb_stored : ∀ k did, keychain_to_descriptor_id x !! k = Some did → ∃ n, stored x k n;
}.

(** The lookahead of the keychain is stored as well. *)
Definition looked_ahead x keychain : Prop :=
  ∀ did d n, keychain_to_descriptor_id x !! keychain = Some did → descriptors x !! did = Some d →
    stored x keychain n → stop_index x did d (lookahead x) ≤ n.
(** The very last index is never stored. *)
Definition below_max x : Prop := ∀ k i, is_Some (spks (inner x) !! (k, i)) → i < BIP32_MAX_INDEX.

Record keychain_ok x : Prop := {
  ko_base :> keychain_base x;
  ko_below : below_max x;
  ko_lookahead : ∀ k, looked_ahead x k;
}.

(** Everything but scripts and caches. *)
Definition frame x :=
  (keychain_to_descriptor_id x, descriptor_id_to_keychain x, descriptors x, lookahead x, persist_spks x,
   last_revealed x, txouts (inner x), spk_txouts (inner x)).

(** [x'] has more scripts of [keychain] than [x], and is the same otherwise. *)
Record extends keychain x x' : Prop := {
  ex_frame : frame x' = frame x;
  ex_spks : spks (inner x) ⊆ spks (inner x');
  ex_others : ∀ k i, k ≠ keychain → spks (inner x') !! (k, i) = spks (inner x) !! (k, i);
}.

#[export] Instance extends_preorder keychain : PreOrder (extends keychain).
Proof.
  split; [by intros x; split|]. intros x y z [Hf Hs Ho] [Hf' Hs' Ho']. split.
  - by rewrite Hf'.
  - by etrans.
  - intros k i Hk. by rewrite Ho', Ho.
Qed.

Lemma frame_fields x x' :
  frame x' = frame x →
  keychain_to_descriptor_id x' = keychain_to_descriptor_id x ∧
  descriptor_id_to_keychain x' = descriptor_id_to_keychain x ∧ descriptors x' = descriptors x ∧
  lookahead x' = lookahead x ∧ persist_spks x' = persist_spks x ∧ last_revealed x' = last_revealed x.
Proof. unfold frame. intros [=]. done. Qed.

Lemma frame_get_descriptor x x' k : frame x' = frame x → get_descriptor x' k = get_descriptor x k.
Proof. intros (Hk & _ & Hd & _)%frame_fields. unfold get_descriptor. by rewrite Hk, Hd. Qed.

Lemma get_descriptor_base x k d :
  keychain_base x → get_descriptor x k = Some d →
  family d ∧ ∃ did, keychain_to_descriptor_id x !! k = Some did ∧ descriptors x !! did = Some d ∧
    descriptor_id d = Some did.
Proof.
  intros Hx. unfold get_descriptor. destruct (keychain_to_descriptor_id x !! k) as [did|] eqn:Hk; [|done].
  cbn. intros Hd. destruct (kb_descriptors _ Hx _ _ Hk) as (d' & Hd' & Hid & Hfam).
  rewrite Hd in Hd'. injection Hd' as <-. split; [done|]. by exists did.
Qed.

Lemma keychain_descriptor x k did :
  keychain_base x → keychain_to_descriptor_id x !! k = Some did →
  ∃ d, get_descriptor x k = Some d ∧ descriptors x !! did = Some d ∧ descriptor_id d = Some did ∧ family d.
Proof.
  intros Hx Hk. destruct (kb_descriptors _ Hx _ _ Hk) as (d & Hd & Hid & Hfam). exists d.
  split_and!; try done. unfold get_descriptor. by rewrite Hk.
Qed.

(** A script belongs to at most one index of one keychain. *)
Lemma derived_at_fun x ki ki' s :
  keychain_base x → derived_at x ki s → derived_at x ki' s → ki = ki'.
Proof.
  intros Hx (d & Hd & Hi & Hs) (d' & Hd' & Hi' & Hs').
  destruct (get_descriptor_base _ _ _ Hx Hd) as (Hf & did & Hk & _ & Hid).
  destruct (get_descriptor_base _ _ _ Hx Hd') as (Hf' & did' & Hk' & _ & Hid').
  destruct (family_distinct d d' ki.2 ki'.2 s) as [<- Heq]; try done.
  assert (did = did') as <- by congruence. apply (kb_bijection _ Hx) in Hk, Hk'.
  destruct ki, ki'; cbn in *. congruence.
Qed.

Lemma spks_derived x ki s : keychain_base x → spks (inner x) !! ki = Some s → derived_at x ki s.
Proof. intros Hx Hs. apply (kb_indices _ Hx). by apply (spk_forward _ (kb_inner _ Hx)). Qed.

(** The other way round: a derived script that is indexed is stored. *)
Lemma stored_derived x ki s n :
  keychain_base x → derived_at x ki s → stored x ki.1 n → ki.2 < n →
  spks (inner x) !! ki = Some s ∧ spk_indices (inner x) !! s = Some ki.
Proof.
  intros Hx Hd Hn Hlt. apply Hn in Hlt as [s' Hs']. rewrite <-surjective_pairing in Hs'.
  pose proof (spks_derived _ _ _ Hx Hs') as (d' & Hd' & _ & Hs1).
  destruct Hd as (d & Hdd & Hi & Hs). assert (s' = s) as -> by congruence.
  split; [done|]. by apply (spk_forward _ (kb_inner _ Hx)).
Qed.

Lemma stored_inj x k n m : stored x k n → stored x k m → n = m.
Proof.
  intros Hn Hm. destruct (N.lt_trichotomy n m) as [Hlt|[->|Hlt]]; [|done|].
  - apply Hm, Hn in Hlt. lia.
  - apply Hn, Hm in Hlt. lia.
Qed.

Lemma stored_bound x k n d :
  keychain_base x → get_descriptor x k = Some d → stored x k n →
  n ≤ BIP32_MAX_INDEX + 1 ∧ (has_wildcard d = false → n ≤ 1).
Proof.
  intros Hx Hd Hn. destruct (N.eq_0_gt_0_cases n) as [->|Hpos]; [lia|].
  assert (n - 1 < n) as Hlt by lia. apply Hn in Hlt as [s Hs].
  destruct (spks_derived _ _ _ Hx Hs) as (d' & Hd' & [Hi Hw] & _). cbn in *.
  rewrite Hd in Hd'. injection Hd' as <-. split; [lia|]. intros Hf. destruct Hw; [congruence|lia].
Qed.

(** ** Adding scripts *)

Lemma insert_inner_spec x k d i s :
  keychain_base x → get_descriptor x k = Some d → has_index d i → derived_spk d i = Some s → stored x k i →
  let x' := insert_inner x k (i, s) in
  keychain_base x' ∧ extends k x x' ∧ stored x' k (i + 1) ∧
  spk_cache x' = spk_cache x ∧ spk_cache_stage x' = spk_cache_stage x.
Proof.
  intros Hx Hd Hi Hs Hn. cbn zeta.
  assert (derived_at x (k, i) s) as Hder by (exists d; done).
  assert (spks (inner x) !! (k, i) = None) as Hfresh.
  { apply eq_None_not_Some. intros Hlt%Hn. lia. }
  assert (spk_indices (inner x) !! s = None) as Hnone.
  { destruct (spk_indices (inner x) !! s) as [ki|] eqn:Hki; [|done].
    pose proof (derived_at_fun _ _ _ _ Hx Hder (kb_indices _ Hx _ _ Hki)) as <-.
    apply (spk_backward _ (kb_inner _ Hx)) in Hki as [? ?]. congruence. }
  set (x' := insert_inner x k (i, s)).
  assert (inner x' = mkSpkTxOutIndex (<[(k, i) := s]> (spks (inner x))) (<[s := (k, i)]> (spk_indices (inner x)))
    ({[(k, i)]} ∪ unused (inner x)) (txouts (inner x)) (spk_txouts (inner x))) as Hinner.
  { unfold x', insert_inner, insert_spk. cbn [fst snd inner with_inner]. by rewrite Hnone. }
  assert (frame x' = frame x) as Hframe.
  { unfold frame. rewrite Hinner. done. }
  assert (extends k x x') as Hext.
  { split; [done| |]; rewrite Hinner; cbn [spks].
    - by apply insert_subseteq.
    - intros k' j Hk. rewrite lookup_insert_ne; [done|]. congruence. }
  assert (stored x' k (i + 1)) as Hstored.
  { intros j. rewrite Hinner. cbn [spks]. rewrite lookup_insert_is_Some, (Hn j). split.
    - intros [[= ->]|[_ Hj]]; lia.
    - intros Hj. destruct (decide (i = j)) as [->|Hne]; [by left|]. right. split; [congruence|lia]. }
  split_and!; try done.
  destruct (Hx) as [Bi Bb Bd Bs Br Bl Bc Bg Bn]. split; try done.
  - unfold x', insert_inner. cbn [inner with_inner]. apply insert_spk_ok; [done|by left].
  - intros s' ki. rewrite Hinner. cbn [spk_indices]. rewrite lookup_insert_Some.
    intros [[<- <-]|[_ Hki]]; [by exists d|by apply Bs].
  - intros k' did Hk'. destruct (decide (k' = k)) as [->|Hne]; [by exists (i + 1)|].
    destruct (Bn k' did Hk') as [n Hn']. exists n. intros j. by rewrite (ex_others _ _ _ Hext).
Qed.

(** The indices from the first missing one on, up to an end. *)
Lemma foldl_insert_inner x k d n end_ items :
  keychain_base x → get_descriptor x k = Some d → stored x k n →
  derived_spks d (range_exclusive n end_) = Some items →
  (∀ i, n ≤ i < end_ → has_index d i) →
  let x' := foldl (λ x p, insert_inner x k p) x items in
  keychain_base x' ∧ extends k x x' ∧ stored x' k (N.max n end_) ∧
  spk_cache x' = spk_cache x ∧ spk_cache_stage x' = spk_cache_stage x.
Proof.
  remember (N.to_nat (end_ - n)) as fuel eqn:Hfuel. revert n x items Hfuel.
  induction fuel as [|fuel IH]; intros n x items Hfuel Hx Hd Hn Hitems Hidx; cbn zeta.
  - rewrite range_exclusive_nil in Hitems by lia. injection Hitems as <-. cbn [foldl].
    rewrite N.max_l by lia. by split_and!.
  - rewrite range_exclusive_cons in Hitems by lia. unfold derived_spks in Hitems. cbn [mapM] in Hitems.
    destruct (derived_spk d n) as [s|] eqn:Hs; [|done]. cbn [mbind option_bind] in Hitems.
    destruct (mapM _ (range_exclusive (n + 1) end_)) as [rest|] eqn:Hrest; [|done].
    injection Hitems as <-. cbn [foldl].
    destruct (insert_inner_spec x k d n s Hx Hd (Hidx n ltac:(lia)) Hs Hn) as (Hx1 & He1 & Hn1 & Hc1 & Hg1).
    destruct (IH (n + 1) (insert_inner x k (n, s)) rest) as (Hx2 & He2 & Hn2 & Hc2 & Hg2); try done.
    + lia.
    + intros i Hi. apply Hidx. lia.
    + split_and!; [done|by etrans| | |].
      * by replace (N.max n end_) with (N.max (n + 1) end_) by lia.
      * by rewrite Hc2.
      * by rewrite Hg2.
Qed.

(** The cache and the stage change, and keep what makes them right. *)
Lemma with_cache_base x cache stage :
  keychain_base x → cache_ok cache → staged_ok cache stage → keychain_base (with_cache x cache stage).
Proof. intros [] Hc Hs. by split. Qed.

Lemma cache_ok_insert cache did d i s :
  cache_ok cache → family d → descriptor_id d = Some did → derived_spk d i = Some s →
  cache_ok (<[did := <[i := s]> (default ∅ (cache !! did))]> cache).
Proof.
  intros Hc Hf Hid Hs d' did' c i' s' Hf' Hid'. rewrite lookup_insert_Some.
  intros [[<- <-]|[_ Hl]]; [|by apply (Hc d' did' c)].
  assert (d' = d) as -> by by eapply family_ids.
  rewrite lookup_insert_Some. intros [[<- <-]|[_ Hl]]; [done|].
  destruct (cache !! did) as [c0|] eqn:Hc0; [by apply (Hc d did c0)|]. cbn in Hl. by rewrite lookup_empty in Hl.
Qed.

Lemma staged_ok_insert cache stage did i s :
  staged_ok cache stage → default ∅ (cache !! did) !! i = None →
  staged_ok (<[did := <[i := s]> (default ∅ (cache !! did))]> cache)
    (<[did := default [] (stage !! did) ++ [(i, s)]]> stage).
Proof.
  intros Hs Hfresh did' l. rewrite lookup_insert_Some. intros [[<- <-]|[Hne Hl]].
  - eexists. split; [apply lookup_insert_eq|]. intros p [Hp| ->%list_elem_of_singleton]%elem_of_app.
    + destruct (stage !! did) as [l0|] eqn:Hl0; [|by apply elem_of_nil in Hp]. cbn in Hp.
      destruct (Hs did l0 Hl0) as (c & Hc & Hall). rewrite Hc in *. cbn in *.
      rewrite lookup_insert_ne; [by apply Hall|]. intros ->. rewrite (Hall p Hp) in Hfresh. done.
    + cbn. apply lookup_insert_eq.
  - rewrite lookup_insert_ne by done. by apply Hs.
Qed.

Lemma replenish_cached_spec x did k d i :
  keychain_base x → keychain_to_descriptor_id x !! k = Some did → descriptors x !! did = Some d →
  has_index d i → stored x k i →
  ∃ x', replenish_cached did k d x i = Some x' ∧
    keychain_base x' ∧ extends k x x' ∧ stored x' k (i + 1).
Proof.
  intros Hx Hk Hdid Hi Hn.
  destruct (keychain_descriptor _ _ _ Hx Hk) as (d' & Hd & Hd2 & Hid & Hf).
  rewrite Hdid in Hd2. injection Hd2 as <-. unfold replenish_cached.
  destruct (default ∅ (spk_cache x !! did) !! i) as [s|] eqn:Hc.
  - assert (derived_spk d i = Some s) as Hs.
    { destruct (spk_cache x !! did) as [c|] eqn:Hcd; [|cbn in Hc; by rewrite lookup_empty in Hc].
      by apply (kb_cache _ Hx d did c). }
    eexists. split; [done|]. by destruct (insert_inner_spec x k d i s Hx Hd Hi Hs Hn) as (? & ? & ? & _).
  - destruct (family_derivable d Hf i) as [s Hs]; [apply Hi|]. rewrite Hs. cbn [mbind option_bind].
    set (x1 := with_cache x _ _). eexists. split; [done|].
    assert (keychain_base x1) as Hx1.
    { apply with_cache_base; [done|by apply (cache_ok_insert _ _ d), Hs; [apply kb_cache| |]|].
      by apply staged_ok_insert; [apply kb_stage|]. }
    destruct (insert_inner_spec x1 k d i s Hx1 Hd Hi Hs Hn) as (? & He & ? & _).
    split_and!; [done| |done]. etrans; [|exact He]. by split.
Qed.

Lemma try_fold_cached x did k d n end_ :
  keychain_base x → keychain_to_descriptor_id x !! k = Some did → descriptors x !! did = Some d →
  stored x k n → (∀ i, n ≤ i < end_ → has_index d i) →
  ∃ x', try_fold (replenish_cached did k d) x (range_exclusive n end_) = Some x' ∧
    keychain_base x' ∧ extends k x x' ∧ stored x' k (N.max n end_).
Proof.
  remember (N.to_nat (end_ - n)) as fuel eqn:Hfuel. revert n x Hfuel.
  induction fuel as [|fuel IH]; intros n x Hfuel Hx Hk Hd Hn Hidx.
  - rewrite range_exclusive_nil by lia. exists x. rewrite N.max_l by lia. by split_and!.
  - rewrite range_exclusive_cons by lia. cbn [try_fold].
    destruct (replenish_cached_spec x did k d n Hx Hk Hd (Hidx n ltac:(lia)) Hn) as (x1 & -> & Hx1 & He1 & Hn1).
    cbn [mbind option_bind]. destruct (frame_fields _ _ (ex_frame _ _ _ He1)) as (Ek & _ & Ed & _).
    destruct (IH (n + 1) x1) as (x2 & -> & Hx2 & He2 & Hn2); try done.
    + lia.
    + by rewrite Ek.
    + by rewrite Ed.
    + intros i Hi. apply Hidx. lia.
    + exists x2. split_and!; [done|done|by etrans|]. by replace (N.max n end_) with (N.max (n + 1) end_) by lia.
Qed.

(** ** Replenishing *)

Lemma keychain_range_contains (k k' : K) i :
  range_contains (mkKeyRange (KIncluded (k, 0)) (KIncluded (k, U32_MAX))) (k', i) = true ↔
  k' = k ∧ i ≤ U32_MAX.
Proof.
  unfold range_contains, after_start, before_end. cbn [start_bound end_bound].
  rewrite andb_true_iff, !bool_decide_eq_true. unfold tle; cbn. unfold lex_le. cbn. split.
  - intros [[[Ha Hn]|[Ek _]] [[Hb Hn']|[Ek' Hi]]]; subst; try done.
    destruct Hn. by apply (anti_symm (tle (K:=K))).
  - intros [-> Hi]. split; right; (split; [done|]); [apply N.le_0_l|done].
Qed.

Lemma spks_range_keychain x k :
  spks_range x (mkKeyRange (KIncluded (k, 0)) (KIncluded (k, U32_MAX))) =
  Some (filter (λ p : K * N * Script, p.1.1 = k ∧ p.1.2 ≤ U32_MAX) (map_iter (spks (inner x)))).
Proof.
  unfold spks_range. assert (range_valid (mkKeyRange (KIncluded (k, 0)) (KIncluded (k, U32_MAX))) = true) as ->.
  { apply bool_decide_eq_true_2. right. split; [done|]. apply N.le_0_l. }
  f_equal. apply list_filter_iff. intros [[k' i] s]. cbn [fst snd]. apply keychain_range_contains.
Qed.

(** The last stored index tells how many there are. *)
Lemma next_stored_index_spec x k n :
  stored x k n → n ≤ BIP32_MAX_INDEX + 1 → next_stored_index x k = Some n.
Proof.
  intros Hn Hb. unfold next_stored_index. rewrite spks_range_keychain. cbn [mbind option_bind]. f_equal.
  set (l := filter _ _).
  assert (∀ k' i s, (k', i, s) ∈ l ↔ k' = k ∧ i ≤ U32_MAX ∧ spks (inner x) !! (k', i) = Some s) as Hl.
  { intros k' i s. unfold l. rewrite list_elem_of_filter, elem_of_map_iter. cbn [fst snd]. tauto. }
  assert (StronglySorted key_lt l) as Hs by apply StronglySorted_filter, map_iter_sorted.
  destruct (N.eq_0_gt_0_cases n) as [->|Hpos].
  - assert (l = []) as ->; [|done].
    destruct l as [|[[k' i] s] l']; [done|]. exfalso.
    destruct (proj1 (Hl k' i s)) as (-> & _ & Hi); [by left|].
    apply (mk_is_Some) in Hi. apply Hn in Hi. lia.
  - assert (n - 1 < n) as Hlt by lia. apply Hn in Hlt as [s Hlast].
    assert ((k, n - 1, s) ∈ l) as Hin.
    { apply Hl. split_and!; [done| |done]. rewrite bip32_value in Hb. unfold U32_MAX. lia. }
    destruct (last l) as [[[k' i] s']|] eqn:Hlst.
    2:{ apply last_None in Hlst. rewrite Hlst in Hin. by apply elem_of_nil in Hin. }
    pose proof (last_Some_elem_of _ _ Hlst) as (-> & Hi32 & Hi)%Hl.
    assert (i = n - 1) as ->.
    { apply mk_is_Some, Hn in Hi. destruct (decide (i = n - 1)) as [|Hne]; [done|]. exfalso.
      apply list_elem_of_lookup in Hin as [a Ha]. rewrite last_lookup in Hlst.
      assert (a < length l)%nat by by eapply lookup_lt_Some.
      destruct (decide (a = pred (length l))) as [->|Hna]; [congruence|].
      assert (key_lt (k, n - 1, s) (k, i, s')) as [Hle _].
      { eapply (StronglySorted_lookup key_lt l a (pred (length l))); [done..|lia]. }
      cbn in Hle. destruct Hle as [[_ []]|[_ Hle]]; [done|]. cbn in Hle. lia. }
    unfold wrapping_add_u32. rewrite N.mod_small; [lia|]. rewrite bip32_value in Hb. lia.
Qed.

Lemma stop_index_bound x did d la : stop_index x did d la ≤ BIP32_MAX_INDEX.
Proof. unfold stop_index. destruct (has_wildcard d); [lia|]. rewrite bip32_value. lia. Qed.

Lemma stop_index_has_index x did d la i : i < stop_index x did d la → has_index d i.
Proof.
  intros Hi. pose proof (stop_index_bound x did d la). split; [lia|].
  unfold stop_index in Hi. destruct (has_wildcard d); [by left|right; lia].
Qed.

(** Both kinds of descriptors: the indices from the first missing one on. *)
Lemma missing_spks x k did d la n :
  keychain_base x → get_descriptor x k = Some d → stored x k n →
  spk_iter_collect (spk_iter_with_range d (mkKeyRange (KIncluded n) (KExcluded (stop_index x did d la)))) =
  derived_spks d (range_exclusive n (stop_index x did d la)).
Proof.
  intros Hx Hd Hn. pose proof (stop_index_bound x did d la).
  unfold spk_iter_with_range. cbn [start_bound end_bound]. rewrite N.min_l by lia.
  destruct (has_wildcard d) eqn:Hw; [by apply spk_iter_wildcard|]. rewrite spk_iter_fixed by done.
  destruct (stored_bound _ _ _ _ Hx Hd Hn) as [_ Hle]. specialize (Hle Hw).
  unfold stop_index. rewrite Hw. assert (n = 0 ∨ n = 1) as [-> | ->] by lia; done.
Qed.

Lemma replenish_spec x k did d la n :
  keychain_base x → keychain_to_descriptor_id x !! k = Some did → descriptors x !! did = Some d →
  stored x k n →
  ∃ x', replenish_inner_index x did k la = Some x' ∧
    keychain_base x' ∧ extends k x x' ∧ stored x' k (N.max n (stop_index x did d la)).
Proof.
  intros Hx Hk Hdid Hn.
  destruct (keychain_descriptor _ _ _ Hx Hk) as (d' & Hd & Hd2 & Hid & Hf).
  rewrite Hdid in Hd2. injection Hd2 as <-.
  unfold replenish_inner_index. rewrite Hdid. cbn [mbind option_bind].
  rewrite (next_stored_index_spec x k n) by (try done; by eapply stored_bound). cbn [mbind option_bind].
  destruct (persist_spks x).
  - set (x1 := with_cache x _ _).
    assert (keychain_base x1) as Hx1.
    { apply with_cache_base; [done| |].
      - intros d1 did1 c i s Hf1 Hid1. rewrite lookup_insert_Some.
        intros [[<- <-]|[_ Hl]]; [|by apply (kb_cache _ Hx d1 did1 c)].
        destruct (spk_cache x !! did) as [c|] eqn:Hc; [|cbn; by rewrite lookup_empty].
        by apply (kb_cache _ Hx d1 did c).
      - intros did1 l. rewrite lookup_insert_Some. intros [[<- <-]|[Hne Hl]].
        + eexists. split; [apply lookup_insert_eq|]. intros p Hp.
          destruct (spk_cache_stage x !! did) as [l0|] eqn:Hl0; [|by apply elem_of_nil in Hp].
          destruct (kb_stage _ Hx did l0 Hl0) as (c & -> & Hall). by apply Hall.
        + rewrite lookup_insert_ne by done. by apply (kb_stage _ Hx). }
    destruct (try_fold_cached x1 did k d n (stop_index x did d la)) as (x' & Hx' & Hb & He & Hs); try done.
    { intros i [_ Hi]. by eapply stop_index_has_index. }
    exists x'. split_and!; [done|done| |done]. etrans; [|exact He]. by split.
  - rewrite (missing_spks x k did d la n) by done.
    destruct (derived_spks_Some d (range_exclusive n (stop_index x did d la))) as [items Hitems].
    { by apply family_derivable. }
    { apply Forall_forall. intros i Hi%elem_of_range_exclusive. pose proof (stop_index_bound x did d la). lia. }
    rewrite Hitems. cbn [mbind option_bind]. eexists. split; [done|].
    destruct (foldl_insert_inner x k d n (stop_index x did d la) items) as (? & ? & ? & _); try done.
    intros i [_ Hi]. by eapply stop_index_has_index.
Qed.
End invariant.
