(* ===== verification/KeychainSpec.v ===== *)
(** * What the keychain index promises

    Its operations keep the invariant and do not panic; revealing yields the
    scripts of consecutive indices; the lookahead finds outputs that pay scripts
    which were never revealed. *)
From S2P Require Import Prelude Block Tx TxGraph TxGraphSpec SpkIndex SpkSpec SpkIter KeychainIndex KeychainFacts.
#[local] Open Scope N_scope.

Section spec.
Context `{BitcoinLaws, !Scripts, !Descriptors, !WidthLaws} {K : Type} `{Countable K} `{!TotalOrd K}.
Context (family : Descriptor → Prop) `{!DistinctDescriptors family}.
Implicit Types (x : KeychainTxOutIndex K) (keychain : K) (did : DescriptorId) (d : Descriptor).
Implicit Types (cs : KeychainChangeSet).

Notation keychain_base := (keychain_base family).
Notation keychain_ok := (keychain_ok family).
Notation revealed_ok := (revealed_ok family).

(** ** One keychain at a time *)

Lemma keychain_ids_distinct x k k' did :
  keychain_base x → keychain_to_descriptor_id x !! k = Some did →
  keychain_to_descriptor_id x !! k' = Some did → k = k'.
Proof. intros Hx Hk%(kb_bijection _ _ Hx) Hk'%(kb_bijection _ _ Hx). congruence. Qed.

(** What depends on the frame and on the scripts of a keychain. *)
Lemma looked_ahead_frame x x' k :
  frame x' = frame x → (∀ i, spks (inner x') !! (k, i) = spks (inner x) !! (k, i)) →
  looked_ahead x k → looked_ahead x' k.
Proof.
  intros (Ek & _ & Ed & El & _ & Er)%frame_fields Hspks Hx did d n. rewrite Ek, Ed, El. unfold stop_index.
  rewrite Er. intros Hk Hd Hn. apply (Hx did d n Hk Hd). intros i. by rewrite <-Hspks.
Qed.

Lemma replenish_ok x k did d la :
  keychain_base x → below_max x → keychain_to_descriptor_id x !! k = Some did → descriptors x !! did = Some d →
  (∀ k', k' ≠ k → looked_ahead x k') → la = lookahead x ∨ looked_ahead x k →
  ∃ x' n, replenish_inner_index x did k la = Some x' ∧ keychain_ok x' ∧ extends k x x' ∧
    stored x' k n ∧ stop_index x did d la ≤ n.
Proof.
  intros Hx Hmax Hk Hd Hothers Hla. destruct (kb_stored _ _ Hx k did Hk) as [n Hn].
  destruct (replenish_spec family x k did d la n Hx Hk Hd Hn) as (x' & Hrun & Hx' & Hext & Hn').
  exists x', (N.max n (stop_index x did d la)). split_and!; [done| |done|done|lia].
  split; [done| |].
  - intros k' i Hi. destruct (decide (k' = k)) as [->|Hne].
    + apply Hn' in Hi. pose proof (stop_index_bound x did d la).
      destruct (N.ltb_spec i n) as [Hlt|]; [by apply (Hmax k), Hn|lia].
    + rewrite (ex_others _ _ _ Hext) in Hi by done. by apply (Hmax k').
  - intros k'. destruct (decide (k' = k)) as [->|Hne].
    + intros did1 d1 n1. destruct (frame_fields _ _ (ex_frame _ _ _ Hext)) as (Ek & _ & Ed & El & _ & Er).
      rewrite Ek, Ed, El, Hk. intros [= <-]. rewrite Hd. intros [= <-] Hn1.
      rewrite (stored_inj _ _ _ _ Hn1 Hn'). replace (stop_index x' did d (lookahead x))
        with (stop_index x did d (lookahead x)) by (unfold stop_index; by rewrite Er).
      destruct Hla as [->|Hla]; [lia|]. pose proof (Hla did d n Hk Hd Hn). lia.
    + apply (looked_ahead_frame x); [by eapply ex_frame|intros i; by eapply ex_others|by apply Hothers].
Qed.

(** ** Revealing an index *)

Definition set_revealed x did (i : N) : KeychainTxOutIndex K :=
  with_last_revealed x (<[did := i]> (last_revealed x)).

Lemma set_revealed_base x did i : keychain_base x → revealed_ok did i → keychain_base (set_revealed x did i).
Proof.
  intros [] Hi. split; try done. intros did' i'. cbn [last_revealed set_revealed with_last_revealed].
  rewrite lookup_insert_Some. intros [[<- <-]|[_ ?]]; [done|]. by eapply kb_revealed.
Qed.

Lemma set_revealed_others x did i k :
  keychain_to_descriptor_id x !! k ≠ Some did → looked_ahead x k → looked_ahead (set_revealed x did i) k.
Proof.
  intros Hk Hx did' d n Hk' Hd Hn. cbn in Hk'. assert (did ≠ did') as Hne by congruence.
  specialize (Hx did' d n Hk' Hd Hn). unfold stop_index in *.
  cbn [last_revealed set_revealed with_last_revealed lookahead]. by rewrite lookup_insert_ne by done.
Qed.

Lemma stop_index_revealed x did d i :
  last_revealed x !! did = Some i → i < BIP32_MAX_INDEX → lookahead x < 2 ^ 31 →
  (has_wildcard d = false → i = 0) →
  stop_index x did d (lookahead x) =
    if has_wildcard d then N.min (i + 1 + lookahead x) BIP32_MAX_INDEX else 1.
Proof.
  intros Hi Hb Hla Hw. unfold stop_index. destruct (has_wildcard d); [|done]. rewrite Hi.
  unfold wrapping_add_u32. rewrite bip32_value in *. change (2 ^ 32) with 4294967296.
  change (2 ^ 31) with 2147483648 in Hla. rewrite (N.mod_small (i + 1)) by lia. by rewrite N.mod_small by lia.
Qed.

Lemma stop_index_unrevealed x did d :
  last_revealed x !! did = None → lookahead x < 2 ^ 31 →
  stop_index x did d (lookahead x) =
    if has_wildcard d then N.min (lookahead x) BIP32_MAX_INDEX else 1.
Proof.
  intros Hi Hla. unfold stop_index. destruct (has_wildcard d); [|done]. rewrite Hi.
  unfold wrapping_add_u32. change (2 ^ 32) with 4294967296.
  change (2 ^ 31) with 2147483648 in Hla. by rewrite N.mod_small by lia.
Qed.

(** The index is revealed, and the lookahead follows. *)
Lemma reveal_index_ok x k did d i :
  keychain_ok x → keychain_to_descriptor_id x !! k = Some did → descriptors x !! did = Some d →
  revealed_ok did i →
  ∃ x', replenish_inner_index (set_revealed x did i) did k (lookahead x) = Some x' ∧ keychain_ok x' ∧
    extends k (set_revealed x did i) x' ∧ ∃ s, spks (inner x') !! (k, i) = Some s ∧ derived_spk d i = Some s.
Proof.
  intros [Hx Hmax Hall] Hk Hd Hi. pose proof (set_revealed_base x did i Hx Hi) as Hy.
  destruct (keychain_descriptor family _ _ _ Hx Hk) as (d' & Hget & Hd' & Hid & Hf).
  rewrite Hd in Hd'. injection Hd' as <-.
  destruct (replenish_ok (set_revealed x did i) k did d (lookahead (set_revealed x did i)) Hy)
    as (x' & n & Hrun & Hx' & Hext & Hn & Hstop); [done|done|done| |by left|].
  { intros k' Hne. apply set_revealed_others; [|apply Hall]. intros Hk'. by destruct Hne; eapply keychain_ids_distinct. }
  exists x'. split_and!; [done|done|done|].
  assert (i < n) as Hlt.
  { eapply N.lt_le_trans; [|exact Hstop].
    destruct Hi as [Hi Hw]. rewrite (stop_index_revealed _ did d i).
    - destruct (has_wildcard d) eqn:Hwd; [lia|]. rewrite (Hw d Hf Hid Hwd). lia.
    - cbn. apply lookup_insert_eq.
    - done.
    - by apply (kb_lookahead _ _ Hy).
    - by apply Hw. }
  apply Hn in Hlt as [s Hs]. exists s. split; [done|].
  destruct (spks_derived family _ _ _ Hx' Hs) as (d' & Hd' & _ & Hds).
  rewrite (frame_get_descriptor _ _ _ (ex_frame _ _ _ Hext)) in Hd'. change (get_descriptor x k = Some d') in Hd'.
  cbn [snd] in Hds. congruence.
Qed.

Lemma revealed_frame x x' k did i :
  extends k (set_revealed x did i) x' →
  keychain_to_descriptor_id x' = keychain_to_descriptor_id x ∧ descriptors x' = descriptors x ∧
  lookahead x' = lookahead x ∧ persist_spks x' = persist_spks x ∧
  last_revealed x' = <[did := i]> (last_revealed x) ∧
  txouts (inner x') = txouts (inner x) ∧ spks (inner x) ⊆ spks (inner x').
Proof. intros [Hf Hs _]. unfold frame in Hf. injection Hf. intros. by split_and!. Qed.

(** ** The next index *)

(** The index to reveal next, when there is one. *)
Definition next_revealed x did : N :=
  match last_revealed x !! did with Some i => i + 1 | None => 0 end.

Lemma next_index_spec x k did d :
  keychain_base x → keychain_to_descriptor_id x !! k = Some did → descriptors x !! did = Some d →
  next_index x k = Some (Some (if has_wildcard d then (next_revealed x did, true)
    else (0, bool_decide (last_revealed x !! did = None)))).
Proof.
  intros Hx Hk Hd. unfold next_index, next_revealed. rewrite Hk, Hd. cbn [mbind option_bind].
  destruct (last_revealed x !! did) as [i|] eqn:Hi.
  - destruct (has_wildcard d); cbn [negb]; [|done].
    destruct (kb_revealed _ _ Hx did i Hi) as [Hlt _].
    destruct (N.ltb_spec BIP32_MAX_INDEX i); [lia|]. destruct (N.eqb_spec i BIP32_MAX_INDEX); [lia|]. done.
  - by destruct (has_wildcard d).
Qed.

Lemma revealed_ok_intro did d i :
  family d → descriptor_id d = Some did → i < BIP32_MAX_INDEX → (has_wildcard d = false → i = 0) →
  revealed_ok did i.
Proof.
  intros Hf Hid Hi Hw. split; [done|]. intros d' Hf' Hid'.
  assert (d' = d) as -> by by eapply family_ids. done.
Qed.

(** There is an index left to reveal. *)
Definition can_reveal x did d : Prop :=
  if has_wildcard d then next_revealed x did < BIP32_MAX_INDEX else last_revealed x !! did = None.

#[export] Instance can_reveal_dec x did d : Decision (can_reveal x did d).
Proof. unfold can_reveal. destruct (has_wildcard d); apply _. Defined.

(** Revealing the next index: the script at it, and it alone is noted. *)
Lemma reveal_next_spec x cs k did d :
  keychain_ok x → keychain_to_descriptor_id x !! k = Some did → descriptors x !! did = Some d →
  can_reveal x did d →
  let i := next_revealed x did in
  ∃ x' s, reveal_next_spk_into x cs k = Some (x', note_revealed did i cs, Some (i, s)) ∧
    keychain_ok x' ∧ extends k (set_revealed x did i) x' ∧ derived_spk d i = Some s ∧
    spks (inner x') !! (k, i) = Some s ∧
    replenish_inner_index (set_revealed x did i) did k (lookahead x) = Some x'.
Proof.
  intros Hx Hk Hd Hnext i. destruct (keychain_descriptor family _ _ _ Hx Hk) as (d' & Hget & Hd' & Hid & Hf).
  rewrite Hd in Hd'. injection Hd' as <-.
  assert (revealed_ok did i) as Hi.
  { unfold can_reveal in Hnext. apply (revealed_ok_intro did d i); try done.
    - destruct (has_wildcard d); [done|]. unfold i, next_revealed. rewrite Hnext, bip32_value. lia.
    - intros Hw. rewrite Hw in Hnext. unfold i, next_revealed. by rewrite Hnext. }
  destruct (reveal_index_ok x k did d i Hx Hk Hd Hi) as (x' & Hrun & Hx' & Hext & s & Hs & Hds).
  exists x', s. split_and!; try done. unfold reveal_next_spk_into.
  rewrite (next_index_spec x k did d) by (try done; apply Hx). cbn [mbind option_bind].
  assert ((if has_wildcard d then (next_revealed x did, true)
    else (0, bool_decide (last_revealed x !! did = None))) = (i, true)) as ->.
  { unfold can_reveal in Hnext. destruct (has_wildcard d); [done|]. unfold i, next_revealed. by rewrite Hnext. }
  cbn iota beta. rewrite Hk. fold (set_revealed x did i). rewrite Hrun.
  cbn [mbind option_bind]. unfold spk_at_index. by rewrite Hs.
Qed.

(** ** Revealing up to a target *)

(** Where the loop stops. *)
Definition reveal_stop d (target : N) : N := if has_wildcard d then target + 1 else 1.

Lemma reveal_loop_step x k did d target :
  keychain_ok x → keychain_to_descriptor_id x !! k = Some did → descriptors x !! did = Some d →
  target < BIP32_MAX_INDEX →
  let first := next_revealed x did in
  if first <? reveal_stop d target
  then next_index x k = Some (Some (first, true)) ∧ first ≤ target ∧ can_reveal x did d
  else ∃ i new, next_index x k = Some (Some (i, new)) ∧ (negb new || (target <? i)) = true.
Proof.
  intros Hx Hk Hd Ht first. rewrite (next_index_spec x k did d) by (try done; apply Hx). fold first.
  unfold reveal_stop, can_reveal. fold first. destruct (has_wildcard d).
  - destruct (N.ltb_spec first (target + 1)); [split_and!; [done|lia|lia]|].
    exists first, true. split; [done|]. by apply N.ltb_lt; lia.
  - unfold first, next_revealed. destruct (last_revealed x !! did) as [i|].
    + destruct (N.ltb_spec (i + 1) 1); [lia|]. by exists 0, false.
    + cbn. split_and!; [done|lia|done].
Qed.

Lemma note_revealed_twice did i j cs : note_revealed did j (note_revealed did i cs) = note_revealed did j cs.
Proof. unfold note_revealed. cbn. by rewrite insert_insert_eq. Qed.

Lemma extends_revealed_trans x x1 x2 k did i j :
  extends k (set_revealed x did i) x1 → extends k (set_revealed x1 did j) x2 →
  extends k (set_revealed x did j) x2.
Proof.
  intros [Hf1 Hs1 Ho1] [Hf2 Hs2 Ho2]. split.
  - rewrite Hf2. unfold frame in *. cbn in *. injection Hf1. intros -> -> -> -> -> -> -> ->.
    by rewrite insert_insert_eq.
  - by etrans.
  - intros k' n Hne. rewrite Ho2 by done. by apply Ho1.
Qed.

Lemma reveal_loop_spec fuel x cs k did d target acc :
  keychain_ok x → keychain_to_descriptor_id x !! k = Some did → descriptors x !! did = Some d →
  target < BIP32_MAX_INDEX → (N.to_nat (reveal_stop d target - next_revealed x did) < fuel)%nat →
  let first := next_revealed x did in
  let stop := reveal_stop d target in
  ∃ x' items, reveal_loop fuel x cs k target acc =
      Some (x', if first <? stop then note_revealed did (stop - 1) cs else cs, Some (acc ++ items)) ∧
    derived_spks d (range_exclusive first stop) = Some items ∧ keychain_ok x' ∧
    (if first <? stop then extends k (set_revealed x did (stop - 1)) x' else x' = x).
Proof.
  revert x cs acc. induction fuel as [|fuel IH]; intros x cs acc Hx Hk Hd Ht Hfuel; [lia|]. cbn zeta.
  cbn [reveal_loop]. pose proof (reveal_loop_step x k did d target Hx Hk Hd Ht) as Hstep. cbn zeta in Hstep.
  set (first := next_revealed x did) in *. set (stop := reveal_stop d target) in *.
  destruct (N.ltb_spec first stop) as [Hlt|Hge].
  2:{ destruct Hstep as (i & new & -> & Hdone). cbn [mbind option_bind]. rewrite Hdone.
      exists x, []. rewrite range_exclusive_nil by done. by rewrite app_nil_r. }
  destruct Hstep as (-> & Hle & Hcan). cbn [mbind option_bind negb orb].
  destruct (N.ltb_spec target first); [lia|].
  destruct (reveal_next_spec x cs k did d Hx Hk Hd Hcan) as (x1 & s & -> & Hx1 & He1 & Hs & _).
  fold first in He1, Hs |- *. cbn [mbind option_bind].
  destruct (revealed_frame _ _ _ _ _ He1) as (Ek & Ed & _ & _ & Er & _).
  assert (next_revealed x1 did = first + 1) as Hnext.
  { unfold next_revealed. by rewrite Er, lookup_insert_eq. }
  destruct (IH x1 (note_revealed did first cs) (acc ++ [(first, s)])) as (x2 & items & Hrun & Hitems & Hx2 & He2);
    [done|by rewrite Ek|by rewrite Ed|done|fold stop; lia|].
  rewrite Hnext in Hrun, Hitems, He2. fold stop in Hrun, Hitems, He2.
  exists x2, ((first, s) :: items). rewrite range_exclusive_cons by done. split_and!; [| |done|].
  - rewrite Hrun, <-(assoc_L (++)). cbn [app]. destruct (N.ltb_spec (first + 1) stop).
    + by rewrite note_revealed_twice.
    + by replace (stop - 1) with first by lia.
  - unfold derived_spks in *. cbn [mapM]. rewrite Hs. cbn [mbind option_bind]. by rewrite Hitems.
  - destruct (N.ltb_spec (first + 1) stop); [by eapply extends_revealed_trans|].
    subst x2. by replace (stop - 1) with first by lia.
Qed.

(** Taking the stage leaves everything else as it is. *)
Lemma empty_stage_spec x cs :
  keychain_ok x → keychain_ok (empty_stage_into_changeset x cs).1 ∧
  frame (empty_stage_into_changeset x cs).1 = frame x ∧
  inner (empty_stage_into_changeset x cs).1 = inner x ∧
  kcs_last_revealed (empty_stage_into_changeset x cs).2 = kcs_last_revealed cs.
Proof.
  intros Hx. unfold empty_stage_into_changeset. destruct (persist_spks x); cbn [negb fst snd]; [|by split_and!].
  split_and!; [|done..]. split; [|apply Hx|apply Hx].
  apply with_cache_base; [apply Hx|by apply kb_cache, Hx|]. by intros did l.
Qed.

(** ** Inserting a descriptor *)

Lemma get_descriptor_register x k did d k' :
  descriptor_id_to_keychain x !! did = None → keychain_base x → k' ≠ k →
  get_descriptor (register x k did d) k' = get_descriptor x k'.
Proof.
  intros Hdid Hx Hne. unfold get_descriptor. cbn. rewrite lookup_insert_ne by done.
  destruct (keychain_to_descriptor_id x !! k') as [did'|] eqn:Hk'; [|done]. cbn.
  apply (kb_bijection _ _ Hx) in Hk'. rewrite lookup_insert_ne; [done|]. congruence.
Qed.

Lemma register_ok x k did d :
  keychain_ok x → family d → descriptor_id d = Some did →
  keychain_to_descriptor_id x !! k = None → descriptor_id_to_keychain x !! did = None →
  let y := register x k did d in
  keychain_base y ∧ below_max y ∧ ∀ k', k' ≠ k → looked_ahead y k'.
Proof.
  intros [Hx Hmax Hall] Hf Hid Hk Hdid. cbn zeta.
  assert (∀ i, spks (inner x) !! (k, i) = None) as Hnone.
  { intros i. destruct (spks (inner x) !! (k, i)) as [s|] eqn:Hs; [|done].
    destruct (spks_derived family _ _ _ Hx Hs) as (d' & Hd' & _). unfold get_descriptor in Hd'.
    cbn in Hd'. by rewrite Hk in Hd'. }
  split_and!; [|done|].
  - destruct Hx as [Bi Bb Bd Bs Br Bl Bc Bg Bn]. split; try done.
    + intros k' did'. cbn. rewrite !lookup_insert_Some. split.
      * intros [[<- <-]|[Hne Hk']]; [by left|]. right. split; [|by apply Bb]. apply Bb in Hk'. congruence.
      * intros [[<- <-]|[Hne Hk']]; [by left|]. right. split; [|by apply Bb]. apply Bb in Hk'. congruence.
    + intros k' did'. cbn. rewrite lookup_insert_Some. intros [[<- <-]|[Hne Hk']].
      * exists d. by rewrite lookup_insert_eq.
      * destruct (Bd k' did' Hk') as (d' & ? & ? & ?). exists d'. apply Bb in Hk'.
        rewrite lookup_insert_ne by congruence. done.
    + intros s ki Hki. destruct (Bs s ki Hki) as (d' & Hd' & Hrest). exists d'. split; [|done].
      rewrite get_descriptor_register; [done|done|by split|]. intros Hkk. unfold get_descriptor in Hd'.
      rewrite Hkk, Hk in Hd'. done.
    + intros k' did'. cbn. rewrite lookup_insert_Some. intros [[<- <-]|[Hne Hk']]; [|by eapply Bn].
      exists 0. intros i. cbn. rewrite Hnone. split; [intros [? ?]; done|lia].
  - intros k' Hne did' d' n. cbn. rewrite lookup_insert_ne by done. intros Hk'.
    pose proof (proj1 (kb_bijection _ _ Hx _ _) Hk'). rewrite lookup_insert_ne by congruence.
    by apply Hall.
Qed.

(** What the checks find. *)
Definition assignment x k did d : result (InsertDescriptorError K) bool :=
  match get_descriptor x k, descriptor_id_to_keychain x !! did with
  | None, None => Ok true
  | Some existing, _ => if decide (existing = d) then Ok false else Err (KeychainAlreadyAssigned k existing)
  | None, Some existing => Err (DescriptorAlreadyAssigned d existing)
  end.

Lemma get_descriptor_None x k :
  keychain_base x → get_descriptor x k = None ↔ keychain_to_descriptor_id x !! k = None.
Proof.
  intros Hx. unfold get_descriptor. destruct (keychain_to_descriptor_id x !! k) as [did|] eqn:Hk; [|done].
  cbn. destruct (kb_descriptors _ _ Hx k did Hk) as (d & -> & _). done.
Qed.

Lemma check_assignment_spec x k did d :
  keychain_base x → family d → descriptor_id d = Some did →
  keychain_to_descriptor_id x !! k ≠ None ∨ descriptor_id_to_keychain x !! did ≠ None →
  check_assignment x k did = Some (assignment x k did d).
Proof.
  intros Hx Hf Hid Hknown. unfold check_assignment, assignment.
  destruct (keychain_to_descriptor_id x !! k) as [did'|] eqn:Hk.
  - destruct (keychain_descriptor family _ _ _ Hx Hk) as (d' & -> & -> & Hid' & Hf'). cbn [mbind option_bind].
    destruct (decide (did' ≠ did)) as [Hne|Heq%dec_stable].
    + rewrite decide_False by congruence. done.
    + subst did'. assert (d' = d) as -> by by eapply family_ids. rewrite decide_True by done.
      rewrite (proj1 (kb_bijection _ _ Hx _ _) Hk).
      destruct (kb_descriptors _ _ Hx k did Hk) as (d1 & -> & _). cbn [mbind option_bind].
      by rewrite decide_False by auto.
  - rewrite (proj2 (get_descriptor_None x k Hx) Hk). cbn [mbind option_bind].
    destruct (descriptor_id_to_keychain x !! did) as [k'|] eqn:Hdid; [|by destruct Hknown].
    pose proof (proj2 (kb_bijection _ _ Hx _ _) Hdid) as Hk'.
    destruct (kb_descriptors _ _ Hx k' did Hk') as (d' & -> & Hid' & Hf'). cbn [mbind option_bind].
    assert (d' = d) as -> by by eapply family_ids. rewrite decide_True; [done|]. congruence.
Qed.

Lemma insert_descriptor_spec x k d :
  keychain_ok x → family d →
  ∃ did x', descriptor_id d = Some did ∧ insert_descriptor x k d = Some (x', assignment x k did d) ∧ keychain_ok x' ∧
    match assignment x k did d with
    | Ok true => replenish_inner_index (register x k did d) did k (lookahead x) = Some x' ∧
      extends k (register x k did d) x' ∧ get_descriptor x' k = Some d
    | _ => x' = x
    end.
Proof.
  intros Hx Hf. destruct (family_derivable d Hf 0) as [s Hs]; [rewrite bip32_value; lia|].
  set (did := spk_sha256 s). assert (descriptor_id d = Some did) as Hid by (unfold descriptor_id; by rewrite Hs).
  exists did. unfold insert_descriptor. rewrite Hid. cbn [mbind option_bind].
  destruct (decide (keychain_to_descriptor_id x !! k = None ∧ descriptor_id_to_keychain x !! did = None))
    as [[Hk Hdid]|Hknown].
  - rewrite !bool_decide_eq_true_2 by done. cbn [andb].
    destruct (register_ok x k did d Hx Hf Hid Hk Hdid) as (Hb & Hm & Ho).
    destruct (replenish_ok (register x k did d) k did d (lookahead (register x k did d)) Hb Hm)
      as (x' & n & Hrun & Hx' & Hext & _); [apply lookup_insert_eq|apply lookup_insert_eq|done|by left|].
    change (lookahead (register x k did d)) with (lookahead x) in Hrun. rewrite Hrun. cbn [mbind option_bind].
    assert (assignment x k did d = Ok true) as ->.
    { unfold assignment. by rewrite (proj2 (get_descriptor_None x k Hx) Hk), Hdid. }
    exists x'. split_and!; try done.
    rewrite (frame_get_descriptor _ _ _ (ex_frame _ _ _ Hext)). unfold get_descriptor. cbn.
    rewrite lookup_insert_eq. cbn. apply lookup_insert_eq.
  - replace (bool_decide _ && bool_decide _) with false.
    2:{ symmetry. apply andb_false_iff. rewrite !bool_decide_eq_false.
        destruct (decide (keychain_to_descriptor_id x !! k = None)); [right|by left]. tauto. }
    assert (keychain_to_descriptor_id x !! k ≠ None ∨ descriptor_id_to_keychain x !! did ≠ None) as Hor.
    { destruct (decide (keychain_to_descriptor_id x !! k = None)); [right|by left]. tauto. }
    rewrite (check_assignment_spec x k did d Hx Hf Hid Hor). cbn [mbind option_bind].
    exists x. split_and!; try done. unfold assignment. destruct Hor as [Hk|Hdid'].
    + destruct (get_descriptor x k) eqn:Hg; [by case_decide|]. by apply (proj1 (get_descriptor_None x k Hx)) in Hg.
    + destruct (get_descriptor x k); [by case_decide|].
      destruct (descriptor_id_to_keychain x !! did); [done|by destruct Hdid'].
Qed.
End spec.
