(* ===== verification/KeychainOps.v ===== *)
(** * The operations of the keychain index

    Indexing outputs, applying change sets, looking ahead and revealing keep the
    invariant, do not panic, and do what is asked of them. *)
From S2P Require Import Prelude Block Tx TxGraph TxGraphSpec SpkIndex SpkSpec SpkIter KeychainIndex KeychainFacts KeychainSpec.
#[local] Open Scope N_scope.

Section ops.
Context `{BitcoinLaws, !Scripts, !Descriptors, !WidthLaws} {K : Type} `{Countable K} `{!TotalOrd K}.
Context (family : Descriptor → Prop) `{!DistinctDescriptors family}.
Implicit Types (x : KeychainTxOutIndex K) (keychain : K) (did : DescriptorId) (d : Descriptor).
Implicit Types (cs : KeychainChangeSet).

Notation keychain_base := (keychain_base family).
Notation keychain_ok := (keychain_ok family).
Notation revealed_ok := (revealed_ok family).

(** ** Indexing an output *)

(** The inner index changes in its outputs alone. *)
Lemma with_inner_ok x i :
  keychain_ok x → spk_ok i → spks i = spks (inner x) → spk_indices i = spk_indices (inner x) →
  keychain_ok (with_inner x i).
Proof.
  intros [Hx Hmax Hall] Hi Hspks Hind. split.
  - destruct Hx as [Bi Bb Bd Bs Br Bl Bc Bg Bn]. split; try done.
    + intros s ki. cbn. rewrite Hind. apply Bs.
    + intros k did Hk. destruct (Bn k did Hk) as [n Hn]. exists n. intros j. cbn. by rewrite Hspks.
  - intros k j. cbn. rewrite Hspks. apply Hmax.
  - intros k did d n Hk Hd Hn. apply (Hall k did d n Hk Hd). intros j. specialize (Hn j). cbn in Hn.
    by rewrite Hspks in Hn.
Qed.

(** The keychain and index that own the output. *)
Definition owner x (o : TxOut) : option (K * N) :=
  if is_mweb_bridge_output (script_pubkey o) then None else spk_indices (inner x) !! script_pubkey o.

Lemma scan_txout_owner x op o :
  (scan_txout (inner x) op o).2 = owner x o ∧
  txouts (scan_txout (inner x) op o).1 =
    match owner x o with Some ki => <[op := (ki, o)]> (txouts (inner x)) | None => txouts (inner x) end.
Proof.
  unfold scan_txout, owner. destruct (is_mweb_bridge_output _); [done|]. by destruct (_ !! _).
Qed.

Lemma owner_registered x o k i :
  keychain_ok x → owner x o = Some (k, i) →
  ∃ did d, keychain_to_descriptor_id x !! k = Some did ∧ descriptors x !! did = Some d ∧ revealed_ok did i ∧
    derived_spk d i = Some (script_pubkey o).
Proof.
  intros Hx Ho. unfold owner in Ho. destruct (is_mweb_bridge_output _); [done|].
  destruct (kb_indices _ _ Hx _ _ Ho) as (d & Hd & [Hi Hw] & Hs). cbn [fst snd] in *.
  destruct (get_descriptor_base family _ _ _ Hx Hd) as (Hf & did & Hk & Hdd & Hid).
  exists did, d. split_and!; try done. apply (revealed_ok_intro family did d); [done..| |].
  - apply (ko_below _ _ Hx k). by apply (spk_backward _ (kb_inner _ _ Hx) (script_pubkey o)).
  - intros Hf'. destruct Hw; [congruence|done].
Qed.

(** The index is beyond the last revealed one. *)
Definition is_new x did (i : N) : bool :=
  match last_revealed x !! did with Some e => e <? i | None => true end.
Definition revealed_by x k (i : N) : KeychainTxOutIndex K :=
  match keychain_to_descriptor_id x !! k with
  | Some did => if is_new x did i then set_revealed x did i else x
  | None => x
  end.

Lemma index_txout_into_spec x cs op o :
  keychain_ok x → real_txout op o →
  let y := with_inner x (scan_txout (inner x) op o).1 in
  match owner x o with
  | None => index_txout_into x cs op o = Some (y, cs) ∧ keychain_ok y
  | Some (k, i) => ∃ did x', keychain_to_descriptor_id x !! k = Some did ∧ keychain_ok x' ∧
      index_txout_into x cs op o = Some (x', if is_new x did i then note_revealed did i cs else cs) ∧
      if is_new x did i then extends k (set_revealed y did i) x' ∧
        replenish_inner_index (set_revealed y did i) did k (lookahead x) = Some x'
      else x' = y
  end.
Proof.
  intros Hx Hr y. destruct (scan_txout_owner x op o) as [Hfound _].
  assert (keychain_ok y) as Hy.
  { apply with_inner_ok; [done|apply scan_txout_ok; [by apply (kb_inner family _ Hx)|done]|apply scan_txout_spks|
      apply scan_txout_indices]. }
  unfold index_txout_into. rewrite (surjective_pairing (scan_txout (inner x) op o)), Hfound. fold y.
  destruct (owner x o) as [[k i]|] eqn:Ho; [|done].
  destruct (owner_registered x o k i Hx Ho) as (did & d & Hk & Hd & Hi & _). exists did.
  change (keychain_to_descriptor_id y) with (keychain_to_descriptor_id x).
  rewrite Hk. cbn [mbind option_bind].
  change (match last_revealed y !! did with Some e => e <? i | None => true end) with (is_new x did i).
  destruct (is_new x did i); [|by exists y].
  destruct (reveal_index_ok family y k did d i Hy Hk Hd Hi) as (x' & Hrun & Hx' & Hext & _).
  exists x'. fold (set_revealed y did i). rewrite Hrun. done.
Qed.

Lemma index_txout_into_ok x cs op o :
  keychain_ok x → real_txout op o →
  ∃ x' cs', index_txout_into x cs op o = Some (x', cs') ∧ keychain_ok x'.
Proof.
  intros Hx Hr. pose proof (index_txout_into_spec x cs op o Hx Hr) as Hspec. cbn zeta in Hspec.
  destruct (owner x o) as [[k i]|].
  - destruct Hspec as (did & x' & _ & Hx' & Hrun & _). by eexists _, _.
  - destruct Hspec. by eexists _, _.
Qed.

Lemma try_fold_ok {A B} (P : B → Prop) (f : B → A → option B) b l :
  P b → (∀ b a, P b → a ∈ l → ∃ b', f b a = Some b' ∧ P b') → ∃ b', try_fold f b l = Some b' ∧ P b'.
Proof.
  revert b. induction l as [|a l IH]; intros b Hb Hf; cbn [try_fold]; [by exists b|].
  destruct (Hf b a Hb) as (b' & -> & Hb'); [by left|]. cbn [mbind option_bind]. apply IH; [done|].
  intros b1 a1 Hb1 Ha1. apply Hf; [done|by right].
Qed.

(** The outputs of a transaction, one after the other. *)
Lemma enumerated_output tx p :
  p ∈ enumerate (tx_output tx) → real_txout (mkOutPoint (compute_txid tx) (as_u32 p.1)) p.2.
Proof.
  destruct p as [n o]. intros Ho%elem_of_enumerate. cbn [fst snd].
  rewrite as_u32_small by (apply lookup_lt_Some in Ho; pose proof (outputs_bounded tx); lia).
  apply (output_of_real tx). by split.
Qed.

Lemma keychain_index_tx_ok x tx :
  keychain_ok x → ∃ x' cs, keychain_index_tx x tx = Some (x', cs) ∧ keychain_ok x'.
Proof.
  intros Hx. unfold keychain_index_tx.
  destruct (try_fold_ok (λ acc : KeychainTxOutIndex K * KeychainChangeSet, keychain_ok acc.1)
    (λ acc p, index_txout_into acc.1 acc.2 (mkOutPoint (compute_txid tx) (as_u32 p.1)) p.2)
    (x, KeychainChangeSet_default) (enumerate (tx_output tx))) as ([x' cs] & -> & Hx'); [done| |].
  - intros [y cs] p Hy Hp. destruct (index_txout_into_ok y cs (mkOutPoint (compute_txid tx) (as_u32 p.1)) p.2)
      as (y' & cs' & Hrun & Hy'); [done|by apply enumerated_output|]. by exists (y', cs').
  - cbn [mbind option_bind]. destruct (empty_stage_spec family x' cs Hx') as [Hok _].
    eexists _, _. split; [|exact Hok]. by rewrite <-surjective_pairing.
Qed.

(** ** Change sets *)

(** A change set that the index can take: indices that were revealed, and
    scripts which are the derived ones and do not contradict the cache. *)
Record changeset_fits x cs : Prop := {
  cf_revealed : ∀ did i, kcs_last_revealed cs !! did = Some i → revealed_ok did i;
  cf_cache : cache_ok family (kcs_spk_cache cs);
  cf_agrees : ∀ did c c' i s s', spk_cache x !! did = Some c → kcs_spk_cache cs !! did = Some c' →
    c !! i = Some s → c' !! i = Some s' → s = s';
}.

Lemma extended_cache_ok x cs :
  keychain_base x → changeset_fits x cs →
  let cache := foldl extend_cache (spk_cache x) (map_iter (kcs_spk_cache cs)) in
  cache_ok family cache ∧ staged_ok cache (spk_cache_stage x).
Proof.
  intros Hx [_ Hc Ha]. cbn zeta. split.
  - intros d did c i s Hf Hid. rewrite extend_cache_fold. unfold extended.
    destruct (kcs_spk_cache cs !! did) as [c'|] eqn:Hc'; [|by apply (kb_cache _ _ Hx d did c)].
    intros [= <-] [Hs|[_ Hs]]%lookup_union_Some_raw; [by apply (Hc d did c')|].
    destruct (spk_cache x !! did) as [c0|] eqn:Hc0; [by apply (kb_cache _ _ Hx d did c0)|].
    cbn in Hs. by rewrite lookup_empty in Hs.
  - intros did l Hl. destruct (kb_stage _ _ Hx did l Hl) as (c & Hcd & Hall).
    rewrite extend_cache_fold, Hcd. unfold extended. destruct (kcs_spk_cache cs !! did) as [c'|] eqn:Hc'; [|by exists c].
    eexists. split; [done|]. intros p Hp. specialize (Hall p Hp). cbn. apply lookup_union_Some_raw.
    destruct (c' !! p.1) as [s'|] eqn:Hs'; [left|by right]. f_equal. symmetry. by apply (Ha did c c' p.1).
Qed.

Lemma apply_last_revealed_ok x did i :
  keychain_ok x → revealed_ok did i → ∃ x', apply_last_revealed x (did, i) = Some x' ∧ keychain_ok x' ∧
    last_revealed x' = <[did := N.max i (default 0 (last_revealed x !! did))]> (last_revealed x) ∧
    keychain_to_descriptor_id x' = keychain_to_descriptor_id x ∧ descriptors x' = descriptors x ∧
    lookahead x' = lookahead x.
Proof.
  intros Hx [Hi Hw]. unfold apply_last_revealed. cbn [fst snd]. set (m := N.max _ _).
  assert (revealed_ok did m) as Hm.
  { unfold m. destruct (last_revealed x !! did) as [v|] eqn:Hv; cbn [from_option id].
    - destruct (kb_revealed _ _ Hx did v Hv) as [Hlt Hw']. split; [lia|]. intros d Hf Hid Hd.
      by rewrite (Hw d), (Hw' d).
    - split; [lia|]. intros d Hf Hid Hd. by rewrite (Hw d). }
  fold (set_revealed x did m). unfold replenish_inner_index_did. cbn [descriptor_id_to_keychain set_revealed with_last_revealed].
  fold (set_revealed x did m).
  destruct (descriptor_id_to_keychain x !! did) as [k|] eqn:Hk.
  - apply (kb_bijection _ _ Hx) in Hk. destruct (kb_descriptors _ _ Hx k did Hk) as (d & Hd & _).
    destruct (reveal_index_ok family x k did d m Hx Hk Hd Hm) as (x' & Hrun & Hx' & Hext & _).
    exists x'. destruct (revealed_frame _ _ _ _ _ Hext) as (? & ? & ? & _ & ? & _). by split_and!.
  - eexists. split; [done|]. split_and!; try done. split.
    + apply set_revealed_base; [apply Hx|done].
    + apply Hx.
    + intros k. apply set_revealed_others; [|apply Hx]. intros Hk'%(kb_bijection _ _ Hx). congruence.
Qed.

(** The highest of the revealed indices. *)
Definition higher (a b : option N) : option N := union_with (λ i j, Some (N.max i j)) a b.

Lemma apply_changeset_ok x cs :
  keychain_ok x → changeset_fits x cs →
  ∃ x', keychain_apply_changeset x cs = Some x' ∧ keychain_ok x' ∧
    keychain_to_descriptor_id x' = keychain_to_descriptor_id x ∧ descriptors x' = descriptors x.
Proof.
  intros Hx Hcs. unfold keychain_apply_changeset.
  set (y := if persist_spks x then _ else x).
  assert (keychain_ok y ∧ keychain_to_descriptor_id y = keychain_to_descriptor_id x ∧
    descriptors y = descriptors x) as (Hy & Ek & Ed).
  { unfold y. destruct (persist_spks x); [|done]. split_and!; [|done..]. split; [|apply Hx|apply Hx].
    destruct (extended_cache_ok x cs Hx Hcs). by apply with_cache_base; [apply Hx| |]. }
  destruct (try_fold_ok (λ z, keychain_ok z ∧ keychain_to_descriptor_id z = keychain_to_descriptor_id y ∧
      descriptors z = descriptors y) apply_last_revealed y (map_iter (kcs_last_revealed cs)))
    as (x' & Hrun & Hx' & Ek' & Ed'); [done| |].
  - intros z [did i] (Hz & Ekz & Edz) Hp%elem_of_map_iter. cbn [fst snd] in Hp.
    destruct (apply_last_revealed_ok z did i Hz) as (z' & Hrun & Hz' & _ & Ek' & Ed' & _).
    { by eapply cf_revealed. }
    exists z'. rewrite Ek', Ed'. done.
  - exists x'. rewrite Ek', Ed', Ek, Ed. done.
Qed.

Definition note_higher (m : gmap DescriptorId N) (p : DescriptorId * N) : gmap DescriptorId N :=
  <[p.1 := N.max p.2 (default 0 (m !! p.1))]> m.

Lemma higher_fold m m' did : foldl note_higher m (map_iter m') !! did = higher (m !! did) (m' !! did).
Proof.
  apply (fold_map_iter _ higher).
  - intros m0 k v k'. unfold note_higher. cbn [fst snd]. case_decide as Hk; [subst|by rewrite lookup_insert_ne by done].
    rewrite lookup_insert_eq. destruct (m0 !! k); cbn; f_equal; lia.
  - by intros [?|].
Qed.

Lemma try_fold_last_revealed x l x' :
  keychain_ok x → Forall (λ p : DescriptorId * N, revealed_ok p.1 p.2) l →
  try_fold apply_last_revealed x l = Some x' → last_revealed x' = foldl note_higher (last_revealed x) l.
Proof.
  revert x. induction l as [|[did i] l IH]; intros x Hx Hl Hrun; [by injection Hrun as ->|].
  apply Forall_cons in Hl as [Hi Hl]. cbn [try_fold] in Hrun.
  destruct (apply_last_revealed_ok x did i Hx Hi) as (y & Hy & Hoky & Hr & _). rewrite Hy in Hrun.
  cbn [mbind option_bind] in Hrun. rewrite (IH y) by done. by rewrite Hr.
Qed.

(** Every revealed index is the higher of the two. *)
Lemma apply_changeset_revealed x cs x' :
  keychain_ok x → changeset_fits x cs → keychain_apply_changeset x cs = Some x' →
  ∀ did, last_revealed x' !! did = higher (last_revealed x !! did) (kcs_last_revealed cs !! did).
Proof.
  intros Hx Hcs Hrun did. unfold keychain_apply_changeset in Hrun.
  set (y := if persist_spks x then _ else x) in Hrun.
  assert (keychain_ok y ∧ last_revealed y = last_revealed x) as [Hy Hr].
  { unfold y. destruct (persist_spks x); [|done]. split; [|done]. split; [|apply Hx|apply Hx].
    destruct (extended_cache_ok x cs Hx Hcs). by apply with_cache_base; [apply Hx| |]. }
  rewrite (try_fold_last_revealed y (map_iter (kcs_last_revealed cs)) x' Hy), higher_fold, Hr; [done| |done].
  apply Forall_forall. intros [did' i] Hp%elem_of_map_iter. by apply (cf_revealed _ _ Hcs).
Qed.

(** ** Looking ahead *)

Lemma stop_index_eq x did d la :
  next_revealed x did + la < 2 ^ 32 → next_revealed x did < 2 ^ 32 →
  stop_index x did d la = if has_wildcard d then N.min (next_revealed x did + la) BIP32_MAX_INDEX else 1.
Proof.
  intros Hsum Hn. unfold stop_index, next_revealed, wrapping_add_u32 in *. destruct (has_wildcard d); [|done].
  destruct (last_revealed x !! did) as [i|]; [rewrite (N.mod_small (i + 1)) by done|]; by rewrite N.mod_small by done.
Qed.

Lemma next_revealed_bound x did : keychain_base x → next_revealed x did ≤ BIP32_MAX_INDEX.
Proof.
  intros Hx. unfold next_revealed. destruct (last_revealed x !! did) as [i|] eqn:Hi; [|rewrite bip32_value; lia].
  destruct (kb_revealed _ _ Hx did i Hi). lia.
Qed.

(** How far the scripts are stored. *)
Lemma lookahead_stop x did d :
  keychain_base x → stop_index x did d (lookahead x) =
    if has_wildcard d then N.min (next_revealed x did + lookahead x) BIP32_MAX_INDEX else 1.
Proof.
  intros Hx. pose proof (next_revealed_bound x did Hx) as Hb. pose proof (kb_lookahead _ _ Hx) as Hl.
  rewrite bip32_value in Hb. change (2 ^ 31) with 2147483648 in Hl.
  apply stop_index_eq; change (2 ^ 32) with 4294967296; lia.
Qed.

Lemma lookahead_to_target_spec x k did d target :
  keychain_ok x → keychain_to_descriptor_id x !! k = Some did → descriptors x !! did = Some d →
  target < U32_MAX →
  ∃ x' cs, lookahead_to_target x k target = Some (x', cs) ∧ keychain_ok x' ∧
    last_revealed x' = last_revealed x ∧ kcs_last_revealed cs = ∅ ∧
    ∃ n, stored x' k n ∧ (has_wildcard d = true → target < BIP32_MAX_INDEX → target < n).
Proof.
  intros Hx Hk Hd Ht. pose proof (next_revealed_bound x did Hx) as Hb. unfold U32_MAX in Ht.
  unfold lookahead_to_target. rewrite (next_index_spec family x k did d) by (try done; apply Hx).
  cbn [mbind option_bind]. destruct (kb_stored _ _ Hx k did Hk) as [n Hn].
  pose proof (ko_lookahead _ _ Hx k did d n Hk Hd Hn) as Hstop. rewrite lookahead_stop in Hstop by apply Hx.
  enough (∃ y m, (let '(next_index, _) := if has_wildcard d then (next_revealed x did, true)
      else (0, bool_decide (last_revealed x !! did = None)) in
    match checked_sub (wrapping_add_u32 target 1) next_index with
    | Some temp_lookahead =>
      if 0 <? temp_lookahead then replenish_inner_index_keychain x k temp_lookahead else Some x
    | None => Some x
    end) = Some y ∧ keychain_ok y ∧ last_revealed y = last_revealed x ∧ stored y k m ∧
    (has_wildcard d = true → target < BIP32_MAX_INDEX → target < m)) as (y & m & Hrun & Hy & Hr & Hm & Hfar).
  { rewrite Hrun. cbn [mbind option_bind]. destruct (empty_stage_spec family y KeychainChangeSet_default Hy)
      as (Hok & Hframe & Hinner & Hlast).
    eexists _, _. split; [by rewrite <-surjective_pairing|]. split_and!; [done| |done|].
    - rewrite <-Hr. by apply frame_fields in Hframe as (_ & _ & _ & _ & _ & ->).
    - exists m. split; [|done]. intros i. rewrite Hinner. apply Hm. }
  assert (∀ la, ∃ y m, replenish_inner_index_keychain x k la = Some y ∧ keychain_ok y ∧
    last_revealed y = last_revealed x ∧ stored y k m ∧ stop_index x did d la ≤ m) as Hrep.
  { intros la. unfold replenish_inner_index_keychain. rewrite Hk.
    destruct (replenish_ok family x k did d la) as (y & m & Hrun & Hy & Hext & Hm & Hle);
      [apply Hx|apply Hx|done|done|intros k' _; apply Hx|right; apply Hx|].
    exists y, m. split_and!; try done. by apply ex_frame, frame_fields in Hext as (_ & _ & _ & _ & _ & ->). }
  unfold wrapping_add_u32, checked_sub. change (2 ^ 32) with 4294967296. rewrite N.mod_small by lia.
  destruct (has_wildcard d) eqn:Hw.
  - destruct (N.leb_spec (next_revealed x did) (target + 1)).
    + destruct (N.ltb_spec 0 (target + 1 - next_revealed x did)).
      * destruct (Hrep (target + 1 - next_revealed x did)) as (y & m & Hrun & Hy & Hr & Hm & Hle).
        exists y, m. split_and!; try done. intros _ Hlt. rewrite stop_index_eq, Hw in Hle
          by (change (2 ^ 32) with 4294967296; rewrite bip32_value in *; lia). lia.
      * exists x, n. split_and!; try done. intros _ Hlt. lia.
    + exists x, n. split_and!; try done. intros _ Hlt. lia.
  - destruct (N.leb_spec 0 (target + 1)); [|lia]. destruct (N.ltb_spec 0 (target + 1 - 0)); [|lia].
    destruct (Hrep (target + 1 - 0)) as (y & m & Hrun & Hy & Hr & Hm & Hle). by exists y, m.
Qed.

(** ** The next script *)

(** Something can be revealed, or was and cannot any more. *)
Definition can_answer x did d : Prop :=
  has_wildcard d = true → next_revealed x did < BIP32_MAX_INDEX.

Lemma reveal_next_ok x cs k did d :
  keychain_ok x → keychain_to_descriptor_id x !! k = Some did → descriptors x !! did = Some d →
  can_answer x did d →
  ∃ x' cs' i s, reveal_next_spk_into x cs k = Some (x', cs', Some (i, s)) ∧ keychain_ok x' ∧
    spks (inner x') !! (k, i) = Some s ∧ (∃ last, last_revealed x' !! did = Some last ∧ i ≤ last) ∧
    i = if has_wildcard d then next_revealed x did else 0.
Proof.
  intros Hx Hk Hd Hcan. destruct (decide (can_reveal x did d)) as [Hr|Hr].
  - destruct (reveal_next_spec family x cs k did d Hx Hk Hd Hr) as (x' & s & Hrun & Hx' & Hext & _ & Hs & _).
    eexists _, _, _, _. split_and!; [done..| |].
    + destruct (revealed_frame _ _ _ _ _ Hext) as (_ & _ & _ & _ & -> & _).
      exists (next_revealed x did). by rewrite lookup_insert_eq.
    + unfold can_reveal in Hr. destruct (has_wildcard d); [done|]. unfold next_revealed. by rewrite Hr.
  - unfold can_answer, can_reveal in *. destruct (has_wildcard d) eqn:Hw; [by destruct Hr; apply Hcan|].
    unfold reveal_next_spk_into. rewrite (next_index_spec family x k did d) by (try done; apply Hx).
    rewrite Hw. cbn [mbind option_bind]. rewrite bool_decide_eq_false_2 by done. cbn [mbind option_bind].
    destruct (kb_stored _ _ Hx k did Hk) as [n Hn].
    pose proof (ko_lookahead _ _ Hx k did d n Hk Hd Hn) as Hstop. unfold stop_index in Hstop. rewrite Hw in Hstop.
    destruct (proj2 (Hn 0)) as [s Hs]; [lia|]. unfold spk_at_index. rewrite Hs. cbn [mbind option_bind].
    eexists _, _, _, _. split_and!; [done..| |done].
    destruct (last_revealed x !! did) as [last|] eqn:Hlast; [|done]. exists last. split; [done|lia].
Qed.
End ops.
