(* ===== verification/KeychainReveal.v ===== *)
(** * What the keychain index does for a wallet

    The operations keep the invariant and do not panic; a target is revealed to
    the last index; outputs are found ahead of the revealed scripts; the next
    unused script is the lowest one. *)
From stdpp Require Import sorting.
From S2P Require Import Prelude Block Tx TxGraph TxGraphSpec SpkIndex SpkSpec SpkIter KeychainIndex KeychainFacts KeychainSpec KeychainOps.
#[local] Open Scope N_scope.

Section reveal.
Context `{BitcoinLaws, !Scripts, !Descriptors, !WidthLaws} {K : Type} `{Countable K} `{!TotalOrd K}.
Context (family : Descriptor → Prop) `{!DistinctDescriptors family}.
Implicit Types (x : KeychainTxOutIndex K) (keychain : K) (did : DescriptorId) (d : Descriptor).
Implicit Types (cs : KeychainChangeSet).

Notation keychain_base := (keychain_base family).
Notation keychain_ok := (keychain_ok family).

Lemma keychain_new_ok la persist : la < 2 ^ 31 → keychain_ok (keychain_index_new la persist : KeychainTxOutIndex K).
Proof.
  intros Hla. split; [split| |]; cbn; try done.
  - apply spk_ok_default.
  - by intros k i [? ?].
Qed.

(** ** The keychain is not known *)

Lemma unknown_next_index x k : keychain_to_descriptor_id x !! k = None → next_index x k = Some None.
Proof. intros Hk. unfold next_index. by rewrite Hk. Qed.

Lemma unknown_reveal_next x cs k :
  keychain_to_descriptor_id x !! k = None → reveal_next_spk_into x cs k = Some (x, cs, None).
Proof. intros Hk. unfold reveal_next_spk_into. by rewrite unknown_next_index. Qed.

Lemma unknown_reveal_to x cs k target :
  keychain_to_descriptor_id x !! k = None → reveal_to_target_into x cs k target = Some (x, cs, None).
Proof.
  intros Hk. unfold reveal_to_target_into, reveal_fuel. replace (N.to_nat (target + 2)) with (S (N.to_nat (target + 1)))
    by lia. cbn [reveal_loop]. by rewrite unknown_next_index.
Qed.

(** Taking the stage after an operation. *)
Lemma staged_pair x cs : keychain_ok x →
  ∃ x' cs', empty_stage_into_changeset x cs = (x', cs') ∧ keychain_ok x' ∧ frame x' = frame x ∧
    inner x' = inner x ∧ kcs_last_revealed cs' = kcs_last_revealed cs.
Proof.
  intros Hx. destruct (empty_stage_spec family x cs Hx) as (? & ? & ? & ?).
  eexists _, _. by rewrite <-surjective_pairing.
Qed.

(** ** Revealing up to a target *)

Lemma reveal_to_target_into_spec x cs k did d target :
  keychain_ok x → keychain_to_descriptor_id x !! k = Some did → descriptors x !! did = Some d →
  target < BIP32_MAX_INDEX →
  let first := next_revealed x did in
  let stop := reveal_stop d target in
  ∃ x' items, reveal_to_target_into x cs k target =
      Some (x', if first <? stop then note_revealed did (stop - 1) cs else cs, Some items) ∧
    derived_spks d (range_exclusive first stop) = Some items ∧ keychain_ok x' ∧
    (if first <? stop then extends k (set_revealed x did (stop - 1)) x' else x' = x).
Proof.
  intros Hx Hk Hd Ht. unfold reveal_to_target_into.
  destruct (reveal_loop_spec family (reveal_fuel target) x cs k did d target [] Hx Hk Hd Ht)
    as (x' & items & Hrun & Hrest).
  - unfold reveal_fuel, reveal_stop. destruct (has_wildcard d); lia.
  - by exists x', items.
Qed.

(** Revealing up to a target reveals exactly the indices after the last
    revealed one up to the target, or the only index of a descriptor without
    wildcard: the scripts derived at them are returned in order and stored, the
    target becomes the last revealed index, and the change set says so. *)
Theorem reveal_to_target_correct x k did d target :
  keychain_ok x → keychain_to_descriptor_id x !! k = Some did → descriptors x !! did = Some d →
  target < BIP32_MAX_INDEX →
  let first := next_revealed x did in
  let stop := if has_wildcard d then target + 1 else 1 in
  ∃ x' items cs, reveal_to_target x k target = Some (x', Some (items, cs)) ∧ keychain_ok x' ∧
    derived_spks d (range_exclusive first stop) = Some items ∧
    (∀ i s, (i, s) ∈ items → spks (inner x') !! (k, i) = Some s) ∧
    txouts (inner x') = txouts (inner x) ∧ spks (inner x) ⊆ spks (inner x') ∧
    last_revealed x' = (if first <? stop then <[did := stop - 1]> (last_revealed x) else last_revealed x) ∧
    kcs_last_revealed cs = (if first <? stop then {[did := stop - 1]} else ∅).
Proof.
  intros Hx Hk Hd Ht first stop. unfold reveal_to_target.
  destruct (reveal_to_target_into_spec x KeychainChangeSet_default k did d target Hx Hk Hd Ht)
    as (y & items & -> & Hitems & Hy & Hext).
  cbn [mbind option_bind]. fold first in Hitems, Hext |- *. unfold reveal_stop in Hitems, Hext |- *. fold stop in Hitems, Hext |- *.
  set (cs0 := if first <? stop then _ else _).
  destruct (staged_pair y cs0 Hy) as (x' & cs & Hstage & Hx' & Hframe & Hinner & Hcs). rewrite Hstage.
  exists x', items, cs. unfold frame in Hframe. injection Hframe. intros _ Htx Hlast _ _ Ed _ Ek.
  assert (keychain_to_descriptor_id y = keychain_to_descriptor_id x ∧ descriptors y = descriptors x ∧
    txouts (inner y) = txouts (inner x) ∧ spks (inner x) ⊆ spks (inner y) ∧
    last_revealed y = (if first <? stop then <[did := stop - 1]> (last_revealed x) else last_revealed x))
    as (Ek1 & Ed1 & Htx1 & Hs1 & Hl1).
  { destruct (first <? stop); [|by subst].
    by destruct (revealed_frame _ _ _ _ _ Hext) as (? & ? & _ & _ & ? & ? & ?). }
  split_and!; [done|done|done| |by rewrite Htx|by rewrite Hinner|by rewrite Hlast|].
  - intros i s Hin. unfold derived_spks in Hitems.
    apply mapM_Some, Forall2_flip in Hitems.
    assert (derived_spk d i = Some s ∧ i < stop ∧ first < stop) as (Hs & Hi & Hlt).
    { apply list_elem_of_lookup in Hin as [n Hn].
      destruct (Forall2_lookup_l _ _ _ _ _ Hitems Hn) as (i' & Hi' & Hp). unfold flip in Hp. cbn in Hp.
      destruct (derived_spk d i') as [s'|] eqn:Hs'; [|done]. injection Hp as -> ->.
      apply list_elem_of_lookup_2, elem_of_range_exclusive in Hi'. split_and!; [done|lia|lia]. }
    rewrite Hinner. destruct (kb_stored _ _ Hy k did) as [n Hn]; [by rewrite Ek1|].
    assert (stop ≤ n) as Hle.
    { assert (stop_index y did d (lookahead y) ≤ n) as Hla.
      { apply (ko_lookahead _ _ Hy k did d n); [by rewrite Ek1|by rewrite Ed1|done]. }
      rewrite (lookahead_stop family) in Hla by apply Hy. unfold next_revealed in Hla. rewrite Hl1 in Hla.
      destruct (N.ltb_spec first stop) as [|]; [|lia]. rewrite lookup_insert_eq in Hla. unfold stop in *.
      destruct (has_wildcard d); lia. }
    destruct (proj2 (Hn i)) as [s' Hs']; [lia|]. rewrite Hs'.
    destruct (spks_derived family _ _ _ Hy Hs') as (d' & Hd' & _ & Hds). cbn [fst snd] in *.
    unfold get_descriptor in Hd'. rewrite Ek1, Hk, Ed1 in Hd'. cbn in Hd'. congruence.
  - rewrite Hcs. unfold cs0. by destruct (first <? stop).
Qed.

(** ** Outputs ahead of the revealed scripts *)

(** C8. An output that pays a script up to the lookahead beyond the last revealed
    index is found although the script was never revealed: it is stored under
    its keychain and index, the index counts as revealed from then on and the
    lookahead moves along, and the change set reports the index exactly when
    it is new. *)
Theorem lookahead_finds_outputs x k did d i op o :
  keychain_ok x → keychain_to_descriptor_id x !! k = Some did → descriptors x !! did = Some d →
  derived_spk d i = Some (script_pubkey o) → has_index d i →
  is_mweb_bridge_output (script_pubkey o) = false → real_txout op o →
  i < (if has_wildcard d then N.min (next_revealed x did + lookahead x) BIP32_MAX_INDEX else 1) →
  ∃ x' cs, keychain_index_txout x op o = Some (x', cs) ∧ keychain_ok x' ∧
    txouts (inner x') = <[op := ((k, i), o)]> (txouts (inner x)) ∧
    next_revealed x' did = N.max (next_revealed x did) (i + 1) ∧
    kcs_last_revealed cs = (if next_revealed x did <=? i then {[did := i]} else ∅) ∧
    ∀ j, j < (if has_wildcard d then N.min (next_revealed x' did + lookahead x) BIP32_MAX_INDEX else 1) →
      is_Some (spks (inner x') !! (k, j)).
Proof.
  intros Hx Hk Hd Hs Hi Hbridge Hr Hlt.
  destruct (keychain_descriptor family _ _ _ Hx Hk) as (d' & Hget & Hd' & _). rewrite Hd in Hd'. injection Hd' as <-.
  destruct (kb_stored _ _ Hx k did Hk) as [n Hn]. pose proof (ko_lookahead _ _ Hx k did d n Hk Hd Hn) as Hstop.
  rewrite (lookahead_stop family) in Hstop by apply Hx.
  destruct (stored_derived family x (k, i) (script_pubkey o) n Hx) as [_ Hind]; [by exists d|done|cbn; lia|].
  assert (owner x o = Some (k, i)) as Howner by (unfold owner; by rewrite Hbridge).
  destruct (scan_txout_owner x op o) as [_ Htx]. rewrite Howner in Htx.
  pose proof (index_txout_into_spec family x KeychainChangeSet_default op o Hx Hr) as Hspec.
  rewrite Howner in Hspec. destruct Hspec as (did' & y & Hk' & Hy & Hrun & Hcase).
  rewrite Hk in Hk'. injection Hk' as <-. unfold keychain_index_txout. rewrite Hrun. cbn [mbind option_bind].
  destruct (staged_pair y (if is_new x did i then note_revealed did i KeychainChangeSet_default
    else KeychainChangeSet_default) Hy) as (x' & cs & -> & Hx' & Hframe & Hinner & Hcs).
  assert (is_new x did i = (next_revealed x did <=? i)) as Hnew.
  { unfold is_new, next_revealed. destruct (last_revealed x !! did); [|by destruct i].
    apply eq_bool_prop_intro. rewrite !Is_true_true, N.ltb_lt, N.leb_le. lia. }
  assert (keychain_to_descriptor_id y = keychain_to_descriptor_id x ∧ descriptors y = descriptors x ∧
    lookahead y = lookahead x ∧ txouts (inner y) = <[op := ((k, i), o)]> (txouts (inner x)) ∧
    next_revealed y did = N.max (next_revealed x did) (i + 1)) as (Ek & Ed & El & Etx & En).
  { unfold next_revealed at 1. rewrite Hnew in Hcase. destruct (N.leb_spec (next_revealed x did) i).
    - destruct Hcase as [Hext _]. destruct (revealed_frame _ _ _ _ _ Hext) as (-> & -> & -> & _ & -> & -> & _).
      rewrite <-Htx. split_and!; [done..|]. rewrite lookup_insert_eq. lia.
    - subst y. split_and!; [done..|exact Htx|]. cbn [last_revealed with_inner]. fold (next_revealed x did). lia. }
  unfold frame in Hframe. injection Hframe. intros _ Etx' Elast _ El' Ed' _ Ek'.
  assert (next_revealed x' did = next_revealed y did) as En' by (unfold next_revealed; by rewrite Elast).
  exists x', cs. split_and!; [done|done|by rewrite Etx'|by rewrite En'| |].
  - rewrite Hcs, Hnew. by destruct (next_revealed x did <=? i).
  - intros j Hj. destruct (kb_stored _ _ Hx' k did) as [m Hm]; [by rewrite Ek', Ek|].
    pose proof (ko_lookahead _ _ Hx' k did d m) as Hla. rewrite Ek', Ek, Ed', Ed in Hla.
    specialize (Hla Hk Hd Hm). rewrite (lookahead_stop family) in Hla by apply Hx'.
    rewrite El', El in Hla. apply Hm. lia.
Qed.

(** ** The next unused script *)

(** The revealed and unused indices of a keychain. *)
Lemma keychain_prefix_contains (k k' : K) i e :
  range_contains (mkKeyRange (KIncluded (k, 0)) (KExcluded (k, e))) (k', i) = true ↔ k' = k ∧ i < e.
Proof.
  unfold range_contains, after_start, before_end. cbn [start_bound end_bound].
  rewrite andb_true_iff, !bool_decide_eq_true. unfold tlt, tle; cbn. unfold lex_le, tlt. cbn. split.
  - intros [Ha [Hb Hne]].
    assert (k' = k) as ->.
    { destruct Ha as [[Ha _]|[-> _]]; [|done]. destruct Hb as [[Hb _]|[-> _]]; [|done].
      by apply (anti_symm (tle (K:=K))). }
    split; [done|]. destruct Hb as [[_ []]|[_ Hb]]; [done|]. cbn in Hb.
    destruct (N.eq_dec i e) as [->|]; [done|lia].
  - intros [-> Hi]. split; [right; split; [done|apply N.le_0_l]|]. split; [right; split; [done|cbn; lia]|].
    intros [= ->]. lia.
Qed.

Lemma keychain_prefix_valid (k : K) e :
  range_valid (mkKeyRange (KIncluded (k, 0)) (KExcluded (k, e))) = true.
Proof. apply bool_decide_eq_true_2. right. split; [done|]. apply N.le_0_l. Qed.

Lemma end_of_revealed x k did :
  keychain_base x → keychain_to_descriptor_id x !! k = Some did →
  match keychain_to_descriptor_id x !! k with
  | Some did => match last_revealed x !! did with Some v => wrapping_add_u32 v 1 | None => 0 end
  | None => 0
  end = next_revealed x did.
Proof.
  intros Hx Hk. rewrite Hk. pose proof (next_revealed_bound family x did Hx) as Hb. unfold next_revealed in *.
  destruct (last_revealed x !! did) as [v|]; [|done]. unfold wrapping_add_u32. apply N.mod_small.
  rewrite bip32_value in Hb. change (2 ^ 32) with 4294967296. lia.
Qed.

(** The revealed scripts that are unused, in the order of their indices. *)
Lemma unused_keychain_spks_spec x k did :
  keychain_ok x → keychain_to_descriptor_id x !! k = Some did →
  ∃ l, unused_keychain_spks x k = Some l ∧ StronglySorted N.le l.*1 ∧
    ∀ i s, (i, s) ∈ l ↔ i < next_revealed x did ∧ (k, i) ∈ unused (inner x) ∧ spks (inner x) !! (k, i) = Some s.
Proof.
  intros Hx Hk. unfold unused_keychain_spks. rewrite (end_of_revealed x k did) by (try done; apply Hx).
  unfold unused_spks, set_range. rewrite keychain_prefix_valid. cbn [mbind option_bind].
  set (ks := filter _ _).
  assert (∀ ki, ki ∈ ks ↔ ki.1 = k ∧ ki.2 < next_revealed x did ∧ ki ∈ unused (inner x)) as Hks.
  { intros [k' i]. unfold ks. rewrite list_elem_of_filter, elem_of_set_iter, keychain_prefix_contains. cbn. tauto. }
  destruct (mapM (λ i, spk ← spk_at_index (inner x) i; Some (i, spk)) ks) as [l|] eqn:Hl.
  2:{ apply mapM_None, Exists_exists in Hl as (ki & Hki & Hnone).
      apply Hks in Hki as (_ & _ & Hu). destruct (spk_unused_known _ (kb_inner _ _ Hx) _ Hu) as [s Hs].
      unfold spk_at_index in Hnone. by rewrite Hs in Hnone. }
  cbn [mbind option_bind]. eexists. split; [done|]. apply mapM_Some in Hl.
  assert (∀ ki s, (ki, s) ∈ l ↔ ki ∈ ks ∧ spks (inner x) !! ki = Some s) as Hmem.
  { intros ki s. split.
    - intros (n & Hn)%list_elem_of_lookup. destruct (Forall2_lookup_r _ _ _ _ _ Hl Hn) as (ki' & Hki' & Hp).
      cbn in Hp. unfold spk_at_index in Hp. destruct (spks (inner x) !! ki') eqn:Hs; [|done].
      injection Hp as -> ->. split; [by eapply list_elem_of_lookup_2|done].
    - intros [(n & Hn)%list_elem_of_lookup Hs]. destruct (Forall2_lookup_l _ _ _ _ _ Hl Hn) as ([ki' s'] & Hki' & Hp).
      cbn in Hp. unfold spk_at_index in Hp. rewrite Hs in Hp. injection Hp as <- <-.
      by eapply list_elem_of_lookup_2. }
  split.
  - assert ((without_keychain l).*1 = ks.*2) as ->.
    { unfold without_keychain. rewrite <-list_fmap_compose. clear Hmem Hks. generalize dependent ks. intros ks Hl.
      induction Hl as [|ki [ki' s] ks l Hp _ IH]; [done|]. cbn. f_equal; [|exact IH].
      cbn in Hp. destruct (spk_at_index _ ki); [|done]. by injection Hp as -> _. }
    assert (StronglySorted tle ks) as Hsorted by apply StronglySorted_filter, set_iter_sorted.
    assert (∀ ki, ki ∈ ks → ki.1 = k) as Hall by (intros ki ?%Hks; tauto). clear Hl Hmem Hks.
    induction Hsorted as [|ki ks' _ IH Hle]; cbn; constructor.
    + apply IH. intros ki' ?. apply Hall. by right.
    + apply Forall_fmap, Forall_forall. intros ki' Hki'. rewrite Forall_forall in Hle. specialize (Hle ki' Hki').
      pose proof (Hall ki (list_elem_of_here _ _)) as E1. pose proof (Hall ki' (list_elem_of_further _ _ _ Hki')) as E2.
      destruct ki as [k1 i1], ki' as [k2 i2]. cbn in *. subst.
      destruct Hle as [[_ []]|[_ Hle]]; [done|]. exact Hle.
  - intros i s. unfold without_keychain. rewrite list_elem_of_fmap. split.
    + intros ([[k' i'] s'] & [= -> ->] & [Hin Hs]%Hmem). apply Hks in Hin as (Ek & ? & ?). cbn in Ek. by subst k'.
    + intros (Hi & Hu & Hs). exists (k, i, s). split; [done|]. apply Hmem. split; [|done]. by apply Hks.
Qed.

(** The next unused script is the revealed one with the lowest index that is
    unused, and then nothing is revealed; when every revealed script is used,
    the next index is revealed, or the only script of a descriptor without
    wildcard is handed out again. *)
Theorem next_unused_spk_correct x k did d :
  keychain_ok x → keychain_to_descriptor_id x !! k = Some did → descriptors x !! did = Some d →
  (has_wildcard d = true → next_revealed x did < BIP32_MAX_INDEX) →
  ∃ x' i s cs, next_unused_spk x k = Some (x', Some ((i, s), cs)) ∧ keychain_ok x' ∧
    spks (inner x') !! (k, i) = Some s ∧ i < next_revealed x' did ∧
    (i < next_revealed x did ∧ (k, i) ∈ unused (inner x) ∧ (∀ j, j < i → (k, j) ∉ unused (inner x)) ∧
       last_revealed x' = last_revealed x ∧ kcs_last_revealed cs = ∅ ∨
     (∀ j, j < next_revealed x did → (k, j) ∉ unused (inner x)) ∧
       i = if has_wildcard d then next_revealed x did else 0).
Proof.
  intros Hx Hk Hd Hcan. destruct (unused_keychain_spks_spec x k did Hx Hk) as (l & Hl & Hsorted & Hmem).
  unfold next_unused_spk. rewrite Hl. cbn [mbind option_bind]. destruct l as [|[i s] l]; cbn [head].
  - assert (∀ j, j < next_revealed x did → (k, j) ∉ unused (inner x)) as Hnone.
    { intros j Hj Hu. destruct (spk_unused_known _ (kb_inner _ _ Hx) _ Hu) as [s Hs].
      apply (not_elem_of_nil (j, s)). by apply Hmem. }
    destruct (reveal_next_ok family x KeychainChangeSet_default k did d Hx Hk Hd Hcan)
      as (y & cs & i & s & Hrun & Hy & Hs & Hlast & Hi). rewrite Hrun. cbn [mbind option_bind].
    destruct (staged_pair y cs Hy) as (x' & cs' & -> & Hx' & Hframe & Hinner & _).
    destruct (frame_fields _ _ Hframe) as (_ & _ & _ & _ & _ & Er).
    exists x', i, s, cs'. rewrite Hinner. split_and!; [done|done|done| |].
    + destruct Hlast as (last & Hlast & Hle). unfold next_revealed. rewrite Er, Hlast. lia.
    + by right.
  - destruct (proj1 (Hmem i s)) as (Hi & Hu & Hs); [by left|]. cbn [mbind option_bind].
    destruct (staged_pair x KeychainChangeSet_default Hx) as (x' & cs' & -> & Hx' & Hframe & Hinner & Hcs).
    destruct (frame_fields _ _ Hframe) as (_ & _ & _ & _ & _ & Er).
    exists x', i, s, cs'. rewrite Hinner. split_and!; [done|done|done|by unfold next_revealed; rewrite Er|].
    left. split_and!; [done|done| |done|done]. intros j Hj Hu'.
    destruct (spk_unused_known _ (kb_inner _ _ Hx) _ Hu') as [s' Hs'].
    assert ((j, s') ∈ (i, s) :: l) as Hin by (apply Hmem; split_and!; [lia|done|done]).
    apply elem_of_cons in Hin as [[= -> ->]|Hin]; [lia|]. cbn in Hsorted.
    apply StronglySorted_inv in Hsorted as [_ Hle]. rewrite Forall_forall in Hle.
    apply (list_elem_of_fmap_2 fst) in Hin. apply Hle in Hin. cbn in Hin. lia.
Qed.

(** ** The invariant *)

Lemma reveal_to_target_into_ok x cs k target :
  keychain_ok x → target < BIP32_MAX_INDEX →
  ∃ x' cs' found, reveal_to_target_into x cs k target = Some (x', cs', found) ∧ keychain_ok x'.
Proof.
  intros Hx Ht. destruct (keychain_to_descriptor_id x !! k) as [did|] eqn:Hk.
  - destruct (kb_descriptors _ _ Hx k did Hk) as (d & Hd & _).
    destruct (reveal_to_target_into_spec x cs k did d target Hx Hk Hd Ht) as (x' & items & Hrun & _ & Hx' & _).
    by eexists _, _, _.
  - rewrite unknown_reveal_to by done. by eexists _, _, _.
Qed.

(** The keychain still has an index to give. *)
Definition room x k : Prop :=
  ∀ did d, keychain_to_descriptor_id x !! k = Some did → descriptors x !! did = Some d →
    has_wildcard d = true → next_revealed x did < BIP32_MAX_INDEX.

Lemma reveal_next_total x cs k :
  keychain_ok x → room x k → ∃ x' cs' found, reveal_next_spk_into x cs k = Some (x', cs', found) ∧ keychain_ok x'.
Proof.
  intros Hx Hroom. destruct (keychain_to_descriptor_id x !! k) as [did|] eqn:Hk.
  - destruct (kb_descriptors _ _ Hx k did Hk) as (d & Hd & _).
    destruct (reveal_next_ok family x cs k did d Hx Hk Hd (Hroom did d Hk Hd)) as (x' & cs' & i & s & Hrun & Hx' & _).
    by eexists _, _, _.
  - rewrite unknown_reveal_next by done. by eexists _, _, _.
Qed.

Lemma unused_keychain_spks_ok x k : keychain_ok x → is_Some (unused_keychain_spks x k).
Proof.
  intros Hx. destruct (keychain_to_descriptor_id x !! k) as [did|] eqn:Hk.
  - destruct (unused_keychain_spks_spec x k did Hx Hk) as (l & -> & _). by eexists.
  - unfold unused_keychain_spks, unused_spks, set_range. rewrite Hk, keychain_prefix_valid. cbn [mbind option_bind].
    replace (filter _ _) with (@nil (K * N)); [by eexists|]. symmetry.
    apply filter_none. intros [k' i] _. rewrite keychain_prefix_contains. lia.
Qed.

Lemma next_unused_total x k :
  keychain_ok x → room x k → ∃ x' r, next_unused_spk x k = Some (x', r) ∧ keychain_ok x'.
Proof.
  intros Hx Hroom. unfold next_unused_spk. destruct (unused_keychain_spks_ok x k Hx) as [l ->].
  cbn [mbind option_bind].
  assert (∃ y cs found, match head l with
    | Some spk => Some (x, KeychainChangeSet_default, Some spk)
    | None => reveal_next_spk_into x KeychainChangeSet_default k
    end = Some (y, cs, found) ∧ keychain_ok y) as (y & cs & [s|] & -> & Hy).
  { destruct (head l); [by eexists _, _, _|by apply reveal_next_total]. }
  - cbn [mbind option_bind]. destruct (staged_pair y cs Hy) as (x' & cs' & -> & Hx' & _). eauto.
  - cbn [mbind option_bind]. eauto.
Qed.

Lemma lookahead_to_target_total x k target :
  keychain_ok x → target < U32_MAX → ∃ x' cs, lookahead_to_target x k target = Some (x', cs) ∧ keychain_ok x'.
Proof.
  intros Hx Ht. destruct (keychain_to_descriptor_id x !! k) as [did|] eqn:Hk.
  - destruct (kb_descriptors _ _ Hx k did Hk) as (d & Hd & _).
    destruct (lookahead_to_target_spec family x k did d target Hx Hk Hd Ht) as (x' & cs & Hrun & Hx' & _). eauto.
  - unfold lookahead_to_target. rewrite unknown_next_index by done. cbn [mbind option_bind].
    destruct (staged_pair x KeychainChangeSet_default Hx) as (x' & cs' & -> & Hx' & _). eauto.
Qed.

Lemma keychain_marks_ok x k i :
  keychain_ok x → keychain_ok (keychain_mark_used x k i).1 ∧
  (txids_fit (inner x) → ∃ x' b, keychain_unmark_used x k i = Some (x', b) ∧ keychain_ok x').
Proof.
  intros Hx. split; [apply with_inner_ok; try done; apply mark_used_ok, Hx|]. intros Hfit.
  destruct (unmark_used_ok (inner x) (k, i) (kb_inner _ _ Hx) Hfit) as (s & b & Hrun & Hok).
  unfold keychain_unmark_used. rewrite Hrun. eexists _, _. split; [done|].
  rewrite unmark_used_spec in Hrun by (try done; apply Hx).
  apply with_inner_ok; [done|done|..]; case_decide; by injection Hrun as <- <-.
Qed.

Lemma reveal_multi_total x (targets : gmap K N) :
  keychain_ok x → (∀ k target, targets !! k = Some target → target < BIP32_MAX_INDEX) →
  ∃ x' cs, reveal_to_target_multi x targets = Some (x', cs) ∧ keychain_ok x'.
Proof.
  intros Hx Ht. unfold reveal_to_target_multi.
  destruct (try_fold_ok (λ acc : KeychainTxOutIndex K * KeychainChangeSet, keychain_ok acc.1)
    (λ acc p, '(x, cs, _) ← reveal_to_target_into acc.1 acc.2 p.1 p.2; Some (x, cs))
    (x, KeychainChangeSet_default) (map_iter targets)) as ([y cs] & -> & Hy); [done| |].
  - intros [y cs] [k target] Hy Hp%elem_of_map_iter.
    destruct (reveal_to_target_into_ok y cs k target Hy (Ht k target Hp)) as (y' & cs' & found & Hrun & Hy').
    cbn [fst snd]. rewrite Hrun. by exists (y', cs').
  - cbn [mbind option_bind]. destruct (staged_pair y cs Hy) as (x' & cs' & -> & Hx' & _). eauto.
Qed.

(** C6. The invariant of the keychain index: keychains and descriptors are in
    bijection, exactly the scripts of an initial segment of indices are stored
    for each, as far as the lookahead beyond the last revealed index, and what is
    cached or staged is what would be derived.  Descriptors are of a family of
    which no two derive the same script.  The empty index satisfies it if its
    lookahead is below [2^31]; and on an index that does, the operations do not
    panic and keep it, as long as
    - a descriptor inserted is of the family;
    - a target to reveal is below [BIP32_MAX_INDEX];
    - the next or the next unused script is asked for while the next index of a
      keychain with a wildcard is below [BIP32_MAX_INDEX];
    - a lookahead target is below [u32::MAX];
    - an output indexed by itself is an output of a transaction with its id
      (whole transactions always are fine);
    - a change set has indices that can be revealed, and scripts that are the
      derived ones and agree with the cache;
    - unmarking needs ids of 256 bits. *)
Theorem keychain_operations_safe x :
  keychain_ok x →
  (∀ k d, family d → ∃ x' r, insert_descriptor x k d = Some (x', r) ∧ keychain_ok x') ∧
  (∀ k target, target < BIP32_MAX_INDEX → ∃ x' r, reveal_to_target x k target = Some (x', r) ∧ keychain_ok x') ∧
  (∀ targets, (∀ k target, targets !! k = Some target → target < BIP32_MAX_INDEX) →
    ∃ x' cs, reveal_to_target_multi x targets = Some (x', cs) ∧ keychain_ok x') ∧
  (∀ k, room x k → ∃ x' r, reveal_next_spk x k = Some (x', r) ∧ keychain_ok x') ∧
  (∀ k, room x k → ∃ x' r, next_unused_spk x k = Some (x', r) ∧ keychain_ok x') ∧
  (∀ k target, target < U32_MAX → ∃ x' cs, lookahead_to_target x k target = Some (x', cs) ∧ keychain_ok x') ∧
  (∀ op o, real_txout op o → ∃ x' cs, keychain_index_txout x op o = Some (x', cs) ∧ keychain_ok x') ∧
  (∀ tx, ∃ x' cs, keychain_index_tx x tx = Some (x', cs) ∧ keychain_ok x') ∧
  (∀ cs, changeset_fits family x cs → ∃ x', keychain_apply_changeset x cs = Some x' ∧ keychain_ok x') ∧
  (∀ k i, keychain_ok (keychain_mark_used x k i).1) ∧
  (∀ k i, txids_fit (inner x) → ∃ x' b, keychain_unmark_used x k i = Some (x', b) ∧ keychain_ok x') ∧
  (∀ la persist, la < 2 ^ 31 → keychain_ok (keychain_index_new la persist : KeychainTxOutIndex K)).
Proof.
  intros Hx. split_and!.
  - intros k d Hf. destruct (insert_descriptor_spec family x k d Hx Hf) as (did & x' & _ & Hrun & Hx' & _). eauto.
  - intros k target Ht. unfold reveal_to_target.
    destruct (reveal_to_target_into_ok x KeychainChangeSet_default k target Hx Ht) as (y & cs & [l|] & -> & Hy);
      cbn [mbind option_bind]; [|eauto].
    destruct (staged_pair y cs Hy) as (x' & cs' & -> & Hx' & _). eauto.
  - intros targets. by apply reveal_multi_total.
  - intros k Hroom. unfold reveal_next_spk.
    destruct (reveal_next_total x KeychainChangeSet_default k Hx Hroom) as (y & cs & [s|] & -> & Hy);
      cbn [mbind option_bind]; [|eauto].
    destruct (staged_pair y cs Hy) as (x' & cs' & -> & Hx' & _). eauto.
  - intros k. by apply next_unused_total.
  - intros k target. by apply lookahead_to_target_total.
  - intros op o Hr. unfold keychain_index_txout.
    destruct (index_txout_into_ok family x KeychainChangeSet_default op o Hx Hr) as (y & cs & -> & Hy).
    cbn [mbind option_bind]. destruct (staged_pair y cs Hy) as (x' & cs' & -> & Hx' & _). eauto.
  - intros tx. by apply keychain_index_tx_ok.
  - intros cs Hcs. destruct (apply_changeset_ok family x cs Hx Hcs) as (x' & Hrun & Hx' & _). eauto.
  - intros k i. by apply keychain_marks_ok.
  - intros k i. by apply keychain_marks_ok.
  - apply keychain_new_ok.
Qed.
End reveal.

(** ** Walking scripts and revealed indices in tandem

    The iterator of [revealed_spks] merges two ordered walks; it yields exactly
    the revealed scripts of the keychains in the range. *)

Section ranges.
Context {K : Type} `{Countable K} `{!TotalOrd K}.
Implicit Types (k : K) (i : N) (range : KeyRange K).

(** ** Ranges of keychains *)

Lemma pair_le k k' i j : tle (k, i) (k', j) ↔ tlt k k' ∨ k = k' ∧ i ≤ j.
Proof. done. Qed.

Lemma pair_lt k k' i j : tlt (k, i) (k', j) ↔ tlt k k' ∨ k = k' ∧ i < j.
Proof.
  unfold tlt at 1. rewrite pair_le. split.
  - intros [[?|[-> Hij]] Hne]; [by left|]. right. split; [done|].
    destruct (N.eq_dec i j) as [->|]; [done|lia].
  - intros [Hk|[-> Hij]].
    + split; [by left|]. intros [= -> _]. by apply (tlt_irrefl k').
    + split; [right; split; [done|lia]|]. intros [= ->]. lia.
Qed.

Lemma tle_cases k k' : tle k k' ↔ tlt k k' ∨ k = k'.
Proof.
  split; [|by intros [[? _]| ->]]. intros Hle. destruct (decide (k = k')); [by right|by left].
Qed.

Lemma inner_bounds_contain range k i :
  i ≤ U32_MAX → range_contains (map_to_inner_bounds range) (k, i) = range_contains range k.
Proof.
  intros Hi. destruct range as [s e]. unfold range_contains, map_to_inner_bounds. cbn [start_bound end_bound]. f_equal.
  - destruct s as [s|s|]; cbn [after_start]; [| |done]; apply bool_decide_ext.
    + rewrite pair_le, tle_cases. pose proof (N.le_0_l i). tauto.
    + rewrite pair_lt. split; [|by left]. intros [?|[_ ?]]; [done|lia].
  - destruct e as [e|e|]; cbn [before_end]; [| |done]; apply bool_decide_ext.
    + rewrite pair_le, tle_cases. tauto.
    + rewrite pair_lt. split; [|by left]. intros [?|[_ ?]]; [done|lia].
Qed.

Lemma inner_bounds_valid range : range_valid range = true → range_valid (map_to_inner_bounds range) = true.
Proof.
  unfold range_valid, map_to_inner_bounds.
  destruct range as [[s|s|] [e|e|]]; cbn [start_bound end_bound]; rewrite ?bool_decide_eq_true; try done;
    rewrite ?pair_le, ?pair_lt, ?tle_cases; unfold U32_MAX; intros; intuition lia.
Qed.

(** ** The merge of the two walks *)

Implicit Types current : list (K * option N).

Definition listed current k i : bool :=
  existsb (λ c : K * option N, bool_decide (c.1 = k) && is_revealed i c.2) current.

(** Skipping drops what lies before the keychain. *)
Lemma skip_keychains_spec k current :
  StronglySorted key_lt current →
  StronglySorted key_lt (skip_keychains k current) ∧
  Forall (λ c : K * option N, ¬ tlt c.1 k) (skip_keychains k current) ∧
  ∀ k' i, ¬ tlt k' k → listed (skip_keychains k current) k' i = listed current k' i.
Proof.
  induction 1 as [|[k0 r] current Hs IH Hle]; cbn [skip_keychains fst].
  { split_and!; [constructor|constructor|done]. }
  destruct IH as (IHs & IHf & IHl). case_bool_decide as Hlt.
  - split_and!; [done|done|]. intros k' i Hk'. rewrite IHl by done. cbn [listed existsb fst snd].
    rewrite bool_decide_eq_false_2; [done|]. by intros ->.
  - split_and!; [by constructor| |done]. constructor; [done|].
    rewrite Forall_forall in Hle |- *. intros c Hc Hck. apply Hlt. eapply tlt_trans; [by apply Hle|done].
Qed.

Lemma StronglySorted_fmap_keys {V W} (f : K * V → W) (l : list (K * V)) :
  StronglySorted key_lt l → StronglySorted key_lt ((λ p : K * V, (p.1, f p)) <$> l).
Proof.
  induction 1 as [|p l _ IH Hp]; cbn; constructor; [done|]. apply Forall_fmap.
  eapply Forall_impl; [exact Hp|]. by intros q.
Qed.

Lemma not_listed current k i : Forall (λ c : K * option N, tlt k c.1) current → listed current k i = false.
Proof.
  induction 1 as [|c current Hc _ IH]; cbn [listed existsb]; [done|]. rewrite bool_decide_eq_false_2; [done|].
  intros <-. by apply (tlt_irrefl c.1).
Qed.

Context `{Scripts}.

Lemma revealed_loop_spec (spks : list (K * N * Script)) current :
  StronglySorted key_lt spks → StronglySorted key_lt current →
  revealed_loop spks current = filter (λ p : K * N * Script, listed current p.1.1 p.1.2 = true) spks.
Proof.
  intros Hspks. revert current. induction Hspks as [|[[k i] s] spks Hs IH Hle]; intros current Hc; [done|].
  cbn [revealed_loop]. rewrite filter_cons. cbn [fst snd].
  destruct (skip_keychains_spec k current Hc) as (Hs' & Hf' & Hl').
  assert (∀ p, p ∈ spks → ¬ tlt p.1.1 k) as Hafter.
  { intros [[k' i'] s'] Hp Hlt. rewrite Forall_forall in Hle. specialize (Hle _ Hp). unfold key_lt in Hle. cbn in Hle, Hlt.
    apply pair_lt in Hle as [Hkk|[-> _]]; [|by apply (tlt_irrefl k')].
    apply (tlt_irrefl k). by eapply tlt_trans. }
  assert (filter (λ p : K * N * Script, listed current p.1.1 p.1.2 = true) spks =
    revealed_loop spks (skip_keychains k current)) as Hrest.
  { rewrite IH by done. apply filter_ext_in. intros p Hp. by rewrite Hl' by auto. }
  rewrite <-(Hl' k i) by apply tlt_irrefl.
  destruct (skip_keychains k current) as [|[k0 r] rest] eqn:Hskip.
  { cbn [listed existsb]. rewrite Hrest, decide_False by done. by destruct spks as [|[[k1 i1] s1] spks1]. }
  rewrite Hrest. apply Forall_cons in Hf' as [Hk0 _]. cbn [fst] in Hk0.
  apply StronglySorted_inv in Hs' as [_ Hall]. cbn [listed existsb fst snd].
  destruct (decide (k0 = k)) as [->|Hne].
  - rewrite bool_decide_eq_true_2 by done. cbn [andb]. fold (listed rest k i).
    rewrite (not_listed rest) by exact Hall. rewrite orb_false_r. destruct (is_revealed i r); by case_decide.
  - rewrite bool_decide_eq_false_2 by done. cbn [andb orb]. fold (listed rest k i).
    rewrite not_listed; [by rewrite decide_False|]. eapply Forall_impl; [exact Hall|]. intros c Hc'. unfold key_lt in Hc'. cbn in Hc'.
    eapply tlt_trans; [|exact Hc']. destruct (decide (tle k k0)) as [[]%tle_cases|Hn%not_tle_tlt]; [done|congruence|done].
Qed.

Context `{!Descriptors}.

Lemma revealed_spks_filter (x : KeychainTxOutIndex K) range :
  range_valid range = true →
  (∀ k i, is_Some (spks (inner x) !! (k, i)) → i ≤ U32_MAX) →
  revealed_spks x range =
    Some (filter (λ p : K * N * Script, range_contains range p.1.1 = true ∧
      is_revealed p.1.2 (last_revealed_index x p.1.1) = true) (map_iter (spks (inner x)))).
Proof.
  intros Hr Hwidth. unfold revealed_spks, spks_range. rewrite (inner_bounds_valid range Hr), Hr.
  cbn [mbind option_bind]. f_equal. set (current := _ <$> _).
  assert (StronglySorted key_lt current) as Hc.
  { unfold current. apply StronglySorted_fmap_keys, StronglySorted_filter, map_iter_sorted. }
  rewrite revealed_loop_spec; [|apply StronglySorted_filter, map_iter_sorted|done].
  rewrite list_filter_filter. apply filter_ext_in. intros [[k i] s] Hin%elem_of_map_iter. cbn [fst snd].
  rewrite inner_bounds_contain by (apply (Hwidth k); by eexists).
  assert (range_contains range k = true →
    listed current k i = true ↔ is_revealed i (last_revealed_index x k) = true) as Hlisted; [|tauto].
  intros Hk. unfold listed, current, last_revealed_index. rewrite existsb_exists.
  setoid_rewrite <-list_elem_of_In. setoid_rewrite list_elem_of_fmap. split.
  - intros (c & ([k' did] & -> & [_ Hkd%elem_of_map_iter]%list_elem_of_filter) & [Heq Hi]%andb_true_iff).
    apply bool_decide_eq_true in Heq. cbn in Heq, Hi. subst k'. by rewrite Hkd.
  - destruct (keychain_to_descriptor_id x !! k) as [did|] eqn:Hkd; [|done]. cbn [mbind option_bind]. intros Hi.
    exists (k, last_revealed x !! did). cbn [fst snd]. rewrite bool_decide_eq_true_2 by done. split; [|done].
    exists (k, did). split; [done|]. apply list_elem_of_filter. split; [done|]. by apply elem_of_map_iter.
Qed.

(** C38. The iterator that walks scripts and revealed indices in tandem yields
    exactly the scripts of the keychains in the range at indices up to the last
    revealed one, in order, whatever the lookahead has stored beyond. *)
Theorem revealed_spks_correct (x : KeychainTxOutIndex K) range :
  range_valid range = true →
  (∀ k i, is_Some (spks (inner x) !! (k, i)) → i ≤ U32_MAX) →
  revealed_spks x range =
    Some (filter (λ p : K * N * Script, range_contains range p.1.1 = true ∧
      is_revealed p.1.2 (last_revealed_index x p.1.1) = true) (map_iter (spks (inner x)))).
Proof. apply revealed_spks_filter. Qed.
End ranges.
