(* ===== verification/KeychainJournal.v ===== *)
(** * The change sets of the keychain index

    A journal that merges the change sets as they come holds what the index
    holds, and an index rebuilt from it reveals the same scripts. *)
From S2P Require Import Prelude Block Tx TxGraph TxGraphSpec SpkIndex SpkSpec SpkIter KeychainIndex KeychainFacts KeychainSpec KeychainOps.
#[local] Open Scope N_scope.

Section journal.
Context `{Bitcoin, !Scripts, !Descriptors} {K : Type} `{Countable K} `{!TotalOrd K}.
Implicit Types (x : KeychainTxOutIndex K) (keychain : K) (did : DescriptorId) (d : Descriptor).
Implicit Types (p cs : KeychainChangeSet).

(** What is staged, as a change set would carry it. *)
Definition staged x did : option (gmap N Script) :=
  foldl (λ m q, <[q.1 := q.2]> m) ∅ <$> spk_cache_stage x !! did.

(** The journal with the change set that an operation has put together so far
    has every revealed index, and with what is staged the whole cache. *)
Record logs p cs x : Prop := {
  logs_cache : kcs_spk_cache cs = ∅;
  logs_revealed : ∀ did, higher (kcs_last_revealed p !! did) (kcs_last_revealed cs !! did) = last_revealed x !! did;
  logs_staged : persist_spks x = true →
    ∀ did, extended (kcs_spk_cache p !! did) (staged x did) = spk_cache x !! did;
}.
Definition journal p x : Prop := logs p KeychainChangeSet_default x.

(** ** Inside an operation *)

Lemma logs_with_inner p cs x i : logs p cs x → logs p cs (with_inner x i).
Proof. by intros [? ? ?]. Qed.

Lemma logs_foldl_inner p cs x k l : logs p cs x → logs p cs (foldl (λ x q, insert_inner x k q) x l).
Proof. revert x. induction l as [|q l IH]; intros x Hx; cbn [foldl]; [done|]. by apply IH, logs_with_inner. Qed.

Lemma logs_with_cache p cs x did c l :
  logs p cs x → extended (kcs_spk_cache p !! did) (Some (foldl (λ m q, <[q.1 := q.2]> m) ∅ l)) = Some c →
  logs p cs (with_cache x (<[did := c]> (spk_cache x)) (<[did := l]> (spk_cache_stage x))).
Proof.
  intros [Hc Hr Hs] Heq. split; [done|done|]. intros Hp did'. unfold staged. cbn. rewrite !lookup_insert.
  case_decide as Hd; [by subst|]. by apply Hs.
Qed.

Lemma staged_default x did :
  default ∅ (staged x did) = foldl (λ m q, <[q.1 := q.2]> m) ∅ (default [] (spk_cache_stage x !! did)).
Proof. unfold staged. by destruct (spk_cache_stage x !! did). Qed.

Lemma extended_default (a b : option (gmap N Script)) :
  default ∅ (extended a b) = default ∅ b ∪ default ∅ a.
Proof. destruct b; [done|]. cbn. by rewrite map_empty_union. Qed.

Lemma logs_replenish_cached p cs did k d x i x' :
  persist_spks x = true → logs p cs x → replenish_cached did k d x i = Some x' →
  logs p cs x' ∧ persist_spks x' = true.
Proof.
  intros Hp Hx. unfold replenish_cached. destruct (default ∅ (spk_cache x !! did) !! i) as [s|] eqn:Hi.
  { intros [= <-]. split; [by apply logs_with_inner|done]. }
  destruct (derived_spk d i) as [s|]; [|done]. cbn [mbind option_bind]. intros [= <-]. split; [|done].
  apply logs_with_inner, logs_with_cache; [done|]. cbn [extended]. f_equal.
  rewrite foldl_app, <-staged_default. cbn [foldl fst snd].
  rewrite <-insert_union_l, <-extended_default. by rewrite (logs_staged _ _ _ Hx Hp).
Qed.

Lemma logs_replenish p cs x did k la x' :
  logs p cs x → replenish_inner_index x did k la = Some x' → logs p cs x'.
Proof.
  intros Hx. unfold replenish_inner_index. destruct (descriptors x !! did) as [d|]; [|done]. cbn [mbind option_bind].
  destruct (next_stored_index x k) as [n|]; [|done]. cbn [mbind option_bind].
  destruct (persist_spks x) eqn:Hp.
  - set (y := with_cache x _ _). assert (logs p cs y) as Hy.
    { apply logs_with_cache; [done|]. cbn [extended]. f_equal.
      by rewrite <-staged_default, <-extended_default, (logs_staged _ _ _ Hx Hp). }
    assert (persist_spks y = true) as Hpy by done. clearbody y. revert y Hy Hpy.
    generalize (range_exclusive n (stop_index x did d la)). intros l.
    induction l as [|i l IH]; intros y Hy Hpy; cbn [try_fold]; [by intros [= <-]|].
    destruct (replenish_cached did k d y i) as [z|] eqn:Hz; [|done]. cbn [mbind option_bind].
    destruct (logs_replenish_cached p cs did k d y i z Hpy Hy Hz). by apply IH.
  - destruct (spk_iter_collect _) as [l|]; [|done]. cbn [mbind option_bind]. intros [= <-].
    by apply logs_foldl_inner.
Qed.

(** A higher index is revealed and noted. *)
Lemma logs_note p cs x did i :
  logs p cs x → (∀ j, last_revealed x !! did = Some j → j < i) →
  logs p (note_revealed did i cs) (set_revealed x did i).
Proof.
  intros [Hc Hr Hs] Hi. split; [done| |done]. intros did'. cbn. rewrite !lookup_insert. case_decide as Hd; [|done].
  subst did'. specialize (Hr did). destruct (kcs_last_revealed p !! did) as [v|]; [|done]. cbn.
  f_equal. destruct (kcs_last_revealed cs !! did) as [w|]; cbn in Hr; specialize (Hi _ (eq_sym Hr)); lia.
Qed.

(** The stage goes into the change set, and the change set into the journal. *)
Lemma logs_done p cs x x' cs' :
  logs p cs x → empty_stage_into_changeset x cs = (x', cs') → journal (merge p cs') x'.
Proof.
  intros [Hc Hr Hs]. unfold empty_stage_into_changeset.
  assert (∀ m did, higher (kcs_last_revealed (merge p (mkKeychainChangeSet (kcs_last_revealed cs) m)) !! did) None =
    last_revealed x !! did) as Hr'.
  { intros m did. rewrite <-(Hr did), merged_last_revealed. cbn [kcs_last_revealed].
    unfold higher. by destruct (kcs_last_revealed p !! did), (kcs_last_revealed cs !! did). }
  destruct (persist_spks x) eqn:Hp; cbn [negb]; intros [= <- <-].
  - split; [done|intros did; cbn [KeychainChangeSet_default kcs_last_revealed]; rewrite lookup_empty; apply Hr'|].
    intros _ did. rewrite merged_spk_cache. unfold staged. cbn [with_cache spk_cache_stage spk_cache kcs_spk_cache].
    rewrite lookup_empty. cbn [fmap option_fmap option_map extended]. rewrite <-(Hs eq_refl did). f_equal.
    rewrite Hc. unfold staged. rewrite (fold_map_iter _ (λ a l, match l with
      | Some l => Some (foldl (λ m q, <[q.1 := q.2]> m) ∅ l ∪ default ∅ a) | None => a end)).
    + rewrite lookup_empty. destruct (spk_cache_stage x !! did); [|done]. cbn. by rewrite map_union_empty.
    + intros m did' l k'. unfold extend_cache. cbn [fst snd]. rewrite lookup_insert. case_decide as Hd.
      * subst k'. rewrite decide_True by done. done.
      * by rewrite decide_False by auto.
    + done.
  - destruct cs as [r c]. cbn in Hc. subst c. split; [done| |cbn; congruence].
    intros did. cbn [KeychainChangeSet_default kcs_last_revealed]. rewrite lookup_empty. apply Hr'.
Qed.

Lemma next_index_new x k i :
  next_index x k = Some (Some (i, true)) →
  ∃ did, keychain_to_descriptor_id x !! k = Some did ∧ ∀ j, last_revealed x !! did = Some j → j < i.
Proof.
  unfold next_index. destruct (keychain_to_descriptor_id x !! k) as [did|]; [|done]. intros Hn. exists did.
  split; [done|]. destruct (descriptors x !! did) as [d|]; [|done]. cbn [mbind option_bind] in Hn.
  destruct (last_revealed x !! did) as [j|]; [|done]. destruct (negb (has_wildcard d)); [done|].
  destruct (BIP32_MAX_INDEX <? j); [done|]. destruct (j =? BIP32_MAX_INDEX); [done|].
  injection Hn as <-. intros j' [= <-]. lia.
Qed.

Lemma logs_reveal_next p cs x k x' cs' found :
  logs p cs x → reveal_next_spk_into x cs k = Some (x', cs', found) → logs p cs' x'.
Proof.
  intros Hx. unfold reveal_next_spk_into. destruct (next_index x k) as [[[i new]|]|] eqn:Hn; [| |done];
    cbn [mbind option_bind]; [|by intros [= <- <- <-]].
  destruct new.
  - destruct (next_index_new x k i Hn) as (did & -> & Hlt). fold (set_revealed x did i).
    destruct (replenish_inner_index (set_revealed x did i) did k (lookahead x)) as [y|] eqn:Hy; [|done].
    cbn [mbind option_bind]. destruct (spk_at_index (inner y) (k, i)); [|done]. intros [= <- <- <-].
    eapply logs_replenish; [|exact Hy]. by apply logs_note.
  - cbn [mbind option_bind]. destruct (spk_at_index (inner x) (k, i)); [|done]. by intros [= <- <- <-].
Qed.

Lemma logs_reveal_loop p fuel cs x k target spks x' cs' found :
  logs p cs x → reveal_loop fuel x cs k target spks = Some (x', cs', found) → logs p cs' x'.
Proof.
  revert cs x spks. induction fuel as [|fuel IH]; intros cs x spks Hx; cbn [reveal_loop]; [done|].
  destruct (next_index x k) as [[[i new]|]|]; [| |done]; cbn [mbind option_bind]; [|by intros [= <- <- <-]].
  destruct (negb new || (target <? i)); [by intros [= <- <- <-]|].
  destruct (reveal_next_spk_into x cs k) as [[[y cs1] found1]|] eqn:Hy; [|done]. cbn [mbind option_bind].
  apply (logs_reveal_next p) in Hy; [|done]. destruct found1; [by apply IH|by intros [= <- <- <-]].
Qed.

Lemma logs_index_txout p cs x op o x' cs' :
  logs p cs x → index_txout_into x cs op o = Some (x', cs') → logs p cs' x'.
Proof.
  intros Hx. unfold index_txout_into. destruct (scan_txout (inner x) op o) as [i [[k index]|]].
  2:{ intros [= <- <-]. by apply logs_with_inner. }
  set (y := with_inner x i). assert (logs p cs y) as Hy by by apply logs_with_inner. clearbody y.
  destruct (keychain_to_descriptor_id y !! k) as [did|]; [|done]. cbn [mbind option_bind].
  destruct (match last_revealed y !! did with Some e => e <? index | None => true end) eqn:Hnew;
    [|by intros [= <- <-]].
  fold (set_revealed y did index).
  destruct (replenish_inner_index (set_revealed y did index) did k (lookahead y)) as [z|] eqn:Hz; [|done].
  cbn [mbind option_bind]. intros [= <- <-]. eapply logs_replenish; [|exact Hz]. apply logs_note; [done|].
  intros j Hj. rewrite Hj in Hnew. by apply N.ltb_lt.
Qed.

Lemma logs_try_fold {A} p (f : KeychainTxOutIndex K * KeychainChangeSet → A → option (KeychainTxOutIndex K * KeychainChangeSet))
    l acc acc' :
  (∀ acc a acc', logs p acc.2 acc.1 → f acc a = Some acc' → logs p acc'.2 acc'.1) →
  logs p acc.2 acc.1 → try_fold f acc l = Some acc' → logs p acc'.2 acc'.1.
Proof.
  intros Hf. revert acc. induction l as [|a l IH]; intros acc Hacc; cbn [try_fold]; [by intros [= <-]|].
  destruct (f acc a) as [acc1|] eqn:Hacc1; [|done]. cbn [mbind option_bind]. apply IH. by eapply Hf.
Qed.

(** An operation that takes the stage in the end. *)
Lemma journal_done p cs x :
  logs p cs x → ∀ x' cs', Some (empty_stage_into_changeset x cs) = Some (x', cs') → journal (merge p cs') x'.
Proof. intros Hx x' cs' [= Heq]. by eapply logs_done. Qed.

Lemma journal_found {R} p x cs (found : option R) :
  logs p cs x →
  ∀ x' r cs', match found with
    | None => Some (x, None)
    | Some r => let '(x, cs) := empty_stage_into_changeset x cs in Some (x, Some (r, cs))
    end = Some (x', Some (r, cs')) → journal (merge p cs') x'.
Proof.
  intros Hx x' r cs'. destruct found as [r0|]; [|done].
  destruct (empty_stage_into_changeset x cs) as [y cs1] eqn:Hy. intros [= <- <- <-]. by eapply logs_done.
Qed.

(** ** The operations *)

Lemma journal_index_tx p x tx x' cs :
  journal p x → keychain_index_tx x tx = Some (x', cs) → journal (merge p cs) x'.
Proof.
  intros Hx. unfold keychain_index_tx. destruct (try_fold _ _ _) as [[y cs1]|] eqn:Hy; [|done].
  cbn [mbind option_bind]. apply journal_done. apply (logs_try_fold p) in Hy; [done| |done].
  intros [z cs2] [n o] [z' cs2'] Hz. by apply logs_index_txout.
Qed.

Lemma journal_reveal_multi p x targets x' cs :
  journal p x → reveal_to_target_multi x targets = Some (x', cs) → journal (merge p cs) x'.
Proof.
  intros Hx. unfold reveal_to_target_multi. destruct (try_fold _ _ _) as [[y cs1]|] eqn:Hy; [|done].
  cbn [mbind option_bind]. apply journal_done. apply (logs_try_fold p) in Hy; [done| |done].
  intros [z cs2] [k target] [z' cs2'] Hz. cbn [fst snd]. unfold reveal_to_target_into.
  destruct (reveal_loop _ z cs2 k target []) as [[[y1 cs3] found]|] eqn:Hy1; [|done].
  cbn [mbind option_bind]. intros [= <- <-]. by eapply logs_reveal_loop.
Qed.

Lemma journal_lookahead p x k target x' cs :
  journal p x → lookahead_to_target x k target = Some (x', cs) → journal (merge p cs) x'.
Proof.
  intros Hx. unfold lookahead_to_target. destruct (next_index x k) as [next|]; [|done].
  cbn [mbind option_bind]. destruct (match next with Some _ => _ | None => _ end) as [y|] eqn:Hy; [|done].
  cbn [mbind option_bind]. apply journal_done.
  destruct next as [[i new]|]; [|by injection Hy as <-].
  destruct (checked_sub _ i) as [la|]; [|by injection Hy as <-].
  destruct (0 <? la); [|by injection Hy as <-]. unfold replenish_inner_index_keychain in Hy.
  destruct (keychain_to_descriptor_id x !! k); [by eapply logs_replenish|by injection Hy as <-].
Qed.

Lemma journal_insert_descriptor p x k d x' r :
  journal p x → insert_descriptor x k d = Some (x', r) → journal p x'.
Proof.
  intros Hx. unfold insert_descriptor. destruct (descriptor_id d) as [did|]; [|done]. cbn [mbind option_bind].
  destruct (bool_decide _ && bool_decide _).
  - destruct (replenish_inner_index (register x k did d) did k (lookahead x)) as [y|] eqn:Hy; [|done].
    cbn [mbind option_bind]. intros [= <- <-]. eapply logs_replenish; [|exact Hy]. by destruct Hx.
  - destruct (check_assignment x k did); [|done]. cbn [mbind option_bind]. by intros [= <- <-].
Qed.

(** C7. Nothing an index reveals or derives escapes its change sets: a journal
    that merges them as they come holds, with what is still staged, every
    revealed index and every cached script; without a stage it is the index's
    own initial change set. *)
Theorem keychain_journal p x :
  journal p x →
  (∀ op o x' cs, keychain_index_txout x op o = Some (x', cs) → journal (merge p cs) x') ∧
  (∀ tx x' cs, keychain_index_tx x tx = Some (x', cs) → journal (merge p cs) x') ∧
  (∀ k target x' l cs, reveal_to_target x k target = Some (x', Some (l, cs)) → journal (merge p cs) x') ∧
  (∀ targets x' cs, reveal_to_target_multi x targets = Some (x', cs) → journal (merge p cs) x') ∧
  (∀ k x' s cs, reveal_next_spk x k = Some (x', Some (s, cs)) → journal (merge p cs) x') ∧
  (∀ k x' s cs, next_unused_spk x k = Some (x', Some (s, cs)) → journal (merge p cs) x') ∧
  (∀ k target x' cs, lookahead_to_target x k target = Some (x', cs) → journal (merge p cs) x') ∧
  (∀ k d x' r, insert_descriptor x k d = Some (x', r) → journal p x') ∧
  (persist_spks x = true → spk_cache_stage x = ∅ → p = keychain_initial_changeset x).
Proof.
  intros Hx. split_and!.
  - intros op o x' cs. unfold keychain_index_txout.
    destruct (index_txout_into x KeychainChangeSet_default op o) as [[y cs1]|] eqn:Hy; [|done].
    cbn [mbind option_bind]. apply journal_done. by eapply logs_index_txout.
  - intros tx x' cs. by apply journal_index_tx.
  - intros k target x' l cs. unfold reveal_to_target, reveal_to_target_into.
    destruct (reveal_loop _ x KeychainChangeSet_default k target []) as [[[y cs1] found]|] eqn:Hy; [|done].
    cbn [mbind option_bind]. apply journal_found. by eapply logs_reveal_loop.
  - intros targets x' cs. by apply journal_reveal_multi.
  - intros k x' s cs. unfold reveal_next_spk.
    destruct (reveal_next_spk_into x KeychainChangeSet_default k) as [[[y cs1] found]|] eqn:Hy; [|done].
    cbn [mbind option_bind]. apply journal_found. by eapply logs_reveal_next.
  - intros k x' s cs. unfold next_unused_spk. destruct (unused_keychain_spks x k) as [l|]; [|done].
    cbn [mbind option_bind]. destruct (head l) as [spk|]; cbn [mbind option_bind]; [by apply (journal_found p x _ (Some spk))|].
    destruct (reveal_next_spk_into x KeychainChangeSet_default k) as [[[y cs1] found]|] eqn:Hy; [|done].
    cbn [mbind option_bind]. apply journal_found. by eapply logs_reveal_next.
  - intros k target x' cs. by apply journal_lookahead.
  - intros k d x' r. by apply journal_insert_descriptor.
  - intros Hp Hstage. destruct Hx as [_ Hr Hs]. apply keychain_changeset_ext; intros did.
    + cbn [kcs_last_revealed keychain_initial_changeset]. rewrite <-(Hr did). cbn.
      rewrite lookup_empty. by destruct (kcs_last_revealed p !! did).
    + cbn [kcs_spk_cache keychain_initial_changeset]. rewrite <-(Hs Hp did). unfold staged.
      by rewrite Hstage, lookup_empty.
Qed.
End journal.
