(* ===== verification/KeychainReload.v ===== *)
(** * Reloading the keychain index

    An index rebuilt from the initial change set and the same descriptors
    reveals the same scripts; and what happens at the last index. *)
From S2P Require Import Prelude Block Tx TxGraph TxGraphSpec SpkIndex SpkSpec SpkIter KeychainIndex KeychainFacts KeychainSpec KeychainOps KeychainReveal.
#[local] Open Scope N_scope.

Section reload.
Context `{BitcoinLaws, !Scripts, !Descriptors, !WidthLaws} {K : Type} `{Countable K} `{!TotalOrd K}.
Context (family : Descriptor → Prop) `{!DistinctDescriptors family}.
Implicit Types (x y z : KeychainTxOutIndex K) (keychain : K) (did : DescriptorId) (d : Descriptor).
Implicit Types (cs : KeychainChangeSet).

Notation keychain_base := (keychain_base family).
Notation keychain_ok := (keychain_ok family).

(** What a wallet does with the descriptors it kept. *)
Definition insert_descriptors x (l : list (K * Descriptor)) : option (KeychainTxOutIndex K) :=
  try_fold (λ x (p : K * Descriptor), '(x', _) ← insert_descriptor x p.1 p.2; Some x') x l.

Lemma keychains_spec x :
  keychain_base x → ∃ l, keychains x = Some l ∧ NoDup l.*1 ∧
    ∀ k d, (k, d) ∈ l ↔ get_descriptor x k = Some d.
Proof.
  intros Hx. unfold keychains.
  destruct (mapM _ (map_iter (keychain_to_descriptor_id x))) as [l|] eqn:Hl.
  - exists l. split; [done|]. apply mapM_Some in Hl. split.
    { assert (l.*1 = (map_iter (keychain_to_descriptor_id x)).*1) as ->; [|apply NoDup_map_iter].
      induction Hl as [|[k did] [k' d] l1 l2 Hp _ IH]; [done|]. cbn in Hp |- *.
      destruct (descriptors x !! did); [|done]. injection Hp as -> _. by rewrite IH. }
    intros k d. unfold get_descriptor. split.
    + intros (n & Hn)%list_elem_of_lookup. destruct (Forall2_lookup_r _ _ _ _ _ Hl Hn) as ([k' did] & Hk & Hp).
      cbn in Hp. destruct (descriptors x !! did) as [d'|] eqn:Hd; [|done]. injection Hp as -> ->.
      apply list_elem_of_lookup_2, elem_of_map_iter in Hk. by rewrite Hk.
    + destruct (keychain_to_descriptor_id x !! k) as [did|] eqn:Hk; [|done]. cbn. intros Hd.
      apply elem_of_map_iter, list_elem_of_lookup in Hk as [n Hn].
      destruct (Forall2_lookup_l _ _ _ _ _ Hl Hn) as ([k' d'] & Hk' & Hp). cbn in Hp. rewrite Hd in Hp.
      injection Hp as <- <-. by eapply list_elem_of_lookup_2.
  - apply mapM_None, Exists_exists in Hl as ([k did] & Hk%elem_of_map_iter & Hnone). cbn in Hnone.
    destruct (kb_descriptors _ _ Hx k did Hk) as (d & Hd & _). by rewrite Hd in Hnone.
Qed.

(** The keychains are inserted one after the other. *)
Lemma insert_descriptors_spec x l z :
  keychain_ok x → keychain_ok z → (∀ k d, (k, d) ∈ l → get_descriptor x k = Some d) → NoDup l.*1 →
  (∀ k d, get_descriptor z k = Some d → get_descriptor x k = Some d ∧ k ∉ l.*1) →
  ∃ z', insert_descriptors z l = Some z' ∧ keychain_ok z' ∧ last_revealed z' = last_revealed z ∧
    ∀ k d, get_descriptor z' k = Some d ↔ get_descriptor z k = Some d ∨ (k, d) ∈ l.
Proof.
  intros Hx. revert z. induction l as [|[k d] l IH]; intros z Hz Hl Hnd Hsub.
  { exists z. split_and!; [done|done|done|]. intros k d. split; [by left|].
    intros [?|Hin]; [done|]. by apply elem_of_nil in Hin. }
  cbn [fmap list_fmap fst] in Hnd. apply NoDup_cons in Hnd as [Hnin Hnd].
  pose proof (Hl k d (list_elem_of_here _ _)) as Hkd.
  destruct (get_descriptor_base family _ _ _ Hx Hkd) as (Hf & did & Hk & _ & Hid).
  destruct (insert_descriptor_spec family z k d Hz Hf) as (did' & z1 & Hid' & Hrun & Hz1 & Hcase).
  assert (did' = did) as -> by congruence.
  assert (get_descriptor z k = None) as Hnone.
  { destruct (get_descriptor z k) as [d1|] eqn:Hg; [|done]. destruct (Hsub k d1 Hg) as [_ []]. by left. }
  assert (assignment z k did d = Ok true) as Hass.
  { unfold assignment. rewrite Hnone. destruct (descriptor_id_to_keychain z !! did) as [k'|] eqn:Hk'; [|done].
    exfalso. apply (kb_bijection _ _ Hz) in Hk'.
    destruct (keychain_descriptor family _ _ _ Hz Hk') as (d' & Hg' & _ & Hid1 & Hf').
    assert (d' = d) as -> by by eapply family_ids. destruct (Hsub k' d Hg') as [Hx' Hnk].
    destruct (get_descriptor_base family _ _ _ Hx Hx') as (_ & did1 & Hk1 & _ & Hid2).
    assert (did1 = did) as -> by congruence.
    pose proof (keychain_ids_distinct family x k' k did Hx Hk1 Hk) as ->. by rewrite Hnone in Hg'. }
  rewrite Hass in Hrun, Hcase. destruct Hcase as (_ & Hext & Hg).
  assert (∀ k' d', get_descriptor z1 k' = Some d' ↔ get_descriptor z k' = Some d' ∨ (k' = k ∧ d' = d)) as Hg1.
  { intros k' d'. destruct (decide (k' = k)) as [->|Hne].
    - rewrite Hg, Hnone. split; [intros [= ->]; by right|intros [?|[_ ->]]; done].
    - rewrite (frame_get_descriptor _ _ _ (ex_frame _ _ _ Hext)), (get_descriptor_register family);
        [tauto|by unfold assignment in Hass; rewrite Hnone in Hass; destruct (descriptor_id_to_keychain z !! did)|apply Hz|done]. }
  destruct (IH z1) as (z' & Hrun' & Hz' & Hlast & Hall); [done| |done| |].
  { intros k' d' Hin. apply Hl. by right. }
  { intros k' d' [Hold|[-> ->]]%Hg1; [|done]. destruct (Hsub k' d' Hold) as [? Hnk]. split; [done|].
    intros Hin. apply Hnk. by right. }
  exists z'. unfold insert_descriptors in *. cbn [try_fold fst snd]. rewrite Hrun. cbn [mbind option_bind].
  split_and!; [done|done| |].
  - rewrite Hlast. apply ex_frame, frame_fields in Hext as (_ & _ & _ & _ & _ & ->). done.
  - intros k' d'. rewrite Hall, Hg1, elem_of_cons. split; [intros [[?|[-> ->]]|?]; eauto|].
    intros [?|[[= -> ->]|?]]; eauto.
Qed.

Lemma revealed_stored x k did d i :
  keychain_ok x → keychain_to_descriptor_id x !! k = Some did → descriptors x !! did = Some d →
  i < next_revealed x did → ∃ s, spks (inner x) !! (k, i) = Some s ∧ derived_spk d i = Some s.
Proof.
  intros Hx Hk Hd Hi. destruct (kb_stored _ _ Hx k did Hk) as [n Hn].
  pose proof (ko_lookahead _ _ Hx k did d n Hk Hd Hn) as Hstop. rewrite (lookahead_stop family) in Hstop by apply Hx.
  assert (i < n) as Hlt.
  { destruct (has_wildcard d) eqn:Hw; [pose proof (next_revealed_bound family x did Hx); lia|].
    unfold next_revealed in Hi. destruct (last_revealed x !! did) as [j|] eqn:Hj; [|lia].
    destruct (keychain_descriptor family _ _ _ Hx Hk) as (d' & _ & Hd' & Hid & Hf).
    rewrite Hd in Hd'. injection Hd' as <-.
    destruct (kb_revealed _ _ Hx did j Hj) as [_ Hz]. rewrite (Hz d Hf Hid Hw) in Hi. lia. }
  apply Hn in Hlt as [s Hs]. exists s. split; [done|].
  destruct (spks_derived family _ _ _ Hx Hs) as (d' & Hd' & _ & Hds). unfold get_descriptor in Hd'. cbn in Hd', Hds.
  rewrite Hk in Hd'. cbn in Hd'. congruence.
Qed.

Lemma from_changeset_ok cs la persist :
  la < 2 ^ 31 → (∀ did i, kcs_last_revealed cs !! did = Some i → revealed_ok family did i) →
  cache_ok family (kcs_spk_cache cs) →
  ∃ y, keychain_from_changeset la persist cs = Some y ∧ keychain_ok (y : KeychainTxOutIndex K) ∧
    last_revealed y = kcs_last_revealed cs ∧ keychain_to_descriptor_id y = ∅ ∧ descriptors y = ∅.
Proof.
  intros Hla Hr Hc. pose proof (keychain_new_ok family la persist Hla (K:=K)) as Hnew.
  assert (changeset_fits family (keychain_index_new la persist : KeychainTxOutIndex K) cs) as Hfits by by split.
  destruct (apply_changeset_ok family _ cs Hnew Hfits) as (y & Hrun & Hy & Ek & Ed).
  exists y. split_and!; [done|done| |done|done]. apply map_eq. intros did.
  rewrite (apply_changeset_revealed family _ cs y Hnew Hfits Hrun). cbn.
  rewrite lookup_empty. by destruct (kcs_last_revealed cs !! did).
Qed.

(** C33. An index rebuilt from the initial change set of another and given its
    descriptors goes on where the other was: it has the same keychains and
    last revealed indices, the same next index for each, and the same script
    at every revealed index, with or without the cache. *)
Theorem keychain_reload x la persist :
  keychain_ok x → la < 2 ^ 31 →
  ∃ y l z, keychain_from_changeset la persist (keychain_initial_changeset x) = Some y ∧
    keychains x = Some l ∧ insert_descriptors y l = Some z ∧ keychain_ok z ∧
    last_revealed z = last_revealed x ∧
    (∀ k, get_descriptor z k = get_descriptor x k ∧ next_index z k = next_index x k) ∧
    ∀ k did i, keychain_to_descriptor_id x !! k = Some did → i < next_revealed x did →
      spks (inner z) !! (k, i) = spks (inner x) !! (k, i).
Proof.
  intros Hx Hla.
  destruct (from_changeset_ok (keychain_initial_changeset x) la persist Hla) as (y & Hy & Hyok & Hlast & Ek & Ed);
    [apply (kb_revealed _ _ Hx)|apply (kb_cache _ _ Hx)|].
  destruct (keychains_spec x Hx) as (l & Hl & Hnd & Hmem).
  assert (∀ k, get_descriptor y k = None) as Hnone by (intros k; unfold get_descriptor; by rewrite Ek).
  destruct (insert_descriptors_spec x l y Hx Hyok) as (z & Hz & Hzok & Hlz & Hall);
    [intros k d; apply Hmem|done|intros k d Hg; by rewrite Hnone in Hg|].
  assert (∀ k, get_descriptor z k = get_descriptor x k) as Hget.
  { intros k. apply option_eq. intros d. rewrite Hall, Hnone, Hmem. split; [by intros [?|?]|by right]. }
  assert (last_revealed z = last_revealed x) as Elast by (by rewrite Hlz, Hlast).
  assert (∀ k did d, keychain_to_descriptor_id x !! k = Some did → descriptors x !! did = Some d →
    keychain_to_descriptor_id z !! k = Some did ∧ descriptors z !! did = Some d) as Hsame.
  { intros k did d Hk Hd. assert (get_descriptor x k = Some d) as Hg by (unfold get_descriptor; by rewrite Hk).
    destruct (get_descriptor_base family _ _ _ Hx Hg) as (_ & did1 & Hk1 & _ & Hid).
    rewrite <-Hget in Hg. destruct (get_descriptor_base family _ _ _ Hzok Hg) as (_ & did2 & Hk2 & Hd2 & Hid2).
    assert (did2 = did) as -> by congruence. done. }
  exists y, l, z. split_and!; [done..| |].
  - intros k. split; [done|]. destruct (keychain_to_descriptor_id x !! k) as [did|] eqn:Hk.
    + destruct (kb_descriptors _ _ Hx k did Hk) as (d & Hd & _). destruct (Hsame k did d Hk Hd) as [Hkz Hdz].
      rewrite (next_index_spec family x k did d), (next_index_spec family z k did d)
        by (try done; first [apply Hx|apply Hzok]).
      unfold next_revealed. by rewrite Elast.
    + rewrite !unknown_next_index; [done|done|]. apply (get_descriptor_None family z k Hzok). rewrite Hget.
      by apply (get_descriptor_None family x k Hx).
  - intros k did i Hk Hi. destruct (kb_descriptors _ _ Hx k did Hk) as (d & Hd & _).
    destruct (Hsame k did d Hk Hd) as [Hkz Hdz].
    destruct (revealed_stored x k did d i Hx Hk Hd Hi) as (s & -> & Hs).
    destruct (revealed_stored z k did d i Hzok Hkz Hdz) as (s' & -> & Hs').
    + unfold next_revealed in *. by rewrite Elast.
    + congruence.
Qed.

(** ** The last index *)

Lemma replenish_nothing x did k d la n :
  descriptors x !! did = Some d → has_wildcard d = true → stored x k n → n ≤ BIP32_MAX_INDEX + 1 →
  stop_index x did d la ≤ n →
  ∃ x', replenish_inner_index x did k la = Some x' ∧ inner x' = inner x.
Proof.
  intros Hd Hw Hn Hb Hstop. unfold replenish_inner_index. rewrite Hd. cbn [mbind option_bind].
  rewrite (next_stored_index_spec x k n) by done. cbn [mbind option_bind]. destruct (persist_spks x).
  - rewrite range_exclusive_nil by done. by eexists.
  - unfold spk_iter_with_range. cbn [start_bound end_bound]. rewrite spk_iter_wildcard by done.
    rewrite range_exclusive_nil by lia. by eexists.
Qed.

(** A wallet that has revealed all indices but the last is offered the last one
    as a new index, and revealing it panics: the scripts stop before it. *)
Lemma last_index_panics la persist k d did :
  la < 2 ^ 31 → family d → has_wildcard d = true → descriptor_id d = Some did →
  ∃ x y, keychain_from_changeset la persist (mkKeychainChangeSet {[did := BIP32_MAX_INDEX - 1]} ∅) = Some x ∧
    insert_descriptor x k d = Some (y, Ok true) ∧ keychain_ok (y : KeychainTxOutIndex K) ∧
    next_index y k = Some (Some (BIP32_MAX_INDEX, true)) ∧ reveal_next_spk y k = None.
Proof.
  intros Hla Hf Hw Hid. destruct (from_changeset_ok (mkKeychainChangeSet {[did := BIP32_MAX_INDEX - 1]} ∅) la persist Hla)
    as (x & Hx & Hok & Hlast & Ek & Ed).
  { intros did' i. cbn [kcs_last_revealed]. intros [<- <-]%lookup_singleton_Some. apply (revealed_ok_intro family did d); [done..| |congruence].
    rewrite bip32_value. lia. }
  { intros d' did' c i s _ _. cbn. by rewrite lookup_empty. }
  destruct (insert_descriptor_spec family x k d Hok Hf) as (did' & y & Hid' & Hrun & Hy & Hcase).
  assert (did' = did) as -> by congruence.
  assert (assignment x k did d = Ok true) as Hass.
  { unfold assignment, get_descriptor. rewrite Ek, lookup_empty. cbn [mbind option_bind].
    destruct (descriptor_id_to_keychain x !! did) as [k'|] eqn:Hk'; [|done].
    apply (kb_bijection _ _ Hok) in Hk'. by rewrite Ek, lookup_empty in Hk'. }
  rewrite Hass in Hrun, Hcase. destruct Hcase as (_ & Hext & _).
  destruct (frame_fields _ _ (ex_frame _ _ _ Hext)) as (Ek' & _ & Ed' & El' & _ & Er').
  assert (keychain_to_descriptor_id y !! k = Some did) as Hk by (rewrite Ek'; apply lookup_insert_eq).
  assert (descriptors y !! did = Some d) as Hd by (rewrite Ed'; apply lookup_insert_eq).
  assert (next_revealed y did = BIP32_MAX_INDEX) as Hnext.
  { unfold next_revealed. rewrite Er'. cbn [last_revealed register]. rewrite Hlast. cbn [kcs_last_revealed].
    rewrite lookup_singleton_eq, bip32_value. done. }
  assert (next_index y k = Some (Some (BIP32_MAX_INDEX, true))) as Hoffer.
  { by rewrite (next_index_spec family y k did d), Hw, Hnext by (try done; apply Hy). }
  destruct (kb_stored _ _ Hy k did Hk) as [n Hn].
  assert (n = BIP32_MAX_INDEX) as ->.
  { pose proof (ko_lookahead _ _ Hy k did d n Hk Hd Hn) as Hstop. rewrite (lookahead_stop family), Hw, Hnext in Hstop by apply Hy.
    destruct (N.lt_trichotomy n BIP32_MAX_INDEX) as [|[|Hgt]]; [lia|done|].
    apply Hn, (ko_below _ _ Hy) in Hgt. lia. }
  exists x, y. split_and!; [done|done|done|done|].
  unfold reveal_next_spk, reveal_next_spk_into. rewrite Hoffer. cbn [mbind option_bind]. rewrite Hk.
  fold (set_revealed y did BIP32_MAX_INDEX).
  destruct (replenish_nothing (set_revealed y did BIP32_MAX_INDEX) did k d (lookahead y) BIP32_MAX_INDEX)
    as (z & -> & Hz); [done|done|exact Hn|lia|apply stop_index_bound|].
  cbn [mbind option_bind]. unfold spk_at_index. rewrite Hz. cbn [inner set_revealed with_last_revealed].
  destruct (spks (inner y) !! (k, BIP32_MAX_INDEX)) as [s|] eqn:Hs; [|done].
  apply mk_is_Some, Hn in Hs. lia.
Qed.
End reload.
