(* ===== verification/KeychainSamples.v ===== *)
(** * A wallet of toy descriptors

    The properties of the keychain index on two descriptors with wildcards and
    one without; a collision of two descriptors that makes revealing panic. *)
From S2P Require Import Prelude Block Tx TxGraph TxGraphSpec TxSamples SpkIndex SpkSpec IndexedSamples SpkIter KeychainIndex KeychainFacts KeychainSpec KeychainOps KeychainReveal KeychainJournal KeychainReload.
#[local] Open Scope N_scope.

(** Scripts are numbers: the one at index [i] is [base + step * i]. *)
Record SampleDescriptor := mkSampleDescriptor { sd_wildcard : bool; sd_base : N; sd_step : N }.
#[export] Instance SampleDescriptor_eq_dec : EqDecision SampleDescriptor.
Proof. solve_decision. Defined.

#[export] Instance SampleDescriptors : Descriptors := {
  Descriptor := SampleDescriptor;
  has_wildcard := sd_wildcard;
  derived_spk d i := Some (sd_base d + sd_step d * i);
  spk_sha256 s := s;
  minimal_non_dust _ := 546;
}.

Definition external : Descriptor := mkSampleDescriptor true 1 34.
Definition internal : Descriptor := mkSampleDescriptor true 18 34.
Definition single : Descriptor := mkSampleDescriptor false 3 0.
Definition wallet (d : Descriptor) : Prop := d ∈ [external; internal; single].

#[export] Instance wallet_distinct : DistinctDescriptors wallet.
Proof.
  split.
  - intros d _ i _. by eexists.
  - intros d d' i i' s Hd Hd' [_ Hi] [_ Hi'] [= <-] [= Heq]. unfold wallet in Hd, Hd'.
    rewrite !elem_of_cons, elem_of_nil in Hd, Hd'.
    destruct Hd as [-> |[-> |[-> |[]]]], Hd' as [-> |[-> |[-> |[]]]]; cbn in *;
      try (exfalso; lia); (split; [done|]); try lia; destruct Hi as [?|?], Hi' as [?|?]; congruence || lia.
  - intros d d' did Hd Hd' [= <-] [= Heq]. unfold wallet in Hd, Hd'. rewrite !elem_of_cons, elem_of_nil in Hd, Hd'.
    destruct Hd as [-> |[-> |[-> |[]]]], Hd' as [-> |[-> |[-> |[]]]]; cbn in *; done || lia.
Qed.

Definition empty_index : KeychainTxOutIndex N := keychain_index_new 2 true.
Lemma empty_index_ok : keychain_ok wallet empty_index.
Proof. by apply keychain_new_ok. Qed.

(** Keychain 0 is the external descriptor. *)
Lemma external_inserted :
  ∃ x, insert_descriptor empty_index 0 external = Some (x, Ok true) ∧ keychain_ok wallet x ∧
    keychain_to_descriptor_id x !! 0 = Some 1 ∧ descriptors x !! 1 = Some external ∧
    last_revealed x = ∅ ∧ lookahead x = 2.
Proof.
  destruct (insert_descriptor_spec wallet empty_index 0 external empty_index_ok) as (did & x & Hid & Hrun & Hx & Hcase);
    [by left|].
  injection Hid as <-. change (assignment empty_index 0 1 external) with (Ok (E:=InsertDescriptorError N) true) in *.
  destruct Hcase as (_ & Hext & _). exists x. split; [exact Hrun|]. split; [exact Hx|].
  destruct (frame_fields _ _ (ex_frame _ _ _ Hext)) as (-> & _ & -> & -> & _ & ->). by split_and!.
Qed.

Lemma keychain_operations_safe_witness :
  ∃ x y cs, insert_descriptor empty_index 0 external = Some (x, Ok true) ∧
    keychain_index_tx x tx_pay = Some (y, cs) ∧ keychain_ok wallet y.
Proof.
  destruct external_inserted as (x & Hrun & Hx & _).
  destruct (keychain_operations_safe wallet x Hx) as (_ & _ & _ & _ & _ & _ & _ & Htx & _).
  destruct (Htx tx_pay) as (y & cs & Hy & Hok). exists x, y, cs. split_and!; [exact Hrun|exact Hy|exact Hok].
Defined.

Lemma reveal_to_target_correct_witness :
  ∃ x x' cs, insert_descriptor empty_index 0 external = Some (x, Ok true) ∧
    reveal_to_target x 0 3 = Some (x', Some ([(0, 1); (1, 35); (2, 69); (3, 103)], cs)) ∧
    kcs_last_revealed cs = {[1 := 3]}.
Proof.
  destruct external_inserted as (x & Hrun & Hx & Hk & Hd & Hr & _).
  destruct (reveal_to_target_correct wallet x 0 1 external 3 Hx Hk Hd) as (x' & items & cs & Hreveal & _ & Hitems & _ & _ & _ & _ & Hcs).
  { by vm_compute. }
  unfold next_revealed in Hitems, Hcs. rewrite Hr in Hitems, Hcs. injection Hitems as <-.
  exists x, x', cs. split_and!; [exact Hrun|exact Hreveal|exact Hcs].
Defined.

(** An output at index 1, of a wallet that has revealed nothing. *)
Definition tx_ahead : SampleTx := mkSampleTx [spend_of tx_pay 1 7] [35].

Lemma lookahead_finds_outputs_witness :
  ∃ x x' cs, insert_descriptor empty_index 0 external = Some (x, Ok true) ∧
    keychain_index_txout x (mkOutPoint (sample_txid tx_ahead) 0) 35 = Some (x', cs) ∧
    kcs_last_revealed cs = {[1 := 1]} ∧ is_Some (spks (inner x') !! (0, 3)).
Proof.
  destruct external_inserted as (x & Hrun & Hx & Hk & Hd & Hr & Hla).
  destruct (lookahead_finds_outputs wallet x 0 1 external 1 (mkOutPoint (sample_txid tx_ahead) 0) 35 Hx Hk Hd)
    as (x' & cs & Hindex & _ & _ & Hnext & Hcs & Hall).
  - reflexivity.
  - split; [by vm_compute|by left].
  - reflexivity.
  - by exists tx_ahead.
  - unfold next_revealed. rewrite Hr, Hla, bip32_value. cbn. lia.
  - assert (next_revealed x 1 = 0) as Hzero by (unfold next_revealed; by rewrite Hr).
    rewrite Hzero in Hnext, Hcs. exists x, x', cs. split_and!; [exact Hrun|exact Hindex|exact Hcs|].
    apply Hall. rewrite Hnext, Hla, bip32_value. cbn. lia.
Defined.

Lemma next_unused_spk_correct_witness :
  ∃ x x' s cs, insert_descriptor empty_index 0 external = Some (x, Ok true) ∧
    next_unused_spk x 0 = Some (x', Some ((0, s), cs)) ∧ spks (inner x') !! (0, 0) = Some s.
Proof.
  destruct external_inserted as (x & Hrun & Hx & Hk & Hd & Hr & _).
  assert (next_revealed x 1 = 0) as Hzero by (unfold next_revealed; by rewrite Hr).
  destruct (next_unused_spk_correct wallet x 0 1 external Hx Hk Hd) as (x' & i & s & cs & Hnext & _ & Hs & _ & Hcase).
  - rewrite Hzero, bip32_value. lia.
  - rewrite Hzero in Hcase. assert (i = 0) as -> by (destruct Hcase as [[? _]|[_ ->]]; [lia|done]).
    exists x, x', s, cs. split_and!; [exact Hrun|exact Hnext|exact Hs].
Defined.

Lemma keychain_journal_witness :
  ∃ x, insert_descriptor empty_index 0 external = Some (x, Ok true) ∧ journal KeychainChangeSet_default x.
Proof.
  destruct external_inserted as (x & Hrun & _).
  exists x. split; [exact Hrun|].
  assert (journal KeychainChangeSet_default empty_index) as Hempty by (split; [done|done|done]).
  destruct (keychain_journal KeychainChangeSet_default empty_index Hempty) as (_ & _ & _ & _ & _ & _ & _ & Hinsert & _).
  exact (Hinsert 0 external x (Ok true) Hrun).
Defined.

Lemma keychain_reload_witness :
  ∃ x y l z, insert_descriptor empty_index 0 external = Some (x, Ok true) ∧
    keychain_from_changeset 5 false (keychain_initial_changeset x) = Some y ∧ insert_descriptors y l = Some z ∧
    keychain_ok wallet z ∧ next_index z 0 = next_index x 0.
Proof.
  destruct external_inserted as (x & Hrun & Hx & _).
  destruct (keychain_reload wallet x 5 false Hx) as (y & l & z & Hy & _ & Hz & Hok & _ & Hall & _); [done|].
  exists x, y, l, z. split_and!; [exact Hrun|exact Hy|exact Hz|exact Hok|apply Hall].
Defined.

Lemma revealed_spks_correct_witness :
  ∃ x, insert_descriptor empty_index 0 external = Some (x, Ok true) ∧ revealed_spks x full_range = Some [].
Proof.
  destruct external_inserted as (x & Hrun & Hx & Hk & _ & Hr & _). exists x. split; [exact Hrun|].
  rewrite (revealed_spks_correct x full_range); [f_equal|done|].
  - apply filter_none. intros [[k i] s] _ [_ Hrev]. cbn in Hrev. unfold last_revealed_index in Hrev.
    destruct (keychain_to_descriptor_id x !! k); [|done]. cbn in Hrev. by rewrite Hr in Hrev.
  - intros k i Hi. apply (ko_below wallet x Hx) in Hi. rewrite bip32_value in Hi. unfold U32_MAX. lia.
Defined.

Lemma spk_iter_nth_correct_witness :
  ∃ it, spk_iter_nth (mkSpkIterator 2 6 external) 1 = Some (Some (3, 103), it) ∧
    spk_iter_collect it = Some [(4, 137); (5, 171)].
Proof.
  apply (spk_iter_nth_correct (mkSpkIterator 2 6 external) 1 [(2, 69); (3, 103); (4, 137); (5, 171)]);
    [by vm_compute|reflexivity].
Defined.

(** ** Descriptors that collide *)

(** At index 1 it derives the script of the external descriptor. *)
Definition colliding : Descriptor := mkSampleDescriptor true 2 33.

(** Two descriptors with distinct scripts at index 0 and the same at index 1: the
    second one cannot reveal index 1. *)
Definition with_colliding : option (KeychainTxOutIndex N) :=
  match insert_descriptor empty_index 0 external with
  | Some (x, _) => match insert_descriptor x 1 colliding with Some (x, _) => Some x | None => None end
  | None => None
  end.
Definition reveal_one (x : option (KeychainTxOutIndex N)) : option (KeychainTxOutIndex N) :=
  match x with
  | Some x => match reveal_next_spk x 1 with Some (x, _) => Some x | None => None end
  | None => None
  end.

Lemma collision_panics :
  is_Some (reveal_one with_colliding) ∧ reveal_one (reveal_one with_colliding) = None.
Proof.
  assert (bool_decide (is_Some (reveal_one with_colliding)) = true) as Hone by (vm_cast_no_check (eq_refl true)).
  assert (bool_decide (is_Some (reveal_one (reveal_one with_colliding))) = false) as Htwo
    by (vm_cast_no_check (eq_refl false)).
  split; [exact (bool_decide_eq_true_1 _ Hone)|].
  apply eq_None_not_Some. exact (bool_decide_eq_false_1 _ Htwo).
Qed.
