(* ===== verification/SpkClient.v ===== *)
(** * Requests to chain sources

    Models [crates/core/src/spk_client.rs] and the extension traits of
    [crates/chain/src/indexer/keychain_txout.rs] that fill requests from a
    keychain index.  A closure that inspects items is a function over a state
    of its own, which is a field of the request.  Counters of [usize] do not
    overflow before memory ends. *)
From S2P Require Import Prelude Block CheckPoint Tx TxGraph SpkIndex SpkIter KeychainIndex.
#[local] Open Scope N_scope.

(** ** Sync requests *)

Inductive SyncItem `{Scripts} (I : Type) :=
| ItemSpk (i : I) (spk : Script)
| ItemTxid (txid : Txid)
| ItemOutPoint (op : OutPoint).
Arguments ItemSpk {_ _ I}.
Arguments ItemTxid {_ _ I}.
Arguments ItemOutPoint {_ _ I}.

Record SyncProgress := mkSyncProgress {
  spks_consumed : N; spks_remaining : N;
  txids_consumed : N; txids_remaining : N;
  outpoints_consumed : N; outpoints_remaining : N;
}.

Definition total_spks (p : SyncProgress) : N := spks_consumed p + spks_remaining p.
Definition total_txids (p : SyncProgress) : N := txids_consumed p + txids_remaining p.
Definition total_outpoints (p : SyncProgress) : N := outpoints_consumed p + outpoints_remaining p.
Definition progress_total (p : SyncProgress) : N := total_spks p + total_txids p + total_outpoints p.
Definition progress_consumed (p : SyncProgress) : N := spks_consumed p + txids_consumed p + outpoints_consumed p.
Definition progress_remaining (p : SyncProgress) : N := spks_remaining p + txids_remaining p + outpoints_remaining p.

Record SpkWithExpectedTxids `{Scripts} := mkSpkWithExpectedTxids {
  swe_spk : Script;
  swe_expected_txids : gset Txid;
}.
Arguments mkSpkWithExpectedTxids {_ _}.
Arguments swe_spk {_ _}.
Arguments swe_expected_txids {_ _}.
Definition spk_without_history `{Scripts} (spk : Script) : SpkWithExpectedTxids := mkSpkWithExpectedTxids spk ∅.

(** A closure and its state. *)
Record SyncInspect `{Scripts} (I S : Type) := mkSyncInspect {
  inspect_state : S;
  inspect_call : S → SyncItem I → SyncProgress → S;
}.
Arguments mkSyncInspect {_ _ I S}.
Arguments inspect_state {_ _ I S}.
Arguments inspect_call {_ _ I S}.

Record SyncRequest `{Scripts} (I D S : Type) := mkSyncRequest {
  req_start_time : N;
  req_chain_tip : option (CheckPoint D);
  req_spks : list (I * Script);
  req_spks_consumed : N;
  req_expected : gmap Script (gset Txid);
  req_txids : list Txid;
  req_txids_consumed : N;
  req_outpoints : list OutPoint;
  req_outpoints_consumed : N;
  req_inspect : SyncInspect I S;
}.
Arguments mkSyncRequest {_ _ I D S}.
Arguments req_start_time {_ _ I D S}.
Arguments req_chain_tip {_ _ I D S}.
Arguments req_spks {_ _ I D S}.
Arguments req_spks_consumed {_ _ I D S}.
Arguments req_expected {_ _ I D S}.
Arguments req_txids {_ _ I D S}.
Arguments req_txids_consumed {_ _ I D S}.
Arguments req_outpoints {_ _ I D S}.
Arguments req_outpoints_consumed {_ _ I D S}.
Arguments req_inspect {_ _ I D S}.

Section sync.
Context `{Scripts} {I D : Type}.

(** A builder is the request it wraps; [build] and the conversions unwrap it. *)
Definition sync_builder_at (start_time : N) : SyncRequest I D unit :=
  mkSyncRequest start_time None [] 0 ∅ [] 0 [] 0 (mkSyncInspect tt (λ _ _ _, tt)).

Context {S : Type}.
Implicit Types (r : SyncRequest I D S).

Definition sync_chain_tip r (cp : CheckPoint D) : SyncRequest I D S :=
  mkSyncRequest (req_start_time r) (Some cp) (req_spks r) (req_spks_consumed r) (req_expected r)
    (req_txids r) (req_txids_consumed r) (req_outpoints r) (req_outpoints_consumed r) (req_inspect r).
Definition spks_with_indexes r (spks : list (I * Script)) : SyncRequest I D S :=
  mkSyncRequest (req_start_time r) (req_chain_tip r) (req_spks r ++ spks) (req_spks_consumed r) (req_expected r)
    (req_txids r) (req_txids_consumed r) (req_outpoints r) (req_outpoints_consumed r) (req_inspect r).
(** [entry(spk).or_default().insert(txid)] *)
Definition expect_txid (m : gmap Script (gset Txid)) (p : Script * Txid) : gmap Script (gset Txid) :=
  <[p.1 := {[p.2]} ∪ default ∅ (m !! p.1)]> m.
Definition expected_spk_txids r (txs : list (Script * Txid)) : SyncRequest I D S :=
  mkSyncRequest (req_start_time r) (req_chain_tip r) (req_spks r) (req_spks_consumed r)
    (foldl expect_txid (req_expected r) txs)
    (req_txids r) (req_txids_consumed r) (req_outpoints r) (req_outpoints_consumed r) (req_inspect r).
Definition sync_txids r (txids : list Txid) : SyncRequest I D S :=
  mkSyncRequest (req_start_time r) (req_chain_tip r) (req_spks r) (req_spks_consumed r) (req_expected r)
    (req_txids r ++ txids) (req_txids_consumed r) (req_outpoints r) (req_outpoints_consumed r) (req_inspect r).
Definition sync_outpoints r (outpoints : list OutPoint) : SyncRequest I D S :=
  mkSyncRequest (req_start_time r) (req_chain_tip r) (req_spks r) (req_spks_consumed r) (req_expected r)
    (req_txids r) (req_txids_consumed r) (req_outpoints r ++ outpoints) (req_outpoints_consumed r) (req_inspect r).
Definition sync_inspect {S'} r (inspect : SyncInspect I S') : SyncRequest I D S' :=
  mkSyncRequest (req_start_time r) (req_chain_tip r) (req_spks r) (req_spks_consumed r) (req_expected r)
    (req_txids r) (req_txids_consumed r) (req_outpoints r) (req_outpoints_consumed r) inspect.

Definition progress r : SyncProgress :=
  mkSyncProgress (req_spks_consumed r) (N.of_nat (length (req_spks r)))
    (req_txids_consumed r) (N.of_nat (length (req_txids r)))
    (req_outpoints_consumed r) (N.of_nat (length (req_outpoints r))).

Definition call_inspect r (item : SyncItem I) : SyncRequest I D S :=
  let f := inspect_call (req_inspect r) in
  sync_inspect r (mkSyncInspect (f (inspect_state (req_inspect r)) item (progress r)) f).

(** The request after taking from the front of a queue. *)
Definition took_spk r (rest : list (I * Script)) : SyncRequest I D S :=
  mkSyncRequest (req_start_time r) (req_chain_tip r) rest (req_spks_consumed r + 1) (req_expected r)
    (req_txids r) (req_txids_consumed r) (req_outpoints r) (req_outpoints_consumed r) (req_inspect r).
Definition took_txid r (rest : list Txid) : SyncRequest I D S :=
  mkSyncRequest (req_start_time r) (req_chain_tip r) (req_spks r) (req_spks_consumed r) (req_expected r)
    rest (req_txids_consumed r + 1) (req_outpoints r) (req_outpoints_consumed r) (req_inspect r).
Definition took_outpoint r (rest : list OutPoint) : SyncRequest I D S :=
  mkSyncRequest (req_start_time r) (req_chain_tip r) (req_spks r) (req_spks_consumed r) (req_expected r)
    (req_txids r) (req_txids_consumed r) rest (req_outpoints_consumed r + 1) (req_inspect r).

Definition next_spk_with_expected_txids r : option SpkWithExpectedTxids * SyncRequest I D S :=
  match req_spks r with
  | [] => (None, r)
  | (i, next_spk) :: rest =>
    let r := call_inspect (took_spk r rest) (ItemSpk i next_spk) in
    (Some (mkSpkWithExpectedTxids next_spk (default ∅ (req_expected r !! next_spk))), r)
  end.
Definition next_txid r : option Txid * SyncRequest I D S :=
  match req_txids r with
  | [] => (None, r)
  | txid :: rest => (Some txid, call_inspect (took_txid r rest) (ItemTxid txid))
  end.
Definition next_outpoint r : option OutPoint * SyncRequest I D S :=
  match req_outpoints r with
  | [] => (None, r)
  | outpoint :: rest => (Some outpoint, call_inspect (took_outpoint r rest) (ItemOutPoint outpoint))
  end.

(** ** The iterators: a [SyncIter] borrows the request *)

Class SyncIter (Item : Type) := {
  sync_iter_next : SyncRequest I D S → option Item * SyncRequest I D S;
  sync_iter_len : SyncRequest I D S → N;
}.
#[export] Instance spk_sync_iter : SyncIter SpkWithExpectedTxids := {
  sync_iter_next := next_spk_with_expected_txids;
  sync_iter_len r := N.of_nat (length (req_spks r));
}.
#[export] Instance txid_sync_iter : SyncIter Txid := {
  sync_iter_next := next_txid;
  sync_iter_len r := N.of_nat (length (req_txids r));
}.
#[export] Instance outpoint_sync_iter : SyncIter OutPoint := {
  sync_iter_next := next_outpoint;
  sync_iter_len r := N.of_nat (length (req_outpoints r));
}.

(** What a loop over the iterator sees; its length is known beforehand. *)
Fixpoint sync_drain_loop {Item} `{!SyncIter Item} (fuel : nat) r : list Item * SyncRequest I D S :=
  match fuel with
  | O => ([], r)
  | Datatypes.S fuel =>
    match sync_iter_next r with
    | (None, r) => ([], r)
    | (Some item, r) => let '(items, r) := sync_drain_loop fuel r in (item :: items, r)
    end
  end.
Definition sync_drain {Item} `{!SyncIter Item} r : list Item * SyncRequest I D S :=
  sync_drain_loop (Datatypes.S (N.to_nat (sync_iter_len (Item:=Item) r))) r.
End sync.

(** [SyncRequestBuilder<()>]. *)
Definition sync_spks `{Scripts} {D S} (r : SyncRequest () D S) (spks : list Script) : SyncRequest () D S :=
  spks_with_indexes r ((λ spk, ((), spk)) <$> spks).

(** ** Responses *)

Record SyncResponse `{Bitcoin} (A : Type) `{Countable A} (D : Type) := mkSyncResponse {
  sresp_tx_update : TxUpdate A;
  sresp_chain_update : option (CheckPoint D);
}.
Arguments mkSyncResponse {_ A _ _ D}.
Arguments sresp_tx_update {_ A _ _ D}.
Arguments sresp_chain_update {_ A _ _ D}.
Record FullScanResponse `{Bitcoin} (K : Type) `{Countable K} (A : Type) `{Countable A} (D : Type) := mkFullScanResponse {
  fresp_tx_update : TxUpdate A;
  fresp_last_active_indices : gmap K N;
  fresp_chain_update : option (CheckPoint D);
}.
Arguments mkFullScanResponse {_ K _ _ A _ _ D}.
Arguments fresp_tx_update {_ K _ _ A _ _ D}.
Arguments fresp_last_active_indices {_ K _ _ A _ _ D}.
Arguments fresp_chain_update {_ K _ _ A _ _ D}.

Section responses.
Context `{Bitcoin} {K : Type} `{Countable K} {A : Type} `{Countable A} {D : Type}.
Definition SyncResponse_default : SyncResponse A D := mkSyncResponse TxUpdate_default None.
Definition SyncResponse_is_empty (s : SyncResponse A D) : bool :=
  TxUpdate_is_empty (sresp_tx_update s) && match sresp_chain_update s with None => true | Some _ => false end.
Definition FullScanResponse_default : FullScanResponse K A D := mkFullScanResponse TxUpdate_default ∅ None.
Definition FullScanResponse_is_empty (s : FullScanResponse K A D) : bool :=
  TxUpdate_is_empty (fresp_tx_update s) && bool_decide (fresp_last_active_indices s = ∅) &&
  match fresp_chain_update s with None => true | Some _ => false end.
End responses.

(** ** Full scans *)

(** [Box<dyn Iterator<Item = T>>]; no value is a panic of the iterator. *)
Record BoxedIter (T : Type) := mkBoxedIter {
  bi_type : Type;
  bi_state : bi_type;
  bi_next : bi_type → option (option T * bi_type);
}.
Arguments mkBoxedIter {T}.
Arguments bi_type {T}.
Arguments bi_state {T}.
Arguments bi_next {T}.

Definition boxed_next {T} (b : BoxedIter T) : option (option T * BoxedIter T) :=
  match bi_next b (bi_state b) with
  | Some (item, s) => Some (item, mkBoxedIter (bi_type b) s (bi_next b))
  | None => None
  end.
Definition boxed_spk_iter `{Descriptors} (it : SpkIterator) : BoxedIter (N * Script) :=
  mkBoxedIter SpkIterator it spk_iter_next.

Record FullScanInspect `{Scripts} (K S : Type) := mkFullScanInspect {
  finspect_state : S;
  finspect_call : S → K → N → Script → S;
}.
Arguments mkFullScanInspect {_ _ K S}.
Arguments finspect_state {_ _ K S}.
Arguments finspect_call {_ _ K S}.

Record FullScanRequest `{Scripts} (K : Type) `{Countable K} (D S : Type) := mkFullScanRequest {
  freq_start_time : N;
  freq_chain_tip : option (CheckPoint D);
  freq_spks_by_keychain : gmap K (BoxedIter (N * Script));
  freq_last_revealed : gmap K N;
  freq_inspect : FullScanInspect K S;
}.
Arguments mkFullScanRequest {_ _ K _ _ D S}.
Arguments freq_start_time {_ _ K _ _ D S}.
Arguments freq_chain_tip {_ _ K _ _ D S}.
Arguments freq_spks_by_keychain {_ _ K _ _ D S}.
Arguments freq_last_revealed {_ _ K _ _ D S}.
Arguments freq_inspect {_ _ K _ _ D S}.

Section full_scan.
Context `{Scripts} {K : Type} `{Countable K} {D : Type}.

Definition full_scan_builder_at (start_time : N) : FullScanRequest K D unit :=
  mkFullScanRequest start_time None ∅ ∅ (mkFullScanInspect tt (λ _ _ _ _, tt)).

Context {S : Type}.
Implicit Types (r : FullScanRequest K D S) (keychain : K).

Definition full_scan_chain_tip r (tip : CheckPoint D) : FullScanRequest K D S :=
  mkFullScanRequest (freq_start_time r) (Some tip) (freq_spks_by_keychain r) (freq_last_revealed r) (freq_inspect r).
Definition spks_for_keychain r keychain (spks : BoxedIter (N * Script)) : FullScanRequest K D S :=
  mkFullScanRequest (freq_start_time r) (freq_chain_tip r) (<[keychain := spks]> (freq_spks_by_keychain r))
    (freq_last_revealed r) (freq_inspect r).
Definition last_revealed_for_keychain r keychain (index : N) : FullScanRequest K D S :=
  mkFullScanRequest (freq_start_time r) (freq_chain_tip r) (freq_spks_by_keychain r)
    (<[keychain := index]> (freq_last_revealed r)) (freq_inspect r).
Definition full_scan_inspect {S'} r (inspect : FullScanInspect K S') : FullScanRequest K D S' :=
  mkFullScanRequest (freq_start_time r) (freq_chain_tip r) (freq_spks_by_keychain r) (freq_last_revealed r) inspect.

Definition full_scan_keychains `{!TotalOrd K} r : list K := (map_iter (freq_spks_by_keychain r)).*1.
Definition full_scan_last_revealed r keychain : option N := freq_last_revealed r !! keychain.

(** [KeychainSpkIter::next], which [next_spk] calls once. *)
Definition full_scan_next_spk r keychain : option (option (N * Script) * FullScanRequest K D S) :=
  match freq_spks_by_keychain r !! keychain with
  | None => Some (None, r)
  | Some spks =>
    '(item, spks) ← boxed_next spks;
    let r := spks_for_keychain r keychain spks in
    Some (match item with
          | None => (None, r)
          | Some (i, spk) =>
            let f := finspect_call (freq_inspect r) in
            (Some (i, spk),
             full_scan_inspect r (mkFullScanInspect (f (finspect_state (freq_inspect r)) keychain i spk) f))
          end)
  end.
End full_scan.

(** ** Requests from a keychain index *)

Section from_indexer.
Context `{Descriptors} {K : Type} `{Countable K} `{!TotalOrd K} {D S : Type}.
Implicit Types (x : KeychainTxOutIndex K).

Definition revealed_spks_from_indexer (r : SyncRequest (K * N) D S) x (spk_range : KeyRange K) :
    option (SyncRequest (K * N) D S) :=
  spks ← revealed_spks x spk_range; Some (spks_with_indexes r spks).
Definition unused_spks_from_indexer (r : SyncRequest (K * N) D S) x : option (SyncRequest (K * N) D S) :=
  spks ← keychain_unused_spks x; Some (spks_with_indexes r spks).

(** One turn of the loop over the keychains. *)
Definition add_keychain x (r : FullScanRequest K D S) (p : K * SpkIterator) : FullScanRequest K D S :=
  let r' := spks_for_keychain r p.1 (boxed_spk_iter p.2) in
  match last_revealed_index x p.1 with
  | Some index => last_revealed_for_keychain r' p.1 index
  | None => r'
  end.
Definition spks_from_indexer (r : FullScanRequest K D S) x : option (FullScanRequest K D S) :=
  iters ← all_unbounded_spk_iters x; Some (foldl (add_keychain x) r (map_iter iters)).
End from_indexer.
