(* ===== verification/SpkClientSpec.v ===== *)
(** * What a chain source is told

    A sync request hands out every item once and reports exact progress; a full
    scan request built from a keychain index hands out the scripts of every
    keychain from the start. *)
From S2P Require Import Prelude Block CheckPoint Tx TxGraph TxSamples TxGraphSpec SpkIndex SpkSpec IndexedSamples SpkIter KeychainIndex KeychainFacts KeychainReveal KeychainReload KeychainSamples SpkClient.
#[local] Open Scope N_scope.

Section sync.
Context `{Scripts} {I D S : Type}.
Implicit Types (r : SyncRequest I D S).

(** What an iterator over a request promises: it takes from the front of a
    queue, counts, and shows the item with the progress so far to the closure;
    what it answers does not depend on the items taken before. *)
Class SyncIterLaws (Item : Type) `{!SyncIter (I:=I) (D:=D) (S:=S) Item} (Q : Type) := {
  queue : SyncRequest I D S → list Q;
  answer : SyncRequest I D S → Q → Item;
  shown : Q → SyncItem I;
  queue_len : ∀ r, sync_iter_len r = N.of_nat (length (queue r));
  queue_empty : ∀ r, queue r = [] → sync_iter_next r = (None, r);
  queue_cons : ∀ r q rest, queue r = q :: rest → ∃ r', sync_iter_next r = (Some (answer r q), r') ∧
    queue r' = rest ∧ (∀ q, answer r' q = answer r q) ∧
    progress_total (progress r') = progress_total (progress r) ∧
    progress_consumed (progress r') = progress_consumed (progress r) + 1 ∧
    req_inspect r' = mkSyncInspect
      (inspect_call (req_inspect r) (inspect_state (req_inspect r)) (shown q) (progress r')) (inspect_call (req_inspect r));
}.

Ltac took := 
  repeat match goal with
  | |- _ ∧ _ => split
  | |- ∀ _, _ => intros ?
  | |- _ = _ => unfold progress_total, progress_consumed, total_spks, total_txids, total_outpoints; cbn; done || lia
  end.

#[export, refine] Instance spk_sync_iter_laws : SyncIterLaws SpkWithExpectedTxids (I * Script) := {
  queue := req_spks;
  answer r q := mkSpkWithExpectedTxids q.2 (default ∅ (req_expected r !! q.2));
  shown q := ItemSpk q.1 q.2;
}.
Proof.
  - done.
  - intros r Hq. cbn. unfold next_spk_with_expected_txids. by rewrite Hq.
  - intros r [i spk] rest Hq. cbn [sync_iter_next spk_sync_iter]. unfold next_spk_with_expected_txids. rewrite Hq.
    eexists. split; [done|]. unfold progress. rewrite Hq. cbn. took.
Defined.

#[export, refine] Instance txid_sync_iter_laws : SyncIterLaws Txid Txid := {
  queue := req_txids; answer _ q := q; shown := ItemTxid;
}.
Proof.
  - done.
  - intros r Hq. cbn. unfold next_txid. by rewrite Hq.
  - intros r txid rest Hq. cbn [sync_iter_next txid_sync_iter]. unfold next_txid. rewrite Hq.
    eexists. split; [done|]. unfold progress. rewrite Hq. cbn. took.
Defined.

#[export, refine] Instance outpoint_sync_iter_laws : SyncIterLaws OutPoint OutPoint := {
  queue := req_outpoints; answer _ q := q; shown := ItemOutPoint;
}.
Proof.
  - done.
  - intros r Hq. cbn. unfold next_outpoint. by rewrite Hq.
  - intros r outpoint rest Hq. cbn [sync_iter_next outpoint_sync_iter]. unfold next_outpoint. rewrite Hq.
    eexists. split; [done|]. unfold progress. rewrite Hq. cbn. took.
Defined.

(** What the closure has been shown, on top of what it had seen. *)
Definition seen_by r (visits : list (SyncItem I * SyncProgress)) : S :=
  foldl (λ s v, inspect_call (req_inspect r) s v.1 v.2) (inspect_state (req_inspect r)) visits.

Lemma sync_drain_loop_spec {Item Q} `{SyncIterLaws Item Q} fuel r :
  (length (queue r) < fuel)%nat →
  ∃ r' visits, sync_drain_loop fuel r = (answer r <$> queue r, r') ∧ queue r' = [] ∧
    progress_total (progress r') = progress_total (progress r) ∧
    progress_consumed (progress r') = progress_consumed (progress r) + N.of_nat (length (queue r)) ∧
    inspect_state (req_inspect r') = seen_by r visits ∧ visits.*1 = shown <$> queue r ∧
    ∀ k v, visits !! k = Some v → progress_total v.2 = progress_total (progress r) ∧
      progress_consumed v.2 = progress_consumed (progress r) + N.of_nat k + 1.
Proof.
  remember (queue r) as l eqn:Hl. revert r fuel Hl.
  induction l as [|q l IH]; intros r fuel Hl Hfuel; (destruct fuel as [|fuel]; [cbn in Hfuel; lia|]); cbn [sync_drain_loop].
  - rewrite queue_empty by done. exists r, []. rewrite <-Hl. split_and!; try done. cbn. lia.
  - destruct (queue_cons r q l) as (r1 & -> & Hq1 & Ha1 & Ht1 & Hc1 & Hi1); [done|].
    destruct (IH r1 fuel) as (r' & visits & Hrun & Hq & Ht & Hc & Hs & Hv & Hp); [done|cbn in Hfuel; lia|].
    rewrite Hrun. exists r', ((shown q, progress r1) :: visits). split_and!.
    + cbn [fmap list_fmap]. do 2 f_equal. by apply list_fmap_ext.
    + done.
    + by rewrite Ht.
    + rewrite Hc, Hc1. cbn [length]. lia.
    + rewrite Hs. unfold seen_by. by rewrite Hi1.
    + cbn [fmap list_fmap fst]. by rewrite Hv.
    + intros [|k] v Hk; cbn in Hk.
      * injection Hk as <-. cbn [snd]. split; [done|]. rewrite Hc1. lia.
      * destruct (Hp k v Hk) as [-> ->]. split; [done|]. rewrite Hc1. lia.
Qed.

(** A loop over the scripts, transactions or outpoints of a sync request
    hands out every item exactly once and in order; the closure is shown each
    of them with the progress made, which counts up by one and always towards
    the same total. *)
Theorem sync_request_complete {Item Q} `{SyncIterLaws Item Q} r :
  ∃ r' visits, sync_drain (Item:=Item) r = (answer r <$> queue r, r') ∧ queue r' = [] ∧
    progress_total (progress r') = progress_total (progress r) ∧
    progress_consumed (progress r') = progress_consumed (progress r) + N.of_nat (length (queue r)) ∧
    inspect_state (req_inspect r') = seen_by r visits ∧ visits.*1 = shown <$> queue r ∧
    ∀ k v, visits !! k = Some v → progress_total v.2 = progress_total (progress r) ∧
      progress_consumed v.2 = progress_consumed (progress r) + N.of_nat k + 1.
Proof. unfold sync_drain. apply sync_drain_loop_spec. rewrite queue_len. lia. Qed.

(** The transactions expected of a script are those it was added with. *)
Lemma expected_spk_txids_spec r txs spk txid :
  txid ∈ default ∅ (req_expected (expected_spk_txids r txs) !! spk) ↔
  txid ∈ default ∅ (req_expected r !! spk) ∨ (spk, txid) ∈ txs.
Proof.
  cbn [expected_spk_txids req_expected]. generalize (req_expected r). intros m. revert m.
  induction txs as [|[spk' txid'] txs IH]; intros m; cbn [foldl]; [set_solver|].
  rewrite IH. unfold expect_txid. cbn [fst snd]. rewrite lookup_insert, elem_of_cons. case_decide as Hs.
  - subst spk'. cbn [default from_option id]. set_solver.
  - naive_solver.
Qed.
End sync.

(** ** From a keychain index *)

Section scan.
Context `{Bitcoin, !BitcoinLaws, !Scripts, !Descriptors, !WidthLaws} {K : Type} `{Countable K} `{!TotalOrd K} {D S : Type}.
Context (family : Descriptor → Prop) `{!DistinctDescriptors family}.
Implicit Types (x : KeychainTxOutIndex K) (r : FullScanRequest K D S) (k : K).

(** A request built from the revealed scripts of an index visits exactly those. *)
Lemma revealed_spks_requested x range (r : SyncRequest (K * N) D S) :
  keychain_ok family x → range_valid range = true →
  ∃ spks (r' : SyncRequest (K * N) D S), revealed_spks_from_indexer r x range = Some r' ∧
    req_spks r' = req_spks r ++ spks ∧
    ∀ k i s, (k, i, s) ∈ spks ↔ SpkIndex.spks (inner x) !! (k, i) = Some s ∧ range_contains range k = true ∧
      ∃ last, last_revealed_index x k = Some last ∧ i ≤ last.
Proof.
  intros Hx Hr. unfold revealed_spks_from_indexer. rewrite revealed_spks_filter; [|done|].
  2:{ intros k i Hi. apply (ko_below _ _ Hx) in Hi. rewrite bip32_value in Hi. unfold U32_MAX. lia. }
  cbn [mbind option_bind]. eexists _, _. split; [done|]. split; [done|].
  intros k i s. rewrite list_elem_of_filter, elem_of_map_iter. cbn [fst snd]. unfold is_revealed.
  destruct (last_revealed_index x k) as [last|].
  - rewrite N.leb_le. split; [intros [[? ?] ?]; eauto 6|intros (? & ? & ? & [= <-] & ?); done].
  - split; [by intros [[? ?] ?]|by intros (? & ? & ? & ? & ?)].
Qed.

Lemma full_scan_step r k it :
  freq_spks_by_keychain r !! k = Some (boxed_spk_iter it) →
  full_scan_next_spk r k =
    '(item, it') ← spk_iter_next it;
    Some (item, match item with
      | None => spks_for_keychain r k (boxed_spk_iter it')
      | Some (i, spk) => full_scan_inspect (spks_for_keychain r k (boxed_spk_iter it'))
          (mkFullScanInspect (finspect_call (freq_inspect r) (finspect_state (freq_inspect r)) k i spk)
            (finspect_call (freq_inspect r)))
      end).
Proof.
  intros Hk. unfold full_scan_next_spk. rewrite Hk. unfold boxed_next, boxed_spk_iter. cbn [bi_next bi_state bi_type].
  destruct (spk_iter_next it) as [[[[i spk]|] it']|]; done.
Qed.

(** Asking for the next script of a keychain [n] times. *)
Fixpoint full_scan_take (n : nat) r k : option (list (N * Script) * FullScanRequest K D S) :=
  match n with
  | O => Some ([], r)
  | Datatypes.S n =>
    '(item, r) ← full_scan_next_spk r k;
    match item with
    | None => Some ([], r)
    | Some item => '(items, r) ← full_scan_take n r k; Some (item :: items, r)
    end
  end.

Lemma full_scan_take_spec n r k d next end_ :
  has_wildcard d = true → derivable d → end_ ≤ BIP32_MAX_INDEX + 1 → next + N.of_nat n ≤ end_ →
  freq_spks_by_keychain r !! k = Some (boxed_spk_iter (mkSpkIterator next end_ d)) →
  ∃ items r', full_scan_take n r k = Some (items, r') ∧
    derived_spks d (range_exclusive next (next + N.of_nat n)) = Some items ∧
    finspect_call (freq_inspect r') = finspect_call (freq_inspect r) ∧
    finspect_state (freq_inspect r') =
      foldl (λ s p, finspect_call (freq_inspect r) s k p.1 p.2) (finspect_state (freq_inspect r)) items ∧
    ∀ k', k' ≠ k → freq_spks_by_keychain r' !! k' = freq_spks_by_keychain r !! k'.
Proof.
  intros Hw Hd Hend. revert r next. induction n as [|n IH]; intros r next Hle Hk.
  - exists [], r. rewrite range_exclusive_nil by lia. by split_and!.
  - cbn [full_scan_take]. rewrite (full_scan_step _ _ _ Hk). unfold spk_iter_next. cbn [si_next_index si_end si_descriptor].
    rewrite Hw. destruct (N.leb_spec end_ next); [lia|]. cbn [negb andb].
    destruct (Hd next) as [s Hs]; [lia|]. rewrite Hs. cbn [mbind option_bind].
    match goal with |- context [full_scan_take n ?q k] => set (r1 := q) end.
    destruct (IH r1 (next + 1)) as (items & r' & Hrun & Hitems & Hf & Hst & Hothers); [lia|apply lookup_insert_eq|].
    rewrite Hrun. cbn [mbind option_bind]. exists ((next, s) :: items), r'. split_and!.
    + done.
    + rewrite range_exclusive_cons by lia. unfold derived_spks in *. cbn [mapM]. rewrite Hs. cbn [mbind option_bind].
      replace (next + N.of_nat (Datatypes.S n)) with (next + 1 + N.of_nat n) by lia. by rewrite Hitems.
    + done.
    + done.
    + intros k' Hne. rewrite Hothers by done. cbn. by rewrite lookup_insert_ne.
Qed.

(** ** The request of an index *)

Lemma add_keychain_fold x l r :
  NoDup l.*1 →
  let r' := foldl (add_keychain x) r l in
  (∀ k, freq_spks_by_keychain r' !! k =
    match (list_to_map l : gmap K SpkIterator) !! k with
    | Some it => Some (boxed_spk_iter it)
    | None => freq_spks_by_keychain r !! k
    end) ∧
  (∀ k, k ∈ l.*1 → full_scan_last_revealed r' k =
    match last_revealed_index x k with Some i => Some i | None => full_scan_last_revealed r k end) ∧
  freq_inspect r' = freq_inspect r.
Proof.
  cbn zeta. revert r. induction l as [|[k0 it] l IH]; intros r Hnd; cbn [foldl].
  - split_and!; [intros k; cbn; by rewrite lookup_empty|intros k Hk; by apply elem_of_nil in Hk|done].
  - cbn [fmap list_fmap fst] in Hnd. apply NoDup_cons in Hnd as [Hnin Hnd].
    destruct (IH (add_keychain x r (k0, it)) Hnd) as (Hs & Hl & Hi).
    assert (freq_spks_by_keychain (add_keychain x r (k0, it)) = <[k0 := boxed_spk_iter it]> (freq_spks_by_keychain r)) as Hadd
      by (unfold add_keychain; by destruct (last_revealed_index x (k0, it).1)).
    assert (∀ k, full_scan_last_revealed (add_keychain x r (k0, it)) k =
      if decide (k = k0) then match last_revealed_index x k with Some i => Some i | None => full_scan_last_revealed r k end
      else full_scan_last_revealed r k) as Hrev.
    { intros k. unfold add_keychain, full_scan_last_revealed. cbn [fst snd].
      destruct (decide (k = k0)) as [->|Hne]; destruct (last_revealed_index x k0); cbn; try done.
      - apply lookup_insert_eq.
      - by rewrite lookup_insert_ne by done. }
    split_and!; [| |by rewrite Hi; unfold add_keychain; destruct (last_revealed_index x (k0, it).1)].
    + intros k. rewrite Hs, Hadd. cbn [list_to_map foldr fst snd].
      destruct (decide (k = k0)) as [->|Hne].
      * rewrite lookup_insert_eq, (not_elem_of_list_to_map_1 l k0) by done. by rewrite lookup_insert_eq.
      * by rewrite !lookup_insert_ne by done.
    + intros k. cbn [fmap list_fmap fst]. rewrite elem_of_cons. intros Hk. destruct (decide (k = k0)) as [->|Hne].
      * assert (∀ r', full_scan_last_revealed (foldl (add_keychain x) r' l) k0 = full_scan_last_revealed r' k0) as Hkeep.
        { clear -Hnin. induction l as [|[k1 it1] l IH]; intros r'; cbn [foldl]; [done|].
          apply not_elem_of_cons in Hnin as [Hne Hnin]. cbn [fst] in Hne. rewrite IH by done.
          unfold add_keychain, full_scan_last_revealed. cbn [fst]. destruct (last_revealed_index x k1); [|done].
          cbn. by rewrite lookup_insert_ne by done. }
        by rewrite Hkeep, Hrev, decide_True.
      * rewrite Hl by (by destruct Hk). by rewrite Hrev, decide_False.
Qed.

(** A full scan request built from a keychain index starts every keychain at
    index 0 and tells how far it was revealed; asked [n] times for the next
    script of a keychain with a wildcard, it yields the scripts of the first
    [n] indices in order, whatever the other keychains were asked for, and
    the closure is shown each of them. *)
Theorem full_scan_from_index x (start : N) (inspect : FullScanInspect K S) k d n :
  keychain_ok family x → get_descriptor x k = Some d → has_wildcard d = true → N.of_nat n ≤ BIP32_MAX_INDEX + 1 →
  ∃ r items r', spks_from_indexer (full_scan_inspect (full_scan_builder_at (D:=D) start) inspect) x = Some r ∧
    full_scan_last_revealed r k = last_revealed_index x k ∧
    full_scan_take n r k = Some (items, r') ∧
    derived_spks d (range_exclusive 0 (N.of_nat n)) = Some items ∧
    finspect_state (freq_inspect r') = foldl (λ s p, finspect_call inspect s k p.1 p.2) (finspect_state inspect) items ∧
    ∀ k', k' ≠ k → freq_spks_by_keychain r' !! k' = freq_spks_by_keychain r !! k'.
Proof.
  intros Hx Hd Hw Hn. destruct (keychains_spec family x (ko_base _ _ Hx)) as (l & Hl & Hnd & Hmem).
  unfold spks_from_indexer, all_unbounded_spk_iters. rewrite Hl. cbn [mbind option_bind].
  set (iters := list_to_map _ : gmap K SpkIterator).
  assert (iters !! k = Some (spk_iter_new d)) as Hk.
  { apply elem_of_list_to_map_1.
    - by rewrite <-list_fmap_compose.
    - apply list_elem_of_fmap. exists (k, d). split; [done|]. by apply Hmem. }
  destruct (add_keychain_fold x (map_iter iters) (full_scan_inspect (full_scan_builder_at (D:=D) start) inspect)
    (NoDup_map_iter _)) as (Hs & Hrev & Hinspect).
  set (r := foldl _ _ _) in *. rewrite list_to_map_map_iter in Hs. specialize (Hs k) as Hsk. rewrite Hk in Hsk.
  destruct (get_descriptor_base family _ _ _ (ko_base _ _ Hx) Hd) as [Hf _].
  destruct (full_scan_take_spec n r k d 0 (BIP32_MAX_INDEX + 1) Hw (family_derivable d Hf))
    as (items & r' & Htake & Hitems & _ & Hstate & Hothers); [lia|lia|exact Hsk|].
  exists r, items, r'. split_and!; [done| |exact Htake|exact Hitems| |exact Hothers].
  2:{ rewrite Hstate, Hinspect. done. }
  rewrite Hrev.
  - destruct (last_revealed_index x k); [done|]. unfold full_scan_last_revealed. cbn. apply lookup_empty.
  - apply elem_of_map_iter, (list_elem_of_fmap_2 fst) in Hk. exact Hk.
Qed.
End scan.

(** ** Requests of a sample wallet

    A sync request whose closure keeps a log, and a full scan request of the
    wallet of [KeychainSamples]. *)

(** What the closure was shown: the item, and how many of how many. *)
Definition sample_log : SyncInspect () (list (SyncItem () * N * N)) :=
  mkSyncInspect [] (λ log item p, log ++ [(item, progress_consumed p, progress_total p)]).
Definition sample_request : SyncRequest () BlockHash (list (SyncItem () * N * N)) :=
  sync_inspect (sync_txids (expected_spk_txids (sync_spks (sync_builder_at 5) [1; 35]) [(35, 8)]) [7]) sample_log.

Lemma sync_request_complete_witness :
  ∃ r, sync_drain (Item:=SpkWithExpectedTxids) sample_request =
      ([mkSpkWithExpectedTxids 1 ∅; mkSpkWithExpectedTxids 35 {[8]}], r) ∧
    req_spks r = [] ∧ req_txids r = [7] ∧ progress_total (progress r) = 3 ∧
    inspect_state (req_inspect r) = [(ItemSpk () 1, 1, 3); (ItemSpk () 35, 2, 3)].
Proof.
  destruct (sync_request_complete (Item:=SpkWithExpectedTxids) sample_request) as (r & visits & Hrun & Hq & Ht & _).
  exists r. split; [exact Hrun|]. split; [exact Hq|].
  pose proof (f_equal snd Hrun) as Hr. cbn [snd] in Hr. split; [by rewrite <-Hr|]. split; [exact Ht|]. by rewrite <-Hr.
Defined.

Definition scan_log : FullScanInspect N (list (N * N)) := mkFullScanInspect [] (λ log k i _, log ++ [(k, i)]).

Lemma full_scan_from_index_witness :
  ∃ x r r', insert_descriptor empty_index 0 external = Some (x, Ok true) ∧
    spks_from_indexer (full_scan_inspect (full_scan_builder_at (D:=BlockHash) 5) scan_log) x = Some r ∧
    full_scan_take 3 r 0 = Some ([(0, 1); (1, 35); (2, 69)], r') ∧
    finspect_state (freq_inspect r') = [(0, 0); (0, 1); (0, 2)].
Proof.
  destruct external_inserted as (x & Hrun & Hx & Hk & Hd & _).
  destruct (full_scan_from_index (D:=BlockHash) wallet x 5 scan_log 0 external 3 Hx)
    as (r & items & r' & Hscan & _ & Htake & Hitems & Hlog & _).
  - unfold get_descriptor. by rewrite Hk.
  - reflexivity.
  - by vm_compute.
  - injection Hitems as <-. exists x, r, r'. split; [exact Hrun|]. split; [exact Hscan|]. split; [exact Htake|exact Hlog].
Defined.
