(* ===== verification/Bitcoind.v ===== *)
(** * Blocks and mempool of a node

    Models [crates/bitcoind_rpc/src]: the emitter of blocks and mempool
    transactions ([lib.rs]) and the iterator over blocks whose filter matches
    ([bip158.rs]).  The node, behind [bitcoincore_rpc::Client], is the class
    [BitcoindRpc] over a state of its own, so that its best chain may change
    between any two calls.  A panic, and a loop that does not end, is [None]. *)
From S2P Require Import Prelude Effects Block CheckPoint Tx SpkIndex IndexedGraph.
#[local] Open Scope N_scope.

(** ** The client *)

(** The fields of [bitcoincore_rpc_json::GetBlockResult] that are used; heights
    are [usize], confirmations [i32] and negative off the best chain. *)
Record GetBlockResult := mkGetBlockResult {
  br_hash : BlockHash;
  br_confirmations : Z;
  br_height : N;
  br_nextblockhash : option BlockHash;
}.
Record GetBlockHeaderResult := mkGetBlockHeaderResult {
  hr_hash : BlockHash;
  hr_confirmations : Z;
  hr_height : N;
  hr_previous_block_hash : option BlockHash;
  hr_next_block_hash : option BlockHash;
}.

(** [RpcApi], and the filters of the [bitcoin] crate. *)
Class BitcoindRpc `{Blocks, !Scripts} (W : Type) := {
  RpcError : Type;
  (** The code of an error of the node itself; other errors have none. *)
  rpc_error_code : RpcError → option Z;
  rpc_block_count : Eff W RpcError N;
  rpc_block_hash : N → Eff W RpcError BlockHash;
  rpc_block_info : BlockHash → Eff W RpcError GetBlockResult;
  rpc_block_header_info : BlockHash → Eff W RpcError GetBlockHeaderResult;
  rpc_block : BlockHash → Eff W RpcError ChainBlock;
  rpc_raw_mempool : Eff W RpcError (list Txid);
  rpc_raw_transaction : Txid → Eff W RpcError Transaction;
  BlockFilter : Type;
  FilterError : Type;
  rpc_block_filter : BlockHash → Eff W RpcError BlockFilter;
  match_any : BlockFilter → BlockHash → list Script → result FilterError bool;
}.

Definition is_not_found_error `{BitcoindRpc W} (e : RpcError) : bool :=
  match rpc_error_code e with Some code => bool_decide (code = -5)%Z | None => false end.

(** ** The emitter *)

Record Emitter `{Bitcoin} := mkEmitter {
  em_start_height : N;
  em_last_cp : CheckPoint BlockHash;
  em_last_block : option GetBlockResult;
  em_mempool_snapshot : gmap Txid Transaction;
}.
Arguments mkEmitter {_}.

Record MempoolEvent `{Bitcoin} := mkMempoolEvent {
  me_update : list (Transaction * N);
  me_evicted : list (Txid * N);
}.
Arguments mkMempoolEvent {_}.

Record BlockEvent (B : Type) := mkBlockEvent {
  be_block : B;
  be_checkpoint : CheckPoint BlockHash;
}.
Arguments mkBlockEvent {B}.
Arguments be_block {B}.
Arguments be_checkpoint {B}.

Section block_event.
Context {B : Type}.
Implicit Types (ev : BlockEvent B).
Definition be_block_height ev : N := cp_height (be_checkpoint ev).
Definition be_block_hash ev : BlockHash := cp_hash (be_checkpoint ev).
Definition be_connected_to ev : BlockId :=
  match cp_prev (be_checkpoint ev) with
  | Some prev_cp => cp_block_id prev_cp
  | None => cp_block_id (be_checkpoint ev)
  end.
End block_event.

Inductive PollResponse :=
| PollBlock (res : GetBlockResult)
| PollNoMoreBlocks
| PollBlockNotInBestChain
| PollAgreementFound (res : GetBlockResult) (cp : CheckPoint BlockHash)
| PollAgreementPointNotFound (genesis_hash : BlockHash).

Section emitter.
Context `{BitcoindRpc W}.
Implicit Types (e : Emitter) (cp : CheckPoint BlockHash).
Notation Call A := (Eff W RpcError A).
Notation EmitterM A := (Eff (Emitter * W) RpcError A).

Definition emitter_new (last_cp : CheckPoint BlockHash) (start_height : N) (expected_mempool_txs : list Transaction) : Emitter :=
  mkEmitter start_height last_cp None
    (foldl (λ m tx, <[compute_txid tx := tx]> m) ∅ expected_mempool_txs).

(** *** Blocks *)

(** The loop over the checkpoints: the highest that is in the best chain. *)
Fixpoint find_agreement (cps : list (CheckPoint BlockHash)) : Call (option (GetBlockResult * CheckPoint BlockHash)) :=
  match cps with
  | [] => mret None
  | cp :: cps =>
    answer ← try_ (rpc_block_info (cp_hash cp));
    match answer with
    | Ok res => if bool_decide (br_confirmations res < 0)%Z then find_agreement cps else mret (Some (res, cp))
    | Err err =>
      if is_not_found_error err then (if 0 <? cp_height cp then find_agreement cps else mret None)
      else fail err
    end
  end.

(** The hash to go on with after the last emitted block; none when the last
    block has left the best chain, and none inside when there is no next. *)
Definition next_hash e (last_res : GetBlockResult) : Call (option (option BlockHash)) :=
  if br_height last_res + 1 <? em_start_height e then
    next_hash ← rpc_block_hash (em_start_height e);
    here ← rpc_block_hash (br_height last_res);
    mret (if here =? br_hash last_res then Some (Some next_hash) else None)
  else mret (Some (br_nextblockhash last_res)).

Definition poll_once e : Call PollResponse :=
  match em_last_block e with
  | Some last_res =>
    next ← next_hash e last_res;
    match next with
    | None => mret PollBlockNotInBestChain
    | Some None => mret PollNoMoreBlocks
    | Some (Some next_hash) =>
      res ← rpc_block_info next_hash;
      mret (if bool_decide (br_confirmations res < 0)%Z then PollBlockNotInBestChain else PollBlock res)
    end
  | None =>
    found ← find_agreement (cp_iter (em_last_cp e));
    match found with
    | Some (res, cp) => mret (PollAgreementFound res cp)
    | None => genesis_hash ← rpc_block_hash 0; mret (PollAgreementPointNotFound genesis_hash)
    end
  end.

Definition with_last e (cp : CheckPoint BlockHash) (block : option GetBlockResult) : Emitter :=
  mkEmitter (em_start_height e) cp block (em_mempool_snapshot e).
Definition with_start_height e (start_height : N) : Emitter :=
  mkEmitter start_height (em_last_cp e) (em_last_block e) (em_mempool_snapshot e).
Definition with_snapshot e (snapshot : gmap Txid Transaction) : Emitter :=
  mkEmitter (em_start_height e) (em_last_cp e) (em_last_block e) snapshot.
Definition set_emitter (f : Emitter → Emitter) : EmitterM unit := modify (λ s, (f s.1, s.2)).

(** [AgreementFound]: after a reorganisation the start height must not hide
    the invalidated heights. *)
Definition start_from (res : GetBlockResult) e : Emitter :=
  if (as_u32 (br_height res) <? em_start_height e) && (as_u32 (br_height res) <? cp_height (em_last_cp e))
  then with_start_height e (as_u32 (br_height res)) else e.

(** One turn of the loop of [poll]: no value to go on. *)
Definition poll_turn {V} (get_item : BlockHash → Call V) : EmitterM (option (option (CheckPoint BlockHash * V))) :=
  e ← gets fst;
  response ← on_snd (poll_once e);
  match response with
  | PollBlock res =>
    item ← on_snd (get_item (br_hash res));
    match cp_push (em_last_cp e) (as_u32 (br_height res)) (br_hash res) with
    | Err _ => hang
    | Ok new_cp =>
      _ ← set_emitter (λ e, with_last e new_cp (Some res));
      mret (Some (Some (new_cp, item)))
    end
  | PollNoMoreBlocks =>
    _ ← set_emitter (λ e, with_last e (em_last_cp e) None); mret (Some None)
  | PollBlockNotInBestChain =>
    _ ← set_emitter (λ e, with_last e (em_last_cp e) None); mret None
  | PollAgreementFound res cp =>
    _ ← set_emitter (λ e, with_last (start_from res e) cp (Some res)); mret None
  | PollAgreementPointNotFound genesis_hash =>
    _ ← set_emitter (λ e, with_last e (cp_new 0 genesis_hash) None); mret None
  end.

Fixpoint poll {V} (fuel : nat) (get_item : BlockHash → Call V) : EmitterM (option (CheckPoint BlockHash * V)) :=
  match fuel with
  | O => hang
  | S fuel =>
    turn ← poll_turn get_item;
    match turn with
    | Some r => mret r
    | None => poll fuel get_item
    end
  end.

Definition next_block (fuel : nat) : EmitterM (option (BlockEvent ChainBlock)) :=
  polled ← poll fuel rpc_block;
  match polled with
  | Some (checkpoint, block) =>
    _ ← set_emitter (λ e, with_snapshot e
      (foldl (λ m tx, delete (compute_txid tx) m) (em_mempool_snapshot e) (txdata block)));
    mret (Some (mkBlockEvent block checkpoint))
  | None => mret None
  end.

(** *** Mempool *)

(** The tip's height and hash, and the mempool listed while it was the tip. *)
Fixpoint stable_mempool (fuel : nat) : Call (N * BlockHash * list Txid) :=
  match fuel with
  | O => hang
  | S fuel =>
    rpc_tip_height ← rpc_block_count;
    rpc_tip_hash ← rpc_block_hash rpc_tip_height;
    rpc_mempool ← rpc_raw_mempool;
    hash_now ← rpc_block_hash rpc_tip_height;
    if rpc_tip_hash =? hash_now then
      height_now ← rpc_block_count;
      if rpc_tip_height =? height_now then mret (rpc_tip_height, rpc_tip_hash, rpc_mempool)
      else stable_mempool fuel
    else stable_mempool fuel
  end.

(** The transactions of the mempool: from the snapshot, or fetched into it. *)
Fixpoint fetch_mempool (sync_time : N) (txids : list Txid) : EmitterM (list (Transaction * N)) :=
  match txids with
  | [] => mret []
  | txid :: txids =>
    e ← gets fst;
    match em_mempool_snapshot e !! txid with
    | Some tx => update ← fetch_mempool sync_time txids; mret ((tx, sync_time) :: update)
    | None =>
      answer ← try_ (on_snd (rpc_raw_transaction txid));
      match answer with
      | Ok tx =>
        _ ← set_emitter (λ e, with_snapshot e (<[txid := tx]> (em_mempool_snapshot e)));
        update ← fetch_mempool sync_time txids; mret ((tx, sync_time) :: update)
      | Err err => if is_not_found_error err then fetch_mempool sync_time txids else fail err
      end
    end
  end.

Definition snapshot_of (acc : gmap Txid Transaction) (update : list (Transaction * N)) : gmap Txid Transaction :=
  foldl (λ m p, <[compute_txid p.1 := p.1]> m) acc update.

Definition mempool_at `{HashOrder} (fuel : nat) (sync_time : N) : EmitterM MempoolEvent :=
  tip ← on_snd (stable_mempool fuel);
  let '(rpc_tip_height, rpc_tip_hash, rpc_mempool) := tip in
  update ← fetch_mempool sync_time rpc_mempool;
  e ← gets fst;
  let at_tip := (rpc_tip_height =? cp_height (em_last_cp e)) && (rpc_tip_hash =? cp_hash (em_last_cp e)) in
  if at_tip then
    let evicted := (λ txid, (txid, sync_time)) <$>
      filter (λ txid, txid ∉ rpc_mempool) (hash_iter (dom (em_mempool_snapshot e))) in
    _ ← set_emitter (λ e, with_snapshot e (snapshot_of ∅ update));
    mret (mkMempoolEvent update evicted)
  else
    _ ← set_emitter (λ e, with_snapshot e (snapshot_of (em_mempool_snapshot e) update));
    mret (mkMempoolEvent update []).
End emitter.

(** ** Blocks whose filter matches *)

Record FilterIter `{Scripts} := mkFilterIter {
  fi_spks : list Script;
  fi_cp : CheckPoint BlockHash;
  fi_header : option GetBlockHeaderResult;
}.
Arguments mkFilterIter {_ _}.

Record FilterEvent (B : Type) := mkFilterEvent {
  fe_cp : CheckPoint BlockHash;
  fe_block : option B;
}.
Arguments mkFilterEvent {B}.
Arguments fe_cp {B}.
Arguments fe_block {B}.
Definition fe_is_match {B} (ev : FilterEvent B) : bool :=
  match fe_block ev with Some _ => true | None => false end.
Definition fe_height {B} (ev : FilterEvent B) : N := cp_height (fe_cp ev).

Inductive FilterIterError `{BitcoindRpc W} :=
| FilterRpc (e : RpcError)
| FilterBip158 (e : FilterError)
| ReorgDepthExceeded
| TryFromInt.

Section filter_iter.
Context `{BitcoindRpc W}.
Notation Call A := (Eff W FilterIterError A).
Notation FilterM A := (Eff (FilterIter * W) FilterIterError A).

(** [?] on a call of the client. *)
Definition rpc {A} (m : Eff W RpcError A) : Call A :=
  answer ← try_ m;
  match answer with Ok a => mret a | Err e => fail (FilterRpc e) end.

Definition filter_iter_new (cp : CheckPoint BlockHash) (spks : list Script) : FilterIter :=
  mkFilterIter spks cp None.

Fixpoint find_base (cps : list (CheckPoint BlockHash)) : Call GetBlockHeaderResult :=
  match cps with
  | [] => fail ReorgDepthExceeded
  | cp :: cps =>
    answer ← try_ (rpc_block_header_info (cp_hash cp));
    match answer with
    | Err e => if is_not_found_error e then find_base cps else fail (FilterRpc e)
    | Ok header => if bool_decide (hr_confirmations header <= 0)%Z then find_base cps else mret header
    end
  end.

(** The loop that leaves a stale branch. *)
Fixpoint rewind (fuel : nat) (next_header : GetBlockHeaderResult) : Call GetBlockHeaderResult :=
  if bool_decide (hr_confirmations next_header < 0)%Z then
    match hr_previous_block_hash next_header with
    | None => fail ReorgDepthExceeded
    | Some prev_hash =>
      match fuel with
      | O => hang
      | S fuel => prev_header ← rpc (rpc_block_header_info prev_hash); rewind fuel prev_header
      end
    end
  else mret next_header.

(** The block that [cp] and its header stand for, with what the filter says. *)
Definition filter_event (spks : list Script) (cp : CheckPoint BlockHash) (next_hash : BlockHash) : Call (FilterEvent ChainBlock) :=
  filter ← rpc (rpc_block_filter next_hash);
  match match_any filter next_hash spks with
  | Err e => fail (FilterBip158 e)
  | Ok false => mret (mkFilterEvent cp None)
  | Ok true => block ← rpc (rpc_block next_hash); mret (mkFilterEvent cp (Some block))
  end.

(** [next]; the header is taken, so a failing call leaves none behind. *)
Definition filter_iter_next (fuel : nat) : FilterM (option (FilterEvent ChainBlock)) :=
  it ← gets fst;
  _ ← modify (λ s : FilterIter * W, (mkFilterIter (fi_spks it) (fi_cp it) None, s.2));
  header ← on_snd (match fi_header it with Some header => mret header | None => find_base (cp_iter (fi_cp it)) end);
  match hr_next_block_hash header with
  | None => mret None
  | Some next_hash =>
    next_header ← on_snd (rpc (rpc_block_header_info next_hash));
    next_header ← on_snd (rewind fuel next_header);
    if U32_MAX <? hr_height next_header then fail TryFromInt
    else match cp_insert (fi_cp it) (hr_height next_header) (hr_hash next_header) with
    | None => hang
    | Some cp =>
      event ← on_snd (filter_event (fi_spks it) cp (hr_hash next_header));
      _ ← modify (λ s : FilterIter * W, (mkFilterIter (fi_spks it) cp (Some next_header), s.2));
      mret (Some event)
    end
  end.
End filter_iter.
