(* ===== verification/BitcoindSpec.v ===== *)
(** * What the emitter emits

    For every node, also one whose best chain changes between two calls: each
    emitted block connects.  For a node at rest: the emitter walks exactly the
    best chain above the point of agreement, and a local chain can follow.  The
    mempool's transactions are tracked until they are confirmed or evicted. *)
From S2P Require Import Prelude Effects Block CheckPoint CheckPointFacts CheckPointInsert CheckPointEntry LocalChain LocalChainFacts MergeFacts MergeSpec Tx SpkIndex SpkSpec IndexedGraph Bitcoind.
#[local] Open Scope N_scope.

(** ** What is relied on of the node *)

(** Blocks form a tree, and the best chain is one of its branches, which may
    change at any call; calls may fail at any time, and those that do not fail
    tell the truth of the moment. *)
Class NodeLaws `{BitcoindRpc W} (height_of : BlockHash → N) (parent_of : BlockHash → BlockHash)
    (best : W → list BlockHash) : Prop := {
  best_genesis : ∀ w, best w ≠ [];
  best_fits : ∀ w, N.of_nat (length (best w)) ≤ U32_MAX;
  best_height : ∀ w i h, best w !! i = Some h → height_of h = N.of_nat i;
  best_parent : ∀ w i h h', best w !! i = Some h → best w !! S i = Some h' → parent_of h' = h;
  block_count_returns : returns rpc_block_count;
  block_hash_returns : ∀ n, returns (rpc_block_hash n);
  block_info_returns : ∀ h, returns (rpc_block_info h);
  block_returns : ∀ h, returns (rpc_block h);
  block_hash_Ok : ∀ n w h w', rpc_block_hash n w = Some (Ok h, w') → best w !! N.to_nat n = Some h;
  block_info_Ok : ∀ h w res w', rpc_block_info h w = Some (Ok res, w') →
    br_hash res = h ∧ br_height res = height_of h ∧
    ((0 ≤ br_confirmations res)%Z ↔ h ∈ best w) ∧
    (∀ n, br_nextblockhash res = Some n → parent_of n = h ∧ height_of n = height_of h + 1);
  block_Ok : ∀ h w b w', rpc_block h w = Some (Ok b, w') → block_hash b = h;
}.

Section safety.
Context `{NodeLaws W height_of parent_of best}.
Implicit Types (e : Emitter) (cp p : CheckPoint BlockHash) (w : W).

Lemma best_elem_height w h : h ∈ best w → height_of h < U32_MAX ∧ best w !! N.to_nat (height_of h) = Some h.
Proof.
  intros [i Hi]%list_elem_of_lookup. pose proof (best_height w i h Hi) as ->. rewrite Nat2N.id. split; [|done].
  apply lookup_lt_Some in Hi. pose proof (best_fits w). lia.
Qed.

(** The last result is of the last checkpoint. *)
Definition last_of cp (res : GetBlockResult) : Prop :=
  br_hash res = cp_hash cp ∧ br_height res = cp_height cp ∧
  ∀ n, br_nextblockhash res = Some n → parent_of n = cp_hash cp ∧ height_of n = cp_height cp + 1.

Record emitter_ok e : Prop := {
  eo_wf : cp_wf (em_last_cp e);
  eo_heights : ∀ n, n ∈ cp_iter (em_last_cp e) → height_of (cp_hash n) = cp_height n;
  eo_last : ∀ res, em_last_block e = Some res → last_of (em_last_cp e) res;
}.

(** A block of the best chain of some moment, at height 0. *)
Definition is_genesis cp : Prop := ∃ g w, cp = cp_new 0 g ∧ best w !! 0%nat = Some g.

(** What is known of a checkpoint found in the best chain. *)
Lemma find_agreement_ok cps w :
  (∀ n, n ∈ cps → height_of (cp_hash n) = cp_height n) →
  wp (find_agreement cps) w (λ r _, match r with
    | Ok (Some (res, cp)) => cp ∈ cps ∧ cp_height cp < U32_MAX ∧ last_of cp res
    | _ => True
    end).
Proof.
  induction cps as [|cp cps IH] in w |- *; intros Hh; cbn [find_agreement]; [by apply wp_mret|].
  wp_steps. destruct (block_info_returns (cp_hash cp) w) as [[answer w'] Hrun].
  exists answer, w'. split; [done|]. cbn [post].
  assert (wp (find_agreement cps) w' (λ r _, match r with
    | Ok (Some (res, cp')) => cp' ∈ cp :: cps ∧ cp_height cp' < U32_MAX ∧ last_of cp' res | _ => True end)) as Hnext.
  { eapply wp_mono; [apply IH; set_solver|]. intros [[[res cp']|]|?] _; set_solver. }
  destruct answer as [res|err].
  - case_bool_decide as Hc; [done|]. apply wp_mret.
    pose proof (block_info_Ok _ _ _ _ Hrun) as (Hhash & Hheight & Hbest & Hn).
    rewrite Hh in * by set_solver. split; [set_solver|].
    assert (cp_hash cp ∈ best w) as Hin by (apply Hbest; lia).
    apply best_elem_height in Hin as [Hlt _]. rewrite Hh in Hlt by set_solver. done.
  - destruct (is_not_found_error err); [|by apply wp_fail].
    destruct (0 <? cp_height cp); [done|by apply wp_mret].
Qed.

Definition response_ok e (r : PollResponse) : Prop :=
  match r with
  | PollBlock res =>
    br_height res = height_of (br_hash res) ∧ height_of (br_hash res) < U32_MAX ∧
    (∀ n, br_nextblockhash res = Some n → parent_of n = br_hash res ∧ height_of n = br_height res + 1) ∧
    (br_height res = cp_height (em_last_cp e) + 1 ∧ parent_of (br_hash res) = cp_hash (em_last_cp e) ∨
     cp_height (em_last_cp e) + 1 < br_height res ∧ br_height res = em_start_height e)
  | PollAgreementFound res cp => cp ∈ cp_iter (em_last_cp e) ∧ cp_height cp < U32_MAX ∧ last_of cp res
  | PollAgreementPointNotFound g => ∃ w, best w !! 0%nat = Some g
  | _ => True
  end.

Lemma poll_once_ok e w :
  emitter_ok e → wp (poll_once e) w (λ r _, match r with Ok r => response_ok e r | Err _ => True end).
Proof.
  intros He. unfold poll_once. destruct (em_last_block e) as [last_res|] eqn:Hlast.
  - pose proof (eo_last e He _ Hlast) as (Hhash & Hheight & Hn).
    apply wp_bind. apply (wp_mono _ _ (λ r _, match r with
      | Ok (Some (Some h)) => height_of h = cp_height (em_last_cp e) + 1 ∧ parent_of h = cp_hash (em_last_cp e) ∨
          cp_height (em_last_cp e) + 1 < height_of h ∧ height_of h = em_start_height e
      | _ => True end)).
    + unfold next_hash. rewrite Hheight. destruct (N.ltb_spec (cp_height (em_last_cp e) + 1) (em_start_height e)) as [Hlt|Hge].
      * wp_steps. destruct (block_hash_returns (em_start_height e) w) as [[[h|err] w1] Hrun];
          (eexists _, _; split; [exact Hrun|]); cbn [post]; [|done].
        wp_steps. destruct (block_hash_returns (cp_height (em_last_cp e)) w1) as [[[h1|err] w2] Hrun1];
          (eexists _, _; split; [exact Hrun1|]); cbn [post]; [|done].
        apply wp_mret. destruct (h1 =? br_hash last_res); [|done].
        apply block_hash_Ok, best_height in Hrun. rewrite N2Nat.id in Hrun. right. lia.
      * apply wp_mret. destruct (br_nextblockhash last_res) as [h|] eqn:Hnext; [|done].
        destruct (Hn h eq_refl) as [? ?]. by left.
    + intros [[[h|]|]|err] w1 Hh; cbn [post]; [|by apply wp_mret..|done].
      wp_steps. destruct (block_info_returns h w1) as [[[res|err] w2] Hrun]; (eexists _, _; split; [exact Hrun|]); cbn [post]; [|done].
      apply wp_mret. case_bool_decide as Hc; [done|]. cbn [response_ok].
      pose proof (block_info_Ok _ _ _ _ Hrun) as (-> & Hres & Hbest & Hnn).
      assert (h ∈ best w1) as Hin by (apply Hbest; lia).
      apply best_elem_height in Hin as [Hlt _]. rewrite Hres. by split_and!.
  - wp_steps. eapply wp_mono; [apply find_agreement_ok, He|].
    intros [[[res cp]|]|err] w1 Hr; cbn [post]; [by apply wp_mret| |done].
    wp_steps. destruct (block_hash_returns 0 w1) as [[[g|err] w2] Hrun]; (eexists _, _; split; [exact Hrun|]); cbn [post]; [|done].
    apply wp_mret. exists w1. by apply block_hash_Ok in Hrun.
Qed.

(** ** A turn *)

(** The new checkpoint [cp] stands on [p] by the next height, or by the start height. *)
Definition stands_on (start : N) p cp : Prop :=
  cp_prev cp = Some p ∧
  (cp_height cp = cp_height p + 1 ∧ parent_of (cp_hash cp) = cp_hash p ∨
   cp_height p + 1 < cp_height cp ∧ cp_height cp = start).

(** The emitter's chain was cut down, to a checkpoint it had or to genesis. *)
Definition lowered p q : Prop := p ∈ cp_iter q ∨ is_genesis p.

Lemma lowered_trans p q r : lowered p q → lowered q r → lowered p r.
Proof.
  intros [Hp|Hp] Hq; [|by right]. destruct Hq as [Hq|(g & w & -> & Hg)].
  - left. by eapply cp_iter_trans.
  - right. apply list_elem_of_singleton in Hp as ->. by exists g, w.
Qed.

Definition turn_ok {V} (get_item : BlockHash → Eff W RpcError V) e
    (r : result RpcError (option (option (CheckPoint BlockHash * V)))) e' : Prop :=
  emitter_ok e' ∧ em_mempool_snapshot e' = em_mempool_snapshot e ∧
  match r with
  | Ok (Some (Some (cp, item))) =>
    em_last_cp e' = cp ∧ stands_on (em_start_height e') (em_last_cp e) cp ∧ em_start_height e' = em_start_height e ∧
    ∃ w1 w2, get_item (cp_hash cp) w1 = Some (Ok item, w2)
  | Ok _ => lowered (em_last_cp e') (em_last_cp e)
  | Err _ => e' = e
  end.

Lemma new_checkpoint e res :
  emitter_ok e → response_ok e (PollBlock res) →
  ∃ cp, cp_push (em_last_cp e) (as_u32 (br_height res)) (br_hash res) = Ok cp ∧
    emitter_ok (with_last e cp (Some res)) ∧ stands_on (em_start_height e) (em_last_cp e) cp ∧ cp_hash cp = br_hash res ∧
    cp_height cp = br_height res.
Proof.
  intros He (Hheight & Hmax & Hn & Hcase). rewrite as_u32_small by lia.
  assert (cp_height (em_last_cp e) < br_height res) as Hlt by lia.
  destruct (cp_push_Ok (em_last_cp e) (br_height res) (br_hash res) Hlt) as [cp Hpush]; [done|].
  apply cp_push_wf in Hpush as Hspec; [|apply He|lia]. destruct Hspec as (Hwf & Hh & Hd & Hprev).
  assert (cp_hash cp = br_hash res) as Hhash by (rewrite cp_wf_hash by done; done).
  exists cp. split; [done|]. split; [|split; [|done]].
  - split; cbn [with_last em_last_cp em_last_block]; [done| |].
    + intros n. rewrite (cp_iter_prev cp _ Hprev). intros [->|Hin]%elem_of_cons; [congruence|by apply He].
    + intros res' [= <-]. split_and!; [done..|]. rewrite Hhash, Hh. done.
  - split; [done|]. rewrite Hhash, Hh. done.
Qed.

Lemma poll_turn_ok {V} (get_item : BlockHash → Eff W RpcError V) e w :
  (∀ h, returns (get_item h)) → emitter_ok e →
  wp (poll_turn get_item) (e, w) (λ r s, turn_ok get_item e r s.1).
Proof.
  intros Hitem He. unfold poll_turn. wp_steps. cbn [fst]. eapply wp_mono; [by apply poll_once_ok|].
  intros [response|err] w1 Hr; cbn [post]; [|done].
  assert (lowered (em_last_cp e) (em_last_cp e)) as Hrefl by (left; apply cp_iter_self).
  assert (∀ start cp block, cp_wf cp → (∀ n, n ∈ cp_iter cp → height_of (cp_hash n) = cp_height n) →
    (∀ res, block = Some res → last_of cp res) → emitter_ok (with_last (with_start_height e start) cp block)) as Hset
    by (by intros; split).
  destruct response as [res| | |res cp|g].
  - wp_steps. destruct (Hitem (br_hash res) w1) as [[[item|err] w2] Hrun]; (eexists _, _; split; [exact Hrun|]); cbn [post]; [|done].
    destruct (new_checkpoint e res He Hr) as (cp & -> & Hok & Hon & Hhash & _). unfold set_emitter. wp_steps. cbn [fst].
    split; [done|]. split; [done|]. split_and!; [done..|]. rewrite Hhash. eauto.
  - unfold set_emitter. wp_steps. cbn [fst]. split; [|done]. by apply (Hset (em_start_height e)); [apply He..|].
  - unfold set_emitter. wp_steps. cbn [fst]. split; [|done]. by apply (Hset (em_start_height e)); [apply He..|].
  - unfold set_emitter. wp_steps. cbn [fst]. destruct Hr as (Hin & _ & Hlast).
    split; [|unfold start_from; destruct (_ && _); split; try done; by left].
    assert (∀ start, emitter_ok (with_last (with_start_height e start) cp (Some res))) as Hok.
    { intros start. apply Hset; [by eapply cp_wf_iter; [apply He|]| |by intros ? [= <-]].
      intros n Hn. apply He. by eapply cp_iter_trans. }
    unfold start_from. destruct (_ && _); [apply Hok|apply (Hok (em_start_height e))].
  - unfold set_emitter. wp_steps. cbn [fst]. destruct Hr as [wg Hg]. split; [|split; [done|right; by exists g, wg]].
    apply (Hset (em_start_height e)); [by constructor| |done].
    intros n ->%list_elem_of_singleton. by apply best_height in Hg.
Qed.

Lemma poll_ok {V} (get_item : BlockHash → Eff W RpcError V) fuel e w r e' w' :
  (∀ h, returns (get_item h)) → emitter_ok e →
  poll fuel get_item (e, w) = Some (r, (e', w')) →
  emitter_ok e' ∧ em_mempool_snapshot e' = em_mempool_snapshot e ∧
  match r with
  | Ok (Some (cp, item)) =>
    em_last_cp e' = cp ∧
    (∃ p, lowered p (em_last_cp e) ∧ stands_on (em_start_height e') p cp) ∧
    ∃ w1 w2, get_item (cp_hash cp) w1 = Some (Ok item, w2)
  | _ => lowered (em_last_cp e') (em_last_cp e)
  end.
Proof.
  intros Hitem. induction fuel as [|fuel IH] in e, w |- *; intros He Hrun; [done|]. cbn [poll] in Hrun.
  unfold mbind, eff_bind in Hrun. destruct (poll_turn_ok get_item e w Hitem He) as (t & [e1 w1] & Hturn & Hok).
  rewrite Hturn in Hrun. destruct Hok as (He1 & Hs & Hok). cbn [fst] in *. destruct t as [[[[cp item]|]|]|err].
  - injection Hrun as <- <- <-. destruct Hok as (Hcp & Hon & Hst & Hget). split_and!; [done..| |done].
    exists (em_last_cp e). split; [left; apply cp_iter_self|done].
  - by injection Hrun as <- <- <-.
  - destruct (IH e1 w1 He1 Hrun) as (He' & Hs' & Hr). split; [done|]. split; [congruence|].
    destruct r as [[[cp item]|]|err].
    + destruct Hr as (? & (p & Hp & Hon) & ?). split_and!; [done| |done]. exists p.
      split; [by eapply lowered_trans|done].
    + by eapply lowered_trans.
    + by eapply lowered_trans.
  - injection Hrun as <- <- <-. split_and!; [done..|]. rewrite Hok. left. apply cp_iter_self.
Qed.

(** ** Emitters in use *)

Lemma with_snapshot_ok e m : emitter_ok e → emitter_ok (with_snapshot e m).
Proof. intros He. split; [apply (eo_wf _ He)|apply (eo_heights _ He)|apply (eo_last _ He)]. Qed.

(** Looking at the mempool changes the snapshot only. *)
Lemma fetch_mempool_keeps t txids e w r e1 w1 :
  fetch_mempool t txids (e, w) = Some (r, (e1, w1)) → e1 = with_snapshot e (em_mempool_snapshot e1).
Proof.
  assert (∀ e : Emitter, e = with_snapshot e (em_mempool_snapshot e)) as Hid by (by intros []).
  induction txids as [|txid txids IH] in e, w, r, e1, w1 |- *; intros Hrun; cbn [fetch_mempool] in Hrun.
  { by injection Hrun as _ <- _. }
  unfold mbind, eff_bind, gets, try_, on_snd, zoom, set_emitter, modify in Hrun. cbn [fst snd] in Hrun.
  destruct (em_mempool_snapshot e !! txid) as [tx|].
  - destruct (fetch_mempool t txids (e, w)) as [[[update|err] [e2 w2]]|] eqn:Hr; [..|done];
      injection Hrun as _ <- _; by eapply IH.
  - cbn [fst snd] in Hrun. destruct (rpc_raw_transaction txid w) as [[[tx|err] w2]|]; [..|done].
    + cbn [fst snd] in Hrun.
      match type of Hrun with context [fetch_mempool t txids ?s] =>
        destruct (fetch_mempool t txids s) as [[[update|err] [e2 w3]]|] eqn:Hr; [..|done] end;
        injection Hrun as _ <- _; by apply IH in Hr.
    + destruct (is_not_found_error err); [by eapply IH|by injection Hrun as _ <- _].
Qed.

Lemma mempool_at_keeps `{HashOrder} fuel t e w r e1 w1 :
  mempool_at fuel t (e, w) = Some (r, (e1, w1)) → e1 = with_snapshot e (em_mempool_snapshot e1).
Proof.
  intros Hrun. unfold mempool_at, mbind, eff_bind, on_snd, zoom in Hrun. cbn [fst snd] in Hrun.
  destruct (stable_mempool fuel w) as [[[[[height hash] txids]|err] w2]|]; [|by injection Hrun as _ <- _; destruct e|done].
  destruct (fetch_mempool t txids (e, w2)) as [[[update|err] [e2 w3]]|] eqn:Hf; [..|done]; apply fetch_mempool_keeps in Hf.
  - cbn in Hrun. destruct (_ && _); injection Hrun as _ <- _; by rewrite Hf.
  - by injection Hrun as _ <- _.
Qed.

(** What a wallet's emitter can become: calls of [next_block] and [mempool_at],
    each on the node as it is then, also calls that failed. *)
Inductive emitter_reachable `{HashOrder} : Emitter → Prop :=
| reach_new cp start txs :
    cp_wf cp → (∀ n, n ∈ cp_iter cp → height_of (cp_hash n) = cp_height n) →
    emitter_reachable (emitter_new cp start txs)
| reach_next_block fuel e w r e' w' :
    emitter_reachable e → next_block fuel (e, w) = Some (r, (e', w')) → emitter_reachable e'
| reach_mempool_at fuel t e w r e' w' :
    emitter_reachable e → mempool_at fuel t (e, w) = Some (r, (e', w')) → emitter_reachable e'.

(** [n] turns of the loop of [poll] that each went back to its start. *)
Inductive turned_back {V} (get_item : BlockHash → Eff W RpcError V) : nat → Emitter * W → Emitter * W → Prop :=
| turned_back_O s : turned_back get_item O s s
| turned_back_S n s s1 s2 :
    poll_turn get_item s = Some (Ok None, s1) → turned_back get_item n s1 s2 → turned_back get_item (S n) s s2.

(** The loop has no value only where all its turns went back: none panics. *)
Lemma poll_None {V} (get_item : BlockHash → Eff W RpcError V) fuel e w :
  (∀ h, returns (get_item h)) → emitter_ok e →
  poll fuel get_item (e, w) = None → ∃ s, turned_back get_item fuel (e, w) s.
Proof.
  intros Hitem. induction fuel as [|fuel IH] in e, w |- *; intros He Hrun; [eexists; constructor|].
  cbn [poll] in Hrun. unfold mbind, eff_bind in Hrun.
  destruct (poll_turn_ok get_item e w Hitem He) as (t & [e1 w1] & Hturn & He1 & _). rewrite Hturn in Hrun.
  destruct t as [[[[cp item]|]|]|err]; [done..| |done].
  destruct (IH e1 w1 He1 Hrun) as [s Hs]. exists s. by econstructor.
Qed.

(** What [next_block] does, on top of [poll]. *)
Lemma next_block_ok fuel e w r e' w' :
  emitter_ok e → next_block fuel (e, w) = Some (r, (e', w')) →
  emitter_ok e' ∧
  match r with
  | Ok (Some ev) =>
    em_last_cp e' = be_checkpoint ev ∧ block_hash (be_block ev) = be_block_hash ev ∧
    ∃ p, lowered p (em_last_cp e) ∧ be_connected_to ev = cp_block_id p ∧ stands_on (em_start_height e') p (be_checkpoint ev)
  | _ => lowered (em_last_cp e') (em_last_cp e)
  end.
Proof.
  intros He Hrun. unfold next_block, mbind, eff_bind in Hrun.
  destruct (poll fuel rpc_block (e, w)) as [[pr [e1 w1]]|] eqn:Hpoll; [|done].
  apply poll_ok in Hpoll as (He1 & _ & Hr); [|apply block_returns|done].
  destruct pr as [[[cp b]|]|err]; cbn in Hrun; injection Hrun as <- <- <-; [|done..].
  destruct Hr as (Hcp & (p & Hp & Hon) & w2 & w3 & Hget). split; [by apply with_snapshot_ok|]. split; [done|].
  split; [by apply block_Ok in Hget|]. exists p. split; [done|]. split; [|done].
  unfold be_connected_to. cbn [be_checkpoint]. by rewrite (proj1 Hon).
Qed.

Lemma emitter_reachable_ok `{HashOrder} e : emitter_reachable e → emitter_ok e.
Proof.
  induction 1 as [cp start txs Hwf Hh|fuel e w r e' w' _ He Hrun|fuel t e w r e' w' _ He Hrun].
  - by split.
  - by apply next_block_ok in Hrun as [? _].
  - apply mempool_at_keeps in Hrun as ->. by apply with_snapshot_ok.
Qed.

(** C9. Take an emitter that was created from a well-formed chain whose
    checkpoints are at their blocks' heights, and used in any way, whatever the
    node's best chain did between the calls and whichever calls failed.  Then
    [next_block] never panics: it has no value only if each of the turns it was
    allowed went back to the start of the loop.  Every emitted block connects:
    its checkpoint is the emitter's new chain, stands on one of the checkpoints
    the emitter had (or on a genesis block of the node), and either is the
    child of that block or is at the start height, with a gap below.  When
    nothing is emitted, the emitter's chain is a part of what it was. *)
Theorem emitted_blocks_connect `{HashOrder} fuel e w :
  emitter_reachable e →
  match next_block fuel (e, w) with
  | None => ∃ s, turned_back rpc_block fuel (e, w) s
  | Some (Ok (Some ev), (e', w')) =>
    em_last_cp e' = be_checkpoint ev ∧ block_hash (be_block ev) = be_block_hash ev ∧
    ∃ p, lowered p (em_last_cp e) ∧ be_connected_to ev = cp_block_id p ∧ stands_on (em_start_height e') p (be_checkpoint ev)
  | Some (_, (e', w')) => lowered (em_last_cp e') (em_last_cp e)
  end.
Proof.
  intros He%emitter_reachable_ok. destruct (next_block fuel (e, w)) as [[r [e' w']]|] eqn:Hrun.
  - apply next_block_ok in Hrun as [_ Hr]; [|done]. by destruct r as [[ev|]|err].
  - apply poll_None; [apply block_returns|done|]. unfold next_block, mbind, eff_bind in Hrun.
    by destruct (poll fuel rpc_block (e, w)) as [[[[[cp b]|]|err] s]|].
Qed.
End safety.

(** ** A node at rest *)

(** Its best chain stays the same, and calls about it do not fail. *)
Class QuietNode `{BitcoindRpc W} (height_of : BlockHash → N) (best : W → list BlockHash) : Prop := {
  block_hash_quiet : ∀ n w r w', rpc_block_hash n w = Some (r, w') → best w' = best w;
  block_info_quiet : ∀ h w r w', rpc_block_info h w = Some (r, w') → best w' = best w;
  block_quiet : ∀ h w r w', rpc_block h w = Some (r, w') → best w' = best w;
  block_hash_here : ∀ n w h err w', best w !! N.to_nat n = Some h → rpc_block_hash n w ≠ Some (Err err, w');
  block_info_here : ∀ h w err w', rpc_block_info h w = Some (Err err, w') → is_not_found_error err = true ∧ h ∉ best w;
  block_here : ∀ h w err w', h ∈ best w → rpc_block h w ≠ Some (Err err, w');
  block_info_next : ∀ h w res w', rpc_block_info h w = Some (Ok res, w') → h ∈ best w →
    br_nextblockhash res = best w !! S (N.to_nat (height_of h));
}.

(** The highest checkpoint in the best chain [bl]. *)
Definition agreement (bl : list BlockHash) (cp : CheckPoint BlockHash) : option (CheckPoint BlockHash) :=
  List.find (λ n, bool_decide (cp_hash n ∈ bl)) (cp_iter cp).

(** Where emission begins above the agreement [a]. *)
Definition first_height `{Bitcoin} (e : Emitter) (a : CheckPoint BlockHash) : N :=
  if cp_height a <? cp_height (em_last_cp e) then cp_height a + 1
  else N.max (cp_height a + 1) (em_start_height e).

(** The heights and hashes of [bl] from [h] on. *)
Definition blocks_from (bl : list BlockHash) (h : N) : list (N * BlockHash) :=
  imap (λ i hash, (h + N.of_nat i, hash)) (drop (N.to_nat h) bl).

Section quiet.
Context `{NodeLaws W height_of parent_of best, !QuietNode height_of best}.
Implicit Types (e : Emitter) (cp p a : CheckPoint BlockHash) (w : W) (bl : list BlockHash).

Lemma block_hash_run n w h :
  best w !! N.to_nat n = Some h → ∃ w', rpc_block_hash n w = Some (Ok h, w') ∧ best w' = best w.
Proof.
  intros Hh. destruct (block_hash_returns n w) as [[[h'|err] w'] Hrun].
  - exists w'. pose proof (block_hash_Ok _ _ _ _ Hrun). split; [by simplify_eq|by eapply block_hash_quiet].
  - by destruct (block_hash_here n w h err w' Hh).
Qed.

(** What the node says of a block of its best chain. *)
Definition info_of bl (h : BlockHash) (res : GetBlockResult) : Prop :=
  br_hash res = h ∧ br_height res = height_of h ∧ br_nextblockhash res = bl !! S (N.to_nat (height_of h)).

Lemma block_info_run h w :
  h ∈ best w → ∃ res w', rpc_block_info h w = Some (Ok res, w') ∧ best w' = best w ∧ info_of (best w) h res ∧
    (0 ≤ br_confirmations res)%Z.
Proof.
  intros Hh. destruct (block_info_returns h w) as [[[res|err] w'] Hrun].
  - exists res, w'. pose proof (block_info_Ok _ _ _ _ Hrun) as (? & ? & Hb & _).
    split_and!; [done|by eapply block_info_quiet| |by apply Hb]. split_and!; [done..|by eapply block_info_next].
  - by destruct (block_info_here h w err w' Hrun).
Qed.

Lemma block_run h w : h ∈ best w → ∃ b w', rpc_block h w = Some (Ok b, w') ∧ best w' = best w ∧ block_hash b = h.
Proof.
  intros Hh. destruct (block_returns h w) as [[[b|err] w'] Hrun].
  - exists b, w'. split_and!; [done|by eapply block_quiet|by eapply block_Ok].
  - by destruct (block_here h w err w' Hh).
Qed.

Lemma find_agreement_quiet cp w :
  cp_wf cp →
  ∃ w', best w' = best w ∧
  match agreement (best w) cp with
  | Some a => ∃ res, find_agreement (cp_iter cp) w = Some (Ok (Some (res, a)), w') ∧ info_of (best w) (cp_hash a) res
  | None => find_agreement (cp_iter cp) w = Some (Ok None, w')
  end.
Proof.
  revert w. induction cp as [cp Hp|cp p Hp IH] using cp_prev_ind; intros w Hwf;
    unfold agreement; rewrite cp_iter_unfold, Hp; cbn [find_agreement List.find];
    unfold mbind, eff_bind, try_; (case_bool_decide as Hin;
    [destruct (block_info_run _ _ Hin) as (res & w1 & Hrun & Hq & Hinfo & Hc); exists w1; split; [done|]; exists res;
     rewrite Hrun; rewrite bool_decide_false by lia; by split|]).
  - destruct (block_info_returns (cp_hash cp) w) as [[[res|err] w1] Hrun]; rewrite Hrun;
      pose proof (block_info_quiet _ _ _ _ Hrun) as Hq; exists w1; (split; [done|]).
    + rewrite bool_decide_true; [done|]. apply block_info_Ok in Hrun as (_ & _ & Hb & _).
      apply Z.nle_gt. by intros ?%Hb.
    + destruct (block_info_here _ _ _ _ Hrun) as [-> _]. by destruct (0 <? cp_height cp).
  - destruct (block_info_returns (cp_hash cp) w) as [[[res|err] w1] Hrun]; rewrite Hrun;
      pose proof (block_info_quiet _ _ _ _ Hrun) as Hq; rewrite <-Hq in *.
    + destruct (IH w1) as (w2 & Hq2 & Hr); [by eapply cp_wf_prev|]. exists w2. split; [congruence|].
      rewrite bool_decide_true; [exact Hr|]. apply block_info_Ok in Hrun as (_ & _ & Hb & _). rewrite <-Hq in Hb.
      apply Z.nle_gt. by intros ?%Hb.
    + destruct (IH w1) as (w2 & Hq2 & Hr); [by eapply cp_wf_prev|]. exists w2. split; [congruence|].
      destruct (block_info_here _ _ _ _ Hrun) as [-> _].
      destruct (cp_wf_prev_lt cp p Hwf Hp) as [Hlt _].
      destruct (N.ltb_spec 0 (cp_height cp)); [exact Hr|lia].
Qed.

(** The last checkpoint is in the best chain, and the last result is current. *)
Definition settled e w : Prop :=
  emitter_ok (height_of:=height_of) (parent_of:=parent_of) e ∧ cp_hash (em_last_cp e) ∈ best w ∧
  ∃ res, em_last_block e = Some res ∧ info_of (best w) (cp_hash (em_last_cp e)) res.

Definition next_height e : N := N.max (cp_height (em_last_cp e) + 1) (em_start_height e).

Lemma best_lookup w (n : N) : (N.to_nat n < length (best w))%nat → ∃ h, best w !! N.to_nat n = Some h.
Proof. intros Hlt. destruct (best w !! N.to_nat n) eqn:Hn; [by eexists|]. apply lookup_ge_None in Hn. lia. Qed.

Lemma last_in_best e w :
  emitter_ok (height_of:=height_of) (parent_of:=parent_of) e → cp_hash (em_last_cp e) ∈ best w →
  best w !! N.to_nat (cp_height (em_last_cp e)) = Some (cp_hash (em_last_cp e)).
Proof.
  intros He [_ Hin]%best_elem_height. by rewrite (eo_heights e He) in Hin by apply cp_iter_self.
Qed.

Lemma poll_once_settled e w :
  settled e w → (N.to_nat (em_start_height e) < length (best w))%nat →
  ∃ w', best w' = best w ∧
  match best w !! N.to_nat (next_height e) with
  | Some hash => ∃ res, poll_once e w = Some (Ok (PollBlock res), w') ∧ info_of (best w) hash res
  | None => poll_once e w = Some (Ok PollNoMoreBlocks, w')
  end.
Proof.
  intros (He & Hin & res & Hres & Hhash & Hheight & Hnext) Hstart.
  pose proof (last_in_best e w He Hin) as Hlast.
  rewrite (eo_heights e He) in Hheight, Hnext by apply cp_iter_self.
  assert (∃ w1, best w1 = best w ∧ next_hash e res w = Some (Ok (Some (best w !! N.to_nat (next_height e))), w1)) as (w1 & Hq1 & Hrun).
  { unfold next_hash, next_height. rewrite Hheight. unfold mbind, eff_bind.
    destruct (N.ltb_spec (cp_height (em_last_cp e) + 1) (em_start_height e)).
    - rewrite N.max_r by lia. destruct (best_lookup w (em_start_height e) Hstart) as [h Hh].
      destruct (block_hash_run _ _ _ Hh) as (w1 & -> & Hq1). rewrite <-Hq1 in Hlast.
      destruct (block_hash_run _ _ _ Hlast) as (w2 & -> & Hq2). exists w2. split; [congruence|].
      rewrite Hhash, N.eqb_refl, Hh. done.
    - rewrite N.max_l by lia. exists w. split; [done|]. rewrite Hnext.
      by replace (N.to_nat (cp_height (em_last_cp e) + 1)) with (S (N.to_nat (cp_height (em_last_cp e)))) by lia. }
  unfold poll_once. rewrite Hres. unfold mbind, eff_bind. rewrite Hrun.
  destruct (best w !! N.to_nat (next_height e)) as [hash|] eqn:Hh; [|by exists w1].
  assert (hash ∈ best w1) as Hin1 by (rewrite Hq1; by eapply list_elem_of_lookup_2).
  destruct (block_info_run hash w1 Hin1) as (res' & w2 & Hrun2 & Hq2 & Hinfo & Hc). rewrite Hrun2, Hq1 in *.
  exists w2. split; [done|]. exists res'. rewrite bool_decide_false by lia. done.
Qed.

Lemma settled_turn e w :
  settled e w → (N.to_nat (em_start_height e) < length (best w))%nat →
  match best w !! N.to_nat (next_height e) with
  | Some hash => ∃ cp res b w',
      poll_turn rpc_block (e, w) = Some (Ok (Some (Some (cp, b))), (with_last e cp (Some res), w')) ∧
      best w' = best w ∧ settled (with_last e cp (Some res)) w' ∧ cp_prev cp = Some (em_last_cp e) ∧
      cp_hash cp = hash ∧ cp_height cp = next_height e ∧ block_hash b = hash
  | None => ∃ w', poll_turn rpc_block (e, w) = Some (Ok (Some None), (with_last e (em_last_cp e) None, w')) ∧ best w' = best w
  end.
Proof.
  intros Hs Hstart. destruct (poll_once_settled e w Hs Hstart) as (w1 & Hq1 & Hr).
  unfold poll_turn, mbind, eff_bind, gets, on_snd, zoom. cbn [fst snd].
  destruct (best w !! N.to_nat (next_height e)) as [hash|] eqn:Hh.
  - destruct Hr as (res & Hrun & Hinfo). rewrite Hrun. pose proof Hs as (He & _).
    pose proof (wp_run _ _ _ _ _ (poll_once_ok e w He) Hrun) as Hok. pose proof Hinfo as (Hhash & Hheight & _).
    assert (hash ∈ best w1) as Hin1 by (rewrite Hq1; by eapply list_elem_of_lookup_2).
    cbn [fst snd]. rewrite Hhash. destruct (block_run hash w1 Hin1) as (b & w2 & Hb & Hq2 & Hbh). rewrite Hb.
    destruct (new_checkpoint e res He Hok) as (cp & Hpush & Hecp & [Hprev _] & Hcph & Hcphh). rewrite Hhash in Hpush, Hcph. rewrite Hpush.
    apply best_height in Hh as Hheight'. exists cp, res, b, w2. rewrite Hq2, Hq1.
    split_and!; [done|done| |done|done| |done].
    + split; [done|]. cbn [with_last em_last_cp em_last_block]. rewrite Hcph, Hq2, Hq1. split; [by rewrite <-Hq1|].
      exists res. by split.
    + rewrite Hcphh, Hheight, Hheight'. lia.
  - rewrite Hr. exists w1. done.
Qed.

(** The emitter comes to rest on the agreement. *)
Lemma settling_turn e w a :
  emitter_ok (height_of:=height_of) (parent_of:=parent_of) e → em_last_block e = None →
  agreement (best w) (em_last_cp e) = Some a →
  ∃ e1 w1, poll_turn rpc_block (e, w) = Some (Ok None, (e1, w1)) ∧ best w1 = best w ∧ settled e1 w1 ∧
    em_last_cp e1 = a ∧ next_height e1 = first_height e a ∧ em_start_height e1 ≤ em_start_height e.
Proof.
  intros He Hnone Ha. destruct (find_agreement_quiet (em_last_cp e) w (eo_wf e He)) as (w1 & Hq & Hr).
  rewrite Ha in Hr. destruct Hr as (res & Hrun & Hinfo).
  assert (poll_once e w = Some (Ok (PollAgreementFound res a), w1)) as Hpoll.
  { unfold poll_once. rewrite Hnone. unfold mbind, eff_bind. by rewrite Hrun. }
  destruct (poll_turn_ok rpc_block e w block_returns He) as (t & s & Hturn & Hok).
  unfold poll_turn, mbind, eff_bind, gets, on_snd, zoom in *. cbn [fst snd] in *. rewrite Hpoll in *. cbn in Hturn |- *.
  injection Hturn as <- <-. destruct Hok as (He1 & _). cbn [fst] in He1.
  apply find_some in Ha as [Hin Hbest%bool_decide_eq_true]. apply list_elem_of_In in Hin.
  apply best_elem_height in Hbest as Hmax. rewrite (eo_heights e He) in Hmax by done. destruct Hmax as [Hmax _].
  pose proof Hinfo as (_ & Hheight & _). rewrite (eo_heights e He) in Hheight by done.
  assert (cp_height a ≤ cp_height (em_last_cp e)) as Hle.
  { destruct (decreasing_le cp_height (em_last_cp e) a) as [->|]; [apply cp_height_decreasing|apply He|done|lia|lia]. }
  eexists _, w1. split; [reflexivity|]. split; [done|]. split.
  { split; [done|]. cbn [with_last em_last_cp em_last_block]. rewrite Hq. split; [done|]. by exists res. }
  cbn [with_last em_last_cp]. split; [done|]. unfold next_height, first_height, start_from, with_last, with_start_height.
  rewrite Hheight, as_u32_small by lia.
  destruct (N.ltb_spec (cp_height a) (em_start_height e)), (N.ltb_spec (cp_height a) (cp_height (em_last_cp e)));
    cbn; lia.
Qed.

(** ** Draining the emitter *)

(** [while let Some(event) = emitter.next_block()?] *)
Fixpoint emit_all (fuel turns : nat) : Eff (Emitter * W) RpcError (list (BlockEvent ChainBlock)) :=
  match turns with
  | O => hang
  | S turns =>
    polled ← next_block fuel;
    match polled with
    | None => mret []
    | Some ev => evs ← emit_all fuel turns; mret (ev :: evs)
    end
  end.

(** Each checkpoint stands on the one before. *)
Fixpoint stacked {B} p (evs : list (BlockEvent B)) q : Prop :=
  match evs with
  | [] => q = p
  | ev :: evs => cp_prev (be_checkpoint ev) = Some p ∧ stacked (be_checkpoint ev) evs q
  end.

Definition event_block (ev : BlockEvent ChainBlock) : N * BlockHash := (be_block_height ev, be_block_hash ev).

Lemma settled_snapshot e w m : settled e w → settled (with_snapshot e m) w.
Proof. intros (He & Hin & Hres). split; [|done]. split; [apply (eo_wf _ He)|apply (eo_heights _ He)|apply (eo_last _ He)]. Qed.

Lemma blocks_from_cons bl h hash :
  bl !! N.to_nat h = Some hash → blocks_from bl h = (h, hash) :: blocks_from bl (h + 1).
Proof.
  intros Hh. unfold blocks_from. rewrite (drop_S _ _ _ Hh). cbn [imap]. f_equal; [f_equal; lia|].
  replace (N.to_nat (h + 1)) with (S (N.to_nat h)) by lia. apply imap_ext. intros i x _. cbn. f_equal. lia.
Qed.
Lemma blocks_from_nil bl h : bl !! N.to_nat h = None → blocks_from bl h = [].
Proof. intros Hh%lookup_ge_None. unfold blocks_from. by rewrite drop_ge by lia. Qed.

(** The emitter after its transactions of the block [b] are confirmed. *)
Definition confirm (b : ChainBlock) e : Emitter :=
  with_snapshot e (foldl (λ m tx, delete (compute_txid tx) m) (em_mempool_snapshot e) (txdata b)).

Lemma next_block_turn fuel s t s1 :
  poll_turn rpc_block s = Some (t, s1) →
  next_block (S fuel) s =
    match t with
    | Ok (Some (Some (cp, b))) => Some (Ok (Some (mkBlockEvent b cp)), (confirm b s1.1, s1.2))
    | Ok (Some None) => Some (Ok None, s1)
    | Ok None => next_block fuel s1
    | Err err => Some (Err err, s1)
    end.
Proof.
  intros Hrun. unfold next_block. cbn [poll]. unfold mbind, eff_bind. rewrite Hrun.
  destruct t as [[[[cp b]|]|]|err]; done.
Qed.

Lemma emit_all_step fuel turns s r s1 :
  next_block fuel s = Some (Ok r, s1) →
  emit_all fuel (S turns) s =
    match r with
    | None => Some (Ok [], s1)
    | Some ev =>
      match emit_all fuel turns s1 with
      | Some (Ok evs, s2) => Some (Ok (ev :: evs), s2)
      | x => x
      end
    end.
Proof.
  intros Hrun. cbn [emit_all]. unfold mbind, eff_bind. rewrite Hrun.
  destruct r; [|done]. by destruct (emit_all fuel turns s1) as [[[?|?] ?]|].
Qed.

Lemma emit_settled fuel turns e w :
  settled e w → (N.to_nat (em_start_height e) < length (best w))%nat →
  (length (best w) - N.to_nat (next_height e) < turns)%nat →
  ∃ evs e' w', emit_all (S fuel) turns (e, w) = Some (Ok evs, (e', w')) ∧ best w' = best w ∧
    emitter_ok (height_of:=height_of) (parent_of:=parent_of) e' ∧ em_last_block e' = None ∧
    event_block <$> evs = blocks_from (best w) (next_height e) ∧
    Forall (λ ev, block_hash (be_block ev) = be_block_hash ev) evs ∧
    stacked (em_last_cp e) evs (em_last_cp e') ∧ last (best w) = Some (cp_hash (em_last_cp e')).
Proof.
  induction turns as [|turns IH] in e, w |- *; intros Hs Hstart Hturns; [lia|].
  pose proof (settled_turn e w Hs Hstart) as Hturn.
  destruct (best w !! N.to_nat (next_height e)) as [hash|] eqn:Hh.
  - destruct Hturn as (cp & res & b & w1 & Hrun & Hq & Hs1 & Hprev & Hcph & Hcphh & Hbh).
    apply (next_block_turn fuel) in Hrun. cbn [fst snd] in Hrun.
    set (e2 := confirm b (with_last e cp (Some res))) in *.
    assert (next_height e2 = next_height e + 1) as Hnext.
    { unfold next_height at 1. subst e2. cbn [confirm with_snapshot with_last em_last_cp em_start_height]. rewrite Hcphh. unfold next_height. lia. }
    destruct (IH e2 w1) as (evs & e' & w' & Hevs & Hq' & He' & Hl & Hmap & Hall & Hst & Htip).
    + by apply settled_snapshot.
    + by rewrite Hq.
    + apply lookup_lt_Some in Hh. rewrite Hq, Hnext. lia.
    + exists (mkBlockEvent b cp :: evs), e', w'. rewrite (emit_all_step _ _ _ _ _ Hrun), Hevs.
      split_and!; [done|congruence|done|done| | |done|by rewrite <-Hq].
      * cbn [fmap list_fmap]. rewrite Hmap, Hq, (blocks_from_cons _ _ _ Hh), Hnext.
        unfold event_block, be_block_height, be_block_hash. cbn [be_checkpoint]. by rewrite Hcph, Hcphh.
      * constructor; [|done]. unfold be_block_hash. cbn [be_block be_checkpoint]. by rewrite Hbh, Hcph.
  - destruct Hturn as (w1 & Hrun & Hq). apply (next_block_turn fuel), (emit_all_step _ turns) in Hrun.
    exists [], (with_last e (em_last_cp e) None), w1.
    pose proof Hs as (He & Hin & _). apply last_in_best in Hin; [|done].
    split_and!; [done|done| |done|by rewrite blocks_from_nil|done|done|].
    + by split; [apply (eo_wf _ He)|apply (eo_heights _ He)|].
    + cbn [with_last em_last_cp]. rewrite last_lookup, <-Hin. f_equal.
      apply lookup_ge_None in Hh. apply lookup_lt_Some in Hin. unfold next_height in Hh. lia.
Qed.

(** Calls that do the same leave the same to do. *)
Lemma emit_all_same fuel turns s s1 :
  next_block (S fuel) s = next_block (S fuel) s1 → emit_all (S fuel) (S turns) s = emit_all (S fuel) (S turns) s1.
Proof. intros Heq. cbn [emit_all]. unfold mbind, eff_bind. by rewrite Heq. Qed.

Lemma settled_next_block fuel fuel' e w :
  settled e w → (N.to_nat (em_start_height e) < length (best w))%nat →
  next_block (S fuel) (e, w) = next_block (S fuel') (e, w).
Proof.
  intros Hs Hstart. pose proof (settled_turn e w Hs Hstart) as Hturn.
  destruct (best w !! N.to_nat (next_height e)) as [hash|]; [destruct Hturn as (cp & res & b & w1 & Hrun & _)|destruct Hturn as (w1 & Hrun & _)];
    by rewrite !(next_block_turn _ _ _ _ Hrun).
Qed.

Lemma emit_all_settles fuel e w a :
  emitter_ok (height_of:=height_of) (parent_of:=parent_of) e → em_last_block e = None →
  agreement (best w) (em_last_cp e) = Some a → (N.to_nat (em_start_height e) < length (best w))%nat →
  ∃ evs e' w', emit_all (S (S fuel)) (S (length (best w))) (e, w) = Some (Ok evs, (e', w')) ∧
    event_block <$> evs = blocks_from (best w) (first_height e a) ∧
    Forall (λ ev, block_hash (be_block ev) = be_block_hash ev) evs ∧
    stacked a evs (em_last_cp e') ∧
    last (best w) = Some (cp_hash (em_last_cp e')) ∧
    emitter_ok (height_of:=height_of) (parent_of:=parent_of) e' ∧ em_last_block e' = None.
Proof.
  intros He Hnone Ha Hstart. destruct (settling_turn e w a He Hnone Ha) as (e1 & w1 & Hrun & Hq & Hs & <- & Hnext & Hle).
  assert ((N.to_nat (em_start_height e1) < length (best w1))%nat) as Hstart1 by (rewrite Hq; lia).
  rewrite (emit_all_same (S fuel) (length (best w)) (e, w) (e1, w1)).
  2:{ rewrite (next_block_turn _ _ _ _ Hrun). by apply settled_next_block. }
  destruct (emit_settled (S fuel) (S (length (best w))) e1 w1 Hs Hstart1) as (evs & e' & w' & Hevs & _ & He' & Hl & Hmap & Hall & Hst & Htip).
  { rewrite Hq. lia. }
  rewrite Hq, Hnext in Hmap. rewrite Hq in Htip. exists evs, e', w'. by split_and!.
Qed.
(** C10. On a node at rest, draining the emitter emits exactly the blocks of the
    best chain above the agreement (the highest checkpoint still in the best
    chain), or from the start height on when nothing was invalidated, in
    order and each with the block asked for, and then reports the end; each
    checkpoint stands on the one before, the first on the agreement, and the
    emitter is left at the tip. *)
Theorem emitter_catches_up fuel e w a :
  emitter_ok (height_of:=height_of) (parent_of:=parent_of) e → em_last_block e = None →
  agreement (best w) (em_last_cp e) = Some a → (N.to_nat (em_start_height e) < length (best w))%nat →
  ∃ evs e' w', emit_all (S (S fuel)) (S (length (best w))) (e, w) = Some (Ok evs, (e', w')) ∧
    event_block <$> evs = blocks_from (best w) (first_height e a) ∧
    Forall (λ ev, block_hash (be_block ev) = be_block_hash ev) evs ∧
    stacked a evs (em_last_cp e') ∧
    last (best w) = Some (cp_hash (em_last_cp e')) ∧
    emitter_ok (height_of:=height_of) (parent_of:=parent_of) e' ∧ em_last_block e' = None.
Proof. apply emit_all_settles. Qed.
End quiet.

(** ** A local chain that follows *)

Section follow.
Context (eq_ptr : CheckPoint BlockHash → CheckPoint BlockHash → bool).
Context (eq_ptr_sound : ∀ a b, eq_ptr a b = true → a = b).
Implicit Types (c : LocalChain BlockHash) (O U a o n : CheckPoint BlockHash).

Lemma hash_entries (cp : CheckPoint BlockHash) : cp_wf cp → entry_iter cp = Occupied <$> cp_iter cp.
Proof.
  assert (∀ n : CheckPoint BlockHash, placeholder_of n = None) as Hph.
  { intros n. unfold placeholder_of. by destruct (checked_sub _ _). }
  induction cp as [cp Hp|cp p Hp IH] using cp_prev_ind; intros Hwf;
    rewrite entry_iter_unfold, cp_iter_unfold, Hp by done; unfold own_entries; rewrite Hph; [done|].
  rewrite IH by (by eapply cp_wf_prev). done.
Qed.

Lemma elem_of_hash_entries O e : cp_wf O → e ∈ entry_iter O ↔ ∃ n, n ∈ cp_iter O ∧ e = Occupied n.
Proof. intros HO. rewrite hash_entries, list_elem_of_fmap by done. naive_solver. Qed.

Lemma conflicts_hash U o :
  cp_wf U → conflicts (entry_iter U) (Occupied o) = true ↔ ∃ u, u ∈ cp_iter U ∧ cp_height u = cp_height o ∧ cp_hash u ≠ cp_hash o.
Proof.
  intros HU. unfold conflicts. change (entry_height (Occupied o)) with (cp_height o).
  destruct (entry_at (entry_iter U) (cp_height o)) as [u|] eqn:Hu.
  - pose proof Hu as [Hin Hh]%entry_at_elem. apply elem_of_hash_entries in Hin as (n & Hn & ->); [|done].
    rewrite negb_true_iff, N.eqb_neq. change (entry_hash (Occupied o)) with (cp_hash o). change (entry_hash (Occupied n)) with (cp_hash n).
    change (entry_height (Occupied n)) with (cp_height n) in Hh. split; [by eexists|].
    intros (u & Hin & Hhu & Hne). assert (u = n) as -> by (eapply (cp_iter_inj cp_height); eauto using cp_height_decreasing; congruence). done.
  - split; [done|]. intros (u & Hin & Hhu & _). exfalso.
    rewrite entry_at_None in Hu. apply (Hu (Occupied u)); [apply elem_of_hash_entries; eauto|exact Hhu].
Qed.

Lemma agrees_hash U o :
  cp_wf U → agrees (entry_iter U) (Occupied o) = true ↔ ∃ u, u ∈ cp_iter U ∧ cp_height u = cp_height o ∧ cp_hash u = cp_hash o.
Proof.
  intros HU. unfold agrees. change (entry_height (Occupied o)) with (cp_height o).
  destruct (entry_at (entry_iter U) (cp_height o)) as [u|] eqn:Hu.
  - pose proof Hu as [Hin Hh]%entry_at_elem. apply elem_of_hash_entries in Hin as (n & Hn & ->); [|done].
    rewrite N.eqb_eq. change (entry_hash (Occupied o)) with (cp_hash o). change (entry_hash (Occupied n)) with (cp_hash n).
    change (entry_height (Occupied n)) with (cp_height n) in Hh. split; [by eexists|].
    intros (u & Hin & Hhu & Heq). assert (u = n) as -> by (eapply (cp_iter_inj cp_height); eauto using cp_height_decreasing; congruence). done.
  - split; [done|]. intros (u & Hin & Hhu & _). exfalso.
    rewrite entry_at_None in Hu. apply (Hu (Occupied u)); [apply elem_of_hash_entries; eauto|exact Hhu].
Qed.

Lemma below_in_iter O a o : cp_wf O → a ∈ cp_iter O → o ∈ cp_iter O → cp_height a < cp_height o → a ∈ cp_iter o.
Proof.
  intros HO Ha Ho Hlt. revert Ha Ho. induction O as [O Hp|O p Hp IH] using cp_prev_ind; intros Ha Ho.
  - rewrite cp_iter_unfold, Hp in Ha, Ho. apply list_elem_of_singleton in Ha, Ho. subst. lia.
  - pose proof Ha as Ha'. rewrite (cp_iter_prev O p Hp) in Ha, Ho. apply elem_of_cons in Ha as [->|Ha].
    + destruct (decreasing_le cp_height O o) as [->|]; [apply cp_height_decreasing|done| |lia|lia].
      by rewrite (cp_iter_prev O p Hp).
    + apply elem_of_cons in Ho as [->|Ho]; [done|]. apply IH; [by eapply cp_wf_prev|done..].
Qed.

(** The node right above [a] is the lowest above it. *)
Lemma prev_lowest O a o :
  cp_wf O → a ∈ cp_iter O → o ∈ cp_iter O → cp_height a < cp_height o →
  cp_prev o = Some a ↔ ∀ n, n ∈ cp_iter O → cp_height a < cp_height n → cp_height o ≤ cp_height n.
Proof.
  intros HO Ha Ho Hgt. pose proof (cp_wf_iter O o HO Ho) as Hwfo. split.
  - intros Hp n Hn Han. destruct (N.le_gt_cases (cp_height o) (cp_height n)) as [|Hno]; [done|].
    pose proof (below_in_iter O n o HO Hn Ho Hno) as Hin. rewrite (cp_iter_prev o a Hp) in Hin.
    apply elem_of_cons in Hin as [->|Hin]; [lia|].
    destruct (decreasing_le cp_height a n) as [->|]; [apply cp_height_decreasing|by eapply cp_wf_prev|done|lia|lia].
  - intros Hlow. pose proof (below_in_iter O a o HO Ha Ho Hgt) as Hin. destruct (cp_prev o) as [p|] eqn:Hp.
    + rewrite (cp_iter_prev o p Hp) in Hin. apply elem_of_cons in Hin as [->|Hin]; [lia|]. f_equal.
      destruct (decreasing_le cp_height p a) as [->|Hpl]; [apply cp_height_decreasing|by apply (cp_wf_prev o p)|done|done|].
      exfalso. destruct (cp_wf_prev_lt o p Hwfo Hp) as [Hpo _].
      ospecialize (Hlow p _ Hpl); [|lia]. eapply cp_iter_trans; [exact Ho|].
      rewrite (cp_iter_prev o p Hp). apply elem_of_cons. right. apply cp_iter_self.
    + rewrite cp_iter_unfold, Hp in Hin. apply list_elem_of_singleton in Hin as ->. lia.
Qed.

(** The checkpoint of [O] right above [a], if there is one, is at height [h]. *)
Definition replaces O a (h : N) : Prop :=
  O = a ∨ ∃ o, o ∈ cp_iter O ∧ cp_prev o = Some a ∧ cp_height o = h.

(** [U] extends a checkpoint of [O], by a block that [O] does not have. *)
Record extends O U a : Prop := {
  ex_O : cp_wf O; ex_U : cp_wf U; ex_prev : cp_prev U = Some a; ex_in : a ∈ cp_iter O;
  ex_new : ∀ o, o ∈ cp_iter O → cp_height o = cp_height U → cp_hash o ≠ cp_hash U;
}.

Section extends.
Context O U a (Hx : extends O U a).

Lemma ex_gt : cp_height a < cp_height U.
Proof using Hx. by apply (cp_wf_prev_lt U a); [apply (ex_U _ _ _ Hx)|apply (ex_prev _ _ _ Hx)]. Qed.

Lemma ex_nodes u : u ∈ cp_iter U ↔ u = U ∨ u ∈ cp_iter a.
Proof using Hx. rewrite (cp_iter_prev U a) by apply (ex_prev _ _ _ Hx). apply elem_of_cons. Qed.

Lemma ex_below u : u ∈ cp_iter a → cp_height u ≤ cp_height a.
Proof using Hx.
  intros Hu. pose proof (cp_wf_prev U a (ex_U _ _ _ Hx) (ex_prev _ _ _ Hx)) as Ha.
  destruct (decreasing_le cp_height a u) as [->|]; [apply cp_height_decreasing|done|done|lia|lia].
Qed.

Lemma ex_agrees o : o ∈ cp_iter O → agrees (entry_iter U) (Occupied o) = true → cp_height o ≤ cp_height a.
Proof using Hx.
  intros Ho (u & Hu & Hh & Heq)%agrees_hash; [|apply (ex_U _ _ _ Hx)].
  apply ex_nodes in Hu as [->|Hu]; [by destruct (ex_new _ _ _ Hx o Ho)|]. apply ex_below in Hu. lia.
Qed.

Lemma ex_agreement : agrees (entry_iter U) (Occupied a) = true.
Proof using Hx.
  apply agrees_hash; [apply (ex_U _ _ _ Hx)|]. exists a. split; [|done]. apply ex_nodes. right. apply cp_iter_self.
Qed.

Lemma ex_elem o : o ∈ cp_iter O → Occupied o ∈ entry_iter O.
Proof using Hx. intros Ho. apply elem_of_hash_entries; [apply (ex_O _ _ _ Hx)|eauto]. Qed.

Lemma extends_connects : connects (entry_iter O) (entry_iter U) → replaces O a (cp_height U).
Proof using Hx.
  pose proof ex_gt as Hgt. pose proof Hx as [HO HU Hprev Ha Hnew].
  intros (e & He & Hage & Hmax & Hcase). apply elem_of_hash_entries in He as (n & Hn & ->); [|done].
  change (entry_height (Occupied n)) with (cp_height n) in *.
  assert (n = a) as ->.
  { eapply (cp_iter_inj cp_height O); [apply cp_height_decreasing|done..|].
    pose proof (ex_agrees n Hn Hage). destruct (decide (cp_height n < cp_height a)) as [Hl|]; [|lia].
    pose proof ex_agreement as Hag. by rewrite (Hmax (Occupied a)) in Hag by (done || by apply ex_elem). }
  destruct Hcase as [Hall|[Hall|(e & He & Hc & Hconf & Hlow)]].
  - left. specialize (Hall _ (ex_elem O (cp_iter_self O))). change (entry_height (Occupied O)) with (cp_height O) in Hall.
    destruct (decreasing_le cp_height O a) as [->|]; [apply cp_height_decreasing|done..|lia].
  - ospecialize (Hall (Occupied U) _); [apply elem_of_hash_entries; [done|]; eexists; split; [apply cp_iter_self|done]|].
    change (entry_height (Occupied U)) with (cp_height U) in Hall. lia.
  - right. apply elem_of_hash_entries in He as (o & Ho & ->); [|done]. change (entry_height (Occupied o)) with (cp_height o) in *.
    exists o. split; [done|]. split.
    + apply (prev_lowest O); [done..|]. intros n Hno Hlt. exact (Hlow _ (ex_elem n Hno) Hlt).
    + apply conflicts_hash in Hconf as (u & Hu & Hh & _); [|done].
      apply ex_nodes in Hu as [->|Hu]; [done|]. apply ex_below in Hu. lia.
Qed.

Lemma replaces_connects : replaces O a (cp_height U) → connects (entry_iter O) (entry_iter U).
Proof using Hx.
  pose proof ex_gt as Hgt. pose proof Hx as [HO HU Hprev Ha Hnew].
  intros Hr. exists (Occupied a). change (entry_height (Occupied a)) with (cp_height a).
  split; [by apply ex_elem|]. split; [apply ex_agreement|]. split.
  { intros e He Hlt. apply elem_of_hash_entries in He as (o & Ho & ->); [|done].
    apply not_true_iff_false. intros ?%ex_agrees; [|done]. change (entry_height (Occupied o)) with (cp_height o) in Hlt. lia. }
  destruct Hr as [HOa|(o & Ho & Hp & Hh)].
  - left. intros e He. apply elem_of_hash_entries in He as (n & Hn & ->); [|done]. rewrite HOa in Hn. by apply ex_below.
  - right. right. exists (Occupied o). change (entry_height (Occupied o)) with (cp_height o).
    split; [by apply ex_elem|]. split; [lia|]. split.
    { apply conflicts_hash; [done|]. exists U. split; [apply cp_iter_self|]. split; [done|].
      intros Heq. by apply (Hnew o Ho). }
    intros e He Hlt. apply elem_of_hash_entries in He as (n & Hn & ->); [|done].
    apply (prev_lowest O a o HO Ha Ho); [lia|done..].
Qed.

Lemma extends_genesis : is_Some (cp_get O 0) → genesis_kept (entry_iter O) (entry_iter U).
Proof using Hx.
  pose proof ex_gt as Hgt. pose proof Hx as [HO HU Hprev Ha Hnew].
  intros _ e He H0 _. apply elem_of_hash_entries in He as (o & Ho & ->); [|done].
  apply not_true_iff_false. intros (u & Hu & Hh & Hne)%conflicts_hash; [|done].
  change (entry_height (Occupied o)) with (cp_height o) in H0.
  apply ex_nodes in Hu as [->|Hu]; [lia|]. destruct Hne. f_equal.
  apply (cp_iter_inj cp_height O); [apply cp_height_decreasing|done|exact (cp_iter_trans O a u Ha Hu)|done|done].
Qed.

Lemma extends_merged k : replaces O a (cp_height U) → merged O U k = cp_map U !! k.
Proof using Hx.
  pose proof ex_gt as Hgt. pose proof Hx as [HO HU Hprev Ha Hnew]. intros Hr. unfold merged.
  rewrite (cp_map_lookup U) by done. destruct (entry_at (entry_iter U) k) as [[b m|n]|] eqn:Hk.
  - apply entry_at_elem in Hk as [Hin _]. by apply elem_of_hash_entries in Hin as (? & ? & ?).
  - by apply entry_at_occupied in Hk as ->.
  - assert (∀ u, u ∈ cp_iter U → cp_height u ≠ k) as Hno.
    { intros u Hu Huk. rewrite entry_at_None in Hk. apply (Hk (Occupied u)); [|done]. apply elem_of_hash_entries; eauto. }
    rewrite (proj2 (cp_get_None U k HU) Hno). cbn [fmap option_fmap option_map].
    destruct (conflict_below (entry_iter O) (entry_iter U) k) eqn:Hc; [done|]. rewrite cp_map_lookup by done.
    rewrite (proj2 (cp_get_None O k HO)); [done|]. intros n Hn Hnk. destruct Hr as [HOa|(o & Ho & Hp & Hh)].
    + apply (Hno n); [|done]. apply ex_nodes. right. by rewrite <-HOa.
    + destruct (N.le_gt_cases (cp_height n) (cp_height a)) as [Hle|Hlt].
      * assert (n ∈ cp_iter a) as Hna.
        { destruct (decide (cp_height n = cp_height a)) as [Heq|]; [|apply (below_in_iter O); auto; lia].
          rewrite (cp_iter_inj cp_height O n a); auto using cp_height_decreasing, cp_iter_self. }
        apply (Hno n); [|done]. apply ex_nodes. by right.
      * pose proof (proj1 (prev_lowest O a o HO Ha Ho ltac:(lia)) Hp n Hn Hlt) as Hon.
        assert (cp_height n ≠ cp_height U) by (rewrite Hnk; intros HkU; by apply (Hno U); [apply cp_iter_self|]).
        rewrite conflict_below_false in Hc. specialize (Hc _ (ex_elem o Ho)). change (entry_height (Occupied o)) with (cp_height o) in Hc.
        apply (not_true_iff_false (conflicts (entry_iter U) (Occupied o))); [apply Hc; lia|].
        apply conflicts_hash; [done|]. exists U. split; [apply cp_iter_self|]. split; [done|].
        intros Heq. by apply (Hnew o Ho).
Qed.
End extends.

(** An update that extends a checkpoint of the chain is accepted exactly when the
    checkpoint above, if any, is at the height of the new block; it becomes the
    chain. *)
Lemma extends_apply c U a :
  lc_wf c → extends (lc_tip c) U a →
  ∃ r, apply_update eq_ptr c U = Some r ∧
    match r with
    | Ok (c', _) => replaces (lc_tip c) a (cp_height U) ∧ c' = mkLocalChain U ∧ lc_wf c'
    | Err _ => ¬ replaces (lc_tip c) a (cp_height U)
    end.
Proof using eq_ptr_sound.
  intros Hc Hx. pose proof Hx as [_ HU _ _ _]. destruct (hash_coherent c U HU) as [Hcoh Hnh].
  destruct (apply_update_outcome eq_ptr eq_ptr_sound c U) as (r & Hr & Hres); [done..|].
  exists r. split; [done|]. destruct r as [[c' cs]|e].
  - destruct Hres as ([Hcon _] & Hwf & _ & _ & Hm). apply (extends_connects _ _ _ Hx) in Hcon. split; [done|]. split; [|done].
    enough (lc_tip c' = U) as <- by by destruct c'. apply cp_map_inj; [apply Hwf|done|]. apply map_eq. intros k.
    rewrite Hm. by eapply extends_merged.
  - destruct Hres as [Hno _]. intros Hrep. apply Hno. split; [by eapply replaces_connects|].
    eapply extends_genesis; [done|]. destruct Hc as [HO [d H0]]. apply cp_map_get in H0 as (g & Hg & _); [by eexists|done].
Qed.

(** [chain.apply_update(event.checkpoint)?] for each event. *)
Fixpoint apply_events {B} c (evs : list (BlockEvent B)) : option (result CannotConnectError (LocalChain BlockHash)) :=
  match evs with
  | [] => Some (Ok c)
  | ev :: evs =>
    match apply_update eq_ptr c (be_checkpoint ev) with
    | Some (Ok (c, _)) => apply_events c evs
    | Some (Err e) => Some (Err e)
    | None => None
    end
  end.

Lemma stacked_in {B} p (evs : list (BlockEvent B)) q : stacked p evs q → p ∈ cp_iter q.
Proof.
  induction evs as [|ev evs IH] in p |- *; cbn; [intros ->; apply cp_iter_self|]. intros [Hp Hs%IH].
  eapply cp_iter_trans; [exact Hs|]. rewrite (cp_iter_prev _ p Hp). apply elem_of_cons. right. apply cp_iter_self.
Qed.

Lemma apply_stacked {B} c (evs : list (BlockEvent B)) q :
  lc_wf c → cp_wf q → stacked (lc_tip c) evs q → apply_events c evs = Some (Ok (mkLocalChain q)) ∧ lc_wf (mkLocalChain q).
Proof using eq_ptr_sound.
  induction evs as [|ev evs IH] in c |- *; cbn [stacked apply_events]; intros Hc Hq Hs.
  - subst q. by destruct c.
  - destruct Hs as [Hp Hs]. pose proof (cp_wf_iter q _ Hq (stacked_in _ _ _ Hs)) as Hwf.
    destruct (cp_wf_prev_lt _ _ Hwf Hp) as [Hlt _].
    assert (extends (lc_tip c) (be_checkpoint ev) (lc_tip c)) as Hx.
    { split; [apply Hc|done|done|apply cp_iter_self|]. intros o Ho Hh.
      destruct (decreasing_le cp_height (lc_tip c) o) as [->|]; [apply cp_height_decreasing|apply Hc|done|lia|lia]. }
    destruct (extends_apply c _ _ Hc Hx) as (r & -> & Hr). destruct r as [[c' cs]|err].
    + destruct Hr as (_ & -> & Hc'). by apply IH.
    + destruct Hr. by left.
Qed.
End follow.

Lemma agreement_highest bl (cp a o : CheckPoint BlockHash) :
  cp_wf cp → agreement bl cp = Some a → o ∈ cp_iter cp → cp_hash o ∈ bl → cp_height o ≤ cp_height a.
Proof.
  unfold agreement. induction cp as [cp Hp|cp p Hp IH] using cp_prev_ind; intros Hwf;
    rewrite cp_iter_unfold, Hp; cbn [List.find]; case_bool_decide as Hb.
  - by intros [= <-] ->%list_elem_of_singleton.
  - done.
  - intros [= <-] Ho _. destruct (decreasing_le cp_height cp o) as [->|]; [apply cp_height_decreasing|done| |lia|lia].
    by rewrite (cp_iter_prev cp p Hp).
  - intros Ha [->|Ho]%elem_of_cons Hin; [done|]. apply IH; try done. by eapply cp_wf_prev.
Qed.

Section chain_follows.
Context `{NodeLaws W height_of parent_of best, !QuietNode height_of best}.
Context (eq_ptr : CheckPoint BlockHash → CheckPoint BlockHash → bool).
Context (eq_ptr_sound : ∀ a b, eq_ptr a b = true → a = b).

(** C11. A node at rest has a block at the height emission begins with, and a
    local chain equal to the emitter's applies the emitted checkpoints one by
    one.  Either every update is accepted, and the chain ends up equal to the
    emitter's and at the tip of the node's best chain; this is so exactly when
    no checkpoint was invalidated or the lowest invalidated checkpoint is at the
    height emission begins with.  Or the very first update is refused. *)
Theorem chain_follows_emitter fuel (e : Emitter) (w : W) (a : CheckPoint BlockHash) (c : LocalChain BlockHash) :
  emitter_ok (height_of:=height_of) (parent_of:=parent_of) e → em_last_block e = None →
  agreement (best w) (em_last_cp e) = Some a → (N.to_nat (em_start_height e) < length (best w))%nat →
  (N.to_nat (first_height e a) < length (best w))%nat →
  lc_wf c → lc_tip c = em_last_cp e →
  ∃ evs e' w' r, emit_all (S (S fuel)) (S (length (best w))) (e, w) = Some (Ok evs, (e', w')) ∧
    apply_events eq_ptr c evs = Some r ∧
    match r with
    | Ok c' => replaces (lc_tip c) a (first_height e a) ∧ lc_wf c' ∧ lc_tip c' = em_last_cp e' ∧
        last (best w) = Some (cp_hash (lc_tip c'))
    | Err err => ¬ replaces (lc_tip c) a (first_height e a) ∧
        ∃ ev evs', evs = ev :: evs' ∧ apply_update eq_ptr c (be_checkpoint ev) = Some (Err err)
    end.
Proof using All.
  intros He Hnone Ha Hstart Hfirst Hc Htip.
  destruct (emit_all_settles fuel e w a He Hnone Ha Hstart) as (evs & e' & w' & Hrun & Hmap & _ & Hst & Hlast & He' & _).
  exists evs, e', w'. destruct (best_lookup w _ Hfirst) as [h Hh]. rewrite (blocks_from_cons _ _ _ Hh) in Hmap.
  destruct evs as [|ev evs]; [done|]. cbn [fmap list_fmap] in Hmap. injection Hmap as Hheight Hhash _.
  unfold be_block_height, be_block_hash in *. destruct Hst as [Hp Hst]. pose proof (eo_wf _ He') as Hq.
  pose proof (cp_wf_iter _ _ Hq (stacked_in _ _ _ Hst)) as Hwf.
  pose proof Ha as [Hin _]%find_some. apply list_elem_of_In in Hin.
  destruct (cp_wf_prev_lt _ _ Hwf Hp) as [Hlt _].
  assert (extends (lc_tip c) (be_checkpoint ev) a) as Hx.
  { rewrite Htip. split; [apply (eo_wf _ He)|done..|]. intros o Ho Hoh Heq.
    pose proof (agreement_highest _ _ _ o (eo_wf _ He) Ha Ho) as Hle. rewrite Heq, Hhash in Hle.
    ospecialize (Hle _); [by eapply list_elem_of_lookup_2|]. lia. }
  cbn [apply_events]. destruct (extends_apply eq_ptr eq_ptr_sound c _ _ Hc Hx) as (r & Hr & Hres). rewrite Hr, Hheight in *.
  destruct r as [[c' cs]|err].
  - destruct Hres as (Hrep & -> & Hc').
    destruct (apply_stacked eq_ptr eq_ptr_sound (mkLocalChain (be_checkpoint ev)) evs (em_last_cp e') Hc' Hq Hst) as [Heq Hwf'].
    exists (Ok (mkLocalChain (em_last_cp e'))). by rewrite Heq.
  - exists (Err err). split_and!; [done..|]. by exists ev, evs.
Qed.
End chain_follows.
