(* ===== verification/BitcoindMempool.v ===== *)
(** * What the emitter and the filter iterator tell a wallet

    A transaction of the mempool is tracked until a block confirms it or it is
    reported as evicted.  The blocks whose filter matches. *)
From S2P Require Import Prelude Effects Block CheckPoint CheckPointFacts CheckPointInsert LocalChainFacts Tx SpkIndex IndexedGraph Bitcoind BitcoindSpec.
#[local] Open Scope N_scope.

(** ** The mempool *)

(** The node hands out the transaction that was asked for. *)
Class MempoolLaws `{BitcoindRpc W} : Prop :=
  raw_transaction_Ok : ∀ txid w tx w', rpc_raw_transaction txid w = Some (Ok tx, w') → compute_txid tx = txid.

Section mempool.
Context `{MempoolLaws, HashOrder}.
Implicit Types (e : Emitter) (w : W) (m : gmap Txid Transaction) (update : list (Transaction * N)).

Definition snapshot_ok m : Prop := ∀ txid tx, m !! txid = Some tx → compute_txid tx = txid.

Lemma snapshot_ok_insert m tx : snapshot_ok m → snapshot_ok (<[compute_txid tx := tx]> m).
Proof. intros Hm txid tx'. rewrite lookup_insert_Some. intros [[<- <-]|[_ ?]]; [done|by apply Hm]. Qed.

Definition update_ids update : list Txid := (λ p, compute_txid p.1) <$> update.

(** Every transaction of [update] is the one [m] has under its id. *)
Definition from_snapshot m update : Prop := ∀ p, p ∈ update → m !! compute_txid p.1 = Some p.1.

Lemma snapshot_of_lookup acc update m txid :
  from_snapshot m update →
  snapshot_of acc update !! txid = if decide (txid ∈ update_ids update) then m !! txid else acc !! txid.
Proof.
  revert acc. induction update as [|p update IH]; intros acc Hm; [done|].
  change (snapshot_of acc (p :: update)) with (snapshot_of (<[compute_txid p.1 := p.1]> acc) update).
  rewrite IH by (intros q Hq; apply Hm, elem_of_cons; by right).
  change (update_ids (p :: update)) with (compute_txid p.1 :: update_ids update).
  destruct (decide (txid ∈ update_ids update)) as [Hin|Hnin].
  - rewrite decide_True by (apply elem_of_cons; by right). done.
  - destruct (decide (txid = compute_txid p.1)) as [->|Hne].
    + rewrite lookup_insert_eq, decide_True by (apply elem_of_cons; by left). symmetry. apply Hm, elem_of_cons. by left.
    + rewrite lookup_insert_ne by done. rewrite decide_False by (by intros [?|?]%elem_of_cons). done.
Qed.

(** Fetching only adds to the snapshot, and what it returns is in it. *)
Definition fetched (sync_time : N) (txids : list Txid) e (r : result RpcError (list (Transaction * N))) e1 : Prop :=
  snapshot_ok (em_mempool_snapshot e1) ∧ em_mempool_snapshot e ⊆ em_mempool_snapshot e1 ∧
  (∀ t, t ∈ dom (em_mempool_snapshot e1) → t ∈ dom (em_mempool_snapshot e) ∨ t ∈ txids) ∧
  em_last_cp e1 = em_last_cp e ∧
  match r with
  | Ok update =>
    from_snapshot (em_mempool_snapshot e1) update ∧
    (∀ p, p ∈ update → p.2 = sync_time ∧ compute_txid p.1 ∈ txids) ∧
    (∀ t, t ∈ txids → t ∈ dom (em_mempool_snapshot e) → t ∈ update_ids update)
  | Err _ => True
  end.

Lemma fetched_cons sync_time txids e m txid tx r e1 :
  em_mempool_snapshot e ⊆ m → (∀ t, t ∈ dom m → t ∈ dom (em_mempool_snapshot e) ∨ t = txid) →
  m !! txid = Some tx → compute_txid tx = txid →
  fetched sync_time txids (with_snapshot e m) r e1 →
  fetched sync_time (txid :: txids) e (match r with Ok update => Ok ((tx, sync_time) :: update) | Err err => Err err end) e1.
Proof.
  intros Hsub Hdom Htx Hid (Hok1 & Hsub1 & Hdom1 & Hcp & Hres). cbn [with_snapshot em_mempool_snapshot em_last_cp] in *.
  pose proof (lookup_weaken _ _ _ _ Htx Hsub1) as Htx1.
  split_and!; [done|by etrans| |done|].
  - intros t Ht. apply Hdom1 in Ht as [Ht|Ht]; [apply Hdom in Ht as [?| ->]; set_solver|set_solver].
  - destruct r as [update|err]; [|done]. destruct Hres as (Hfrom & Hall & Hcov). split_and!.
    + intros p [->|Hp]%elem_of_cons; [by cbn; rewrite Hid|by apply Hfrom].
    + intros p [->|Hp]%elem_of_cons; [cbn; rewrite Hid; set_solver|]. destruct (Hall p Hp). set_solver.
    + intros t Ht Hd. unfold update_ids. cbn [fmap list_fmap fst]. rewrite Hid. apply elem_of_cons.
      apply elem_of_cons in Ht as [->|Ht]; [by left|right]. apply Hcov; [done|]. by eapply subseteq_dom.
Qed.

Lemma fetched_skip sync_time txids e txid r e1 :
  em_mempool_snapshot e !! txid = None → fetched sync_time txids e r e1 → fetched sync_time (txid :: txids) e r e1.
Proof.
  intros Hnone (? & ? & Hdom & ? & Hres). split_and!; [done..| |done|].
  - intros t Ht. apply Hdom in Ht. set_solver.
  - destruct r as [update|]; [|done]. destruct Hres as (? & Hall & Hcov). split_and!; [done| |].
    + intros p Hp. destruct (Hall p Hp). set_solver.
    + intros t [->|Ht]%elem_of_cons Hd; [by apply not_elem_of_dom in Hnone|auto].
Qed.

Lemma fetch_mempool_ok sync_time txids e w r e1 w1 :
  snapshot_ok (em_mempool_snapshot e) → fetch_mempool sync_time txids (e, w) = Some (r, (e1, w1)) →
  fetched sync_time txids e r e1.
Proof.
  induction txids as [|txid txids IH] in e, w, r, e1, w1 |- *; intros Hm Hrun; cbn [fetch_mempool] in Hrun.
  { injection Hrun as <- <- <-. unfold fetched. split_and!; try done; [auto|..]; by intros ? ?%elem_of_nil. }
  unfold mbind, eff_bind, gets, try_, on_snd, zoom, set_emitter, modify in Hrun. cbn [fst snd] in Hrun.
  destruct (em_mempool_snapshot e !! txid) as [tx|] eqn:Htx.
  - destruct (fetch_mempool sync_time txids (e, w)) as [[r2 [e2 w2]]|] eqn:Hr; [|done].
    apply IH in Hr; [|done].
    assert (fetched sync_time (txid :: txids) e (match r2 with Ok update => Ok ((tx, sync_time) :: update) | Err err => Err err end) e2) as Hf.
    { apply (fetched_cons _ _ _ (em_mempool_snapshot e)); [done|auto|done|by apply Hm|by destruct e]. }
    by destruct r2; injection Hrun as <- <- <-.
  - cbn [fst snd] in Hrun. destruct (rpc_raw_transaction txid w) as [[[tx|err] w2]|] eqn:Hraw; [..|done].
    + apply raw_transaction_Ok in Hraw as Hid. cbn [fst snd] in Hrun.
      match type of Hrun with context [fetch_mempool sync_time txids ?s] => destruct (fetch_mempool sync_time txids s) as [[r2 [e2 w3]]|] eqn:Hr; [|done] end.
      apply IH in Hr; [|cbn; rewrite <-Hid; by apply snapshot_ok_insert].
      apply (fetched_cons sync_time txids e _ txid tx) in Hr; [|by apply insert_subseteq|set_solver|apply lookup_insert_eq|done].
      by destruct r2; injection Hrun as <- <- <-.
    + destruct (is_not_found_error err).
      * apply IH in Hrun; [|done]. by apply fetched_skip.
      * injection Hrun as <- <- <-. unfold fetched. split_and!; try done. auto.
Qed.

(** The transactions reported as evicted at the tip. *)
Definition evicted_at (sync_time : N) (txids : list Txid) m : list (Txid * N) :=
  (λ txid, (txid, sync_time)) <$> filter (λ txid, txid ∉ txids) (hash_iter (dom m)).

Lemma elem_of_evicted t txids m txid s :
  (txid, s) ∈ evicted_at t txids m ↔ s = t ∧ txid ∈ dom m ∧ txid ∉ txids.
Proof.
  unfold evicted_at. rewrite list_elem_of_fmap. setoid_rewrite list_elem_of_filter. setoid_rewrite elem_of_hash_iter. naive_solver.
Qed.

Lemma snapshot_of_ok acc update m :
  snapshot_ok acc → from_snapshot m update → snapshot_ok m → snapshot_ok (snapshot_of acc update).
Proof.
  intros Hacc Hfrom Hm txid tx. rewrite (snapshot_of_lookup _ _ _ _ Hfrom). destruct (decide _); [apply Hm|apply Hacc].
Qed.

(** A call of [mempool_at] fails before anything is dropped, or goes through. *)
Lemma mempool_at_run fuel t e w r e' w' :
  snapshot_ok (em_mempool_snapshot e) → mempool_at fuel t (e, w) = Some (r, (e', w')) →
  (∃ err, r = Err err ∧ snapshot_ok (em_mempool_snapshot e') ∧ em_mempool_snapshot e ⊆ em_mempool_snapshot e') ∨
  ∃ height hash txids w1 update e1 ev, r = Ok ev ∧
    stable_mempool fuel w = Some (Ok (height, hash, txids), w1) ∧ fetched t txids e (Ok update) e1 ∧
    let at_tip := (height =? cp_height (em_last_cp e1)) && (hash =? cp_hash (em_last_cp e1)) in
    e' = with_snapshot e1 (snapshot_of (if at_tip then ∅ else em_mempool_snapshot e1) update) ∧
    ev = mkMempoolEvent update (if at_tip then evicted_at t txids (em_mempool_snapshot e1) else []).
Proof.
  intros Hm Hrun. unfold mempool_at, mbind, eff_bind, on_snd, zoom in Hrun. cbn [fst snd] in Hrun.
  destruct (stable_mempool fuel w) as [[[[[height hash] txids]|err] w1]|] eqn:Hst; [..|done].
  - destruct (fetch_mempool t txids (e, w1)) as [[[update|err] [e1 w2]]|] eqn:Hf; [..|done].
    + apply fetch_mempool_ok in Hf; [|done]. right. exists height, hash, txids, w1, update, e1.
      cbn in Hrun. destruct ((height =? cp_height (em_last_cp e1)) && (hash =? cp_hash (em_last_cp e1)));
        injection Hrun as <- <- <-; eexists; by split_and!.
    + apply fetch_mempool_ok in Hf as (Hok & Hsub & _); [|done]. injection Hrun as <- <- <-. left. by eexists.
  - injection Hrun as <- <- <-. left. by eexists.
Qed.

Lemma delete_confirmed m (txs : list Transaction) txid :
  txid ∈ dom m → txid ∈ dom (foldl (λ m tx, delete (compute_txid tx) m) m txs) ∨ txid ∈ compute_txid <$> txs.
Proof.
  revert m. induction txs as [|tx txs IH]; intros m Hd; cbn [foldl fmap list_fmap]; [by left|].
  destruct (decide (txid = compute_txid tx)) as [->|Hne]; [right; by left|].
  destruct (IH (delete (compute_txid tx) m)) as [|]; [|by left|right; by right].
  apply elem_of_dom. rewrite lookup_delete_ne by done. by apply elem_of_dom.
Qed.

Lemma poll_snapshot {V} (get_item : BlockHash → Eff W RpcError V) fuel e w r e' w' :
  poll fuel get_item (e, w) = Some (r, (e', w')) → em_mempool_snapshot e' = em_mempool_snapshot e.
Proof.
  induction fuel as [|fuel IH] in e, w |- *; [done|]. cbn [poll]. unfold mbind, eff_bind.
  destruct (poll_turn get_item (e, w)) as [[t [e1 w1]]|] eqn:Ht; [|done].
  assert (em_mempool_snapshot e1 = em_mempool_snapshot e) as Hs.
  { unfold poll_turn, mbind, eff_bind, gets, on_snd, zoom, set_emitter, modify in Ht. cbn [fst snd] in Ht.
    destruct (poll_once e w) as [[[[res| | |res cp|g]|err] w2]|]; cbn in Ht; [..|done].
    - destruct (get_item (br_hash res) w2) as [[[item|err] w3]|]; cbn in Ht; [|by injection Ht as _ <- _|done].
      destruct (cp_push _ _ _); cbn in Ht; [|done]. by injection Ht as _ <- _.
    - by injection Ht as _ <- _.
    - by injection Ht as _ <- _.
    - injection Ht as _ <- _. cbn. unfold start_from. by destruct (_ && _).
    - by injection Ht as _ <- _.
    - by injection Ht as _ <- _. }
  destruct t as [[x|]|err]; [by intros [= _ <- _]|intros ?%IH; congruence|by intros [= _ <- _]].
Qed.

Lemma next_block_tracked fuel e w r e' w' txid :
  next_block fuel (e, w) = Some (r, (e', w')) → txid ∈ dom (em_mempool_snapshot e) →
  txid ∈ dom (em_mempool_snapshot e') ∨ ∃ ev, r = Ok (Some ev) ∧ txid ∈ compute_txid <$> txdata (be_block ev).
Proof.
  unfold next_block, mbind, eff_bind. destruct (poll fuel rpc_block (e, w)) as [[pr [e1 w1]]|] eqn:Hpoll; [|done].
  apply poll_snapshot in Hpoll. rewrite <-Hpoll.
  destruct pr as [[[cp b]|]|err]; cbn; intros [= <- <- <-] Hd; [|by left..]. cbn [with_snapshot em_mempool_snapshot].
  destruct (delete_confirmed (em_mempool_snapshot e1) (txdata b) txid Hd); [by left|right; by eexists].
Qed.

(** C12. The mempool as the emitter reports it: the update holds transactions of
    the node's mempool, all that were tracked among them, stamped with the
    time given; when the emitter is at the node's tip, exactly the tracked
    transactions that have left the mempool are reported as evicted, and
    before that none.  No transaction stops being tracked unnoticed: it stays
    in the snapshot unless it is reported as evicted, or an emitted block
    holds it. *)
Theorem mempool_tracked e w :
  snapshot_ok (em_mempool_snapshot e) →
  (∀ fuel t r e' w', mempool_at fuel t (e, w) = Some (r, (e', w')) →
    snapshot_ok (em_mempool_snapshot e') ∧
    (∀ txid, txid ∈ dom (em_mempool_snapshot e) → txid ∈ dom (em_mempool_snapshot e') ∨
      ∃ ev, r = Ok ev ∧ (txid, t) ∈ me_evicted ev) ∧
    ∀ ev, r = Ok ev → ∃ height hash txids w1,
      stable_mempool fuel w = Some (Ok (height, hash, txids), w1) ∧
      (∀ p, p ∈ me_update ev → p.2 = t ∧ compute_txid p.1 ∈ txids) ∧
      (∀ txid, txid ∈ txids → txid ∈ dom (em_mempool_snapshot e) → txid ∈ update_ids (me_update ev)) ∧
      (∀ txid s, (txid, s) ∈ me_evicted ev ↔ s = t ∧ height = cp_height (em_last_cp e) ∧ hash = cp_hash (em_last_cp e) ∧
        txid ∈ dom (em_mempool_snapshot e) ∧ txid ∉ txids)) ∧
  (∀ fuel r e' w', next_block fuel (e, w) = Some (r, (e', w')) →
    ∀ txid, txid ∈ dom (em_mempool_snapshot e) → txid ∈ dom (em_mempool_snapshot e') ∨
      ∃ ev, r = Ok (Some ev) ∧ txid ∈ compute_txid <$> txdata (be_block ev)).
Proof.
  intros Hm. split.
  - intros fuel t r e' w' Hrun. destruct (mempool_at_run fuel t e w r e' w' Hm Hrun) as [(err & -> & Hok & Hsub)|Hres].
    + split; [done|]. split; [|done]. intros txid Hd. left. by eapply subseteq_dom.
    + destruct Hres as (height & hash & txids & w1 & update & e1 & ev & -> & Hst & Hf & He' & Hev).
      destruct Hf as (Hok1 & Hsub & Hdom & Hcp & Hfrom & Hall & Hcov). rewrite Hcp in *. subst e'.
      cbn [with_snapshot em_mempool_snapshot].
      assert (Htip : (height =? cp_height (em_last_cp e)) && (hash =? cp_hash (em_last_cp e)) = true ↔
        height = cp_height (em_last_cp e) ∧ hash = cp_hash (em_last_cp e)) by (by rewrite andb_true_iff, !N.eqb_eq).
      destruct (_ && _); subst ev; cbn [me_update me_evicted].
      * assert (∀ txid s, (txid, s) ∈ evicted_at t txids (em_mempool_snapshot e1) ↔
          s = t ∧ txid ∈ dom (em_mempool_snapshot e) ∧ txid ∉ txids) as Hevict.
        { intros txid s. rewrite elem_of_evicted. split; [intros (-> & Hd & Hno)|intros (-> & Hd & Hno)]; split_and!; try done.
          - by destruct (Hdom txid Hd).
          - by eapply subseteq_dom. }
        split; [by apply (snapshot_of_ok ∅ update (em_mempool_snapshot e1)); [intros ? ?|..]|]. split.
        -- intros txid Hd. destruct (decide (txid ∈ txids)) as [Hin|Hnin].
           ++ left. apply elem_of_dom. rewrite (snapshot_of_lookup _ _ _ _ Hfrom), decide_True by auto.
              apply elem_of_dom. by eapply subseteq_dom.
           ++ right. eexists. split; [done|]. cbn [me_evicted]. by apply Hevict.
        -- intros ev [= <-]. exists height, hash, txids, w1. cbn [me_update me_evicted]. split_and!; [done..|].
           intros txid s. rewrite Hevict. naive_solver.
      * split; [by apply (snapshot_of_ok (em_mempool_snapshot e1) update (em_mempool_snapshot e1))|]. split.
        -- intros txid Hd. left. apply elem_of_dom. rewrite (snapshot_of_lookup _ _ _ _ Hfrom).
           destruct (decide _); apply elem_of_dom; by eapply subseteq_dom.
        -- intros ev [= <-]. exists height, hash, txids, w1. cbn [me_update me_evicted]. split_and!; [done..|].
           intros txid s. rewrite elem_of_nil. naive_solver.
  - intros fuel r e' w' Hrun txid Hd. by eapply next_block_tracked.
Qed.
End mempool.

(** ** Blocks whose filter matches *)

(** Inserting a block hash above the genesis block. *)
Lemma hash_insert (cp : CheckPoint BlockHash) h d :
  cp_wf cp → 0 < h → h ≤ U32_MAX →
  ∃ cp', cp_insert cp h d = Some cp' ∧ cp_wf cp' ∧ cp_map cp' !! h = Some d ∧
    ∀ k, k < h → cp_map cp' !! k = cp_map cp !! k.
Proof.
  intros Hwf Hpos Hmax. pose proof (cp_insert_correct cp h d Hwf Hmax) as Hins.
  assert (insert_panics cp h d = false) as Hnp.
  { unfold insert_panics. destruct (cp_get cp 0) as [n|]; [|done]. unfold genesis_violation, implied_genesis.
    destruct (N.eqb_spec h 0); [lia|]. assert (∀ b : bool, (if b then prev_blockhash d else None) = None) as -> by (by intros []).
    by rewrite andb_false_r. }
  rewrite Hnp in Hins. destruct Hins as (cp' & Hrun & Hwf' & Hcase). exists cp'. split; [done|]. split; [done|].
  destruct (same_at cp h d) eqn:Hs.
  - subst cp'. split; [|done]. unfold same_at in Hs. rewrite cp_map_lookup by done.
    destruct (cp_get cp h) as [n|] eqn:Hn; [|done]. apply N.eqb_eq in Hs. cbn. f_equal.
    apply cp_get_Some in Hn as [Hin _]; [|done].
    pose proof (cp_wf_hash n (cp_wf_iter _ _ Hwf Hin)) as Hh. change (cp_hash n = cp_data n) in Hh. change (cp_hash n = d) in Hs. congruence.
  - assert (∀ k x, cp_map cp' !! k = Some x ↔ (k, x) ∈ insert_blocks cp h d) as Hm by (intros k x; by rewrite cp_map_Some, Hcase by done).
    split; [apply Hm; unfold insert_blocks; set_solver|]. intros k Hk. apply option_eq. intros x.
    rewrite Hm, cp_map_Some by done. unfold insert_blocks. rewrite elem_of_app, elem_of_cons.
    unfold insert_below. rewrite list_elem_of_filter. cbn [fst]. split.
    + intros [Habove|[[= -> _]|[_ ?]]]; [|lia|done]. destruct (insert_keeps_above _ _ _); [|by apply elem_of_nil in Habove].
      apply list_elem_of_filter in Habove as [? _]. cbn in *. lia.
    + intros Hin. right. right. split; [|done]. split; [done|]. unfold conflict_below.
      destruct (checked_sub h 1 ≫= cp_get cp) as [n|]; [|done]. unfold push_conflict. done.
Qed.

(** A node at rest that serves headers and filters; [hit] is what its filters
    answer. *)
Class FilterNode `{BitcoindRpc W} (height_of : BlockHash → N) (best : W → list BlockHash)
    (hit : BlockHash → list Script → bool) : Prop := {
  header_here : ∀ h w, h ∈ best w → ∃ r w', rpc_block_header_info h w = Some (Ok r, w') ∧ best w' = best w ∧
    hr_hash r = h ∧ hr_height r = height_of h ∧ (0 < hr_confirmations r)%Z ∧
    hr_next_block_hash r = best w !! S (N.to_nat (height_of h));
  header_elsewhere : ∀ h w, h ∉ best w → ∃ r w', rpc_block_header_info h w = Some (r, w') ∧ best w' = best w ∧
    match r with Ok r => (hr_confirmations r < 0)%Z | Err e => is_not_found_error e = true end;
  filter_here : ∀ h w, h ∈ best w → ∃ f w', rpc_block_filter h w = Some (Ok f, w') ∧ best w' = best w ∧
    ∀ spks, match_any f h spks = Ok (hit h spks);
}.

Section filter.
Context `{NodeLaws W height_of parent_of best, !QuietNode height_of best, !FilterNode height_of best hit}.
Implicit Types (it : FilterIter) (w : W) (cp a : CheckPoint BlockHash).

Lemma find_base_quiet cp w a :
  agreement (best w) cp = Some a → 
  ∃ r w', find_base (cp_iter cp) w = Some (Ok r, w') ∧ best w' = best w ∧
    hr_next_block_hash r = best w !! S (N.to_nat (height_of (cp_hash a))).
Proof.
  unfold agreement. generalize (cp_iter cp). intros cps. revert w. induction cps as [|n cps IH]; intros w; [done|].
  cbn [List.find find_base]. unfold mbind, eff_bind, try_. case_bool_decide as Hin.
  - intros [= <-]. destruct (header_here _ _ Hin) as (r & w' & -> & Hq & _ & _ & Hc & Hn). exists r, w'.
    rewrite bool_decide_false by lia. done.
  - intros Ha. destruct (header_elsewhere _ _ Hin) as (r & w' & -> & Hq & Hr). rewrite <-Hq in *.
    destruct (IH w' Ha) as (r' & w2 & Hrun & ? & ?). exists r', w2. destruct r as [r|e].
    + rewrite bool_decide_true by lia. done.
    + rewrite Hr. done.
Qed.

(** The next call goes on above height [b]. *)
Definition located it w (b : nat) : Prop :=
  cp_wf (fi_cp it) ∧ (b < length (best w))%nat ∧
  ∃ hdr w1, (match fi_header it with Some header => mret header | None => find_base (cp_iter (fi_cp it)) end) w =
    Some (Ok hdr, w1) ∧ best w1 = best w ∧ hr_next_block_hash hdr = best w !! S b.

(** The event of the block [hash] at height [h]. *)
Definition event_of (spks : list Script) (ev : FilterEvent ChainBlock) (block : N * BlockHash) : Prop :=
  cp_map (fe_cp ev) !! block.1 = Some block.2 ∧
  match fe_block ev with
  | Some b => hit block.2 spks = true ∧ block_hash b = block.2
  | None => hit block.2 spks = false
  end.

Lemma filter_event_run spks cp hash w :
  hash ∈ best w →
  ∃ ev w', filter_event spks cp hash w = Some (Ok ev, w') ∧ best w' = best w ∧ fe_cp ev = cp ∧
    match fe_block ev with
    | Some b => hit hash spks = true ∧ block_hash b = hash
    | None => hit hash spks = false
    end.
Proof.
  intros Hin. unfold filter_event, rpc, mbind, eff_bind, try_.
  destruct (filter_here hash w Hin) as (f & w1 & -> & Hq & Hm). cbn. rewrite Hm.
  destruct (hit hash spks) eqn:Hhit.
  - rewrite <-Hq in Hin. destruct (block_run hash w1 Hin) as (b & w2 & -> & Hq2 & Hb). cbn.
    eexists _, w2. split; [reflexivity|]. split; [congruence|]. done.
  - eexists _, w1. split; [reflexivity|]. done.
Qed.

Lemma filter_iter_step fuel it w b :
  located it w b →
  match best w !! S b with
  | Some hash => ∃ ev hdr w', filter_iter_next fuel (it, w) = Some (Ok (Some ev), (mkFilterIter (fi_spks it) (fe_cp ev) (Some hdr), w')) ∧
      best w' = best w ∧ located (mkFilterIter (fi_spks it) (fe_cp ev) (Some hdr)) w' (S b) ∧
      event_of (fi_spks it) ev (N.of_nat (S b), hash) ∧
      ∀ k, k ≤ N.of_nat b → cp_map (fe_cp ev) !! k = cp_map (fi_cp it) !! k
  | None => ∃ w', filter_iter_next fuel (it, w) = Some (Ok None, (mkFilterIter (fi_spks it) (fi_cp it) None, w'))
  end.
Proof.
  intros (Hwf & Hb & hdr & w1 & Hrun & Hq1 & Hnext).
  unfold filter_iter_next, mbind, eff_bind, gets, modify, on_snd, zoom. cbn [fst snd fi_spks fi_cp].
  rewrite Hrun, Hnext. cbn [fst snd].
  destruct (best w !! S b) as [hash|] eqn:Hh; [|by eexists].
  assert (hash ∈ best w1) as Hin1 by (rewrite Hq1; by eapply list_elem_of_lookup_2).
  pose proof (best_height w _ _ Hh) as Hheight. pose proof (best_elem_height w1 hash Hin1) as [Hmax _].
  destruct (header_here hash w1 Hin1) as (nh & w2 & Hnh & Hq2 & Hhash & Hhh & Hc & Hnn).
  cbn [fst snd]. assert (rpc (rpc_block_header_info hash) w1 = Some (Ok nh, w2)) as -> by (unfold rpc, mbind, eff_bind, try_; by rewrite Hnh).
  cbn [fst snd]. assert (rewind fuel nh w2 = Some (Ok nh, w2)) as -> by (destruct fuel; cbn [rewind]; by rewrite bool_decide_false by lia).
  rewrite Hhash, Hhh, Hheight. destruct (N.ltb_spec U32_MAX (N.of_nat (S b))); [lia|].
  destruct (hash_insert (fi_cp it) (N.of_nat (S b)) hash Hwf) as (cp & -> & Hwf' & Hcp & Hbelow); [lia|lia|].
  assert (hash ∈ best w2) as Hin2 by congruence.
  destruct (filter_event_run (fi_spks it) cp hash w2 Hin2) as (ev & w3 & Hev & Hq3 & Hecp & Hblock). cbn [fst snd].
  rewrite Hev. exists ev, nh, w3. cbn. rewrite Hecp. split; [done|]. split; [congruence|]. split; [|split].
  - split; [done|]. apply lookup_lt_Some in Hh. rewrite Hq3, Hq2, Hq1. split; [done|].
    exists nh, w3. split; [done|]. rewrite Hnn, Hheight, Nat2N.id, Hq1. split; [congruence|done].
  - split; [by rewrite Hecp|done].
  - intros k Hk. apply Hbelow. lia.
Qed.

(** [for event in filter_iter] *)
Fixpoint filter_all (fuel turns : nat) : Eff (FilterIter * W) FilterIterError (list (FilterEvent ChainBlock)) :=
  match turns with
  | O => hang
  | S turns =>
    next ← filter_iter_next fuel;
    match next with
    | None => mret []
    | Some ev => evs ← filter_all fuel turns; mret (ev :: evs)
    end
  end.

Lemma filter_all_step fuel turns s r s1 :
  filter_iter_next fuel s = Some (Ok r, s1) →
  filter_all fuel (S turns) s =
    match r with
    | None => Some (Ok [], s1)
    | Some ev =>
      match filter_all fuel turns s1 with
      | Some (Ok evs, s2) => Some (Ok (ev :: evs), s2)
      | x => x
      end
    end.
Proof.
  intros Hrun. cbn [filter_all]. unfold mbind, eff_bind. rewrite Hrun.
  destruct r; [|done]. by destruct (filter_all fuel turns s1) as [[[?|?] ?]|].
Qed.

Lemma filter_all_located fuel turns it w b :
  located it w b → (length (best w) - S b < turns)%nat →
  ∃ evs it' w', filter_all fuel turns (it, w) = Some (Ok evs, (it', w')) ∧
    Forall2 (event_of (fi_spks it)) evs (blocks_from (best w) (N.of_nat (S b))) ∧
    (∀ k, k ≤ N.of_nat b → cp_map (fi_cp it') !! k = cp_map (fi_cp it) !! k) ∧
    ∀ k hash, N.of_nat b < k → best w !! N.to_nat k = Some hash → cp_map (fi_cp it') !! k = Some hash.
Proof.
  induction turns as [|turns IH] in it, w, b |- *; intros Hl Hturns; [lia|].
  pose proof (filter_iter_step fuel it w b Hl) as Hstep. destruct (best w !! S b) as [hash|] eqn:Hh.
  - destruct Hstep as (ev & hdr & w1 & Hrun & Hq & Hl1 & Hev & Hkeep).
    apply lookup_lt_Some in Hh as Hlt.
    destruct (IH _ _ _ Hl1) as (evs & it' & w' & Hevs & Hall & Hlow & Hhigh); [rewrite Hq; lia|]. cbn [fi_spks fi_cp] in *.
    exists (ev :: evs), it', w'. rewrite (filter_all_step _ _ _ _ _ Hrun), Hevs. split_and!; [done|..].
    + rewrite (blocks_from_cons _ _ hash) by (by rewrite Nat2N.id). constructor; [done|].
      rewrite Hq in Hall. by replace (N.of_nat (S b) + 1) with (N.of_nat (S (S b))) by lia.
    + intros k Hk. rewrite Hlow by lia. by apply Hkeep.
    + intros k hk Hk Hbest. destruct (decide (k = N.of_nat (S b))) as [->|Hne].
      * rewrite Hlow by lia. rewrite Nat2N.id in Hbest. destruct Hev as [Hev _]. cbn in Hev. congruence.
      * apply Hhigh; [lia|by rewrite Hq].
  - destruct Hstep as (w1 & Hrun). exists [], (mkFilterIter (fi_spks it) (fi_cp it) None), w1.
    rewrite (filter_all_step _ _ _ _ _ Hrun). split_and!; [done|by rewrite blocks_from_nil by (by rewrite Nat2N.id)|done|].
    intros k hk Hk Hbest. apply lookup_ge_None in Hh. apply lookup_lt_Some in Hbest. lia.
Qed.

(** C34. On a node at rest the filter iterator yields one event for every block of
    the best chain above the agreement with its checkpoints, in order; the
    event has the block exactly when the filter matches the scripts, and its
    checkpoint holds the block at its height; afterwards the iterator's
    checkpoints agree with the best chain at all those heights. *)
Theorem filter_iter_complete fuel it w a :
  cp_wf (fi_cp it) → fi_header it = None → agreement (best w) (fi_cp it) = Some a →
  height_of (cp_hash a) = cp_height a →
  ∃ evs it' w', filter_all fuel (S (length (best w))) (it, w) = Some (Ok evs, (it', w')) ∧
    Forall2 (event_of (fi_spks it)) evs (blocks_from (best w) (cp_height a + 1)) ∧
    (∀ k, k ≤ cp_height a → cp_map (fi_cp it') !! k = cp_map (fi_cp it) !! k) ∧
    ∀ k hash, cp_height a < k → best w !! N.to_nat k = Some hash → cp_map (fi_cp it') !! k = Some hash.
Proof.
  intros Hwf Hnone Ha Hheight. destruct (find_base_quiet _ _ _ Ha) as (hdr & w1 & Hrun & Hq & Hnext).
  apply find_some in Ha as [_ Hbest%bool_decide_eq_true]. apply best_elem_height in Hbest as [_ Hbest].
  rewrite Hheight in *. apply lookup_lt_Some in Hbest.
  destruct (filter_all_located fuel (S (length (best w))) it w (N.to_nat (cp_height a))) as (evs & it' & w' & Hevs & Hall & Hlow & Hhigh).
  - split; [done|]. split; [done|]. exists hdr, w1. rewrite Hnone. done.
  - lia.
  - exists evs, it', w'. replace (N.of_nat (S (N.to_nat (cp_height a)))) with (cp_height a + 1) in Hall by lia.
    rewrite N2Nat.id in *. done.
Qed.

(** Rewinding out of a stale branch ends, at the latest at the genesis block. *)
Lemma rewind_returns fuel header w :
  (∀ h w r w', rpc_block_header_info h w = Some (Ok r, w') → hr_height r = height_of h ∧
    ∀ p, hr_previous_block_hash r = Some p → height_of p < height_of h) →
  (∀ h, returns (rpc_block_header_info h)) →
  (∀ p, hr_previous_block_hash header = Some p → height_of p < N.of_nat fuel) →
  is_Some (rewind fuel header w).
Proof.
  intros Hprev Hret. induction fuel as [|fuel IH] in header, w |- *; intros Hf; cbn [rewind];
    (case_bool_decide; [|by eexists]); destruct (hr_previous_block_hash header) as [p|]; try by eexists.
  - specialize (Hf p eq_refl). lia.
  - specialize (Hf p eq_refl). unfold rpc, mbind, eff_bind, try_.
    destruct (Hret p w) as [[[r|err] w'] Hrun]; rewrite Hrun; cbn; [|by eexists].
    apply IH. intros p' Hp'. destruct (Hprev _ _ _ _ Hrun) as [_ Hlt]. specialize (Hlt p' Hp'). lia.
Qed.
End filter.
