(* ===== verification/BitcoindSamples.v ===== *)
(** * A node with two branches

    Blocks 1 to 3, and a fork of blocks 101 to 104, above the same genesis
    block 0; the height of a block is what is left of its hash modulo 100.  Two
    corners: a reorganisation below the start height, and a stale checkpoint
    that the filter iterator keeps. *)
From S2P Require Import Prelude Effects Block CheckPoint CheckPointFacts Samples LocalChain LocalChainFacts Tx TxSamples SpkIndex IndexedGraph IndexedSamples Bitcoind BitcoindSpec BitcoindMempool.
#[local] Open Scope N_scope.

Record ForkNode := mkForkNode { on_fork : bool; pool : list SampleTx }.
Implicit Types (w : ForkNode) (h : BlockHash).

Definition branch (fork : bool) : list BlockHash := if fork then [0; 101; 102; 103; 104] else [0; 1; 2; 3].
Definition fork_best w : list BlockHash := branch (on_fork w).
Definition fork_height h : N := h mod 100.
Definition fork_parent h : BlockHash := if h =? 101 then 0 else h - 1.
Definition fork_known h : bool := bool_decide (h ∈ branch true ++ branch false).
Definition in_best w h : bool := bool_decide (h ∈ fork_best w).
Definition fork_next w h : option BlockHash := if in_best w h then fork_best w !! S (N.to_nat (fork_height h)) else None.
Definition fork_prev h : option BlockHash := if h =? 0 then None else Some (fork_parent h).
Definition fork_block h : SampleBlock := mkSampleBlock h 0 [].

Definition answer {A} (f : ForkNode → result Z A) : Eff ForkNode Z A := λ w, Some (f w, w).
Definition confirmations w h : Z := if in_best w h then 1 else -1.

#[export] Instance fork_rpc : BitcoindRpc ForkNode := {
  RpcError := Z;
  rpc_error_code := Some;
  rpc_block_count := answer (λ w, Ok (N.of_nat (length (fork_best w)) - 1));
  rpc_block_hash n := answer (λ w, match fork_best w !! N.to_nat n with Some h => Ok h | None => Err (-8)%Z end);
  rpc_block_info h := answer (λ w, if fork_known h
    then Ok (mkGetBlockResult h (confirmations w h) (fork_height h) (fork_next w h)) else Err (-5)%Z);
  rpc_block_header_info h := answer (λ w, if fork_known h
    then Ok (mkGetBlockHeaderResult h (confirmations w h) (fork_height h) (fork_prev h) (fork_next w h)) else Err (-5)%Z);
  rpc_block h := answer (λ w, if fork_known h then Ok (fork_block h) else Err (-5)%Z);
  rpc_raw_mempool := answer (λ w, Ok (sample_txid <$> pool w));
  rpc_raw_transaction txid := answer (λ w,
    match List.find (λ tx, sample_txid tx =? txid) (pool w) with Some tx => Ok tx | None => Err (-5)%Z end);
  BlockFilter := N;
  FilterError := unit;
  rpc_block_filter h := answer (λ w, Ok h);
  match_any f _ spks := Ok (bool_decide ((f mod 100 : Script) ∈ spks));
}.

Lemma branch_lookup fork i h :
  branch fork !! i = Some h → fork_height h = N.of_nat i ∧ fork_known h = true ∧
    ∀ h', branch fork !! S i = Some h' → fork_parent h' = h.
Proof.
  destruct fork; unfold branch;
    do 5 (destruct i as [|i]; [cbn; first [done|intros [= <-]; split_and!; [done|done|by intros ? [= <-]]]|]);
    by destruct i.
Qed.

Lemma in_best_known w h : h ∈ fork_best w → fork_known h = true.
Proof. intros [i Hi]%list_elem_of_lookup. by apply branch_lookup in Hi as (? & ? & _). Qed.

Lemma fork_next_best w h : h ∈ fork_best w → fork_next w h = fork_best w !! S (N.to_nat (fork_height h)).
Proof. intros Hin. unfold fork_next, in_best. by rewrite bool_decide_true. Qed.

#[export] Instance fork_laws : NodeLaws fork_height fork_parent fork_best.
Proof.
  split; try (by intros; eexists).
  - intros []. by destruct on_fork0.
  - intros []. by destruct on_fork0.
  - intros w i h Hi. by apply branch_lookup in Hi as (? & ? & _).
  - intros w i h h' Hi Hs. apply branch_lookup in Hi as (_ & _ & Hp). by apply Hp.
  - intros n w h w'. cbn. unfold answer. by destruct (fork_best w !! N.to_nat n); intros [= <- <-].
  - intros h w res w'. cbn. unfold answer. destruct (fork_known h); [|done]. intros [= <- <-]. cbn. split_and!; [done..| |].
    + unfold confirmations, in_best. case_bool_decide; split; try done; lia.
    + intros n. unfold fork_next, in_best. case_bool_decide as Hin; [|done].
      apply list_elem_of_lookup in Hin as [i Hi]. pose proof (branch_lookup _ _ _ Hi) as (-> & _ & Hp). rewrite Nat2N.id.
      intros Hn. split; [by apply Hp|]. apply branch_lookup in Hn as [-> _]. lia.
  - intros h w b w'. cbn. unfold answer. destruct (fork_known h); [|done]. by intros [= <- <-].
Qed.

#[export] Instance fork_quiet : QuietNode fork_height fork_best.
Proof.
  split; try (by intros ? ? ? ? [= _ <-]).
  - intros n w h err w' Hh. cbn. unfold answer. by rewrite Hh.
  - intros h w err w'. cbn. unfold answer. destruct (fork_known h) eqn:Hk; [done|]. intros [= <- <-]. split; [done|].
    intros Hin%in_best_known. congruence.
  - intros h w err w' Hin. cbn. unfold answer. by rewrite (in_best_known w).
  - intros h w res w'. cbn. unfold answer. destruct (fork_known h); [|done]. intros [= <- <-] Hin. by apply fork_next_best.
Qed.

#[export] Instance fork_mempool : MempoolLaws.
Proof.
  intros txid w tx w'. cbn. unfold answer. destruct (List.find _ _) as [t|] eqn:Hf; [|done]. intros [= <- <-].
  apply find_some in Hf as [_ Hf]. apply N.eqb_eq. exact Hf.
Qed.

#[export] Instance fork_filters : FilterNode fork_height fork_best (λ h spks, bool_decide ((h mod 100 : Script) ∈ spks)).
Proof.
  split.
  - intros h w Hin. cbn. unfold answer. rewrite (in_best_known w) by done. eexists _, w. split; [reflexivity|].
    cbn. unfold confirmations, in_best. rewrite bool_decide_true by done. split_and!; [done..|by apply fork_next_best].
  - intros h w Hin. cbn. unfold answer. destruct (fork_known h); (eexists _, w; split; [reflexivity|]); split; try done.
    cbn. unfold confirmations, in_best. by rewrite bool_decide_false.
  - intros h w Hin. exists h, w. done.
Qed.

(** A call that came back without an error, told apart by a test of its result. *)
Definition goes {S E A} (m : option (result E A * S)) (test : A → S → bool) : bool :=
  match m with Some (Ok a, s) => test a s | _ => false end.

Lemma goes_run {S E A} (m : option (result E A * S)) test :
  goes m test = true → ∃ a s, m = Some (Ok a, s) ∧ test a s = true.
Proof. destruct m as [[[a|] s]|]; [|done..]. intros Ht. by exists a, s. Qed.

(** ** An emitter that has seen blocks 1 to 3 *)

Definition seen_chain : CheckPoint BlockHash := sample_chain 0 0 [(1, 1); (2, 2); (3, 3)].
Definition seen_emitter : Emitter := emitter_new seen_chain 0 [].
Definition forked : ForkNode := mkForkNode true [].

Lemma seen_chain_wf : cp_wf seen_chain.
Proof. by apply sample_chain_wf. Qed.

Lemma seen_ok : emitter_ok (height_of:=fork_height) (parent_of:=fork_parent) seen_emitter.
Proof.
  split; [apply seen_chain_wf| |done]. intros n Hn.
  assert (Forall (λ n, fork_height (cp_hash n) = cp_height n) (cp_iter seen_chain)) as Hall by by repeat constructor.
  rewrite Forall_forall in Hall. by apply Hall.
Qed.

Lemma seen_reachable : emitter_reachable (height_of:=fork_height) seen_emitter.
Proof. constructor; [apply seen_chain_wf|]. apply (eo_heights _ seen_ok). Qed.

(** The node has switched to the fork: block 101 is emitted on the genesis block. *)
Lemma emitted_blocks_connect_witness :
  ∃ ev s p, next_block 3 (seen_emitter, forked) = Some (Ok (Some ev), s) ∧ be_block_hash ev = 101 ∧
    lowered (best:=fork_best) p seen_chain ∧ be_connected_to ev = cp_block_id p.
Proof.
  pose proof (emitted_blocks_connect 3 seen_emitter forked seen_reachable) as Hall.
  assert (goes (next_block 3 (seen_emitter, forked)) (λ ev _,
    match ev with Some ev => be_block_hash ev =? 101 | None => false end) = true) as Hgoes by (vm_compute; reflexivity).
  apply goes_run in Hgoes as ([ev|] & [e' w'] & Hrun & Htest); [|done].
  rewrite Hrun in Hall. destruct Hall as (_ & _ & p & Hlow & Hp & _).
  exists ev, (e', w'), p. split; [exact Hrun|]. split; [by apply N.eqb_eq|]. split; [exact Hlow|exact Hp].
Defined.

Definition fork_blocks : list (N * BlockHash) := [(1, 101); (2, 102); (3, 103); (4, 104)].

Lemma emitter_catches_up_witness :
  ∃ evs e' w', emit_all 2 6 (seen_emitter, forked) = Some (Ok evs, (e', w')) ∧ event_block <$> evs = fork_blocks ∧
    cp_hash (em_last_cp e') = 104.
Proof.
  destruct (emitter_catches_up 0 seen_emitter forked (sample_chain 0 0 []) seen_ok)
    as (evs & e' & w' & Hrun & Hevs & _ & _ & Hlast & _); [done..|by vm_compute; lia|].
  exists evs, e', w'. split; [exact Hrun|]. split; [exact Hevs|]. by injection Hlast as <-.
Defined.

Lemma seen_lc_wf : lc_wf (mkLocalChain seen_chain).
Proof. split; [apply seen_chain_wf|]. by exists 0. Qed.

Lemma chain_follows_emitter_witness :
  ∃ evs e' w' c', emit_all 2 6 (seen_emitter, forked) = Some (Ok evs, (e', w')) ∧
    apply_events (λ _ _, false) (mkLocalChain seen_chain) evs = Some (Ok c') ∧ cp_hash (lc_tip c') = 104.
Proof.
  destruct (chain_follows_emitter (λ _ _, false) ltac:(done) 0 seen_emitter forked (sample_chain 0 0 []) (mkLocalChain seen_chain) seen_ok)
    as (evs & e' & w' & r & Hrun & Happ & Hres);
    [done|done|by vm_compute; lia|by vm_compute; lia|apply seen_lc_wf|done|].
  exists evs, e', w'. destruct r as [c'|err].
  - exists c'. split; [exact Hrun|]. split; [exact Happ|].
    destruct Hres as (_ & _ & _ & Hlast). by injection Hlast as <-.
  - destruct Hres as [Hno _]. destruct Hno. right. exists (sample_chain 0 0 [(1, 1)]). split; [|split; reflexivity]. apply list_elem_of_In. right; right; left. reflexivity.
Defined.

(** ** The mempool *)

(** The emitter is at the tip and tracks a payment that is not in the mempool. *)
Definition tracking : Emitter := emitter_new seen_chain 0 [tx_pay].
Definition at_rest : ForkNode := mkForkNode false [].

Lemma tracking_ok : snapshot_ok (em_mempool_snapshot tracking).
Proof.
  apply (snapshot_ok_insert (H:=SampleBitcoin) ∅). by intros ? ?.
Qed.

Lemma mempool_tracked_witness :
  ∃ ev s, mempool_at 2 9 (tracking, at_rest) = Some (Ok ev, s) ∧ (sample_txid tx_pay, 9) ∈ me_evicted ev.
Proof.
  destruct (mempool_tracked tracking at_rest tracking_ok) as [Hall _].
  assert (goes (mempool_at 2 9 (tracking, at_rest)) (λ _ _, true) = true) as Hgoes by (vm_compute; reflexivity).
  apply goes_run in Hgoes as (ev & [e' w'] & Hrun & _). exists ev, (e', w'). split; [exact Hrun|].
  destruct (Hall _ _ _ _ _ Hrun) as (_ & _ & Hev). destruct (Hev ev eq_refl) as (height & hash & txids & w1 & Hst & _ & _ & Hevict).
  vm_compute in Hst. injection Hst as <- <- <- <-.
  apply Hevict. split_and!; [reflexivity|reflexivity|reflexivity| |by apply not_elem_of_nil].
  apply elem_of_dom. exists tx_pay. unfold tracking, emitter_new. cbn [em_mempool_snapshot foldl]. apply lookup_insert_eq.
Defined.

(** ** The filter iterator *)

Definition wanted : list (Script (Scripts:=SampleScripts)) := [2; 4].

Lemma filter_iter_complete_witness :
  ∃ evs it' w', filter_all 0 6 (filter_iter_new seen_chain wanted, forked) = Some (Ok evs, (it', w')) ∧
    fe_is_match <$> evs = [false; true; false; true] ∧ cp_map (fi_cp it') !! 4 = Some 104.
Proof.
  destruct (filter_iter_complete 0 (filter_iter_new seen_chain wanted) forked (sample_chain 0 0 []))
    as (evs & it' & w' & Hrun & Hall & _ & Hhigh); [apply seen_chain_wf|done..|].
  exists evs, it', w'. split; [exact Hrun|]. split; [|by apply Hhigh].
  apply (f_equal (λ m, match m with Some (Ok evs, _) => fe_is_match <$> evs | _ => [] end)) in Hrun. by rewrite <-Hrun.
Defined.

(** ** Two corners *)

(** A wallet that started at block 2 has seen 2 and 3; all it has seen is
    invalidated.  The emitter goes back to the genesis block and emits block
    101 first, which its checkpoint places at height 1: the local chain
    refuses it, since nothing says what becomes of its block at height 2. *)
Definition late_chain : CheckPoint BlockHash := sample_chain 0 0 [(2, 2); (3, 3)].

Lemma reorg_below_start_refused :
  goes (emit_all 2 6 (emitter_new late_chain 2 [], forked)) (λ evs _,
    bool_decide (event_block <$> evs = fork_blocks) &&
    match apply_events (λ _ _, false) (mkLocalChain late_chain) evs with
    | Some (Err e) => try_include_height e =? 2
    | _ => false
    end) = true.
Proof. vm_compute. reflexivity. Qed.

(** The wallet's checkpoints are the genesis block and block 104, and the node's
    best chain is now blocks 1 to 3: the iterator inserts these below block
    104, so every event claims to be of height 4, and the checkpoint it ends
    with, applied to the wallet's chain, keeps block 104 as the tip. *)
Definition stale_chain : CheckPoint BlockHash := sample_chain 0 0 [(4, 104)].

Lemma filter_iter_keeps_stale_block :
  goes (filter_all 0 6 (filter_iter_new stale_chain wanted, at_rest)) (λ evs s,
    bool_decide (fe_height <$> evs = [4; 4; 4]) &&
    match apply_update (λ _ _, false) (mkLocalChain stale_chain) (fi_cp s.1) with
    | Some (Ok (c, _)) => cp_hash (lc_tip c) =? 104
    | _ => false
    end) = true.
Proof. vm_compute. reflexivity. Qed.
