(* ===== verification/MmrIndex.v ===== *)
(** * Positions of a Merkle mountain range

    Models the index arithmetic of [crates/mweb/src/pmmr.rs]: the post-order
    position of a leaf and of a node, heights, siblings, children, and the
    peaks of an incomplete range.  A node is described by its height [h] and
    its number [k] among the nodes of that height; [node_pos h k] is its
    position, and the lemmas say what each function of the code computes in
    those terms. *)
From S2P Require Import Prelude.

#[local] Open Scope N_scope.

(** ** The code *)

(** [u64::count_ones] and [u64::trailing_zeros]. *)
Fixpoint pos_ones (p : positive) : N :=
  match p with
  | xH => 1
  | xO p => pos_ones p
  | xI p => pos_ones p + 1
  end.
Definition count_ones (n : N) : N := match n with N0 => 0 | Npos p => pos_ones p end.

Fixpoint pos_trailing_zeros (p : positive) : N :=
  match p with
  | xO p => pos_trailing_zeros p + 1
  | _ => 0
  end.
Definition trailing_zeros (n : N) : N :=
  match n with N0 => 64 | Npos p => pos_trailing_zeros p end.

Definition checked_leaf_position (leaf_index : N) : option N :=
  (λ p, p - count_ones leaf_index) <$> checked_mul_u64 leaf_index 2.

Definition leaf_position (leaf_index : N) : N :=
  default U64_MAX (checked_leaf_position leaf_index).

Definition num_nodes_for_leaves (num_leaves : N) : N := leaf_position num_leaves.

Definition or_shifted (x s : N) : N := N.lor x (N.shiftr x s).
Definition fill_ones_to_right (input : N) : N :=
  or_shifted (or_shifted (or_shifted (or_shifted (or_shifted (or_shifted
    input 1) 2) 4) 8) 16) 32.

Definition count_rightmost_zeros (input : N) : N :=
  if input =? 0 then 64 else trailing_zeros input.

(** [while peak_size != 0]: a [u64] is halved to zero in 64 turns. *)
Fixpoint index_height_loop (fuel : nat) (height peak_size : N) : N :=
  match fuel with
  | O => height
  | S fuel =>
    if peak_size =? 0 then height
    else
      index_height_loop fuel
        (if peak_size <=? height then height - peak_size else height)
        (N.shiftr peak_size 1)
  end.
Definition index_height (position : N) : N :=
  index_height_loop 64 position (fill_ones_to_right position).

Record Index := mkIndex { idx_position : N; idx_height : N }.

#[export] Instance Index_eq_dec : EqDecision Index.
Proof. solve_decision. Defined.

Definition index_at (position : N) : Index := mkIndex position (index_height position).

Definition is_leaf (i : Index) : bool := idx_height i =? 0.

(** Arithmetic that leaves the width is [None]. *)
Definition sibling (i : Index) : option Index :=
  p1 ← checked_add_u64 (idx_position i) 1;
  h1 ← checked_add_u64 (idx_height i) 1;
  size ← checked_shl_u64 1 h1;
  if index_height p1 =? h1 then
    p ← checked_sub p1 size;
    Some (mkIndex p (idx_height i))
  else
    p' ← checked_add_u64 (idx_position i) size;
    p ← checked_sub p' 1;
    Some (mkIndex p (idx_height i)).

Definition left_child (i : Index) : option Index :=
  offset ← checked_shl_u64 1 (idx_height i);
  p ← checked_sub (idx_position i) offset;
  h ← checked_sub (idx_height i) 1;
  Some (mkIndex p h).

Definition right_child (i : Index) : option Index :=
  p ← checked_sub (idx_position i) 1;
  h ← checked_sub (idx_height i) 1;
  Some (mkIndex p h).

Definition index_next (i : Index) : option Index :=
  index_at <$> checked_add_u64 (idx_position i) 1.

Fixpoint peak_indices_loop (fuel : nat) (acc : list Index)
    (peak_size num_left sum_prev : N) : option (list Index) :=
  match fuel with
  | O => Some acc
  | S fuel =>
    if peak_size =? 0 then Some acc
    else if peak_size <=? num_left then
      sum ← checked_add_u64 sum_prev peak_size;
      p ← checked_sub sum 1;
      peak_indices_loop fuel (acc ++ [index_at p]) (N.shiftr peak_size 1)
        (num_left - peak_size) sum
    else peak_indices_loop fuel acc (N.shiftr peak_size 1) num_left sum_prev
  end.
Definition peak_indices (num_nodes : N) : option (list Index) :=
  if num_nodes =? 0 then Some []
  else peak_indices_loop 64 [] (fill_ones_to_right num_nodes) num_nodes 0.

(** ** Counting bits *)

Lemma count_ones_double n : count_ones (2 * n) = count_ones n.
Proof. by destruct n. Qed.

Lemma count_ones_succ_double n : count_ones (2 * n + 1) = count_ones n + 1.
Proof. by destruct n. Qed.

(** Cases on the last bit. *)
Lemma N_parity (n : N) : ∃ m, n = 2 * m ∨ n = 2 * m + 1.
Proof. destruct (N.Even_or_Odd n) as [[m ->]|[m ->]]; eauto. Qed.

Lemma count_ones_le n : count_ones n ≤ n.
Proof.
  induction n as [n IH] using (well_founded_induction N.lt_wf_0).
  destruct (N_parity n) as [m [-> | ->]].
  - rewrite count_ones_double. destruct (decide (m = 0)) as [->|]; [done|].
    specialize (IH m). lia.
  - rewrite count_ones_succ_double. specialize (IH m). lia.
Qed.

(** Powers of two, with the height of a node as a natural number. *)
Definition pw (h : nat) : N := 2 ^ N.of_nat h.

Lemma pw_0 : pw 0 = 1.
Proof. done. Qed.
Lemma pw_S h : pw (S h) = 2 * pw h.
Proof. unfold pw. by rewrite Nat2N.inj_succ, N.pow_succ_r'. Qed.
Lemma pw_pos h : 0 < pw h.
Proof. unfold pw. by apply N.neq_0_lt_0, N.pow_nonzero. Qed.
Lemma pw_add a b : pw (a + b) = pw a * pw b.
Proof. unfold pw. by rewrite Nat2N.inj_add, N.pow_add_r. Qed.
Lemma pw_le a b : (a ≤ b)%nat → pw a ≤ pw b.
Proof. intros ?. unfold pw. apply N.pow_le_mono_r; lia. Qed.
Lemma pw_lt a b : (a < b)%nat → pw a < pw b.
Proof. intros ?. unfold pw. apply N.pow_lt_mono_r; lia. Qed.
Lemma pw_gt h : N.of_nat h < pw h.
Proof. induction h; [done|]. rewrite pw_S. lia. Qed.
Lemma pw_64 : pw 64 = U64_MAX + 1.
Proof. done. Qed.

Lemma count_ones_mul_pw k h : count_ones (k * pw h) = count_ones k.
Proof.
  induction h as [|h IH]; [by rewrite pw_0, N.mul_1_r|].
  rewrite pw_S. replace (k * (2 * pw h)) with (2 * (k * pw h)) by lia.
  by rewrite count_ones_double.
Qed.

(** No carries: the bits of a shifted number and of a remainder add up. *)
Lemma count_ones_add k b h :
  b < pw h → count_ones (k * pw h + b) = count_ones k + count_ones b.
Proof.
  revert b. induction h as [|h IH]; intros b; [rewrite pw_0; intros|].
  - replace b with 0 by lia. rewrite N.mul_1_r, !N.add_0_r. done.
  - rewrite pw_S. intros Hb. destruct (N_parity b) as [m [-> | ->]].
    + replace (k * (2 * pw h) + 2 * m) with (2 * (k * pw h + m)) by lia.
      rewrite !count_ones_double. apply IH. lia.
    + replace (k * (2 * pw h) + (2 * m + 1)) with (2 * (k * pw h + m) + 1) by lia.
      rewrite !count_ones_succ_double, IH by lia. lia.
Qed.

Lemma trailing_zeros_double n : 0 < n → trailing_zeros (2 * n) = trailing_zeros n + 1.
Proof. by destruct n. Qed.

Lemma count_ones_succ n :
  count_ones (n + 1) + trailing_zeros (n + 1) = count_ones n + 1.
Proof.
  induction n as [n IH] using (well_founded_induction N.lt_wf_0).
  destruct (N_parity n) as [m [-> | ->]].
  - rewrite count_ones_succ_double, count_ones_double.
    replace (trailing_zeros (2 * m + 1)) with 0 by (by destruct m). lia.
  - replace (2 * m + 1 + 1) with (2 * (m + 1)) by lia.
    rewrite count_ones_double, trailing_zeros_double by lia.
    rewrite count_ones_succ_double, <-IH by lia. lia.
Qed.

(** ** Spreading the highest bit *)

Definition spread (x y r : N) : Prop :=
  ∀ i, N.testbit y i = true ↔ ∃ j, j < r ∧ N.testbit x (i + j) = true.

Lemma spread_or_shifted x y r : spread x y r → spread x (or_shifted y r) (2 * r).
Proof.
  unfold spread. intros H i. unfold or_shifted.
  rewrite N.lor_spec, N.shiftr_spec', orb_true_iff, !H. split.
  - intros [(j & Hj & Hb)|(j & Hj & Hb)]; [exists j|exists (r + j)]; split; try lia; auto.
    by replace (i + (r + j)) with (i + r + j) by lia.
  - intros (j & Hj & Hb). destruct (decide (j < r)); [left; eauto|].
    right. exists (j - r). split; [lia|]. by replace (i + r + (j - r)) with (i + j) by lia.
Qed.

Lemma fill_ones_spread x : spread x (fill_ones_to_right x) 64.
Proof.
  assert (H : spread x x 1).
  { intros i. split; [intros Hi; exists 0; rewrite N.add_0_r; split; [lia|done]|].
    intros (j & Hj & Hb). by replace (i + j) with i in Hb by lia. }
  do 6 apply spread_or_shifted in H. exact H.
Qed.

(** The value is all ones up to the highest bit of the input. *)
Lemma fill_ones_correct x :
  x ≤ U64_MAX →
  ∃ b : nat, (b ≤ 64)%nat ∧ fill_ones_to_right x = pw b - 1 ∧ x < pw b ∧
    (x = 0 → b = 0%nat).
Proof.
  intros Hx. exists (N.to_nat (N.size x)).
  assert (Hs : x < 2 ^ N.size x) by apply N.size_gt.
  assert (N.size x ≤ 64) as Hsz.
  { destruct (decide (x = 0)) as [->|]; [done|]. rewrite N.size_log2 by done.
    assert (N.log2 x < 64); [|lia]. apply N.log2_lt_pow2; [lia|].
    change (2 ^ 64) with (U64_MAX + 1). lia. }
  unfold pw. rewrite N2Nat.id. split_and!; [lia| |done|by intros ->].
  transitivity (N.ones (N.size x)); [|rewrite N.ones_equiv; lia].
  apply N.bits_inj_iff. intros i. apply eq_true_iff_eq. rewrite (fill_ones_spread x i).
  destruct (N.lt_ge_cases i (N.size x)) as [Hi|Hi].
  - rewrite N.ones_spec_low by done. split; [done|]. intros _.
    assert (x ≠ 0) as Hnz by (intros ->; cbn in Hi; lia).
    exists (N.log2 x - i). rewrite N.size_log2 in Hi, Hsz by done. split; [lia|].
    replace (i + (N.log2 x - i)) with (N.log2 x) by lia. by apply N.bit_log2.
  - rewrite N.ones_spec_high by done. split; [|done]. intros (j & _ & Hb).
    destruct (decide (x = 0)) as [->|Hnz]; [by rewrite N.bits_0 in Hb|].
    rewrite N.size_log2 in Hi by done. rewrite N.bits_above_log2 in Hb; [done|lia].
Qed.

Lemma shiftr_ones b : N.shiftr (pw (S b) - 1) 1 = pw b - 1.
Proof.
  rewrite <-N.div2_spec, N.div2_div, pw_S. pose proof (pw_pos b).
  symmetry. apply N.div_unique with 1; lia.
Qed.

(** ** Positions of leaves and nodes *)

(** Without the bound of the machine word. *)
Definition leaf_pos (i : N) : N := 2 * i - count_ones i.

Lemma leaf_position_small i : i * 2 ≤ U64_MAX → leaf_position i = leaf_pos i.
Proof.
  intros Hi. unfold leaf_position, checked_leaf_position, checked_mul_u64.
  rewrite (proj2 (N.leb_le _ _) Hi). simpl. unfold leaf_pos. lia.
Qed.

Lemma leaf_pos_le i : leaf_pos i ≤ 2 * i.
Proof. unfold leaf_pos. lia. Qed.

Lemma leaf_pos_ge i : i ≤ leaf_pos i.
Proof. unfold leaf_pos. pose proof (count_ones_le i). lia. Qed.

Lemma leaf_pos_succ i : leaf_pos (i + 1) = leaf_pos i + 1 + trailing_zeros (i + 1).
Proof.
  unfold leaf_pos. pose proof (count_ones_succ i).
  pose proof (count_ones_le i). pose proof (count_ones_le (i + 1)). lia.
Qed.

Lemma leaf_pos_lt i j : i < j → leaf_pos i < leaf_pos j.
Proof.
  intros Hij. replace j with (i + 1 + (j - i - 1)) by lia. clear Hij.
  generalize (j - i - 1). intros d. induction d as [|d IH] using N.peano_ind.
  - rewrite N.add_0_r, leaf_pos_succ. lia.
  - replace (i + 1 + N.succ d) with (i + 1 + d + 1) by lia. rewrite leaf_pos_succ. lia.
Qed.

Lemma leaf_pos_le_mono i j : i ≤ j → leaf_pos i ≤ leaf_pos j.
Proof.
  intros Hij. destruct (decide (i = j)) as [->|]; [done|].
  apply N.lt_le_incl, leaf_pos_lt. lia.
Qed.

Lemma leaf_pos_inj i j : leaf_pos i = leaf_pos j → i = j.
Proof.
  intros H. destruct (N.lt_trichotomy i j) as [Hl|[?|Hl]]; [|done|];
    apply leaf_pos_lt in Hl; lia.
Qed.

Lemma leaf_pos_add k b h :
  b < pw h → leaf_pos (k * pw h + b) = leaf_pos (k * pw h) + leaf_pos b.
Proof.
  intros Hb. unfold leaf_pos. rewrite count_ones_add, count_ones_mul_pw by done.
  pose proof (count_ones_le b). pose proof (count_ones_le (k * pw h)) as Hk.
  rewrite count_ones_mul_pw in Hk. lia.
Qed.

Lemma leaf_pos_pw h : leaf_pos (pw h) = pw (S h) - 1.
Proof.
  unfold leaf_pos. rewrite <-(N.mul_1_l (pw h)) at 2.
  rewrite count_ones_mul_pw, pw_S. done.
Qed.

(** The [k]-th node of height [h], above the leaves [k * 2^h .. (k + 1) * 2^h - 1]. *)
Definition node_pos (h : nat) (k : N) : N := leaf_pos (k * pw h) + pw (S h) - 2.

Lemma node_pos_eq h k :
  node_pos h k + count_ones k + 2 = 2 * ((k + 1) * pw h) ∧ count_ones k ≤ 2 * (k * pw h).
Proof.
  unfold node_pos, leaf_pos. rewrite count_ones_mul_pw, pw_S.
  pose proof (pw_pos h). pose proof (count_ones_le k).
  assert (k ≤ k * pw h) by nia. lia.
Qed.

Lemma node_pos_0 k : node_pos 0 k = leaf_pos k.
Proof. unfold node_pos. rewrite pw_0, N.mul_1_r. rewrite pw_S, pw_0. lia. Qed.

Lemma node_pos_odd h k : node_pos (S h) k = node_pos h (2 * k + 1) + 1.
Proof.
  pose proof (node_pos_eq h (2 * k + 1)) as H1. pose proof (node_pos_eq (S h) k) as H2.
  rewrite pw_S in H2. rewrite count_ones_succ_double in H1. nia.
Qed.

Lemma node_pos_even h k : node_pos h (2 * k) + pw (S h) = node_pos (S h) k.
Proof.
  pose proof (node_pos_eq h (2 * k)) as H1. pose proof (node_pos_eq (S h) k) as H2.
  rewrite pw_S in *. rewrite count_ones_double in H1. nia.
Qed.

(** After a left child comes the first leaf of its sibling's tree. *)
Lemma node_pos_next_leaf h k : leaf_pos ((2 * k + 1) * pw h) = node_pos h (2 * k) + 1.
Proof.
  pose proof (node_pos_eq h (2 * k)) as H1. unfold leaf_pos.
  rewrite count_ones_mul_pw, count_ones_succ_double. rewrite count_ones_double in H1.
  pose proof (count_ones_le (2 * k)) as Hk. rewrite count_ones_double in Hk.
  pose proof (pw_pos h). assert (k ≤ k * pw h) by nia. nia.
Qed.

Lemma node_pos_sibling h k : node_pos h (2 * k + 1) + 1 = node_pos h (2 * k) + pw (S h).
Proof. by rewrite <-node_pos_odd, node_pos_even. Qed.

(** A node comes before the leaf that follows its tree. *)
Lemma node_pos_lt_leaf h k : node_pos h k < leaf_pos ((k + 1) * pw h).
Proof.
  pose proof (node_pos_eq h k) as H. unfold leaf_pos. rewrite count_ones_mul_pw.
  pose proof (count_ones_succ k). pose proof (count_ones_le (k + 1)).
  pose proof (pw_pos h). assert (k + 1 ≤ (k + 1) * pw h) by nia. lia.
Qed.

Lemma node_pos_bounds h k : (k + 1) * pw h ≤ node_pos h k + 1 ∧ pw (S h) ≤ node_pos h k + 2.
Proof.
  pose proof (node_pos_eq h k) as H. pose proof (count_ones_le k).
  pose proof (pw_pos h). assert (k + 1 ≤ (k + 1) * pw h) by nia. rewrite pw_S. nia.
Qed.

Lemma node_pos_shift j h k :
  (k + 1) * pw h ≤ pw j → (h ≤ j)%nat →
  node_pos h (pw (j - h) + k) = pw (S j) - 1 + node_pos h k.
Proof.
  intros Hk Hj. unfold node_pos. pose proof (pw_pos h).
  replace ((pw (j - h) + k) * pw h) with (1 * pw j + k * pw h).
  - rewrite leaf_pos_add, N.mul_1_l, leaf_pos_pw by nia. rewrite (pw_S h). nia.
  - replace (pw j) with (pw (j - h) * pw h) by (rewrite <-pw_add; f_equal; lia). lia.
Qed.

(** Nodes before a leaf are above leaves before it. *)
Lemma node_before_leaf h k n : node_pos h k < leaf_pos n → (k + 1) * pw h ≤ n.
Proof.
  intros Hlt. destruct (N.le_gt_cases ((k + 1) * pw h) n) as [|Hgt]; [done|exfalso].
  pose proof (node_pos_eq h k) as He. pose proof (pw_pos h).
  destruct (N.le_gt_cases n (k * pw h)) as [Hle|Hin].
  - apply leaf_pos_le_mono in Hle. unfold node_pos in Hlt. rewrite pw_S in Hlt. lia.
  - assert (leaf_pos n ≤ leaf_pos (k * pw h + (pw h - 1))) as Hl by (apply leaf_pos_le_mono; nia).
    rewrite leaf_pos_add in Hl by lia. unfold node_pos in Hlt. rewrite pw_S in Hlt.
    pose proof (leaf_pos_le (pw h - 1)). lia.
Qed.

(** ** Heights *)

(** The root of a perfect tree of height [j], and what lies [d] beyond it. *)
Lemma index_height_loop_root j fuel d :
  (j ≤ fuel)%nat →
  index_height_loop fuel (pw (S j) - 2 + d) (pw j - 1) = N.of_nat j + d.
Proof.
  revert fuel d. induction j as [|j IH]; intros fuel d Hj.
  - destruct fuel; done.
  - destruct fuel as [|fuel]; [lia|]. cbn [index_height_loop].
    pose proof (pw_pos j). rewrite shiftr_ones, !pw_S.
    rewrite (proj2 (N.eqb_neq _ 0)) by lia. rewrite (proj2 (N.leb_le _ _)) by lia.
    replace (2 * (2 * pw j) - 2 + d - (2 * pw j - 1)) with (2 * pw j - 2 + (d + 1)) by lia.
    rewrite <-pw_S, IH by lia. lia.
Qed.

Lemma index_height_loop_node j fuel h k :
  (j ≤ fuel)%nat → (k + 1) * pw h ≤ pw j →
  index_height_loop fuel (node_pos h k) (pw j - 1) = N.of_nat h.
Proof.
  revert fuel h k. induction j as [|j IH]; intros fuel h k Hj Hk.
  - pose proof (pw_gt h). rewrite pw_0 in Hk. assert (h = 0%nat ∧ k = 0) as [-> ->] by nia.
    by destruct fuel.
  - assert (h ≤ S j)%nat as Hh.
    { destruct (decide (h ≤ S j)%nat); [done|].
      assert (pw (S j) < pw h) by (apply pw_lt; lia). nia. }
    destruct (decide (h = S j)) as [->|Hne].
    + pose proof (pw_pos (S j)). assert (k = 0) as -> by nia.
      replace (node_pos (S j) 0) with (pw (S (S j)) - 2 + 0) by
        (unfold node_pos, leaf_pos; simpl; lia).
      rewrite index_height_loop_root by done. lia.
    + destruct fuel as [|fuel]; [lia|]. cbn [index_height_loop]. pose proof (pw_pos j).
      rewrite shiftr_ones. rewrite (proj2 (N.eqb_neq _ 0)) by (rewrite pw_S; lia).
      destruct (N.le_gt_cases ((k + 1) * pw h) (pw j)) as [Hl|Hl].
      * rewrite (proj2 (N.leb_gt _ _)); [apply IH; [lia|done]|].
        rewrite <-leaf_pos_pw. eapply N.lt_le_trans; [apply node_pos_lt_leaf|].
        by apply leaf_pos_le_mono.
      * assert (pw j = pw (j - h) * pw h) as Hpw by (rewrite <-pw_add; f_equal; lia).
        rewrite pw_S in Hk. pose proof (pw_pos h). pose proof (pw_pos (j - h)).
        replace k with (pw (j - h) + (k - pw (j - h))) by nia.
        rewrite node_pos_shift by (nia || lia). rewrite (proj2 (N.leb_le _ _)) by lia.
        rewrite N.add_comm, N.add_sub. apply IH; [lia|nia].
Qed.

Lemma index_height_node h k :
  node_pos h k ≤ U64_MAX → index_height (node_pos h k) = N.of_nat h.
Proof.
  intros Hp. unfold index_height.
  destruct (fill_ones_correct _ Hp) as (b & Hb & -> & Hlt & _).
  apply index_height_loop_node; [done|]. pose proof (node_pos_bounds h k). lia.
Qed.

Lemma node_pos_inj h k h' k' : node_pos h k = node_pos h' k' → h = h' ∧ k = k'.
Proof.
  intros Heq. set (j := N.to_nat ((k + 1) * pw h + (k' + 1) * pw h')).
  pose proof (pw_gt j) as Hj.
  pose proof (index_height_loop_node j j h k) as H1.
  pose proof (index_height_loop_node j j h' k') as H2.
  rewrite Heq, H2 in H1 by lia. assert (h = h') as <- by lia. split; [done|].
  unfold node_pos in Heq. pose proof (pw_pos h). rewrite pw_S in Heq.
  assert (k * pw h = k' * pw h) by (apply leaf_pos_inj; lia). nia.
Qed.

(** Every position is a node's. *)
Lemma node_pos_surj p : ∃ h k, p = node_pos h k.
Proof.
  induction p as [|p (h & k & ->)] using N.peano_ind; [by exists 0%nat, 0|].
  rewrite <-N.add_1_r. destruct (N_parity k) as [m [-> | ->]].
  - exists 0%nat, ((2 * m + 1) * pw h). by rewrite node_pos_0, node_pos_next_leaf.
  - exists (S h), m. by rewrite node_pos_odd.
Qed.

(** ** Indices of nodes *)

Definition node_index (h : nat) (k : N) : Index := mkIndex (node_pos h k) (N.of_nat h).

Lemma index_at_node h k : node_pos h k ≤ U64_MAX → index_at (node_pos h k) = node_index h k.
Proof. intros H. unfold index_at, node_index. by rewrite index_height_node. Qed.

Lemma index_at_leaf i : leaf_pos i ≤ U64_MAX → index_at (leaf_pos i) = node_index 0 i.
Proof. rewrite <-node_pos_0. apply index_at_node. Qed.

Lemma is_leaf_node h k : is_leaf (node_index h k) = bool_decide (h = 0%nat).
Proof. unfold is_leaf. simpl. case_bool_decide; [by subst|]. apply N.eqb_neq. lia. Qed.

Lemma checked_add_u64_small a b : a + b ≤ U64_MAX → checked_add_u64 a b = Some (a + b).
Proof. intros H. unfold checked_add_u64. by rewrite (proj2 (N.leb_le _ _) H). Qed.

Lemma checked_sub_small a b : b ≤ a → checked_sub a b = Some (a - b).
Proof. intros H. unfold checked_sub. by rewrite (proj2 (N.leb_le _ _) H). Qed.

Lemma checked_shl_u64_pw h : (h < 64)%nat → checked_shl_u64 1 (N.of_nat h) = Some (pw h).
Proof.
  intros H. unfold checked_shl_u64. rewrite (proj2 (N.ltb_lt _ _)) by lia.
  rewrite N.shiftl_1_l. f_equal. apply N.mod_small. by apply (pw_lt h 64).
Qed.

(** A node below the top of the machine word is not too high to shift by. *)
Lemma node_height_small h k : node_pos h k ≤ U64_MAX → (h < 64)%nat.
Proof.
  intros H. pose proof (node_pos_bounds h k) as [_ Hb].
  destruct (decide (h < 64)%nat); [done|]. exfalso.
  assert (pw 65 ≤ pw (S h)) by (apply pw_le; lia).
  assert (pw 65 = 36893488147419103232) by done. unfold U64_MAX in *. lia.
Qed.

Lemma left_child_node h k :
  node_pos (S h) k ≤ U64_MAX → left_child (node_index (S h) k) = Some (node_index h (2 * k)).
Proof.
  intros H. unfold left_child. cbn [idx_height idx_position node_index].
  rewrite checked_shl_u64_pw by (by eapply node_height_small). cbn [mbind option_bind].
  rewrite <-node_pos_even, !checked_sub_small, N.add_sub by lia. cbn. unfold node_index. do 2 f_equal. lia.
Qed.

Lemma right_child_node h k :
  right_child (node_index (S h) k) = Some (node_index h (2 * k + 1)).
Proof.
  unfold right_child. cbn [idx_height idx_position node_index].
  rewrite node_pos_odd, !checked_sub_small, N.add_sub by lia. cbn. unfold node_index. do 2 f_equal. lia.
Qed.

Lemma left_child_leaf k : left_child (node_index 0 k) = None.
Proof.
  unfold left_child. cbn [idx_height idx_position node_index].
  destruct (checked_shl_u64 1 _) as [n|]; [|done]. cbn [mbind option_bind].
  by destruct (checked_sub (node_pos 0 k) n).
Qed.

Lemma index_next_node h k :
  node_pos h k < U64_MAX → ∃ next, index_next (node_index h k) = Some next.
Proof.
  intros H. unfold index_next. cbn [idx_position node_index].
  rewrite checked_add_u64_small by lia. by eexists.
Qed.

Lemma index_next_left h k :
  node_pos h (2 * k) < U64_MAX →
  index_next (node_index h (2 * k)) = Some (node_index 0 ((2 * k + 1) * pw h)).
Proof.
  intros H. unfold index_next. cbn [idx_position node_index].
  rewrite checked_add_u64_small by lia. cbn.
  rewrite <-node_pos_next_leaf, index_at_leaf; [done|]. rewrite node_pos_next_leaf. lia.
Qed.

Lemma index_next_right h k :
  node_pos h (2 * k + 1) < U64_MAX →
  index_next (node_index h (2 * k + 1)) = Some (node_index (S h) k).
Proof.
  intros H. unfold index_next. cbn [idx_position node_index].
  rewrite checked_add_u64_small by lia. cbn.
  rewrite <-node_pos_odd, index_at_node; [done|]. rewrite node_pos_odd. lia.
Qed.

Lemma sibling_node h k :
  node_pos (S h) k ≤ U64_MAX →
  sibling (node_index h (2 * k)) = Some (node_index h (2 * k + 1)) ∧
  sibling (node_index h (2 * k + 1)) = Some (node_index h (2 * k)).
Proof.
  intros H. pose proof (node_height_small _ _ H) as Hh.
  pose proof (node_pos_even h k) as He. pose proof (node_pos_sibling h k) as Hs.
  pose proof (pw_pos (S h)).
  unfold sibling. cbn [idx_height idx_position node_index].
  assert (checked_add_u64 (N.of_nat h) 1 = Some (N.of_nat (S h))) as ->.
  { rewrite checked_add_u64_small; [f_equal; lia|]. unfold U64_MAX. lia. }
  assert (node_pos h (2 * k) + 1 ≤ U64_MAX) by lia.
  split.
  - rewrite checked_add_u64_small by lia. cbn [mbind option_bind].
    rewrite checked_shl_u64_pw by done. cbn [mbind option_bind].
    rewrite <-node_pos_next_leaf at 1. rewrite <-node_pos_0, index_height_node by
      (rewrite node_pos_0, node_pos_next_leaf; lia).
    rewrite (proj2 (N.eqb_neq _ _)) by lia.
    rewrite checked_add_u64_small by lia. cbn [mbind option_bind].
    rewrite checked_sub_small by lia. cbn. unfold node_index. do 2 f_equal. lia.
  - rewrite checked_add_u64_small, <-node_pos_odd by lia. cbn [mbind option_bind].
    rewrite checked_shl_u64_pw by done. cbn [mbind option_bind].
    rewrite index_height_node, N.eqb_refl by done.
    rewrite checked_sub_small by lia. cbn. unfold node_index. do 2 f_equal. lia.
Qed.

(** ** Peaks *)

(** A range of [n] leaves is a row of perfect trees, one for each bit of [n],
    the highest first. *)
Fixpoint mountains (j : nat) (n : N) : list (nat * N) :=
  match j with
  | O => []
  | S j =>
    if N.testbit n (N.of_nat j) then (j, n / pw j - 1) :: mountains j n
    else mountains j n
  end.
Definition mountain_range (n : N) : list (nat * N) := mountains 64 n.

(** The trees of [l] cover the leaves [a .. b - 1] from left to right. *)
Fixpoint tiles (a : N) (l : list (nat * N)) (b : N) : Prop :=
  match l with
  | [] => a = b
  | (h, k) :: l => k * pw h = a ∧ tiles ((k + 1) * pw h) l b
  end.

Definition peak_index (p : nat * N) : Index := node_index p.1 p.2.

Lemma split_bit n j :
  ∃ a r, n = a * pw (S j) + r ∧ r < pw (S j) ∧
    N.testbit n (N.of_nat j) = (pw j <=? r) ∧
    n / pw (S j) = a ∧ n mod pw (S j) = r ∧
    n / pw j = 2 * a + (if pw j <=? r then 1 else 0) ∧
    n mod pw j = r - (if pw j <=? r then pw j else 0).
Proof.
  pose proof (pw_pos j) as Hp. pose proof (pw_S j) as HS.
  pose proof (N.div_mod n (pw (S j))) as Hn. pose proof (N.mod_lt n (pw (S j))) as Hr.
  set (a := n / pw (S j)) in *. set (r := n mod pw (S j)) in *.
  exists a, r. assert (n = a * pw (S j) + r) as Ha by lia.
  assert (n / pw j = 2 * a + (if pw j <=? r then 1 else 0) ∧
    n mod pw j = r - (if pw j <=? r then pw j else 0)) as [Hd Hm].
  { destruct (N.leb_spec (pw j) r).
    - split; symmetry;
        [apply N.div_unique with (r - pw j)|apply N.mod_unique with (2 * a + 1)]; nia.
    - split; symmetry; [apply N.div_unique with r|apply N.mod_unique with (2 * a)]; nia. }
  split_and!; try done; [lia|].
  rewrite N.testbit_odd, N.shiftr_div_pow2. fold (pw j). rewrite Hd.
  destruct (pw j <=? r); [by rewrite N.odd_add, N.odd_mul|].
  by rewrite N.add_0_r, N.odd_mul.
Qed.

Lemma mountains_tiles j n : tiles (n / pw j * pw j) (mountains j n) n.
Proof.
  induction j as [|j IH].
  - simpl. rewrite pw_0, N.mul_1_r. apply N.div_1_r.
  - cbn [mountains]. destruct (split_bit n j) as (a & r & Hn & Hr & -> & -> & _ & Hd & _).
    rewrite pw_S in *. destruct (N.leb_spec (pw j) r); cbn [tiles].
    + rewrite Hd in *. split; [lia|].
      by replace (2 * a + 1 - 1 + 1) with (2 * a + 1) by lia.
    + rewrite Hd, N.add_0_r in *. by replace (a * (2 * pw j)) with (2 * a * pw j) by lia.
Qed.

Lemma mountain_range_tiles n : n ≤ U64_MAX → tiles 0 (mountain_range n) n.
Proof.
  intros Hn. pose proof (mountains_tiles 64 n) as H.
  rewrite N.div_small in H by (rewrite pw_64; lia). exact H.
Qed.

Lemma mountains_high j c n : n < pw j → (j ≤ c)%nat → mountains c n = mountains j n.
Proof.
  intros Hn. induction c as [|c IH]; intros Hc; [by replace j with 0%nat by lia|].
  destruct (decide (j = S c)) as [->|]; [done|].
  cbn [mountains]. pose proof (pw_le j c).
  assert (N.testbit n (N.of_nat c) = false) as ->; [|apply IH; lia].
  destruct (decide (n = 0)) as [->|]; [by rewrite N.bits_0|].
  apply N.bits_above_log2, N.log2_lt_pow2; [lia|]. fold (pw c). lia.
Qed.

Lemma peak_indices_loop_correct j fuel n acc :
  (j ≤ fuel)%nat → leaf_pos n ≤ U64_MAX →
  peak_indices_loop fuel acc (pw j - 1) (leaf_pos (n mod pw j)) (leaf_pos (n / pw j * pw j)) =
  Some (acc ++ (peak_index <$> mountains j n)).
Proof.
  intros Hj Hmax. revert fuel acc Hj. induction j as [|j IH]; intros fuel acc Hj.
  - cbn [mountains fmap list_fmap]. rewrite app_nil_r. by destruct fuel.
  - destruct fuel as [|fuel]; [lia|]. cbn [peak_indices_loop mountains].
    destruct (split_bit n j) as (a & r & Hn & Hr & -> & -> & -> & Hd & Hm).
    pose proof (pw_pos j). rewrite shiftr_ones.
    rewrite (proj2 (N.eqb_neq _ 0)) by (rewrite pw_S; lia).
    specialize (IH fuel). rewrite Hd, Hm in IH. rewrite <-leaf_pos_pw.
    destruct (N.leb_spec (pw j) r) as [Hle|Hlt].
    + rewrite (proj2 (N.leb_le _ _)) by (by apply leaf_pos_le_mono).
      assert (leaf_pos (a * pw (S j)) + leaf_pos (pw j) = leaf_pos ((2 * a + 1) * pw j)) as Hsum.
      { rewrite <-leaf_pos_add by (rewrite pw_S; lia). f_equal. rewrite pw_S. lia. }
      assert (leaf_pos ((2 * a + 1) * pw j) ≤ leaf_pos n).
      { apply leaf_pos_le_mono. rewrite pw_S in Hn. lia. }
      rewrite checked_add_u64_small, Hsum by lia. cbn [mbind option_bind].
      assert (leaf_pos ((2 * a + 1) * pw j) - 1 = node_pos j (2 * a)) as Hpos.
      { rewrite node_pos_next_leaf. lia. }
      rewrite checked_sub_small, Hpos by (rewrite node_pos_next_leaf; lia).
      cbn [mbind option_bind]. rewrite index_at_node by lia.
      assert (leaf_pos r - leaf_pos (pw j) = leaf_pos (r - pw j)) as ->.
      { replace r with (1 * pw j + (r - pw j)) at 1 by lia.
        rewrite leaf_pos_add, N.mul_1_l by (rewrite pw_S in Hr; lia). lia. }
      rewrite IH by lia. cbn [fmap list_fmap fst snd]. rewrite <-app_assoc, Hd.
      by replace (2 * a + 1 - 1) with (2 * a) by lia.
    + rewrite (proj2 (N.leb_gt _ _)) by (by apply leaf_pos_lt).
      replace (a * pw (S j)) with ((2 * a + 0) * pw j) by (rewrite pw_S; lia).
      rewrite <-IH by lia. by rewrite N.sub_0_r.
Qed.

Lemma peak_indices_correct n :
  leaf_pos n ≤ U64_MAX →
  peak_indices (leaf_pos n) = Some (peak_index <$> mountain_range n).
Proof.
  intros Hn. unfold peak_indices. pose proof (leaf_pos_ge n).
  destruct (N.eqb_spec (leaf_pos n) 0) as [H0|H0].
  - assert (n = 0) as -> by lia. done.
  - destruct (fill_ones_correct _ Hn) as (b & Hb & -> & Hlt & _).
    pose proof (peak_indices_loop_correct b 64 n [] Hb Hn) as Hp.
    rewrite N.mod_small, N.div_small, N.mul_0_l in Hp by lia.
    change (leaf_pos 0) with 0 in Hp. rewrite app_nil_l in Hp. rewrite Hp.
    unfold mountain_range. by rewrite (mountains_high b 64) by lia.
Qed.

Lemma tiles_le a l b : tiles a l b → a ≤ b.
Proof.
  revert a. induction l as [|[h k] l IH]; simpl; intros a; [lia|].
  intros [<- H%IH]. lia.
Qed.

Lemma tiles_app a l1 l2 b : tiles a (l1 ++ l2) b ↔ ∃ c, tiles a l1 c ∧ tiles c l2 b.
Proof.
  revert a. induction l1 as [|[h k] l1 IH]; simpl; intros a.
  - split; [eauto|]. by intros (? & -> & ?).
  - rewrite IH. split; [intros (? & c & ? & ?)|intros (c & [? ?] & ?)]; eauto.
Qed.

(** The tree of a leaf. *)
Lemma tiles_cover a l b i :
  tiles a l b → a ≤ i < b →
  ∃ l1 h k l2, l = l1 ++ (h, k) :: l2 ∧ k * pw h ≤ i < (k + 1) * pw h ∧
    tiles a l1 (k * pw h) ∧ tiles ((k + 1) * pw h) l2 b.
Proof.
  revert a. induction l as [|[h k] l IH]; simpl; intros a; [lia|].
  intros [<- Ht] Hi. destruct (N.lt_ge_cases i ((k + 1) * pw h)) as [Hlt|Hge].
  - exists [], h, k, l. by split_and!; try lia.
  - destruct (IH _ Ht) as (l1 & h' & k' & l2 & -> & Hi' & H1 & H2); [lia|].
    exists ((h, k) :: l1), h', k', l2. by split_and!; try lia.
Qed.

Lemma tiles_elem a l b h k : tiles a l b → (h, k) ∈ l → a ≤ k * pw h ∧ (k + 1) * pw h ≤ b.
Proof.
  intros Ht (l1 & l2 & ->)%list_elem_of_split.
  apply tiles_app in Ht as (c & H1%tiles_le & H2). cbn in H2. destruct H2 as [<- H2%tiles_le].
  lia.
Qed.
