(* ===== verification/Mmr.v ===== *)
(** * The in-memory Merkle mountain range

    Models the hashing and the [MemMmr] of [crates/mweb/src/pmmr.rs], and
    proves that its root is the one of a reference definition by recursion on
    perfect trees.  BLAKE3 is a parameter, the class [Blake3]. *)
From stdpp Require Export vector.
From S2P Require Import Prelude MmrIndex.

#[local] Open Scope N_scope.

(** ** Bytes *)

Definition Bytes32 : Type := vec N 32.

(** The [blake3] crate. *)
Class Blake3 := blake3_hash : list N → Bytes32.

(** [u64::to_le_bytes], for a given number of bytes. *)
Fixpoint le_bytes (n : nat) (x : N) : list N :=
  match n with
  | O => []
  | S n => x mod 256 :: le_bytes n (x / 256)
  end.

Lemma length_le_bytes n x : length (le_bytes n x) = n.
Proof. revert x. induction n as [|n IH]; intros x; simpl; [done|by rewrite IH]. Qed.

Lemma le_bytes_inj n x y :
  x < 256 ^ N.of_nat n → y < 256 ^ N.of_nat n → le_bytes n x = le_bytes n y → x = y.
Proof.
  revert x y. induction n as [|n IH]; intros x y.
  - cbn. lia.
  - rewrite Nat2N.inj_succ, N.pow_succ_r'. cbn [le_bytes]. intros Hx Hy [= Hm Hd].
    apply IH in Hd; [|apply N.Div0.div_lt_upper_bound; lia..].
    rewrite (N.div_mod x 256), (N.div_mod y 256) by done. by rewrite Hm, Hd.
Qed.

Definition zero32 : Bytes32 := vreplicate 32 0.

(** ** Hashing *)

Section hashing.
Context `{Blake3}.

Definition parent_payload (position : N) (left right : Bytes32) : list N :=
  le_bytes 8 position ++ (left : list N) ++ (right : list N).
Definition parent_hash (position : N) (left right : Bytes32) : Bytes32 :=
  blake3_hash (parent_payload position left right).

(** [32] is the [CompactSize] of the length of an output id. *)
Definition leaf_payload (leaf_index : N) (output_id : Bytes32) : list N :=
  le_bytes 8 (leaf_position leaf_index) ++ [32] ++ (output_id : list N).
Definition leaf_hash (leaf_index : N) (output_id : Bytes32) : Bytes32 :=
  blake3_hash (leaf_payload leaf_index output_id).

(** ** The code *)

Record MemMmr := mkMemMmr { mmr_hashes : list Bytes32; mmr_num_leaves : N }.

Definition MemMmr_new : MemMmr := mkMemMmr [] 0.

Definition hash_at (hashes : list Bytes32) (position : N) : option Bytes32 :=
  hashes !! N.to_nat position.

(** [while !next.is_leaf()] of [add_output_id]; at most one turn per height. *)
Fixpoint fill_in_parents (fuel : nat) (hashes : list Bytes32) (last : Bytes32) (next : Index) :
    option (list Bytes32) :=
  match fuel with
  | O => None
  | S fuel =>
    if is_leaf next then Some hashes
    else
      match c ← left_child next; hash_at hashes (idx_position c) with
      | None => Some hashes
      | Some left_hash =>
        let parent := parent_hash (idx_position next) left_hash last in
        next' ← index_next next;
        fill_in_parents fuel (hashes ++ [parent]) parent next'
      end
  end.

Definition add_output_id (m : MemMmr) (output_id : Bytes32) : option (MemMmr * N) :=
  let leaf_index := mmr_num_leaves m in
  let hash := leaf_hash leaf_index output_id in
  num_leaves ← checked_add_u64 leaf_index 1;
  next ← index_next (index_at (leaf_position leaf_index));
  hashes ← fill_in_parents 64 (mmr_hashes m ++ [hash]) hash next;
  Some (mkMemMmr hashes num_leaves, leaf_index).

(** [for] loops over the outputs of a batch. *)
Fixpoint add_output_ids (m : MemMmr) (ids : list Bytes32) : option MemMmr :=
  match ids with
  | [] => Some m
  | id :: ids => '(m, _) ← add_output_id m id; add_output_ids m ids
  end.

Definition bag_peak (num_nodes : N) (st : Bytes32 * bool) (peak : Bytes32) : Bytes32 * bool :=
  let '(hash, have) := st in
  if have then (parent_hash num_nodes peak hash, true) else (peak, true).
Definition bag_peaks (peak_hashes_left_to_right : list Bytes32) (num_nodes : N) : Bytes32 :=
  (foldl (bag_peak num_nodes) (zero32, false) (reverse peak_hashes_left_to_right)).1.

Definition mmr_root (m : MemMmr) : option Bytes32 :=
  let num_nodes := num_nodes_for_leaves (mmr_num_leaves m) in
  if num_nodes =? 0 then Some zero32
  else
    peaks ← peak_indices num_nodes;
    Some
      match mapM (λ i, hash_at (mmr_hashes m) (idx_position i)) peaks with
      | Some hashes => bag_peaks hashes num_nodes
      | None => zero32
      end.

(** ** The reference *)

Section reference.
Variable ids : list Bytes32.

Definition id_at (i : N) : Bytes32 := default zero32 (ids !! N.to_nat i).

(** The hash of a perfect tree. *)
Fixpoint node_hash (h : nat) (k : N) : Bytes32 :=
  match h with
  | O => leaf_hash k (id_at k)
  | S h' => parent_hash (node_pos h k) (node_hash h' (2 * k)) (node_hash h' (2 * k + 1))
  end.

Definition num_ids : N := N.of_nat (length ids).
Definition tree_hash (p : nat * N) : Bytes32 := node_hash p.1 p.2.
Definition peak_hashes : list Bytes32 := tree_hash <$> mountain_range num_ids.
End reference.

(** The peaks hashed together from the right, ending in [last]. *)
Fixpoint bag_onto (num_nodes : N) (peaks : list Bytes32) (last : Bytes32) : Bytes32 :=
  match peaks with
  | [] => last
  | p :: peaks => parent_hash num_nodes p (bag_onto num_nodes peaks last)
  end.
Fixpoint bag (num_nodes : N) (peaks : list Bytes32) : Bytes32 :=
  match peaks with
  | [] => zero32
  | [p] => p
  | p :: peaks => parent_hash num_nodes p (bag num_nodes peaks)
  end.
Definition reference_root (ids : list Bytes32) : Bytes32 :=
  bag (leaf_pos (num_ids ids)) (peak_hashes ids).

Lemma reference_root_eq ids :
  reference_root ids =
  bag (leaf_pos (num_ids ids)) (tree_hash ids <$> mountain_range (num_ids ids)).
Proof. done. Qed.

Lemma bag_snoc n l p : bag n (l ++ [p]) = bag_onto n l p.
Proof.
  induction l as [|q l IH]; [done|]. cbn [app bag bag_onto].
  destruct (l ++ [p]) eqn:E; [by destruct l|]. by rewrite <-IH, <-E.
Qed.

Lemma bag_app n l1 l2 : l2 ≠ [] → bag n (l1 ++ l2) = bag_onto n l1 (bag n l2).
Proof.
  destruct l2 as [|p l2 _] using rev_ind; [done|]. intros _.
  rewrite app_assoc, !bag_snoc. induction l1 as [|q l1 IH]; [done|]. cbn. by rewrite IH.
Qed.

Lemma foldr_bag_onto n l last :
  foldl (λ hash peak, parent_hash n peak hash) last (reverse l) = bag_onto n l last.
Proof.
  induction l as [|p l IH]; [done|]. by rewrite reverse_cons, foldl_app, IH.
Qed.

Lemma bag_peaks_correct n l : bag_peaks l n = bag n l.
Proof.
  destruct l as [|p l _] using rev_ind; [done|]. rewrite bag_snoc, <-foldr_bag_onto.
  unfold bag_peaks. rewrite reverse_app. cbn [reverse rev_append foldl app].
  generalize (reverse l). intros r. generalize p. clear. cbn.
  induction r as [|q r IH]; intros p; [done|]. cbn. apply IH.
Qed.

(** ** The invariant of the mountain range *)

Definition mmr_ok (ids : list Bytes32) (m : MemMmr) : Prop :=
  mmr_num_leaves m = num_ids ids ∧
  length (mmr_hashes m) = N.to_nat (leaf_pos (num_ids ids)) ∧
  ∀ h k, (k + 1) * pw h ≤ num_ids ids →
    hash_at (mmr_hashes m) (node_pos h k) = Some (node_hash ids h k).

Lemma mmr_new_ok : mmr_ok [] MemMmr_new.
Proof.
  split_and!; [done..|]. intros h k Hk. pose proof (pw_pos h). change (num_ids []) with 0 in Hk. nia.
Qed.

Lemma node_hash_app ids ids' h k :
  (k + 1) * pw h ≤ num_ids ids → node_hash (ids ++ ids') h k = node_hash ids h k.
Proof.
  revert k. induction h as [|h IH]; intros k Hk.
  - cbn [node_hash]. rewrite pw_0 in Hk. unfold id_at, num_ids in *.
    by rewrite lookup_app_l by lia.
  - cbn [node_hash]. rewrite pw_S in Hk. rewrite !IH by nia. done.
Qed.

(** One turn of the loop per right child: [last] is node [(h, k)], everything
    up to it is in place. *)
Lemma fill_in_parents_correct ids fuel hashes h k next :
  (k + 1) * pw h = num_ids ids → leaf_pos (num_ids ids) < U64_MAX → (64 ≤ h + fuel)%nat →
  length hashes = S (N.to_nat (node_pos h k)) →
  (∀ h' k', node_pos h' k' ≤ node_pos h k →
    hash_at hashes (node_pos h' k') = Some (node_hash ids h' k')) →
  index_next (node_index h k) = Some next →
  ∃ hashes', fill_in_parents fuel hashes (node_hash ids h k) next = Some hashes' ∧
    length hashes' = N.to_nat (leaf_pos (num_ids ids)) ∧
    ∀ h k, (k + 1) * pw h ≤ num_ids ids → hash_at hashes' (node_pos h k) = Some (node_hash ids h k).
Proof.
  intros Hn Hmax. revert hashes h k next Hn.
  induction fuel as [|fuel IH]; intros hashes h k next Hk Hfuel Hlen Hall Hnext.
  all: pose proof (node_pos_lt_leaf h k) as Hp; rewrite Hk in Hp.
  { pose proof (node_height_small h k). lia. }
  cbn [fill_in_parents]. destruct (N_parity k) as [m [-> | ->]].
  - rewrite index_next_left in Hnext by lia. injection Hnext as <-. rewrite is_leaf_node.
    cbn. exists hashes. split; [done|].
    rewrite <-Hk, node_pos_next_leaf, Hlen. split; [lia|].
    intros h' k' Hk'%leaf_pos_le_mono. apply Hall. pose proof (node_pos_lt_leaf h' k').
    rewrite node_pos_next_leaf in Hk'. lia.
  - rewrite index_next_right in Hnext by lia. injection Hnext as <-.
    pose proof (node_pos_odd h m) as Hodd. pose proof (node_pos_even h m) as Heven.
    pose proof (pw_pos (S h)). pose proof (node_pos_sibling h m) as Hsib.
    rewrite is_leaf_node, bool_decide_false, left_child_node by lia. cbn [mbind option_bind].
    cbn [idx_position node_index]. rewrite (Hall h (2 * m)) by lia.
    assert (node_pos (S h) m < U64_MAX) as Hsmall.
    { pose proof (node_pos_lt_leaf (S h) m) as Hl.
      replace ((m + 1) * pw (S h)) with (num_ids ids) in Hl; [lia|]. rewrite pw_S. lia. }
    destruct (index_next_node _ _ Hsmall) as [next' Hnext'].
    rewrite Hnext'. cbn [mbind option_bind].
    change (parent_hash (node_pos (S h) m) (node_hash ids h (2 * m))
      (node_hash ids h (2 * m + 1))) with (node_hash ids (S h) m).
    apply IH; [rewrite pw_S; lia|lia| | |done].
    + rewrite length_app, Hlen. cbn [length]. lia.
    + intros h' k' Hle. unfold hash_at in *.
      destruct (decide (node_pos h' k' ≤ node_pos h (2 * m + 1))) as [Hold|Hnew].
      * rewrite lookup_app_l by lia. by apply Hall.
      * destruct (node_pos_inj h' k' (S h) m) as [-> ->]; [lia|].
        rewrite lookup_app_r by lia. rewrite Hlen, Hodd.
        by replace (N.to_nat (node_pos h (2 * m + 1) + 1) - S (N.to_nat (node_pos h (2 * m + 1))))%nat
          with 0%nat by lia.
Qed.

Lemma num_ids_snoc ids id : num_ids (ids ++ [id]) = num_ids ids + 1.
Proof. unfold num_ids. rewrite length_app. cbn [length]. lia. Qed.

Lemma add_output_id_ok ids m id :
  mmr_ok ids m → 2 * (num_ids ids + 1) < U64_MAX →
  ∃ m', add_output_id m id = Some (m', num_ids ids) ∧ mmr_ok (ids ++ [id]) m'.
Proof.
  intros (Hnum & Hlen & Hall) Hmax. unfold add_output_id. rewrite Hnum.
  pose proof (leaf_pos_le (num_ids ids + 1)).
  pose proof (leaf_pos_lt (num_ids ids) (num_ids ids + 1)).
  rewrite checked_add_u64_small by lia. cbn [mbind option_bind].
  rewrite leaf_position_small, index_at_leaf by lia.
  destruct (index_next_node 0 (num_ids ids)) as [next Hnext]; [rewrite node_pos_0; lia|].
  rewrite Hnext. cbn [mbind option_bind].
  assert (leaf_hash (num_ids ids) id = node_hash (ids ++ [id]) 0 (num_ids ids)) as ->.
  { cbn [node_hash]. unfold id_at, num_ids. rewrite Nat2N.id.
    by rewrite lookup_app_r, Nat.sub_diag by done. }
  destruct (fill_in_parents_correct (ids ++ [id]) 64 (mmr_hashes m ++
    [node_hash (ids ++ [id]) 0 (num_ids ids)]) 0 (num_ids ids) next) as (hashes & Hf & Hl & Ha).
  all: rewrite ?num_ids_snoc, ?pw_0, ?length_app, ?Hlen, ?node_pos_0; cbn [length]; try lia.
  - intros h k Hle. unfold hash_at in *.
    destruct (decide (node_pos h k < leaf_pos (num_ids ids))) as [Hlt|Hge].
    + rewrite lookup_app_l by lia. pose proof (node_before_leaf _ _ _ Hlt).
      rewrite Hall, node_hash_app by done. done.
    + destruct (node_pos_inj h k 0 (num_ids ids)) as [-> ->]; [rewrite node_pos_0; lia|].
      rewrite node_pos_0, lookup_app_r by lia. by rewrite Hlen, Nat.sub_diag.
  - done.
  - rewrite Hf. cbn [mbind option_bind]. eexists. split; [done|].
    split_and!; cbn [mmr_num_leaves mmr_hashes]; [by rewrite num_ids_snoc|done..].
Qed.

Lemma add_output_ids_ok ids ids' m :
  mmr_ok ids m → 2 * num_ids (ids ++ ids') < U64_MAX →
  ∃ m', add_output_ids m ids' = Some m' ∧ mmr_ok (ids ++ ids') m'.
Proof.
  revert ids m. induction ids' as [|id ids' IH]; intros ids m Hok Hmax.
  - exists m. by rewrite app_nil_r.
  - cbn [add_output_ids]. destruct (add_output_id_ok ids m id Hok) as (m' & -> & Hok').
    { unfold num_ids in *. rewrite length_app in Hmax. cbn [length] in Hmax. lia. }
    cbn [mbind option_bind]. destruct (IH (ids ++ [id]) m' Hok') as (m'' & -> & Hok'').
    { by rewrite <-app_assoc. }
    rewrite <-app_assoc in Hok''. by exists m''.
Qed.

Lemma mmr_root_ok ids m :
  mmr_ok ids m → 2 * num_ids ids < U64_MAX → mmr_root m = Some (reference_root ids).
Proof.
  intros (Hnum & Hlen & Hall) Hmax. unfold mmr_root, num_nodes_for_leaves.
  pose proof (leaf_pos_le (num_ids ids)). pose proof (leaf_pos_ge (num_ids ids)).
  rewrite Hnum, leaf_position_small by lia. unfold reference_root, peak_hashes.
  destruct (N.eqb_spec (leaf_pos (num_ids ids)) 0) as [Hz|Hz].
  - by replace (num_ids ids) with 0 by lia.
  - rewrite peak_indices_correct by lia. cbn [mbind option_bind]. f_equal.
    assert (mapM (λ i, hash_at (mmr_hashes m) (idx_position i))
      (peak_index <$> mountain_range (num_ids ids)) =
      Some (tree_hash ids <$> mountain_range (num_ids ids))) as ->.
    { apply mapM_Some. rewrite Forall2_fmap. apply Forall_Forall2_diag, Forall_forall.
      intros [h k] Hin. apply Hall. cbn.
      eapply tiles_elem in Hin; [apply Hin|]. apply mountain_range_tiles. lia. }
    apply bag_peaks_correct.
Qed.

Lemma root_of_ids ids :
  2 * num_ids ids < U64_MAX →
  ∃ m, add_output_ids MemMmr_new ids = Some m ∧ mmr_root m = Some (reference_root ids).
Proof.
  intros Hmax. destruct (add_output_ids_ok [] ids MemMmr_new mmr_new_ok Hmax) as (m & Ha & Hm).
  exists m. split; [done|by apply mmr_root_ok].
Qed.

(** C39. The in-memory Merkle mountain range built from a list of output ids has
    the root defined by recursion on perfect trees: parents hash their position
    and their children, and the peaks are hashed together from the right.  No
    addition overflows, no lookup fails, and the leaves are numbered in order. *)
Theorem mem_mmr_root_correct ids :
  2 * num_ids ids < U64_MAX →
  ∃ m, add_output_ids MemMmr_new ids = Some m ∧
    mmr_num_leaves m = num_ids ids ∧ mmr_root m = Some (reference_root ids) ∧
    ∀ h k, (k + 1) * pw h ≤ num_ids ids →
      hash_at (mmr_hashes m) (node_pos h k) = Some (node_hash ids h k).
Proof.
  intros Hmax. destruct (add_output_ids_ok [] ids MemMmr_new mmr_new_ok Hmax) as (m & Ha & Hm).
  exists m. split_and!; [done|apply Hm|by apply mmr_root_ok|apply Hm].
Qed.
End hashing.

(** A small function in place of BLAKE3: it multiplies up the bytes modulo a
    prime and spreads the digits. *)
Definition toy_hash (payload : list N) : Bytes32 :=
  let x := foldl (λ a b, (a * 257 + b + 1) mod 1000000007) 7 payload in
  fun_to_vec (λ i : fin 32, (x / 2 ^ N.of_nat (fin_to_nat i)) mod 256).
Definition toy_id (n : N) : Bytes32 := vreplicate 32 n.

Lemma mem_mmr_root_correct_witness :
  let H : Blake3 := toy_hash in
  let ids := toy_id <$> [1; 2; 3; 4; 5] in
  ∃ m, add_output_ids MemMmr_new ids = Some m ∧
    mmr_num_leaves m = num_ids ids ∧ mmr_root m = Some (reference_root ids) ∧
    ∀ h k, (k + 1) * pw h ≤ num_ids ids →
      hash_at (mmr_hashes m) (node_pos h k) = Some (node_hash ids h k).
Proof.
  intros H ids. apply (mem_mmr_root_correct ids). vm_compute. reflexivity.
Defined.
