(* ===== verification/MwebWire.v ===== *)
(** * Messages and errors of the MWEB light client

    Models [crates/mweb/src/error.rs] and [limits.rs], and the leafset and
    batch messages of [crates/mweb/src/p2p.rs].  An error message is the format
    string of the code, its holes left open.  The [mimblewimble] types of the
    [bitcoin] crate are the class [Mimblewimble]. *)
From stdpp Require Export strings.
From S2P Require Import Prelude Block MmrIndex Mmr.

#[local] Open Scope N_scope.

(** ** Errors *)

Inductive BanReason := BadProof | ProtocolViolation | Transport | Throttled.

#[export] Instance BanReason_eq_dec : EqDecision BanReason.
Proof. solve_decision. Defined.

(** The payloads of [Bip32] and [Secp256k1] are errors of other crates. *)
Inductive Error :=
| Bip32
| Secp256k1
| InvalidTweak
| ZkpDisabled
| InsufficientFunds
| MissingCoinSecrets
| NotMwebAddress
| Crypto (msg : string)
| Peer (reason : BanReason) (msg : string).

#[export] Instance Error_eq_dec : EqDecision Error.
Proof. solve_decision. Defined.

Definition bad_proof (msg : string) : Error := Peer BadProof msg.
Definition protocol (msg : string) : Error := Peer ProtocolViolation msg.
Definition transport (msg : string) : Error := Peer Transport msg.
Definition throttled (msg : string) : Error := Peer Throttled msg.

Definition ban_reason (e : Error) : option BanReason :=
  match e with Peer reason _ => Some reason | _ => None end.

(** ** Limits *)

Definition MAX_LEAFSET_BYTES : N := 4000000.
Definition MAX_OUTPUT_MMR_SIZE : N := MAX_LEAFSET_BYTES * 8.
Definition MAX_REQUESTED_MWEB_UTXOS : N := 4096.
Definition MAX_MONEY : N := 84000000 * 100000000.

(** ** Outputs and headers *)

(** [bitcoin::blockdata::mimblewimble::Output] and [MwebBlockHeader], as far as
    the source looks at them; [ser_*] are the serializations hashed. *)
Class Mimblewimble := {
  Output : Type;
  Output_eq_dec :: EqDecision Output;
  commitment : Output → list N;
  ser_sender_public_key : Output → list N;
  ser_receiver_public_key : Output → list N;
  ser_message : Output → list N;
  range_proof : Output → list N;
  signature : Output → list N;
}.

Record MwebBlockHeader := mkMwebBlockHeader {
  mh_height : Z;
  mh_output_root : Bytes32;
  mh_kernel_root : Bytes32;
  mh_leafset_root : Bytes32;
  mh_kernel_offset : Bytes32;
  mh_stealth_offset : Bytes32;
  mh_output_mmr_size : N;
  mh_kernel_mmr_size : N;
}.

(** [scan.rs]: [Output::GetOutputID] of Litecoin Core. *)
Definition output_id `{Blake3, Mimblewimble} (output : Output) : Bytes32 :=
  let msg_hash : list N := blake3_hash (ser_message output) in
  let proof_hash : list N := blake3_hash (range_proof output) in
  blake3_hash (commitment output ++ ser_sender_public_key output ++
    ser_receiver_public_key output ++ msg_hash ++ proof_hash ++ signature output).

(** ** Messages *)

Definition OUTPUT_FORMAT_FULL : N := 0.

Record GetMwebUtxos := mkGetMwebUtxos {
  gu_block_hash : BlockHash;
  gu_start_index : N;
  gu_num_requested : N;
  gu_output_format : N;
}.

Record MwebUtxoEntry `{Mimblewimble} := mkMwebUtxoEntry {
  ue_leaf_index : N;
  ue_output : Output;
}.

Record MwebUtxos `{Mimblewimble} := mkMwebUtxos {
  mu_block_hash : BlockHash;
  mu_start_index : N;
  mu_output_format : N;
  mu_utxos : list MwebUtxoEntry;
  mu_parent_hashes : list Bytes32;
}.

Record MwebLeafset := mkMwebLeafset {
  ls_block_hash : BlockHash;
  ls_leafset : list N;
}.

(** [b & (1 << (7 - bit)) != 0] on a byte. *)
Definition byte_bit (b bit : N) : bool := negb (N.land b (N.shiftl 1 (7 - bit)) =? 0).
(** [b |= 1 << (7 - bit)]. *)
Definition set_byte_bit (b bit : N) : N := N.lor b (N.shiftl 1 (7 - bit)).

Definition bits8 : list N := [0; 1; 2; 3; 4; 5; 6; 7].

(** The loop over [leafset.iter().enumerate()], from byte [byte_i] on. *)
Fixpoint leaf_indices_from (byte_i : N) (bytes : list N) : list N :=
  match bytes with
  | [] => []
  | byte :: bytes =>
    ((λ bit, byte_i * 8 + bit) <$> filter (λ bit, byte_bit byte bit = true) bits8) ++
    leaf_indices_from (byte_i + 1) bytes
  end.
Definition unspent_leaf_indices (l : MwebLeafset) : list N :=
  leaf_indices_from 0 (ls_leafset l).

(** One bit of the bounded variant. *)
Definition push_bounded (max byte_i byte : N) (out : list N) (bit : N) : result Error (list N) :=
  if byte_bit byte bit then
    if N.of_nat (length out) =? max then
      Err (protocol "leafset has more than {max} unspent leaves")
    else Ok (out ++ [byte_i * 8 + bit])
  else Ok out.

(** [for] with [return Err] inside. *)
Fixpoint try_foldl {A B E} (f : B → A → result E B) (b : B) (l : list A) : result E B :=
  match l with
  | [] => Ok b
  | a :: l => match f b a with Ok b => try_foldl f b l | Err e => Err e end
  end.

Fixpoint leaf_indices_bounded_from (max byte_i : N) (out : list N) (bytes : list N) :
    result Error (list N) :=
  match bytes with
  | [] => Ok out
  | byte :: bytes =>
    if byte =? 0 then leaf_indices_bounded_from max (byte_i + 1) out bytes
    else
      match try_foldl (push_bounded max byte_i byte) out bits8 with
      | Ok out => leaf_indices_bounded_from max (byte_i + 1) out bytes
      | Err e => Err e
      end
  end.
Definition unspent_leaf_indices_bounded (l : MwebLeafset) (max : N) : result Error (list N) :=
  leaf_indices_bounded_from max 0 [] (ls_leafset l).

(** [Vec::resize] to a greater length. *)
Definition resize (n : nat) (l : list N) : list N := l ++ replicate (n - length l) 0.

Definition set_leaf (leafset : list N) (i : N) : list N :=
  if MAX_OUTPUT_MMR_SIZE <=? i then leafset
  else
    let byte_i := N.to_nat (i / 8) in
    let bit := i mod 8 in
    let leafset := if (length leafset <=? byte_i)%nat then resize (S byte_i) leafset else leafset in
    alter (λ b, set_byte_bit b bit) byte_i leafset.

Definition from_indices (block_hash : BlockHash) (indices : list N) : MwebLeafset :=
  let leafset := foldl set_leaf [] indices in
  mkMwebLeafset block_hash (if decide (leafset = []) then [0] else leafset).

Definition try_from_indices (block_hash : BlockHash) (indices : list N) : result Error MwebLeafset :=
  if existsb (λ i, MAX_OUTPUT_MMR_SIZE <=? i) indices then
    Err (Crypto "leaf index {bad} exceeds MAX_OUTPUT_MMR_SIZE")
  else Ok (from_indices block_hash indices).

(** [pmmr.rs] *)
Definition bitset_test (leafset : list N) (idx : N) : bool :=
  match leafset !! N.to_nat (idx / 8) with
  | Some b => byte_bit b (idx mod 8)
  | None => false
  end.

Definition div_ceil (a b : N) : N := (a + b - 1) / b.

Section leafset.
Context `{Blake3}.

Definition verify_leafset (leafset : MwebLeafset) (leafset_root : Bytes32)
    (output_mmr_size : N) : result Error unit :=
  if MAX_OUTPUT_MMR_SIZE <? output_mmr_size then
    Err (protocol "leafset: output_mmr_size {output_mmr_size} exceeds MAX_OUTPUT_MMR_SIZE")
  else
    let need := N.to_nat (div_ceil output_mmr_size 8) in
    if (length (ls_leafset leafset) <? need)%nat then
      Err (protocol "leafset shorter than output_mmr_size")
    else if decide (blake3_hash (take need (ls_leafset leafset)) = leafset_root) then Ok tt
    else Err (bad_proof "leafset_root mismatch").

Definition verify_leafset_at (leafset : MwebLeafset) (block_hash : BlockHash)
    (leafset_root : Bytes32) (output_mmr_size : N) : result Error unit :=
  if decide (ls_block_hash leafset = block_hash) then
    verify_leafset leafset leafset_root output_mmr_size
  else Err (protocol "leafset block_hash mismatch").
End leafset.

(** ** Lemmas *)

Lemma byte_bit_spec b bit : bit < 8 → byte_bit b bit = N.testbit b (7 - bit).
Proof.
  intros Hbit. unfold byte_bit. rewrite N.shiftl_1_l.
  apply eq_true_iff_eq. rewrite negb_true_iff, N.eqb_neq. split.
  - intros Hne. destruct (N.testbit b (7 - bit)) eqn:Hb; [done|]. destruct Hne.
    apply N.bits_inj_0. intros i. rewrite N.land_spec, N.pow2_bits_eqb.
    destruct (N.eqb_spec (7 - bit) i) as [<-|]; [by rewrite Hb|by rewrite andb_false_r].
  - intros Hb Heq. assert (N.testbit (N.land b (2 ^ (7 - bit))) (7 - bit) = false) as Hf.
    { by rewrite Heq, N.bits_0. }
    rewrite N.land_spec, N.pow2_bits_true, Hb in Hf. done.
Qed.

Lemma set_byte_bit_spec b bit i :
  bit < 8 → i < 8 → byte_bit (set_byte_bit b bit) i = (bit =? i) || byte_bit b i.
Proof.
  intros Hb Hi. rewrite !byte_bit_spec by done. unfold set_byte_bit.
  rewrite N.shiftl_1_l, N.lor_spec, N.pow2_bits_eqb, orb_comm. f_equal.
  destruct (N.eqb_spec bit i); destruct (N.eqb_spec (7 - bit) (7 - i)); try done; lia.
Qed.

Lemma elem_of_bits8 bit : bit ∈ bits8 ↔ bit < 8.
Proof. unfold bits8. rewrite !elem_of_cons, elem_of_nil. lia. Qed.

Lemma bits8_split i : i = i / 8 * 8 + i mod 8 ∧ i mod 8 < 8 ∧ 0 ≤ i mod 8 ∧ 0 ≤ i / 8.
Proof.
  pose proof (N.div_mod i 8). pose proof (N.mod_lt i 8).
  pose proof (N.le_0_l (i mod 8)). pose proof (N.le_0_l (i / 8)). lia.
Qed.

Lemma elem_of_leaf_indices_from byte_i bytes i :
  i ∈ leaf_indices_from byte_i bytes ↔
  ∃ b, byte_i ≤ i / 8 ∧ bytes !! N.to_nat (i / 8 - byte_i) = Some b ∧ byte_bit b (i mod 8) = true.
Proof.
  revert byte_i. induction bytes as [|byte bytes IH]; intros byte_i; cbn [leaf_indices_from].
  - rewrite elem_of_nil. split; [done|]. by intros (b & _ & [=] & _).
  - rewrite elem_of_app, IH, list_elem_of_fmap. setoid_rewrite list_elem_of_filter.
    setoid_rewrite elem_of_bits8. destruct (bits8_split i) as (Hi & Hm & Hm0 & Hd0). split.
    + intros [(bit & -> & Hb & Hlt)|(b & Hle & Hl & Hb)].
      * assert ((byte_i * 8 + bit) / 8 = byte_i) as -> by (symmetry; apply N.div_unique with bit; lia).
        assert ((byte_i * 8 + bit) mod 8 = bit) as -> by (symmetry; apply N.mod_unique with byte_i; lia).
        exists byte. by rewrite N.sub_diag.
      * exists b. split_and!; [lia| |done].
        replace (N.to_nat (i / 8 - byte_i)) with (S (N.to_nat (i / 8 - (byte_i + 1)))) by lia. done.
    + intros (b & Hle & Hl & Hb). destruct (decide (i / 8 = byte_i)) as [<-|Hne].
      * left. exists (i mod 8). rewrite N.sub_diag in Hl. injection Hl as ->. by rewrite <-Hi.
      * right. exists b. split_and!; [lia| |done].
        by replace (N.to_nat (i / 8 - byte_i)) with (S (N.to_nat (i / 8 - (byte_i + 1)))) in Hl by lia.
Qed.

Lemma elem_of_unspent_leaf_indices l i :
  i ∈ unspent_leaf_indices l ↔ bitset_test (ls_leafset l) i = true.
Proof.
  unfold unspent_leaf_indices, bitset_test. rewrite elem_of_leaf_indices_from, N.sub_0_r.
  destruct (ls_leafset l !! N.to_nat (i / 8)) as [b|]; split.
  - by intros (? & _ & [= ->] & ?).
  - intros Hb. exists b. split_and!; [apply N.le_0_l|done|done].
  - by intros (? & _ & [=] & ?).
  - done.
Qed.

(** ** Leafsets: bits, indices and their round trip

    The leafset of [crates/mweb/src/p2p.rs] as the set of its indices. *)

Lemma leaf_indices_from_ge byte_i bytes i : i ∈ leaf_indices_from byte_i bytes → byte_i * 8 ≤ i.
Proof.
  intros (b & Hle & _)%elem_of_leaf_indices_from. pose proof (bits8_split i). lia.
Qed.

Lemma StronglySorted_app_lt (l1 l2 : list N) :
  StronglySorted N.lt l1 → StronglySorted N.lt l2 → (∀ x y, x ∈ l1 → y ∈ l2 → x < y) →
  StronglySorted N.lt (l1 ++ l2).
Proof.
  induction 1 as [|x l1 Hl IH Hx]; intros H2 H12; [done|]. cbn. constructor.
  - apply IH; [done|]. intros y z Hy. apply H12. by apply elem_of_cons; right.
  - apply Forall_app. split; [done|]. apply Forall_forall. intros y Hy.
    apply H12; [by apply elem_of_cons; left|done].
Qed.

(** Indices come out in ascending order, each once. *)
Lemma leaf_indices_from_sorted byte_i bytes : StronglySorted N.lt (leaf_indices_from byte_i bytes).
Proof.
  revert byte_i. induction bytes as [|b bytes IH]; intros byte_i; [constructor|].
  cbn [leaf_indices_from]. apply StronglySorted_app_lt; [|apply IH|].
  - unfold bits8. repeat (rewrite filter_cons; case_decide); cbn;
      repeat constructor; lia.
  - intros x y (bit & -> & [_ Hb]%list_elem_of_filter)%list_elem_of_fmap
      Hy%leaf_indices_from_ge. apply elem_of_bits8 in Hb. lia.
Qed.

Lemma sorted_lt_ext (l1 l2 : list N) :
  StronglySorted N.lt l1 → StronglySorted N.lt l2 → (∀ i, i ∈ l1 ↔ i ∈ l2) → l1 = l2.
Proof.
  intros H1 H2 Hext. apply (StronglySorted_unique_strong N.lt); [intros; lia|done..|].
  assert (∀ l, StronglySorted N.lt l → NoDup l) as Hnd.
  { intros l. induction 1 as [|x l Hl IH Hx]; constructor; [|done].
    intros Hin. eapply Forall_forall in Hx; [|done]. lia. }
  apply NoDup_Permutation; auto.
Qed.

Lemma bitset_test_alter ls j b' i :
  (j < length ls)%nat →
  bitset_test (alter (λ b, set_byte_bit b b') j ls) i =
  if decide (N.to_nat (i / 8) = j)
  then match ls !! j with Some b => byte_bit (set_byte_bit b b') (i mod 8) | None => false end
  else bitset_test ls i.
Proof.
  intros Hj. unfold bitset_test. destruct (decide (N.to_nat (i / 8) = j)) as [<-|Hne].
  - rewrite list_lookup_alter_eq. by destruct (ls !! N.to_nat (i / 8)).
  - by rewrite list_lookup_alter_ne.
Qed.

Lemma bitset_test_resize n ls i : bitset_test (resize n ls) i = bitset_test ls i.
Proof.
  unfold bitset_test, resize. destruct (decide (N.to_nat (i / 8) < length ls)%nat) as [Hl|Hge].
  - by rewrite lookup_app_l.
  - rewrite lookup_app_r by lia. rewrite (lookup_ge_None_2 ls) by lia.
    destruct (replicate _ _ !! _) as [b|] eqn:Hb; [|done].
    apply lookup_replicate in Hb as [-> _]. unfold byte_bit. by rewrite N.land_0_l.
Qed.

Lemma bitset_test_set_leaf ls j i :
  bitset_test (set_leaf ls j) i = true ↔
  (i = j ∧ j < MAX_OUTPUT_MMR_SIZE) ∨ bitset_test ls i = true.
Proof.
  unfold set_leaf. destruct (N.leb_spec MAX_OUTPUT_MMR_SIZE j) as [Hle|Hlt].
  { split; [by right|]. intros [[_ ?]|?]; [lia|done]. }
  cbn zeta. set (ls' := if (length ls <=? N.to_nat (j / 8))%nat then _ else _).
  assert (N.to_nat (j / 8) < length ls')%nat as Hlen.
  { unfold ls'. destruct (Nat.leb_spec (length ls) (N.to_nat (j / 8))); [|done].
    unfold resize. rewrite length_app, length_replicate. lia. }
  assert (bitset_test ls' i = bitset_test ls i) as <-.
  { unfold ls'. by destruct (_ <=? _)%nat; [rewrite bitset_test_resize|]. }
  rewrite bitset_test_alter by done. pose proof (bits8_split i). pose proof (bits8_split j).
  case_decide as Hd.
  - unfold bitset_test. rewrite Hd. destruct (lookup_lt_is_Some_2 ls' _ Hlen) as [b ->].
    rewrite set_byte_bit_spec, orb_true_iff, N.eqb_eq by lia.
    split; (intros [He|?]; [left|by right]); [lia|by destruct He as [-> _]].
  - split; [by right|]. intros [[-> _]|?]; [by destruct Hd|done].
Qed.

Lemma bitset_test_from_indices h indices i :
  bitset_test (ls_leafset (from_indices h indices)) i = true ↔
  i ∈ indices ∧ i < MAX_OUTPUT_MMR_SIZE.
Proof.
  assert (∀ ls, bitset_test (foldl set_leaf ls indices) i = true ↔
    (i ∈ indices ∧ i < MAX_OUTPUT_MMR_SIZE) ∨ bitset_test ls i = true) as Hfold.
  { induction indices as [|j indices IH]; intros ls; cbn [foldl].
    - rewrite elem_of_nil. naive_solver.
    - rewrite IH, bitset_test_set_leaf, elem_of_cons. naive_solver. }
  specialize (Hfold []). unfold from_indices. cbn [ls_leafset]. case_decide as Hnil.
  - rewrite Hnil in Hfold. split; [|naive_solver].
    unfold bitset_test. destruct (N.to_nat (i / 8)) as [|n]; cbn; [|by destruct n].
    unfold byte_bit. by rewrite N.land_0_l.
  - rewrite Hfold. split; [|naive_solver]. intros [?|Hf]; [done|]. by destruct (N.to_nat (i / 8)).
Qed.

(** Leafsets round trip: the bit of a leaf is set in the bitset built from a
    list of indices exactly when the list has the leaf (below the size cap), the
    set bits are listed in ascending order without repetition, and so an
    ascending list of indices below the cap is read back unchanged. *)
Theorem leafset_roundtrip h indices :
  StronglySorted N.lt (unspent_leaf_indices (from_indices h indices)) ∧
  (∀ i, bitset_test (ls_leafset (from_indices h indices)) i = true ↔
    i ∈ unspent_leaf_indices (from_indices h indices)) ∧
  (∀ i, i ∈ unspent_leaf_indices (from_indices h indices) ↔
    i ∈ indices ∧ i < MAX_OUTPUT_MMR_SIZE) ∧
  (StronglySorted N.lt indices → Forall (λ i, i < MAX_OUTPUT_MMR_SIZE) indices →
    unspent_leaf_indices (from_indices h indices) = indices).
Proof.
  assert (StronglySorted N.lt (unspent_leaf_indices (from_indices h indices))) as Hsorted
    by apply leaf_indices_from_sorted.
  assert (∀ i, i ∈ unspent_leaf_indices (from_indices h indices) ↔
    i ∈ indices ∧ i < MAX_OUTPUT_MMR_SIZE) as Helem.
  { intros i. by rewrite elem_of_unspent_leaf_indices, bitset_test_from_indices. }
  split_and!; [done|intros i; by rewrite elem_of_unspent_leaf_indices|done|].
  intros Hs Hall. apply sorted_lt_ext; [done..|]. intros i. rewrite Helem.
  rewrite Forall_forall in Hall. naive_solver.
Qed.

(** The bounded reader stops exactly when there are more than [max] set bits. *)
Lemma push_bounded_spec max byte_i byte out bits :
  N.of_nat (length out) ≤ max →
  let out' := out ++ ((λ bit, byte_i * 8 + bit) <$> filter (λ bit, byte_bit byte bit = true) bits) in
  try_foldl (push_bounded max byte_i byte) out bits =
  if max <? N.of_nat (length out') then
    Err (protocol "leafset has more than {max} unspent leaves")
  else Ok out'.
Proof.
  revert out. induction bits as [|bit bits IH]; intros out Hout; cbn [try_foldl].
  - cbn. rewrite app_nil_r. by rewrite (proj2 (N.ltb_ge _ _) Hout).
  - unfold push_bounded at 1. rewrite filter_cons. destruct (byte_bit byte bit) eqn:Hb.
    + rewrite decide_True by done. cbn [fmap list_fmap].
      destruct (N.eqb_spec (N.of_nat (length out)) max) as [Heq|Hne].
      * cbn zeta. rewrite (proj2 (N.ltb_lt _ _)); [done|].
        rewrite length_app. cbn [length]. lia.
      * rewrite IH by (rewrite length_app; cbn; lia). cbn zeta. by rewrite <-app_assoc.
    + rewrite decide_False by done. by apply IH.
Qed.

Lemma byte_bit_0 bit : byte_bit 0 bit = false.
Proof. unfold byte_bit. by rewrite N.land_0_l. Qed.

Lemma leaf_indices_bounded_from_spec max byte_i out bytes :
  N.of_nat (length out) ≤ max →
  let out' := out ++ leaf_indices_from byte_i bytes in
  leaf_indices_bounded_from max byte_i out bytes =
  if max <? N.of_nat (length out') then
    Err (protocol "leafset has more than {max} unspent leaves")
  else Ok out'.
Proof.
  revert byte_i out. induction bytes as [|byte bytes IH]; intros byte_i out Hout;
    cbn [leaf_indices_bounded_from leaf_indices_from].
  - rewrite app_nil_r. by rewrite (proj2 (N.ltb_ge _ _) Hout).
  - destruct (N.eqb_spec byte 0) as [->|Hne].
    + assert (filter (λ bit, byte_bit 0 bit = true) bits8 = []) as ->.
      { apply filter_none. intros bit _. by rewrite byte_bit_0. }
      by apply IH.
    + rewrite push_bounded_spec by done. cbn zeta. rewrite app_assoc.
      set (out1 := out ++ _). destruct (N.ltb_spec max (N.of_nat (length out1))) as [Hl|Hl].
      * rewrite (proj2 (N.ltb_lt _ _)); [done|]. rewrite length_app. lia.
      * by rewrite IH.
Qed.

Lemma unspent_leaf_indices_bounded_spec l max :
  unspent_leaf_indices_bounded l max =
  if max <? N.of_nat (length (unspent_leaf_indices l)) then
    Err (protocol "leafset has more than {max} unspent leaves")
  else Ok (unspent_leaf_indices l).
Proof. apply (leaf_indices_bounded_from_spec max 0 []). cbn. lia. Qed.
