(* ===== verification/MmrVerify.v ===== *)
(** * Verification of output batches

    Models the segment verification of [crates/mweb/src/pmmr.rs]:
    [calc_pruned_parents], [calc_hash_indices], [verify_segment_root] and
    [verify_utxo_batch].  [None] is a panic: arithmetic that overflows, a shift
    by the width, or a loop that outruns its fuel; [BatchSpec] proves that it
    does not happen. *)
From S2P Require Import Prelude Block MmrIndex Mmr MwebWire.

#[local] Open Scope N_scope.

(** Rust's [a..b]. *)
Definition range (a b : N) : list N := (λ i, a + N.of_nat i) <$> seq 0 (N.to_nat (b - a)).

(** [?] on a [Result] in code that may panic. *)
Definition or_return {E A B} (r : result E A) (k : A → option (result E B)) : option (result E B) :=
  match r with Ok a => k a | Err e => Some (Err e) end.

(** ** Pruned subtrees *)

Definition pruned_leaves (unspent : list N) (num_leaves : N) : gset N :=
  foldl (λ ret i, if bitset_test unspent i then ret else ret ∪ {[leaf_position i]})
    ∅ (range 0 num_leaves).

(** Both children pruned: the parent takes their place. *)
Definition prune_parent (ret : gset N) (next : Index) : gset N :=
  match right_child next, left_child next with
  | Some r, Some l =>
    if decide (idx_position r ∈ ret ∧ idx_position l ∈ ret) then
      ret ∖ {[idx_position r]} ∖ {[idx_position l]} ∪ {[idx_position next]}
    else ret
  | _, _ => ret
  end.

(** The inner [loop], over the nodes of one height. *)
Fixpoint prune_row (fuel : nat) (last_node_pos base_inc height sibling_num position : N)
    (ret : gset N) : option (gset N) :=
  match fuel with
  | O => None
  | S fuel =>
    position ←
      (if sibling_num =? 0 then checked_sub base_inc 1
       else
         increment ← checked_add_u64 base_inc (count_rightmost_zeros sibling_num);
         checked_add_u64 position increment);
    sibling_num ← checked_add_u64 sibling_num 1;
    if last_node_pos <? position then Some ret
    else
      prune_row fuel last_node_pos base_inc height sibling_num position
        (prune_parent ret (mkIndex position height))
  end.

(** The outer [while]. *)
Fixpoint prune_heights (fuel : nat) (last_node_pos height : N) (ret : gset N) :
    option (gset N) :=
  match fuel with
  | O => None
  | S fuel =>
    size ← checked_shl_u64 2 height;
    first ← checked_sub size 2;
    if first <=? last_node_pos then
      base_inc ← checked_sub size 1;
      ret ← prune_row (S (S (N.to_nat last_node_pos))) last_node_pos base_inc height 0 0 ret;
      height ← checked_add_u64 height 1;
      prune_heights fuel last_node_pos height ret
    else Some ret
  end.

Definition calc_pruned_parents (unspent : list N) (num_leaves : N) : option (gset N) :=
  let ret := pruned_leaves unspent num_leaves in
  if (num_leaves =? 0) || (num_nodes_for_leaves num_leaves =? 0) then Some ret
  else prune_heights 64 (num_nodes_for_leaves num_leaves) 1 ret.

(** ** Positions whose hashes the peer sends *)

(** 1. *)
Fixpoint peaks_left_of (peaks : list Index) (first_node : Index) (proof : gset N)
    (prev_peak : option Index) : gset N * option Index :=
  match peaks with
  | [] => (proof, prev_peak)
  | peak :: peaks =>
    if idx_position peak <? idx_position first_node then
      peaks_left_of peaks first_node (proof ∪ {[idx_position peak]}) (Some peak)
    else (proof, prev_peak)
  end.

(** 2. *)
Definition on_left_edge (adjustment : N) (idx : Index) : option bool :=
  p ← checked_add_u64 (idx_position idx) 2;
  p ← checked_sub p adjustment;
  size ← checked_shl_u64 2 (idx_height idx);
  Some (p =? size).
Fixpoint path_to_left_edge (fuel : nat) (adjustment : N) (idx : Index) (proof : gset N) :
    option (gset N) :=
  match fuel with
  | O => None
  | S fuel =>
    done ← on_left_edge adjustment idx;
    if done : bool then Some proof
    else
      sib ← sibling idx;
      if idx_position sib <? idx_position idx then
        p ← checked_add_u64 (idx_position idx) 1;
        h ← checked_add_u64 (idx_height idx) 1;
        path_to_left_edge fuel adjustment (mkIndex p h) (proof ∪ {[idx_position sib]})
      else
        p ← checked_add_u64 (idx_position sib) 1;
        h ← checked_add_u64 (idx_height sib) 1;
        path_to_left_edge fuel adjustment (mkIndex p h) proof
  end.

(** 3. *)
Definition pruned_between (pruned : gset N) (first_leaf last_leaf : N) (proof : gset N) : gset N :=
  foldl (λ proof pos, if decide (pos ∈ pruned) then proof ∪ {[pos]} else proof)
    proof (range (leaf_position first_leaf) (leaf_position last_leaf)).

(** 4. *)
Definition on_right_edge (peak idx : Index) : option bool :=
  e ← checked_sub (idx_position peak) (idx_height peak);
  Some (e <=? idx_position idx).
Fixpoint path_to_right_edge (fuel : nat) (peak idx : Index) (proof : gset N) : option (gset N) :=
  match fuel with
  | O => None
  | S fuel =>
    done ← on_right_edge peak idx;
    if done : bool then Some proof
    else
      sib ← sibling idx;
      h ← checked_add_u64 (idx_height idx) 1;
      if idx_position idx <? idx_position sib then
        p ← checked_add_u64 (idx_position sib) 1;
        path_to_right_edge fuel peak (mkIndex p h) (proof ∪ {[idx_position sib]})
      else
        p ← checked_add_u64 (idx_position idx) 1;
        path_to_right_edge fuel peak (mkIndex p h) proof
  end.

(** [iter().find(|p| p.position >= last_node.position)]. *)
Definition peak_from (peaks : list Index) (last_node : Index) : option Index :=
  head (filter (λ p, idx_position last_node ≤ idx_position p) peaks).

Definition calc_hash_indices (unspent : list N) (num_leaves first_leaf last_leaf : N) :
    option (gset N) :=
  peaks ← peak_indices (num_nodes_for_leaves num_leaves);
  let first_node := index_at (leaf_position first_leaf) in
  let last_node := index_at (leaf_position last_leaf) in
  let '(proof, prev_peak) := peaks_left_of peaks first_node ∅ None in
  adjustment ← (match prev_peak with Some p => checked_add_u64 (idx_position p) 1 | None => Some 0 end);
  proof ← path_to_left_edge 65 adjustment first_node proof;
  pruned ← calc_pruned_parents unspent num_leaves;
  let proof := pruned_between pruned first_leaf last_leaf proof in
  let peak := default last_node (peak_from peaks last_node) in
  path_to_right_edge 65 peak last_node proof.

(** ** The root of a segment *)

Section verify.
Context `{Blake3}.

Definition split_parent_hashes (hash_indices : list N) (parent_hashes : list Bytes32) :
    result Error (list Bytes32 * option Bytes32) :=
  let n := length hash_indices in
  if (length parent_hashes =? n)%nat then Ok (parent_hashes, None)
  else if (length parent_hashes =? n + 1)%nat then
    Ok (take n parent_hashes, head (drop n parent_hashes))
  else if (n =? 0)%nat && (length parent_hashes <=? 1)%nat then Ok ([], head parent_hashes)
  else
    Err (bad_proof "parent_hashes len {} != hash_indices {} (or +1 lower_peak)").

Definition insert_nodes (nodes : gmap N Bytes32) (l : list (N * Bytes32)) : gmap N Bytes32 :=
  foldl (λ nodes p, <[p.1 := p.2]> nodes) nodes l.

Definition initial_nodes (leaf_hashes : list (N * Bytes32)) (hash_indices : list N)
    (proof_hashes : list Bytes32) : gmap N Bytes32 :=
  insert_nodes
    (insert_nodes ∅ ((λ p, (leaf_position p.1, p.2)) <$> leaf_hashes))
    (zip hash_indices proof_hashes).

(** One turn of the bottom-up pass. *)
Definition fill_node (nodes : gmap N Bytes32) (pos : N) : gmap N Bytes32 :=
  let idx := index_at pos in
  if is_leaf idx then nodes
  else
    match nodes !! pos with
    | Some _ => nodes
    | None =>
      match left_child idx, right_child idx with
      | Some l, Some r =>
        match nodes !! idx_position l, nodes !! idx_position r with
        | Some lh, Some rh => <[pos := parent_hash pos lh rh]> nodes
        | _, _ => nodes
        end
      | _, _ => nodes
      end
    end.
Definition fill_nodes (nodes : gmap N Bytes32) (num_nodes : N) : gmap N Bytes32 :=
  foldl fill_node nodes (range 0 num_nodes).

(** The peaks up to the mountain, from the left. *)
Fixpoint peaks_through (nodes : gmap N Bytes32) (mountain_peak_pos : N) (peaks : list Index) :
    result Error (list Bytes32) :=
  match peaks with
  | [] => Ok []
  | peak :: peaks =>
    if mountain_peak_pos <? idx_position peak then Ok []
    else
      match nodes !! idx_position peak with
      | None => Err (bad_proof "missing peak hash at {} for segment verify (leaves {first_leaf}..{last_leaf})")
      | Some h => cons h <$> peaks_through nodes mountain_peak_pos peaks
      end
  end.

(** The peaks right of the mountain. *)
Fixpoint peaks_beyond (nodes : gmap N Bytes32) (mountain_peak_pos : N) (peaks : list Index) :
    result Error (list Bytes32) :=
  match peaks with
  | [] => Ok []
  | peak :: peaks =>
    if mountain_peak_pos <? idx_position peak then
      match nodes !! idx_position peak with
      | None => Err (bad_proof "missing right peak (no lower_peak)")
      | Some h => cons h <$> peaks_beyond nodes mountain_peak_pos peaks
      end
    else peaks_beyond nodes mountain_peak_pos peaks
  end.

Definition segment_root (nodes : gmap N Bytes32) (lower_peak : option Bytes32) (num_nodes : N)
    (peaks : list Index) (mountain_peak_pos : N) : result Error Bytes32 :=
  left_and_mountain ← peaks_through nodes mountain_peak_pos peaks;
  match lower_peak with
  | Some lp =>
    Ok (foldl (λ hash peak_h, parent_hash num_nodes peak_h hash) lp (reverse left_and_mountain))
  | None =>
    beyond ← peaks_beyond nodes mountain_peak_pos peaks;
    Ok (bag_peaks (left_and_mountain ++ beyond) num_nodes)
  end.

Definition verify_segment_root (leaf_hashes : list (N * Bytes32)) (parent_hashes : list Bytes32)
    (unspent_bits : list N) (num_leaves : N) (output_root : Bytes32) : option (result Error unit) :=
  match head leaf_hashes, last leaf_hashes with
  | Some (first_leaf, _), Some (last_leaf, _) =>
    hash_set ← calc_hash_indices unspent_bits num_leaves first_leaf last_leaf;
    let hash_indices := set_iter hash_set in
    or_return (split_parent_hashes hash_indices parent_hashes) (λ '(proof_hashes, lower_peak),
    let num_nodes := num_nodes_for_leaves num_leaves in
    let nodes := fill_nodes (initial_nodes leaf_hashes hash_indices proof_hashes) num_nodes in
    peaks ← peak_indices num_nodes;
    let last_node := index_at (leaf_position last_leaf) in
    match peak_from peaks last_node with
    | None => Some (Err (bad_proof "missing mountain peak"))
    | Some mountain =>
      or_return (segment_root nodes lower_peak num_nodes peaks (idx_position mountain)) (λ root,
      if decide (root = output_root) then Some (Ok tt)
      else Some (Err (bad_proof "output_root mismatch (leaves {first_leaf}..{last_leaf}, utxos={}, parent_hashes={})")))
    end)
  | _, _ => Some (Ok tt)
  end.

(** ** Serving a segment *)

Fixpoint bagged_peak_loop (mmr : MemMmr) (peak_idx_pos num_nodes : N) (bagged : option Bytes32)
    (peaks_rev : list Index) : option Bytes32 :=
  match peaks_rev with
  | [] => None
  | peak :: peaks_rev =>
    peak_hash ← hash_at (mmr_hashes mmr) (idx_position peak);
    let b := match bagged with Some b => parent_hash num_nodes peak_hash b | None => peak_hash end in
    if idx_position peak =? peak_idx_pos then Some b
    else bagged_peak_loop mmr peak_idx_pos num_nodes (Some b) peaks_rev
  end.
Definition calc_bagged_peak (mmr : MemMmr) (peak_idx_pos : N) : option (option Bytes32) :=
  let num_nodes := num_nodes_for_leaves (mmr_num_leaves mmr) in
  peaks ← peak_indices num_nodes;
  Some (bagged_peak_loop mmr peak_idx_pos num_nodes None (reverse peaks)).

Definition assemble_parent_hashes (mmr : MemMmr) (unspent_bits : list N)
    (first_leaf last_leaf : N) : option (list Bytes32) :=
  let num_leaves := mmr_num_leaves mmr in
  hash_indices ← calc_hash_indices unspent_bits num_leaves first_leaf last_leaf;
  let hashes := omap (hash_at (mmr_hashes mmr)) (set_iter hash_indices) in
  peaks ← peak_indices (num_nodes_for_leaves num_leaves);
  let last_node := index_at (leaf_position last_leaf) in
  match peak_from peaks last_node with
  | None => Some hashes
  | Some mountain =>
    match head (filter (λ p, idx_position mountain < idx_position p) peaks) with
    | None => Some hashes
    | Some next =>
      lp ← calc_bagged_peak mmr (idx_position next);
      Some (hashes ++ option_list lp)
    end
  end.

(** ** Batches *)

Context `{Mimblewimble}.

(** [windows(2).any(|w| w[0].leaf_index >= w[1].leaf_index)]. *)
Fixpoint not_ascending (l : list N) : bool :=
  match l with
  | a :: (b :: _) as l' => (b <=? a) || not_ascending l'
  | _ => false
  end.

Definition check_entry (bits : list N) (num_leaves : N) (_ : unit) (leaf_index : N) :
    result Error unit :=
  if num_leaves <=? leaf_index then
    Err (protocol "pmmr: leaf_index {} is beyond output_mmr_size {num_leaves}")
  else if bitset_test bits leaf_index then Ok tt
  else Err (bad_proof "utxo leaf_index not set in leafset").

Definition entry_le (a b : MwebUtxoEntry) : Prop := ue_leaf_index a ≤ ue_leaf_index b.
#[export] Instance entry_le_dec : RelDecision entry_le.
Proof. intros a b. unfold entry_le. apply _. Defined.

Definition batch_indices (batch : MwebUtxos) : list N := ue_leaf_index <$> mu_utxos batch.

(** The root rebuilt from a batch that has every leaf. *)
Definition rebuilt_root (batch : MwebUtxos) : option Bytes32 :=
  let sorted := merge_sort entry_le (mu_utxos batch) in
  mmr ← add_output_ids MemMmr_new ((λ e, output_id (ue_output e)) <$> sorted);
  mmr_root mmr.

Definition complete_unspent (unspent indices : list N) (num_leaves : N) : bool :=
  (N.of_nat (length unspent) =? num_leaves) &&
  bool_decide (unspent = range 0 num_leaves) && bool_decide (indices = unspent).

Definition batch_leaf_hashes (batch : MwebUtxos) : list (N * Bytes32) :=
  (λ e, (ue_leaf_index e, leaf_hash (ue_leaf_index e) (output_id (ue_output e)))) <$>
  mu_utxos batch.

Definition leaf_hashes_for_outputs (entries : list (N * Output)) : list Bytes32 :=
  (λ '(idx, out), leaf_hash idx (output_id out)) <$> entries.

Definition verify_utxo_batch (batch : MwebUtxos) (leafset : MwebLeafset)
    (header : MwebBlockHeader) : option (result Error unit) :=
  if decide (length (mu_utxos batch) = 0%nat) then Some (Ok tt)
  else
    let num_leaves := mh_output_mmr_size header in
    if num_leaves =? 0 then Some (Err (protocol "empty output MMR"))
    else if MAX_OUTPUT_MMR_SIZE <? num_leaves then
      Some (Err (protocol "pmmr: output_mmr_size {num_leaves} exceeds MAX_OUTPUT_MMR_SIZE"))
    else if not_ascending (batch_indices batch) then
      Some (Err (protocol "pmmr: mwebutxos leaf indices are not strictly ascending"))
    else
      let need := N.to_nat (div_ceil num_leaves 8) in
      if (length (ls_leafset leafset) <? need)%nat then
        Some (Err (protocol "leafset too short for PMMR verify"))
      else
        let bits := take need (ls_leafset leafset) in
        or_return (try_foldl (check_entry bits num_leaves) tt (batch_indices batch)) (λ _,
        fast ←
          (if complete_unspent (unspent_leaf_indices leafset) (batch_indices batch) num_leaves then
             root ← rebuilt_root batch; Some (bool_decide (root = mh_output_root header))
           else Some false);
        if fast : bool then Some (Ok tt)
        else
          verify_segment_root (batch_leaf_hashes batch) (mu_parent_hashes batch) bits num_leaves
            (mh_output_root header)).
End verify.
