(* ===== verification/MmrPaths.v ===== *)
(** * The positions a segment proof names

    The loops of [calc_hash_indices] and [calc_pruned_parents] end without
    overflow, and no position they name lies above an unspent leaf of the
    segment: such a leaf is always hashed, never taken from the proof. *)
From S2P Require Import Prelude Block MmrIndex Mmr MwebWire MmrVerify.

#[local] Open Scope N_scope.

(** Rewriting rules in place of reduction, which would unfold the loops. *)
Lemma some_bind {A B} (x : A) (f : A → option B) : (Some x ≫= f) = f x.
Proof. done. Qed.
Lemma default_some {A} (d x : A) : default d (Some x) = x.
Proof. done. Qed.

(** ** Ancestors of a leaf *)

Lemma anc_cover i h : i / pw h * pw h ≤ i < (i / pw h + 1) * pw h.
Proof.
  pose proof (pw_pos h). pose proof (N.div_mod i (pw h)). pose proof (N.mod_lt i (pw h)).
  generalize dependent (i / pw h). generalize dependent (i mod pw h). intros r Hr q Hq. lia.
Qed.

Lemma anc_unique i h k : k * pw h ≤ i < (k + 1) * pw h → k = i / pw h.
Proof. intros Hk. apply N.div_unique with (i - k * pw h); lia. Qed.

Lemma anc_0 i : i / pw 0 = i.
Proof. apply N.div_1_r. Qed.

Lemma anc_S i h :
  (i / pw h = 2 * (i / pw (S h)) ∧ i < (2 * (i / pw (S h)) + 1) * pw h) ∨
  (i / pw h = 2 * (i / pw (S h)) + 1 ∧ (2 * (i / pw (S h)) + 1) * pw h ≤ i).
Proof.
  pose proof (anc_cover i (S h)) as Hc. rewrite pw_S in Hc at 2 4.
  destruct (N.lt_ge_cases i ((2 * (i / pw (S h)) + 1) * pw h)) as [Hl|Hl]; [left|right];
    (split; [symmetry; apply anc_unique; lia|done]).
Qed.

Lemma anc_mono i h H :
  (h ≤ H)%nat →
  i / pw H * pw H ≤ i / pw h * pw h ∧ (i / pw h + 1) * pw h ≤ (i / pw H + 1) * pw H.
Proof.
  induction 1 as [|H Hle [IH1 IH2]]; [done|].
  rewrite (pw_S H) at 2 4. destruct (anc_S i H) as [[He _]|[He _]]; rewrite He in IH1, IH2; nia.
Qed.

(** ** Small numbers *)

Definition small (n : N) : Prop := n ≤ MAX_OUTPUT_MMR_SIZE.

Lemma small_pos n : small n → leaf_pos n ≤ 64000000.
Proof.
  unfold small, MAX_OUTPUT_MMR_SIZE, MAX_LEAFSET_BYTES. pose proof (leaf_pos_le n). lia.
Qed.

Lemma small_node n h k : small n → (k + 1) * pw h ≤ n → node_pos h k < 64000000 ∧ (h < 26)%nat.
Proof.
  intros Hn%small_pos Hk. pose proof (node_pos_lt_leaf h k). apply leaf_pos_le_mono in Hk.
  pose proof (node_pos_bounds h k) as [_ Hb]. split; [lia|].
  destruct (decide (h < 26)%nat); [done|].
  assert (pw 27 ≤ pw (S h)) by (apply pw_le; lia). assert (pw 27 = 134217728) by done. lia.
Qed.

Lemma small_leaf_position n i : small n → i ≤ n → leaf_position i = leaf_pos i.
Proof.
  unfold small, MAX_OUTPUT_MMR_SIZE, MAX_LEAFSET_BYTES. intros ??.
  apply leaf_position_small. unfold U64_MAX. lia.
Qed.

Lemma small_index_leaf n i : small n → i ≤ n → index_at (leaf_position i) = node_index 0 i.
Proof.
  intros Hn Hi. rewrite (small_leaf_position n) by done. apply index_at_leaf.
  apply leaf_pos_le_mono in Hi. apply small_pos in Hn. unfold U64_MAX. lia.
Qed.

Lemma checked_shl_u64_2 h : (S h < 64)%nat → checked_shl_u64 2 (N.of_nat h) = Some (pw (S h)).
Proof.
  intros Hh. unfold checked_shl_u64. rewrite (proj2 (N.ltb_lt _ _)) by lia.
  rewrite N.shiftl_mul_pow2. fold (pw h). rewrite <-pw_S, N.mod_small; [done|].
  by apply (pw_lt (S h) 64).
Qed.

(** ** Peaks *)

Lemma mountains_even j n h k : (h, k) ∈ mountains j n → ∃ m, k = 2 * m.
Proof.
  induction j as [|j IH]; cbn [mountains]; [by intros ?%elem_of_nil|].
  destruct (split_bit n j) as (a & r & _ & _ & -> & _ & _ & Hd & _).
  destruct (pw j <=? r); [|done]. intros [[= -> ->]|?]%elem_of_cons; [|by apply IH].
  exists a. rewrite Hd. lia.
Qed.

Lemma mountain_range_even n h k : (h, k) ∈ mountain_range n → ∃ m, k = 2 * m.
Proof. apply mountains_even. Qed.

(** The mountain of a leaf, with the peaks before and after it. *)
Record at_mountain (n i : N) (l1 : list (nat * N)) (H : nat) (l2 : list (nat * N)) : Prop := {
  at_range : mountain_range n = l1 ++ (H, i / pw H) :: l2;
  at_before : tiles 0 l1 (i / pw H * pw H);
  at_after : tiles ((i / pw H + 1) * pw H) l2 n;
}.

Lemma mountain_of n i : small n → i < n → ∃ l1 H l2, at_mountain n i l1 H l2.
Proof.
  intros Hn Hi. destruct (tiles_cover 0 (mountain_range n) n i) as (l1 & H & K & l2 & ? & Hc & ? & ?).
  - apply mountain_range_tiles. unfold small, MAX_OUTPUT_MMR_SIZE, MAX_LEAFSET_BYTES, U64_MAX in *. lia.
  - lia.
  - apply anc_unique in Hc as ->. exists l1, H, l2. by split.
Qed.

Section at_mountain.
Context (n i : N) (l1 : list (nat * N)) (H : nat) (l2 : list (nat * N)).
Context (Hn : small n) (Hat : at_mountain n i l1 H l2).

Lemma at_le : (i / pw H + 1) * pw H ≤ n.
Proof using Hat. destruct Hat as [_ _ Ha]. by apply tiles_le in Ha. Qed.

Lemma at_lt : i < n.
Proof using Hat. pose proof at_le. pose proof (anc_cover i H). lia. Qed.

Lemma at_peaks :
  peak_indices (num_nodes_for_leaves n) =
  Some ((peak_index <$> l1) ++ node_index H (i / pw H) :: (peak_index <$> l2)).
Proof using Hat Hn.
  unfold num_nodes_for_leaves. rewrite (small_leaf_position n n), peak_indices_correct.
  - destruct Hat as [-> _ _]. by rewrite fmap_app.
  - apply small_pos in Hn. unfold U64_MAX. lia.
  - done.
  - lia.
Qed.

Lemma before_lt h k : (h, k) ∈ l1 → (k + 1) * pw h ≤ i ∧ node_pos h k < leaf_pos i.
Proof using Hat.
  intros Hin. destruct Hat as [_ Hb _]. destruct (tiles_elem _ _ _ _ _ Hb Hin) as [_ Hle].
  pose proof (anc_cover i H) as [Hc _]. split; [lia|].
  eapply N.lt_le_trans; [apply node_pos_lt_leaf|]. apply leaf_pos_le_mono. lia.
Qed.

Lemma peak_ge h : (h ≤ H)%nat → node_pos h (i / pw h) ≤ node_pos H (i / pw H).
Proof using.
  clear. induction 1 as [|H' Hle IH]; [done|]. etrans; [exact IH|].
  pose proof (node_pos_odd H' (i / pw (S H'))). pose proof (node_pos_even H' (i / pw (S H'))).
  pose proof (node_pos_sibling H' (i / pw (S H'))).
  destruct (anc_S i H') as [[-> _]|[-> _]]; lia.
Qed.

Lemma leaf_le_peak : leaf_pos i ≤ node_pos H (i / pw H).
Proof using. rewrite <-node_pos_0, <-(anc_0 i) at 1. apply peak_ge. lia. Qed.

Lemma after_gt h k : (h, k) ∈ l2 → node_pos H (i / pw H) < node_pos h k.
Proof using Hat.
  intros Hin. destruct Hat as [_ _ Ha]. destruct (tiles_elem _ _ _ _ _ Ha Hin) as [Hle _].
  eapply N.lt_le_trans; [apply node_pos_lt_leaf|]. eapply N.le_trans; [by apply leaf_pos_le_mono|].
  unfold node_pos. rewrite pw_S. pose proof (pw_pos h). lia.
Qed.

Lemma peak_from_at :
  peak_from ((peak_index <$> l1) ++ node_index H (i / pw H) :: (peak_index <$> l2)) (node_index 0 i)
  = Some (node_index H (i / pw H)).
Proof using Hat.
  unfold peak_from. rewrite filter_app.
  assert (filter (λ p, idx_position (node_index 0 i) ≤ idx_position p) (peak_index <$> l1) = []) as ->.
  { apply filter_none. intros p [[h k] [-> Hin]]%list_elem_of_fmap.
    cbn. rewrite node_pos_0. apply before_lt in Hin. lia. }
  rewrite filter_cons, decide_True; [done|]. cbn. rewrite node_pos_0. apply leaf_le_peak.
Qed.
End at_mountain.

(** ** Where the positions named by a proof lie *)

Definition left_of (i p : N) : Prop := ∃ h k, p = node_pos h k ∧ (k + 1) * pw h ≤ i.
Definition right_of (i p : N) : Prop := ∃ h k, p = node_pos h k ∧ i < k * pw h.
Definition unset_below (bits : list N) (p : N) : Prop :=
  ∃ h k, p = node_pos h k ∧ ∀ i, k * pw h ≤ i < (k + 1) * pw h → bitset_test bits i = false.

(** The parent, as the path loops compute it from either child. *)
Lemma parent_index h m :
  mkIndex (node_pos h (2 * m + 1) + 1) (N.of_nat h + 1) = node_index (S h) m.
Proof. unfold node_index. rewrite <-node_pos_odd. f_equal. lia. Qed.

Lemma sibling_anc n i h H :
  small n → (i / pw H + 1) * pw H ≤ n → (h < H)%nat →
  sibling (node_index h (2 * (i / pw (S h)))) = Some (node_index h (2 * (i / pw (S h)) + 1)) ∧
  sibling (node_index h (2 * (i / pw (S h)) + 1)) = Some (node_index h (2 * (i / pw (S h)))) ∧
  node_pos h (2 * (i / pw (S h)) + 1) + 1 ≤ U64_MAX ∧ (h < 26)%nat.
Proof.
  intros Hn HH Hh. destruct (anc_mono i (S h) H Hh) as [_ Hle].
  destruct (small_node n (S h) (i / pw (S h)) Hn) as [Hs Hs']; [lia|].
  destruct (sibling_node h (i / pw (S h))) as [H1 H2]; [unfold U64_MAX; lia|].
  rewrite <-node_pos_odd. unfold U64_MAX. split_and!; [done..|lia|lia].
Qed.

Lemma on_left_edge_some n i h H :
  small n → (i / pw H + 1) * pw H ≤ n → (h ≤ H)%nat →
  ∃ b, on_left_edge (leaf_pos (i / pw H * pw H)) (node_index h (i / pw h)) = Some b ∧
    (h = H → b = true).
Proof.
  intros Hn HH Hh. destruct (anc_mono i h H Hh) as [Ha Hb].
  destruct (small_node n h (i / pw h) Hn) as [Hs Hs']; [lia|].
  apply leaf_pos_le_mono in Ha. pose proof (pw_pos h).
  unfold on_left_edge. cbn [idx_position idx_height node_index].
  rewrite checked_add_u64_small by (unfold U64_MAX; lia). cbn [mbind option_bind].
  unfold node_pos in *. rewrite (pw_S h) in *.
  rewrite checked_sub_small by lia. cbn [mbind option_bind].
  rewrite checked_shl_u64_2, pw_S by lia. eexists. split; [done|].
  intros ->. apply N.eqb_eq. lia.
Qed.

Lemma path_to_left_edge_spec n i H fuel h proof :
  small n → (i / pw H + 1) * pw H ≤ n → (h ≤ H)%nat → (H < h + fuel)%nat →
  ∃ proof', path_to_left_edge fuel (leaf_pos (i / pw H * pw H)) (node_index h (i / pw h)) proof
      = Some proof' ∧
    ∀ p, p ∈ proof' → p ∈ proof ∨ left_of i p.
Proof.
  intros Hn HH. revert h proof. induction fuel as [|fuel IH]; intros h proof Hh Hfuel; [lia|].
  cbn [path_to_left_edge]. destruct (on_left_edge_some n i h H) as (b & -> & Hb); [done..|].
  cbn [mbind option_bind]. destruct b; [by eauto|].
  assert (h < H)%nat as Hlt by (destruct (decide (h = H)); [by specialize (Hb e)|lia]).
  destruct (sibling_anc n i h H Hn HH Hlt) as (Hs1 & Hs2 & Hsmall & Hh26).
  pose proof (node_pos_sibling h (i / pw (S h))) as Hsib. pose proof (pw_pos h).
  pose proof (pw_S h) as HpS. pose proof (parent_index h (i / pw (S h))) as Hpar.
  assert (checked_add_u64 (N.of_nat h) 1 = Some (N.of_nat h + 1)) as Hh1.
  { apply checked_add_u64_small. unfold U64_MAX. lia. }
  destruct (anc_S i h) as [[Ha Hi]|[Ha Hi]]; rewrite Ha.
  - rewrite Hs1. cbn [mbind option_bind idx_position idx_height node_index].
    rewrite (proj2 (N.ltb_ge _ _)) by lia.
    rewrite (checked_add_u64_small (node_pos _ _)) by lia. cbn [mbind option_bind].
    rewrite Hh1. cbn [mbind option_bind]. rewrite Hpar. apply IH; lia.
  - rewrite Hs2. cbn [mbind option_bind idx_position idx_height node_index].
    rewrite (proj2 (N.ltb_lt _ _)) by lia.
    rewrite (checked_add_u64_small (node_pos _ _)) by lia. cbn [mbind option_bind].
    rewrite Hh1. cbn [mbind option_bind]. rewrite Hpar.
    destruct (IH (S h) (proof ∪ {[node_pos h (2 * (i / pw (S h)))]})) as (proof' & -> & Hp);
      [lia..|]. exists proof'. split; [done|]. intros p Hin. apply Hp in Hin as [Hin|Hin]; [|by right].
    apply elem_of_union in Hin as [Hin| ->%elem_of_singleton]; [by left|right].
    by exists h, (2 * (i / pw (S h))).
Qed.

Lemma path_to_right_edge_spec n i H fuel h proof :
  small n → (i / pw H + 1) * pw H ≤ n → (h ≤ H)%nat → (H < h + fuel)%nat →
  ∃ proof', path_to_right_edge fuel (node_index H (i / pw H)) (node_index h (i / pw h)) proof
      = Some proof' ∧
    ∀ p, p ∈ proof' → p ∈ proof ∨ right_of i p.
Proof.
  intros Hn HH. revert h proof. induction fuel as [|fuel IH]; intros h proof Hh Hfuel; [lia|].
  cbn [path_to_right_edge]. unfold on_right_edge. cbn [idx_position idx_height node_index].
  pose proof (node_pos_bounds H (i / pw H)) as [_ HHb]. pose proof (pw_gt (S H)).
  rewrite checked_sub_small by lia. cbn [mbind option_bind].
  destruct (N.leb_spec (node_pos H (i / pw H) - N.of_nat H) (node_pos h (i / pw h))) as [|He];
    [by eauto|].
  assert (h < H)%nat as Hlt by (destruct (decide (h = H)) as [->|]; lia).
  destruct (sibling_anc n i h H Hn HH Hlt) as (Hs1 & Hs2 & Hsmall & Hh26).
  pose proof (node_pos_sibling h (i / pw (S h))) as Hsib. pose proof (pw_pos h).
  pose proof (pw_S h) as HpS. pose proof (parent_index h (i / pw (S h))) as Hpar.
  assert (checked_add_u64 (N.of_nat h) 1 = Some (N.of_nat h + 1)) as Hh1.
  { apply checked_add_u64_small. unfold U64_MAX. lia. }
  destruct (anc_S i h) as [[Ha Hi]|[Ha Hi]]; rewrite Ha.
  - rewrite Hs1. cbn [mbind option_bind idx_position idx_height node_index].
    rewrite Hh1. cbn [mbind option_bind]. rewrite (proj2 (N.ltb_lt _ _)) by lia.
    rewrite checked_add_u64_small by lia. cbn [mbind option_bind]. rewrite Hpar.
    destruct (IH (S h) (proof ∪ {[node_pos h (2 * (i / pw (S h)) + 1)]})) as (proof' & -> & Hp);
      [lia..|]. exists proof'. split; [done|]. intros p Hin. apply Hp in Hin as [Hin|Hin]; [|by right].
    apply elem_of_union in Hin as [Hin| ->%elem_of_singleton]; [by left|right].
    by exists h, (2 * (i / pw (S h)) + 1).
  - rewrite Hs2. cbn [mbind option_bind idx_position idx_height node_index].
    rewrite Hh1. cbn [mbind option_bind]. rewrite (proj2 (N.ltb_ge _ _)) by lia.
    rewrite checked_add_u64_small by lia. cbn [mbind option_bind]. rewrite Hpar. apply IH; lia.
Qed.

(** ** The peaks before the segment *)

Lemma peaks_left_of_spec first_node before h K after proof prev :
  (∀ p, p ∈ before → node_pos p.1 p.2 < idx_position first_node) →
  idx_position first_node ≤ node_pos h K →
  peaks_left_of ((peak_index <$> before) ++ node_index h K :: after) first_node proof prev =
  (proof ∪ list_to_set ((λ p, node_pos p.1 p.2) <$> before),
   match last before with Some p => Some (peak_index p) | None => prev end).
Proof.
  revert proof prev. induction before as [|[h' k'] before IH]; intros proof prev Hb Hh.
  - cbn. rewrite (proj2 (N.ltb_ge _ _)) by done. f_equal. set_solver.
  - cbn [fmap list_fmap app peaks_left_of]. cbn [peak_index fst snd idx_position node_index].
    rewrite (proj2 (N.ltb_lt _ _)) by (apply (Hb (h', k')); by apply elem_of_cons; left).
    rewrite IH; [|intros p Hp; apply Hb; by apply elem_of_cons; right|done]. f_equal.
    + cbn. set_solver.
    + rewrite last_cons. by destruct (last before).
Qed.

Lemma adjustment_at n i l1 H l2 :
  small n → at_mountain n i l1 H l2 →
  match (match last l1 with Some p => Some (peak_index p) | None => None end) with
  | Some p => checked_add_u64 (idx_position p) 1
  | None => Some 0
  end = Some (leaf_pos (i / pw H * pw H)).
Proof.
  intros Hn Hat. pose proof (at_before _ _ _ _ _ Hat) as Hb.
  destruct l1 as [|[h k] l1 _] using rev_ind.
  - cbn in *. by rewrite <-Hb.
  - rewrite last_snoc. cbn. apply tiles_app in Hb as (c & _ & Hc). cbn in Hc.
    destruct Hc as [_ Hc].
    destruct (mountain_range_even n h k) as [m ->].
    { rewrite (at_range _ _ _ _ _ Hat). set_solver. }
    rewrite <-Hc, node_pos_next_leaf. apply checked_add_u64_small.
    destruct (small_node n h (2 * m) Hn); [|unfold U64_MAX; lia].
    pose proof (at_lt _ _ _ _ _ Hat). pose proof (anc_cover i H). lia.
Qed.

(** ** Pruned subtrees *)

Definition pruned_ok (bits : list N) (ret : gset N) : Prop := ∀ p, p ∈ ret → unset_below bits p.

Lemma elem_of_range a b i : i ∈ range a b ↔ a ≤ i < b.
Proof.
  unfold range. rewrite list_elem_of_fmap. setoid_rewrite elem_of_seq. split.
  - intros (j & -> & Hj). lia.
  - intros Hi. exists (N.to_nat (i - a)). lia.
Qed.

Lemma foldl_invariant {A B} (P : A → Prop) (f : A → B → A) (l : list B) (a : A) :
  P a → (∀ a b, b ∈ l → P a → P (f a b)) → P (foldl f a l).
Proof.
  revert a. induction l as [|b l IH]; intros a Ha Hf; [done|]. cbn. apply IH.
  - apply Hf; [by apply elem_of_cons; left|done].
  - intros a' b' Hb'. apply Hf. by apply elem_of_cons; right.
Qed.

Lemma pruned_leaves_ok bits n : small n → pruned_ok bits (pruned_leaves bits n).
Proof.
  intros Hn. unfold pruned_leaves. apply foldl_invariant; [by intros p ?%elem_of_empty|].
  intros ret i Hi%elem_of_range Hret. destruct (bitset_test bits i) eqn:Hb; [done|].
  intros p [Hp| ->%elem_of_singleton]%elem_of_union; [by apply Hret|].
  rewrite (small_leaf_position n) by (done || lia). exists 0%nat, i. rewrite node_pos_0, pw_0.
  split; [done|]. intros j Hj. by replace j with i by lia.
Qed.

Lemma prune_parent_ok bits ret h k :
  node_pos (S h) k ≤ U64_MAX → pruned_ok bits ret →
  pruned_ok bits (prune_parent ret (node_index (S h) k)).
Proof.
  intros Hs Hret. unfold prune_parent. rewrite right_child_node, left_child_node by done.
  cbn [idx_position node_index]. case_decide as Hd; [|done]. destruct Hd as [Hr Hl].
  intros p [Hp| ->%elem_of_singleton]%elem_of_union; [apply Hret; set_solver|].
  exists (S h), k. split; [done|]. rewrite pw_S. intros i Hi.
  apply Hret in Hr as (h1 & k1 & [<- <-]%node_pos_inj & Hr).
  apply Hret in Hl as (h2 & k2 & [<- <-]%node_pos_inj & Hl).
  destruct (N.lt_ge_cases i ((2 * k + 1) * pw h)); [apply Hl|apply Hr]; lia.
Qed.

(** The next node of a row: the code's increment. *)
Lemma node_pos_step h k :
  node_pos h (k + 1) = node_pos h k + (pw (S h) - 1 + trailing_zeros (k + 1)).
Proof.
  pose proof (node_pos_eq h k) as [H1 _]. pose proof (node_pos_eq h (k + 1)) as [H2 _].
  pose proof (count_ones_succ k). rewrite pw_S. pose proof (pw_pos h). lia.
Qed.

Lemma trailing_zeros_le n : 0 < n → trailing_zeros n ≤ n.
Proof.
  intros Hn. pose proof (leaf_pos_succ (n - 1)) as Hl.
  replace (n - 1 + 1) with n in Hl by lia.
  pose proof (count_ones_succ (n - 1)) as Hc. replace (n - 1 + 1) with n in Hc by lia.
  pose proof (count_ones_le (n - 1)). lia.
Qed.

(** [sibling_num] nodes of the row have been treated. *)
Definition row_state (h : nat) (sibling_num position : N) : Prop :=
  sibling_num = 0 ∨ ∃ k, sibling_num = k + 1 ∧ position = node_pos h k.

Lemma row_position h sibling_num position :
  row_state h sibling_num position → sibling_num ≤ 64000001 → position ≤ 64000000 →
  (h < 27)%nat →
  (if sibling_num =? 0 then checked_sub (pw (S h) - 1) 1
   else
     increment ← checked_add_u64 (pw (S h) - 1) (count_rightmost_zeros sibling_num);
     checked_add_u64 position increment) = Some (node_pos h sibling_num).
Proof.
  intros [-> |(k & -> & ->)] Hk Hp Hh.
  - cbn [N.eqb]. pose proof (pw_pos h). rewrite checked_sub_small by (rewrite pw_S; lia).
    unfold node_pos. f_equal. change (leaf_pos (0 * pw h)) with 0. lia.
  - rewrite (proj2 (N.eqb_neq _ 0)) by lia.
    assert (pw (S h) ≤ pw 27) by (apply pw_le; lia). assert (pw 27 = 134217728) by done.
    unfold count_rightmost_zeros. rewrite (proj2 (N.eqb_neq _ 0)) by lia.
    pose proof (trailing_zeros_le (k + 1)).
    rewrite (checked_add_u64_small (pw (S h) - 1)) by (unfold U64_MAX; lia).
    cbn [mbind option_bind]. rewrite node_pos_step. apply checked_add_u64_small.
    unfold U64_MAX. lia.
Qed.

Lemma prune_row_ok bits fuel last h sibling_num position ret :
  last ≤ 64000000 → (S h < 27)%nat → pruned_ok bits ret →
  row_state (S h) sibling_num position → sibling_num ≤ last + 1 → position ≤ last →
  (N.to_nat (last + 1) < N.to_nat sibling_num + fuel)%nat →
  ∃ ret', prune_row fuel last (pw (S (S h)) - 1) (N.of_nat (S h)) sibling_num position ret
      = Some ret' ∧ pruned_ok bits ret'.
Proof.
  intros Hlast Hh. revert sibling_num position ret.
  induction fuel as [|fuel IH]; intros k position ret Hret Hst Hk Hpos Hfuel; [lia|].
  cbn [prune_row]. rewrite row_position by (done || lia). cbn [mbind option_bind].
  rewrite checked_add_u64_small by (unfold U64_MAX; lia). cbn [mbind option_bind].
  destruct (N.ltb_spec last (node_pos (S h) k)); [by eauto|].
  apply IH; try done.
  - apply prune_parent_ok; [unfold U64_MAX; lia|done].
  - right. by exists k.
  - pose proof (node_pos_bounds (S h) k) as [Hb _]. pose proof (pw_pos (S h)). nia.
  - lia.
Qed.

Lemma prune_heights_ok bits fuel last h ret :
  last ≤ 64000000 → (S h ≤ 27)%nat → pruned_ok bits ret → (28 ≤ S h + fuel)%nat →
  ∃ ret', prune_heights fuel last (N.of_nat (S h)) ret = Some ret' ∧ pruned_ok bits ret'.
Proof.
  intros Hlast. revert h ret. induction fuel as [|fuel IH]; intros h ret Hh Hret Hfuel; [lia|].
  cbn [prune_heights]. rewrite checked_shl_u64_2 by lia. cbn [mbind option_bind].
  pose proof (pw_pos (S h)). pose proof (pw_S (S h)).
  rewrite (checked_sub_small _ 2) by lia. cbn [mbind option_bind].
  destruct (N.leb_spec (pw (S (S h)) - 2) last) as [Hle|]; [|by eauto].
  assert (S h < 26)%nat.
  { destruct (decide (S h < 26)%nat); [done|].
    assert (pw 27 ≤ pw (S (S h))) by (apply pw_le; lia). assert (pw 27 = 134217728) by done. lia. }
  rewrite checked_sub_small by lia. cbn [mbind option_bind].
  destruct (prune_row_ok bits (S (S (N.to_nat last))) last h 0 0 ret) as (ret' & -> & Hret');
    [lia|lia|done|by left|lia..|].
  assert (checked_add_u64 (N.of_nat (S h)) 1 = Some (N.of_nat (S (S h)))) as Hnext.
  { rewrite checked_add_u64_small; [f_equal; lia|unfold U64_MAX; lia]. }
  rewrite some_bind, Hnext, some_bind. apply IH; [lia|done|lia].
Qed.

Lemma calc_pruned_parents_ok bits n :
  small n → ∃ ret, calc_pruned_parents bits n = Some ret ∧ pruned_ok bits ret.
Proof.
  intros Hn. unfold calc_pruned_parents. pose proof (pruned_leaves_ok bits n Hn) as Hl.
  destruct (_ || _); [by eauto|]. unfold num_nodes_for_leaves.
  rewrite (small_leaf_position n) by (done || lia).
  apply (prune_heights_ok bits 64 (leaf_pos n) 0); [by apply small_pos|lia|done|lia].
Qed.

(** ** All four steps *)

Lemma pruned_between_elem bits pruned a b proof p :
  pruned_ok bits pruned → p ∈ pruned_between pruned a b proof → p ∈ proof ∨ unset_below bits p.
Proof.
  intros Hok. unfold pruned_between. revert p. apply foldl_invariant; [by left|].
  intros s q _ IH p. case_decide; [|by apply IH].
  intros [?| ->%elem_of_singleton]%elem_of_union; [by apply IH|right; by apply Hok].
Qed.

Lemma calc_hash_indices_spec bits n first last :
  small n → first < n → last < n →
  ∃ s, calc_hash_indices bits n first last = Some s ∧
    ∀ p, p ∈ s → left_of first p ∨ unset_below bits p ∨ right_of last p.
Proof.
  intros Hn Hf Hl.
  destruct (mountain_of n first) as (l1 & H & l2 & Hat); [done..|].
  destruct (mountain_of n last) as (r1 & H' & r2 & Hat'); [done..|].
  destruct (small_node n H (first / pw H) Hn (at_le _ _ _ _ _ Hat)) as [_ HH].
  destruct (small_node n H' (last / pw H') Hn (at_le _ _ _ _ _ Hat')) as [_ HH'].
  unfold calc_hash_indices. rewrite (at_peaks _ _ _ _ _ Hn Hat). rewrite some_bind.
  rewrite !(small_index_leaf n) by (done || lia).
  rewrite peaks_left_of_spec; cycle 1.
  { intros [h k] Hin. cbn. rewrite node_pos_0. by eapply before_lt. }
  { cbn. rewrite node_pos_0. apply leaf_le_peak. }
  rewrite (adjustment_at _ _ _ _ _ Hn Hat). rewrite some_bind.
  assert (node_index 0 first = node_index 0 (first / pw 0)) as -> by (by rewrite anc_0).
  destruct (path_to_left_edge_spec n first H 65 0
    (∅ ∪ list_to_set ((λ p, node_pos p.1 p.2) <$> l1)) Hn) as (p1 & -> & Hp1);
    [by eapply at_le|lia..|]. rewrite some_bind.
  destruct (calc_pruned_parents_ok bits n Hn) as (pruned & -> & Hpruned). rewrite some_bind.
  assert ((peak_index <$> l1) ++ node_index H (first / pw H) :: (peak_index <$> l2) =
    (peak_index <$> r1) ++ node_index H' (last / pw H') :: (peak_index <$> r2)) as ->.
  { apply (inj Some). by rewrite <-(at_peaks _ _ _ _ _ Hn Hat), <-(at_peaks _ _ _ _ _ Hn Hat'). }
  rewrite (peak_from_at _ _ _ _ _ Hat'). rewrite default_some.
  assert (node_index 0 last = node_index 0 (last / pw 0)) as -> by (by rewrite anc_0).
  destruct (path_to_right_edge_spec n last H' 65 0 (pruned_between pruned first last p1) Hn)
    as (p2 & -> & Hp2); [by eapply at_le|lia..|].
  exists p2. split; [done|]. intros p [Hp|Hp]%Hp2; [|by auto].
  apply (pruned_between_elem bits) in Hp as [Hp|Hp]; [|by auto|done].
  apply Hp1 in Hp as [Hp|Hp]; [left|by left].
  apply elem_of_union in Hp as [?%elem_of_empty|Hp]; [done|].
  apply elem_of_list_to_set, list_elem_of_fmap in Hp as ([h k] & -> & Hin).
  exists h, k. split; [done|]. by eapply before_lt.
Qed.
