(* ===== verification/MmrSound.v ===== *)
(** * What an accepted batch proves

    If the header's root is the root of the mountain range over the output ids
    [ids], a batch that [verify_utxo_batch] accepts has only outputs whose ids
    are in [ids], at the leaves it claims, as long as BLAKE3 has no collision
    among the payloads hashed when building the range and when checking the
    batch. *)
From S2P Require Import Prelude Block MmrIndex Mmr MwebWire MmrVerify MmrPaths.

#[local] Open Scope N_scope.

(** ** Payloads *)

Section payloads.
Context `{Blake3}.

Lemma parent_payload_inj p l r p' l' r' :
  p ≤ U64_MAX → p' ≤ U64_MAX → parent_payload p l r = parent_payload p' l' r' →
  p = p' ∧ l = l' ∧ r = r'.
Proof.
  intros Hp Hp' Heq. unfold parent_payload in Heq.
  apply app_inj_1 in Heq as [Hpos Heq]; [|by rewrite !length_le_bytes].
  apply app_inj_1 in Heq as [Hl Hr]; [|by rewrite !length_vec_to_list].
  apply le_bytes_inj in Hpos; [|change (256 ^ N.of_nat 8) with (U64_MAX + 1); lia..].
  apply vec_to_list_inj2 in Hl, Hr. done.
Qed.

Lemma leaf_payload_inj i o o' : leaf_payload i o = leaf_payload i o' → o = o'.
Proof.
  intros Heq. unfold leaf_payload in Heq. apply app_inj_1 in Heq as [_ Heq]; [|done].
  injection Heq as Heq. by apply vec_to_list_inj2 in Heq.
Qed.

Lemma leaf_parent_payload i o p l r : leaf_payload i o ≠ parent_payload p l r.
Proof.
  intros Heq%(f_equal length). unfold leaf_payload, parent_payload in Heq.
  rewrite !length_app, !length_le_bytes, !length_vec_to_list in Heq. done.
Qed.

(** No two different payloads of the list have the same hash. *)
Definition collision_free (P : list (list N)) : Prop :=
  ∀ x y, x ∈ P → y ∈ P → blake3_hash x = blake3_hash y → x = y.

#[export] Instance collision_free_dec P : Decision (collision_free P).
Proof.
  refine (cast_if (decide (Forall (λ x, Forall (λ y, blake3_hash x = blake3_hash y → x = y) P) P))).
  - intros x y Hx Hy. eapply Forall_forall in f; [|exact Hx]. by eapply Forall_forall in f.
  - intros Hcf. destruct n. apply Forall_forall. intros x Hx. apply Forall_forall.
    intros y Hy. by apply Hcf.
Defined.

Lemma collision_free_sub P Q : P ⊆ Q → collision_free Q → collision_free P.
Proof. unfold collision_free. set_solver. Qed.

Fixpoint tree_payloads (ids : list Bytes32) (h : nat) (k : N) : list (list N) :=
  match h with
  | O => [leaf_payload k (id_at ids k)]
  | S h' =>
    parent_payload (node_pos h k) (node_hash ids h' (2 * k)) (node_hash ids h' (2 * k + 1)) ::
    tree_payloads ids h' (2 * k) ++ tree_payloads ids h' (2 * k + 1)
  end.

Fixpoint bag_onto_payloads (n : N) (peaks : list Bytes32) (last : Bytes32) : list (list N) :=
  match peaks with
  | [] => []
  | p :: peaks => parent_payload n p (bag_onto n peaks last) :: bag_onto_payloads n peaks last
  end.
Fixpoint bag_payloads (n : N) (peaks : list Bytes32) : list (list N) :=
  match peaks with
  | [] | [_] => []
  | p :: peaks => parent_payload n p (bag n peaks) :: bag_payloads n peaks
  end.

(** The payloads hashed in building the range over [ids]. *)
Definition mmr_payloads (ids : list Bytes32) : list (list N) :=
  (mountain_range (num_ids ids) ≫= λ p, tree_payloads ids p.1 p.2) ++
  bag_payloads (leaf_pos (num_ids ids)) (peak_hashes ids).

Lemma bag_payloads_snoc n l p : bag_payloads n (l ++ [p]) = bag_onto_payloads n l p.
Proof.
  induction l as [|q l IH]; [done|]. cbn [bag_onto_payloads]. rewrite <-IH, <-bag_snoc.
  by destruct l.
Qed.

Lemma bag_payloads_app n l1 l2 :
  l2 ≠ [] → bag_onto_payloads n l1 (bag n l2) ⊆ bag_payloads n (l1 ++ l2).
Proof.
  destruct l2 as [|p l2 _] using rev_ind; [done|]. intros _.
  rewrite app_assoc, bag_payloads_snoc, bag_snoc.
  induction l1 as [|q l1 IH]; cbn; [set_solver|].
  assert (bag_onto n (l1 ++ l2) p = bag_onto n l1 (bag_onto n l2 p)) as ->.
  { clear. induction l1 as [|q l1 IH]; cbn; [done|]. by rewrite IH. }
  set_solver.
Qed.

Lemma bag_onto_snoc n l p last : bag_onto n (l ++ [p]) last = bag_onto n l (parent_hash n p last).
Proof. induction l as [|q l IH]; [done|]. cbn. by rewrite IH. Qed.

Lemma bag_onto_payloads_snoc n l p last :
  bag_onto_payloads n (l ++ [p]) last =
  bag_onto_payloads n l (parent_hash n p last) ++ [parent_payload n p last].
Proof.
  induction l as [|q l IH]; [done|]. cbn [app bag_onto_payloads].
  by rewrite IH, bag_onto_snoc.
Qed.

(** ** Equal hashes come from equal inputs *)

Section injective.
Context (P : list (list N)) (Hcf : collision_free P).

Lemma parent_hash_inj p l r p' l' r' :
  p ≤ U64_MAX → p' ≤ U64_MAX → parent_payload p l r ∈ P → parent_payload p' l' r' ∈ P →
  parent_hash p l r = parent_hash p' l' r' → p = p' ∧ l = l' ∧ r = r'.
Proof using Hcf. intros ?? H1 H2 Heq. eapply parent_payload_inj; [done..|]. by apply Hcf. Qed.

Lemma leaf_hash_inj i o o' :
  leaf_payload i o ∈ P → leaf_payload i o' ∈ P → leaf_hash i o = leaf_hash i o' → o = o'.
Proof using Hcf. intros H1 H2 Heq. eapply leaf_payload_inj. by apply Hcf. Qed.

Lemma bag_onto_inj n A x B y :
  n ≤ U64_MAX → length A = length B →
  bag_onto_payloads n A x ⊆ P → bag_onto_payloads n B y ⊆ P →
  bag_onto n A x = bag_onto n B y → A = B ∧ x = y.
Proof using Hcf.
  intros Hn. revert B. induction A as [|a A IH]; intros [|b B]; cbn; try done.
  intros [= Hlen] HA HB Heq.
  apply parent_hash_inj in Heq as (_ & -> & Heq); [|done|done|set_solver..].
  destruct (IH B) as [-> ->]; [done|set_solver..|done|done].
Qed.

Lemma bag_inj n A B :
  n ≤ U64_MAX → length A = length B → bag_payloads n A ⊆ P → bag_payloads n B ⊆ P →
  bag n A = bag n B → A = B.
Proof using Hcf.
  intros Hn. destruct A as [|a A _] using rev_ind; destruct B as [|b B _] using rev_ind;
    rewrite ?length_app; cbn; try done; try lia.
  intros Hlen. rewrite !bag_payloads_snoc, !bag_snoc. intros HA HB Heq.
  by apply bag_onto_inj in Heq as [-> ->]; [|done|lia|..].
Qed.

(** The hash of a node is not a hash of bagged peaks. *)
Lemma node_hash_not_bagged ids h k n l r :
  node_pos h k < n → n ≤ U64_MAX → tree_payloads ids h k ⊆ P → parent_payload n l r ∈ P →
  node_hash ids h k ≠ parent_hash n l r.
Proof using Hcf.
  intros Hlt Hn Hsub Hin Heq. destruct h as [|h]; cbn in *.
  - apply Hcf in Heq; [|set_solver..]. by apply leaf_parent_payload in Heq.
  - apply parent_hash_inj in Heq as [Heq _]; [lia|lia|done|set_solver|done].
Qed.

Lemma tree_inj ids ids' h k i :
  node_pos h k ≤ U64_MAX → tree_payloads ids h k ⊆ P → tree_payloads ids' h k ⊆ P →
  node_hash ids h k = node_hash ids' h k → k * pw h ≤ i < (k + 1) * pw h →
  id_at ids i = id_at ids' i.
Proof using Hcf.
  revert k. induction h as [|h IH]; intros k; cbn [tree_payloads node_hash].
  - rewrite pw_0. intros _ H1 H2 Heq Hi. replace i with k by lia.
    apply leaf_hash_inj in Heq; [done|set_solver..].
  - rewrite pw_S. intros Hmax H1 H2 Heq Hi.
    pose proof (node_pos_odd h k). pose proof (node_pos_sibling h k). pose proof (pw_pos (S h)).
    pose proof (pw_gt (S h)).
    apply parent_hash_inj in Heq as (_ & Hl & Hr); [|done|done|set_solver..].
    destruct (N.lt_ge_cases i ((2 * k + 1) * pw h)).
    + apply (IH (2 * k)); [lia|set_solver..|done|lia].
    + apply (IH (2 * k + 1)); [lia|set_solver..|done|lia].
Qed.
End injective.
End payloads.

(** ** The nodes known after the bottom-up pass *)

Section nodes.
Context `{Blake3}.

(** The parents hashed by the pass. *)
Definition fill_payload (init nodes : gmap N Bytes32) (pos : N) : option (list N) :=
  match init !! pos with
  | Some _ => None
  | None =>
    l ← left_child (index_at pos);
    r ← right_child (index_at pos);
    lh ← nodes !! idx_position l;
    rh ← nodes !! idx_position r;
    Some (parent_payload pos lh rh)
  end.
Definition fill_payloads (init nodes : gmap N Bytes32) (num_nodes : N) : list (list N) :=
  omap (fill_payload init nodes) (range 0 num_nodes).

(** A node that was not given is the hash of its children. *)
Definition filled (init nodes : gmap N Bytes32) : Prop :=
  init ⊆ nodes ∧
  ∀ p v, nodes !! p = Some v → init !! p = None →
    ∃ h k l r, p = node_pos (S h) k ∧ nodes !! node_pos h (2 * k) = Some l ∧
      nodes !! node_pos h (2 * k + 1) = Some r ∧ v = parent_hash p l r.

Lemma fill_node_filled init nodes p :
  p ≤ U64_MAX → filled init nodes → filled init (fill_node nodes p).
Proof.
  intros Hp [Hsub Hfilled]. unfold fill_node.
  destruct (node_pos_surj p) as (h & k & ->). rewrite index_at_node, is_leaf_node by done.
  case_bool_decide as Hh; [done|]. destruct h as [|h]; [done|].
  destruct (nodes !! node_pos (S h) k) eqn:Hnone; [done|].
  rewrite left_child_node, right_child_node by done. cbn [idx_position node_index].
  destruct (nodes !! node_pos h (2 * k)) as [l|] eqn:Hl; [|done].
  destruct (nodes !! node_pos h (2 * k + 1)) as [r|] eqn:Hr; [|done].
  assert (nodes ⊆ <[node_pos (S h) k := parent_hash (node_pos (S h) k) l r]> nodes) as Hmono
    by by apply insert_subseteq.
  split; [by etrans|]. intros q v Hq Hinit. apply lookup_insert_Some in Hq as [[<- <-]|[_ Hq]].
  - exists h, k, l, r. by split_and!; try (eapply lookup_weaken; done).
  - destruct (Hfilled _ _ Hq Hinit) as (h' & k' & l' & r' & ? & ? & ? & ?).
    exists h', k', l', r'. by split_and!; try (eapply lookup_weaken; done).
Qed.

Lemma fill_nodes_filled init n : n ≤ U64_MAX → filled init (fill_nodes init n).
Proof.
  intros Hn. unfold fill_nodes. apply foldl_invariant.
  - split; [done|]. by intros p v ->.
  - intros nodes p Hp%elem_of_range Hf. apply fill_node_filled; [lia|done].
Qed.

(** Only positions of the range are added. *)
Lemma fill_nodes_dom init n p v :
  fill_nodes init n !! p = Some v → init !! p = None → p < n.
Proof.
  intros Hp Hinit. revert p v Hp Hinit. unfold fill_nodes. apply foldl_invariant; [by intros p v ->|].
  intros nodes q Hq%elem_of_range IH p v. unfold fill_node.
  repeat (case_match; try (by apply IH)).
  intros [[<- _]|[_ ?]]%lookup_insert_Some; [lia|by eapply IH].
Qed.

Lemma fill_payloads_elem init nodes n h k l r :
  node_pos (S h) k < n → n ≤ U64_MAX → init !! node_pos (S h) k = None →
  nodes !! node_pos h (2 * k) = Some l → nodes !! node_pos h (2 * k + 1) = Some r →
  parent_payload (node_pos (S h) k) l r ∈ fill_payloads init nodes n.
Proof.
  intros Hlt Hn Hinit Hl Hr. unfold fill_payloads. apply list_elem_of_omap.
  exists (node_pos (S h) k). split; [apply elem_of_range; lia|].
  unfold fill_payload. rewrite Hinit, index_at_node by lia.
  rewrite left_child_node, right_child_node by lia. cbn. by rewrite Hl, Hr.
Qed.

Section descend.
Context (P : list (list N)) (Hcf : collision_free P).
Context (init nodes : gmap N Bytes32) (n : N).
Context (Hfilled : filled init nodes).
Context (Hdom : ∀ p v, nodes !! p = Some v → init !! p = None → p < n).
Context (Hn : n ≤ U64_MAX) (HP : fill_payloads init nodes n ⊆ P).

(** From a node known to be right down to a leaf whose ancestors were all
    computed. *)
Lemma descend ids h i oid :
  tree_payloads ids h (i / pw h) ⊆ P →
  nodes !! node_pos h (i / pw h) = Some (node_hash ids h (i / pw h)) →
  (∀ h', (0 < h' ≤ h)%nat → init !! node_pos h' (i / pw h') = None) →
  nodes !! leaf_pos i = Some (leaf_hash i oid) → leaf_payload i oid ∈ P →
  id_at ids i = oid.
Proof using Hcf Hfilled Hdom Hn HP.
  induction h as [|h IH]; intros Hsub Hnode Hinit Hleaf Hin.
  - rewrite anc_0, node_pos_0, Hleaf in Hnode. injection Hnode as Hnode.
    rewrite anc_0 in Hsub. cbn [tree_payloads node_hash] in *.
    apply (leaf_hash_inj P) in Hnode; [done|done|done|set_solver].
  - set (K := i / pw (S h)) in *.
    assert (init !! node_pos (S h) K = None) as HKi by (apply Hinit; lia).
    pose proof (Hdom _ _ Hnode HKi) as HKn.
    destruct Hfilled as [_ Hf]. destruct (Hf _ _ Hnode HKi) as (h' & k' & l & r & Heq & Hl & Hr & Hv).
    apply node_pos_inj in Heq as [[= <-] <-]. cbn [tree_payloads node_hash] in *.
    pose proof (fill_payloads_elem init nodes n h K l r HKn Hn HKi Hl Hr) as Hpay.
    apply (parent_hash_inj P) in Hv as (_ & <- & <-); [|done|lia|lia|set_solver|by apply HP].
    destruct (anc_S i h) as [[Ha _]|[Ha _]]; fold K in Ha; rewrite Ha in IH.
    + apply IH; try done; [set_solver|]. intros h' Hh'. apply Hinit. lia.
    + apply IH; try done; [set_solver|]. intros h' Hh'. apply Hinit. lia.
Qed.
End descend.

(** ** The map before the pass *)

Lemma insert_all_notin m (l : list (N * Bytes32)) p :
  p ∉ l.*1 → insert_nodes m l !! p = m !! p.
Proof.
  unfold insert_nodes. revert m. induction l as [|[q v] l IH]; intros m; [done|].
  cbn. intros Hp. rewrite IH by set_solver. apply lookup_insert_ne. set_solver.
Qed.

Lemma insert_all_elem m (l : list (N * Bytes32)) p v :
  NoDup l.*1 → (p, v) ∈ l → insert_nodes m l !! p = Some v.
Proof.
  unfold insert_nodes. revert m. induction l as [|[q w] l IH]; intros m; [by intros _ ?%elem_of_nil|].
  cbn. intros [Hq Hnd]%NoDup_cons [[= <- <-]|Hin]%elem_of_cons; [|by apply IH].
  fold (insert_nodes (<[p:=v]> m) l). rewrite insert_all_notin by done. apply lookup_insert_eq.
Qed.

Lemma zip_fst_subset (l : list N) (l' : list Bytes32) : (zip l l').*1 ⊆ l.
Proof.
  revert l'. induction l as [|x l IH]; intros [|y l']; cbn; set_solver.
Qed.
End nodes.

(** ** Peaks of the map *)

Section peaks.
Context `{Blake3} (nodes : gmap N Bytes32).

Definition peak_known (p : nat * N) (v : Bytes32) : Prop := nodes !! node_pos p.1 p.2 = Some v.

Lemma peaks_through_app mpos before after vs :
  (∀ p, p ∈ before → node_pos p.1 p.2 ≤ mpos) → (∀ p, p ∈ after → mpos < node_pos p.1 p.2) →
  peaks_through nodes mpos (peak_index <$> before ++ after) = Ok vs →
  Forall2 peak_known before vs.
Proof.
  revert vs. induction before as [|p before IH]; intros vs Hb Ha; cbn [app].
  - destruct after as [|p after]; cbn; [by intros [= <-]|].
    rewrite (proj2 (N.ltb_lt _ _)) by (apply Ha; set_solver). by intros [= <-].
  - cbn [fmap list_fmap peaks_through]. cbn [peak_index idx_position node_index].
    rewrite (proj2 (N.ltb_ge _ _)) by (apply Hb; set_solver).
    destruct (nodes !! node_pos p.1 p.2) as [v|] eqn:Hv; [|done].
    destruct (peaks_through _ _ _) as [ws|] eqn:Hw; [|done]. cbn. intros [= <-].
    constructor; [done|]. apply IH; [set_solver|done|done].
Qed.

Lemma peaks_beyond_app mpos before after vs :
  (∀ p, p ∈ before → node_pos p.1 p.2 ≤ mpos) → (∀ p, p ∈ after → mpos < node_pos p.1 p.2) →
  peaks_beyond nodes mpos (peak_index <$> before ++ after) = Ok vs →
  Forall2 peak_known after vs.
Proof.
  intros Hb Ha. induction before as [|p before IH]; cbn [app].
  - clear Hb. revert vs. induction after as [|p after IH]; intros vs.
    + by intros [= <-].
    + cbn [fmap list_fmap peaks_beyond]. cbn [peak_index idx_position node_index].
      rewrite (proj2 (N.ltb_lt _ _)) by (apply Ha; set_solver).
      destruct (nodes !! node_pos p.1 p.2) as [v|] eqn:Hv; [|done].
      destruct (peaks_beyond _ _ _) as [ws|] eqn:Hw; [|done]. cbn. intros [= <-].
      constructor; [done|]. apply IH; [set_solver|done].
  - cbn [fmap list_fmap peaks_beyond]. cbn [peak_index idx_position node_index].
    rewrite (proj2 (N.ltb_ge _ _)) by (apply Hb; set_solver). apply IH. set_solver.
Qed.

(** The known values agree with the range. *)
Lemma peaks_known_eq ids ps vs :
  Forall2 peak_known ps vs → vs = tree_hash ids <$> ps →
  ∀ h k, (h, k) ∈ ps → nodes !! node_pos h k = Some (node_hash ids h k).
Proof.
  intros Hall ->. rewrite Forall2_fmap_r in Hall. intros h k Hin.
  apply Forall2_same_length_lookup in Hall as [_ Hl]. apply list_elem_of_lookup in Hin as [j Hj].
  by apply (Hl j (h, k) (h, k)).
Qed.
End peaks.

(** ** Segments *)

Section segment.
Context `{Blake3}.

(** The payloads hashed by [verify_segment_root] when it gets to compare. *)
Definition root_payloads (nodes : gmap N Bytes32) (lower_peak : option Bytes32) (num_nodes : N)
    (peaks : list Index) (mountain_peak_pos : N) : list (list N) :=
  match peaks_through nodes mountain_peak_pos peaks with
  | Err _ => []
  | Ok through =>
    match lower_peak with
    | Some lp => bag_onto_payloads num_nodes through lp
    | None =>
      match peaks_beyond nodes mountain_peak_pos peaks with
      | Err _ => []
      | Ok beyond => bag_payloads num_nodes (through ++ beyond)
      end
    end
  end.
Definition segment_payloads (leaf_hashes : list (N * Bytes32)) (parent_hashes : list Bytes32)
    (unspent_bits : list N) (num_leaves : N) : list (list N) :=
  default []
    ('(first_leaf, _) ← head leaf_hashes;
     '(last_leaf, _) ← last leaf_hashes;
     hash_set ← calc_hash_indices unspent_bits num_leaves first_leaf last_leaf;
     let hash_indices := set_iter hash_set in
     match split_parent_hashes hash_indices parent_hashes with
     | Err _ => None
     | Ok (proof_hashes, lower_peak) =>
       let num_nodes := num_nodes_for_leaves num_leaves in
       let init := initial_nodes leaf_hashes hash_indices proof_hashes in
       let nodes := fill_nodes init num_nodes in
       peaks ← peak_indices num_nodes;
       mountain ← peak_from peaks (index_at (leaf_position last_leaf));
       Some (fill_payloads init nodes num_nodes ++
         root_payloads nodes lower_peak num_nodes peaks (idx_position mountain))
     end).

(** A segment root equal to the root of the range: all the peaks up to the
    mountain are right. *)
Lemma segment_root_sound P ids n nodes lower_peak before M K after :
  let ps := (before ++ [(M, K)]) ++ after in
  collision_free P → n ≤ U64_MAX → node_pos M K < n →
  (∀ p, p ∈ before → node_pos p.1 p.2 ≤ node_pos M K) →
  (∀ p, p ∈ after → node_pos M K < node_pos p.1 p.2) →
  tree_payloads ids M K ⊆ P →
  bag_payloads n (tree_hash ids <$> ps) ⊆ P →
  root_payloads nodes lower_peak n (peak_index <$> ps) (node_pos M K) ⊆ P →
  segment_root nodes lower_peak n (peak_index <$> ps) (node_pos M K) =
    Ok (bag n (tree_hash ids <$> ps)) →
  ∀ h k, (h, k) ∈ before ++ [(M, K)] → nodes !! node_pos h k = Some (node_hash ids h k).
Proof.
  intros ps Hcf Hn HK Hb Ha Htree Hbag Hroot. unfold root_payloads, segment_root in *.
  assert (∀ p, p ∈ before ++ [(M, K)] → node_pos p.1 p.2 ≤ node_pos M K) as Hb'.
  { intros p [?| ->%list_elem_of_singleton]%elem_of_app; [by apply Hb|done]. }
  destruct (peaks_through _ _ _) as [vs|] eqn:Hvs; [|done].
  apply peaks_through_app in Hvs; [|done..]. cbn [mbind result_bind].
  pose proof (Forall2_length _ _ _ Hvs) as Hlen. unfold ps in *.
  rewrite (fmap_app (tree_hash ids) (before ++ [(M, K)]) after) in Hbag |- *.
  destruct lower_peak as [lp|].
  - rewrite foldr_bag_onto. intros [= Hroots].
    apply (peaks_known_eq nodes ids _ vs); [done|].
    destruct after as [|p after].
    + exfalso. cbn [fmap list_fmap] in *. rewrite app_nil_r in *. rewrite fmap_app in Hroots, Hbag.
      cbn [fmap list_fmap] in *. rewrite bag_snoc in Hroots. rewrite bag_payloads_snoc in Hbag.
      destruct vs as [|v vs _] using rev_ind; [rewrite length_app in Hlen; cbn in Hlen; lia|].
      rewrite !length_app in Hlen. cbn in Hlen.
      rewrite bag_onto_snoc in Hroots. rewrite bag_onto_payloads_snoc in Hroot.
      apply (bag_onto_inj P Hcf) in Hroots as [_ Hroots];
        [|done|rewrite length_fmap; lia|set_solver..].
      symmetry in Hroots. revert Hroots. cbn [tree_hash fst snd].
      apply (node_hash_not_bagged P Hcf); [done..|set_solver].
    + rewrite bag_app in Hroots by done.
      apply (bag_onto_inj P Hcf) in Hroots as [-> _]; [done|done|by rewrite length_fmap|done|].
      etrans; [by apply bag_payloads_app|done].
  - destruct (peaks_beyond _ _ _) as [ws|] eqn:Hws; [|done].
    apply peaks_beyond_app in Hws; [|done..]. cbn [mbind result_bind]. intros [= Hroots].
    apply (peaks_known_eq nodes ids _ vs); [done|].
    rewrite bag_peaks_correct in Hroots. pose proof (Forall2_length _ _ _ Hws) as Hlen'.
    apply (bag_inj P Hcf) in Hroots; [|done| |done|done].
    + by apply app_inj_1 in Hroots as [-> _]; [|rewrite length_fmap].
    + by rewrite !length_app, !length_fmap, <-Hlen, <-Hlen'.
Qed.

(** A batch as pairs of a leaf index and an output id. *)
Definition claim_hash (p : N * Bytes32) : N * Bytes32 := (p.1, leaf_hash p.1 p.2).

Record batch_ok (n : N) (bits : list N) (entries : list (N * Bytes32)) : Prop := {
  bo_sorted : StronglySorted N.lt entries.*1;
  bo_entry : ∀ p, p ∈ entries → p.1 < n ∧ bitset_test bits p.1 = true;
}.

Lemma sorted_head_last (l : list N) a b i :
  StronglySorted N.lt l → head l = Some a → last l = Some b → i ∈ l → a ≤ i ≤ b.
Proof.
  intros Hs Ha Hb Hi. destruct l as [|x l]; [done|]. injection Ha as ->.
  inversion Hs as [|? ? Hl Hx]; subst. split.
  - apply elem_of_cons in Hi as [->|Hi]; [done|]. eapply Forall_forall in Hx; [|done]. lia.
  - clear Hx Hl. revert a i Hs Hb Hi. induction l as [|y l IH]; intros a i Hs Hb Hi.
    + apply list_elem_of_singleton in Hi as ->. injection Hb as ->. done.
    + inversion Hs as [|? ? Hl Hx]; subst. rewrite last_cons_cons in Hb.
      apply elem_of_cons in Hi as [->|Hi]; [|by apply (IH y)].
      assert (y ≤ b) by (apply (IH y); [done..|by apply elem_of_cons; left]).
      apply Forall_inv in Hx. lia.
Qed.

Section initial.
Context (n : N) (bits : list N) (entries : list (N * Bytes32)) (s : gset N) (first last_leaf : N).
Context (proof_hashes : list Bytes32).
Context (Hn : small n) (Hok : batch_ok n bits entries).
Context (Hfl : ∀ p, p ∈ entries → first ≤ p.1 ≤ last_leaf).
Context (Hs : ∀ p, p ∈ s → left_of first p ∨ unset_below bits p ∨ right_of last_leaf p).

Let init := initial_nodes (claim_hash <$> entries) (set_iter s) proof_hashes.

(** No position of the proof lies above a leaf of the batch. *)
Lemma proof_avoids p h : p ∈ entries → node_pos h (p.1 / pw h) ∉ s.
Proof using Hok Hfl Hs.
  intros Hp Hin. destruct (anc_cover p.1 h) as [Hc1 Hc2]. pose proof (Hfl _ Hp).
  apply Hs in Hin as [(h' & k' & Heq & Hle)|[(h' & k' & Heq & Hle)|(h' & k' & Heq & Hle)]];
    apply node_pos_inj in Heq as [<- <-]; [lia| |lia].
  destruct (bo_entry _ _ _ Hok _ Hp) as [_ Hb]. rewrite Hle in Hb; [done|lia].
Qed.

Lemma leaf_positions :
  ((λ p, (leaf_position p.1, p.2)) <$> (claim_hash <$> entries)).*1 = leaf_pos <$> entries.*1.
Proof using Hn Hok.
  rewrite <-!list_fmap_compose. apply list_fmap_ext. intros j p Hp%list_elem_of_lookup_2. cbn.
  apply (small_leaf_position n); [done|]. destruct (bo_entry _ _ _ Hok _ Hp). lia.
Qed.

Lemma init_leaf p : p ∈ entries → init !! leaf_pos p.1 = Some (leaf_hash p.1 p.2).
Proof using Hn Hok Hfl Hs.
  intros Hp. unfold init, initial_nodes. rewrite insert_all_notin.
  - apply insert_all_elem.
    + rewrite leaf_positions. apply NoDup_fmap_2.
      * intros i j. apply leaf_pos_inj.
      * pose proof (bo_sorted _ _ _ Hok) as Hsort. induction Hsort as [|x l Hl IH Hx]; constructor; [|done].
        intros Hin. eapply Forall_forall in Hx; [|done]. lia.
    + apply list_elem_of_fmap. exists (claim_hash p). cbn. split.
      * f_equal. symmetry. apply (small_leaf_position n); [done|].
        destruct (bo_entry _ _ _ Hok _ Hp). lia.
      * by apply list_elem_of_fmap_2.
  - intros Hin%zip_fst_subset%elem_of_set_iter. revert Hin.
    rewrite <-node_pos_0, <-(anc_0 p.1) at 1. by apply proof_avoids.
Qed.

Lemma init_ancestor p h : p ∈ entries → (0 < h)%nat → init !! node_pos h (p.1 / pw h) = None.
Proof using Hn Hok Hfl Hs.
  intros Hp Hh. unfold init, initial_nodes. rewrite insert_all_notin; [rewrite insert_all_notin|].
  - apply lookup_empty.
  - rewrite leaf_positions. intros (j & Heq & _)%list_elem_of_fmap. rewrite <-node_pos_0 in Heq.
    apply node_pos_inj in Heq as [-> _]. lia.
  - intros Hin%zip_fst_subset%elem_of_set_iter. by apply (proof_avoids p h).
Qed.
End initial.

Lemma mmr_payloads_split P ids :
  mmr_payloads ids ⊆ P →
  (∀ h k, (h, k) ∈ mountain_range (num_ids ids) → tree_payloads ids h k ⊆ P) ∧
  bag_payloads (leaf_pos (num_ids ids)) (tree_hash ids <$> mountain_range (num_ids ids)) ⊆ P.
Proof.
  unfold mmr_payloads, peak_hashes. intros Hsub. split.
  - intros h k Hin x Hx. apply Hsub, elem_of_app. left. apply list_elem_of_bind.
    exists (h, k). done.
  - intros x Hx. apply Hsub, elem_of_app. by right.
Qed.

(** The values of a run of [verify_segment_root] that accepts. *)
Lemma verify_segment_root_ok lh parent_hashes bits n root :
  verify_segment_root lh parent_hashes bits n root = Some (Ok tt) → lh ≠ [] →
  ∃ first last_leaf s proof_hashes lower peaks mountain,
    head lh.*1 = Some first ∧ last lh.*1 = Some last_leaf ∧
    calc_hash_indices bits n first last_leaf = Some s ∧
    peak_indices (num_nodes_for_leaves n) = Some peaks ∧
    peak_from peaks (index_at (leaf_position last_leaf)) = Some mountain ∧
    let init := initial_nodes lh (set_iter s) proof_hashes in
    let nodes := fill_nodes init (num_nodes_for_leaves n) in
    segment_root nodes lower (num_nodes_for_leaves n) peaks (idx_position mountain) = Ok root ∧
    segment_payloads lh parent_hashes bits n =
      fill_payloads init nodes (num_nodes_for_leaves n) ++
      root_payloads nodes lower (num_nodes_for_leaves n) peaks (idx_position mountain).
Proof.
  unfold verify_segment_root, segment_payloads. intros Hv Hne.
  destruct lh as [|[i o] lh _] using rev_ind; [done|]. clear Hne.
  rewrite fmap_app, !last_snoc in *. cbn [fmap list_fmap fst].
  destruct (head (lh ++ [(i, o)])) as [[first fo]|] eqn:Hf; [|by destruct lh].
  assert (head (lh.*1 ++ [i]) = Some first) as Hf'.
  { destruct lh as [|[j oj] lh]; cbn in *; by simplify_eq. }
  rewrite !some_bind. rewrite last_snoc.
  destruct (calc_hash_indices bits n first i) as [s|] eqn:Hs; [|done].
  rewrite some_bind in Hv. rewrite some_bind. cbn zeta in *.
  destruct (split_parent_hashes (set_iter s) parent_hashes) as [[proof lower]|] eqn:Hsp; [|done].
  cbn [or_return] in Hv. destruct (peak_indices (num_nodes_for_leaves n)) as [peaks|] eqn:Hpk; [|done].
  rewrite some_bind in Hv. rewrite some_bind. destruct (peak_from peaks _) as [mountain|] eqn:Hm; [|done].
  rewrite some_bind. rewrite default_some.
  destruct (segment_root _ _ _ _ _) as [r|] eqn:Hr; [|done]. cbn [or_return] in Hv.
  case_decide as Hd; [|done]. subst r.
  by exists first, i, s, proof, lower, peaks, mountain.
Qed.

Lemma at_mountain_range n i l1 M l2 :
  at_mountain n i l1 M l2 → (l1 ++ [(M, i / pw M)]) ++ l2 = mountain_range n.
Proof. intros Hat. rewrite <-app_assoc. symmetry. apply (at_range _ _ _ _ _ Hat). Qed.

Lemma verify_segment_sound P ids bits entries parent_hashes :
  let n := num_ids ids in
  small n → batch_ok n bits entries →
  (∀ p, p ∈ entries → leaf_payload p.1 p.2 ∈ P) →
  collision_free P → mmr_payloads ids ⊆ P →
  segment_payloads (claim_hash <$> entries) parent_hashes bits n ⊆ P →
  verify_segment_root (claim_hash <$> entries) parent_hashes bits n (reference_root ids)
    = Some (Ok tt) →
  ∀ p, p ∈ entries → id_at ids p.1 = p.2.
Proof.
  intros n Hn Hok Hpay Hcf Hmmr Hseg Hv p Hp.
  destruct (verify_segment_root_ok _ _ _ _ _ Hv) as
    (first & lst & s & proof & lower & peaks & mountain & Hf & Hl & Hs & Hpk & Hm & Hroot & Heq).
  { by destruct entries; [apply elem_of_nil in Hp|]. }
  rewrite Heq in Hseg. clear Hv Heq.
  assert ((claim_hash <$> entries).*1 = entries.*1) as Hfst by (by rewrite <-list_fmap_compose).
  rewrite Hfst in Hf, Hl.
  assert (∀ q, q ∈ entries → first ≤ q.1 ≤ lst) as Hfl.
  { intros q Hq. eapply sorted_head_last; [apply Hok|done..|by apply list_elem_of_fmap_2]. }
  assert (first < n ∧ lst < n) as [Hfn Hln].
  { assert (∀ x, x ∈ entries.*1 → x < n) as Hall.
    { intros x (q & -> & Hq)%list_elem_of_fmap. by apply (bo_entry _ _ _ Hok). }
    split; apply Hall; [by apply head_Some_elem_of|by apply last_Some_elem_of]. }
  destruct (calc_hash_indices_spec bits n first lst Hn Hfn Hln) as (s' & Hs' & Havoid).
  rewrite Hs in Hs'. injection Hs' as <-.
  destruct (mountain_of n lst Hn Hln) as (l1 & M & l2 & Hat).
  pose proof (at_peaks _ _ _ _ _ Hn Hat) as Hpk'. rewrite Hpk in Hpk'. injection Hpk' as ->.
  rewrite (small_index_leaf n), (peak_from_at _ _ _ _ _ Hat) in Hm by (done || lia).
  injection Hm as <-.
  assert (num_nodes_for_leaves n = leaf_pos n) as Hnn by (by apply (small_leaf_position n)).
  assert (leaf_pos n ≤ U64_MAX) as Hmax by (apply small_pos in Hn; unfold U64_MAX; lia).
  pose proof (at_le _ _ _ _ _ Hat) as HMn. pose proof (at_mountain_range _ _ _ _ _ Hat) as Hps.
  destruct (mmr_payloads_split P ids Hmmr) as [Htrees Hbags]. fold n in Htrees, Hbags.
  rewrite Hnn in *. cbn [idx_position node_index] in *.
  set (init := initial_nodes _ _ _) in *. set (nodes := fill_nodes _ _) in *.
  assert (∀ l, (peak_index <$> l1) ++ node_index M (lst / pw M) :: l =
    (peak_index <$> l1 ++ [(M, lst / pw M)]) ++ l) as Hidx.
  { intros l. by rewrite fmap_app, <-app_assoc. }
  rewrite Hidx, <-fmap_app in Hroot, Hseg.
  assert (∀ h k, (h, k) ∈ l1 ++ [(M, lst / pw M)] →
    nodes !! node_pos h k = Some (node_hash ids h k)) as Hknown.
  { eapply (segment_root_sound P ids (leaf_pos n) nodes lower l1 M (lst / pw M) l2 Hcf Hmax).
    - eapply N.lt_le_trans; [apply node_pos_lt_leaf|by apply leaf_pos_le_mono].
    - intros [h k] Hin. eapply before_lt in Hin as [_ Hin]; [|exact Hat]. cbn.
      pose proof (leaf_le_peak lst M). lia.
    - intros [h k] Hin. cbn. by eapply after_gt.
    - apply Htrees. rewrite <-Hps. apply elem_of_app. left. apply elem_of_app. right.
      by apply list_elem_of_singleton.
    - rewrite Hps. exact Hbags.
    - intros x Hx. apply Hseg, elem_of_app. by right.
    - rewrite Hroot, Hps. reflexivity. }
  destruct (tiles_cover 0 (l1 ++ [(M, lst / pw M)]) ((lst / pw M + 1) * pw M) p.1)
    as (t1 & h & k & t2 & Ht & Hc & _ & _).
  { apply tiles_app. exists (lst / pw M * pw M). split; [apply (at_before _ _ _ _ _ Hat)|done]. }
  { pose proof (Hfl p Hp). pose proof (anc_cover lst M). lia. }
  apply anc_unique in Hc as ->.
  assert ((h, p.1 / pw h) ∈ l1 ++ [(M, lst / pw M)]) as Hin.
  { rewrite Ht. apply elem_of_app. right. by apply elem_of_cons; left. }
  assert (filled init nodes) as Hfilled by (by apply fill_nodes_filled).
  apply (descend P Hcf init nodes (leaf_pos n) Hfilled) with (h := h).
  - intros q v. apply fill_nodes_dom.
  - done.
  - intros x Hx. apply Hseg, elem_of_app. by left.
  - apply Htrees. rewrite <-Hps. apply elem_of_app. by left.
  - by apply Hknown.
  - intros h' [Hh' _].
    exact (init_ancestor n bits entries s first lst proof Hn Hok Hfl Havoid p h' Hp Hh').
  - apply (lookup_weaken init); [|exact (proj1 Hfilled)].
    exact (init_leaf n bits entries s first lst proof Hn Hok Hfl Havoid p Hp).
  - by apply Hpay.
Qed.
End segment.
