(* ===== verification/BatchSpec.v ===== *)
(** * What [verify_utxo_batch] promises

    Soundness relative to the payloads hashed, and totality: no peer input makes
    it panic or run on.  A batch is served and checked as an example. *)
From S2P Require Import Prelude Block MmrIndex Mmr MwebWire MmrVerify MmrPaths MmrSound.

#[local] Open Scope N_scope.

Section batch.
Context `{Blake3, Mimblewimble}.

Definition batch_entries (batch : MwebUtxos) : list (N * Bytes32) :=
  (λ e, (ue_leaf_index e, output_id (ue_output e))) <$> mu_utxos batch.

Definition leaf_bits (leafset : MwebLeafset) (num_leaves : N) : list N :=
  take (N.to_nat (div_ceil num_leaves 8)) (ls_leafset leafset).

Definition sorted_ids (batch : MwebUtxos) : list Bytes32 :=
  (λ e, output_id (ue_output e)) <$> merge_sort entry_le (mu_utxos batch).

(** The payloads hashed in checking a batch, on either path. *)
Definition batch_payloads (batch : MwebUtxos) (leafset : MwebLeafset) (header : MwebBlockHeader) :
    list (list N) :=
  ((λ p, leaf_payload p.1 p.2) <$> batch_entries batch) ++
  mmr_payloads (sorted_ids batch) ++
  segment_payloads (batch_leaf_hashes batch) (mu_parent_hashes batch)
    (leaf_bits leafset (mh_output_mmr_size header)) (mh_output_mmr_size header).

Lemma batch_leaf_hashes_entries batch :
  batch_leaf_hashes batch = claim_hash <$> batch_entries batch.
Proof. unfold batch_leaf_hashes, batch_entries. by rewrite <-list_fmap_compose. Qed.

Lemma batch_entries_fst batch : (batch_entries batch).*1 = batch_indices batch.
Proof. unfold batch_entries, batch_indices. by rewrite <-list_fmap_compose. Qed.

Lemma not_ascending_sorted l : not_ascending l = false ↔ StronglySorted N.lt l.
Proof.
  induction l as [|a [|b l] IH].
  - split; [constructor|done].
  - split; [repeat constructor|done].
  - cbn [not_ascending]. rewrite orb_false_iff, N.leb_gt.
    change (not_ascending (b :: l) = false) with (not_ascending (b :: l) = false) in IH.
    split.
    + intros [Hab Hs%IH]. constructor; [done|]. inversion Hs as [|? ? Hl Hb]; subst.
      constructor; [done|]. eapply Forall_impl; [exact Hb|]. cbn. intros x Hx. lia.
    + inversion 1 as [|? ? Hl Hb]; subst. split; [by apply Forall_inv in Hb|by apply IH].
Qed.

Lemma claims_checked bits n l :
  try_foldl (check_entry bits n) tt l = Ok tt ↔
  ∀ i, i ∈ l → i < n ∧ bitset_test bits i = true.
Proof.
  induction l as [|i l IH]; cbn [try_foldl].
  - split; [by intros _ i ?%elem_of_nil|done].
  - unfold check_entry at 1. destruct (N.leb_spec n i).
    + split; [done|]. intros Hall. destruct (Hall i); [by apply elem_of_cons; left|lia].
    + destruct (bitset_test bits i) eqn:Hb.
      * rewrite IH. setoid_rewrite elem_of_cons. naive_solver.
      * split; [done|]. intros Hall. destruct (Hall i); [by apply elem_of_cons; left|congruence].
Qed.

Lemma check_entries_err bits n l e :
  try_foldl (check_entry bits n) tt l = Err e → ∃ r m, e = Peer r m ∧ r ≠ Throttled ∧ r ≠ Transport.
Proof.
  induction l as [|i l IH]; cbn [try_foldl]; [done|]. unfold check_entry at 1.
  destruct (n <=? i); [intros [= <-]; by eexists _, _|].
  destruct (bitset_test bits i); [done|]. intros [= <-]. by eexists _, _.
Qed.

Lemma bitset_test_take n ls i : bitset_test (take n ls) i = true → bitset_test ls i = true.
Proof.
  unfold bitset_test. destruct (take n ls !! _) as [b|] eqn:Hb; [|done].
  by apply lookup_take_Some in Hb as [-> _].
Qed.

(** The checks before any hashing. *)
Definition checked (batch : MwebUtxos) (leafset : MwebLeafset) (n : N) : Prop :=
  small n ∧ batch_ok n (leaf_bits leafset n) (batch_entries batch) ∧ mu_utxos batch ≠ [].

Definition check_hashes (batch : MwebUtxos) (leafset : MwebLeafset) (header : MwebBlockHeader) :
    option (result Error unit) :=
  fast ←
    (if complete_unspent (unspent_leaf_indices leafset) (batch_indices batch)
        (mh_output_mmr_size header) then
       root ← rebuilt_root batch; Some (bool_decide (root = mh_output_root header))
     else Some false);
  if fast : bool then Some (Ok tt)
  else
    verify_segment_root (batch_leaf_hashes batch) (mu_parent_hashes batch)
      (leaf_bits leafset (mh_output_mmr_size header)) (mh_output_mmr_size header)
      (mh_output_root header).

Definition rejected (e : Error) : Prop := ∃ r m, e = Peer r m ∧ r ≠ Throttled ∧ r ≠ Transport.

Lemma verify_utxo_batch_cases batch leafset header :
  (mu_utxos batch = [] ∧ verify_utxo_batch batch leafset header = Some (Ok tt)) ∨
  (∃ e, verify_utxo_batch batch leafset header = Some (Err e) ∧ rejected e) ∨
  (checked batch leafset (mh_output_mmr_size header) ∧
    verify_utxo_batch batch leafset header = check_hashes batch leafset header).
Proof.
  assert (∀ r m, r ≠ Throttled → r ≠ Transport → rejected (Peer r m)) as Hrej.
  { intros r m ??. by exists r, m. }
  unfold verify_utxo_batch. case_decide as Hlen; [left; by apply nil_length_inv in Hlen|right].
  destruct (N.eqb_spec (mh_output_mmr_size header) 0); [left; eexists; split; [done|by apply Hrej]|].
  destruct (N.ltb_spec MAX_OUTPUT_MMR_SIZE (mh_output_mmr_size header));
    [left; eexists; split; [done|by apply Hrej]|].
  destruct (not_ascending _) eqn:Hasc; [left; eexists; split; [done|by apply Hrej]|].
  destruct (_ <? _)%nat eqn:Hneed; [left; eexists; split; [done|by apply Hrej]|].
  destruct (try_foldl _ tt _) as [[]|e] eqn:Hch.
  - right. split; [|done]. split_and!; [done| |intros Heq; by rewrite Heq in Hlen].
    apply not_ascending_sorted in Hasc. pose proof (proj1 (claims_checked _ _ _) Hch) as Hall.
    split; [by rewrite batch_entries_fst|]. intros p Hp. apply Hall.
    rewrite <-batch_entries_fst. by apply list_elem_of_fmap_2.
  - left. exists e. split; [done|]. by apply check_entries_err in Hch.
Qed.

(** ** The fast path *)

Lemma complete_unspent_spec unspent indices n :
  complete_unspent unspent indices n = true → indices = range 0 n.
Proof.
  unfold complete_unspent. rewrite !andb_true_iff, !bool_decide_eq_true. naive_solver.
Qed.

Lemma length_range a b : length (range a b) = N.to_nat (b - a).
Proof. unfold range. by rewrite length_fmap, length_seq. Qed.

Lemma range_lookup n j : (j < N.to_nat n)%nat → range 0 n !! j = Some (N.of_nat j).
Proof.
  intros Hj. unfold range. rewrite list_lookup_fmap, lookup_seq_lt by lia. done.
Qed.

(** Sorting the entries puts each at its leaf. *)
Lemma sorted_entry batch n e :
  batch_indices batch = range 0 n → e ∈ mu_utxos batch →
  merge_sort entry_le (mu_utxos batch) !! N.to_nat (ue_leaf_index e) = Some e ∧
  num_ids (sorted_ids batch) = n.
Proof.
  intros Hidx He. set (l := merge_sort entry_le (mu_utxos batch)).
  assert (l ≡ₚ mu_utxos batch) as Hperm by apply merge_sort_Permutation.
  assert (ue_leaf_index <$> l = range 0 n) as Hl.
  { apply (StronglySorted_unique_strong N.le); [intros; lia| | |].
    - assert (StronglySorted entry_le l) as Hs.
      { apply StronglySorted_merge_sort; [|intros a b; unfold entry_le; lia].
        intros a b c. unfold entry_le. lia. }
      clear -Hs. induction Hs as [|x l Hl IH Hx]; constructor; [done|].
      apply Forall_fmap. eapply Forall_impl; [exact Hx|]. done.
    - unfold range. generalize (N.to_nat (n - 0)) 0%nat. intros m s. revert s.
      induction m as [|m IH]; intros s; [constructor|]. cbn. constructor; [apply IH|].
      apply Forall_fmap, Forall_forall. intros y Hy%elem_of_seq. cbn. lia.
    - by rewrite Hperm, <-Hidx. }
  assert (num_ids (sorted_ids batch) = n) as Hn.
  { unfold num_ids, sorted_ids. fold l. rewrite length_fmap, <-(length_fmap ue_leaf_index), Hl.
    rewrite length_range. lia. }
  split; [|done]. rewrite <-Hperm in He. apply list_elem_of_lookup in He as [j Hj].
  assert (range 0 n !! j = Some (ue_leaf_index e)) as Hrj by by rewrite <-Hl, list_lookup_fmap, Hj.
  pose proof (lookup_lt_Some _ _ _ Hrj) as Hlt. rewrite length_range in Hlt.
  rewrite range_lookup in Hrj by lia. injection Hrj as <-. by rewrite Nat2N.id.
Qed.

Lemma small_double n : small n → 2 * n < U64_MAX.
Proof. unfold small, MAX_OUTPUT_MMR_SIZE, MAX_LEAFSET_BYTES, U64_MAX. lia. Qed.

Lemma rebuilt_root_spec batch n :
  small n → num_ids (sorted_ids batch) = n →
  rebuilt_root batch = Some (reference_root (sorted_ids batch)).
Proof.
  intros Hn%small_double <-. destruct (root_of_ids (sorted_ids batch) Hn) as (m & Hm & Hr).
  unfold rebuilt_root. change ((λ e, output_id (ue_output e)) <$> merge_sort entry_le (mu_utxos batch))
    with (sorted_ids batch). rewrite Hm. exact Hr.
Qed.

Lemma at_elem n i l1 M l2 : at_mountain n i l1 M l2 → (M, i / pw M) ∈ mountain_range n.
Proof.
  intros Hat. rewrite (at_range _ _ _ _ _ Hat). apply elem_of_app. right. by apply elem_of_cons; left.
Qed.

(** Ranges of equal size with equal roots have equal leaves. *)
Lemma reference_root_inj P ids ids' i :
  collision_free P → small (num_ids ids) → num_ids ids' = num_ids ids →
  mmr_payloads ids ⊆ P → mmr_payloads ids' ⊆ P →
  reference_root ids = reference_root ids' → i < num_ids ids → id_at ids i = id_at ids' i.
Proof.
  intros Hcf Hn Hnum [Ht Hb]%mmr_payloads_split [Ht' Hb']%mmr_payloads_split Hroot Hi.
  rewrite !reference_root_eq in Hroot. rewrite Hnum in *.
  destruct (mountain_of _ i Hn Hi) as (l1 & M & l2 & Hat).
  pose proof (at_elem _ _ _ _ _ Hat) as Hin.
  destruct (small_node _ M (i / pw M) Hn (at_le _ _ _ _ _ Hat)) as [Hpos _]. clear Hat.
  assert (leaf_pos (num_ids ids) ≤ U64_MAX) as Hmax.
  { apply small_pos in Hn. unfold U64_MAX. lia. }
  assert (node_pos M (i / pw M) ≤ U64_MAX) as Hpmax by (unfold U64_MAX; lia).
  generalize dependent (mountain_range (num_ids ids)). intros ps Ht Hb Ht' Hb' Hroot Hin.
  apply (bag_inj P Hcf) in Hroot; [|done|by rewrite !length_fmap|done..].
  apply (tree_inj P Hcf ids ids' M (i / pw M)); [done|by apply Ht|by apply Ht'| |apply anc_cover].
  apply list_elem_of_lookup in Hin as [j Hj]. apply (f_equal (lookup j)) in Hroot.
  rewrite !list_lookup_fmap, Hj in Hroot. by injection Hroot.
Qed.

Lemma id_at_Some ids i o : i < num_ids ids → id_at ids i = o → ids !! N.to_nat i = Some o.
Proof.
  unfold id_at, num_ids. intros Hi <-.
  destruct (lookup_lt_is_Some_2 ids (N.to_nat i)) as [o ->]; [lia|done].
Qed.

Lemma check_hashes_sound ids batch leafset header :
  mh_output_root header = reference_root ids → mh_output_mmr_size header = num_ids ids →
  collision_free (mmr_payloads ids ++ batch_payloads batch leafset header) →
  checked batch leafset (num_ids ids) →
  check_hashes batch leafset header = Some (Ok tt) →
  ∀ p, p ∈ batch_entries batch → id_at ids p.1 = p.2.
Proof.
  intros Hroot Hsize Hcf (Hn & Hok & _). unfold check_hashes, batch_payloads in *.
  rewrite Hroot, Hsize in *.
  set (P := mmr_payloads ids ++ _) in *.
  assert (mmr_payloads ids ⊆ P) as HP1 by (intros x Hx; apply elem_of_app; by left).
  assert (mmr_payloads (sorted_ids batch) ⊆ P) as HP2.
  { intros x Hx. do 2 (apply elem_of_app; right). apply elem_of_app. by left. }
  assert (segment_payloads (claim_hash <$> batch_entries batch) (mu_parent_hashes batch)
    (leaf_bits leafset (num_ids ids)) (num_ids ids) ⊆ P) as HP3.
  { rewrite <-batch_leaf_hashes_entries. intros x Hx. do 3 (apply elem_of_app; right). done. }
  assert (∀ p, p ∈ batch_entries batch → leaf_payload p.1 p.2 ∈ P) as HP4.
  { intros p Hp. apply elem_of_app; right. apply elem_of_app; left.
    by apply (list_elem_of_fmap_2 (λ p, leaf_payload p.1 p.2)). }
  clearbody P. rewrite batch_leaf_hashes_entries. intros Hv p Hp.
  assert (verify_segment_root (claim_hash <$> batch_entries batch) (mu_parent_hashes batch)
    (leaf_bits leafset (num_ids ids)) (num_ids ids) (reference_root ids) = Some (Ok tt) →
    id_at ids p.1 = p.2) as Hslow.
  { intros Hs. by eapply (verify_segment_sound P). }
  destruct (complete_unspent _ _ _) eqn:Hc; [|by apply Hslow].
  apply complete_unspent_spec in Hc. unfold batch_entries in Hp.
  apply list_elem_of_fmap in Hp as (e & -> & He). cbn [fst snd] in *.
  destruct (sorted_entry batch (num_ids ids) e Hc He) as [Hat Hnum].
  rewrite (rebuilt_root_spec _ _ Hn Hnum), some_bind in Hv.
  case_bool_decide as Hr; [|by apply Hslow].
  transitivity (id_at (sorted_ids batch) (ue_leaf_index e)).
  - symmetry in Hr. apply (reference_root_inj P ids (sorted_ids batch)); [done..|].
    destruct Hok as [_ Hb]. apply (Hb (ue_leaf_index e, output_id (ue_output e))).
    by apply (list_elem_of_fmap_2 (λ e, (ue_leaf_index e, output_id (ue_output e)))).
  - unfold id_at, sorted_ids. by rewrite list_lookup_fmap, Hat.
Qed.

Lemma segment_root_rejected nodes lower n peaks mpos e :
  segment_root nodes lower n peaks mpos = Err e → rejected e.
Proof.
  assert (∀ m, rejected (bad_proof m)) as Hrej by (intros m; by eexists _, _).
  unfold segment_root.
  assert (∀ e, peaks_through nodes mpos peaks = Err e → rejected e) as Ht.
  { clear -Hrej. induction peaks as [|p peaks IH]; cbn [peaks_through]; [done|].
    intros e. destruct (_ <? _); [done|]. destruct (nodes !! _); [|by intros [= <-]].
    destruct (peaks_through _ _ _) eqn:Hp; [done|]. cbn. intros [= <-]. by apply IH. }
  assert (∀ e, peaks_beyond nodes mpos peaks = Err e → rejected e) as Hb.
  { clear -Hrej. induction peaks as [|p peaks IH]; cbn [peaks_beyond]; [done|].
    intros e. destruct (_ <? _); [|by apply IH]. destruct (nodes !! _); [|by intros [= <-]].
    destruct (peaks_beyond _ _ _) eqn:Hp; [done|]. cbn. intros [= <-]. by apply IH. }
  destruct (peaks_through _ _ _) eqn:Hp; cbn [mbind result_bind]; [|intros [= <-]; by apply Ht].
  destruct lower; [done|].
  destruct (peaks_beyond _ _ _) eqn:Hq; cbn [mbind result_bind]; [done|intros [= <-]; by apply Hb].
Qed.

Lemma verify_segment_root_total n bits entries parent_hashes root :
  small n → batch_ok n bits entries → entries ≠ [] →
  ∃ r, verify_segment_root (claim_hash <$> entries) parent_hashes bits n root = Some r ∧
    ∀ e, r = Err e → rejected e.
Proof.
  intros Hn [_ Hb] Hne. assert (∀ m, rejected (bad_proof m)) as Hrej by (intros m; by eexists _, _).
  unfold verify_segment_root.
  destruct (head (claim_hash <$> entries)) as [[first fo]|] eqn:Hf; [|by destruct entries].
  destruct (last (claim_hash <$> entries)) as [[lst lo]|] eqn:Hl.
  2:{ by eexists. }
  assert (∀ i o, (i, o) ∈ claim_hash <$> entries → i < n) as Hin.
  { intros i o (p & [= -> ->] & Hp)%list_elem_of_fmap. by apply Hb. }
  apply head_Some_elem_of, Hin in Hf. apply last_Some_elem_of, Hin in Hl.
  destruct (calc_hash_indices_spec bits n first lst Hn Hf Hl) as (s & -> & _).
  destruct (mountain_of n lst Hn Hl) as (l1 & M & l2 & Hat).
  rewrite some_bind. cbn zeta.
  destruct (split_parent_hashes (set_iter s) parent_hashes) as [[proof lower]|e] eqn:Hsp;
    cbn [or_return].
  2:{ eexists. split; [done|]. intros e' [= <-]. unfold split_parent_hashes in Hsp.
      repeat case_match; simplify_eq. apply Hrej. }
  rewrite (at_peaks _ _ _ _ _ Hn Hat), some_bind.
  rewrite (small_index_leaf n), (peak_from_at _ _ _ _ _ Hat) by (done || lia).
  destruct (segment_root _ _ _ _ _) as [r|e] eqn:Hr; cbn [or_return].
  - case_decide; eexists; (split; [done|]); [done|]. by intros e [= <-].
  - eexists. split; [done|]. intros e' [= <-]. by apply segment_root_rejected in Hr.
Qed.

(** The entries of an accepted batch. *)
Lemma accepted_batch_entry ids batch leafset header e :
  mh_output_root header = reference_root ids → mh_output_mmr_size header = num_ids ids →
  collision_free (mmr_payloads ids ++ batch_payloads batch leafset header) →
  verify_utxo_batch batch leafset header = Some (Ok tt) → e ∈ mu_utxos batch →
  ids !! N.to_nat (ue_leaf_index e) = Some (output_id (ue_output e)) ∧
  bitset_test (ls_leafset leafset) (ue_leaf_index e) = true.
Proof.
  intros Hroot Hsize Hcf Hv He.
  destruct (verify_utxo_batch_cases batch leafset header) as [[Hnil _]|[(e' & He' & _)|[Hch Heq]]].
  - rewrite Hnil in He. by apply elem_of_nil in He.
  - by rewrite Hv in He'.
  - rewrite Heq in Hv. rewrite Hsize in Hch.
    pose proof (check_hashes_sound ids batch leafset header Hroot Hsize Hcf Hch Hv) as Hs.
    destruct Hch as (_ & [_ Hb] & _).
    apply (list_elem_of_fmap_2 (λ e, (ue_leaf_index e, output_id (ue_output e)))) in He.
    destruct (Hb _ He) as [Hlt Hbit]. split; [|by eapply bitset_test_take].
    apply id_at_Some; [done|]. apply (Hs _ He).
Qed.

Lemma accepted_batch_sorted batch leafset header :
  verify_utxo_batch batch leafset header = Some (Ok tt) → StronglySorted N.lt (batch_indices batch).
Proof.
  intros Hv.
  destruct (verify_utxo_batch_cases batch leafset header) as [[Hnil _]|[(e' & He' & _)|[Hch _]]].
  - unfold batch_indices. rewrite Hnil. constructor.
  - by rewrite Hv in He'.
  - destruct Hch as (_ & [Hsorted _] & _). by rewrite <-batch_entries_fst.
Qed.

(** C26. A batch of outputs that [verify_utxo_batch] accepts against a header
    whose root and size are those of the mountain range over [ids] has only
    outputs of that range: the output claimed at a leaf has the id at that leaf,
    and the leaf is unspent in the leafset.  BLAKE3 is only required to have no
    collision among the payloads of the range and of this run. *)
Theorem verify_utxo_batch_sound ids batch leafset header :
  mh_output_root header = reference_root ids → mh_output_mmr_size header = num_ids ids →
  collision_free (mmr_payloads ids ++ batch_payloads batch leafset header) →
  verify_utxo_batch batch leafset header = Some (Ok tt) →
  StronglySorted N.lt (batch_indices batch) ∧
  ∀ e, e ∈ mu_utxos batch →
    ids !! N.to_nat (ue_leaf_index e) = Some (output_id (ue_output e)) ∧
    bitset_test (ls_leafset leafset) (ue_leaf_index e) = true.
Proof.
  intros Hroot Hsize Hcf Hv. split; [by eapply accepted_batch_sorted|].
  intros e He. by eapply accepted_batch_entry.
Qed.

(** [verify_utxo_batch] answers on every input a peer can send: it neither
    panics nor runs on, and when it rejects a batch it blames the peer for a bad
    proof or a protocol violation. *)
Theorem verify_utxo_batch_total batch leafset header :
  ∃ r, verify_utxo_batch batch leafset header = Some r ∧ ∀ e, r = Err e → rejected e.
Proof.
  destruct (verify_utxo_batch_cases batch leafset header) as [[_ ->]|[(e & -> & He)|[Hch ->]]].
  - by eexists.
  - eexists. split; [done|]. by intros e' [= <-].
  - destruct Hch as (Hn & Hok & Hne). unfold check_hashes.
    assert (∃ r, verify_segment_root (batch_leaf_hashes batch) (mu_parent_hashes batch)
      (leaf_bits leafset (mh_output_mmr_size header)) (mh_output_mmr_size header)
      (mh_output_root header) = Some r ∧ ∀ e, r = Err e → rejected e) as Hslow.
    { rewrite batch_leaf_hashes_entries. apply verify_segment_root_total; [done..|].
      unfold batch_entries. by destruct (mu_utxos batch). }
    destruct (complete_unspent _ _ _) eqn:Hc; [|exact Hslow].
    apply complete_unspent_spec in Hc. destruct (mu_utxos batch) as [|e es] eqn:He; [done|].
    destruct (sorted_entry batch _ e Hc) as [_ Hnum]; [rewrite He; by apply elem_of_cons; left|].
    rewrite (rebuilt_root_spec _ _ Hn Hnum), some_bind.
    case_bool_decide; [by eexists|exact Hslow].
Qed.
End batch.

(** ** A concrete segment *)

#[local] Instance toy_blake3 : Blake3 := toy_hash.
#[local] Instance toy_mimblewimble : Mimblewimble := {|
  Output := N;
  commitment n := [n];
  ser_sender_public_key _ := [2];
  ser_receiver_public_key _ := [3];
  ser_message n := [4; n];
  range_proof _ := [];
  signature _ := [5];
|}.

(** Seven outputs of which the fourth is spent; leaves 2 to 4 are asked for. *)
Definition toy_outputs : list Output := [10; 11; 12; 13; 14; 15; 16].
Definition toy_ids : list Bytes32 := (λ o : Output, output_id o) <$> toy_outputs.
Definition toy_leafset : MwebLeafset := from_indices 1 [0; 1; 2; 4; 5; 6].
Definition toy_header : MwebBlockHeader :=
  mkMwebBlockHeader 1 (reference_root toy_ids) zero32 (blake3_hash (ls_leafset toy_leafset)) zero32 zero32 7 1.
Definition toy_parent_hashes : list Bytes32 :=
  default []
    (mmr ← add_output_ids MemMmr_new toy_ids;
     assemble_parent_hashes mmr (ls_leafset toy_leafset) 2 4).
Definition toy_batch : MwebUtxos :=
  mkMwebUtxos _ 1 2 OUTPUT_FORMAT_FULL [mkMwebUtxoEntry _ 2 (12 : Output); mkMwebUtxoEntry _ 4 (14 : Output)]
    toy_parent_hashes.

Lemma verify_utxo_batch_sound_witness :
  StronglySorted N.lt (batch_indices toy_batch) ∧
  ∀ e, e ∈ mu_utxos toy_batch →
    toy_ids !! N.to_nat (ue_leaf_index e) = Some (output_id (ue_output e)) ∧
    bitset_test (ls_leafset toy_leafset) (ue_leaf_index e) = true.
Proof.
  apply (verify_utxo_batch_sound toy_ids toy_batch toy_leafset toy_header).
  - vm_compute. reflexivity.
  - vm_compute. reflexivity.
  - apply (bool_decide_unpack _). vm_compute. exact I.
  - vm_compute. reflexivity.
Defined.
