(* ===== verification/MwebCoins.v ===== *)
(** * The MWEB coin database

    Models [crates/mweb/src/coin_db.rs] and [changeset.rs], built with the
    feature [persist], and the constant-time comparison of [secret.rs].  Maps
    keyed by output id are iterated in the lexicographic order of the bytes. *)
From S2P Require Import Prelude Mmr Block.
#[local] Open Scope N_scope.

(** ** Byte arrays as keys *)

(** The library's numbering of vectors does not compute. *)
Fixpoint vec_of_list (n : nat) (l : list N) : vec N n :=
  match n with
  | O => vnil
  | S n => vcons (default 0 (head l)) (vec_of_list n (tail l))
  end.

#[export] Instance vec_N_countable {n} : Countable (vec N n).
Proof.
  apply (inj_countable' (λ v : vec N n, (v : list N)) (vec_of_list n)).
  intros v. induction v as [|x n v IH]; cbn; [done|]. by rewrite IH.
Defined.

Section list_order.
Context `{TotalOrd K, EqDecision K}.

Fixpoint list_le (l k : list K) : Prop :=
  match l, k with
  | [], _ => True
  | _ :: _, [] => False
  | a :: l, b :: k => tlt a b ∨ (a = b ∧ list_le l k)
  end.

#[export] Instance list_le_dec : RelDecision list_le.
Proof.
  intros l. induction l as [|a l IH]; intros [|b k]; cbn;
    [left; done|left; done|right; tauto|].
  specialize (IH k). apply _.
Defined.

#[export] Instance list_le_ord : TotalOrd (list K).
Proof.
  refine {| tle := list_le |}.
  - intros l. induction l as [|a l IH]; intros [|b k] [|c m]; cbn; try done.
    intros [Hab|[-> Hlk]] [Hbc|[<- Hkm]]; [left; by eapply tlt_trans|by left..|right; eauto].
  - intros l. induction l as [|a l IH]; intros [|b k]; cbn; try done.
    intros [Hab|[-> Hlk]] [Hba|[Heq Hkl]].
    + by destruct (tlt_irrefl a (tlt_trans _ _ _ Hab Hba)).
    + subst. by destruct (tlt_irrefl a).
    + by destruct (tlt_irrefl b).
    + f_equal. by apply IH.
  - intros l. induction l as [|a l IH]; intros [|b k]; cbn; auto.
    destruct (decide (a = b)) as [->|Hne]; [destruct (IH k); auto|].
    destruct (total tle a b); [left; left|right; left]; by split.
Defined.
End list_order.

#[export] Instance Bytes32_ord : TotalOrd Bytes32.
Proof. apply (ord_by_key (λ v : Bytes32, (v : list N))). intros a b. apply vec_to_list_inj2. Defined.

(** ** [secret.rs] *)

(** The accumulated exclusive or of the byte pairs. *)
Definition ct_eq32 (a b : Bytes32) : bool :=
  foldl (λ diff xy, N.lor diff (N.lxor xy.1 xy.2)) 0 (zip (a : list N) (b : list N)) =? 0.

Definition ct_eq32_opt (a b : option Bytes32) : bool :=
  match a, b with
  | Some x, Some y => ct_eq32 x y
  | None, None => true
  | _, _ => false
  end.

(** ** Coins *)

Definition MWEB_PEGIN_MATURITY : N := 6.

Record MwebBalance := mkMwebBalance { mb_confirmed : N; mb_untrusted_pending : N }.
Definition MwebBalance_default : MwebBalance := mkMwebBalance 0 0.

Definition saturating_add_u64 (a b : N) : N := N.min (a + b) U64_MAX.

Definition mweb_total (b : MwebBalance) : N :=
  saturating_add_u64 (mb_confirmed b) (mb_untrusted_pending b).

Record MwebCoin := mkMwebCoin {
  mc_output_id : Bytes32;
  mc_commitment : vec N 33;
  mc_amount : N;
  mc_address_index : N;
  mc_blind : Bytes32;
  mc_shared_secret : Bytes32;
  mc_spend_key : option Bytes32;
  mc_block_height : option N;
  mc_is_pegin : bool;
  mc_leaf_index : option N;
}.

#[export] Instance MwebCoin_eq_dec : EqDecision MwebCoin.
Proof. solve_decision. Defined.

(** The hand-written [PartialEq]. *)
Definition coin_eq (self other : MwebCoin) : bool :=
  bool_decide (mc_output_id self = mc_output_id other) &&
  bool_decide (mc_commitment self = mc_commitment other) &&
  (mc_amount self =? mc_amount other) && (mc_address_index self =? mc_address_index other) &&
  bool_decide (mc_block_height self = mc_block_height other) &&
  eqb (mc_is_pegin self) (mc_is_pegin other) &&
  bool_decide (mc_leaf_index self = mc_leaf_index other) &&
  ct_eq32 (mc_blind self) (mc_blind other) &&
  ct_eq32 (mc_shared_secret self) (mc_shared_secret other) &&
  ct_eq32_opt (mc_spend_key self) (mc_spend_key other).

Definition wipe (c : MwebCoin) : MwebCoin :=
  mkMwebCoin (mc_output_id c) (mc_commitment c) (mc_amount c) (mc_address_index c) zero32 zero32
    None (mc_block_height c) (mc_is_pegin c) (mc_leaf_index c).

Definition coin_is_confirmed (c : MwebCoin) (tip_height : N) : bool :=
  match mc_block_height c with Some h => h <=? tip_height | None => false end.

Definition is_spendable (c : MwebCoin) (tip_height maturity : N) : bool :=
  match mc_block_height c with
  | None => false
  | Some h =>
      if tip_height <? h then false
      else if mc_is_pegin c
           then maturity <=? saturating_sub (saturating_add_u32 tip_height 1) h
           else true
  end.

Definition set_height (c : MwebCoin) (h : option N) : MwebCoin :=
  mkMwebCoin (mc_output_id c) (mc_commitment c) (mc_amount c) (mc_address_index c) (mc_blind c)
    (mc_shared_secret c) (mc_spend_key c) h (mc_is_pegin c) (mc_leaf_index c).
Definition with_block_height (c : MwebCoin) (height : N) : MwebCoin := set_height c (Some height).
Definition with_pegin (c : MwebCoin) (is_pegin : bool) : MwebCoin :=
  mkMwebCoin (mc_output_id c) (mc_commitment c) (mc_amount c) (mc_address_index c) (mc_blind c)
    (mc_shared_secret c) (mc_spend_key c) (mc_block_height c) is_pegin (mc_leaf_index c).
Definition with_leaf_index (c : MwebCoin) (leaf_index : N) : MwebCoin :=
  mkMwebCoin (mc_output_id c) (mc_commitment c) (mc_amount c) (mc_address_index c) (mc_blind c)
    (mc_shared_secret c) (mc_spend_key c) (mc_block_height c) (mc_is_pegin c) (Some leaf_index).

(** ** Change sets *)

Notation CoinMap := (gmap Bytes32 MwebCoin).

Record CoinChangeSet := mkCoinChangeSet { ccs_coins : CoinMap; ccs_spent : CoinMap }.

Definition CoinChangeSet_default : CoinChangeSet := mkCoinChangeSet ∅ ∅.

(** An unspent coin, unless its id is spent already. *)
Definition upsert_unspent (spent : CoinMap) (coins : CoinMap) (p : Bytes32 * MwebCoin) : CoinMap :=
  match spent !! p.1 with Some _ => coins | None => <[p.1 := p.2]> coins end.

Definition move_spent (acc : CoinMap * CoinMap) (p : Bytes32 * MwebCoin) : CoinMap * CoinMap :=
  (delete p.1 acc.1, <[p.1 := p.2]> acc.2).

(** The two loops that [merge] and [apply_changeset] share. *)
Definition apply_coins (coins spent : CoinMap) (other : CoinChangeSet) : CoinMap * CoinMap :=
  let coins := foldl (upsert_unspent spent) coins (map_iter (ccs_coins other)) in
  foldl move_spent (coins, spent) (map_iter (ccs_spent other)).

#[export] Instance CoinChangeSet_merge : Merge CoinChangeSet := {
  merge_default := CoinChangeSet_default;
  merge self other :=
    let '(coins, spent) := apply_coins (ccs_coins self) (ccs_spent self) other in
    mkCoinChangeSet coins spent;
  merge_is_empty self := bool_decide (ccs_coins self = ∅) && bool_decide (ccs_spent self = ∅);
}.

(** ** The database *)

Record MwebCoinDatabase := mkCoinDb { db_coins : CoinMap; db_spent : CoinMap; db_staged : CoinChangeSet }.

Definition CoinDb_new : MwebCoinDatabase := mkCoinDb ∅ ∅ CoinChangeSet_default.

Implicit Types (db : MwebCoinDatabase) (id : Bytes32).

Definition coin_insert db (coin : MwebCoin) : MwebCoinDatabase :=
  mkCoinDb (<[mc_output_id coin := coin]> (db_coins db)) (delete (mc_output_id coin) (db_spent db))
    (mkCoinChangeSet (<[mc_output_id coin := coin]> (ccs_coins (db_staged db)))
       (delete (mc_output_id coin) (ccs_spent (db_staged db)))).

Definition coin_get db id : option MwebCoin := db_coins db !! id.

Definition mark_spent db id : MwebCoinDatabase * bool :=
  match db_coins db !! id with
  | Some coin =>
      (mkCoinDb (delete id (db_coins db)) (<[id := coin]> (db_spent db))
         (mkCoinChangeSet (delete id (ccs_coins (db_staged db)))
            (<[id := coin]> (ccs_spent (db_staged db)))), true)
  | None => (db, false)
  end.

(** The values of [coins], in the order of their ids. *)
Definition unspent db : list MwebCoin := (map_iter (db_coins db)).*2.
Definition unspent_count db : nat := size (db_coins db).

Definition coin_balance db : N :=
  foldl (λ acc c, saturating_add_u64 acc (mc_amount c)) 0 (unspent db).

Definition balance_at_step (tip_height : N) (bal : MwebBalance) (coin : MwebCoin) : MwebBalance :=
  if coin_is_confirmed coin tip_height
  then mkMwebBalance (saturating_add_u64 (mb_confirmed bal) (mc_amount coin)) (mb_untrusted_pending bal)
  else mkMwebBalance (mb_confirmed bal) (saturating_add_u64 (mb_untrusted_pending bal) (mc_amount coin)).
Definition balance_at db (tip_height : N) : MwebBalance :=
  foldl (balance_at_step tip_height) MwebBalance_default (unspent db).

Definition unspent_confirmed db (tip_height : N) : list MwebCoin :=
  filter (λ c, coin_is_confirmed c tip_height = true) (unspent db).
Definition unspent_spendable db (tip_height maturity : N) : list MwebCoin :=
  filter (λ c, is_spendable c tip_height maturity = true) (unspent db).

(** One entry of the loops of [disconnect_from]: the map and its staged
    counterpart. *)
Definition disconnect_entry (height : N) (acc : CoinMap * CoinMap) (p : Bytes32 * MwebCoin) :
    CoinMap * CoinMap :=
  match mc_block_height p.2 with
  | Some h =>
      if height <=? h then
        let coin := set_height p.2 None in
        (<[p.1 := coin]> acc.1, <[mc_output_id coin := coin]> acc.2)
      else acc
  | None => acc
  end.
Definition disconnect_all (height : N) (m staged : CoinMap) : CoinMap * CoinMap :=
  foldl (disconnect_entry height) (m, staged) (map_iter m).

Definition coins_disconnect_from db (height : N) : MwebCoinDatabase :=
  let '(coins, staged_coins) := disconnect_all height (db_coins db) (ccs_coins (db_staged db)) in
  let '(spent, staged_spent) := disconnect_all height (db_spent db) (ccs_spent (db_staged db)) in
  mkCoinDb coins spent (mkCoinChangeSet staged_coins staged_spent).

(** Changing an unspent coin in place and staging it. *)
Definition update_coin db id (f : MwebCoin → MwebCoin) : MwebCoinDatabase * bool :=
  match db_coins db !! id with
  | None => (db, false)
  | Some coin =>
      (mkCoinDb (<[id := f coin]> (db_coins db)) (db_spent db)
         (mkCoinChangeSet (<[id := f coin]> (ccs_coins (db_staged db))) (ccs_spent (db_staged db))),
       true)
  end.
Definition set_block_height db id (height : N) : MwebCoinDatabase * bool :=
  update_coin db id (λ c, with_block_height c height).
Definition set_leaf_index db id (leaf_index : N) : MwebCoinDatabase * bool :=
  update_coin db id (λ c, with_leaf_index c leaf_index).

Definition find_by_leaf_index db (leaf_index : N) : option MwebCoin :=
  head (filter (λ c, mc_leaf_index c = Some leaf_index) (unspent db)).

Definition mark_spent_by_leaf_index db (leaf_index : N) : MwebCoinDatabase * option Bytes32 :=
  match find_by_leaf_index db leaf_index with
  | None => (db, None)
  | Some coin =>
      let '(db, marked) := mark_spent db (mc_output_id coin) in
      (db, if marked then Some (mc_output_id coin) else None)
  end.

Definition is_spent db id : bool := bool_decide (is_Some (db_spent db !! id)).
Definition get_spent db id : option MwebCoin := db_spent db !! id.

Definition coins_apply_changeset db (cs : CoinChangeSet) : MwebCoinDatabase :=
  let '(coins, spent) := apply_coins (db_coins db) (db_spent db) cs in
  mkCoinDb coins spent (db_staged db).
Definition coins_from_changeset (cs : CoinChangeSet) : MwebCoinDatabase :=
  coins_apply_changeset CoinDb_new cs.

(** [core::mem::take]. *)
Definition take_staged db : MwebCoinDatabase * CoinChangeSet :=
  (mkCoinDb (db_coins db) (db_spent db) CoinChangeSet_default, db_staged db).
