(* ===== verification/MwebCoinSpec.v ===== *)
(** * What the coin database promises

    Reloading what has been persisted gives the database back, as long as no
    spent output reappears; balances saturate and agree with each other. *)
From S2P Require Import Prelude Mmr Block MwebCoins.
#[local] Open Scope N_scope.

Implicit Types (db : MwebCoinDatabase) (id : Bytes32) (m : CoinMap).

(** ** Comparison in constant time *)

Lemma ct_fold_zero (l : list (N * N)) (d : N) :
  foldl (λ (diff : N) (xy : N * N), N.lor diff (N.lxor xy.1 xy.2)) d l = 0 ↔
  d = 0 ∧ Forall (λ xy, xy.1 = xy.2) l.
Proof.
  revert d. induction l as [|[x y] l IH]; intros d; cbn [foldl].
  { split; [by intros ->|by intros [-> _]]. }
  rewrite IH, N.lor_eq_0_iff, N.lxor_eq_0_iff, Forall_cons. tauto.
Qed.

Lemma ct_eq32_correct a b : ct_eq32 a b = true ↔ a = b.
Proof.
  unfold ct_eq32. rewrite N.eqb_eq, ct_fold_zero. split.
  - intros [_ Hall]. apply vec_to_list_inj2.
    assert (length (a : list N) = length (b : list N)) as Hlen by by rewrite !length_vec_to_list.
    revert Hlen Hall. generalize (a : list N) (b : list N). clear a b. intros l.
    induction l as [|x l IH]; intros [|y k]; cbn; try done.
    intros [= Hlen] [Heq Hall]%Forall_cons. cbn in Heq. subst. f_equal. by apply IH.
  - intros ->. split; [done|]. generalize (b : list N). intros l.
    induction l; cbn; by constructor.
Qed.

Lemma ct_eq32_opt_correct a b : ct_eq32_opt a b = true ↔ a = b.
Proof. destruct a, b; cbn; rewrite ?ct_eq32_correct; naive_solver. Qed.

Lemma coin_eq_correct a b : coin_eq a b = true ↔ a = b.
Proof.
  unfold coin_eq. rewrite !andb_true_iff, !bool_decide_eq_true, !N.eqb_eq, eqb_true_iff,
    !ct_eq32_correct, ct_eq32_opt_correct.
  split; [|by intros ->]. destruct a, b; cbn. intros Heq. destruct_and? Heq. by subst.
Qed.

(** ** Applying change sets *)

Lemma upsert_fold spent m (l : list (Bytes32 * MwebCoin)) id :
  NoDup l.*1 →
  foldl (upsert_unspent spent) m l !! id =
    match spent !! id with
    | Some _ => m !! id
    | None => (list_to_map l ∪ m : CoinMap) !! id
    end.
Proof.
  revert m. induction l as [|[k c] l IH]; intros m Hnd; cbn [foldl].
  { cbn. rewrite (left_id_L ∅ (∪)). by destruct (spent !! id). }
  rewrite fmap_cons in Hnd. apply NoDup_cons in Hnd as [Hk Hnd]. rewrite IH by done.
  unfold upsert_unspent. cbn [fst snd].
  assert ((list_to_map l : CoinMap) !! k = None) as Hnone by by apply not_elem_of_list_to_map_1.
  destruct (decide (id = k)) as [->|Hne].
  - destruct (spent !! k) eqn:Hs; [done|]. cbn [list_to_map foldr].
    rewrite lookup_union_r by done. rewrite lookup_insert_eq. symmetry.
    apply lookup_union_Some_l. cbn. by rewrite lookup_insert_eq.
  - assert ((list_to_map ((k, c) :: l) ∪ m : CoinMap) !! id = (list_to_map l ∪ m : CoinMap) !! id)
      as ->.
    { rewrite !lookup_union. cbn. by rewrite lookup_insert_ne. }
    destruct (spent !! k); [done|]. rewrite !lookup_union, lookup_insert_ne by done. done.
Qed.

Lemma move_spent_fold m spent (l : list (Bytes32 * MwebCoin)) id :
  NoDup l.*1 →
  let '(m', spent') := foldl move_spent (m, spent) l in
  m' !! id = match (list_to_map l : CoinMap) !! id with Some _ => None | None => m !! id end ∧
  spent' !! id = (list_to_map l ∪ spent : CoinMap) !! id.
Proof.
  revert m spent. induction l as [|[k c] l IH]; intros m spent Hnd; cbn [foldl].
  { cbn. by rewrite (left_id_L ∅ (∪)). }
  rewrite fmap_cons in Hnd. apply NoDup_cons in Hnd as [Hk Hnd].
  specialize (IH (delete k m) (<[k := c]> spent) Hnd).
  change (move_spent (m, spent) (k, c)) with (delete k m, <[k := c]> spent).
  destruct (foldl move_spent _ l) as [m' spent']. cbv iota beta in *. destruct IH as [-> ->].
  assert ((list_to_map l : CoinMap) !! k = None) as Hnone by by apply not_elem_of_list_to_map_1.
  rewrite !lookup_union. cbn [list_to_map foldr fst snd uncurry].
  destruct (decide (id = k)) as [->|Hne].
  - cbn. rewrite Hnone, lookup_delete_eq, !lookup_insert_eq. by destruct (spent !! k).
  - cbn. by rewrite lookup_delete_ne, !lookup_insert_ne by done.
Qed.

Lemma apply_coins_lookup m spent (other : CoinChangeSet) id :
  let '(m', spent') := apply_coins m spent other in
  m' !! id = match ccs_spent other !! id with
             | Some _ => None
             | None => match spent !! id with
                       | Some _ => m !! id
                       | None => (ccs_coins other ∪ m) !! id
                       end
             end ∧
  spent' !! id = (ccs_spent other ∪ spent) !! id.
Proof.
  unfold apply_coins.
  pose proof (move_spent_fold (foldl (upsert_unspent spent) m (map_iter (ccs_coins other))) spent
    (map_iter (ccs_spent other)) id (NoDup_map_iter _)) as Hmove.
  destruct (foldl move_spent _ _) as [m' spent']. cbv iota beta in *. destruct Hmove as [-> ->].
  rewrite upsert_fold by apply NoDup_map_iter. by rewrite !list_to_map_map_iter.
Qed.

Lemma merge_coins (a b : CoinChangeSet) id :
  ccs_coins (merge a b) !! id =
    match ccs_spent b !! id with
    | Some _ => None
    | None => match ccs_spent a !! id with
              | Some _ => ccs_coins a !! id
              | None => (ccs_coins b ∪ ccs_coins a) !! id
              end
    end.
Proof.
  pose proof (apply_coins_lookup (ccs_coins a) (ccs_spent a) b id) as Ha. cbn.
  destruct (apply_coins _ _ _). apply Ha.
Qed.

Lemma merge_spent (a b : CoinChangeSet) : ccs_spent (merge a b) = ccs_spent b ∪ ccs_spent a.
Proof.
  apply map_eq. intros id. pose proof (apply_coins_lookup (ccs_coins a) (ccs_spent a) b id) as Ha.
  cbn. destruct (apply_coins _ _ _). apply Ha.
Qed.

(** No id is both unspent and spent. *)
Definition cs_disjoint (cs : CoinChangeSet) : Prop := ccs_coins cs ##ₘ ccs_spent cs.

Lemma ccs_ext (a b : CoinChangeSet) :
  (∀ id, ccs_coins a !! id = ccs_coins b !! id) → ccs_spent a = ccs_spent b → a = b.
Proof.
  destruct a, b. cbn. intros Hc ->. f_equal. by apply map_eq.
Qed.

(** Change sets merge associatively; the empty one is neutral on the right, and
    on the left of a set without contradictions. *)
Lemma coin_merge_assoc (a b c : CoinChangeSet) : merge (merge a b) c = merge a (merge b c).
Proof.
  apply ccs_ext; [|rewrite !merge_spent; by rewrite (assoc_L (∪))].
  intros id. rewrite !merge_coins, !merge_spent, !lookup_union, !merge_coins, !lookup_union.
  destruct (ccs_spent a !! id), (ccs_spent b !! id), (ccs_spent c !! id), (ccs_coins a !! id),
    (ccs_coins b !! id), (ccs_coins c !! id); done.
Qed.

Lemma coin_merge_default_r (a : CoinChangeSet) : merge a CoinChangeSet_default = a.
Proof.
  apply ccs_ext; [|rewrite merge_spent; apply (left_id_L ∅ (∪))].
  intros id. rewrite merge_coins. cbn. rewrite lookup_empty, (left_id_L ∅ (∪)).
  by destruct (ccs_spent a !! id).
Qed.

Lemma coin_merge_default_l (a : CoinChangeSet) :
  cs_disjoint a → merge CoinChangeSet_default a = a.
Proof.
  intros Hd. apply ccs_ext; [|rewrite merge_spent; apply (right_id_L ∅ (∪))].
  intros id. rewrite merge_coins. cbn. rewrite lookup_empty, (right_id_L ∅ (∪)).
  destruct (ccs_spent a !! id) eqn:Hs; [|done]. symmetry. by eapply map_disjoint_Some_r.
Qed.

Lemma merge_disjoint (a b : CoinChangeSet) : cs_disjoint a → cs_disjoint (merge a b).
Proof.
  intros Ha. apply map_disjoint_spec. intros id c d. rewrite merge_coins, merge_spent, !lookup_union.
  destruct (ccs_spent b !! id) eqn:Hb; [done|]. destruct (ccs_spent a !! id) as [m|] eqn:Hs; cbn; [|done].
  intros Hc _. by apply (proj1 (map_disjoint_spec _ _) Ha id c m).
Qed.

Lemma from_changeset_lookup cs :
  cs_disjoint cs → coins_from_changeset cs = mkCoinDb (ccs_coins cs) (ccs_spent cs) CoinChangeSet_default.
Proof.
  intros Hd. unfold coins_from_changeset, coins_apply_changeset. cbn [db_coins db_spent db_staged CoinDb_new].
  pose proof (coin_merge_default_l cs Hd) as Hm. cbn in Hm.
  destruct (apply_coins ∅ ∅ cs) as [m s]. by destruct cs; simplify_eq/=.
Qed.

(** ** Disconnecting *)

(** What [disconnect_from] puts in place of a coin, if anything. *)
Definition disconnected (height : N) (c : MwebCoin) : option MwebCoin :=
  match mc_block_height c with
  | Some h => if height <=? h then Some (set_height c None) else None
  | None => None
  end.

Lemma disconnect_fold height (l : list (Bytes32 * MwebCoin)) m s id :
  NoDup l.*1 → Forall (λ p, mc_output_id p.2 = p.1) l →
  let '(m', s') := foldl (disconnect_entry height) (m, s) l in
  let new := (list_to_map l : CoinMap) !! id ≫= disconnected height in
  m' !! id = new ∪ m !! id ∧ s' !! id = new ∪ s !! id.
Proof.
  revert m s. induction l as [|[k c] l IH]; intros m s Hnd Hids; cbn [foldl].
  { cbn. rewrite lookup_empty. by destruct (m !! id), (s !! id). }
  rewrite fmap_cons in Hnd. apply NoDup_cons in Hnd as [Hk Hnd].
  apply Forall_cons in Hids as [Hid Hids]. cbn in Hid.
  assert ((list_to_map l : CoinMap) !! k = None) as Hnone by by apply not_elem_of_list_to_map_1.
  assert (disconnect_entry height (m, s) (k, c) =
    match disconnected height c with Some d => (<[k := d]> m, <[k := d]> s) | None => (m, s) end) as ->.
  { unfold disconnect_entry, disconnected. cbn. destruct (mc_block_height c); [|done].
    destruct (height <=? n); [|done]. by rewrite Hid. }
  destruct (disconnected height c) as [d|] eqn:Hd.
  - specialize (IH (<[k := d]> m) (<[k := d]> s) Hnd Hids).
    destruct (foldl _ _ l) as [m' s']. cbv iota beta zeta in *. destruct IH as [-> ->]. cbn.
    destruct (decide (id = k)) as [->|Hne].
    + rewrite Hnone, !lookup_insert_eq. cbn. rewrite Hd. by destruct (m !! k), (s !! k).
    + by rewrite !lookup_insert_ne by done.
  - specialize (IH m s Hnd Hids).
    destruct (foldl _ _ l) as [m' s']. cbv iota beta zeta in *. destruct IH as [-> ->]. cbn.
    destruct (decide (id = k)) as [->|Hne].
    + rewrite Hnone, lookup_insert_eq. cbn. rewrite Hd. by destruct (m !! k), (s !! k).
    + by rewrite lookup_insert_ne by done.
Qed.

(** Ids are the keys. *)
Definition keyed m : Prop := map_Forall (λ id c, mc_output_id c = id) m.

Lemma keyed_insert m c : keyed m → keyed (<[mc_output_id c := c]> m).
Proof. intros Hm. by apply map_Forall_insert_2. Qed.

Lemma disconnect_all_lookup height m s id :
  keyed m →
  let '(m', s') := disconnect_all height m s in
  m' !! id = (m !! id ≫= disconnected height) ∪ m !! id ∧
  s' !! id = (m !! id ≫= disconnected height) ∪ s !! id.
Proof.
  intros Hm. unfold disconnect_all.
  pose proof (disconnect_fold height (map_iter m) m s id (NoDup_map_iter _)) as Hfold.
  destruct (foldl _ _ _) as [m' s']. rewrite list_to_map_map_iter in Hfold. apply Hfold.
  apply Forall_forall. intros [k c] Hin%elem_of_map_iter. by apply Hm.
Qed.

Lemma disconnected_id height c d : disconnected height c = Some d → mc_output_id d = mc_output_id c.
Proof. unfold disconnected. destruct (mc_block_height c); [|done]. case_match; naive_solver. Qed.

(** ** The database and its store *)

(** The store aggregates the change sets appended to it. *)
Inductive CoinOp :=
| OpInsert (coin : MwebCoin)
| OpMarkSpent (id : Bytes32)
| OpMarkSpentByLeaf (leaf_index : N)
| OpDisconnect (height : N)
| OpSetHeight (id : Bytes32) (height : N)
| OpSetLeaf (id : Bytes32) (leaf_index : N)
| OpPersist.

Definition run_op (st : CoinChangeSet * MwebCoinDatabase) (op : CoinOp) :
    CoinChangeSet * MwebCoinDatabase :=
  let '(store, db) := st in
  match op with
  | OpInsert coin => (store, coin_insert db coin)
  | OpMarkSpent id => (store, (mark_spent db id).1)
  | OpMarkSpentByLeaf leaf_index => (store, (mark_spent_by_leaf_index db leaf_index).1)
  | OpDisconnect height => (store, coins_disconnect_from db height)
  | OpSetHeight id height => (store, (set_block_height db id height).1)
  | OpSetLeaf id leaf_index => (store, (set_leaf_index db id leaf_index).1)
  | OpPersist => let '(db, cs) := take_staged db in (merge store cs, db)
  end.

Definition run_ops : list CoinOp → CoinChangeSet * MwebCoinDatabase :=
  foldl run_op (CoinChangeSet_default, CoinDb_new).

(** No coin is inserted whose id is spent. *)
Definition no_respend db (op : CoinOp) : Prop :=
  match op with OpInsert coin => db_spent db !! mc_output_id coin = None | _ => True end.

Fixpoint fresh_history (st : CoinChangeSet * MwebCoinDatabase) (ops : list CoinOp) : Prop :=
  match ops with
  | [] => True
  | op :: ops => no_respend st.2 op ∧ fresh_history (run_op st op) ops
  end.

(** The store and what is staged on top of it describe the database. *)
Record tracks (st : CoinChangeSet * MwebCoinDatabase) : Prop := {
  tr_coins : ccs_coins (merge st.1 (db_staged st.2)) = db_coins st.2;
  tr_spent : ccs_spent (merge st.1 (db_staged st.2)) = db_spent st.2;
  tr_store : cs_disjoint st.1;
  tr_coins_keyed : keyed (db_coins st.2);
  tr_spent_keyed : keyed (db_spent st.2);
}.

Lemma tracks_disjoint st : tracks st → db_coins st.2 ##ₘ db_spent st.2.
Proof. intros [<- <- Hd _ _]. by apply merge_disjoint. Qed.

(** Staging the change of one id that the store does not know as spent. *)
Lemma tracks_unspent store db id c :
  tracks (store, db) → db_spent db !! id = None → mc_output_id c = id →
  tracks (store, mkCoinDb (<[id := c]> (db_coins db)) (db_spent db)
    (mkCoinChangeSet (<[id := c]> (ccs_coins (db_staged db))) (ccs_spent (db_staged db)))).
Proof.
  intros [C S D K1 K2] Hid Hc. rewrite merge_spent in S. cbn [fst snd] in *. split; cbn [fst snd db_coins db_spent db_staged].
  - apply map_eq. intros i. rewrite merge_coins. cbn [ccs_coins ccs_spent].
    pose proof (f_equal (.!! i) C) as Ci. cbn beta in Ci. rewrite merge_coins in Ci.
    rewrite lookup_union in Ci |- *.
    destruct (decide (i = id)) as [->|Hne].
    + rewrite <-S, lookup_union in Hid. rewrite !lookup_insert_eq.
      destruct (ccs_spent (db_staged db) !! id); [by destruct (ccs_spent store !! id)|].
      destruct (ccs_spent store !! id); [done|]. by destruct (ccs_coins store !! id).
    + by rewrite !lookup_insert_ne by done.
  - by rewrite merge_spent.
  - done.
  - rewrite <-Hc. by apply keyed_insert.
  - done.
Qed.

Lemma insert_tracks store db c :
  tracks (store, db) → db_spent db !! mc_output_id c = None → tracks (store, coin_insert db c).
Proof.
  intros Ht Hid. unfold coin_insert.
  assert (ccs_spent (db_staged db) !! mc_output_id c = None) as Hs.
  { pose proof (tr_spent _ Ht) as S. rewrite merge_spent in S. cbn [fst snd] in S. rewrite <-S in Hid.
    by apply lookup_union_None in Hid as [? _]. }
  rewrite (delete_id (db_spent db)), (delete_id (ccs_spent (db_staged db))) by done.
  by apply tracks_unspent.
Qed.

Lemma update_coin_tracks store db id f :
  tracks (store, db) → (∀ c, mc_output_id (f c) = mc_output_id c) →
  tracks (store, (update_coin db id f).1).
Proof.
  intros Ht Hf. unfold update_coin. destruct (db_coins db !! id) as [c|] eqn:Hc; [|done].
  apply tracks_unspent; [done| |].
  - eapply map_disjoint_Some_l; [by apply (tracks_disjoint _ Ht)|done].
  - rewrite Hf. by apply (tr_coins_keyed _ Ht).
Qed.

Lemma mark_spent_tracks store db id : tracks (store, db) → tracks (store, (mark_spent db id).1).
Proof.
  intros Ht. unfold mark_spent. destruct (db_coins db !! id) as [c|] eqn:Hc; [|done].
  pose proof (tr_coins_keyed _ Ht _ _ Hc) as Hid. destruct Ht as [C S D K1 K2]. cbn [fst snd] in *.
  split; cbn [fst snd db_coins db_spent db_staged].
  - apply map_eq. intros i. rewrite merge_coins. cbn [ccs_coins ccs_spent].
    pose proof (f_equal (.!! i) C) as Ci. cbn beta in Ci. rewrite merge_coins in Ci.
    rewrite lookup_union in Ci |- *. destruct (decide (i = id)) as [->|Hne].
    + by rewrite !lookup_delete_eq, lookup_insert_eq.
    + by rewrite !lookup_delete_ne, lookup_insert_ne by done.
  - rewrite merge_spent in S |- *. cbn [ccs_spent]. by rewrite <-S, insert_union_l.
  - done.
  - by apply map_Forall_delete.
  - rewrite <-Hid. by apply keyed_insert.
Qed.

Lemma keyed_disconnect height m s :
  keyed m → keyed (disconnect_all height m s).1.
Proof.
  intros Hm id c. pose proof (disconnect_all_lookup height m s id Hm) as Hl.
  destruct (disconnect_all height m s) as [m' s']. destruct Hl as [Hl _]. cbn [fst]. rewrite Hl.
  destruct (m !! id) as [d|] eqn:Hd; cbn; [|done].
  destruct (disconnected height d) as [e|] eqn:He; cbn; intros [= <-].
  - rewrite (disconnected_id _ _ _ He). by apply Hm.
  - by apply Hm.
Qed.

Lemma disconnect_tracks store db height :
  tracks (store, db) → tracks (store, coins_disconnect_from db height).
Proof.
  intros Ht. pose proof (tracks_disjoint _ Ht) as Hdisj. destruct Ht as [C S D K1 K2].
  unfold coins_disconnect_from. cbn [fst snd] in *.
  pose proof (keyed_disconnect height (db_coins db) (ccs_coins (db_staged db)) K1) as K1'.
  pose proof (keyed_disconnect height (db_spent db) (ccs_spent (db_staged db)) K2) as K2'.
  pose proof (λ id, disconnect_all_lookup height (db_coins db) (ccs_coins (db_staged db)) id K1) as Hc.
  pose proof (λ id, disconnect_all_lookup height (db_spent db) (ccs_spent (db_staged db)) id K2) as Hs.
  destruct (disconnect_all height (db_coins db) _) as [coins sc].
  destruct (disconnect_all height (db_spent db) _) as [spent ss].
  rewrite merge_spent in S.
  split; cbn [fst snd db_coins db_spent db_staged]; [| |done|done|done].
  - apply map_eq. intros i. rewrite merge_coins. cbn [ccs_coins ccs_spent].
    destruct (Hc i) as [-> Hsc], (Hs i) as [_ Hss]. rewrite lookup_union, Hsc, Hss.
    pose proof (f_equal (.!! i) C) as Ci. cbn beta in Ci. rewrite merge_coins, lookup_union in Ci.
    pose proof (f_equal (.!! i) S) as Si. cbn beta in Si. rewrite lookup_union in Si.
    destruct (db_coins db !! i) as [c|] eqn:Hi.
    + rewrite (map_disjoint_Some_l _ _ _ _ Hdisj Hi) in Si |- *. cbn.
      destruct (ccs_spent (db_staged db) !! i), (ccs_spent store !! i); cbn in *; simplify_eq.
      rewrite <-Ci.
      by destruct (disconnected height c), (ccs_coins (db_staged db) !! i), (ccs_coins store !! i).
    + destruct (ccs_spent (db_staged db) !! i), (db_spent db !! i) as [d|]; cbn in *;
        try (destruct (disconnected height d)); cbn; try done;
        destruct (ccs_spent store !! i); cbn in *; simplify_eq; try done;
        by destruct (ccs_coins (db_staged db) !! i), (ccs_coins store !! i).
  - rewrite merge_spent. cbn [ccs_spent]. apply map_eq. intros i. destruct (Hs i) as [-> Hss].
    rewrite lookup_union, Hss. pose proof (f_equal (.!! i) S) as Si. cbn beta in Si.
    rewrite lookup_union in Si.
    destruct (db_spent db !! i ≫= disconnected height); rewrite <-Si;
      by destruct (ccs_spent (db_staged db) !! i), (ccs_spent store !! i).
Qed.

Lemma persist_tracks store db :
  tracks (store, db) → tracks (merge store (db_staged db), mkCoinDb (db_coins db) (db_spent db) CoinChangeSet_default).
Proof.
  intros [C S D K1 K2]. cbn [fst snd] in *.
  split; cbn [fst snd db_coins db_spent db_staged]; [| | |done|done].
  - by rewrite coin_merge_default_r.
  - by rewrite coin_merge_default_r.
  - by apply merge_disjoint.
Qed.

Lemma run_op_tracks st op : tracks st → no_respend st.2 op → tracks (run_op st op).
Proof.
  destruct st as [store db]. intros Ht Hop. destruct op; cbn [run_op].
  - by apply insert_tracks.
  - by apply mark_spent_tracks.
  - unfold mark_spent_by_leaf_index. destruct (find_by_leaf_index db leaf_index) as [c|]; [|done].
    pose proof (mark_spent_tracks store db (mc_output_id c) Ht) as Hm.
    by destruct (mark_spent db (mc_output_id c)).
  - by apply disconnect_tracks.
  - by apply update_coin_tracks.
  - by apply update_coin_tracks.
  - by apply persist_tracks.
Qed.

Lemma run_ops_tracks st ops : tracks st → fresh_history st ops → tracks (foldl run_op st ops).
Proof.
  revert st. induction ops as [|op ops IH]; intros st Ht; cbn [foldl fresh_history]; [done|].
  intros [Hop Hops]. apply IH; [|done]. by apply run_op_tracks.
Qed.

Lemma tracks_new : tracks (CoinChangeSet_default, CoinDb_new).
Proof. split; try done; apply map_Forall_empty || apply map_disjoint_empty_l. Qed.

(** C29. Whatever has been done to a coin database, persisting what is staged and
    loading the aggregated store gives the database back, provided no coin was
    inserted whose id was spent; coins are filed under their ids, and none is
    both unspent and spent. *)
Theorem coin_db_persists ops :
  fresh_history (CoinChangeSet_default, CoinDb_new) ops →
  let '(store, db) := run_op (run_ops ops) OpPersist in
  coins_from_changeset store = db ∧ db_coins db ##ₘ db_spent db ∧
  keyed (db_coins db) ∧ keyed (db_spent db).
Proof.
  intros Hops. pose proof (run_ops_tracks _ ops tracks_new Hops) as Ht. fold (run_ops ops) in Ht.
  destruct (run_ops ops) as [store db]. apply persist_tracks in Ht. cbn [run_op take_staged].
  pose proof (tracks_disjoint _ Ht) as Hd. destruct Ht as [C S D K1 K2].
  cbn [fst snd db_coins db_spent db_staged] in *. split; [|done].
  rewrite from_changeset_lookup by done. rewrite coin_merge_default_r in C, S. by rewrite C, S.
Qed.

(** ** Balances *)

Definition total_amount (l : list MwebCoin) : N := foldr (λ c s, mc_amount c + s) 0 l.

Lemma total_amount_cons c l : total_amount (c :: l) = mc_amount c + total_amount l.
Proof. done. Qed.

Lemma saturating_fold l acc :
  acc ≤ U64_MAX →
  foldl (λ acc c, saturating_add_u64 acc (mc_amount c)) acc l = N.min (acc + total_amount l) U64_MAX.
Proof.
  revert acc. induction l as [|c l IH]; intros acc Hacc; cbn [foldl total_amount foldr]; [lia|].
  fold (total_amount l). unfold saturating_add_u64 at 2. rewrite IH by lia. lia.
Qed.

Lemma balance_at_fold tip l bal :
  mb_confirmed bal ≤ U64_MAX → mb_untrusted_pending bal ≤ U64_MAX →
  foldl (balance_at_step tip) bal l = mkMwebBalance
    (N.min (mb_confirmed bal + total_amount (filter (λ c, coin_is_confirmed c tip = true) l)) U64_MAX)
    (N.min (mb_untrusted_pending bal +
       total_amount (filter (λ c, coin_is_confirmed c tip ≠ true) l)) U64_MAX).
Proof.
  revert bal. induction l as [|c l IH]; intros [a b] Ha Hb; cbn [foldl mb_confirmed mb_untrusted_pending] in *.
  { cbn. f_equal; lia. }
  unfold balance_at_step at 2. cbn [mb_confirmed mb_untrusted_pending]. rewrite !filter_cons.
  destruct (coin_is_confirmed c tip) eqn:Hc; cbn [decide].
  - rewrite decide_True, decide_False by congruence.
    rewrite IH, total_amount_cons by (cbn; unfold saturating_add_u64; lia).
    cbn [mb_confirmed mb_untrusted_pending]. unfold saturating_add_u64. f_equal; lia.
  - rewrite decide_False, decide_True by congruence.
    rewrite IH, total_amount_cons by (cbn; unfold saturating_add_u64; lia).
    cbn [mb_confirmed mb_untrusted_pending]. unfold saturating_add_u64. f_equal; lia.
Qed.

Lemma total_amount_split (P : MwebCoin → Prop) `{!∀ c, Decision (P c)} l :
  total_amount (filter P l) + total_amount (filter (λ c, ¬ P c) l) = total_amount l.
Proof.
  induction l as [|c l IH]; [done|]. rewrite !filter_cons. cbn [total_amount foldr].
  fold (total_amount l). destruct (decide (P c)).
  - rewrite decide_False by tauto. cbn. fold (total_amount (filter P l)). lia.
  - rewrite decide_True by done. cbn. fold (total_amount (filter (λ c, ¬ P c) l)). lia.
Qed.

(** The balances of the database are the sums of the unspent amounts, capped at
    the width whatever amounts a peer has made up, and the bucketed balance adds
    up to the plain one at every tip. *)
Theorem coin_balances_agree db tip_height :
  coin_balance db = N.min (total_amount (unspent db)) U64_MAX ∧
  balance_at db tip_height = mkMwebBalance
    (N.min (total_amount (unspent_confirmed db tip_height)) U64_MAX)
    (N.min (total_amount (filter (λ c, coin_is_confirmed c tip_height ≠ true) (unspent db))) U64_MAX) ∧
  mweb_total (balance_at db tip_height) = coin_balance db.
Proof.
  assert (coin_balance db = N.min (total_amount (unspent db)) U64_MAX) as Hbal.
  { unfold coin_balance. rewrite saturating_fold by done. f_equal. }
  assert (balance_at db tip_height = mkMwebBalance
    (N.min (total_amount (unspent_confirmed db tip_height)) U64_MAX)
    (N.min (total_amount (filter (λ c, coin_is_confirmed c tip_height ≠ true) (unspent db))) U64_MAX)) as Hat.
  { unfold balance_at. by rewrite balance_at_fold. }
  split_and!; [done..|]. rewrite Hat, Hbal. unfold mweb_total, saturating_add_u64, unspent_confirmed. cbn.
  pose proof (total_amount_split (λ c, coin_is_confirmed c tip_height = true) (unspent db)). lia.
Qed.

(** ** Maturity *)

Lemma is_spendable_confirmed c tip maturity :
  is_spendable c tip maturity = true → coin_is_confirmed c tip = true.
Proof.
  unfold is_spendable, coin_is_confirmed. destruct (mc_block_height c); [|done].
  destruct (N.ltb_spec tip n); [done|]. intros _. by apply N.leb_le.
Qed.

(** A coin stays spendable as the chain grows. *)
Lemma is_spendable_mono c tip tip' maturity :
  tip ≤ tip' → is_spendable c tip maturity = true → is_spendable c tip' maturity = true.
Proof.
  unfold is_spendable. destruct (mc_block_height c) as [h|]; [|done]. intros Htip.
  destruct (N.ltb_spec tip h), (N.ltb_spec tip' h); try done; try lia.
  destruct (mc_is_pegin c); [|done]. rewrite !N.leb_le.
  unfold saturating_sub, saturating_add_u32. lia.
Qed.

(** ** Examples *)

Definition sample_coin (n amount : N) (height : option N) : MwebCoin :=
  mkMwebCoin (vreplicate 32 n) (vreplicate 33 0) amount 0 zero32 zero32 None height false None.

Definition sample_ops : list CoinOp :=
  [OpInsert (sample_coin 1 100 (Some 5)); OpInsert (sample_coin 2 50 None); OpPersist;
   OpMarkSpent (vreplicate 32 1); OpDisconnect 4; OpSetHeight (vreplicate 32 2) 9;
   OpInsert (sample_coin 3 7 (Some 8))].

Lemma coin_db_persists_witness :
  fresh_history (CoinChangeSet_default, CoinDb_new) sample_ops ∧
  coins_from_changeset (run_op (run_ops sample_ops) OpPersist).1 =
    (run_op (run_ops sample_ops) OpPersist).2.
Proof.
  assert (fresh_history (CoinChangeSet_default, CoinDb_new) sample_ops) as Hf.
  { cbn [fresh_history sample_ops no_respend]. split_and!; vm_compute; reflexivity. }
  split; [exact Hf|]. pose proof (coin_db_persists sample_ops Hf) as Hp.
  destruct (run_op (run_ops sample_ops) OpPersist) as [store db]. exact (proj1 Hp).
Defined.

(** A coin that reappears after its spend was persisted, as after a
    reorganisation, is unspent in memory but spent again once reloaded. *)
Definition respend_ops : list CoinOp :=
  [OpInsert (sample_coin 1 100 (Some 5)); OpMarkSpent (vreplicate 32 1); OpPersist;
   OpInsert (sample_coin 1 100 (Some 6)); OpPersist].

Lemma reappearing_coin_lost_on_reload :
  coin_balance (run_ops respend_ops).2 = 100 ∧
  coin_balance (coins_from_changeset (run_ops respend_ops).1) = 0.
Proof. split; vm_compute; reflexivity. Qed.
