(* ===== verification/MwebKeys.v ===== *)
(** * Keys, hashes and commitments of MWEB

    Models [crates/mweb/src/hash.rs], [keys.rs], [address.rs] and the wrappers
    of [crypto.rs], built with the feature [zkp].  The curve, the commitment
    library and the hash functions belong to other crates: they are the classes
    [Secp], [Zkp] and [Wallet], whose documented behaviour is stated in
    [SecpLaws].  A random secret is the next element of a supply of seeds. *)
From S2P Require Import Prelude Effects Mmr MwebWire MwebCoins.

#[local] Open Scope N_scope.

Definition Bytes33 : Type := vec N 33.
Definition Bytes64 : Type := vec N 64.

(** The [secp256k1] crate and the SHA-256 of [bitcoin_hashes]. *)
Class Secp := {
  PublicKey : Type;
  PublicKey_eq_dec :: EqDecision PublicKey;
  SecretKey : Type;
  Scalar : Type;
  pk_serialize : PublicKey → Bytes33;
  pk_from_slice : Bytes33 → option PublicKey;
  sk_from_slice : Bytes32 → option SecretKey;
  secret_bytes : SecretKey → Bytes32;
  scalar_from_be_bytes : Bytes32 → option Scalar;
  from_secret_key : SecretKey → PublicKey;
  pk_mul_tweak : PublicKey → Scalar → option PublicKey;
  sk_add_tweak : SecretKey → Scalar → option SecretKey;
  sk_mul_tweak : SecretKey → Scalar → option SecretKey;
  sha256 : list N → Bytes32;
}.

(** The [grin_secp256k1zkp] crate, as the module [mw] calls it: secret keys and
    commitments are byte arrays there. *)
Class Zkp := {
  grin_sk_valid : Bytes32 → bool;
  zkp_commit : N → Bytes32 → option Bytes33;
  zkp_inv : Bytes32 → option Bytes32;
  zkp_blind_sum : list Bytes32 → list Bytes32 → option Bytes32;
  zkp_to_pubkey : Bytes33 → option Bytes33;
  zkp_bullet_proof : N → Bytes32 → Bytes32 → Bytes32 → list N → list N;
  zkp_verify_bullet_proof : Bytes33 → list N → list N → bool;
  schnorrsig_sign : Bytes32 → Bytes32 → option Bytes64;
  schnorrsig_serialize : Bytes64 → option Bytes64;
  grin_pk_valid : Bytes33 → bool;
  aggsig_verify_single : Bytes64 → Bytes32 → Bytes33 → bool;
}.

(** [Option::ok_or]. *)
Definition ok_or {A} (e : Error) (o : option A) : result Error A :=
  match o with Some a => Ok a | None => Err e end.

(** [v.iter().map(f).collect::<Result<_, _>>()]. *)
Fixpoint try_map {A B E} (f : A → result E B) (l : list A) : result E (list B) :=
  match l with
  | [] => Ok []
  | a :: l => b ← f a; bs ← try_map f l; Ok (b :: bs)
  end.

(** ** [hash.rs] *)

Inductive HashTag :=
| TagAddress | TagBlind | TagDerive | TagOutKey | TagSendKey | TagTag
| TagNonceMask | TagValueMask | TagNonce.

(** [tag as u8]. *)
Definition tag_byte (tag : HashTag) : N :=
  match tag with
  | TagAddress => 65 | TagBlind => 66 | TagDerive => 68 | TagOutKey => 79
  | TagSendKey => 83 | TagTag => 84 | TagNonceMask => 88 | TagValueMask => 89
  | TagNonce => 78
  end.

(** [u64::from_le_bytes]. *)
Definition from_le_bytes (l : list N) : N := foldr (λ b acc, b + 256 * acc) 0 l.

Section hashes.
Context `{Blake3, Secp}.

Definition hashed (tag : HashTag) (payload : list N) : Bytes32 :=
  blake3_hash (tag_byte tag :: payload).
Definition hashed_pubkey (tag : HashTag) (pk : PublicKey) : Bytes32 :=
  hashed tag (pk_serialize pk : list N).
Definition hashed_secret (tag : HashTag) (sk : SecretKey) : Bytes32 :=
  hashed tag (secret_bytes sk : list N).

Definition send_key_hash (a b : PublicKey) (value : N) (nonce : list N) : Bytes32 :=
  blake3_hash (tag_byte TagSendKey :: (pk_serialize a : list N) ++ (pk_serialize b : list N) ++
    le_bytes 8 value ++ nonce).

Definition value_mask (shared_t : Bytes32) : N :=
  from_le_bytes (take 8 (hashed TagValueMask (shared_t : list N) : list N)).
Definition nonce_mask (shared_t : Bytes32) : list N :=
  take 16 (hashed TagNonceMask (shared_t : list N) : list N).
End hashes.

(** ** [crypto.rs] *)

Definition BULLETPROOF_LEN : nat := 675.

Definition GENERATOR_J : Bytes33 :=
  Eval cbv in list_to_vec
    [2; 184; 96; 245; 103; 149; 252; 3; 243; 194; 22; 133; 56; 61; 27; 90;
     47; 41; 84; 244; 155; 126; 57; 139; 141; 42; 1; 147; 147; 54; 33; 21; 95].

(** A computation that draws seeds; [None] when the supply runs out, where the
    code would go on drawing. *)
Notation Rand := (Eff (list Bytes32) Error).

Section crypto.
Context `{Secp, Zkp}.

(** [GrinSk::from_slice]. *)
Definition grin_sk (b : Bytes32) : result Error Bytes32 :=
  if grin_sk_valid b then Ok b else Err InvalidTweak.

Definition pedersen_commit (value : N) (blind : Bytes32) : result Error Bytes33 :=
  blind ← grin_sk blind;
  ok_or (Crypto "pedersen commit failed") (zkp_commit value blind).

Definition scalar_inverse (scalar : Bytes32) : result Error Bytes32 :=
  sk ← grin_sk scalar;
  ok_or (Crypto "scalar inversion failed") (zkp_inv sk).

Definition scalar_of (b : Bytes32) : result Error Scalar :=
  ok_or InvalidTweak (scalar_from_be_bytes b).

Definition blind_switch (blind : Bytes32) (value : N) : result Error Bytes32 :=
  commit ← pedersen_commit value blind;
  j ← ok_or Secp256k1 (pk_from_slice GENERATOR_J);
  blind_scalar ← scalar_of blind;
  r_j ← ok_or Secp256k1 (pk_mul_tweak j blind_scalar);
  let hash := sha256 (vec_to_list commit ++ vec_to_list (pk_serialize r_j)) in
  r ← ok_or Secp256k1 (sk_from_slice blind);
  tweak ← scalar_of hash;
  r' ← ok_or Secp256k1 (sk_add_tweak r tweak);
  Ok (secret_bytes r').

Definition switch_commit (pre_blind : Bytes32) (value : N) : result Error Bytes33 :=
  switched ← blind_switch pre_blind value;
  pedersen_commit value switched.

Definition commitment_to_pubkey (commitment : Bytes33) : result Error PublicKey :=
  bytes ← ok_or (Crypto "commitment_to_pubkey failed") (zkp_to_pubkey commitment);
  ok_or Secp256k1 (pk_from_slice bytes).

Definition blind_sum (positive negative : list Bytes32) : result Error Bytes32 :=
  pos ← try_map grin_sk positive;
  neg ← try_map grin_sk negative;
  ok_or (Crypto "blind_sum failed") (zkp_blind_sum pos neg).

Definition secret_add (a b : Bytes32) : result Error Bytes32 := blind_sum [a; b] [].
Definition secret_sub (a b : Bytes32) : result Error Bytes32 := blind_sum [a] [b].

Definition secret_mul (a b : Bytes32) : result Error Bytes32 :=
  a ← ok_or Secp256k1 (sk_from_slice a);
  t ← scalar_of b;
  m ← ok_or Secp256k1 (sk_mul_tweak a t);
  Ok (secret_bytes m).

Definition schnorr_sign (secret msg32 : Bytes32) : result Error Bytes64 :=
  opaque ← ok_or (Crypto "schnorrsig_sign failed") (schnorrsig_sign msg32 secret);
  ok_or (Crypto "schnorrsig_serialize failed") (schnorrsig_serialize opaque).

(** Messages of 32 bytes and signatures of 64 are always well formed. *)
Definition schnorr_verify (signature : Bytes64) (pubkey : PublicKey) (msg32 : Bytes32) :
    result Error bool :=
  if grin_pk_valid (pk_serialize pubkey)
  then Ok (aggsig_verify_single signature msg32 (pk_serialize pubkey))
  else Err InvalidTweak.

(** ** Randomness *)

(** The first of the seeds that is a valid secret key. *)
Fixpoint draw_scalar (seeds : list Bytes32) : option (Bytes32 * list Bytes32) :=
  match seeds with
  | [] => None
  | bytes :: seeds =>
    match sk_from_slice bytes with
    | Some sk => Some (secret_bytes sk, seeds)
    | None => draw_scalar seeds
    end
  end.
Definition random_secret : Rand Bytes32 := λ seeds,
  '(b, seeds) ← draw_scalar seeds; Some (Ok b, seeds).

Definition bulletproof_prove (value : N) (switched_blind : Bytes32) (extra_data : list N) :
    Rand (list N) :=
  blind ← lift (grin_sk switched_blind);
  rewind ← random_secret;
  rewind ← lift (grin_sk rewind);
  private ← random_secret;
  private ← lift (grin_sk private);
  let proof := zkp_bullet_proof value blind rewind private extra_data in
  if decide (length proof = BULLETPROOF_LEN) then mret proof
  else lift (Err (Crypto "unexpected bulletproof length {}")).
End crypto.

(** Bad proofs are told from good ones, nothing is an error. *)
Definition bulletproof_verify `{Zkp} (commitment : Bytes33) (proof extra_data : list N) :
    result Error bool :=
  Ok (zkp_verify_bullet_proof commitment proof extra_data).

(** ** [keys.rs] *)

(** [bip32] and [Address] of the [bitcoin] crate. *)
Inductive AddressData := MwebAddress (scan spend : Bytes33) | OtherAddress.

Class Wallet `{Secp} := {
  ChildNumber : Type;
  from_hardened_idx : N → option ChildNumber;
  from_normal_idx : N → option ChildNumber;
  Xpriv : Type;
  Fingerprint : Type;
  Network : Type;
  NetworkKind : Type;
  new_master : Network → list N → option Xpriv;
  xpriv_fingerprint : Xpriv → Fingerprint;
  derive_priv : Xpriv → list ChildNumber → option Xpriv;
  private_key : Xpriv → SecretKey;
  Address : Type;
  address_mweb : PublicKey → PublicKey → NetworkKind → Address;
  to_address_data : Address → AddressData;
}.

Inductive MasterKeyScheme := LitecoinCore | Lip0004 | Mwebd.

Section keys.
Context `{Blake3, Wallet}.

Definition hardened (i : N) : result Error ChildNumber := ok_or Bip32 (from_hardened_idx i).
Definition normal (i : N) : result Error ChildNumber := ok_or Bip32 (from_normal_idx i).

Definition scan_path (scheme : MasterKeyScheme) : result Error (list ChildNumber) :=
  match scheme with
  | LitecoinCore => try_map hardened [0; 100; 0]
  | Lip0004 => p ← try_map normal [1; 0]; q ← hardened 100; Ok (p ++ [q])
  | Mwebd => try_map hardened [1000; 2; 0; 0]
  end.
Definition spend_path (scheme : MasterKeyScheme) : result Error (list ChildNumber) :=
  match scheme with
  | LitecoinCore => try_map hardened [0; 100; 1]
  | Lip0004 => p ← try_map normal [1; 0]; q ← hardened 101; Ok (p ++ [q])
  | Mwebd => try_map hardened [1000; 2; 0; 1]
  end.

Record MasterKeys := mkMasterKeys {
  mk_scan : SecretKey;
  mk_spend : SecretKey;
  mk_scheme : MasterKeyScheme;
  mk_master_fingerprint : Fingerprint;
  mk_scan_path : list ChildNumber;
  mk_spend_path : list ChildNumber;
}.

Definition from_xprv (master : Xpriv) (scheme : MasterKeyScheme) : result Error MasterKeys :=
  let fingerprint := xpriv_fingerprint master in
  sc_path ← scan_path scheme;
  sp_path ← spend_path scheme;
  scan ← ok_or Bip32 (derive_priv master sc_path);
  spend ← ok_or Bip32 (derive_priv master sp_path);
  Ok (mkMasterKeys (private_key scan) (private_key spend) scheme fingerprint sc_path sp_path).

Definition from_seed (seed : list N) (network : Network) (scheme : MasterKeyScheme) :
    result Error MasterKeys :=
  master ← ok_or Bip32 (new_master network seed);
  from_xprv master scheme.

Implicit Types keys : MasterKeys.

Definition scan_key_source keys : Fingerprint * list ChildNumber :=
  (mk_master_fingerprint keys, mk_scan_path keys).
Definition spend_key_source keys : Fingerprint * list ChildNumber :=
  (mk_master_fingerprint keys, mk_spend_path keys).
Definition scan_public keys : PublicKey := from_secret_key (mk_scan keys).
Definition spend_public keys : PublicKey := from_secret_key (mk_spend keys).

Definition address_index_tweak (scan_secret : SecretKey) (index : N) : Bytes32 :=
  blake3_hash (tag_byte TagAddress :: le_bytes 4 index ++ (secret_bytes scan_secret : list N)).

Definition spend_key_at keys (index : N) : result Error SecretKey :=
  let mi := address_index_tweak (mk_scan keys) index in
  tweak ← scalar_of mi;
  ok_or Secp256k1 (sk_add_tweak (mk_spend keys) tweak).

Definition stealth_pubkeys keys (index : N) : result Error (PublicKey * PublicKey) :=
  b_i ← spend_key_at keys index;
  let b_i_pk := from_secret_key b_i in
  scan_scalar ← scalar_of (secret_bytes (mk_scan keys));
  a_i_pk ← ok_or Secp256k1 (pk_mul_tweak b_i_pk scan_scalar);
  Ok (a_i_pk, b_i_pk).

Definition address keys (index : N) (network : NetworkKind) : result Error Address :=
  '(scan_pk, spend_pk) ← stealth_pubkeys keys index;
  Ok (address_mweb scan_pk spend_pk network).

Definition receive_address keys (index : N) (network : NetworkKind) : result Error Address :=
  address keys index network.

Definition master_keys_from_seed (seed : list N) (network : Network) : result Error MasterKeys :=
  from_seed seed network LitecoinCore.
End keys.
