(* ===== verification/MwebTx.v ===== *)
(** * Outputs, inputs and kernels of MWEB transactions

    The [mimblewimble] structures of the [bitcoin] crate, with the fields that
    the literals of [crates/mweb/src/tx_builder.rs] list, and [output_id] of
    [scan.rs] and [kernel_id] of [tx_builder.rs].  The consensus serializations
    and the feature bits are the class [MwSerialize]. *)
From S2P Require Import Prelude Mmr Block MwebWire MwebCoins MwebKeys.

#[local] Open Scope N_scope.

#[export] Instance Bytes33_ord : TotalOrd Bytes33.
Proof. apply (ord_by_key (λ v : Bytes33, (v : list N))). intros a b. apply vec_to_list_inj2. Defined.

Section data.
Context `{Secp}.

Record StandardFields := mkStandardFields {
  sf_key_exchange_pubkey : PublicKey;
  sf_view_tag : N;
  sf_masked_value : N;
  sf_masked_nonce : list N;
}.

Record OutputMessage := mkOutputMessage {
  om_features : N;
  om_standard_fields : option StandardFields;
  om_extra_data : list N;
}.

Record MwOutput := mkMwOutput {
  o_commitment : Bytes33;
  o_sender_public_key : PublicKey;
  o_receiver_public_key : PublicKey;
  o_message : OutputMessage;
  o_range_proof : list N;
  o_signature : Bytes64;
}.

#[export] Instance StandardFields_eq_dec : EqDecision StandardFields.
Proof. solve_decision. Defined.
#[export] Instance OutputMessage_eq_dec : EqDecision OutputMessage.
Proof. solve_decision. Defined.
#[export] Instance MwOutput_eq_dec : EqDecision MwOutput.
Proof. solve_decision. Defined.

Record MwInput := mkMwInput {
  in_features : N;
  in_output_id : Bytes32;
  in_commitment : Bytes33;
  in_input_public_key : option PublicKey;
  in_output_public_key : PublicKey;
  in_extra_data : list N;
  in_signature : Bytes64;
}.
End data.

(** [ScriptBuf] is a byte string; amounts of kernels are [i64]. *)
Record PegOutCoin := mkPegOutCoin { po_amount : Z; po_script_pub_key : list N }.

Section transactions.
Context `{Secp}.

Record Kernel := mkKernel {
  k_features : N;
  k_fee : option Z;
  k_pegin : option Z;
  k_pegouts : list PegOutCoin;
  k_lock_height : option N;
  k_stealth_excess : option PublicKey;
  k_extra_data : list N;
  k_excess : Bytes33;
  k_signature : Bytes64;
}.

Record TxBody := mkTxBody {
  tb_inputs : list MwInput;
  tb_outputs : list MwOutput;
  tb_kernels : list Kernel;
}.

Record MwTransaction := mkMwTransaction {
  mw_kernel_offset : Bytes32;
  mw_stealth_offset : Bytes32;
  mw_body : TxBody;
}.

Class MwSerialize := {
  serialize_message : OutputMessage → list N;
  serialize_kernel : Kernel → list N;
  serialize_pegouts : list PegOutCoin → list N;
  StandardFieldsFeatureBit : N;
  FeeFeatureBit : N;
  PeginFeatureBit : N;
  PegoutFeatureBit : N;
  StealthExcessFeatureBit : N;
}.
End transactions.
Arguments MwSerialize {_}.

(** The Litecoin transaction around it; its inputs and outputs are opaque. *)
Class LtcTypes := { TxIn : Type; TxOut : Type }.

Record LtcTransaction `{Secp, LtcTypes} := mkLtcTransaction {
  lt_version : N;
  lt_lock_time : N;
  lt_input : list TxIn;
  lt_output : list TxOut;
  lt_mw_tx : option MwTransaction;
  lt_is_hog_ex : bool;
}.

Arguments mkLtcTransaction {_ _} _ _ _ _ _ _.

(** The output as the verifier of batches sees it. *)
#[export] Instance mw_mimblewimble `{Secp, !MwSerialize} : Mimblewimble := {
  Output := MwOutput;
  commitment o := o_commitment o;
  ser_sender_public_key o := pk_serialize (o_sender_public_key o);
  ser_receiver_public_key o := pk_serialize (o_receiver_public_key o);
  ser_message o := serialize_message (o_message o);
  range_proof := o_range_proof;
  signature o := o_signature o;
}.

(** [tx_builder.rs] *)
Definition kernel_id `{Blake3, Secp, !MwSerialize} (kernel : Kernel) : Bytes32 :=
  blake3_hash (serialize_kernel kernel).
