(* ===== verification/MwebScan.v ===== *)
(** * Recognising the wallet's outputs

    Models [crates/mweb/src/scan.rs]: the address book, rewinding an output
    and the scans that feed the coin database.  A scan that fails leaves the
    database as far as it got. *)
From S2P Require Import Prelude Mmr Block MwebWire MwebCoins MwebKeys MwebTx.

#[local] Open Scope N_scope.

Definition DEFAULT_GAP_LIMIT : N := 20.

(** [a[i] ^ b[i]] for each index. *)
Definition xor_bytes (a b : list N) : list N := zip_with N.lxor a b.

Record AddressBook := mkAddressBook { by_spend_pk : gmap Bytes33 N; book_gap_limit : N }.

Section scan.
Context `{Blake3, Wallet, !Zkp, !MwSerialize, LtcTypes}.
Implicit Types (keys : MasterKeys) (book : AddressBook) (output : MwOutput) (db : MwebCoinDatabase).

(** One turn of the loop of [from_keys]. *)
Definition add_address keys (m : gmap Bytes33 N) (i : N) : result Error (gmap Bytes33 N) :=
  '(_, b_i) ← stealth_pubkeys keys i;
  Ok (<[pk_serialize b_i := i]> m).
Definition book_from_keys keys (gap_limit : N) : result Error AddressBook :=
  by_spend_pk ← try_foldl (add_address keys) ∅ (range_exclusive 0 gap_limit);
  Ok (mkAddressBook by_spend_pk gap_limit).

Definition index_of book (spend_pk : PublicKey) : option N := by_spend_pk book !! pk_serialize spend_pk.

(** With the feature [zkp]. *)
Definition lookup_spend_pubkey book (ko : PublicKey) (out_key : Bytes32) :
    result Error (option (N * PublicKey)) :=
  inv ← scalar_inverse out_key;
  inv_scalar ← scalar_of inv;
  b_i ← ok_or Secp256k1 (pk_mul_tweak ko inv_scalar);
  Ok ((λ idx, (idx, b_i)) <$> index_of book b_i).

(** Without it: the loop over the entries of the book. *)
Fixpoint lookup_forward_loop (ko : PublicKey) (out_key_scalar : Scalar)
    (entries : list (Bytes33 * N)) : result Error (option (N * PublicKey)) :=
  match entries with
  | [] => Ok None
  | (ref_b, idx) :: entries =>
    b_i ← ok_or Secp256k1 (pk_from_slice ref_b);
    p ← ok_or Secp256k1 (pk_mul_tweak b_i out_key_scalar);
    if decide (p = ko) then Ok (Some (idx, b_i)) else lookup_forward_loop ko out_key_scalar entries
  end.
Definition lookup_spend_pubkey_forward book (ko : PublicKey) (out_key : Bytes32) :
    result Error (option (N * PublicKey)) :=
  out_key_scalar ← scalar_of out_key;
  lookup_forward_loop ko out_key_scalar (map_iter (by_spend_pk book)).

(** The coin of an output that is known to be ours. *)
Definition owned_coin keys output (address_index value : N) (pre_blind t out_key : Bytes32) :
    result Error MwebCoin :=
  b_i_sk ← spend_key_at keys address_index;
  factor ← scalar_of out_key;
  spend ← ok_or Secp256k1 (sk_mul_tweak b_i_sk factor);
  Ok (mkMwebCoin (output_id output) (o_commitment output) value address_index pre_blind t
    (Some (secret_bytes spend)) None false None).

(** From the lookup of the address on. *)
Definition rewind_fields keys output (fields : StandardFields) (shared_point : PublicKey)
    (address_index : N) (b_i : PublicKey) : result Error (option MwebCoin) :=
  let ke := sf_key_exchange_pubkey fields in
  let t := hashed_pubkey TagDerive shared_point in
  let out_key := hashed TagOutKey (t : list N) in
  scan_s ← scalar_of (secret_bytes (mk_scan keys));
  a_i ← ok_or Secp256k1 (pk_mul_tweak b_i scan_s);
  let vmask := value_mask t in
  let nmask := nonce_mask t in
  let value := N.lxor (sf_masked_value fields) vmask in
  let nonce := xor_bytes (sf_masked_nonce fields) nmask in
  let pre_blind := hashed TagBlind (t : list N) in
  expected_commit ← switch_commit pre_blind value;
  if decide (expected_commit ≠ o_commitment output) then Ok None
  else if MAX_MONEY <? value then Err (bad_proof "rewound output amount exceeds MAX_MONEY")
  else
    let s := send_key_hash a_i b_i value nonce in
    s_scalar ← scalar_of s;
    expected_ke ← ok_or Secp256k1 (pk_mul_tweak b_i s_scalar);
    if decide (expected_ke ≠ ke) then Ok None
    else
      coin ← owned_coin keys output address_index value pre_blind t out_key;
      Ok (Some coin).

Definition rewind_output keys book output : result Error (option MwebCoin) :=
  match om_standard_fields (o_message output) with
  | None => Ok None
  | Some fields =>
    if N.land (om_features (o_message output)) 1 =? 0 then Ok None
    else
      let ke := sf_key_exchange_pubkey fields in
      let ko := o_receiver_public_key output in
      scan_scalar ← scalar_of (secret_bytes (mk_scan keys));
      shared_point ← ok_or Secp256k1 (pk_mul_tweak ke scan_scalar);
      let view_tag := hashed_pubkey TagTag shared_point !!! 0%fin in
      if negb (view_tag =? sf_view_tag fields) then Ok None
      else
        let t := hashed_pubkey TagDerive shared_point in
        let out_key := hashed TagOutKey (t : list N) in
        found ← lookup_spend_pubkey book ko out_key;
        match found with
        | None => Ok None
        | Some (address_index, b_i) => rewind_fields keys output fields shared_point address_index b_i
        end
  end.

(** ** Scanning *)

Fixpoint scan_outputs_loop keys book (block_height : option N) (outputs : list MwOutput) db
    (found : list MwebCoin) : MwebCoinDatabase * result Error (list MwebCoin) :=
  match outputs with
  | [] => (db, Ok found)
  | output :: outputs =>
    match rewind_output keys book output with
    | Err e => (db, Err e)
    | Ok None => scan_outputs_loop keys book block_height outputs db found
    | Ok (Some coin) =>
      let coin := set_height coin block_height in
      scan_outputs_loop keys book block_height outputs (coin_insert db coin) (found ++ [coin])
    end
  end.
Definition scan_outputs_at keys book (outputs : list MwOutput) db (block_height : option N) :
    MwebCoinDatabase * result Error (list MwebCoin) :=
  scan_outputs_loop keys book block_height outputs db [].
Definition scan_outputs keys book (outputs : list MwOutput) db :
    MwebCoinDatabase * result Error (list MwebCoin) :=
  scan_outputs_at keys book outputs db None.

Fixpoint scan_utxo_entries_loop keys book (height_for_leaf : N → option N)
    (entries : list (N * MwOutput)) db (found : list MwebCoin) :
    MwebCoinDatabase * result Error (list MwebCoin) :=
  match entries with
  | [] => (db, Ok found)
  | (leaf_index, output) :: entries =>
    match rewind_output keys book output with
    | Err e => (db, Err e)
    | Ok None => scan_utxo_entries_loop keys book height_for_leaf entries db found
    | Ok (Some coin) =>
      let coin := set_height (with_leaf_index coin leaf_index) (height_for_leaf leaf_index) in
      scan_utxo_entries_loop keys book height_for_leaf entries (coin_insert db coin) (found ++ [coin])
    end
  end.
Definition scan_utxo_entries_at keys book (entries : list (N * MwOutput)) db
    (height_for_leaf : N → option N) : MwebCoinDatabase * result Error (list MwebCoin) :=
  scan_utxo_entries_loop keys book height_for_leaf entries db [].

Definition mark_input db (input : MwInput) : MwebCoinDatabase := (mark_spent db (in_output_id input)).1.

(** The stored coin is inserted again with the flag set. *)
Definition flag_pegin db (coin : MwebCoin) : MwebCoinDatabase :=
  match coin_get db (mc_output_id coin) with
  | Some stored => coin_insert db (with_pegin stored true)
  | None => db
  end.

Definition scan_mweb_tx_at keys book (tx : MwTransaction) db (block_height : option N) :
    MwebCoinDatabase * result Error (list MwebCoin) :=
  let db := foldl mark_input db (tb_inputs (mw_body tx)) in
  let is_pegin := existsb (λ k, bool_decide (is_Some (k_pegin k))) (tb_kernels (mw_body tx)) in
  match scan_outputs_at keys book (tb_outputs (mw_body tx)) db block_height with
  | (db, Err e) => (db, Err e)
  | (db, Ok found) =>
    if is_pegin
    then (foldl flag_pegin db found, Ok ((λ c, with_pegin c true) <$> found))
    else (db, Ok found)
  end.
Definition scan_mweb_tx keys book (tx : MwTransaction) db :
    MwebCoinDatabase * result Error (list MwebCoin) :=
  scan_mweb_tx_at keys book tx db None.

Definition scan_litecoin_tx_at keys book (tx : LtcTransaction) db (block_height : option N) :
    MwebCoinDatabase * result Error (list MwebCoin) :=
  match lt_mw_tx tx with
  | None => (db, Ok [])
  | Some mw => scan_mweb_tx_at keys book mw db block_height
  end.
Definition scan_litecoin_tx keys book (tx : LtcTransaction) db :
    MwebCoinDatabase * result Error (list MwebCoin) :=
  scan_litecoin_tx_at keys book tx db None.
End scan.
