(* ===== verification/MwebBuild.v ===== *)
(** * Building MWEB transactions

    Models [crates/mweb/src/tx_builder.rs]: creating outputs, inputs and
    kernels, and assembling them into a balanced body.  Amounts of kernels are
    [i64]s, values of [Z]; secrets are drawn from a supply of seeds. *)
From S2P Require Import Prelude Effects Mmr Block MwebWire MwebCoins MwebKeys MwebTx MwebScan.

#[local] Open Scope N_scope.

Definition CHANGE_ADDRESS_INDEX : N := 0.

Fixpoint try_sum (acc : N) (amounts : list N) : option N :=
  match amounts with
  | [] => Some acc
  | a :: amounts => acc ← checked_add_u64 acc a; try_sum acc amounts
  end.
Definition checked_amount_total (amounts : list N) : result Error N :=
  total ← ok_or (Crypto "amount total overflows u64") (try_sum 0 amounts);
  if MAX_MONEY <? total then Err (Crypto "amount total exceeds MAX_MONEY") else Ok total.

(** [amount as i64] keeps amounts of money. *)
Definition money_to_i64 (amount : N) : result Error Z :=
  if MAX_MONEY <? amount then Err (Crypto "{what} exceeds MAX_MONEY") else Ok (Z.of_N amount).

(** ** Variable-length amounts *)

(** The bytes of [tmp], the last one written first; at most ten, the length of
    [tmp], or the code panics. *)
Fixpoint varint_loop (fuel : nat) (n : Z) (len : nat) : option (list N) :=
  match fuel with
  | O => None
  | S fuel =>
    let a := Z.to_N (Z.land n 127) in
    let b := if (len =? 0)%nat then 0 else 128 in
    let byte := N.lor a b in
    if (n <=? 127)%Z then Some [byte]
    else
      rest ← varint_loop fuel (Z.shiftr n 7 - 1)%Z (S len);
      Some (rest ++ [byte])
  end.
Definition write_mweb_varint (amount : Z) : option (list N) := varint_loop 10 amount 0.

(** ** Draws over lists *)

Fixpoint rand_foldl {A B} (f : B → A → Rand B) (acc : B) (l : list A) : Rand B :=
  match l with
  | [] => mret acc
  | a :: l => acc ← f acc a; rand_foldl f acc l
  end.

Section build.
Context `{Blake3, Wallet, !Zkp, !MwSerialize, LtcTypes}.
Implicit Types (keys : MasterKeys) (coin : MwebCoin).

Definition mweb_stealth_keys (addr : Address) : result Error (PublicKey * PublicKey) :=
  match to_address_data addr with
  | MwebAddress scan spend =>
    a ← ok_or Secp256k1 (pk_from_slice scan);
    b ← ok_or Secp256k1 (pk_from_slice spend);
    Ok (a, b)
  | OtherAddress => Err NotMwebAddress
  end.

(** ** Outputs *)

(** The message signed by the sender. *)
Definition output_sig_message (commitment : Bytes33) (ks ko : PublicKey) (msg_ser proof : list N) :
    Bytes32 :=
  let msg_hash := blake3_hash msg_ser in
  let proof_hash := blake3_hash proof in
  blake3_hash (vec_to_list commitment ++ vec_to_list (pk_serialize ks) ++
    vec_to_list (pk_serialize ko) ++ vec_to_list msg_hash ++ vec_to_list proof_hash).

(** The value and the nonce, masked by the shared secret. *)
Definition output_message (ke : PublicKey) (view_tag value : N) (n : list N) (t : Bytes32) :
    OutputMessage :=
  mkOutputMessage StandardFieldsFeatureBit
    (Some (mkStandardFields ke view_tag (N.lxor value (value_mask t)) (xor_bytes n (nonce_mask t)))) [].

Definition create_output_with_sender (recipient : Address) (value : N) (sender_privkey : Bytes32) :
    Rand (Bytes32 * Bytes32 * MwOutput) :=
  '(a, b) ← lift (mweb_stealth_keys recipient);
  sender_sk ← lift (ok_or Secp256k1 (sk_from_slice sender_privkey));
  let n := take 16 (vec_to_list (hashed_secret TagNonce sender_sk)) in
  let s := send_key_hash a b value n in
  s_scalar ← lift (scalar_of s);
  s_a ← lift (ok_or Secp256k1 (pk_mul_tweak a s_scalar));
  let t := hashed_pubkey TagDerive s_a in
  let out_key := hashed TagOutKey (vec_to_list t) in
  out_key_scalar ← lift (scalar_of out_key);
  ko ← lift (ok_or Secp256k1 (pk_mul_tweak b out_key_scalar));
  ke ← lift (ok_or Secp256k1 (pk_mul_tweak b s_scalar));
  let raw_blind := hashed TagBlind (vec_to_list t) in
  switched ← lift (blind_switch raw_blind value);
  commitment ← lift (pedersen_commit value switched);
  let ks := from_secret_key sender_sk in
  let view_tag := hashed_pubkey TagTag s_a !!! 0%fin in
  let message := output_message ke view_tag value n t in
  let msg_ser := serialize_message message in
  range_proof ← bulletproof_prove value switched msg_ser;
  let sig_message := output_sig_message commitment ks ko msg_ser range_proof in
  signature ← lift (schnorr_sign sender_privkey sig_message);
  mret (raw_blind, sender_privkey, mkMwOutput commitment ks ko message range_proof signature).

Definition create_output (recipient : Address) (value : N) : Rand (Bytes32 * Bytes32 * MwOutput) :=
  sender_privkey ← random_secret;
  create_output_with_sender recipient value sender_privkey.

(** ** Inputs *)

Definition STEALTH_KEY_FEATURE_BIT : N := 1.

(** What an input signs. *)
Definition input_message (features : N) (output_id : Bytes32) : Bytes32 :=
  blake3_hash (features :: vec_to_list output_id).
Definition input_key_hash (input_pk output_pk : PublicKey) : Bytes32 :=
  blake3_hash (vec_to_list (pk_serialize input_pk) ++ vec_to_list (pk_serialize output_pk)).

Definition create_input (output_id : Bytes32) (commitment : Bytes33) (input_key output_key : Bytes32) :
    result Error MwInput :=
  input_sk ← ok_or Secp256k1 (sk_from_slice input_key);
  output_sk ← ok_or Secp256k1 (sk_from_slice output_key);
  let input_pk := from_secret_key input_sk in
  let output_pk := from_secret_key output_sk in
  let key_hash := input_key_hash input_pk output_pk in
  ko_term ← secret_mul output_key key_hash;
  sig_key ← secret_add input_key ko_term;
  let msg_hash := input_message STEALTH_KEY_FEATURE_BIT output_id in
  signature ← schnorr_sign sig_key msg_hash;
  Ok (mkMwInput STEALTH_KEY_FEATURE_BIT output_id commitment (Some input_pk) output_pk [] signature).

(** ** Kernels *)

Definition kernel_features (stealth_blind : option Bytes32) (fee pegin : option Z)
    (pegouts : list PegOutCoin) : N :=
  let features := 0 in
  let features := if fee is Some _ then N.lor features FeeFeatureBit else features in
  let features := if pegin is Some _ then N.lor features PeginFeatureBit else features in
  let features := if pegouts is [] then features else N.lor features PegoutFeatureBit in
  if stealth_blind is Some _ then N.lor features StealthExcessFeatureBit else features.

Definition varint_of (amount : option Z) : option (list N) :=
  match amount with None => Some [] | Some a => write_mweb_varint a end.

(** The bytes whose hash the kernel signs; a panic of the loop is [None]. *)
Definition kernel_message (features : N) (excess : Bytes33) (fee pegin : option Z)
    (pegouts : list PegOutCoin) (stealth_excess : option PublicKey) : option (list N) :=
  fee ← varint_of fee;
  pegin ← varint_of pegin;
  Some (features :: vec_to_list excess ++ fee ++ pegin ++
    (if pegouts is [] then [] else serialize_pegouts pegouts) ++
    (if stealth_excess is Some pk then vec_to_list (pk_serialize pk) else [])).

(** The key the kernel is signed with, and the public stealth excess. *)
Definition kernel_keys (blind : Bytes32) (stealth_blind : option Bytes32) (excess : Bytes33) :
    result Error (Bytes32 * option PublicKey) :=
  match stealth_blind with
  | None => Ok (blind, None)
  | Some sb =>
    sb_sk ← ok_or Secp256k1 (sk_from_slice sb);
    let stealth_pk := from_secret_key sb_sk in
    excess_pk ← commitment_to_pubkey excess;
    let h_hash := input_key_hash excess_pk stealth_pk in
    mul ← secret_mul blind h_hash;
    sig_key ← secret_add mul sb;
    Ok (sig_key, Some stealth_pk)
  end.

Definition create_kernel (blind : Bytes32) (stealth_blind : option Bytes32) (fee pegin : option Z)
    (pegouts : list PegOutCoin) : option (result Error Kernel) :=
  let features := kernel_features stealth_blind fee pegin pegouts in
  match excess ← pedersen_commit 0 blind;
        '(sig_key, stealth_excess) ← kernel_keys blind stealth_blind excess;
        Ok (excess, sig_key, stealth_excess) with
  | Err e => Some (Err e)
  | Ok (excess, sig_key, stealth_excess) =>
    msg ← kernel_message features excess fee pegin pegouts stealth_excess;
    let sig_message := blake3_hash msg in
    Some (signature ← schnorr_sign sig_key sig_message;
          Ok (mkKernel features fee pegin pegouts None stealth_excess [] excess signature))
  end.

(** ** Owned outputs *)

Definition shared_secret_and_spend_for_owned keys (index : N) (ke ko : PublicKey) :
    result Error (Bytes32 * Bytes32) :=
  scan_scalar ← scalar_of (secret_bytes (mk_scan keys));
  shared_point ← ok_or Secp256k1 (pk_mul_tweak ke scan_scalar);
  let t := hashed_pubkey TagDerive shared_point in
  let out_key := hashed TagOutKey (vec_to_list t) in
  out_key_scalar ← scalar_of out_key;
  b_i ← spend_key_at keys index;
  expected_ko ← ok_or Secp256k1 (pk_mul_tweak (from_secret_key b_i) out_key_scalar);
  if decide (expected_ko ≠ ko) then Err (Crypto "owned output Ko mismatch")
  else
    spend ← ok_or Secp256k1 (sk_mul_tweak b_i out_key_scalar);
    Ok (t, secret_bytes spend).

(** ** Assembling a body *)

(** The four vectors the loop over the recipients fills, and the owned coin. *)
Record Outs := mkOuts {
  os_outputs : list MwOutput;
  os_blinds : list Bytes32;
  os_keys : list Bytes32;
  os_change : option MwebCoin;
}.
Definition Outs_new : Outs := mkOuts [] [] [] None.

(** The coin of an output the wallet sends to itself. *)
Definition change_coin keys (index : N) (is_pegin : bool) (amount : N) (raw_blind : Bytes32)
    (output : MwOutput) : result Error MwebCoin :=
  fields ← ok_or (Crypto "missing standard fields") (om_standard_fields (o_message output));
  '(t, spend) ← shared_secret_and_spend_for_owned keys index (sf_key_exchange_pubkey fields)
                  (o_receiver_public_key output);
  Ok (mkMwebCoin (output_id output) (o_commitment output) amount index raw_blind t (Some spend)
        None is_pegin None).

Definition add_output keys (owned_output : option (nat * N)) (is_pegin : bool) (acc : Outs)
    (recipient : nat * (Address * N)) : Rand Outs :=
  let '(i, (addr, amount)) := recipient in
  '(raw_blind, sender_key, output) ← create_output addr amount;
  switched ← lift (blind_switch raw_blind amount);
  change ←
    match owned_output with
    | Some (pos, index) =>
      if (pos =? i)%nat
      then coin ← lift (change_coin keys index is_pegin amount raw_blind output); mret (Some coin)
      else mret (os_change acc)
    | None => mret (os_change acc)
    end;
  mret (mkOuts (os_outputs acc ++ [output]) (os_blinds acc ++ [switched])
          (os_keys acc ++ [sender_key]) change).

(** The vectors the loop over the input coins fills. *)
Record Ins := mkIns {
  is_inputs : list MwInput;
  is_blinds : list Bytes32;
  is_keys_pos : list Bytes32;
  is_keys_neg : list Bytes32;
  is_output_ids : list Bytes32;
}.
Definition Ins_new : Ins := mkIns [] [] [] [] [].

Definition add_coin (acc : Ins) coin : Rand Ins :=
  spend_key ← lift (ok_or MissingCoinSecrets (mc_spend_key coin));
  switched ← lift (blind_switch (mc_blind coin) (mc_amount coin));
  ephemeral ← random_secret;
  input ← lift (create_input (mc_output_id coin) (mc_commitment coin) ephemeral spend_key);
  mret (mkIns (is_inputs acc ++ [input]) (is_blinds acc ++ [switched])
          (is_keys_pos acc ++ [ephemeral]) (is_keys_neg acc ++ [spend_key])
          (is_output_ids acc ++ [mc_output_id coin])).

(** [outs - ins - kernel_offset], a missing side left out. *)
Definition kernel_blind_of (pos neg : list Bytes32) : result Error Bytes32 :=
  match pos with
  | [] => sum_neg ← blind_sum neg []; blind_sum [] [sum_neg]
  | _ => blind_sum pos neg
  end.
Definition stealth_offset_of (stealth_pos stealth_neg : list Bytes32) : result Error Bytes32 :=
  match stealth_pos with
  | [] => blind_sum [] stealth_neg
  | _ => blind_sum stealth_pos stealth_neg
  end.

Definition pegout_coin (p : list N * N) : result Error PegOutCoin :=
  amount ← money_to_i64 p.2; Ok (mkPegOutCoin amount p.1).

(** The orders of [sort_by_key]. *)
Definition input_le (a b : MwInput) : Prop := tle (K:=Bytes32) (in_output_id a) (in_output_id b).
Definition output_le (a b : MwOutput) : Prop := tle (K:=Bytes32) (output_id a) (output_id b).
#[local] Instance input_le_dec : RelDecision input_le.
Proof. intros a b. unfold input_le. apply _. Defined.
#[local] Instance output_le_dec : RelDecision output_le.
Proof. intros a b. unfold output_le. apply _. Defined.

Record AssembledBody := mkAssembledBody {
  ab_mw_tx : MwTransaction;
  ab_change : option MwebCoin;
  ab_spent_output_ids : list Bytes32;
}.

(** From the filled vectors on: blinds, the kernel and the offsets. *)
Definition finish_body (outs : Outs) (ins : Ins) (fee : N) (pegin : option Z)
    (pegouts : list (list N * N)) : Rand AssembledBody :=
  kernel_offset ← random_secret;
  kernel_blind ← lift (kernel_blind_of (os_blinds outs) (is_blinds ins ++ [kernel_offset]));
  stealth_blind ← random_secret;
  pegout_coins ← lift (try_map pegout_coin pegouts);
  fee ← lift (money_to_i64 fee);
  kernel ← (λ seeds, (λ r, (r, seeds)) <$>
             create_kernel kernel_blind (Some stealth_blind) (Some fee) pegin pegout_coins);
  stealth_offset ← lift (stealth_offset_of (os_keys outs ++ is_keys_pos ins)
                           (is_keys_neg ins ++ [stealth_blind]));
  let inputs := merge_sort input_le (is_inputs ins) in
  let outputs := merge_sort output_le (os_outputs outs) in
  mret (mkAssembledBody
    (mkMwTransaction kernel_offset stealth_offset (mkTxBody inputs outputs [kernel]))
    (os_change outs) (is_output_ids ins)).

Definition assemble_body (input_coins : list MwebCoin) (recipients : list (Address * N))
    (owned_output : option (nat * N)) keys (fee : N) (pegin : option Z)
    (pegouts : list (list N * N)) : Rand AssembledBody :=
  outs ← rand_foldl (add_output keys owned_output (bool_decide (is_Some pegin))) Outs_new
           (imap pair recipients);
  ins ← rand_foldl add_coin Ins_new input_coins;
  finish_body outs ins fee pegin pegouts.

(** ** The builder *)

Definition wrap_mweb_only (mw_tx : MwTransaction) : LtcTransaction :=
  mkLtcTransaction 2 0 [] [] (Some mw_tx) false.

Record FinishedMwebTx := mkFinishedMwebTx {
  fm_tx : LtcTransaction;
  fm_change : option MwebCoin;
  fm_spent_output_ids : list Bytes32;
  fm_spent_coins : list MwebCoin;
}.

Record MwebTxBuilder := mkMwebTxBuilder {
  b_inputs : list MwebCoin;
  b_recipients : list (Address * N);
  b_pegouts : list (list N * N);
  b_fee : N;
}.
Implicit Types b : MwebTxBuilder.

Definition builder_new : MwebTxBuilder := mkMwebTxBuilder [] [] [] 0.
Definition add_input b coin : MwebTxBuilder :=
  mkMwebTxBuilder (b_inputs b ++ [coin]) (b_recipients b) (b_pegouts b) (b_fee b).
Definition add_recipient b (addr : Address) (amount : N) : MwebTxBuilder :=
  mkMwebTxBuilder (b_inputs b) (b_recipients b ++ [(addr, amount)]) (b_pegouts b) (b_fee b).
Definition add_pegout b (script_pubkey : list N) (amount : N) : MwebTxBuilder :=
  mkMwebTxBuilder (b_inputs b) (b_recipients b) (b_pegouts b ++ [(script_pubkey, amount)]) (b_fee b).
Definition set_fee b (fee : N) : MwebTxBuilder :=
  mkMwebTxBuilder (b_inputs b) (b_recipients b) (b_pegouts b) fee.

(** What is left of the inputs after recipients, peg-outs and fee. *)
Definition change_amount_of (inputs : list MwebCoin) (recipients : list (Address * N))
    (pegouts : list (list N * N)) (fee : N) : result Error N :=
  input_total ← checked_amount_total (mc_amount <$> inputs);
  recipient_total ← checked_amount_total recipients.*2;
  pegout_total ← checked_amount_total pegouts.*2;
  needed ← checked_amount_total [recipient_total; pegout_total; fee];
  if input_total <? needed then Err InsufficientFunds else Ok (input_total - needed).

(** The recipients with the change, and the position of the change. *)
Definition with_change keys (change_index change_amount : N) (network : NetworkKind)
    (recipients : list (Address * N)) : result Error (list (Address * N) * option nat) :=
  if 0 <? change_amount then
    change_addr ← address keys change_index network;
    Ok (recipients ++ [(change_addr, change_amount)], Some (length recipients))
  else Ok (recipients, None).

Definition finish b keys (change_index : N) (network : NetworkKind) : Rand FinishedMwebTx :=
  change_amount ← lift (change_amount_of (b_inputs b) (b_recipients b) (b_pegouts b) (b_fee b));
  '(all_recipients, change_pos) ←
    lift (with_change keys change_index change_amount network (b_recipients b));
  assembled ← assemble_body (b_inputs b) all_recipients
    ((λ i, (i, change_index)) <$> change_pos) keys (b_fee b) None (b_pegouts b);
  mret (mkFinishedMwebTx (wrap_mweb_only (ab_mw_tx assembled)) (ab_change assembled)
          (ab_spent_output_ids assembled) (b_inputs b)).

(** ** Peg-ins *)

Record FinishedMwebPegin := mkFinishedMwebPegin {
  fp_mw_tx : MwTransaction;
  fp_kernel_id : Bytes32;
  fp_pegin_amount : N;
  fp_outputs : list MwebCoin;
}.

Definition build_pegin keys (receive_index pegin_amount fee : N) (network : NetworkKind) :
    Rand FinishedMwebPegin :=
  if pegin_amount <=? fee then lift (Err InsufficientFunds)
  else
    let receive_amount := pegin_amount - fee in
    addr ← lift (address keys receive_index network);
    pegin ← lift (money_to_i64 pegin_amount);
    assembled ← assemble_body [] [(addr, receive_amount)] (Some (0%nat, receive_index)) keys fee
      (Some pegin) [];
    kernel ← lift (ok_or (Crypto "peg-in missing kernel")
                     (head (tb_kernels (mw_body (ab_mw_tx assembled)))));
    mret (mkFinishedMwebPegin (ab_mw_tx assembled) (kernel_id kernel) pegin_amount
            (option_list (ab_change assembled))).
End build.
