(* ===== verification/MwebAnchor.v ===== *)
(** * Anchoring an MWEB header in the block chain

    Models [MwebHeaderMsg], [header_hash] and [verify_anchored] of
    [crates/mweb/src/p2p.rs].  The BIP37 merkle block and the serialization of
    headers belong to the [bitcoin] crate: they are the class [MerkleProofs].
    The theorem: whatever peers answer, the headers accepted for one block are
    one header. *)
From S2P Require Import Prelude Block Tx SpkIndex Mmr MwebWire MmrSound.

#[local] Open Scope N_scope.

Class MerkleProofs `{Scripts} := {
  MerkleBlock : Type;
  (** [merkle.header.block_hash()] *)
  header_block_hash : MerkleBlock → BlockHash;
  (** The two vectors that [extract_matches] fills. *)
  extract_matches : MerkleBlock → option (list Txid * list N);
  (** [merkle.txn.num_transactions()] *)
  num_transactions : MerkleBlock → N;
  (** [script.as_bytes()] *)
  script_bytes : Script → list N;
  serialize_mweb_header : MwebBlockHeader → list N;
}.

Record MwebHeaderMsg `{MerkleProofs} := mkMwebHeaderMsg {
  hm_merkle : MerkleBlock;
  hm_hogex : Transaction;
  hm_mweb_header : MwebBlockHeader;
}.

Definition HOGEX_COMMITMENT_OPCODE : N := 88.
Definition HOGEX_COMMITMENT_SPK_LEN : nat := 34.

(** [txids.iter().position(|t| *t == txid)] *)
Definition position (txid : Txid) (txids : list Txid) : option nat :=
  fst <$> list_find (λ t, t = txid) txids.

Section anchor.
Context `{Blake3, MerkleProofs}.

Definition header_hash (header : MwebBlockHeader) : Bytes32 :=
  blake3_hash (serialize_mweb_header header).

(** The checks from the first output of the HogEx on. *)
Definition check_commitment (msg : MwebHeaderMsg) : result Error unit :=
  match head (tx_output (hm_hogex msg)) with
  | None => Err (bad_proof "mwebheader anchor: HogEx has no outputs, so no header commitment")
  | Some out =>
    let spk := script_bytes (script_pubkey out) in
    if decide (length spk ≠ HOGEX_COMMITMENT_SPK_LEN ∨ spk !! 0%nat ≠ Some HOGEX_COMMITMENT_OPCODE ∨
               spk !! 1%nat ≠ Some 32) then
      Err (bad_proof "mwebheader anchor: HogEx vout[0] is not an MWEB header commitment script")
    else if decide (drop 2 spk ≠ vec_to_list (header_hash (hm_mweb_header msg))) then
      Err (bad_proof "mwebheader anchor: HogEx does not commit to this mweb_header")
    else Ok tt
  end.

(** Indexing [indexes] out of range is the panic; the sum is of [u32]. *)
Definition verify_anchored (msg : MwebHeaderMsg) (block_hash : BlockHash) :
    option (result Error unit) :=
  if decide (header_block_hash (hm_merkle msg) ≠ block_hash) then
    Some (Err (bad_proof "mwebheader anchor: merkle block is for {}, expected {block_hash}"))
  else
    match extract_matches (hm_merkle msg) with
    | None => Some (Err (bad_proof "mwebheader anchor: partial merkle tree invalid: {e:?}"))
    | Some (txids, indexes) =>
      match position (compute_txid (hm_hogex msg)) txids with
      | None => Some (Err (bad_proof "mwebheader anchor: HogEx is not proven to be in the block"))
      | Some slot =>
        index ← indexes !! slot;
        if decide ((index + 1) mod 2 ^ 32 ≠ num_transactions (hm_merkle msg)) then
          Some (Err (bad_proof "mwebheader anchor: HogEx is at index {} of {num_txs}, expected last"))
        else Some (check_commitment msg)
      end
    end.

(** ** What an accepted header shows *)

(** What the [bitcoin] crate documents of partial merkle trees, up to
    collisions of the block hash and of the tree's: the two vectors have one
    length, and a block hash determines the transaction that a proof shows at
    the last position.  And serialization is injective. *)
Class MerkleLaws : Prop := {
  extract_lengths : ∀ m txids indexes,
    extract_matches m = Some (txids, indexes) → length txids = length indexes;
  last_transaction : ∀ m m' txids indexes txids' indexes' i j t t' k k',
    header_block_hash m = header_block_hash m' →
    extract_matches m = Some (txids, indexes) → extract_matches m' = Some (txids', indexes') →
    txids !! i = Some t → indexes !! i = Some k → (k + 1) mod 2 ^ 32 = num_transactions m →
    txids' !! j = Some t' → indexes' !! j = Some k' → (k' + 1) mod 2 ^ 32 = num_transactions m' →
    t = t';
  serialize_mweb_header_inj : ∀ h h', serialize_mweb_header h = serialize_mweb_header h' → h = h';
}.

Lemma position_Some txid txids slot :
  position txid txids = Some slot → txids !! slot = Some txid.
Proof.
  unfold position. intros ([i t] & Hf & ->)%fmap_Some.
  by apply list_find_Some in Hf as (Hl & -> & _).
Qed.

(** The steps of an accepted message. *)
Lemma verify_anchored_Ok msg block_hash :
  verify_anchored msg block_hash = Some (Ok tt) →
  header_block_hash (hm_merkle msg) = block_hash ∧
  ∃ txids indexes slot index,
    extract_matches (hm_merkle msg) = Some (txids, indexes) ∧
    txids !! slot = Some (compute_txid (hm_hogex msg)) ∧
    indexes !! slot = Some index ∧ (index + 1) mod 2 ^ 32 = num_transactions (hm_merkle msg) ∧
    check_commitment msg = Ok tt.
Proof.
  unfold verify_anchored. case_decide as Hhash; [done|].
  destruct (extract_matches _) as [[txids indexes]|] eqn:Hex; [|done].
  destruct (position _ _) as [slot|] eqn:Hpos; [|done]. apply position_Some in Hpos.
  destruct (indexes !! slot) as [index|] eqn:Hidx; [|done]. cbn [mbind option_bind].
  case_decide as Hlast; [done|]. intros [= Hc].
  split; [done|]. exists txids, indexes, slot, index. done.
Qed.

Lemma check_commitment_Ok msg :
  check_commitment msg = Ok tt →
  ∃ out, head (tx_output (hm_hogex msg)) = Some out ∧
    script_bytes (script_pubkey out) =
      HOGEX_COMMITMENT_OPCODE :: 32 :: vec_to_list (header_hash (hm_mweb_header msg)).
Proof.
  unfold check_commitment. destruct (head _) as [out|]; [|done].
  case_decide as Hspk; [done|]. case_decide as Hhash; [done|].
  intros _. exists out. split; [done|].
  destruct (script_bytes _) as [|a [|b spk]]; [naive_solver..|]. cbn in Hhash.
  rewrite drop_0 in Hhash. rewrite Hhash. destruct (decide (a = HOGEX_COMMITMENT_OPCODE)) as [->|]; [|naive_solver].
  destruct (decide (b = 32)) as [->|]; [done|naive_solver].
Qed.

(** The message of an accepted header can only be wrong about BLAKE3. *)
Lemma verify_anchored_total `{!MerkleLaws} msg block_hash :
  is_Some (verify_anchored msg block_hash).
Proof.
  unfold verify_anchored. case_decide; [by eexists|].
  destruct (extract_matches _) as [[txids indexes]|] eqn:Hex; [|by eexists].
  destruct (position _ _) as [slot|] eqn:Hpos; [|by eexists]. apply position_Some in Hpos.
  apply extract_lengths in Hex. apply lookup_lt_Some in Hpos. rewrite Hex in Hpos.
  apply lookup_lt_is_Some in Hpos as [index ->]. cbn [mbind option_bind]. case_decide; by eexists.
Qed.

(** C17. The headers that two peers, or one peer twice, prove for the same
    block are the same header, unless BLAKE3 collides on the two. *)
Theorem verify_anchored_unique `{!BitcoinLaws, !MerkleLaws} msg msg' block_hash :
  collision_free [serialize_mweb_header (hm_mweb_header msg);
                  serialize_mweb_header (hm_mweb_header msg')] →
  verify_anchored msg block_hash = Some (Ok tt) →
  verify_anchored msg' block_hash = Some (Ok tt) →
  hm_mweb_header msg = hm_mweb_header msg'.
Proof.
  intros Hcf Hv Hv'.
  destruct (verify_anchored_Ok _ _ Hv) as (Hb & txids & idx & i & k & Hex & Ht & Hi & Hk & Hc).
  destruct (verify_anchored_Ok _ _ Hv') as (Hb' & txids' & idx' & j & k' & Hex' & Ht' & Hj & Hk' & Hc').
  assert (compute_txid (hm_hogex msg) = compute_txid (hm_hogex msg')) as Hid.
  { refine (last_transaction _ _ _ _ _ _ i j _ _ k k' _ Hex Hex' Ht Hi Hk Ht' Hj Hk'). congruence. }
  apply txid_commits_outputs in Hid.
  apply check_commitment_Ok in Hc as (out & Hout & Hspk).
  apply check_commitment_Ok in Hc' as (out' & Hout' & Hspk').
  rewrite Hid, Hout' in Hout. injection Hout as ->. rewrite Hspk' in Hspk.
  injection Hspk as Hhash. apply vec_to_list_inj2 in Hhash.
  apply serialize_mweb_header_inj. apply Hcf; [by left|by right; left|]. by symmetry.
Qed.
End anchor.
