(* ===== verification/MwebCodec.v ===== *)
(** * The wire format of the MWEB messages

    Models [Encodable] and [Decodable] of [crates/mweb/src/p2p.rs].  The
    encodings of integers, hashes and outputs belong to the [bitcoin] crate: the
    class [WireCodec].  A reader is the list of the bytes still to come, a
    decoder a computation over it ([Effects]); what a decoder reserves memory
    for is not observable. *)
From S2P Require Import Prelude Effects Block Tx SpkIndex Mmr MwebWire MwebAnchor.
#[local] Open Scope N_scope.

Definition MAX_UTXOS_PER_BATCH : N := 65535.
Definition MAX_PARENT_HASHES : N := 2 * MAX_UTXOS_PER_BATCH + 64.

(** [encode::Error]: of the reader, of a codec of the [bitcoin] crate, or of a
    message. *)
Inductive EncodeError := EncodeIo | EncodeOther | ParseFailed (msg : string).

Notation Decode A := (Eff (list N) EncodeError A).

(** Encoders and decoders of the [bitcoin] crate; a [VarInt] is its [u64]. *)
Class WireCodec `{Mimblewimble} := {
  enc_block_hash : BlockHash → list N; dec_block_hash : Decode BlockHash;
  enc_varint : N → list N; dec_varint : Decode N;
  enc_u16 : N → list N; dec_u16 : Decode N;
  enc_u8 : N → list N; dec_u8 : Decode N;
  enc_bytes32 : Bytes32 → list N; dec_bytes32 : Decode Bytes32;
  enc_output : Output → list N; dec_output : Decode Output;
}.

(** What decoding an encoding that is followed by anything yields. *)
Definition reads_back {A} (enc : A → list N) (dec : Decode A) (a : A) : Prop :=
  ∀ rest, dec (enc a ++ rest) = Some (Ok a, rest).

(** What is relied on: decoders come back on all input, and read back what was
    encoded; a number that fits its width. *)
Class WireCodecLaws `{WireCodec} : Prop := {
  block_hash_decodes : returns dec_block_hash;
  varint_decodes : returns dec_varint;
  u16_decodes : returns dec_u16;
  u8_decodes : returns dec_u8;
  bytes32_decodes : returns dec_bytes32;
  output_decodes : returns dec_output;
  block_hash_reads_back : ∀ h, reads_back enc_block_hash dec_block_hash h;
  varint_reads_back : ∀ n, n < 2 ^ 64 → reads_back enc_varint dec_varint n;
  u16_reads_back : ∀ n, n < 2 ^ 16 → reads_back enc_u16 dec_u16 n;
  u8_reads_back : ∀ n, n < 2 ^ 8 → reads_back enc_u8 dec_u8 n;
  bytes32_reads_back : ∀ b, reads_back enc_bytes32 dec_bytes32 b;
  output_reads_back : ∀ o, reads_back enc_output dec_output o;
}.

(** ** Messages *)

Section codec.
Context `{WireCodec}.

(** [for _ in 0..n { out.push(item(r)?) }] *)
Fixpoint decode_n {A} (n : nat) (item : Decode A) : Decode (list A) :=
  match n with
  | O => mret []
  | S n => a ← item; l ← decode_n n item; mret (a :: l)
  end.

(** [r.read_exact(&mut buffer)] *)
Definition read_exact (n : nat) : Decode (list N) := λ bytes,
  if (n <=? length bytes)%nat then Some (Ok (take n bytes), drop n bytes) else Some (Err EncodeIo, []).

Definition encode_GetMwebUtxos (m : GetMwebUtxos) : list N :=
  enc_block_hash (gu_block_hash m) ++ enc_varint (gu_start_index m) ++
  enc_u16 (gu_num_requested m) ++ enc_u8 (gu_output_format m).
Definition decode_GetMwebUtxos : Decode GetMwebUtxos :=
  block_hash ← dec_block_hash;
  start_index ← dec_varint;
  num_requested ← dec_u16;
  output_format ← dec_u8;
  mret (mkGetMwebUtxos block_hash start_index num_requested output_format).

Definition encode_entry (entry : MwebUtxoEntry) : list N :=
  enc_varint (ue_leaf_index entry) ++ enc_output (ue_output entry).
Definition encode_MwebUtxos (m : MwebUtxos) : list N :=
  enc_block_hash (mu_block_hash m) ++ enc_varint (mu_start_index m) ++ enc_u8 (mu_output_format m) ++
  enc_varint (N.of_nat (length (mu_utxos m))) ++ concat (encode_entry <$> mu_utxos m) ++
  enc_varint (N.of_nat (length (mu_parent_hashes m))) ++ concat (enc_bytes32 <$> mu_parent_hashes m).

Definition decode_entry : Decode MwebUtxoEntry :=
  leaf_index ← dec_varint;
  output ← dec_output;
  mret (mkMwebUtxoEntry _ leaf_index output).
Definition decode_MwebUtxos : Decode MwebUtxos :=
  block_hash ← dec_block_hash;
  start_index ← dec_varint;
  output_format ← dec_u8;
  if output_format =? OUTPUT_FORMAT_FULL then
    n ← dec_varint;
    if MAX_UTXOS_PER_BATCH <? n then fail (ParseFailed "mwebutxos utxo count exceeds MAX_UTXOS_PER_BATCH")
    else
      utxos ← decode_n (N.to_nat n) decode_entry;
      nh ← dec_varint;
      if MAX_PARENT_HASHES <? nh then fail (ParseFailed "mwebutxos parent_hashes count exceeds MAX_PARENT_HASHES")
      else
        parent_hashes ← decode_n (N.to_nat nh) dec_bytes32;
        mret (mkMwebUtxos _ block_hash start_index output_format utxos parent_hashes)
  else fail (ParseFailed "bdk_mweb only decodes FULL_UTXO (0x00) mwebutxos").

Definition encode_MwebLeafset (m : MwebLeafset) : list N :=
  enc_block_hash (ls_block_hash m) ++ enc_varint (N.of_nat (length (ls_leafset m))) ++ ls_leafset m.
Definition decode_MwebLeafset : Decode MwebLeafset :=
  block_hash ← dec_block_hash;
  size ← dec_varint;
  if MAX_LEAFSET_BYTES <? size then fail (ParseFailed "mwebleafset size exceeds MAX_LEAFSET_BYTES")
  else leafset ← read_exact (N.to_nat size); mret (mkMwebLeafset block_hash leafset).
End codec.

(** The message that ties a header to a block: a merkle block, a transaction and
    an MWEB header, types of the [bitcoin] crate. *)
Class HeaderCodec `{MerkleProofs} := {
  enc_merkle : MerkleBlock → list N; dec_merkle : Decode MerkleBlock;
  enc_transaction : Transaction → list N; dec_transaction : Decode Transaction;
  enc_mweb_header : MwebBlockHeader → list N; dec_mweb_header : Decode MwebBlockHeader;
}.
Definition encode_MwebHeaderMsg `{HeaderCodec} (m : MwebHeaderMsg) : list N :=
  enc_merkle (hm_merkle m) ++ enc_transaction (hm_hogex m) ++ enc_mweb_header (hm_mweb_header m).
Definition decode_MwebHeaderMsg `{HeaderCodec} : Decode MwebHeaderMsg :=
  merkle ← dec_merkle;
  hogex ← dec_transaction;
  mweb_header ← dec_mweb_header;
  mret (mkMwebHeaderMsg _ _ _ merkle hogex mweb_header).

(** ** Round trips *)

Section roundtrip.
Context `{WireCodecLaws}.

(** A step of decoding what was encoded. *)
Lemma decode_bind {A B} (enc : A → list N) (dec : Decode A) a (f : A → Decode B) rest :
  reads_back enc dec a → (dec ≫= f) (enc a ++ rest) = f a rest.
Proof. intros Hr. unfold mbind, eff_bind. by rewrite Hr. Qed.

Lemma decode_n_reads_back {A} (enc : A → list N) (dec : Decode A) l rest :
  Forall (reads_back enc dec) l → decode_n (length l) dec (concat (enc <$> l) ++ rest) = Some (Ok l, rest).
Proof.
  induction 1 as [|a l Ha Hl IH]; [done|]. cbn [length decode_n fmap list_fmap concat]. rewrite <-app_assoc.
  rewrite (decode_bind enc) by done. unfold mbind, eff_bind. by rewrite IH.
Qed.

Lemma returns_bind {A B} (m : Decode A) (f : A → Decode B) : returns m → (∀ a, returns (f a)) → returns (m ≫= f).
Proof.
  intros Hm Hf s. unfold mbind, eff_bind. destruct (Hm s) as [[[a|e] s'] Hrun]; rewrite Hrun; [apply Hf|by eexists].
Qed.
Lemma returns_mret {A} (a : A) : returns (mret a : Decode A).
Proof. intros s. by eexists. Qed.
Lemma returns_fail {A} e : returns (fail e : Decode A).
Proof. intros s. by eexists. Qed.
Lemma returns_decode_n {A} n (dec : Decode A) : returns dec → returns (decode_n n dec).
Proof.
  intros Hdec. induction n as [|n IH]; cbn [decode_n]; [apply returns_mret|].
  apply returns_bind; [done|intros a]. apply returns_bind; [done|intros l]. apply returns_mret.
Qed.
Lemma returns_read_exact n : returns (read_exact n).
Proof. intros s. unfold read_exact. destruct (_ <=? _)%nat; by eexists. Qed.

#[local] Hint Resolve block_hash_decodes varint_decodes u16_decodes u8_decodes bytes32_decodes output_decodes
  returns_mret returns_fail returns_decode_n returns_read_exact : decodes.

Ltac decodes := repeat first
  [ progress auto with decodes
  | apply returns_bind; [auto with decodes|intros ?]
  | match goal with |- returns (if ?b then _ else _) => destruct b end ].

Lemma length_decode_n {A} n (dec : Decode A) s l s' : decode_n n dec s = Some (Ok l, s') → length l = n.
Proof.
  revert s l s'. induction n as [|n IH]; intros s l s'; cbn [decode_n]; [by intros [= <- _]|].
  intros (a & s1 & _ & (l' & s2 & Hl & [= <- _])%eff_bind_Ok)%eff_bind_Ok. cbn. by rewrite (IH _ _ _ Hl).
Qed.

Lemma returns_decode_entry : returns decode_entry.
Proof. unfold decode_entry. decodes. Qed.
#[local] Hint Resolve returns_decode_entry : decodes.

(** The limits that a decoded message keeps, and an honest one has to. *)
Definition utxos_within (m : MwebUtxos) : Prop :=
  mu_output_format m = OUTPUT_FORMAT_FULL ∧ N.of_nat (length (mu_utxos m)) ≤ MAX_UTXOS_PER_BATCH ∧
  N.of_nat (length (mu_parent_hashes m)) ≤ MAX_PARENT_HASHES.
Definition leafset_within (m : MwebLeafset) : Prop := N.of_nat (length (ls_leafset m)) ≤ MAX_LEAFSET_BYTES.

Lemma decoded_utxos_within s m s' : decode_MwebUtxos s = Some (Ok m, s') → utxos_within m.
Proof.
  intros (h & s1 & _ & (i & s2 & _ & (f & s3 & _ & Hrun)%eff_bind_Ok)%eff_bind_Ok)%eff_bind_Ok.
  destruct (N.eqb_spec f OUTPUT_FORMAT_FULL) as [->|]; [|done].
  apply eff_bind_Ok in Hrun as (n & s4 & _ & Hrun). destruct (N.ltb_spec MAX_UTXOS_PER_BATCH n) as [|Hn]; [done|].
  apply eff_bind_Ok in Hrun as (utxos & s5 & Hu & Hrun). apply eff_bind_Ok in Hrun as (nh & s6 & _ & Hrun).
  destruct (N.ltb_spec MAX_PARENT_HASHES nh) as [|Hnh]; [done|]. apply eff_bind_Ok in Hrun as (ph & s7 & Hp & [= <- _]).
  apply length_decode_n in Hu, Hp. unfold utxos_within. cbn. rewrite Hu, Hp. split; [done|]. lia.
Qed.

Lemma decoded_leafset_within s m s' : decode_MwebLeafset s = Some (Ok m, s') → leafset_within m.
Proof.
  intros (h & s1 & _ & (n & s2 & _ & Hrun)%eff_bind_Ok)%eff_bind_Ok.
  destruct (N.ltb_spec MAX_LEAFSET_BYTES n) as [|Hn]; [done|].
  apply eff_bind_Ok in Hrun as (l & s3 & Hl & [= <- _]). unfold read_exact in Hl.
  destruct (Nat.leb_spec (N.to_nat n) (length s2)); [|done]. injection Hl as <- _.
  unfold leafset_within. cbn. rewrite length_take. lia.
Qed.

(** C35. The messages round trip: whatever follows it, a request, a leafset or a
    batch of outputs that is within the limits decodes to itself.  Decoding
    untrusted bytes always comes back, and what it yields is within the limits,
    so a longer message of a peer, or one in another format, is refused. *)
Theorem messages_roundtrip :
  (∀ m rest, gu_start_index m < 2 ^ 64 → gu_num_requested m < 2 ^ 16 → gu_output_format m < 2 ^ 8 →
    decode_GetMwebUtxos (encode_GetMwebUtxos m ++ rest) = Some (Ok m, rest)) ∧
  (∀ m rest, mu_start_index m < 2 ^ 64 → Forall (λ e, ue_leaf_index e < 2 ^ 64) (mu_utxos m) → utxos_within m →
    decode_MwebUtxos (encode_MwebUtxos m ++ rest) = Some (Ok m, rest)) ∧
  (∀ m rest, leafset_within m → decode_MwebLeafset (encode_MwebLeafset m ++ rest) = Some (Ok m, rest)) ∧
  (∀ bytes, is_Some (decode_GetMwebUtxos bytes) ∧
    (∃ r rest, decode_MwebUtxos bytes = Some (r, rest) ∧ ∀ m, r = Ok m → utxos_within m) ∧
    (∃ r rest, decode_MwebLeafset bytes = Some (r, rest) ∧ ∀ m, r = Ok m → leafset_within m)).
Proof.
  split_and!.
  - intros m rest Hi Hn Hf. unfold decode_GetMwebUtxos, encode_GetMwebUtxos. rewrite <-!app_assoc.
    rewrite (decode_bind enc_block_hash) by apply block_hash_reads_back.
    rewrite (decode_bind enc_varint) by by apply varint_reads_back.
    rewrite (decode_bind enc_u16) by by apply u16_reads_back.
    rewrite (decode_bind enc_u8) by by apply u8_reads_back. by destruct m.
  - intros m rest Hi Hleaf (Hf & Hu & Hp). unfold decode_MwebUtxos, encode_MwebUtxos. rewrite <-!app_assoc.
    rewrite (decode_bind enc_block_hash) by apply block_hash_reads_back.
    rewrite (decode_bind enc_varint) by by apply varint_reads_back.
    rewrite (decode_bind enc_u8) by (apply u8_reads_back; by rewrite Hf).
    rewrite Hf, N.eqb_refl. unfold MAX_PARENT_HASHES, MAX_UTXOS_PER_BATCH in *.
    rewrite (decode_bind enc_varint) by (apply varint_reads_back; lia).
    rewrite (proj2 (N.ltb_ge _ _) Hu), Nat2N.id. unfold mbind at 1, eff_bind at 1.
    rewrite (decode_n_reads_back encode_entry).
    2:{ eapply Forall_impl; [exact Hleaf|]. intros [i o] Hlt rest'. unfold decode_entry, encode_entry. rewrite <-app_assoc.
        rewrite (decode_bind enc_varint) by by apply varint_reads_back.
        by rewrite (decode_bind enc_output) by apply output_reads_back. }
    rewrite (decode_bind enc_varint) by (apply varint_reads_back; lia).
    rewrite (proj2 (N.ltb_ge _ _) Hp), Nat2N.id. unfold mbind, eff_bind.
    rewrite (decode_n_reads_back enc_bytes32) by (apply Forall_forall; intros; apply bytes32_reads_back).
    destruct m. cbn in *. by rewrite Hf.
  - intros m rest Hw. unfold decode_MwebLeafset, encode_MwebLeafset. rewrite <-!app_assoc.
    rewrite (decode_bind enc_block_hash) by apply block_hash_reads_back. unfold leafset_within, MAX_LEAFSET_BYTES in *.
    rewrite (decode_bind enc_varint) by (apply varint_reads_back; lia).
    rewrite (proj2 (N.ltb_ge _ _) Hw), Nat2N.id. unfold mbind, eff_bind, read_exact.
    rewrite (proj2 (Nat.leb_le _ _)) by (rewrite length_app; lia). rewrite take_app_length, drop_app_length. by destruct m.
  - intros bytes. split_and!.
    + enough (returns decode_GetMwebUtxos) as Hr by apply Hr. unfold decode_GetMwebUtxos. decodes.
    + enough (returns decode_MwebUtxos) as Hr.
      { destruct (Hr bytes) as [[r rest] Hrun]. exists r, rest. split; [done|]. intros m ->. by eapply decoded_utxos_within. }
      unfold decode_MwebUtxos. decodes.
    + enough (returns decode_MwebLeafset) as Hr.
      { destruct (Hr bytes) as [[r rest] Hrun]. exists r, rest. split; [done|]. intros m ->. by eapply decoded_leafset_within. }
      unfold decode_MwebLeafset. decodes.
Qed.
End roundtrip.

Lemma header_msg_roundtrip `{HeaderCodec} m rest :
  reads_back enc_merkle dec_merkle (hm_merkle m) → reads_back enc_transaction dec_transaction (hm_hogex m) →
  reads_back enc_mweb_header dec_mweb_header (hm_mweb_header m) →
  decode_MwebHeaderMsg (encode_MwebHeaderMsg m ++ rest) = Some (Ok m, rest).
Proof.
  intros Hm Ht Hh. unfold decode_MwebHeaderMsg, encode_MwebHeaderMsg. rewrite <-!app_assoc.
  rewrite (decode_bind enc_merkle), (decode_bind enc_transaction), (decode_bind enc_mweb_header) by done. by destruct m.
Qed.

(** ** A toy encoding

    A hash, a number and an output are one entry each, 32 bytes are 32. *)
#[local] Instance toy_outputs : Mimblewimble := {
  Output := N; commitment o := [o]; ser_sender_public_key _ := []; ser_receiver_public_key _ := [];
  ser_message _ := []; range_proof _ := []; signature _ := [];
}.

Definition read_one : Decode N := λ bytes,
  match bytes with b :: bytes => Some (Ok b, bytes) | [] => Some (Err EncodeIo, []) end.
Fixpoint read_vec (n : nat) : Decode (vec N n) :=
  match n with
  | O => mret (M:=Eff (list N) EncodeError) vnil
  | S n => a ← read_one; v ← read_vec n; mret (vcons a v)
  end.

#[local] Instance toy_codec : WireCodec := {
  enc_block_hash h := [h]; dec_block_hash := read_one;
  enc_varint n := [n]; dec_varint := read_one;
  enc_u16 n := [n]; dec_u16 := read_one;
  enc_u8 n := [n]; dec_u8 := read_one;
  enc_bytes32 b := vec_to_list b; dec_bytes32 := read_vec 32;
  enc_output o := [o]; dec_output := read_one;
}.

Lemma read_one_returns : returns read_one.
Proof. intros [|b s]; by eexists. Qed.

#[local] Instance toy_codec_laws : WireCodecLaws.
Proof.
  split; try apply read_one_returns; try done.
  - enough (∀ n, returns (read_vec n)) as Hr by apply Hr. intros n. induction n as [|n IH]; [by eexists|].
    cbn [read_vec]. apply returns_bind; [apply read_one_returns|intros a]. apply returns_bind; [apply IH|by eexists].
  - enough (∀ n (v : vec N n), reads_back vec_to_list (read_vec n) v) as Hr by apply Hr.
    intros n v rest. induction v as [|a n v IH]; [done|]. cbn [read_vec vec_to_list]. unfold mbind, eff_bind. cbn. by rewrite IH.
Qed.

Lemma messages_roundtrip_witness :
  let m := mkMwebUtxos _ 5 2 OUTPUT_FORMAT_FULL [mkMwebUtxoEntry _ 2 (12 : Output)] [zero32] in
  decode_MwebUtxos (encode_MwebUtxos m ++ [9]) = Some (Ok m, [9]).
Proof.
  intros m. destruct messages_roundtrip as (_ & Hm & _). apply Hm.
  - done.
  - by repeat constructor.
  - by repeat split.
Defined.
