(* ===== verification/MwebSync.v ===== *)
(** * Downloading the unspent outputs of a block

    Models [crates/mweb/src/lip0006.rs]: verification modes, the trait of
    peers, the one-shot synchronisation of the coin database and the scripted
    peer.  A peer is a state machine that answers requests; whatever it
    answers, also a lie, is some instance of [MwebUtxoSource]. *)
From S2P Require Import Prelude Effects Block Tx SpkIndex Mmr MwebWire MmrVerify MwebCoins MwebKeys MwebTx MwebScan MwebAnchor.

#[local] Open Scope N_scope.

(** ** Verification modes *)

Inductive VerifyMode := Trusted | HeaderAndPmmr | Anchored.

#[export] Instance VerifyMode_eq_dec : EqDecision VerifyMode.
Proof. solve_decision. Defined.

(** A [str] is its code points. *)
Definition codes (s : string) : list N := Ascii.N_of_ascii <$> String.list_ascii_of_string s.

(** Unicode [White_Space]. *)
Definition is_whitespace (c : N) : bool :=
  ((9 <=? c) && (c <=? 13)) || (c =? 32) || (c =? 133) || (c =? 160) || (c =? 5760) ||
  ((8192 <=? c) && (c <=? 8202)) || (c =? 8232) || (c =? 8233) || (c =? 8239) || (c =? 8287) ||
  (c =? 12288).
Fixpoint trim_start (s : list N) : list N :=
  match s with
  | [] => []
  | c :: rest => if is_whitespace c then trim_start rest else s
  end.
Definition trim (s : list N) : list N := reverse (trim_start (reverse (trim_start s))).
Definition to_ascii_lowercase (s : list N) : list N :=
  (λ c, if (65 <=? c) && (c <=? 90) then c + 32 else c) <$> s.

(** The value of the environment variable, if it is set. *)
Definition parse_verify_mode (raw : option (list N)) : VerifyMode :=
  match raw with
  | None => Anchored
  | Some raw =>
    let name := to_ascii_lowercase (trim raw) in
    if decide (name = codes "anchored") then Anchored
    else if decide (name = codes "header-and-pmmr" ∨ name = codes "headerandpmmr" ∨
                    name = codes "header_and_pmmr") then HeaderAndPmmr
    else Anchored
  end.

Definition needs_header (verify : VerifyMode) : bool :=
  match verify with HeaderAndPmmr | Anchored => true | Trusted => false end.
Definition is_anchored (verify : VerifyMode) : bool :=
  match verify with Anchored => true | _ => false end.

(** ** Peers *)

Definition DEFAULT_UTXO_BATCH : N := MAX_REQUESTED_MWEB_UTXOS.

(** The callback of the pipelined download works on a state of its caller's
    choice. *)
Class MwebUtxoSource `{Mimblewimble, MerkleProofs} (Src : Type) := {
  get_header : BlockHash → Eff Src Error MwebHeaderMsg;
  get_leafset : BlockHash → Eff Src Error MwebLeafset;
  get_utxos : GetMwebUtxos → Eff Src Error MwebUtxos;
  get_utxos_pipelined : ∀ {C : Type}, list GetMwebUtxos → (MwebUtxos → Eff C Error unit) →
    Eff (Src * C) Error unit;
}.

(** The default implementation, one request after the other. *)
Definition pipelined_default `{Mimblewimble} {Src C} (get_utxos : GetMwebUtxos → Eff Src Error MwebUtxos)
    (reqs : list GetMwebUtxos) (on_batch : MwebUtxos → Eff C Error unit) : Eff (Src * C) Error unit :=
  for_each (λ req, batch ← on_fst (get_utxos req); on_snd (on_batch batch)) reqs.

(** What a peer may send. *)
Inductive Message `{Mimblewimble, MerkleProofs} :=
| MsgHeader (msg : MwebHeaderMsg)
| MsgLeafset (leafset : MwebLeafset)
| MsgUtxos (batch : MwebUtxos).

(** What the trait promises: calls come back, [delivers] covers the messages
    that may arrive, and the caller's state is only touched by handing batches to
    the callback. *)
Class MwebUtxoSourceLaws (Src : Type) `{Mimblewimble, MerkleProofs, !MwebUtxoSource Src}
    (delivers : Message → Prop) : Prop := {
  get_header_total : ∀ b, returns (get_header b : Eff Src Error MwebHeaderMsg);
  get_leafset_total : ∀ b, returns (get_leafset b : Eff Src Error MwebLeafset);
  get_utxos_total : ∀ r, returns (get_utxos r : Eff Src Error MwebUtxos);
  get_header_delivers : ∀ b (s s' : Src) msg, get_header b s = Some (Ok msg, s') → delivers (MsgHeader msg);
  get_leafset_delivers : ∀ b (s s' : Src) leafset,
    get_leafset b s = Some (Ok leafset, s') → delivers (MsgLeafset leafset);
  get_utxos_delivers : ∀ r (s s' : Src) batch, get_utxos r s = Some (Ok batch, s') → delivers (MsgUtxos batch);
  pipelined_invariant : ∀ C reqs (on_batch : MwebUtxos → Eff C Error unit) (I : C → Prop),
    (∀ batch c, delivers (MsgUtxos batch) → I c → wp (on_batch batch) c (λ _, I)) →
    ∀ (s : Src) c, I c → wp (get_utxos_pipelined reqs on_batch) (s, c) (λ _ sc, I sc.2);
}.

(** ** One-shot synchronisation *)

Record SyncResult := mkSyncResult {
  sr_found : list MwebCoin;
  sr_spent : list Bytes32;
  sr_downloaded : N;
  sr_mweb_header : option MwebBlockHeader;
}.

Definition MAX_BUFFERED_ENTRIES : N := 2000000.

Definition saturating_add_usize (a b : N) : N := N.min (a + b) U64_MAX.

(** How many elements from the front satisfy a test: the loops
    [while i < v.len() && p(v[i]) { i += 1 }]. *)
Fixpoint count_while {A} (p : A → bool) (l : list A) : nat :=
  match l with
  | [] => 0
  | a :: l => if p a then S (count_while p l) else 0
  end.
Definition skip_to (indices : list N) (i : nat) (last_leaf : N) : nat :=
  i + count_while (λ x, x <=? last_leaf) (drop i indices).

Section sync.
Context `{Blake3, Wallet, !Zkp, !MwSerialize, MerkleProofs}.
Context {Src : Type} `{!MwebUtxoSource Src}.
Implicit Types (keys : MasterKeys) (book : AddressBook) (db : MwebCoinDatabase) (batch : MwebUtxos).

Definition check_batch_advances batch (start_index : N) : result Error unit :=
  match mu_utxos batch with
  | [] => Ok tt
  | first :: _ =>
    if ue_leaf_index first <? start_index then
      Err (protocol "peer protocol violation: mwebutxos leaf {} precedes requested start_index {start_index}")
    else Ok tt
  end.

Definition verify_parent_hashes_present (msg : MwebUtxos) : result Error unit :=
  if negb (bool_decide (mu_utxos msg = [])) && bool_decide (mu_parent_hashes msg = []) then
    Err (protocol "mwebutxos missing parent_hashes (use VerifyMode::Trusted only with care)")
  else Ok tt.

(** The checks a batch undergoes, by mode: with a header against its roots. *)
Definition verify_batch (mweb_header : option MwebBlockHeader) (leafset : MwebLeafset) batch :
    option (result Error unit) :=
  match mweb_header with
  | Some hdr => verify_utxo_batch batch leafset hdr
  | None => Some (verify_parent_hashes_present batch)
  end.

(** The header, if the mode needs one, anchored if it says so. *)
Definition fetch_header (verify : VerifyMode) (block_hash : BlockHash) :
    Eff Src Error (option MwebBlockHeader) :=
  if needs_header verify then
    msg ← get_header block_hash;
    _ ← (if is_anchored verify then lift_panic (verify_anchored msg block_hash) else mret tt);
    mret (Some (hm_mweb_header msg))
  else mret None.

Definition fetch_leafset (block_hash : BlockHash) (mweb_header : option MwebBlockHeader) :
    Eff Src Error MwebLeafset :=
  leafset ← get_leafset block_hash;
  if decide (ls_block_hash leafset ≠ block_hash) then fail (protocol "leafset block_hash mismatch")
  else
    match mweb_header with
    | Some hdr =>
      _ ← lift (verify_leafset_at leafset block_hash (mh_leafset_root hdr) (mh_output_mmr_size hdr));
      mret leafset
    | None => mret leafset
    end.

(** What the download loop accumulates. *)
Record Buffer := mkBuffer {
  bu_ids : gset Bytes32;
  bu_entries : list (N * MwOutput);
  bu_downloaded : N;
}.
Definition buffer_empty : Buffer := mkBuffer ∅ [] 0.

Definition entry_pair (entry : MwebUtxoEntry) : N * MwOutput := (ue_leaf_index entry, ue_output entry).
Definition last_leaf_of batch (start : N) : N :=
  match last (mu_utxos batch) with Some e => ue_leaf_index e | None => start end.

Definition buffer_batch (buf : Buffer) batch : Buffer :=
  mkBuffer (foldl (λ ids e, {[output_id (ue_output e)]} ∪ ids) (bu_ids buf) (mu_utxos batch))
    (bu_entries buf ++ (entry_pair <$> mu_utxos batch)) (bu_downloaded buf).

(** One turn: the request for leaf [start], and the checks on its answer. *)
Definition fetch_batch (block_hash : BlockHash) (batch_size : N)
    (mweb_header : option MwebBlockHeader) (leafset : MwebLeafset) (start : N) :
    Eff Src Error MwebUtxos :=
  batch ← get_utxos (mkGetMwebUtxos block_hash start batch_size OUTPUT_FORMAT_FULL);
  if decide (mu_output_format batch ≠ OUTPUT_FORMAT_FULL) then
    fail (protocol "expected FULL_UTXO format")
  else
    _ ← lift_panic (verify_batch mweb_header leafset batch);
    mret batch.

(** The loop [while i < indices.len()], a turn per unit of fuel. *)
Fixpoint download (fuel : nat) (block_hash : BlockHash) (batch_size : N)
    (mweb_header : option MwebBlockHeader) (leafset : MwebLeafset) (indices : list N) (i : nat)
    (buf : Buffer) : Eff Src Error Buffer :=
  match indices !! i with
  | None => mret buf
  | Some start =>
    match fuel with
    | O => hang
    | S fuel =>
      batch ← fetch_batch block_hash batch_size mweb_header leafset start;
      if decide (mu_utxos batch = []) then mret buf
      else
        _ ← lift (check_batch_advances batch start);
        let buf := buffer_batch buf batch in
        if MAX_BUFFERED_ENTRIES <? N.of_nat (length (bu_entries buf)) then
          fail (protocol "mwebutxos: buffered more than {MAX_BUFFERED_ENTRIES} outputs in one sync")
        else
          let buf := mkBuffer (bu_ids buf) (bu_entries buf)
            (saturating_add_usize (bu_downloaded buf) (N.of_nat (length (mu_utxos batch)))) in
          let next := skip_to indices i (last_leaf_of batch start) in
          if decide (next = i) then
            fail (protocol "peer protocol violation: mwebutxos batch did not advance the leaf cursor")
          else download fuel block_hash batch_size mweb_header leafset indices next buf
    end
  end.

(** Coins of ours that were not downloaded. *)
Definition mark_absent (ids : gset Bytes32) (acc : MwebCoinDatabase * list Bytes32) (id : Bytes32) :
    MwebCoinDatabase * list Bytes32 :=
  if decide (id ∈ ids) then acc
  else
    let '(db, marked) := mark_spent acc.1 id in
    (db, if marked then acc.2 ++ [id] else acc.2).

(** What follows the download: the scan, and coins that were not in it. *)
Definition finish_sync keys book (tip_height : option N) (mweb_header : option MwebBlockHeader)
    (buf : Buffer) : Eff MwebCoinDatabase Error SyncResult :=
  found ← state_fn (λ db, scan_utxo_entries_at keys book (bu_entries buf) db (λ _, tip_height));
  db ← get;
  let '(db, spent) := foldl (mark_absent (bu_ids buf)) (db, []) (mc_output_id <$> unspent db) in
  _ ← modify (λ _, db);
  mret (mkSyncResult found spent (bu_downloaded buf) mweb_header).

Definition sync_mweb_utxos keys book (block_hash : BlockHash) (tip_height : option N)
    (batch_size : N) (verify : VerifyMode) : Eff (Src * MwebCoinDatabase) Error SyncResult :=
  mweb_header ← on_fst (fetch_header verify block_hash);
  leafset ← on_fst (fetch_leafset block_hash mweb_header);
  let indices := unspent_leaf_indices leafset in
  buf ← on_fst (download (length indices) block_hash batch_size mweb_header leafset indices 0
    buffer_empty);
  on_snd (finish_sync keys book tip_height mweb_header buf).

Definition sync_mweb_at_tip keys book (tip_hash : BlockHash) (tip_height : N) (verify : VerifyMode) :
    Eff (Src * MwebCoinDatabase) Error SyncResult :=
  sync_mweb_utxos keys book tip_hash (Some tip_height) DEFAULT_UTXO_BATCH verify.
End sync.

(** ** The scripted peer *)

Section scripted.
Context `{Mimblewimble, MerkleProofs}.

Record ScriptedMwebSource := mkScripted {
  sc_header : MwebHeaderMsg;
  sc_leafset : MwebLeafset;
  sc_utxos : list (N * Output);
  sc_parent_hashes : list Bytes32;
}.

(** One turn of the loop of [get_utxos]. *)
Definition serve_entry (req : GetMwebUtxos) (entries : list MwebUtxoEntry) (u : N * Output) :
    list MwebUtxoEntry :=
  if (gu_start_index req <=? u.1) && (N.of_nat (length entries) <? gu_num_requested req)
  then entries ++ [mkMwebUtxoEntry _ u.1 u.2] else entries.

Definition scripted_get_utxos (req : GetMwebUtxos) : Eff ScriptedMwebSource Error MwebUtxos := λ self,
  Some (Ok (mkMwebUtxos _ (gu_block_hash req) (gu_start_index req) OUTPUT_FORMAT_FULL
    (foldl (serve_entry req) [] (sc_utxos self)) (sc_parent_hashes self)), self).

#[export] Instance scripted_source : MwebUtxoSource ScriptedMwebSource := {
  get_header block_hash self :=
    if decide (ls_block_hash (sc_leafset self) = block_hash) then Some (Ok (sc_header self), self)
    else Some (Err (Crypto "scripted header hash mismatch"), self);
  get_leafset block_hash self :=
    if decide (ls_block_hash (sc_leafset self) = block_hash) then Some (Ok (sc_leafset self), self)
    else Some (Err (Crypto "scripted leafset hash mismatch"), self);
  get_utxos := scripted_get_utxos;
  get_utxos_pipelined C := pipelined_default scripted_get_utxos;
}.
End scripted.
