(* ===== verification/SecpLaws.v ===== *)
(** * What the curve libraries promise

    The documented behaviour of [secp256k1] and [grin_secp256k1zkp] that the
    code of [crates/mweb] relies on: keys are the nonzero residues of the prime
    order of the group, a public key stands for the multiple of the generator
    its secret is, commitments are [v·H + r·G].  A point is identified with its
    discrete logarithm, which exists but cannot be computed.  The lemmas turn
    the fallible byte operations into arithmetic of residues. *)
From Stdlib Require Import Znumtheory.
From S2P Require Import Prelude Mmr Block MwebWire MwebCoins MwebKeys MwebTx.

#[local] Open Scope N_scope.

(** The value of big-endian bytes. *)
Definition be_value (b : Bytes32) : N := foldl (λ acc x, acc * 256 + x) 0 (vec_to_list b).

Class SecpLaws `{Secp} := {
  order : N;
  order_prime : prime (Z.of_N order);
  pk_val : PublicKey → N;
  scalar_val : Scalar → N;
  pk_val_range P : 0 < pk_val P < order;
  pk_val_inj P Q : pk_val P = pk_val Q → P = Q;
  pk_from_serialize P : pk_from_slice (pk_serialize P) = Some P;
  secret_range s : 0 < be_value (secret_bytes s) < order;
  secret_val_inj s k : be_value (secret_bytes s) = be_value (secret_bytes k) → s = k;
  sk_from_secret s : sk_from_slice (secret_bytes s) = Some s;
  sk_from_bytes b s : sk_from_slice b = Some s → secret_bytes s = b;
  sk_from_valid b : 0 < be_value b < order → is_Some (sk_from_slice b);
  scalar_from_val b t : scalar_from_be_bytes b = Some t → scalar_val t = be_value b ∧ be_value b < order;
  scalar_from_valid b : be_value b < order → is_Some (scalar_from_be_bytes b);
  from_secret_key_val s : pk_val (from_secret_key s) = be_value (secret_bytes s);
  pk_mul_val P t Q : pk_mul_tweak P t = Some Q → pk_val Q = (pk_val P * scalar_val t) mod order;
  pk_mul_valid P t : (pk_val P * scalar_val t) mod order ≠ 0 → is_Some (pk_mul_tweak P t);
  sk_add_val s t r : sk_add_tweak s t = Some r →
    be_value (secret_bytes r) = (be_value (secret_bytes s) + scalar_val t) mod order;
  sk_mul_val s t r : sk_mul_tweak s t = Some r →
    be_value (secret_bytes r) = (be_value (secret_bytes s) * scalar_val t) mod order;
  sk_mul_valid s t : (be_value (secret_bytes s) * scalar_val t) mod order ≠ 0 →
    is_Some (sk_mul_tweak s t);
}.

(** The sum of some keys. *)
Definition sum_values (l : list Bytes32) : N := foldr (λ b acc, be_value b + acc) 0 l.

Class ZkpLaws `{SecpLaws, Zkp} := {
  commit_val : Bytes33 → N;
  value_generator : N;
  grin_sk_valid_spec b : grin_sk_valid b = true ↔ 0 < be_value b < order;
  zkp_commit_val v r c : zkp_commit v r = Some c →
    commit_val c = (v * value_generator + be_value r) mod order;
  zkp_inv_valid b : 0 < be_value b < order → is_Some (zkp_inv b);
  zkp_inv_val b i : zkp_inv b = Some i → (be_value b * be_value i) mod order = 1 ∧ be_value i < order;
  zkp_blind_sum_val pos neg s : zkp_blind_sum pos neg = Some s →
    (be_value s + sum_values neg) mod order = sum_values pos mod order ∧ be_value s < order;
  zkp_to_pubkey_val c b P : zkp_to_pubkey c = Some b → pk_from_slice b = Some P → pk_val P = commit_val c;
  grin_pk_valid_pk P : grin_pk_valid (pk_serialize P) = true;
  schnorr_correct secret msg opaque sig P :
    schnorrsig_sign msg secret = Some opaque → schnorrsig_serialize opaque = Some sig →
    pk_val P = be_value secret → aggsig_verify_single sig msg (pk_serialize P) = true;
  bullet_proof_correct v blind rewind private extra c :
    zkp_commit v blind = Some c →
    zkp_verify_bullet_proof c (zkp_bullet_proof v blind rewind private extra) extra = true;
}.

Class WalletLaws `{Wallet} := {
  address_mweb_data a b net :
    to_address_data (address_mweb a b net) = MwebAddress (pk_serialize a) (pk_serialize b);
}.

(** "OutputFeatures::StandardFieldsFeatureBit = 0x01". *)
Class MwLaws `{MwSerialize} := {
  standard_fields_bit : StandardFieldsFeatureBit = 1;
}.

(** ** Residues *)

Section residues.
Context `{SecpLaws}.

(** Equality of residues. *)
Definition eqm (a b : N) : Prop := a mod order = b mod order.

Lemma order_gt1 : 1 < order.
Proof. pose proof (prime_ge_2 _ order_prime). lia. Qed.

#[export] Instance eqm_equiv : Equivalence eqm.
Proof. split; unfold eqm; repeat intro; congruence. Qed.

#[export] Instance eqm_add : Proper (eqm ==> eqm ==> eqm) N.add.
Proof.
  intros a a' Ha b b' Hb. unfold eqm in *.
  by rewrite (N.Div0.add_mod a b), (N.Div0.add_mod a' b'), Ha, Hb.
Qed.

#[export] Instance eqm_mul : Proper (eqm ==> eqm ==> eqm) N.mul.
Proof.
  intros a a' Ha b b' Hb. unfold eqm in *.
  by rewrite (N.Div0.mul_mod a b), (N.Div0.mul_mod a' b'), Ha, Hb.
Qed.

Lemma eqm_mod a : eqm (a mod order) a.
Proof. apply N.Div0.mod_mod. Qed.

Lemma eqm_add_cancel_l a b c : eqm (a + b) (a + c) → eqm b c.
Proof.
  unfold eqm. intros Heq. pose proof order_gt1.
  assert (eqm ((order - a mod order) + (a + b)) ((order - a mod order) + (a + c))) as Hs
    by (apply eqm_add; [done|exact Heq]).
  assert (∀ x, eqm ((order - a mod order) + (a + x)) x) as Hx.
  { intros x. unfold eqm. pose proof (N.mod_lt a order). pose proof (N.div_mod a order).
    replace (order - a mod order + (a + x)) with (x + (1 + a / order) * order) by nia.
    apply N.Div0.mod_add. }
  unfold eqm in *. rewrite <-Hx, <-(Hx c). exact Hs.
Qed.

Lemma eqm_small a b : eqm a b → a < order → b < order → a = b.
Proof. unfold eqm. intros Heq Ha Hb. by rewrite !N.mod_small in Heq. Qed.

Lemma eqm_0 a : eqm a 0 → a < order → a = 0.
Proof. intros Ha ?. apply (eqm_small a 0); [done..|]. pose proof order_gt1. lia. Qed.

Lemma eqm_mul_0 a b : eqm (a * b) 0 → eqm a 0 ∨ eqm b 0.
Proof.
  unfold eqm. pose proof order_gt1. rewrite N.Div0.mod_0_l. intros Hab.
  assert (∀ x, (Z.of_N order | Z.of_N x)%Z ↔ x mod order = 0) as Hdiv.
  { intros x. rewrite <-Z.mod_divide by lia. rewrite <-N2Z.inj_mod. lia. }
  apply Hdiv in Hab. rewrite N2Z.inj_mul in Hab.
  destruct (prime_mult _ order_prime _ _ Hab) as [Hd|Hd]; apply Hdiv in Hd; auto.
Qed.

Lemma mul_nonzero a b : 0 < a < order → 0 < b < order → (a * b) mod order ≠ 0.
Proof.
  intros Ha Hb Hab. assert (eqm (a * b) 0) as Heq.
  { unfold eqm. rewrite Hab. by rewrite N.Div0.mod_0_l. }
  destruct (eqm_mul_0 _ _ Heq) as [H1|H1]; apply eqm_0 in H1; lia.
Qed.

Lemma sum_values_app l k : sum_values (l ++ k) = sum_values l + sum_values k.
Proof. induction l as [|b l IH]; cbn; [done|]. fold (sum_values (l ++ k)) (sum_values l). lia. Qed.

(** ** Keys and points *)

Lemma ok_or_Ok {A} e (o : option A) a : ok_or e o = Ok a ↔ o = Some a.
Proof. destruct o; cbn; split; congruence. Qed.

Lemma bind_Ok {A B} (f : A → result Error B) (r : result Error A) b :
  r ≫= f = Ok b ↔ ∃ a, r = Ok a ∧ f a = Ok b.
Proof.
  destruct r as [a|e]; cbn; split; [by eauto| |done|].
  - by intros (? & [= ->] & ?).
  - by intros (? & ? & _).
Qed.

Lemma pk_mul_eqm P t Q : pk_mul_tweak P t = Some Q → eqm (pk_val Q) (pk_val P * scalar_val t).
Proof. intros Hm. by rewrite (pk_mul_val _ _ _ Hm), eqm_mod. Qed.

Lemma pk_eqm_inj P Q : eqm (pk_val P) (pk_val Q) → P = Q.
Proof. intros Heq. apply pk_val_inj, eqm_small; [done|apply pk_val_range..]. Qed.

(** A product is the point of its value. *)
Lemma pk_mul_intro P t Q : eqm (pk_val Q) (pk_val P * scalar_val t) → pk_mul_tweak P t = Some Q.
Proof.
  intros Heq. destruct (pk_mul_valid P t) as [Q' HQ'].
  - intros Hz. pose proof (pk_val_range Q). unfold eqm in Heq.
    rewrite Hz, N.mod_small in Heq; lia.
  - rewrite HQ'. f_equal. apply pk_eqm_inj. by rewrite (pk_mul_eqm _ _ _ HQ').
Qed.

Lemma sk_mul_intro s t : eqm (be_value (secret_bytes s) * scalar_val t) 0 ∨ is_Some (sk_mul_tweak s t).
Proof.
  destruct (decide ((be_value (secret_bytes s) * scalar_val t) mod order = 0)) as [Hz|Hz].
  - left. unfold eqm. by rewrite Hz, N.Div0.mod_0_l.
  - right. by apply sk_mul_valid.
Qed.

Lemma secret_scalar s : ∃ t, scalar_from_be_bytes (secret_bytes s) = Some t ∧
  scalar_val t = be_value (secret_bytes s).
Proof.
  pose proof (secret_range s) as Hs. destruct (scalar_from_valid (secret_bytes s)) as [t Ht]; [lia|].
  exists t. by split; [|apply scalar_from_val].
Qed.

Lemma pk_serialize_inj P Q : pk_serialize P = pk_serialize Q → P = Q.
Proof. intros Heq. pose proof (pk_from_serialize P). rewrite Heq, pk_from_serialize in *. congruence. Qed.

Lemma from_secret_key_eqm s k :
  eqm (be_value (secret_bytes s)) (be_value (secret_bytes k)) → from_secret_key s = from_secret_key k.
Proof. intros Heq. apply pk_eqm_inj. by rewrite !from_secret_key_val. Qed.
End residues.

#[export] Hint Resolve order_gt1 : bdk.
