(* ===== verification/MwebScanSpec.v ===== *)
(** * Scanning finds what was sent, and only coins that can be spent

    An output created for an address of the wallet is rewound to the coin its
    sender meant, with the key that unlocks it; a coin that is found opens the
    commitment of its output; the two ways of looking an address up agree. *)
From S2P Require Import Prelude Effects Mmr Block MwebWire MwebCoins MwebKeys MwebTx MwebScan MwebBuild SecpLaws.

#[local] Open Scope N_scope.

(** ** Inverting computations *)

Lemma try_map_Ok {A B} (f : A → result Error B) l k :
  try_map f l = Ok k ↔ Forall2 (λ a b, f a = Ok b) l k.
Proof.
  revert k. induction l as [|a l IH]; intros k; cbn [try_map].
  - split; [by intros [= <-]|]. by inversion 1.
  - rewrite bind_Ok. setoid_rewrite bind_Ok. setoid_rewrite IH. split.
    + intros (b & ? & bs & ? & [= <-]). by constructor.
    + inversion 1; subst. eauto 10.
Qed.

(** Breaks a successful computation into its steps. *)
Ltac inv_ok :=
  repeat match goal with
  | H : (_ ≫= _) _ = Some (Ok _, _) |- _ =>
      apply eff_bind_Ok in H; destruct H as (?&?&?&?)
  | H : lift _ _ = Some (Ok _, _) |- _ => apply lift_Ok in H; destruct H as [? ?]
  | H : mret _ _ = Some (Ok _, _) |- _ => apply mret_Ok in H; destruct H as [? ?]
  | H : _ ≫= _ = Ok _ |- _ => apply bind_Ok in H; destruct H as (?&?&?)
  | H : ok_or _ _ = Ok _ |- _ => apply ok_or_Ok in H
  | H : scalar_of _ = Ok _ |- _ => apply ok_or_Ok in H
  | H : Ok _ = Ok _ |- _ => injection H as H
  | p : _ * _ |- _ => destruct p
  end; cbv iota beta in *; simplify_eq.

Section scan.
Context `{Blake3, !Secp, !Wallet, !Zkp, !MwSerialize, LtcTypes}.
Context `{!SecpLaws, !ZkpLaws, !WalletLaws, !MwLaws}.
Implicit Types (keys : MasterKeys) (book : AddressBook) (out : MwOutput) (db : MwebCoinDatabase).

(** ** Dividing by a scalar *)

Lemma unmul (P : PublicKey) (o : Scalar) (out_key : Bytes32) :
  scalar_from_be_bytes out_key = Some o → 0 < be_value out_key →
  ∃ inv i Q, scalar_inverse out_key = Ok inv ∧ scalar_of inv = Ok i ∧
    pk_mul_tweak P i = Some Q ∧ pk_mul_tweak Q o = Some P.
Proof.
  intros Ho Hpos. destruct (scalar_from_val _ _ Ho) as [Hv Hlt].
  destruct (zkp_inv_valid out_key) as [inv Hinv]; [lia|].
  destruct (zkp_inv_val _ _ Hinv) as [Hone Hsmall].
  destruct (scalar_from_valid inv Hsmall) as [i Hi]. destruct (scalar_from_val _ _ Hi) as [Hvi _].
  assert (eqm (scalar_val i * scalar_val o) 1) as Hio.
  { unfold eqm. rewrite Hv, Hvi, N.mul_comm, Hone. symmetry. apply N.mod_small, order_gt1. }
  destruct (pk_mul_valid P i) as [Q HQ].
  { apply mul_nonzero; [apply pk_val_range|]. rewrite Hvi. split; [|done].
    destruct (decide (be_value inv = 0)) as [Hz|]; [|lia].
    rewrite Hz, N.mul_0_r, N.Div0.mod_0_l in Hone. done. }
  exists inv, i, Q. split_and!; [|unfold scalar_of; by rewrite Hi|done|].
  - unfold scalar_inverse, grin_sk.
    replace (grin_sk_valid out_key) with true by (symmetry; apply grin_sk_valid_spec; lia).
    cbn. by rewrite Hinv.
  - apply pk_mul_intro. rewrite (pk_mul_eqm _ _ _ HQ).
    by rewrite <-N.mul_assoc, Hio, N.mul_1_r.
Qed.

Lemma mul_inj (P Q R : PublicKey) (o : Scalar) :
  0 < scalar_val o < order → pk_mul_tweak P o = Some R → pk_mul_tweak Q o = Some R → P = Q.
Proof.
  intros Ho HP HQ. apply pk_eqm_inj.
  pose proof (pk_mul_eqm _ _ _ HP) as EP. pose proof (pk_mul_eqm _ _ _ HQ) as EQ.
  pose proof (pk_val_range P). pose proof (pk_val_range Q).
  (* a common multiple of a nonzero residue *)
  assert (∀ a b, a ≤ b → b < order → eqm (a * scalar_val o) (b * scalar_val o) → a = b) as Hc.
  { intros a b Hab Hb Heq. replace (b * scalar_val o) with (a * scalar_val o + (b - a) * scalar_val o) in Heq by nia.
    rewrite <-(N.add_0_r (a * _)) in Heq at 1. apply eqm_add_cancel_l in Heq. symmetry in Heq.
    destruct (eqm_mul_0 _ _ Heq) as [Hz|Hz]; apply eqm_0 in Hz; lia. }
  unfold eqm. f_equal. destruct (N.le_ge_cases (pk_val P) (pk_val Q)); [|symmetry];
    apply Hc; try lia; congruence.
Qed.

(** ** Looking an address up *)

(** The keys of a book are public keys. *)
Definition book_ok book : Prop := map_Forall (λ k _, ∃ P, k = pk_serialize P) (by_spend_pk book).

Lemma lookup_spend_pubkey_spec book ko out_key o :
  scalar_from_be_bytes out_key = Some o → 0 < be_value out_key →
  ∃ B, pk_mul_tweak B o = Some ko ∧
    lookup_spend_pubkey book ko out_key = Ok ((λ idx, (idx, B)) <$> index_of book B).
Proof.
  intros Ho Hpos. destruct (unmul ko o out_key Ho Hpos) as (inv & i & B & Hinv & Hi & HB & Hko).
  exists B. split; [done|]. unfold lookup_spend_pubkey. rewrite Hinv. cbn [mbind result_bind].
  rewrite Hi. cbn [mbind result_bind]. by rewrite HB.
Qed.

Lemma lookup_forward_loop_spec ko o B (entries : list (Bytes33 * N)) :
  0 < scalar_val o < order → pk_mul_tweak B o = Some ko →
  Forall (λ e : Bytes33 * N, ∃ P, e.1 = pk_serialize P) entries → NoDup entries.*1 →
  lookup_forward_loop ko o entries =
    Ok ((λ idx, (idx, B)) <$> list_to_map (M:=gmap Bytes33 N) entries !! pk_serialize B).
Proof.
  intros Ho HB. induction entries as [|[k idx] entries IH]; cbn [lookup_forward_loop fmap list_fmap fst];
    intros Hall Hnd; [done|].
  apply Forall_cons in Hall as [[P HP] Hall]. cbn in HP. subst k. apply NoDup_cons in Hnd as [_ Hnd].
  rewrite pk_from_serialize. cbn [ok_or mbind result_bind].
  destruct (pk_mul_valid P o) as [Q HQ]; [apply mul_nonzero; [apply pk_val_range|done]|].
  rewrite HQ. cbn [ok_or mbind result_bind list_to_map foldr uncurry fst snd].
  case_decide as HQk.
  - subst Q. rewrite (mul_inj _ _ _ _ Ho HQ HB). by rewrite lookup_insert_eq.
  - rewrite lookup_insert_ne; [by apply IH|]. intros Heq. apply pk_serialize_inj in Heq. congruence.
Qed.

(** Inverting the factor once and looking the candidate up finds the entry
    that trying every entry of the address book finds, whenever the factor is
    a nonzero residue. *)
Theorem lookup_variants_agree book ko out_key :
  book_ok book → 0 < be_value out_key < order →
  lookup_spend_pubkey book ko out_key = lookup_spend_pubkey_forward book ko out_key.
Proof.
  intros Hbook Hrange. destruct (scalar_from_valid out_key) as [o Ho]; [lia|].
  destruct (lookup_spend_pubkey_spec book ko out_key o Ho) as (B & HB & ->); [lia|].
  unfold lookup_spend_pubkey_forward, scalar_of. rewrite Ho. cbn [ok_or mbind result_bind].
  rewrite (lookup_forward_loop_spec ko o B).
  - unfold index_of. do 3 f_equal. by rewrite list_to_map_map_iter.
  - by rewrite (proj1 (scalar_from_val _ _ Ho)).
  - done.
  - apply Forall_forall. intros [k idx] Hin. apply elem_of_map_iter in Hin. by apply (Hbook k idx).
  - apply NoDup_map_iter.
Qed.

(** ** The address book *)

(** The indices of a book are those of the wallet's addresses. *)
Record book_of keys (gap : N) book : Prop := {
  bk_ok : book_ok book;
  bk_sound P i : index_of book P = Some i → i < gap ∧ ∃ A, stealth_pubkeys keys i = Ok (A, P);
  bk_complete i A P : i < gap → stealth_pubkeys keys i = Ok (A, P) → is_Some (index_of book P);
}.

Lemma book_fold keys l m m' (seen : list N) :
  try_foldl (add_address keys) m l = Ok m' →
  (∀ k i, m !! k = Some i → i ∈ seen ∧ ∃ A P, k = pk_serialize P ∧ stealth_pubkeys keys i = Ok (A, P)) →
  (∀ i A P, i ∈ seen → stealth_pubkeys keys i = Ok (A, P) → is_Some (m !! pk_serialize P)) →
  (∀ k i, m' !! k = Some i →
    i ∈ seen ++ l ∧ ∃ A P, k = pk_serialize P ∧ stealth_pubkeys keys i = Ok (A, P)) ∧
  (∀ i A P, i ∈ seen ++ l → stealth_pubkeys keys i = Ok (A, P) → is_Some (m' !! pk_serialize P)).
Proof.
  revert m seen. induction l as [|j l IH]; intros m seen; cbn [try_foldl].
  { intros [= <-]. by rewrite app_nil_r. }
  destruct (add_address keys m j) as [m1|] eqn:Hadd; [|done]. unfold add_address in Hadd.
  apply bind_Ok in Hadd as ([A P] & Hj & [= <-]). intros Hfold Hs Hc.
  replace (seen ++ j :: l) with ((seen ++ [j]) ++ l) by by rewrite <-app_assoc.
  apply (IH _ (seen ++ [j]) Hfold); [intros k i|intros i A' Q].
  - destruct (decide (k = pk_serialize P)) as [->|Hne].
    + rewrite lookup_insert_eq. intros [= <-]. split; [set_solver|eauto].
    + rewrite lookup_insert_ne by done. intros Hk. destruct (Hs _ _ Hk). split; [set_solver|done].
  - rewrite elem_of_app, list_elem_of_singleton. intros Hin HQ.
    destruct (decide (pk_serialize Q = pk_serialize P)) as [->|Hne].
    + rewrite lookup_insert_eq. eauto.
    + rewrite lookup_insert_ne by done. destruct Hin as [Hin| ->]; [eauto|]. congruence.
Qed.

Lemma book_from_keys_spec keys gap book : book_from_keys keys gap = Ok book → book_of keys gap book.
Proof.
  unfold book_from_keys. intros Hb. apply bind_Ok in Hb as (m & Hm & [= <-]).
  apply (book_fold keys _ _ _ []) in Hm as [Hs Hc]; [|set_solver..].
  cbn [app] in *. setoid_rewrite elem_of_range_exclusive in Hs.
  setoid_rewrite elem_of_range_exclusive in Hc. split; unfold index_of; cbn [by_spend_pk].
  - intros k i Hk. destruct (Hs k i Hk) as (_ & A & P & -> & _). by exists P.
  - intros P i Hi. destruct (Hs _ _ Hi) as (Hlt & A & Q & HQ & HA).
    apply pk_serialize_inj in HQ as ->. split; [lia|eauto].
  - intros i A P Hi HP. apply (Hc i A P); [lia|done].
Qed.

(** ** Keys of addresses *)

Lemma stealth_pubkeys_inv keys i A B :
  stealth_pubkeys keys i = Ok (A, B) ↔
  ∃ b scan, spend_key_at keys i = Ok b ∧ B = from_secret_key b ∧
    scalar_from_be_bytes (secret_bytes (mk_scan keys)) = Some scan ∧ pk_mul_tweak B scan = Some A.
Proof.
  unfold stealth_pubkeys. split.
  - intros Hs. inv_ok. eauto 10.
  - intros (b & scan & -> & -> & Hscan & HA). cbn. unfold scalar_of. rewrite Hscan. cbn. by rewrite HA.
Qed.

(** The one-time key of an output is the spend key of the address, tweaked. *)
Lemma tweaked_spend_key keys i A B ko o :
  stealth_pubkeys keys i = Ok (A, B) → pk_mul_tweak B o = Some ko →
  ∃ b s, spend_key_at keys i = Ok b ∧ sk_mul_tweak b o = Some s ∧ from_secret_key s = ko.
Proof.
  intros (b & scan & Hb & -> & _)%stealth_pubkeys_inv Hko. exists b.
  pose proof (pk_mul_val _ _ _ Hko) as Hv. rewrite from_secret_key_val in Hv.
  destruct (sk_mul_valid b o) as [s Hs].
  { rewrite <-Hv. pose proof (pk_val_range ko). lia. }
  exists s. split_and!; [done..|]. apply pk_val_inj. by rewrite from_secret_key_val, Hv, (sk_mul_val _ _ _ Hs).
Qed.

(** ** Created outputs *)

(** What the sender computed for the address [(a, b)]. *)
Record sent_to (a b : PublicKey) (v : N) (sender raw_blind : Bytes32) out : Prop := {
  snt_fields : ∃ n s s_scalar s_a ke o,
    s = send_key_hash a b v n ∧ length n = 16%nat ∧
    scalar_from_be_bytes s = Some s_scalar ∧ pk_mul_tweak a s_scalar = Some s_a ∧
    pk_mul_tweak b s_scalar = Some ke ∧
    let t := hashed_pubkey TagDerive s_a in
    scalar_from_be_bytes (hashed TagOutKey (vec_to_list t)) = Some o ∧
    pk_mul_tweak b o = Some (o_receiver_public_key out) ∧
    raw_blind = hashed TagBlind (vec_to_list t) ∧
    o_message out = output_message ke (hashed_pubkey TagTag s_a !!! 0%fin) v n t;
  snt_commitment : switch_commit raw_blind v = Ok (o_commitment out);
  snt_proof : zkp_verify_bullet_proof (o_commitment out) (o_range_proof out)
    (serialize_message (o_message out)) = true;
  snt_sender : be_value sender = pk_val (o_sender_public_key out);
  snt_signature : schnorr_verify (o_signature out) (o_sender_public_key out)
    (output_sig_message (o_commitment out) (o_sender_public_key out) (o_receiver_public_key out)
       (serialize_message (o_message out)) (o_range_proof out)) = Ok true;
}.

Lemma bulletproof_prove_Ok v blind extra seeds p seeds' :
  bulletproof_prove v blind extra seeds = Some (Ok p, seeds') →
  ∃ rewind private, p = zkp_bullet_proof v blind rewind private extra.
Proof.
  unfold bulletproof_prove, grin_sk. intros Hp. inv_ok.
  repeat (case_match; simplify_eq). case_decide; inv_ok. eauto.
Qed.

Lemma pedersen_commit_Ok v blind c : pedersen_commit v blind = Ok c → zkp_commit v blind = Some c.
Proof. unfold pedersen_commit, grin_sk. intros Hp. inv_ok. case_match; by simplify_eq. Qed.

Lemma schnorr_sign_verifies secret msg sig P :
  schnorr_sign secret msg = Ok sig → pk_val P = be_value secret → schnorr_verify sig P msg = Ok true.
Proof.
  unfold schnorr_sign, schnorr_verify. intros Hs HP. inv_ok. rewrite grin_pk_valid_pk.
  f_equal. by eapply schnorr_correct.
Qed.

Lemma address_keys keys i net addr :
  address keys i net = Ok addr →
  ∃ A B, stealth_pubkeys keys i = Ok (A, B) ∧ mweb_stealth_keys addr = Ok (A, B).
Proof.
  unfold address. intros Ha. inv_ok. eexists _, _. split; [done|].
  unfold mweb_stealth_keys. rewrite address_mweb_data. by rewrite !pk_from_serialize.
Qed.

Lemma create_output_sent addr v sender seeds raw key out seeds' :
  create_output_with_sender addr v sender seeds = Some (Ok (raw, key, out), seeds') →
  ∃ a b, mweb_stealth_keys addr = Ok (a, b) ∧ key = sender ∧ sent_to a b v sender raw out.
Proof.
  unfold create_output_with_sender. intros Hc. inv_ok.
  match goal with H : bulletproof_prove _ _ _ _ = _ |- _ => apply bulletproof_prove_Ok in H as (? & ? & ->) end.
  eexists _, _. split_and!; [done..|].
  match goal with H : sk_from_slice _ = Some ?s |- _ => pose proof (sk_from_bytes _ _ H) as Hsk end.
  split; cbn [o_message o_commitment o_receiver_public_key o_sender_public_key o_range_proof o_signature].
  - eexists _, _, _, _, _, _. split_and!; [done| |done..].
    rewrite length_take, length_vec_to_list. done.
  - unfold switch_commit. by apply bind_Ok; eauto.
  - apply bullet_proof_correct. by apply pedersen_commit_Ok.
  - by rewrite from_secret_key_val, Hsk.
  - eapply schnorr_sign_verifies; [done|]. by rewrite from_secret_key_val, Hsk.
Qed.

Lemma length_nonce_mask t : length (nonce_mask t) = 16%nat.
Proof. unfold nonce_mask. by rewrite length_take, length_vec_to_list. Qed.

Lemma xor_bytes_twice n m : length n = length m → xor_bytes (xor_bytes n m) m = n.
Proof.
  unfold xor_bytes. revert m. induction n as [|x n IH]; intros [|y m] [=]; cbn; [done|].
  rewrite IH by done. by rewrite N.lxor_assoc, N.lxor_nilpotent, N.lxor_0_r.
Qed.

Lemma lxor_twice v m : N.lxor (N.lxor v m) m = v.
Proof. by rewrite N.lxor_assoc, N.lxor_nilpotent, N.lxor_0_r. Qed.

Lemma stealth_same_scan keys i j A A' B :
  stealth_pubkeys keys i = Ok (A, B) → stealth_pubkeys keys j = Ok (A', B) → A = A'.
Proof.
  intros (b & sc & _ & _ & Hsc & HA)%stealth_pubkeys_inv (b' & sc' & _ & _ & Hsc' & HA')%stealth_pubkeys_inv.
  congruence.
Qed.

Lemma mul_scalar_pos P o Q : pk_mul_tweak P o = Some Q → scalar_val o ≠ 0.
Proof.
  intros Hm Hz. pose proof (pk_mul_val _ _ _ Hm) as Hv. pose proof (pk_val_range Q).
  rewrite Hz, N.mul_0_r, N.Div0.mod_0_l in Hv. lia.
Qed.

(** The coin the output stands for at the address [j]. *)
Definition coin_of out v (j : N) (raw_blind t spend : Bytes32) : MwebCoin :=
  mkMwebCoin (output_id out) (o_commitment out) v j raw_blind t (Some spend) None false None.

(** [spend] is the secret of the output's one-time key. *)
Definition opens (spend : Bytes32) out : Prop :=
  ∃ s, sk_from_slice spend = Some s ∧ from_secret_key s = o_receiver_public_key out.

(** What both the scan and the builder compute for an output sent to us. *)
Lemma sent_secret keys i A B v sender raw out :
  stealth_pubkeys keys i = Ok (A, B) → sent_to A B v sender raw out →
  ∃ fields sc shared t o spend,
    om_standard_fields (o_message out) = Some fields ∧ N.land (om_features (o_message out)) 1 = 1 ∧
    scalar_of (secret_bytes (mk_scan keys)) = Ok sc ∧
    pk_mul_tweak (sf_key_exchange_pubkey fields) sc = Some shared ∧
    t = hashed_pubkey TagDerive shared ∧ raw = hashed TagBlind (vec_to_list t) ∧
    scalar_from_be_bytes (hashed TagOutKey (vec_to_list t)) = Some o ∧
    pk_mul_tweak B o = Some (o_receiver_public_key out) ∧
    sf_view_tag fields = hashed_pubkey TagTag shared !!! 0%fin ∧
    sf_masked_value fields = N.lxor v (value_mask t) ∧
    opens spend out ∧
    (∀ j, stealth_pubkeys keys j = Ok (A, B) →
      owned_coin keys out j v raw t (hashed TagOutKey (vec_to_list t)) = Ok (coin_of out v j raw t spend)) ∧
    (∃ s s_scalar, s = send_key_hash A B v (xor_bytes (sf_masked_nonce fields) (nonce_mask t)) ∧
      scalar_of s = Ok s_scalar ∧ pk_mul_tweak B s_scalar = Some (sf_key_exchange_pubkey fields)).
Proof.
  intros Hi [Hf _ _ _ _]. destruct Hf as (n & s & ss & s_a & ke & o & -> & Hlen & Hss & Hsa & Hke & Ho & Hko & -> & Hmsg).
  pose proof Hi as (b & sc & Hb & HB & Hsc & HA)%stealth_pubkeys_inv.
  assert (pk_mul_tweak ke sc = Some s_a) as Hshared.
  { apply pk_mul_intro. rewrite (pk_mul_eqm _ _ _ Hsa), (pk_mul_eqm _ _ _ HA), (pk_mul_eqm _ _ _ Hke).
    by replace (pk_val B * scalar_val ss * scalar_val sc) with (pk_val B * scalar_val sc * scalar_val ss) by lia. }
  destruct (tweaked_spend_key _ _ _ _ _ _ Hi Hko) as (b' & sk & Hb' & Hsk & Hopen).
  rewrite Hmsg. eexists _, sc, s_a, (hashed_pubkey TagDerive s_a), o, (secret_bytes sk).
  split_and!; [done| |unfold scalar_of; by rewrite Hsc|done..| | |].
  - cbn. by rewrite standard_fields_bit.
  - exists sk. by rewrite sk_from_secret.
  - intros j Hj. unfold owned_coin, scalar_of.
    destruct (tweaked_spend_key _ _ _ _ _ _ Hj Hko) as (bj & skj & -> & Hskj & Hoj).
    cbn [mbind result_bind]. rewrite Ho. cbn [ok_or mbind result_bind]. rewrite Hskj. cbn.
    unfold coin_of. replace skj with sk; [done|].
    apply secret_val_inj. rewrite <-!from_secret_key_val. congruence.
  - cbn [sf_masked_nonce sf_key_exchange_pubkey].
    rewrite xor_bytes_twice by by rewrite length_nonce_mask.
    eexists _, ss. unfold scalar_of. by rewrite Hss.
Qed.

(** The builder's way to the coin of an owned output is the scan's. *)
Lemma change_coin_owned keys j A B v raw out fields shared o sc spend :
  stealth_pubkeys keys j = Ok (A, B) → om_standard_fields (o_message out) = Some fields →
  scalar_of (secret_bytes (mk_scan keys)) = Ok sc →
  pk_mul_tweak (sf_key_exchange_pubkey fields) sc = Some shared →
  let t := hashed_pubkey TagDerive shared in
  scalar_from_be_bytes (hashed TagOutKey (vec_to_list t)) = Some o →
  pk_mul_tweak B o = Some (o_receiver_public_key out) →
  owned_coin keys out j v raw t (hashed TagOutKey (vec_to_list t)) = Ok (coin_of out v j raw t spend) →
  change_coin keys j false v raw out = Ok (coin_of out v j raw t spend).
Proof.
  intros Hj Hf Hsc Hsh t Ho Hko Hown. unfold change_coin. rewrite Hf. cbn [ok_or mbind result_bind].
  destruct (tweaked_spend_key _ _ _ _ _ _ Hj Hko) as (b & s & Hb & Hs & _).
  apply stealth_pubkeys_inv in Hj as (b' & _ & Hb' & -> & _). assert (b' = b) as -> by congruence.
  unfold shared_secret_and_spend_for_owned. rewrite Hsc. cbn [mbind result_bind]. rewrite Hsh.
  cbn [ok_or mbind result_bind]. fold t. unfold owned_coin in Hown.
  unfold scalar_of in *. rewrite Ho in *. rewrite Hb in *. cbn [ok_or mbind result_bind] in *.
  rewrite Hko, Hs in *. cbn [ok_or mbind result_bind] in *. rewrite decide_False by tauto.
  unfold coin_of in *. cbn in *. congruence.
Qed.

(** C20. Whatever is sent to an address of the wallet, scanning finds: the coin has
    the amount that was sent, opens the commitment, is filed under an index of
    the same address and holds the secret of the output's one-time key. *)
Theorem sent_output_rewinds keys gap book i addr net v sender seeds raw key out seeds' :
  book_from_keys keys gap = Ok book → i < gap → v ≤ MAX_MONEY →
  address keys i net = Ok addr →
  create_output_with_sender addr v sender seeds = Some (Ok (raw, key, out), seeds') →
  ∃ j t spend, rewind_output keys book out = Ok (Some (coin_of out v j raw t spend)) ∧
    j < gap ∧ address keys j net = Ok addr ∧ opens spend out ∧
    switch_commit raw v = Ok (o_commitment out) ∧
    change_coin keys j false v raw out = Ok (coin_of out v j raw t spend).
Proof.
  intros Hbook%book_from_keys_spec Hi Hv Haddr Hout.
  destruct (address_keys _ _ _ _ Haddr) as (A & B & HAB & Hst).
  apply create_output_sent in Hout as (A1 & B1 & Hst1 & _ & Hsent).
  rewrite Hst in Hst1. injection Hst1 as <- <-. pose proof (snt_commitment _ _ _ _ _ _ Hsent) as Hcommit.
  destruct (sent_secret _ _ _ _ _ _ _ _ HAB Hsent)
    as (f & sc & shared & t & o & spend & Hf & Hbit & Hsc & Hsh & -> & Hraw & Ho & Hko & Htag & Hval & Hopen & Hcoin & Hke).
  destruct (bk_complete _ _ _ Hbook _ _ _ Hi HAB) as [j Hj].
  destruct (bk_sound _ _ _ Hbook _ _ Hj) as (Hjgap & A' & HA').
  rewrite <-(stealth_same_scan _ _ _ _ _ _ HAB HA') in HA'.
  set (t := hashed_pubkey TagDerive shared) in *.
  assert (0 < scalar_val o < order) as Hopos.
  { pose proof (mul_scalar_pos _ _ _ Hko). destruct (scalar_from_val _ _ Ho). lia. }
  pose proof (proj1 (stealth_pubkeys_inv _ _ _ _) HAB) as (b & sc' & _ & _ & Hsc' & HA).
  assert (sc' = sc) as -> by (unfold scalar_of in Hsc; rewrite Hsc' in Hsc; cbn in Hsc; congruence).
  assert (rewind_output keys book out = Ok (Some (coin_of out v j raw t spend))) as Hrewind.
  { unfold rewind_output. rewrite Hf, Hbit, Hsc. cbn [N.eqb Pos.eqb mbind result_bind ok_or].
    rewrite Hsh. cbn [ok_or mbind result_bind]. rewrite Htag, N.eqb_refl. cbn [negb]. fold t.
    destruct (lookup_spend_pubkey_spec book (o_receiver_public_key out) _ o Ho) as (B' & HB' & ->).
    { destruct (scalar_from_val _ _ Ho). lia. }
    rewrite (mul_inj _ _ _ o Hopos HB' Hko). cbn [mbind result_bind].
    rewrite Hj. cbn [fmap option_fmap option_map]. unfold rewind_fields. fold t.
    rewrite Hsc. cbn [mbind result_bind]. rewrite HA. cbn [ok_or mbind result_bind].
    rewrite Hval, lxor_twice, <-Hraw, Hcommit. cbn [mbind result_bind].
    rewrite decide_False by tauto. destruct (N.ltb_spec MAX_MONEY v); [lia|].
    destruct Hke as (s & ss & -> & Hss & Hke). rewrite Hss. cbn [mbind result_bind]. rewrite Hke.
    cbn [ok_or mbind result_bind]. rewrite decide_False by tauto. by rewrite Hcoin. }
  exists j, t, spend. split_and!; try done.
  - unfold address in *. rewrite HA'. rewrite HAB in Haddr. done.
  - apply (change_coin_owned _ _ A B _ _ _ f shared o sc); try done. by apply Hcoin.
Qed.

(** ** What is found can be spent *)

(** A coin that opens its commitment, is within the supply and holds a key. *)
Record genuine (c : MwebCoin) : Prop := {
  gn_commitment : switch_commit (mc_blind c) (mc_amount c) = Ok (mc_commitment c);
  gn_amount : mc_amount c ≤ MAX_MONEY;
  gn_key : ∃ spend s, mc_spend_key c = Some spend ∧ sk_from_slice spend = Some s;
}.

(** [c] is a coin of [out], found for the address it is filed under. *)
Record coin_matches keys gap out (c : MwebCoin) : Prop := {
  cm_id : mc_output_id c = output_id out;
  cm_commitment : mc_commitment c = o_commitment out;
  cm_index : mc_address_index c < gap ∧ is_Some (om_standard_fields (o_message out));
  cm_opens : ∃ spend, mc_spend_key c = Some spend ∧ opens spend out;
  cm_genuine : genuine c;
}.

Lemma lookup_spend_pubkey_Some book ko out_key j B :
  lookup_spend_pubkey book ko out_key = Ok (Some (j, B)) →
  index_of book B = Some j ∧
  ∃ o, scalar_from_be_bytes out_key = Some o ∧ pk_mul_tweak B o = Some ko.
Proof.
  intros Hl. pose proof Hl as Hl'. unfold lookup_spend_pubkey, scalar_inverse, grin_sk in Hl'.
  destruct (grin_sk_valid out_key) eqn:Hvalid; [|by cbn in Hl'; inv_ok].
  apply grin_sk_valid_spec in Hvalid. destruct (scalar_from_valid out_key) as [o Ho]; [lia|].
  destruct (lookup_spend_pubkey_spec book ko out_key o Ho) as (B' & HB' & Heq); [lia|].
  rewrite Heq in Hl. destruct (index_of book B') eqn:Hi; cbn in Hl; [|done].
  injection Hl as -> ->. eauto.
Qed.

Lemma rewind_found keys gap book out c :
  book_of keys gap book → rewind_output keys book out = Ok (Some c) → coin_matches keys gap out c.
Proof.
  intros Hbook. unfold rewind_output.
  destruct (om_standard_fields (o_message out)) as [f|] eqn:Hf; [|done].
  case_match; [done|]. intros Hr. inv_ok. case_match; [done|]. inv_ok.
  match goal with H : match ?o with _ => _ end = _ |- _ => destruct o as [[j B]|]; [|done] end.
  match goal with H : lookup_spend_pubkey _ _ _ = _ |- _ =>
    apply lookup_spend_pubkey_Some in H as (Hj & o & Ho & Hko) end.
  destruct (bk_sound _ _ _ Hbook _ _ Hj) as (Hgap & A & HA).
  destruct (tweaked_spend_key _ _ _ _ _ _ HA Hko) as (b & s & Hb & Hs & Hopen).
  unfold rewind_fields in *. inv_ok. case_decide as Hcommit; [done|].
  case_match; [done|]. inv_ok. case_decide; [done|]. inv_ok.
  unfold owned_coin in *. inv_ok. rewrite Hb in *. simplify_eq.
  match goal with H : MAX_MONEY <? _ = false |- _ => apply N.ltb_ge in H end.
  split; cbn; eauto.
  - eexists. split; [done|]. eexists. by split; [apply sk_from_secret|].
  - split; cbn; [done..|]. eexists _, _. split; [done|apply sk_from_secret].
Qed.

(** ** Scanning a list of outputs *)

(** The coins of some outputs, in order, tagged with a height. *)
Inductive owned_coins keys book (height : option N) : list MwOutput → list MwebCoin → Prop :=
| owned_nil : owned_coins keys book height [] []
| owned_other out outs cs :
    rewind_output keys book out = Ok None → owned_coins keys book height outs cs →
    owned_coins keys book height (out :: outs) cs
| owned_mine out outs c cs :
    rewind_output keys book out = Ok (Some c) → owned_coins keys book height outs cs →
    owned_coins keys book height (out :: outs) (set_height c height :: cs).

Lemma scan_outputs_loop_spec keys book height outs db found :
  match scan_outputs_loop keys book height outs db found with
  | (db', Ok found') => ∃ cs, owned_coins keys book height outs cs ∧ found' = found ++ cs ∧
      db' = foldl coin_insert db cs
  | (db', Err e) => ∃ pre out post cs, outs = pre ++ out :: post ∧
      rewind_output keys book out = Err e ∧ owned_coins keys book height pre cs ∧
      db' = foldl coin_insert db cs
  end.
Proof.
  revert db found. induction outs as [|out outs IH]; intros db found; cbn [scan_outputs_loop].
  - exists []. rewrite app_nil_r. by split_and!; [constructor| |].
  - destruct (rewind_output keys book out) as [[c|]|e] eqn:Hr.
    + specialize (IH (coin_insert db (set_height c height)) (found ++ [set_height c height])).
      destruct (scan_outputs_loop _ _ _ _ _ _) as [db' [found'|e]].
      * destruct IH as (cs & Hcs & -> & ->). exists (set_height c height :: cs).
        split_and!; [by constructor|by rewrite <-app_assoc|done].
      * destruct IH as (pre & out' & post & cs & -> & He & Hcs & ->).
        exists (out :: pre), out', post, (set_height c height :: cs). by split_and!; [| |constructor|].
    + specialize (IH db found). destruct (scan_outputs_loop _ _ _ _ _ _) as [db' [found'|e]].
      * destruct IH as (cs & Hcs & -> & ->). exists cs. by split_and!; [constructor| |].
      * destruct IH as (pre & out' & post & cs & -> & He & Hcs & ->).
        exists (out :: pre), out', post, cs. by split_and!; [| |constructor|].
    + exists [], out, outs, []. by split_and!; [| |constructor|].
Qed.

(** C21. A scan finds the coins of exactly the outputs that rewind, in order, puts
    them into the database, and each of them opens the commitment of its output
    and holds the secret of its one-time key; at an output it cannot rewind it
    stops, with what it found before in the database. *)
Theorem scan_outputs_correct keys gap book outs db height db' r :
  book_from_keys keys gap = Ok book → scan_outputs_at keys book outs db height = (db', r) →
  match r with
  | Ok found => owned_coins keys book height outs found ∧ db' = foldl coin_insert db found ∧
      ∀ c, c ∈ found → mc_block_height c = height ∧
        ∃ out c0, out ∈ outs ∧ c = set_height c0 height ∧ coin_matches keys gap out c0
  | Err e => ∃ pre out post found, outs = pre ++ out :: post ∧ rewind_output keys book out = Err e ∧
      scan_outputs_at keys book pre db height = (db', Ok found)
  end.
Proof.
  intros Hbook%book_from_keys_spec. unfold scan_outputs_at. intros Hscan.
  pose proof (scan_outputs_loop_spec keys book height outs db []) as Hspec. rewrite Hscan in Hspec.
  destruct r as [found|e].
  - destruct Hspec as (cs & Hcs & -> & ->). cbn [app]. split_and!; [done..|].
    clear Hscan. intros c Hc. induction Hcs as [|out outs cs Hr Hcs IH|out outs c0 cs Hr Hcs IH].
    + by apply elem_of_nil in Hc.
    + destruct (IH Hc) as (? & out' & c0 & ? & ?). split; [done|]. exists out', c0. split; [by right|done].
    + apply elem_of_cons in Hc as [->|Hc].
      * split; [done|]. exists out, c0. split_and!; [by left|done|]. by eapply rewind_found.
      * destruct (IH Hc) as (? & out' & c1 & ? & ?). split; [done|]. exists out', c1. split; [by right|done].
  - destruct Hspec as (pre & out & post & cs & -> & Hr & Hcs & ->).
    pose proof (scan_outputs_loop_spec keys book height pre db []) as Hpre.
    assert (∃ found, scan_outputs_loop keys book height pre db [] = (foldl coin_insert db cs, Ok found))
      as [found Hfound]; [|by exists pre, out, post, found].
    clear Hscan Hpre. generalize (@nil MwebCoin) as acc. revert db.
    induction Hcs as [|o outs cs Ho Hcs IH|o outs c0 cs Ho Hcs IH]; intros db acc; cbn [scan_outputs_loop].
    + by exists acc.
    + rewrite Ho. apply IH.
    + rewrite Ho. apply IH.
Qed.

End scan.
