(* ===== verification/MwebBuildSpec.v ===== *)
(** * Built transactions balance

    What the builder assembles satisfies the equations consensus checks:
    commitments and stealth keys balance, every signature verifies under the
    key it belongs to, every range proof proves its commitment; amounts are
    conserved, and the change is a coin that can be spent. *)
From S2P Require Import Prelude Effects Mmr Block MwebWire MwebCoins MwebKeys MwebTx MwebScan MwebBuild SecpLaws MwebScanSpec.

#[local] Open Scope N_scope.

(** ** Sums *)

Definition sum_by {A} (f : A → N) (l : list A) : N := foldr (λ a acc, f a + acc) 0 l.

Lemma sum_by_app {A} (f : A → N) l k : sum_by f (l ++ k) = sum_by f l + sum_by f k.
Proof. induction l as [|a l IH]; cbn; [done|]. fold (sum_by f (l ++ k)) (sum_by f l). lia. Qed.

Lemma sum_by_snoc {A} (f : A → N) l a : sum_by f (l ++ [a]) = sum_by f l + f a.
Proof. rewrite sum_by_app. cbn. lia. Qed.

#[export] Instance sum_by_perm {A} (f : A → N) : Proper ((≡ₚ) ==> (=)) (sum_by f).
Proof. induction 1; cbn; unfold sum_by in *; lia. Qed.

Lemma sum_by_sort {A} (f : A → N) (R : relation A) `{!∀ a b, Decision (R a b)} l :
  sum_by f (merge_sort R l) = sum_by f l.
Proof. apply sum_by_perm, merge_sort_Permutation. Qed.

Lemma sum_by_one {A} (f : A → N) a : sum_by f [a] = f a.
Proof. apply N.add_0_r. Qed.

Lemma sum_by_fmap {A} (g : A → N) l : sum_by id (g <$> l) = sum_by g l.
Proof. induction l as [|a l IH]; [done|]. cbn [fmap list_fmap]. unfold sum_by in *. cbn [foldr]. by rewrite IH. Qed.

Lemma sum_by_three a b c : sum_by id [a; b; c] = a + b + c.
Proof. cbn. unfold id. lia. Qed.

Lemma try_sum_spec acc amounts total :
  try_sum acc amounts = Some total → total = acc + sum_by id amounts.
Proof.
  revert acc. induction amounts as [|a amounts IH]; intros acc; cbn [try_sum].
  - intros [= <-]. cbn. lia.
  - unfold checked_add_u64 at 1. case_match; cbn [mbind option_bind]; [|done].
    intros ->%IH. cbn. unfold sum_by, id. lia.
Qed.

Lemma checked_amount_total_spec amounts total :
  checked_amount_total amounts = Ok total → total = sum_by id amounts ∧ total ≤ MAX_MONEY.
Proof.
  unfold checked_amount_total. intros Ht. inv_ok. case_match; inv_ok.
  match goal with H : try_sum _ _ = _ |- _ => apply try_sum_spec in H as -> end.
  split; [lia|]. by apply N.ltb_ge.
Qed.

(** The sum of the amounts, or an error exactly when it is above the supply. *)
Lemma checked_amount_total_ok amounts :
  sum_by id amounts ≤ MAX_MONEY → checked_amount_total amounts = Ok (sum_by id amounts).
Proof.
  intros Hle. unfold checked_amount_total.
  assert (∀ acc, acc + sum_by id amounts ≤ MAX_MONEY → try_sum acc amounts = Some (acc + sum_by id amounts)) as Hs.
  { clear. induction amounts as [|a amounts IH]; intros acc; cbn [try_sum].
    - cbn. intros _. f_equal. lia.
    - change (sum_by id (a :: amounts)) with (a + sum_by id amounts). intros Hle. unfold checked_add_u64 at 1.
      destruct (N.leb_spec (acc + a) U64_MAX); [|unfold MAX_MONEY, U64_MAX in *; lia].
      cbn [mbind option_bind]. rewrite IH by lia. f_equal. lia. }
  rewrite Hs by lia. cbn. rewrite N.add_0_l. destruct (N.ltb_spec MAX_MONEY (sum_by id amounts)); [lia|done].
Qed.

(** ** Amounts in signatures *)

(** What a reader of variable-length amounts does, as Core's [ReadVarInt]. *)
Fixpoint read_varint (acc : Z) (bytes : list N) : option (Z * list N) :=
  match bytes with
  | [] => None
  | b :: bytes =>
    let acc := (acc * 128 + Z.of_N (N.land b 127))%Z in
    if b <? 128 then Some (acc, bytes) else read_varint (acc + 1)%Z bytes
  end.

Lemma seven_bits (n : Z) : (0 ≤ n)%Z → (Z.land n 127 = n mod 128)%Z ∧ (Z.shiftr n 7 = n / 128)%Z.
Proof.
  intros Hn. split; [apply (Z.land_ones n 7); lia|]. by rewrite Z.shiftr_div_pow2.
Qed.

Lemma flagged_byte (a : N) (flag : bool) :
  a < 128 →
  N.land (N.lor a (if flag then 128 else 0)) 127 = a ∧
  (N.lor a (if flag then 128 else 0) <? 128) = negb flag.
Proof.
  intros Ha. assert (a = a mod 2 ^ 7) as Hmod by by rewrite N.mod_small.
  destruct flag; cbn [negb].
  - assert (N.lor a 128 = a + 128) as ->.
    { rewrite <-N.lxor_lor, <-N.add_nocarry_lxor; [done| |];
        apply N.bits_inj_0; intros i; rewrite N.land_spec; change 128 with (2 ^ 7);
        rewrite N.pow2_bits_eqb; destruct (N.eqb_spec 7 i) as [<-|]; try by rewrite andb_false_r.
      all: rewrite Hmod, N.mod_pow2_bits_high by lia; done. }
    split.
    + change 127 with (N.ones 7). rewrite N.land_ones. change (2 ^ 7) with 128.
      symmetry. apply N.mod_unique with 1; lia.
    + apply N.ltb_ge. lia.
  - rewrite N.lor_0_r. split.
    + change 127 with (N.ones 7). by rewrite N.land_ones.
    + by apply N.ltb_lt.
Qed.

Lemma varint_loop_read fuel n len bytes :
  (0 ≤ n)%Z → varint_loop fuel n len = Some bytes →
  ∀ rest, read_varint 0 (bytes ++ rest) =
    if (len =? 0)%nat then Some (n, rest) else read_varint (n + 1) rest.
Proof.
  revert n len bytes. induction fuel as [|fuel IH]; intros n len bytes Hn; cbn [varint_loop]; [done|].
  destruct (seven_bits n Hn) as [-> ->].
  set (byte := N.lor _ _). intros Hloop rest.
  assert (N.land byte 127 = Z.to_N (n mod 128) ∧ (byte <? 128) = (len =? 0)%nat) as [Hlow Hflag].
  { pose proof (Z.mod_pos_bound n 128). subst byte.
    pose proof (flagged_byte (Z.to_N (n mod 128)) (negb (len =? 0)%nat)) as Hb.
    destruct (len =? 0)%nat; cbn [negb] in *; apply Hb; lia. }
  assert (∀ acc, read_varint acc (byte :: rest) = if (len =? 0)%nat
    then Some ((acc * 128 + n mod 128)%Z, rest) else read_varint (acc * 128 + n mod 128 + 1) rest) as Hstep.
  { intros acc. cbn [read_varint]. pose proof (Z.mod_pos_bound n 128).
    rewrite Hlow, Hflag, Z2N.id by lia. by destruct (len =? 0)%nat. }
  destruct (Z.leb_spec n 127) as [Hsmall|Hbig].
  - injection Hloop as <-. cbn [app]. rewrite Hstep, (Z.mod_small n) by lia. done.
  - destruct (varint_loop fuel (n / 128 - 1) (S len)) as [high|] eqn:Hhigh; [|done].
    injection Hloop as <-. rewrite <-app_assoc.
    assert (1 ≤ n / 128)%Z by (apply Z.div_le_lower_bound; lia).
    rewrite (IH (n / 128 - 1)%Z (S len) high) by (lia || done). cbn [Nat.eqb app]. rewrite Hstep.
    replace ((n / 128 - 1 + 1) * 128 + n mod 128)%Z with n; [done|]. pose proof (Z.div_mod n 128). lia.
Qed.

Lemma varint_loop_total fuel n len :
  (0 ≤ n < 128 ^ Z.of_nat fuel)%Z → (0 < fuel)%nat →
  ∃ bytes, varint_loop fuel n len = Some bytes ∧ (length bytes ≤ fuel)%nat.
Proof.
  revert n len. induction fuel as [|fuel IH]; intros n len Hn Hfuel; [lia|]. cbn [varint_loop].
  destruct (seven_bits n) as [_ ->]; [lia|]. destruct (Z.leb_spec n 127) as [Hsmall|Hbig].
  { eexists. split; [done|]. cbn. lia. }
  assert (1 ≤ n / 128)%Z by (apply Z.div_le_lower_bound; lia).
  rewrite Nat2Z.inj_succ, Z.pow_succ_r in Hn by lia.
  assert (n / 128 < 128 ^ Z.of_nat fuel)%Z by (apply Z.div_lt_upper_bound; lia).
  assert (0 < fuel)%nat by (destruct fuel; [cbn in *; lia|lia]).
  destruct (IH (n / 128 - 1)%Z (S len)) as (bytes & -> & Hlen); [lia..|].
  eexists. split; [done|]. rewrite length_app. cbn. lia.
Qed.

Lemma varint_loop_mono fuel n len bytes :
  varint_loop fuel n len = Some bytes → varint_loop (S fuel) n len = Some bytes.
Proof.
  revert n len bytes. induction fuel as [|fuel IH]; intros n len bytes; [done|].
  intros Hl. cbn [varint_loop] in Hl. change (varint_loop (S (S fuel)) n len) with
    (let byte := N.lor (Z.to_N (Z.land n 127)) (if (len =? 0)%nat then 0 else 128) in
     if (n <=? 127)%Z then Some [byte]
     else rest ← varint_loop (S fuel) (Z.shiftr n 7 - 1)%Z (S len); Some (rest ++ [byte])).
  cbv zeta. destruct (n <=? 127)%Z; [done|].
  destruct (varint_loop fuel _ (S len)) as [rest|] eqn:Hr; [|done]. by rewrite (IH _ _ _ Hr).
Qed.

(** Every amount a kernel can carry is encoded in at most nine bytes, within
    the ten the code reserves, and reading the encoding gives the amount back
    with whatever follows it: no two amounts share an encoding, and none is a
    prefix of another's. *)
Theorem varint_roundtrip (amount : Z) :
  (0 ≤ amount < 2 ^ 63)%Z →
  ∃ bytes, write_mweb_varint amount = Some bytes ∧ (length bytes ≤ 9)%nat ∧
    ∀ rest, read_varint 0 (bytes ++ rest) = Some (amount, rest).
Proof.
  intros Hn. destruct (varint_loop_total 9 amount 0) as (bytes & Hb & Hlen); [cbn; lia|lia|].
  exists bytes. split_and!; [by apply varint_loop_mono|done|]. intros rest.
  by rewrite (varint_loop_read 9 amount 0 bytes) by (lia || done).
Qed.

Section balance.
Context `{Blake3, !Secp, !Wallet, !Zkp, !MwSerialize, LtcTypes}.
Context `{!SecpLaws, !ZkpLaws, !WalletLaws, !MwLaws}.
Implicit Types (keys : MasterKeys) (out : MwOutput) (inp : MwInput) (coin : MwebCoin).

(** ** The equations of consensus *)

Definition kernel_fees (k : Kernel) : N :=
  Z.to_N (default 0%Z (k_fee k)) + sum_by (λ p, Z.to_N (po_amount p)) (k_pegouts k).
Definition kernel_pegin (k : Kernel) : N := Z.to_N (default 0%Z (k_pegin k)).

(** Outputs, fees and peg-outs are paid by inputs and peg-ins; the excesses and
    the offset carry the blinding factors. *)
Definition commitments_balance (tx : MwTransaction) : Prop :=
  let body := mw_body tx in
  eqm (sum_by (λ o, commit_val (o_commitment o)) (tb_outputs body) +
       sum_by kernel_fees (tb_kernels body) * value_generator)
      (sum_by (λ i, commit_val (in_commitment i)) (tb_inputs body) +
       sum_by kernel_pegin (tb_kernels body) * value_generator +
       sum_by (λ k, commit_val (k_excess k)) (tb_kernels body) + be_value (mw_kernel_offset tx)).

Definition opt_val (P : option PublicKey) : N := from_option pk_val 0 P.

Definition stealth_balance (tx : MwTransaction) : Prop :=
  let body := mw_body tx in
  eqm (sum_by (λ o, pk_val (o_sender_public_key o)) (tb_outputs body) +
       sum_by (λ i, opt_val (in_input_public_key i)) (tb_inputs body))
      (sum_by (λ i, pk_val (in_output_public_key i)) (tb_inputs body) +
       sum_by (λ k, opt_val (k_stealth_excess k)) (tb_kernels body) + be_value (mw_stealth_offset tx)).

(** The range proof proves the commitment and the sender has signed. *)
Definition output_valid out : Prop :=
  zkp_verify_bullet_proof (o_commitment out) (o_range_proof out)
    (serialize_message (o_message out)) = true ∧
  schnorr_verify (o_signature out) (o_sender_public_key out)
    (output_sig_message (o_commitment out) (o_sender_public_key out) (o_receiver_public_key out)
       (serialize_message (o_message out)) (o_range_proof out)) = Ok true.

(** Signed by the input key plus the hashed multiple of the output key. *)
Definition input_valid inp : Prop :=
  ∃ ipk, in_input_public_key inp = Some ipk ∧
  ∀ P : PublicKey, eqm (pk_val P) (pk_val ipk + pk_val (in_output_public_key inp) *
           be_value (input_key_hash ipk (in_output_public_key inp))) →
    schnorr_verify (in_signature inp) P (input_message (in_features inp) (in_output_id inp)) = Ok true.

(** Signed by the stealth excess plus the hashed multiple of the excess. *)
Definition kernel_valid (k : Kernel) : Prop :=
  ∃ sx epk msg, k_stealth_excess k = Some sx ∧ commitment_to_pubkey (k_excess k) = Ok epk ∧
  kernel_message (k_features k) (k_excess k) (k_fee k) (k_pegin k) (k_pegouts k) (Some sx) = Some msg ∧
  ∀ P : PublicKey, eqm (pk_val P) (commit_val (k_excess k) * be_value (input_key_hash epk sx) + pk_val sx) →
    schnorr_verify (k_signature k) P (blake3_hash msg) = Ok true.

(** ** Arithmetic of secrets *)

Lemma grin_sk_Ok b c : grin_sk b = Ok c → c = b.
Proof. unfold grin_sk. case_match; [by intros [= ->]|done]. Qed.

Lemma try_map_grin l l' : try_map grin_sk l = Ok l' → l' = l.
Proof.
  intros Hf%try_map_Ok. induction Hf as [|b c l l' Hb Hf IH]; [done|].
  apply grin_sk_Ok in Hb as ->. by rewrite IH.
Qed.

Lemma blind_sum_val pos neg s : blind_sum pos neg = Ok s →
  eqm (be_value s + sum_values neg) (sum_values pos) ∧ be_value s < order.
Proof.
  unfold blind_sum. intros Hs. inv_ok.
  repeat match goal with H : try_map grin_sk _ = Ok _ |- _ => apply try_map_grin in H; subst end.
  by apply zkp_blind_sum_val.
Qed.

Lemma secret_add_val a b s : secret_add a b = Ok s →
  eqm (be_value s) (be_value a + be_value b) ∧ be_value s < order.
Proof. intros [Hs Hlt]%blind_sum_val. cbn in Hs. by rewrite !N.add_0_r in Hs. Qed.

Lemma secret_mul_val a b s : secret_mul a b = Ok s → eqm (be_value s) (be_value a * be_value b).
Proof.
  unfold secret_mul. intros Hs. inv_ok.
  match goal with H : sk_from_slice _ = _ |- _ => apply sk_from_bytes in H as <- end.
  match goal with H : scalar_from_be_bytes _ = _ |- _ => apply scalar_from_val in H as [<- _] end.
  match goal with H : sk_mul_tweak _ _ = _ |- _ => rewrite (sk_mul_val _ _ _ H) end. apply eqm_mod.
Qed.

Lemma pedersen_commit_val v r c :
  pedersen_commit v r = Ok c → eqm (commit_val c) (v * value_generator + be_value r).
Proof. intros Hc%pedersen_commit_Ok. rewrite (zkp_commit_val _ _ _ Hc). apply eqm_mod. Qed.

Lemma kernel_blind_val pos neg kb :
  kernel_blind_of pos neg = Ok kb → eqm (be_value kb + sum_values neg) (sum_values pos).
Proof.
  unfold kernel_blind_of. destruct pos as [|p pos]; [|by intros [? _]%blind_sum_val].
  intros Hk. inv_ok.
  match goal with H : blind_sum neg [] = _ |- _ => apply blind_sum_val in H as [Hs _] end.
  match goal with H : blind_sum [] _ = _ |- _ => apply blind_sum_val in H as [Hk _] end.
  cbn in Hs, Hk |- *. rewrite N.add_0_r in Hs, Hk. by rewrite <-Hs.
Qed.

Lemma stealth_offset_val pos neg so :
  stealth_offset_of pos neg = Ok so → eqm (be_value so + sum_values neg) (sum_values pos).
Proof. unfold stealth_offset_of. by destruct pos; intros [? _]%blind_sum_val. Qed.

Lemma draw_scalar_Ok seeds b seeds' :
  draw_scalar seeds = Some (b, seeds') → ∃ s, b = secret_bytes s.
Proof.
  induction seeds as [|x seeds IH]; cbn; [done|].
  destruct (sk_from_slice x); [intros [= <- <-]; eauto|done].
Qed.

(** ** The loops over recipients and coins *)

Lemma rand_foldl_inv {A B} (f : B → A → Rand B) (I : list A → B → Prop) l :
  (∀ pre a post acc acc' seeds seeds', l = pre ++ a :: post → I pre acc →
    f acc a seeds = Some (Ok acc', seeds') → I (pre ++ [a]) acc') →
  ∀ acc acc' seeds seeds', I [] acc → rand_foldl f acc l seeds = Some (Ok acc', seeds') → I l acc'.
Proof.
  intros Hstep. assert (∀ post pre acc acc' seeds seeds', l = pre ++ post → I pre acc →
    rand_foldl f acc post seeds = Some (Ok acc', seeds') → I l acc') as Hgen; [|by intros; eapply (Hgen l [])].
  induction post as [|a post IH]; intros pre acc acc' seeds seeds' -> HI; cbn [rand_foldl]; intros Hf.
  - inv_ok. by rewrite app_nil_r.
  - inv_ok. eapply (IH (pre ++ [a])); [by rewrite <-app_assoc| |done]. by eapply Hstep.
Qed.

Record outs_inv (l : list (nat * (Address * N))) (acc : Outs) : Prop := {
  oi_commit : eqm (sum_by (λ o, commit_val (o_commitment o)) (os_outputs acc))
    (sum_by (λ r, r.2.2) l * value_generator + sum_values (os_blinds acc));
  oi_stealth : eqm (sum_by (λ o, pk_val (o_sender_public_key o)) (os_outputs acc))
    (sum_values (os_keys acc));
  oi_valid : Forall output_valid (os_outputs acc);
}.

(** The coin that is kept is the one of the owned recipient. *)
Definition owned_inv keys (owned : option (nat * N)) (is_pegin : bool)
    (l : list (nat * (Address * N))) (acc : Outs) : Prop :=
  match owned with
  | None => os_change acc = None
  | Some (pos, index) =>
    match l !! pos with
    | None => os_change acc = None
    | Some (_, (addr, amount)) => ∃ c out a b raw sender, os_change acc = Some c ∧
        out ∈ os_outputs acc ∧ change_coin keys index is_pegin amount raw out = Ok c ∧
        mweb_stealth_keys addr = Ok (a, b) ∧ sent_to a b amount sender raw out
    end
  end.

Lemma create_output_Ok addr v seeds raw key out seeds' :
  create_output addr v seeds = Some (Ok (raw, key, out), seeds') →
  ∃ a b, mweb_stealth_keys addr = Ok (a, b) ∧ sent_to a b v key raw out.
Proof.
  unfold create_output. intros Hc. inv_ok.
  match goal with H : create_output_with_sender _ _ _ _ = _ |- _ =>
    apply create_output_sent in H as (a & b & Hst & -> & Hsent) end.
  eauto.
Qed.

Lemma sent_to_valid a b v sender raw out : sent_to a b v sender raw out → output_valid out.
Proof. intros [? ? ? ? ?]. by split. Qed.

(** The commitment of an output under its switched blind. *)
Lemma switched_commit raw v switched c :
  switch_commit raw v = Ok c → blind_switch raw v = Ok switched →
  eqm (commit_val c) (v * value_generator + be_value switched).
Proof. unfold switch_commit. intros Hs Hb. rewrite Hb in Hs. cbn in Hs. by apply pedersen_commit_val. Qed.

Lemma add_output_inv keys owned pegin l r acc acc' seeds seeds' :
  outs_inv l acc → add_output keys owned pegin acc r seeds = Some (Ok acc', seeds') →
  outs_inv (l ++ [r]) acc'.
Proof.
  intros [Hc Hs Hv] Hadd. destruct r as [i [addr amount]]. unfold add_output in Hadd. inv_ok.
  match goal with H : create_output _ _ _ = _ |- _ =>
    apply create_output_Ok in H as (A & B & _ & Hsent) end.
  split; cbn [os_outputs os_blinds os_keys].
  - rewrite !sum_by_snoc, sum_values_app, Hc. cbn [snd].
    match goal with H : blind_switch _ _ = _ |- _ =>
      rewrite (switched_commit _ _ _ _ (snt_commitment _ _ _ _ _ _ Hsent) H) end.
    cbn. rewrite N.add_0_r. unfold eqm. f_equal. nia.
  - rewrite sum_by_snoc, sum_values_app, Hs, <-(snt_sender _ _ _ _ _ _ Hsent). cbn. by rewrite N.add_0_r.
  - apply Forall_app. split; [done|]. constructor; [|done]. by eapply sent_to_valid.
Qed.

Record ins_inv (l : list MwebCoin) (acc : Ins) : Prop := {
  ii_commit : Forall (λ c, switch_commit (mc_blind c) (mc_amount c) = Ok (mc_commitment c)) l →
    eqm (sum_by (λ i, commit_val (in_commitment i)) (is_inputs acc))
      (sum_by mc_amount l * value_generator + sum_values (is_blinds acc));
  ii_pos : eqm (sum_by (λ i, opt_val (in_input_public_key i)) (is_inputs acc)) (sum_values (is_keys_pos acc));
  ii_neg : eqm (sum_by (λ i, pk_val (in_output_public_key i)) (is_inputs acc)) (sum_values (is_keys_neg acc));
  ii_valid : Forall input_valid (is_inputs acc);
  ii_ids : in_output_id <$> is_inputs acc = mc_output_id <$> l ∧ is_output_ids acc = mc_output_id <$> l;
}.

Lemma create_input_Ok id c ik ok inp :
  create_input id c ik ok = Ok inp →
  in_output_id inp = id ∧ in_commitment inp = c ∧ opt_val (in_input_public_key inp) = be_value ik ∧
  pk_val (in_output_public_key inp) = be_value ok ∧ input_valid inp.
Proof.
  unfold create_input. intros Hc. inv_ok.
  repeat match goal with H : sk_from_slice _ = _ |- _ => apply sk_from_bytes in H; subst end.
  split_and!; cbn; [done..|by rewrite from_secret_key_val|by rewrite from_secret_key_val|].
  eexists. split; [done|]. cbn. intros P HP. rewrite !from_secret_key_val in HP.
  eapply schnorr_sign_verifies; [done|].
  match goal with H : secret_add _ _ = _ |- _ => apply secret_add_val in H as [Hadd Hlt] end.
  match goal with H : secret_mul _ _ = _ |- _ => apply secret_mul_val in H as Hmul end.
  apply eqm_small; [|apply pk_val_range|done]. by rewrite HP, Hadd, Hmul.
Qed.

Lemma add_coin_inv l c acc acc' seeds seeds' :
  ins_inv l acc → add_coin acc c seeds = Some (Ok acc', seeds') → ins_inv (l ++ [c]) acc'.
Proof.
  intros [Hc Hp Hn Hv [Hi1 Hi2]] Hadd. unfold add_coin in Hadd. inv_ok.
  match goal with H : create_input _ _ _ _ = _ |- _ =>
    apply create_input_Ok in H as (Hid & Hcm & Hpos & Hneg & Hvalid) end.
  split; cbn [is_inputs is_blinds is_keys_pos is_keys_neg is_output_ids].
  - intros [Hl Hlast]%Forall_app. apply Forall_cons_1 in Hlast as [Hlast _].
    rewrite !sum_by_snoc, sum_values_app, Hc, Hcm by done.
    match goal with H : blind_switch _ _ = _ |- _ => rewrite (switched_commit _ _ _ _ Hlast H) end.
    cbn. rewrite N.add_0_r. unfold eqm. f_equal. nia.
  - rewrite sum_by_snoc, sum_values_app, Hp, Hpos. cbn. by rewrite N.add_0_r.
  - rewrite sum_by_snoc, sum_values_app, Hn, Hneg. cbn. by rewrite N.add_0_r.
  - apply Forall_app. by split; [|constructor].
  - rewrite !fmap_app, Hi1, Hi2. cbn. by rewrite Hid.
Qed.

Lemma add_output_owned keys owned is_pegin l r acc acc' seeds seeds' :
  r.1 = length l → owned_inv keys owned is_pegin l acc →
  add_output keys owned is_pegin acc r seeds = Some (Ok acc', seeds') →
  owned_inv keys owned is_pegin (l ++ [r]) acc'.
Proof.
  destruct r as [i [addr amount]]. cbn [fst]. intros -> Hinv Hadd. unfold add_output in Hadd. inv_ok.
  match goal with H : create_output _ _ _ = _ |- _ =>
    apply create_output_Ok in H as (A & B & Hst & Hsent) end.
  unfold owned_inv in *. cbn [os_change os_outputs]. destruct owned as [[pos index]|]; [|inv_ok; congruence].
  destruct (Nat.eqb_spec pos (length l)) as [->|Hne]; inv_ok.
  - rewrite lookup_app_r, Nat.sub_diag by lia. cbn.
    eexists _, _, A, B, _, _. split_and!; [done| |done..]. apply elem_of_app. right. by left.
  - destruct (decide (pos < length l)%nat) as [Hlt|Hge].
    + rewrite lookup_app_l by done. destruct (l !! pos) as [[k [ad am]]|] eqn:Hl; [|done].
      destruct Hinv as (c & out & a & b' & raw & sender & Hc & Hin & Hrest).
      exists c, out, a, b', raw, sender. split_and!; try apply Hrest; [congruence|].
      apply elem_of_app. by left.
    + rewrite lookup_ge_None_2 in Hinv by lia.
      rewrite lookup_ge_None_2 by (rewrite length_app; cbn; lia). congruence.
Qed.

Lemma imap_pair_split {A} (l : list A) pre r post :
  imap pair l = pre ++ r :: post → r.1 = length pre.
Proof.
  intros Heq. assert (imap pair l !! length pre = Some r) as Hr.
  { by rewrite Heq, lookup_app_r, Nat.sub_diag. }
  rewrite list_lookup_imap in Hr. destruct (l !! length pre); cbn in Hr; [|done]. by injection Hr as <-.
Qed.

Lemma create_kernel_Ok blind sb fee pegin pegouts (k : Kernel) :
  create_kernel blind (Some sb) fee pegin pegouts = Some (Ok k) →
  k_fee k = fee ∧ k_pegin k = pegin ∧ k_pegouts k = pegouts ∧
  eqm (commit_val (k_excess k)) (be_value blind) ∧ opt_val (k_stealth_excess k) = be_value sb ∧
  kernel_valid k.
Proof.
  unfold create_kernel. case_match eqn:Hkeys; [|done]. destruct a as [[excess sig_key] sx].
  destruct (kernel_message _ _ _ _ _ _) as [msg|] eqn:Hmsg; cbn [mbind option_bind]; [|done].
  intros Hk. injection Hk as Hk. inv_ok. unfold kernel_keys in *. inv_ok.
  match goal with H : pedersen_commit _ _ = _ |- _ => apply pedersen_commit_val in H as Hex end.
  match goal with H : sk_from_slice _ = _ |- _ => apply sk_from_bytes in H as Hsb end.
  rewrite N.mul_0_l, N.add_0_l in Hex.
  split_and!; cbn; [done..|by rewrite from_secret_key_val, Hsb|].
  eexists _, _, msg. split_and!; [done..|]. cbn. intros P HP.
  eapply schnorr_sign_verifies; [done|].
  match goal with H : secret_add _ _ = _ |- _ => apply secret_add_val in H as [Hadd Hlt] end.
  match goal with H : secret_mul _ _ = _ |- _ => apply secret_mul_val in H as Hmul end.
  apply eqm_small; [|apply pk_val_range|done].
  by rewrite HP, Hadd, Hmul, Hex, from_secret_key_val, Hsb.
Qed.

Lemma money_to_i64_Ok a z : money_to_i64 a = Ok z → z = Z.of_N a ∧ a ≤ MAX_MONEY.
Proof. unfold money_to_i64. destruct (N.ltb_spec MAX_MONEY a); by intros [= <-]. Qed.

Lemma pegout_coins_sum pegouts coins :
  try_map pegout_coin pegouts = Ok coins →
  sum_by (λ p, Z.to_N (po_amount p)) coins = sum_by snd pegouts.
Proof.
  intros Hf%try_map_Ok. induction Hf as [|p c l k Hp Hf IH]; [done|]. cbn.
  unfold sum_by in *. rewrite IH. f_equal. unfold pegout_coin in Hp. inv_ok.
  match goal with H : money_to_i64 _ = _ |- _ => apply money_to_i64_Ok in H as [-> _] end.
  cbn. by rewrite N2Z.id.
Qed.

(** ** Bodies *)

(** Everything consensus checks of the body of a transaction. *)
Record tx_valid (tx : MwTransaction) : Prop := {
  tv_commitments : commitments_balance tx;
  tv_stealth : stealth_balance tx;
  tv_outputs : Forall output_valid (tb_outputs (mw_body tx));
  tv_inputs : Forall input_valid (tb_inputs (mw_body tx));
  tv_kernels : Forall kernel_valid (tb_kernels (mw_body tx));
}.

Lemma finish_body_valid l coins outs ins fee pegin pegouts seeds ab seeds' :
  outs_inv l outs → ins_inv coins ins →
  Forall (λ c, switch_commit (mc_blind c) (mc_amount c) = Ok (mc_commitment c)) coins →
  sum_by (λ r, r.2.2) l + fee + sum_by snd pegouts = sum_by mc_amount coins + Z.to_N (default 0%Z pegin) →
  finish_body outs ins fee pegin pegouts seeds = Some (Ok ab, seeds') →
  tx_valid (ab_mw_tx ab) ∧ ab_change ab = os_change outs ∧ ab_spent_output_ids ab = is_output_ids ins ∧
  tb_outputs (mw_body (ab_mw_tx ab)) ≡ₚ os_outputs outs ∧
  tb_inputs (mw_body (ab_mw_tx ab)) ≡ₚ is_inputs ins ∧
  ∃ k, tb_kernels (mw_body (ab_mw_tx ab)) = [k] ∧ k_fee k = Some (Z.of_N fee) ∧ k_pegin k = pegin.
Proof.
  intros [Hoc Hos Hov] [Hic Hip Hin Hiv _] Hcoins Hsum Hf. unfold finish_body in Hf. inv_ok.
  match goal with H : _ <$> create_kernel _ _ _ _ _ = _ |- _ =>
    apply fmap_Some in H as (r & Hk & [= <- <-]);
    apply create_kernel_Ok in Hk as (Hfee & Hpegin & Hpegouts & Hex & Hsx & Hkv) end.
  match goal with H : kernel_blind_of _ _ = _ |- _ => apply kernel_blind_val in H as Hkb end.
  match goal with H : stealth_offset_of _ _ = _ |- _ => apply stealth_offset_val in H as Hso end.
  match goal with H : try_map pegout_coin _ = _ |- _ => apply pegout_coins_sum in H as Hpo end.
  match goal with H : money_to_i64 _ = _ |- _ => apply money_to_i64_Ok in H as [-> _] end.
  split_and!; try done; [|apply merge_sort_Permutation..|by eauto].
  rewrite sum_values_app in Hkb, Hso. rewrite sum_values_app in Hso.
  split; cbn [mw_body tb_outputs tb_inputs tb_kernels ab_mw_tx].
  - unfold commitments_balance. cbn [mw_body tb_outputs tb_inputs tb_kernels mw_kernel_offset].
    rewrite !sum_by_sort, !sum_by_one, Hoc, Hic, Hex, <-Hkb by done.
    unfold kernel_fees, kernel_pegin. rewrite Hfee, Hpegin, Hpegouts, Hpo. cbn [default from_option id].
    rewrite N2Z.id. cbn [sum_values foldr]. unfold eqm. f_equal. nia.
  - unfold stealth_balance. cbn [mw_body tb_outputs tb_inputs tb_kernels mw_stealth_offset].
    rewrite !sum_by_sort, !sum_by_one, Hos, Hip, Hin, Hsx, <-Hso. cbn [sum_values foldr].
    unfold eqm. f_equal. lia.
  - by rewrite merge_sort_Permutation.
  - by rewrite merge_sort_Permutation.
  - by constructor.
Qed.

Lemma sum_by_imap {A B} (f : B → N) (g : nat → A → nat * B) (h : A → B) l :
  (∀ i a, (g i a).2 = h a) → sum_by (λ r, f r.2) (imap g l) = sum_by (λ a, f (h a)) l.
Proof.
  revert g. induction l as [|a l IH]; intros g Hg; [done|]. rewrite imap_cons.
  change (f (g 0%nat a).2 + sum_by (λ r, f r.2) (imap (g ∘ S) l) = f (h a) + sum_by (λ a, f (h a)) l).
  rewrite Hg, IH; [done|]. intros i b. apply Hg.
Qed.

Lemma assemble_body_valid coins recipients owned keys fee pegin pegouts seeds ab seeds' :
  assemble_body coins recipients owned keys fee pegin pegouts seeds = Some (Ok ab, seeds') →
  Forall (λ c, switch_commit (mc_blind c) (mc_amount c) = Ok (mc_commitment c)) coins →
  sum_by snd recipients + fee + sum_by snd pegouts =
    sum_by mc_amount coins + Z.to_N (default 0%Z pegin) →
  let body := mw_body (ab_mw_tx ab) in
  tx_valid (ab_mw_tx ab) ∧ ab_spent_output_ids ab = mc_output_id <$> coins ∧
  in_output_id <$> tb_inputs body ≡ₚ mc_output_id <$> coins ∧
  (∃ k, tb_kernels body = [k] ∧ k_fee k = Some (Z.of_N fee) ∧ k_pegin k = pegin) ∧
  match owned with
  | None => ab_change ab = None
  | Some (pos, index) =>
    match recipients !! pos with
    | None => ab_change ab = None
    | Some (addr, amount) => ∃ c out a b raw sender, ab_change ab = Some c ∧
        out ∈ tb_outputs body ∧ change_coin keys index (bool_decide (is_Some pegin)) amount raw out = Ok c ∧
        mweb_stealth_keys addr = Ok (a, b) ∧ sent_to a b amount sender raw out
    end
  end.
Proof.
  intros Hab Hcoins Hsum. unfold assemble_body in Hab. inv_ok.
  match goal with H : rand_foldl (add_output _ _ _) _ _ _ = Some (Ok ?o, _) |- _ => rename o into outs, H into Houts end.
  match goal with H : rand_foldl add_coin _ _ _ = Some (Ok ?i, _) |- _ => rename i into ins, H into Hins end.
  match goal with H : finish_body _ _ _ _ _ _ = _ |- _ => rename H into Hfin end.
  pose proof (rand_foldl_inv _ outs_inv _ (λ pre r post acc acc' s s' _, add_output_inv _ _ _ pre r acc acc' s s')
    _ _ _ _ (Build_outs_inv [] Outs_new eq_refl eq_refl (Forall_nil_2 _)) Houts) as Hoinv.
  pose proof (rand_foldl_inv _ ins_inv _ (λ pre r post acc acc' s s' _, add_coin_inv pre r acc acc' s s')
    _ _ _ _ (Build_ins_inv [] Ins_new (λ _, eq_refl) eq_refl eq_refl (Forall_nil_2 _) (conj eq_refl eq_refl)) Hins) as Hiinv.
  assert (owned_inv keys owned (bool_decide (is_Some pegin)) (imap pair recipients) outs) as Howned.
  { refine (rand_foldl_inv _ (owned_inv keys owned _) _ _ _ _ _ _ _ Houts); [|by destruct owned as [[[|?] ?]|]].
    intros pre r post acc acc' s s' Heq Hinv Hadd. eapply add_output_owned; [|done..].
    by eapply imap_pair_split. }
  assert (sum_by (λ r, r.2.2) (imap pair recipients) = sum_by snd recipients) as Hamounts.
  { by apply (sum_by_imap snd pair id). }
  rewrite <-Hamounts in Hsum.
  destruct (finish_body_valid _ _ _ _ _ _ _ _ _ _ Hoinv Hiinv Hcoins Hsum Hfin)
    as (Hvalid & Hchange & Hids & Houtputs & Hinputs & Hk).
  destruct (ii_ids _ _ Hiinv) as [Hi1 Hi2]. split_and!; [done|congruence|by rewrite Hinputs, Hi1|done|].
  unfold owned_inv in Howned. rewrite Hchange. destruct owned as [[pos index]|]; [|done].
  rewrite list_lookup_imap in Howned. destruct (recipients !! pos) as [[addr amount]|]; cbn in Howned; [|done].
  destruct Howned as (c & out & a & b & raw & sender & ? & ? & ? & ? & ?).
  exists c, out, a, b, raw, sender. split_and!; try done. by rewrite Houtputs.
Qed.

Lemma change_amount_spec inputs recipients pegouts fee change :
  change_amount_of inputs recipients pegouts fee = Ok change →
  sum_by snd recipients + sum_by snd pegouts + fee + change = sum_by mc_amount inputs ∧
  sum_by mc_amount inputs ≤ MAX_MONEY.
Proof.
  unfold change_amount_of. intros Hc. inv_ok.
  repeat match goal with H : checked_amount_total _ = _ |- _ =>
    apply checked_amount_total_spec in H as [? ?] end.
  case_match eqn:Hlt; inv_ok. apply N.ltb_ge in Hlt. rewrite ?sum_by_three, !sum_by_fmap in *. subst.
  split; [|done]. lia.
Qed.

(** The change the builder reports can be spent. *)
Lemma change_coin_genuine keys index is_pegin amount a b sender raw out c :
  sent_to a b amount sender raw out → amount ≤ MAX_MONEY →
  change_coin keys index is_pegin amount raw out = Ok c →
  genuine c ∧ mc_amount c = amount ∧ mc_address_index c = index ∧ mc_output_id c = output_id out ∧
  ∃ spend, mc_spend_key c = Some spend ∧ opens spend out.
Proof.
  intros Hsent Hmax Hc. unfold change_coin in Hc. inv_ok.
  unfold shared_secret_and_spend_for_owned in *. inv_ok. case_decide as Hko; [done|]. inv_ok.
  match goal with H : sk_mul_tweak ?b ?o = Some ?s |- _ =>
    assert (from_secret_key s = o_receiver_public_key out) as Hopen end.
  { apply pk_val_inj. rewrite from_secret_key_val.
    match goal with H : sk_mul_tweak _ _ = _ |- _ => rewrite (sk_mul_val _ _ _ H) end.
    match goal with H : pk_mul_tweak (from_secret_key _) _ = _ |- _ =>
      pose proof (pk_mul_val _ _ _ H) as Hv end.
    rewrite from_secret_key_val in Hv. by rewrite <-Hv. }
  split_and!; cbn; [|done..|].
  - split; cbn; [apply Hsent|done|]. eexists _, _. split; [done|apply sk_from_secret].
  - eexists. split; [done|]. eexists. by split; [apply sk_from_secret|].
Qed.

(** C19. What the builder finishes from coins that open their commitments is a
    transaction consensus accepts: commitments and stealth keys balance, all
    signatures and range proofs verify; it spends exactly the given coins,
    amounts are conserved, and the change, if any is due, is a coin of one of
    the outputs that can itself be spent. *)
Theorem finish_balances (b : MwebTxBuilder) keys index net seeds f seeds' :
  finish b keys index net seeds = Some (Ok f, seeds') → Forall genuine (b_inputs b) →
  ∃ tx, lt_mw_tx (fm_tx f) = Some tx ∧ tx_valid tx ∧
    fm_spent_output_ids f = mc_output_id <$> b_inputs b ∧
    in_output_id <$> tb_inputs (mw_body tx) ≡ₚ mc_output_id <$> b_inputs b ∧
    ∃ change, sum_by snd (b_recipients b) + sum_by snd (b_pegouts b) + b_fee b + change =
        sum_by mc_amount (b_inputs b) ∧
      match fm_change f with
      | None => change = 0
      | Some c => 0 < change ∧ genuine c ∧ mc_amount c = change ∧ mc_address_index c = index ∧
          ∃ out spend, out ∈ tb_outputs (mw_body tx) ∧ mc_output_id c = output_id out ∧
            mc_spend_key c = Some spend ∧ opens spend out
      end.
Proof.
  intros Hf Hgen. unfold finish in Hf. inv_ok.
  match goal with H : change_amount_of _ _ _ _ = Ok ?c |- _ =>
    apply change_amount_spec in H as [Hsum Hmax]; rename c into change end.
  match goal with H : assemble_body _ _ _ _ _ _ _ _ = Some (Ok ?a, _) |- _ =>
    rename a into ab, H into Hab end.
  match goal with H : with_change _ _ _ _ _ = Ok _ |- _ => rename H into Hwc; unfold with_change in Hwc end.
  assert (Forall (λ c, switch_commit (mc_blind c) (mc_amount c) = Ok (mc_commitment c)) (b_inputs b)) as Hopen
    by (eapply Forall_impl; [exact Hgen|by intros c []]).
  destruct (N.ltb_spec 0 change) as [Hpos|Hzero]; inv_ok; cbn [option_fmap option_map fmap] in Hab.
  - apply assemble_body_valid in Hab as (Hv & Hids & Hin & _ & Hchange); [|done|];
      [|rewrite sum_by_app, sum_by_one; cbn; lia].
    rewrite list_lookup_middle in Hchange by done.
    destruct Hchange as (c & out & a & b' & raw & sender & Hc & Hout & Hcc & _ & Hsent).
    apply (change_coin_genuine _ _ _ _ _ _ _ _ _ _ Hsent) in Hcc as (Hg & Ha & Hi & Hid & spend & Hsp & Hop); [|lia].
    eexists. split_and!; [done..|]. exists change. cbn [fm_change]. rewrite Hc. split; [lia|].
    split_and!; eauto 10.
  - apply assemble_body_valid in Hab as (Hv & Hids & Hin & _ & Hchange); [|done|cbn; lia].
    eexists. split_and!; [done..|]. exists 0. cbn [fm_change]. rewrite Hchange. split; [lia|done].
Qed.

(** A peg-in is a valid body without inputs whose kernel pegs in the amount:
    the wallet gets one coin of that amount less the fee, which it can spend,
    marked as a peg-in; a fee that leaves nothing is refused. *)
Theorem build_pegin_correct keys index amount fee net seeds p seeds' :
  build_pegin keys index amount fee net seeds = Some (Ok p, seeds') →
  tx_valid (fp_mw_tx p) ∧ tb_inputs (mw_body (fp_mw_tx p)) = [] ∧ fp_pegin_amount p = amount ∧
  (∃ k, tb_kernels (mw_body (fp_mw_tx p)) = [k] ∧ k_fee k = Some (Z.of_N fee) ∧
    k_pegin k = Some (Z.of_N amount) ∧ fp_kernel_id p = kernel_id k) ∧
  ∃ c out spend, fp_outputs p = [c] ∧ genuine c ∧ mc_amount c + fee = amount ∧ 0 < mc_amount c ∧
    mc_is_pegin c = true ∧ mc_address_index c = index ∧ out ∈ tb_outputs (mw_body (fp_mw_tx p)) ∧
    mc_output_id c = output_id out ∧ mc_spend_key c = Some spend ∧ opens spend out.
Proof.
  intros Hp. unfold build_pegin in Hp. destruct (N.leb_spec amount fee) as [|Hlt]; inv_ok.
  match goal with H : money_to_i64 _ = _ |- _ => apply money_to_i64_Ok in H as [-> Hmax] end.
  match goal with H : assemble_body _ _ _ _ _ _ _ _ = Some (Ok ?a, _) |- _ =>
    rename a into ab, H into Hab end.
  apply assemble_body_valid in Hab as (Hv & _ & Hin & (k & Hk & Hfee & Hpeg) & Hchange);
    [|done|rewrite sum_by_one; cbn; rewrite N2Z.id; lia].
  rewrite Hk in *. cbn [head] in *. simplify_eq. cbn in Hchange.
  destruct Hchange as (c & out & a & b & raw & sender & Hc & Hout & Hcc & _ & Hsent).
  pose proof Hcc as Hcc'. unfold change_coin in Hcc'. inv_ok.
  apply (change_coin_genuine _ _ _ _ _ _ _ _ _ _ Hsent) in Hcc as (Hg & Ha & Hi & Hid & spend & Hsp & Hop); [|lia].
  cbn [fp_mw_tx fp_outputs fp_pegin_amount fp_kernel_id]. rewrite Hc. cbn [option_list].
  split_and!; [done| |done|by eauto|].
  - apply Permutation_nil_r, fmap_nil_inv in Hin. done.
  - eexists _, out, spend. cbn [mc_amount mc_is_pegin mc_address_index mc_output_id mc_spend_key] in *. split_and!; try done; cbn [mc_amount]; lia.
Qed.

(** ** Enough seeds *)

Definition valid_seed (b : Bytes32) : Prop := is_Some (sk_from_slice b).
#[local] Instance valid_seed_dec b : Decision (valid_seed b).
Proof. unfold valid_seed. apply _. Defined.

Definition valid_seeds (seeds : list Bytes32) : nat := length (filter valid_seed seeds).

(** With [k] valid seeds the computation comes to a result, using at most [k]. *)
Definition draws {A} (k : nat) (m : Rand A) : Prop :=
  ∀ seeds, (k ≤ valid_seeds seeds)%nat →
    ∃ r seeds', m seeds = Some (r, seeds') ∧ (valid_seeds seeds ≤ valid_seeds seeds' + k)%nat.

Lemma draws_lift {A} (r : result Error A) : draws 0 (lift r).
Proof. intros seeds _. exists r, seeds. split; [done|lia]. Qed.

Lemma draws_mret {A} (a : A) : draws 0 (mret (M:=Rand) a).
Proof. intros seeds _. exists (Ok a), seeds. split; [done|lia]. Qed.

Lemma draws_bind {A B} k1 k2 (m : Rand A) (f : A → Rand B) :
  draws k1 m → (∀ a seeds seeds', m seeds = Some (Ok a, seeds') → draws k2 (f a)) →
  draws (k1 + k2) (m ≫= f).
Proof.
  intros Hm Hf seeds Hk. destruct (Hm seeds) as (r & seeds1 & Heq & Hleft); [lia|].
  unfold mbind, eff_bind. rewrite Heq. destruct r as [a|e].
  - destruct (Hf a seeds seeds1 Heq seeds1) as (r & seeds2 & Heq2 & Hleft2); [lia|].
    exists r, seeds2. split; [done|lia].
  - exists (Err e), seeds1. split; [done|lia].
Qed.

Lemma draws_bind_0 {A B} k (m : Rand A) (f : A → Rand B) :
  draws 0 m → (∀ a seeds seeds', m seeds = Some (Ok a, seeds') → draws k (f a)) → draws k (m ≫= f).
Proof. apply (draws_bind 0 k). Qed.

Lemma draws_bind_last {A B} k (m : Rand A) (f : A → Rand B) :
  draws k m → (∀ a seeds seeds', m seeds = Some (Ok a, seeds') → draws 0 (f a)) → draws k (m ≫= f).
Proof. intros Hm Hf. rewrite <-(Nat.add_0_r k). by apply draws_bind. Qed.

Lemma draws_secret : draws 1 random_secret.
Proof.
  intros seeds Hk. unfold random_secret.
  assert (∃ b seeds', draw_scalar seeds = Some (b, seeds') ∧
    (valid_seeds seeds ≤ valid_seeds seeds' + 1)%nat) as (b & seeds' & -> & Hleft); [|by exists (Ok b), seeds'].
  unfold valid_seeds in *. induction seeds as [|s seeds IH]; [cbn in Hk; lia|].
  rewrite filter_cons in *. cbn [draw_scalar]. case_decide as Hs; unfold valid_seed in Hs.
  - destruct Hs as [sk ->]. exists (secret_bytes sk), seeds. split; [done|]. cbn. lia.
  - destruct (sk_from_slice s); [by destruct Hs|]. auto.
Qed.

Lemma draws_le {A} k k' (m : Rand A) : (k ≤ k')%nat → draws k m → draws k' m.
Proof.
  intros Hle Hm seeds Hk. destruct (Hm seeds) as (r & seeds' & ? & ?); [lia|].
  exists r, seeds'. split; [done|lia].
Qed.

Lemma draws_foldl {A B} k (f : B → A → Rand B) l acc :
  (∀ acc a, draws k (f acc a)) → draws (length l * k) (rand_foldl f acc l).
Proof.
  intros Hf. revert acc. induction l as [|a l IH]; intros acc; cbn [rand_foldl length Nat.mul].
  - apply draws_mret.
  - by apply draws_bind.
Qed.

(** The number of draws follows the steps of a computation. *)
#[local] Hint Resolve draws_lift draws_mret draws_secret : draws.
Ltac draws_steps :=
  repeat first
    [ by eauto with draws
    | apply draws_bind_0; [by eauto with draws|intros ? ? ? ?]
    | case_match ].

Lemma draws_bulletproof v blind extra : draws 2 (bulletproof_prove v blind extra).
Proof.
  unfold bulletproof_prove. draws_steps.
  apply (draws_bind 1 1); [by eauto with draws|intros ? ? ? _]. draws_steps.
  apply draws_bind_last; [by eauto with draws|intros ? ? ? _]. draws_steps.
Qed.
#[local] Hint Resolve draws_bulletproof : draws.

Lemma draws_create_output addr v : draws 3 (create_output addr v).
Proof.
  unfold create_output, create_output_with_sender.
  apply (draws_bind 1 2); [by eauto with draws|intros ? ? ? _]. draws_steps.
  apply draws_bind_last; [by eauto with draws|intros ? ? ? _]. draws_steps.
Qed.

Lemma draws_add_output keys owned is_pegin acc r : draws 3 (add_output keys owned is_pegin acc r).
Proof.
  destruct r as [i [addr amount]]. unfold add_output.
  apply draws_bind_last; [apply draws_create_output|intros [[raw key] out] ? ? _]. draws_steps.
  apply draws_bind_0; [draws_steps|intros ? ? ? _]. draws_steps.
Qed.

Lemma draws_add_coin acc c : draws 1 (add_coin acc c).
Proof.
  unfold add_coin. draws_steps.
  apply draws_bind_last; [by eauto with draws|intros ? ? ? _]. draws_steps.
Qed.

(** Amounts the encoding of the kernel takes. *)
Definition fits_i64 (amount : option Z) : Prop := from_option (λ a, 0 ≤ a < 2 ^ 63)%Z True amount.

Lemma create_kernel_total blind sb fee pegin pegouts :
  fits_i64 fee → fits_i64 pegin → is_Some (create_kernel blind sb fee pegin pegouts).
Proof.
  intros Hfee Hpegin. unfold create_kernel. case_match; [|by eexists]. destruct a as [[excess key] sx].
  assert (∀ a, fits_i64 a → is_Some (varint_of a)) as Hv.
  { intros [a|] Ha; [|by eexists]. destruct (varint_roundtrip a Ha) as (bytes & Hb & _). by exists bytes. }
  unfold kernel_message. destruct (Hv fee Hfee) as [f ->], (Hv pegin Hpegin) as [p ->]. cbn. by eexists.
Qed.

Lemma draws_finish_body outs ins fee pegin pegouts :
  fits_i64 pegin → draws 2 (finish_body outs ins fee pegin pegouts).
Proof.
  intros Hpegin. unfold finish_body.
  apply (draws_bind 1 1); [by eauto with draws|intros ? ? ? _]. draws_steps.
  apply draws_bind_last; [by eauto with draws|intros ? ? ? _]. draws_steps.
  match goal with H : lift (money_to_i64 _) _ = _ |- _ =>
    apply lift_Ok in H as [Hfee _]; apply money_to_i64_Ok in Hfee as [-> Hmax] end.
  apply draws_bind_0; [|intros ? ? ? _; draws_steps].
  intros s1 _. match goal with |- context [create_kernel ?b ?s ?f ?p ?o] =>
    destruct (create_kernel_total b s f p o) as [r ->]; [|done|] end.
  - cbn. unfold MAX_MONEY in Hmax. lia.
  - cbn. exists r, s1. split; [done|lia].
Qed.

Lemma draws_finish (b : MwebTxBuilder) keys index net :
  draws (3 * S (length (b_recipients b)) + length (b_inputs b) + 2) (finish b keys index net).
Proof.
  unfold finish. draws_steps.
  match goal with H : lift (with_change _ _ _ _ _) _ = Some (Ok (?l, _), _) |- _ =>
    assert (length l ≤ S (length (b_recipients b)))%nat as Hlen end.
  { match goal with H : lift (with_change _ _ _ _ _) _ = _ |- _ =>
      apply lift_Ok in H as [Hwc _]; unfold with_change in Hwc end.
    case_match; inv_ok; rewrite ?length_app; cbn; lia. }
  apply draws_bind_last; [|intros ? ? ? _; draws_steps].
  unfold assemble_body. match goal with |- draws _ (rand_foldl _ _ (imap pair ?l) ≫= _) =>
    apply (draws_le (length (imap pair l) * 3 + (length (b_inputs b) * 1 + 2))) end.
  { rewrite length_imap. lia. }
  apply draws_bind; [apply draws_foldl; intros; apply draws_add_output|intros ? ? ? _].
  apply draws_bind; [apply draws_foldl; intros; apply draws_add_coin|intros ? ? ? _].
  by apply draws_finish_body.
Qed.

(** C30. The builder never panics and always comes to a result: three valid seeds
    for each output, one for each input and two for the kernel are enough. *)
Theorem finish_total (b : MwebTxBuilder) keys index net seeds :
  (3 * S (length (b_recipients b)) + length (b_inputs b) + 2 ≤ valid_seeds seeds)%nat →
  ∃ r seeds', finish b keys index net seeds = Some (r, seeds').
Proof. intros Hk. destruct (draws_finish b keys index net seeds Hk) as (r & seeds' & ? & _). eauto. Qed.
End balance.
