(* ===== verification/MwebSamples.v ===== *)
(** * A concrete curve library

    An instance of the classes over the residues of a small prime: keys are
    the byte arrays of the nonzero residues, points their logarithms, the hash
    functions a weighted sum with every byte between 1 and 6.  It satisfies
    the laws, so the hypotheses of the theorems can hold; concrete keys,
    outputs and transactions over it instantiate them. *)
From Stdlib Require Import Znumtheory.
From S2P Require Import Prelude Effects Mmr Block MwebWire MwebCoins MwebKeys MwebTx MwebScan MwebBuild SecpLaws MwebScanSpec MwebBuildSpec.

#[local] Open Scope N_scope.

(** Both sides are evaluated and compared by the virtual machine. *)
Ltac by_vm := match goal with |- ?x = ?y => vm_cast_no_check (eq_refl y) end.

Definition toy_order : N := 7.

(** The 32 bytes of a number below 256. *)
Definition toy_bytes (x : N) : Bytes32 := vreplicate 31 0 +++ [# x].
Definition toy_key (x : N) : Bytes33 := vreplicate 32 0 +++ [# x].

Lemma be_value_toy x : be_value (toy_bytes x) = x.
Proof. reflexivity. Qed.

(** Nonzero residues. *)
Record ToyKey := mkToyKey { toy_val : N; toy_ok : bool_decide (0 < toy_val < toy_order) = true }.

Lemma toy_val_inj (a b : ToyKey) : toy_val a = toy_val b → a = b.
Proof. destruct a as [x p], b as [y q]; cbn. intros ->. f_equal. apply proof_irrel. Qed.

#[export] Instance ToyKey_eq_dec : EqDecision ToyKey.
Proof.
  intros a b. destruct (decide (toy_val a = toy_val b)) as [Heq|Hne].
  - left. by apply toy_val_inj.
  - right. congruence.
Defined.

(** The key of a residue, if it is one. *)
Definition toy_of (x : N) : option ToyKey :=
  match bool_decide (0 < x < toy_order) as d return bool_decide (0 < x < toy_order) = d → option ToyKey with
  | true => λ H, Some (mkToyKey x H)
  | false => λ _, None
  end eq_refl.

Lemma toy_of_spec x k : toy_of x = Some k ↔ toy_val k = x.
Proof.
  unfold toy_of. split.
  - generalize (eq_refl (bool_decide (0 < x < toy_order))).
    destruct (bool_decide _) at 2 3; [|done]. by intros H [= <-].
  - intros <-. destruct k as [v Hv]. cbn.
    generalize (eq_refl (bool_decide (0 < v < toy_order))).
    destruct (bool_decide _) at 2 3; [|congruence]. intros H. f_equal. by apply toy_val_inj.
Qed.

Lemma toy_of_valid x : 0 < x < toy_order → is_Some (toy_of x).
Proof. intros Hx. assert (bool_decide (0 < x < toy_order) = true) as H by by apply bool_decide_eq_true_2.
  exists (mkToyKey x H). by apply toy_of_spec. Qed.

Lemma toy_of_mod x : x mod toy_order ≠ 0 → is_Some (toy_of (x mod toy_order)).
Proof. intros Hne. apply toy_of_valid. split; [by apply N.neq_0_lt_0|by apply N.mod_lt]. Qed.

Lemma toy_range k : 0 < toy_val k < toy_order.
Proof. destruct k as [v Hv]. cbn. by apply bool_decide_eq_true_1 in Hv. Qed.

Definition value33 (b : Bytes33) : N := foldl (λ acc x, acc * 256 + x) 0 (vec_to_list b).

(** A weighted sum of the bytes, between 1 and 6. *)
Definition toy_hash (l : list N) : Bytes32 :=
  toy_bytes (1 + foldl (λ acc x, (acc * 5 + x + 3) mod 1009) 11 l mod 6).

#[export] Instance toy_blake3 : Blake3 := toy_hash.

#[export] Instance toy_secp : Secp := {
  PublicKey := ToyKey;
  SecretKey := ToyKey;
  Scalar := N;
  pk_serialize P := toy_key (toy_val P);
  pk_from_slice b := toy_of (value33 b mod toy_order);
  sk_from_slice b := toy_of (be_value b);
  secret_bytes s := toy_bytes (toy_val s);
  scalar_from_be_bytes b := if be_value b <? toy_order then Some (be_value b) else None;
  from_secret_key s := s;
  pk_mul_tweak P t := toy_of ((toy_val P * t) mod toy_order);
  sk_add_tweak s t := toy_of ((toy_val s + t) mod toy_order);
  sk_mul_tweak s t := toy_of ((toy_val s * t) mod toy_order);
  sha256 := toy_hash;
}.

#[export] Instance toy_zkp : Zkp := {
  grin_sk_valid b := bool_decide (0 < be_value b < toy_order);
  zkp_commit v r := Some (toy_key ((v * 2 + be_value r) mod toy_order));
  zkp_inv b := if bool_decide (0 < be_value b < toy_order)
    then Some (toy_bytes (be_value b ^ 5 mod toy_order)) else None;
  zkp_blind_sum pos neg := Some (toy_bytes ((sum_values pos + 6 * sum_values neg) mod toy_order));
  zkp_to_pubkey := Some;
  zkp_bullet_proof _ _ _ _ _ := replicate 675 0;
  zkp_verify_bullet_proof _ proof _ := (length proof =? 675)%nat;
  schnorrsig_sign _ sk := if 0 <? be_value sk then Some (vreplicate 63 0 +++ [# be_value sk]) else None;
  schnorrsig_serialize := Some;
  grin_pk_valid _ := true;
  aggsig_verify_single sig _ pk := bool_decide (sig = vreplicate 63 0 +++ [# value33 pk]);
}.

#[export] Instance toy_wallet : Wallet := {
  ChildNumber := N;
  from_hardened_idx i := Some (i + 1000);
  from_normal_idx i := Some i;
  Xpriv := ToyKey;
  Fingerprint := N;
  Network := unit;
  NetworkKind := unit;
  new_master _ seed := toy_of (be_value (toy_hash seed));
  xpriv_fingerprint k := toy_val k;
  derive_priv k path := toy_of (be_value (toy_hash (toy_val k :: path)));
  private_key k := k;
  Address := AddressData;
  address_mweb a b _ := MwebAddress (pk_serialize a) (pk_serialize b);
  to_address_data addr := addr;
}.

#[export] Instance toy_serialize : MwSerialize := {
  serialize_message m := om_features m :: om_extra_data m;
  serialize_kernel k := k_features k :: vec_to_list (k_excess k);
  serialize_pegouts l := [N.of_nat (length l)];
  StandardFieldsFeatureBit := 1;
  FeeFeatureBit := 1;
  PeginFeatureBit := 2;
  PegoutFeatureBit := 4;
  StealthExcessFeatureBit := 16;
}.

#[export] Instance toy_types : LtcTypes := { TxIn := unit; TxOut := unit }.

(** ** The laws *)

Lemma be_fold_zero l a : foldl (λ acc x, acc * 256 + x) a l = 0 → a = 0 ∧ l = replicate (length l) 0.
Proof.
  revert a. induction l as [|x l IH]; intros a; cbn [foldl length replicate]; [done|].
  intros [Ha Hl]%IH. assert (x = 0) as -> by lia. split; [lia|by f_equal].
Qed.

(** A small value has one canonical form. *)
Lemma toy_bytes_canonical b : be_value b < 256 → b = toy_bytes (be_value b).
Proof.
  intros Hlt. apply vec_to_list_inj2. unfold be_value in *.
  pose proof (length_vec_to_list b) as Hlen.
  destruct (vec_to_list b) as [|y l _] using rev_ind; [done|]. rewrite foldl_app in *. cbn [foldl] in *.
  assert (foldl (λ acc x, acc * 256 + x) 0 l = 0) as Hz by lia. rewrite Hz in *.
  apply be_fold_zero in Hz as [_ Hl]. rewrite length_app in Hlen. cbn in Hlen.
  rewrite Hl. replace (length l) with 31%nat by lia. done.
Qed.

Lemma toy_prime : prime (Z.of_N toy_order).
Proof.
  apply prime_alt. split; [done|]. intros n Hn [k Hk]. change (Z.of_N toy_order) with 7%Z in *.
  assert (n = 2 ∨ n = 3 ∨ n = 4 ∨ n = 5 ∨ n = 6)%Z as Hcases by lia.
  destruct_or! Hcases; subst n; lia.
Qed.

#[export] Instance toy_secp_laws : SecpLaws.
Proof.
  refine {| order := toy_order; pk_val := toy_val; scalar_val := (λ t : N, t) |}; cbn.
  - exact toy_prime.
  - exact toy_range.
  - exact toy_val_inj.
  - intros P. apply toy_of_spec. pose proof (toy_range P) as HP. symmetry.
    change (value33 (toy_key (toy_val P))) with (toy_val P). apply N.mod_small, HP.
  - exact toy_range.
  - exact toy_val_inj.
  - intros s. by apply toy_of_spec.
  - intros b s Hs%toy_of_spec. pose proof (toy_range s) as Hr. rewrite Hs in *. symmetry.
    apply toy_bytes_canonical. unfold toy_order in Hr. lia.
  - intros b Hb. by apply toy_of_valid.
  - intros b t. destruct (N.ltb_spec (be_value b) toy_order); [|done]. by intros [= <-].
  - intros b Hb. apply N.ltb_lt in Hb as ->. by eexists.
  - done.
  - intros P t Q HQ%toy_of_spec. exact HQ.
  - intros P t. exact (toy_of_mod (toy_val P * t)).
  - intros s t r Hr%toy_of_spec. exact Hr.
  - intros s t r Hr%toy_of_spec. exact Hr.
  - intros s t. exact (toy_of_mod (toy_val s * t)).
Defined.

Lemma seven_cases x : x < toy_order → x ∈ [0; 1; 2; 3; 4; 5; 6].
Proof. unfold toy_order. intros Hx. rewrite !elem_of_cons, elem_of_nil. lia. Qed.

#[export] Instance toy_zkp_laws : ZkpLaws.
Proof.
  refine {| commit_val := (λ c, value33 c mod toy_order); value_generator := 2 |}.
  - intros b. exact (bool_decide_eq_true _).
  - intros v r c [= <-]. exact (N.Div0.mod_mod (v * 2 + be_value r) toy_order).
  - intros b Hb. exists (toy_bytes (be_value b ^ 5 mod toy_order)). cbn [zkp_inv toy_zkp].
    by rewrite bool_decide_eq_true_2.
  - intros b i. cbn [zkp_inv toy_zkp]. case_bool_decide as Hb; [|done]. intros [= <-].
    rewrite be_value_toy. change order with toy_order. destruct Hb as [Hpos Hlt%seven_cases].
    rewrite !elem_of_cons, elem_of_nil in Hlt. destruct_or? Hlt; try done;
      rewrite Hlt in *; done.
  - intros pos neg s [= <-]. rewrite be_value_toy. change order with toy_order.
    rewrite N.Div0.add_mod_idemp_l. replace (sum_values pos + 6 * sum_values neg + sum_values neg)
      with (sum_values pos + sum_values neg * toy_order) by (unfold toy_order; lia).
    split; [apply N.Div0.mod_add|]. by apply N.mod_lt.
  - intros c b P [= <-] HP%toy_of_spec. exact HP.
  - done.
  - intros secret msg opaque sig P Hs [= <-] HP. cbn [schnorrsig_sign toy_zkp] in Hs.
    destruct (0 <? be_value secret); [|done]. injection Hs as <-. rewrite <-HP. by apply bool_decide_eq_true.
  - done.
Qed.

#[export] Instance toy_wallet_laws : WalletLaws.
Proof. by split. Qed.

#[export] Instance toy_mw_laws : MwLaws.
Proof. by split. Qed.

(** ** A wallet, a payment and a spend *)

Definition toy (x : N) : ToyKey := default (mkToyKey 1 eq_refl) (toy_of x).

Definition sample_keys : MasterKeys := mkMasterKeys (toy 3) (toy 2) LitecoinCore 0 [] [].
Definition sample_book : AddressBook :=
  match book_from_keys sample_keys 3 with Ok b => b | Err _ => mkAddressBook ∅ 0 end.
Lemma sample_book_built : book_from_keys sample_keys 3 = Ok sample_book.
Proof. by_vm. Qed.

Definition sample_address (i : N) : Address :=
  match address sample_keys i tt with Ok a => a | Err _ => OtherAddress end.

Definition sample_seeds (n : nat) : list Bytes32 :=
  toy_bytes <$> take n (mjoin (replicate 6 [3; 5; 0; 1; 6; 4; 2; 9])).

(** 1002 litoshis sent to the address with index 1, which has index 2 as well. *)
Definition sample_sent : Bytes32 * Bytes32 * MwOutput :=
  match create_output_with_sender (sample_address 1) 1002 (toy_bytes 3) (sample_seeds 8) with
  | Some (Ok r, _) => r
  | _ => (zero32, zero32,
          mkMwOutput GENERATOR_J (toy 1) (toy 1) (mkOutputMessage 0 None []) [] (vreplicate 64 0))
  end.
Definition sample_output : MwOutput := sample_sent.2.

Lemma sent_output_rewinds_witness :
  ∃ coin, rewind_output sample_keys sample_book sample_output = Ok (Some coin) ∧ mc_amount coin = 1002.
Proof.
  destruct (sent_output_rewinds sample_keys 3 sample_book 1 (sample_address 1) tt 1002 (toy_bytes 3)
    (sample_seeds 8) sample_sent.1.1 sample_sent.1.2 sample_output (drop 2 (sample_seeds 8)))
    as (j & t & spend & Hr & _).
  - by_vm.
  - done.
  - vm_compute. discriminate.
  - by_vm.
  - by_vm.
  - eexists. by split; [exact Hr|].
Defined.

Definition sample_coin_found : MwebCoin :=
  match rewind_output sample_keys sample_book sample_output with
  | Ok (Some c) => c
  | _ => mkMwebCoin zero32 GENERATOR_J 0 0 zero32 zero32 None None false None
  end.

Lemma sample_coin_genuine : genuine sample_coin_found.
Proof.
  split; [by_vm|vm_compute; discriminate|].
  exists (toy_bytes 2), (toy 2). split; by_vm.
Qed.

Lemma scan_outputs_correct_witness :
  scan_outputs_at sample_keys sample_book [sample_output] CoinDb_new (Some 7) =
    (coin_insert CoinDb_new (set_height sample_coin_found (Some 7)), Ok [set_height sample_coin_found (Some 7)]) ∧
  ∃ out c0, out ∈ [sample_output] ∧ set_height sample_coin_found (Some 7) = set_height c0 (Some 7) ∧
    coin_matches sample_keys 3 out c0.
Proof.
  assert (scan_outputs_at sample_keys sample_book [sample_output] CoinDb_new (Some 7) =
    (coin_insert CoinDb_new (set_height sample_coin_found (Some 7)), Ok [set_height sample_coin_found (Some 7)]))
    as Hscan by by_vm.
  split; [exact Hscan|].
  destruct (scan_outputs_correct sample_keys 3 sample_book [sample_output] CoinDb_new (Some 7) _ _
    sample_book_built Hscan) as (_ & _ & Hall).
  apply (Hall (set_height sample_coin_found (Some 7))). by left.
Defined.

Definition toy_pk (x : N) : PublicKey := toy x.

Lemma lookup_variants_agree_witness :
  lookup_spend_pubkey sample_book (toy_pk 6) (toy_bytes 2) =
    lookup_spend_pubkey_forward sample_book (toy_pk 6) (toy_bytes 2) ∧
  lookup_spend_pubkey sample_book (toy_pk 6) (toy_bytes 2) = Ok (Some (2, toy_pk 3)).
Proof.
  split; [|by_vm].
  apply (lookup_variants_agree sample_book (toy_pk 6) (toy_bytes 2)); [|by vm_compute].
  apply (bk_ok sample_keys 3 sample_book), book_from_keys_spec, sample_book_built.
Defined.

(** The coin found pays 600 to the other address and 50 out of the extension
    block, with a fee of 10. *)
Definition sample_builder : MwebTxBuilder :=
  set_fee (add_pegout (add_recipient (add_input builder_new sample_coin_found) (sample_address 0) 600) [81] 50) 10.
Definition sample_finished : FinishedMwebTx :=
  match finish sample_builder sample_keys 0 tt (sample_seeds 20) with
  | Some (Ok f, _) => f
  | _ => mkFinishedMwebTx (mkLtcTransaction 0 0 [] [] None false) None [] []
  end.

Lemma finish_balances_witness :
  ∃ tx c, lt_mw_tx (fm_tx sample_finished) = Some tx ∧ tx_valid tx ∧
    fm_change sample_finished = Some c ∧ mc_amount c = 342 ∧ genuine c.
Proof.
  destruct (finish_balances sample_builder sample_keys 0 tt (sample_seeds 20) sample_finished
    (drop 12 (sample_seeds 20))) as (tx & Htx & Hv & _ & _ & change & Hsum & Hchange).
  - by_vm.
  - repeat constructor; apply sample_coin_genuine.
  - assert (∃ c, fm_change sample_finished = Some c ∧ mc_amount c = 342) as (c & Hc & Ha)
      
      by (exists (default sample_coin_found (fm_change sample_finished)); split; by_vm).
    rewrite Hc in Hchange. destruct Hchange as (_ & Hg & _).
    exists tx, c. exact (conj Htx (conj Hv (conj Hc (conj Ha Hg)))).
Defined.

Definition sample_pegin : FinishedMwebPegin :=
  match build_pegin sample_keys 1 500 20 tt (sample_seeds 20) with
  | Some (Ok p, _) => p
  | _ => mkFinishedMwebPegin (mkMwTransaction zero32 zero32 (mkTxBody [] [] [])) zero32 0 []
  end.

Lemma build_pegin_correct_witness :
  tx_valid (fp_mw_tx sample_pegin) ∧ ∃ c, fp_outputs sample_pegin = [c] ∧ mc_amount c + 20 = 500 ∧ genuine c.
Proof.
  destruct (build_pegin_correct sample_keys 1 500 20 tt (sample_seeds 20) sample_pegin
    (drop 6 (sample_seeds 20))) as (Hv & _ & _ & _ & c & out & spend & Hc & Hg & Ha & _).
  - by_vm.
  - split; [exact Hv|]. exists c. exact (conj Hc (conj Ha Hg)).
Defined.

Lemma finish_total_witness :
  ∃ r seeds', finish sample_builder sample_keys 0 tt (sample_seeds 20) = Some (r, seeds').
Proof.
  apply (finish_total sample_builder sample_keys 0 tt (sample_seeds 20)).
  vm_compute. lia.
Defined.

Lemma varint_roundtrip_witness :
  write_mweb_varint 300 = Some [129; 44] ∧
  ∃ bytes, write_mweb_varint 300 = Some bytes ∧ read_varint 0 (bytes ++ [7]) = Some (300%Z, [7]).
Proof.
  split; [by_vm|].
  destruct (varint_roundtrip 300) as (bytes & Hb & _ & Hr); [lia|]. exists bytes. by split.
Defined.
