(* ===== verification/MwebSyncData.v ===== *)
(** * Leafset differences, dating and sampling

    Models the data and the pure helpers of [crates/mweb/src/mweb_sync.rs]: the
    difference of two leafsets, the synchronisation state, dating of leaves,
    the heights that are sampled, the traits of header providers and notifiers
    with their implementations, and the check of owned range proofs. *)
From stdpp Require Import sorting.
From S2P Require Import Prelude Effects Block Mmr MwebWire MwebCoins MwebKeys MwebTx MwebScan MwebSync.

#[local] Open Scope N_scope.

Definition FINE_WINDOW : N := 4000.
Definition COARSE_STRIDE : N := 100.
Definition CHECKPOINT_EVERY_BATCHES : N := 50.

Inductive DatingMode := FineWindow | TipOnly.

#[export] Instance DatingMode_eq_dec : EqDecision DatingMode.
Proof. solve_decision. Defined.

(** ** Differences of leafsets *)

Record LeafsetDiff := mkDiff { ld_added : list N; ld_removed : list N }.

(** One bit of byte [byte_i], [o] in the old set and [n] in the new one. *)
Definition diff_bit (byte_i o n : N) (d : LeafsetDiff) (bit : N) : LeafsetDiff :=
  if negb (byte_bit (N.lxor o n) bit) then d
  else
    let idx := byte_i * 8 + bit in
    if byte_bit n bit then mkDiff (ld_added d ++ [idx]) (ld_removed d)
    else mkDiff (ld_added d) (ld_removed d ++ [idx]).

Definition diff_byte (old new : list N) (d : LeafsetDiff) (byte_i : nat) : LeafsetDiff :=
  let o := default 0 (old !! byte_i) in
  let n := default 0 (new !! byte_i) in
  if N.lxor o n =? 0 then d else foldl (diff_bit (N.of_nat byte_i) o n) d bits8.

Definition diff_leafsets (old new : list N) : LeafsetDiff :=
  foldl (diff_byte old new) (mkDiff [] []) (seq 0 (max (length old) (length new))).

(** The same test as [bitset_test] of [pmmr.rs], written differently. *)
Definition leafset_has_leaf (leafset : list N) (leaf : N) : bool :=
  match leafset !! N.to_nat (leaf / 8) with
  | Some b => byte_bit b (leaf mod 8)
  | None => false
  end.

(** ** State *)

Record SyncState := mkSyncState {
  ss_tip_hash : option BlockHash;
  ss_tip_height : option N;
  ss_leafset : list N;
  ss_height_map : gmap N N;
  ss_pending_tip_hash : option BlockHash;
  ss_utxo_cursor : option N;
}.

Definition SyncState_new : SyncState := mkSyncState None None [] ∅ None None.

Implicit Types st : SyncState.

Definition clear_utxo_resume st : SyncState :=
  mkSyncState (ss_tip_hash st) (ss_tip_height st) (ss_leafset st) (ss_height_map st) None None.
Definition invalidate_leafset st : SyncState :=
  clear_utxo_resume (mkSyncState None (ss_tip_height st) [] (ss_height_map st)
    (ss_pending_tip_hash st) (ss_utxo_cursor st)).

(** Assignments to single fields. *)
Definition set_height_map (f : gmap N N → gmap N N) st : SyncState :=
  mkSyncState (ss_tip_hash st) (ss_tip_height st) (ss_leafset st) (f (ss_height_map st))
    (ss_pending_tip_hash st) (ss_utxo_cursor st).
Definition set_pending (tip_hash : BlockHash) st : SyncState :=
  mkSyncState (ss_tip_hash st) (ss_tip_height st) (ss_leafset st) (ss_height_map st)
    (Some tip_hash) (ss_utxo_cursor st).
Definition set_cursor (leaf : N) st : SyncState :=
  mkSyncState (ss_tip_hash st) (ss_tip_height st) (ss_leafset st) (ss_height_map st)
    (ss_pending_tip_hash st) (Some leaf).

(** ** Dating *)

Definition date_leaf_index (height_map : gmap N N) (leaf_index tip_height : N) : N :=
  match list_find (λ p : N * N, leaf_index < p.2) (map_iter height_map) with
  | Some (_, (height, _)) => height
  | None => tip_height
  end.

Definition fine_sample_heights (tip_height window : N) : list N :=
  if window =? 0 then [tip_height]
  else range_inclusive (saturating_sub tip_height (saturating_sub window 1)) tip_height.

(** The loop; a turn per block is enough, for the stride is positive. *)
Fixpoint coarse_loop (fuel : nat) (h tip_height stride : N) (out : list N) : list N :=
  match fuel with
  | O => out
  | S fuel =>
    if h <? tip_height
    then coarse_loop fuel (saturating_add_u32 h stride) tip_height stride (out ++ [h])
    else out
  end.
Definition coarse_sample_heights (from_height tip_height stride : N) : list N :=
  let stride := N.max stride 1 in
  let out := coarse_loop (N.to_nat (tip_height - from_height)) from_height tip_height stride [] in
  if decide (last out = Some tip_height) then out else out ++ [tip_height].

(** [Vec::dedup]. *)
Fixpoint dedup (l : list N) : list N :=
  match l with
  | [] => []
  | a :: rest =>
    match rest with
    | b :: _ => if a =? b then dedup rest else a :: dedup rest
    | [] => [a]
    end
  end.

(** The heights that [sample_fine_headers] goes through. *)
Definition push_new (heights : list N) (h : N) : list N :=
  if decide (h ∈ heights) then heights else heights ++ [h].

(** ** The traits *)

Class BlockHeaderProvider (P : Type) := {
  tip : Eff P Error (BlockHash * N);
  block_hash_at : N → Eff P Error BlockHash;
}.
Class SyncNotifier (Nt : Type) := {
  wait_headers_synced : Eff Nt Error unit;
  header_tip_height : Eff Nt Error N;
  wait_tip_changed : N → Eff Nt Error unit;
}.

(** Calls come back. *)
Class ProviderLaws (P : Type) `{!BlockHeaderProvider P} : Prop := {
  tip_returns : returns (tip : Eff P Error (BlockHash * N));
  block_hash_at_returns : ∀ h, returns (block_hash_at h : Eff P Error BlockHash);
}.
Class NotifierLaws (Nt : Type) `{!SyncNotifier Nt} : Prop := {
  wait_headers_returns : returns (wait_headers_synced : Eff Nt Error unit);
  header_tip_returns : returns (header_tip_height : Eff Nt Error N);
}.

(** The default of [wait_tip_changed]. *)
Definition wait_tip_changed_default {Nt} (_prev_height : N) : Eff Nt Error unit := mret tt.

(** [ReadyNotifier] is its tip height. *)
Record ReadyNotifier := mkReady { rn_tip_height : N }.
#[export] Instance ready_notifier : SyncNotifier ReadyNotifier := {
  wait_headers_synced := mret tt;
  header_tip_height := gets rn_tip_height;
  wait_tip_changed := wait_tip_changed_default;
}.

(** [PollingTipNotifier]: the world that [tip_fn] reads, and the last height.
    [polls] bounds how often the loop may look; beyond it is still waiting. *)
Fixpoint poll_tip {W} (tip_fn : Eff W Error N) (polls : nat) (prev_height : N) :
    Eff (W * N) Error unit :=
  match polls with
  | O => hang
  | S polls =>
    h ← on_fst tip_fn;
    _ ← on_snd (modify (λ _, h));
    if prev_height <? h then mret tt else poll_tip tip_fn polls prev_height
  end.
Definition polling_notifier {W} (tip_fn : Eff W Error N) (polls : nat) : SyncNotifier (W * N) := {|
  wait_headers_synced := mret tt;
  header_tip_height := gets snd;
  wait_tip_changed := poll_tip tip_fn polls;
|}.

Record FixedHeaderProvider := mkFixed {
  fp_tip_hash : BlockHash;
  fp_tip_height : N;
  fp_hashes : gmap N BlockHash;
}.
Definition fixed_tip_only (tip_hash : BlockHash) (tip_height : N) : FixedHeaderProvider :=
  mkFixed tip_hash tip_height {[tip_height := tip_hash]}.
Definition set_tip (self : FixedHeaderProvider) (tip_hash : BlockHash) (tip_height : N) :
    FixedHeaderProvider :=
  mkFixed tip_hash tip_height (<[tip_height := tip_hash]> (fp_hashes self)).

#[export] Instance fixed_provider : BlockHeaderProvider FixedHeaderProvider := {
  tip := gets (λ self, (fp_tip_hash self, fp_tip_height self));
  block_hash_at height self :=
    match fp_hashes self !! height with
    | Some h => Some (Ok h, self)
    | None => Some (Err (Crypto "FixedHeaderProvider: no hash for height {height}"), self)
    end;
}.

(** [LiveHeaderProvider]: the callbacks look at the world anew each time. *)
Definition live_provider {W} (tip_fn : Eff W Error (BlockHash * N))
    (hash_fn : N → Eff W Error BlockHash) : BlockHeaderProvider W :=
  {| tip := tip_fn; block_hash_at := hash_fn |}.

(** ** Errors *)

Definition is_banworthy_peer_error (e : Error) : bool :=
  match ban_reason e with
  | Some Throttled | None => false
  | Some _ => true
  end.

(** [Display], as far as the synchronisation looks at it. *)
Definition display_reason (r : BanReason) : string :=
  match r with
  | BadProof => "bad proof"
  | ProtocolViolation => "protocol violation"
  | Transport => "transport failure"
  | Throttled => "rate limited"
  end.
Definition display (e : Error) : string :=
  match e with
  | Bip32 => "BIP32 error: {e}"
  | Secp256k1 => "secp256k1 error: {e}"
  | InvalidTweak => "invalid address-index tweak"
  | ZkpDisabled => "bdk_mweb built without the `zkp` feature"
  | InsufficientFunds => "input amount does not cover recipients + fee"
  | MissingCoinSecrets => "MWEB coin missing spend_key or blind"
  | NotMwebAddress => "address is not an MWEB stealth address"
  | Crypto msg => "MWEB crypto error: " +:+ msg
  | Peer reason msg => "MWEB peer error (" +:+ display_reason reason +:+ "): " +:+ msg
  end.

(** [str::contains]. *)
Fixpoint contains (pat s : string) : bool :=
  String.prefix pat s ||
  match s with
  | EmptyString => false
  | String _ s => contains pat s
  end.

(** The messages that make the syncer ask for a smaller batch. *)
Definition shrinkable (e : Error) : bool :=
  let msg := display e in
  contains "output_root mismatch" msg || contains "parent_hashes len" msg || contains "missing peak" msg.

(** ** Owned range proofs *)

Definition verify_owned_coin `{Secp, !Zkp, !MwSerialize} (entries : list (N * MwOutput))
    (_ : unit) (coin : MwebCoin) : result Error unit :=
  match mc_leaf_index coin with
  | None => Ok tt
  | Some leaf =>
    match list_find (λ e : N * MwOutput, e.1 = leaf) entries with
    | None => Ok tt
    | Some (_, (_, output)) =>
      let extra := serialize_message (o_message output) in
      ok ← bulletproof_verify (o_commitment output) (o_range_proof output) extra;
      if ok : bool then Ok tt
      else Err (bad_proof "owned output rangeproof failed verification")
    end
  end.
Definition verify_owned_rangeproofs `{Secp, !Zkp, !MwSerialize} (found : list MwebCoin)
    (entries : list (N * MwOutput)) : result Error unit :=
  try_foldl (verify_owned_coin entries) tt found.
