(* ===== verification/MwebSyncFacts.v ===== *)
(** * Facts about the helpers of the synchronisation

    Differences of leafsets as set differences, dates as first sampled heights,
    the heights that are sampled, and the loops that move a cursor. *)
From stdpp Require Import sorting.
From S2P Require Import Prelude Effects Block MmrIndex Mmr MwebWire MwebCoins MwebKeys MwebTx MwebScan MwebSync MwebSyncData.

#[local] Open Scope N_scope.

(** ** Differences *)

Lemma byte_bit_lxor o n bit :
  bit < 8 → byte_bit (N.lxor o n) bit = xorb (byte_bit o bit) (byte_bit n bit).
Proof. intros Hb. rewrite !byte_bit_spec by done. apply N.lxor_spec. Qed.

Definition is_added (old new : list N) (i : N) : Prop :=
  bitset_test old i = false ∧ bitset_test new i = true.
#[export] Instance is_added_dec old new i : Decision (is_added old new i).
Proof. unfold is_added. apply _. Defined.

(** The bits of byte [j]. *)
Definition byte_range (j : nat) : list N := (λ bit, N.of_nat j * 8 + bit) <$> bits8.

Lemma bitset_test_byte ls j bit :
  bit < 8 → bitset_test ls (N.of_nat j * 8 + bit) = byte_bit (default 0 (ls !! j)) bit.
Proof.
  intros Hb. unfold bitset_test.
  assert ((N.of_nat j * 8 + bit) / 8 = N.of_nat j) as -> by (symmetry; apply N.div_unique with bit; lia).
  assert ((N.of_nat j * 8 + bit) mod 8 = bit) as -> by (symmetry; apply N.mod_unique with (N.of_nat j); lia).
  rewrite Nat2N.id. destruct (ls !! j); [done|]. by rewrite byte_bit_0.
Qed.

Lemma diff_bits_spec old new j d bits :
  (∀ bit, bit ∈ bits → bit < 8) →
  let idx := (λ bit, N.of_nat j * 8 + bit) <$> bits in
  foldl (diff_bit (N.of_nat j) (default 0 (old !! j)) (default 0 (new !! j))) d bits =
  mkDiff (ld_added d ++ filter (is_added old new) idx) (ld_removed d ++ filter (is_added new old) idx).
Proof.
  revert d. induction bits as [|bit bits IH]; intros [a r] Hall; cbn [foldl fmap list_fmap].
  - by rewrite !filter_nil, !app_nil_r.
  - rewrite IH by (intros; apply Hall; by right). clear IH.
    assert (bit < 8) as Hbit by (apply Hall; by left). rewrite !filter_cons. unfold diff_bit.
    rewrite byte_bit_lxor, <-!bitset_test_byte by done.
    destruct (decide (is_added old new _)) as [Ha|Ha], (decide (is_added new old _)) as [Hb|Hb];
      unfold is_added in Ha, Hb.
    + destruct Ha, Hb. congruence.
    + destruct Ha as [-> ->]. cbn. by rewrite <-app_assoc.
    + destruct Hb as [-> ->]. cbn. by rewrite <-app_assoc.
    + destruct (bitset_test old _) eqn:Ho, (bitset_test new _) eqn:Hn; cbn; [done| | |done].
      * by destruct Hb.
      * by destruct Ha.
Qed.

Lemma elem_of_byte_range j i : i ∈ byte_range j ↔ N.of_nat j * 8 ≤ i < (N.of_nat j + 1) * 8.
Proof.
  unfold byte_range. rewrite list_elem_of_fmap. setoid_rewrite elem_of_bits8. split.
  - intros (bit & -> & Hb). lia.
  - intros Hi. exists (i - N.of_nat j * 8). lia.
Qed.

Lemma diff_byte_spec old new d j :
  diff_byte old new d j = mkDiff (ld_added d ++ filter (is_added old new) (byte_range j))
    (ld_removed d ++ filter (is_added new old) (byte_range j)).
Proof.
  unfold diff_byte. destruct (N.eqb_spec (N.lxor (default 0 (old !! j)) (default 0 (new !! j))) 0) as [Heq|].
  - apply N.lxor_eq in Heq.
    assert (∀ i, i ∈ byte_range j → bitset_test old i = bitset_test new i) as Hsame.
    { intros i (bit & -> & Hb%elem_of_bits8)%list_elem_of_fmap. by rewrite !bitset_test_byte, Heq. }
    rewrite !filter_none, !app_nil_r; [by destruct d|..];
      intros i Hi%Hsame [? ?]; congruence.
  - apply diff_bits_spec. intros bit. apply elem_of_bits8.
Qed.

Lemma byte_range_seq k : range_exclusive 0 (8 * N.of_nat k) = mjoin (byte_range <$> seq 0 k).
Proof.
  induction k as [|k IH]; [done|]. rewrite seq_S, fmap_app, join_app, <-IH. cbn.
  unfold range_exclusive. replace (N.to_nat (8 * N.of_nat (S k) - 0)) with (8 * k + 8)%nat by lia.
  replace (N.to_nat (8 * N.of_nat k - 0)) with (8 * k)%nat by lia.
  rewrite seq_app, fmap_app. f_equal. rewrite ?app_nil_r. unfold byte_range, bits8. cbn [seq fmap list_fmap].
  repeat (apply (f_equal2 cons); [lia|]). done.
Qed.

Lemma diff_leafsets_filter old new :
  let all := range_exclusive 0 (8 * N.of_nat (max (length old) (length new))) in
  diff_leafsets old new = mkDiff (filter (is_added old new) all) (filter (is_added new old) all).
Proof.
  cbn zeta. rewrite byte_range_seq. unfold diff_leafsets.
  generalize (max (length old) (length new)) as k. induction k as [|k IH]; [done|].
  rewrite seq_S, foldl_snoc, IH, fmap_app, join_app, !filter_app. cbn.
  by rewrite ?app_nil_r, diff_byte_spec.
Qed.

Lemma range_exclusive_sorted lo hi : StronglySorted N.lt (range_exclusive lo hi).
Proof.
  unfold range_exclusive. generalize (N.to_nat (hi - lo)) as k, 0%nat as a.
  induction k as [|k IH]; intros a; cbn [seq fmap list_fmap]; constructor; [apply IH|].
  apply Forall_fmap, Forall_forall. intros x Hx%elem_of_seq. cbn. lia.
Qed.

(** A bit that is set lies within the set. *)
Lemma bitset_test_bound ls i : bitset_test ls i = true → i < 8 * N.of_nat (length ls).
Proof.
  unfold bitset_test. destruct (ls !! _) eqn:Hl; [|done]. apply lookup_lt_Some in Hl.
  intros _. pose proof (bits8_split i). lia.
Qed.

Lemma elem_of_diff_leafsets old new i :
  (i ∈ ld_added (diff_leafsets old new) ↔ bitset_test old i = false ∧ bitset_test new i = true) ∧
  (i ∈ ld_removed (diff_leafsets old new) ↔ bitset_test old i = true ∧ bitset_test new i = false).
Proof.
  rewrite diff_leafsets_filter. cbn [ld_added ld_removed].
  rewrite !list_elem_of_filter, elem_of_range_exclusive. unfold is_added.
  split; (split; [tauto|]); intros [H1 H2]; (split; [by split|]).
  - apply bitset_test_bound in H2. lia.
  - apply bitset_test_bound in H1. lia.
Qed.

Lemma diff_leafsets_sorted old new :
  StronglySorted N.lt (ld_added (diff_leafsets old new)) ∧
  StronglySorted N.lt (ld_removed (diff_leafsets old new)).
Proof.
  rewrite diff_leafsets_filter. cbn [ld_added ld_removed].
  split; apply StronglySorted_filter, range_exclusive_sorted.
Qed.

(** [diff_leafsets] finds, in ascending order, exactly the leaves whose bit
    was set and those whose bit was cleared, whatever the lengths of the two. *)
Theorem diff_leafsets_correct old new :
  StronglySorted N.lt (ld_added (diff_leafsets old new)) ∧
  StronglySorted N.lt (ld_removed (diff_leafsets old new)) ∧
  ∀ i, (i ∈ ld_added (diff_leafsets old new) ↔ bitset_test old i = false ∧ bitset_test new i = true) ∧
    (i ∈ ld_removed (diff_leafsets old new) ↔ bitset_test old i = true ∧ bitset_test new i = false).
Proof.
  destruct (diff_leafsets_sorted old new). split_and!; [done..|]. intros i. apply elem_of_diff_leafsets.
Qed.

Lemma leafset_has_leaf_test ls i : leafset_has_leaf ls i = bitset_test ls i.
Proof. done. Qed.

(** Starting from nothing, everything unspent is added. *)
Lemma diff_leafsets_first l : ld_added (diff_leafsets [] (ls_leafset l)) = unspent_leaf_indices l.
Proof.
  destruct (diff_leafsets_sorted [] (ls_leafset l)) as [Hs _].
  apply sorted_lt_ext; [done|apply leaf_indices_from_sorted|]. intros i.
  rewrite (proj1 (elem_of_diff_leafsets _ _ i)), elem_of_unspent_leaf_indices. naive_solver.
Qed.

(** ** Dates *)

(** The date of a leaf is the first sampled height at which the accumulator
    had grown past it, and the tip when no sample is. *)
Lemma date_leaf_index_correct hm leaf tip :
  let h := date_leaf_index hm leaf tip in
  (∃ n, hm !! h = Some n ∧ leaf < n ∧ ∀ h' n', hm !! h' = Some n' → h' < h → n' ≤ leaf) ∨
  (h = tip ∧ ∀ h' n', hm !! h' = Some n' → n' ≤ leaf).
Proof.
  cbn zeta. unfold date_leaf_index.
  destruct (list_find _ (map_iter hm)) as [[i [h n]]|] eqn:Hf.
  - left. apply list_find_Some in Hf as (Hl & Hlt & Hmin). cbn in Hlt. exists n.
    split_and!; [apply elem_of_map_iter; by eapply list_elem_of_lookup_2|done|].
    intros h' n' Hh' Hlow. apply elem_of_map_iter, list_elem_of_lookup in Hh' as [j Hj].
    destruct (decide (j < i)%nat) as [Hji|Hji].
    { apply (Hmin _ _ Hj) in Hji. cbn in Hji. lia. }
    exfalso. destruct (decide (j = i)) as [->|Hne]; [rewrite Hl in Hj; injection Hj as -> ->; lia|].
    pose proof (map_iter_sorted hm) as Hs.
    pose proof (StronglySorted_lookup _ _ i j _ _ Hs Hl Hj) as Hk.
    assert (tlt h h') as Hlt'%tlt_N by (apply Hk; lia). lia.
  - right. split; [done|]. apply list_find_None in Hf. intros h' n' Hh'%elem_of_map_iter.
    rewrite Forall_forall in Hf. apply Hf in Hh'. cbn in Hh'. lia.
Qed.

(** ** Cursors *)

Section cursor.
Context {A : Type} (p : A → bool).

Lemma count_while_le (l : list A) : (count_while p l ≤ length l)%nat.
Proof. induction l as [|a l IH]; cbn; [done|]. destruct (p a); lia. Qed.

Lemma count_while_lookup (l : list A) i a :
  l !! i = Some a → (i < count_while p l)%nat → p a = true.
Proof.
  revert i. induction l as [|b l IH]; intros [|i]; cbn; [done..| |].
  - intros [= ->]. destruct (p a); [done|lia].
  - intros Hl. destruct (p b); [|lia]. intros Hi. apply (IH i); [done|lia].
Qed.
End cursor.

Lemma skip_to_le indices i last_leaf :
  (i ≤ length indices → i ≤ skip_to indices i last_leaf ≤ length indices)%nat.
Proof.
  intros Hi. unfold skip_to. pose proof (count_while_le (λ x, x <=? last_leaf) (drop i indices)) as Hc.
  rewrite length_drop in Hc. lia.
Qed.

(** What the cursor passes is not beyond the last leaf. *)
Lemma skip_to_passed indices i last_leaf j x :
  indices !! j = Some x → (i ≤ j < skip_to indices i last_leaf)%nat → x ≤ last_leaf.
Proof.
  unfold skip_to. intros Hj [Hij Hlt].
  assert ((x <=? last_leaf) = true) as Hle; [|by apply N.leb_le].
  apply (count_while_lookup (λ x, x <=? last_leaf) (drop i indices) (j - i)); [|lia].
  rewrite lookup_drop. by replace (i + (j - i))%nat with j by lia.
Qed.

(** The cursor stops in front of a later leaf. *)
Lemma skip_to_stops indices i last_leaf x :
  indices !! skip_to indices i last_leaf = Some x → last_leaf < x.
Proof.
  unfold skip_to. rewrite <-lookup_drop. generalize (drop i indices) as l.
  induction l as [|a l IH]; cbn; [done|]. destruct (N.leb_spec a last_leaf); [exact IH|].
  by intros [= <-].
Qed.

(** In ascending indices the cursor goes just past the last leaf. *)
Lemma skip_to_sorted indices i j last_leaf :
  StronglySorted N.lt indices → indices !! j = Some last_leaf → (i ≤ j)%nat →
  skip_to indices i last_leaf = S j.
Proof.
  intros Hs Hj Hij. assert (j < length indices)%nat as Hlen by by eapply lookup_lt_Some.
  pose proof (skip_to_le indices i last_leaf ltac:(lia)) as Hk.
  destruct (lt_eq_lt_dec (skip_to indices i last_leaf) (S j)) as [[Hlt|]|Hgt]; [|done|].
  - destruct (lookup_lt_is_Some_2 indices (skip_to indices i last_leaf)) as [x Hx]; [lia|].
    pose proof (skip_to_stops _ _ _ _ Hx) as Hafter.
    destruct (decide (skip_to indices i last_leaf = j)) as [Heq|Hne]; [rewrite Heq, Hj in Hx; simplify_eq; lia|].
    pose proof (StronglySorted_lookup _ _ _ _ _ _ Hs Hx Hj ltac:(lia)). lia.
  - destruct (lookup_lt_is_Some_2 indices (S j)) as [x Hx]; [lia|].
    pose proof (skip_to_passed indices i last_leaf (S j) x Hx ltac:(lia)).
    pose proof (StronglySorted_lookup _ _ _ _ _ _ Hs Hj Hx ltac:(lia)). lia.
Qed.
