(* ===== verification/MwebSyncSpec.v ===== *)
(** * One-shot synchronisation: always over, and only coins of the chain

    The peer is not trusted.  Whatever it answers, [sync_mweb_utxos] comes to
    an end; and with anchored verification every coin left unspent in the
    database is an unspent output of the chain.  A peer that serves the whole
    set in order makes the batches add up to one scan. *)
From S2P Require Import Prelude Effects Block Tx SpkIndex MmrIndex Mmr MwebWire MmrVerify MmrPaths MmrSound BatchSpec MwebCoins MwebCoinSpec MwebKeys MwebTx MwebScan MwebBuild SecpLaws MwebScanSpec MwebAnchor MwebSync MwebSyncData MwebSyncFacts.

#[local] Open Scope N_scope.

(** ** Modes *)

(** No value of the environment variable turns verification off. *)
Lemma parse_verify_mode_not_trusted raw : parse_verify_mode raw ≠ Trusted.
Proof. unfold parse_verify_mode. by repeat case_match. Qed.

(** ** Coins of a list of entries *)

Section entries.
Context `{Blake3, Wallet, !Zkp, !MwSerialize}.
Implicit Types (keys : MasterKeys) (book : AddressBook) (db : MwebCoinDatabase).

(** The coin that the entry [e] yields, if it is ours. *)
Definition entry_coin (height_for_leaf : N → option N) (e : N * MwOutput) (c : MwebCoin) : MwebCoin :=
  set_height (with_leaf_index c e.1) (height_for_leaf e.1).

Inductive owned_entries keys book (hfl : N → option N) : list (N * MwOutput) → list MwebCoin → Prop :=
| entries_nil : owned_entries keys book hfl [] []
| entries_other e es cs :
    rewind_output keys book e.2 = Ok None → owned_entries keys book hfl es cs →
    owned_entries keys book hfl (e :: es) cs
| entries_mine e es c cs :
    rewind_output keys book e.2 = Ok (Some c) → owned_entries keys book hfl es cs →
    owned_entries keys book hfl (e :: es) (entry_coin hfl e c :: cs).

Lemma scan_utxo_entries_loop_spec keys book hfl es db found :
  match scan_utxo_entries_loop keys book hfl es db found with
  | (db', Ok found') => ∃ cs, owned_entries keys book hfl es cs ∧ found' = found ++ cs ∧
      db' = foldl coin_insert db cs
  | (db', Err e) => ∃ pre x post cs, es = pre ++ x :: post ∧
      rewind_output keys book x.2 = Err e ∧ owned_entries keys book hfl pre cs ∧
      db' = foldl coin_insert db cs
  end.
Proof.
  revert db found. induction es as [|[leaf out] es IH]; intros db found; cbn [scan_utxo_entries_loop].
  - exists []. rewrite app_nil_r. by split_and!; [constructor| |].
  - destruct (rewind_output keys book out) as [[c|]|e] eqn:Hr.
    + change (set_height (with_leaf_index c leaf) (hfl leaf)) with (entry_coin hfl (leaf, out) c).
      specialize (IH (coin_insert db (entry_coin hfl (leaf, out) c))
        (found ++ [entry_coin hfl (leaf, out) c])).
      destruct (scan_utxo_entries_loop _ _ _ _ _ _) as [db' [found'|e]].
      * destruct IH as (cs & Hcs & -> & ->). exists (entry_coin hfl (leaf, out) c :: cs).
        split_and!; [by constructor|by rewrite <-app_assoc|done].
      * destruct IH as (pre & x & post & cs & -> & He & Hcs & ->).
        exists ((leaf, out) :: pre), x, post, (entry_coin hfl (leaf, out) c :: cs).
        by split_and!; [| |constructor|].
    + specialize (IH db found). destruct (scan_utxo_entries_loop _ _ _ _ _ _) as [db' [found'|e]].
      * destruct IH as (cs & Hcs & -> & ->). exists cs. by split_and!; [constructor| |].
      * destruct IH as (pre & x & post & cs & -> & He & Hcs & ->).
        exists ((leaf, out) :: pre), x, post, cs. by split_and!; [| |constructor|].
    + exists [], (leaf, out), es, []. by split_and!; [| |constructor|].
Qed.

(** Every coin comes from an entry. *)
Lemma owned_entries_elem keys book hfl es cs c :
  owned_entries keys book hfl es cs → c ∈ cs →
  ∃ e c0, e ∈ es ∧ rewind_output keys book e.2 = Ok (Some c0) ∧ c = entry_coin hfl e c0.
Proof.
  induction 1 as [|e es cs Hr Hcs IH|e es c0 cs Hr Hcs IH].
  - by intros ?%elem_of_nil.
  - intros (e' & c' & ? & ?)%IH. exists e', c'. split; [by right|done].
  - intros [->|(e' & c' & ? & ?)%IH]%elem_of_cons.
    + exists e, c0. split_and!; [by left|done..].
    + exists e', c'. split; [by right|done].
Qed.

Lemma rewind_output_id keys book out c :
  rewind_output keys book out = Ok (Some c) → mc_output_id c = output_id out.
Proof.
  unfold rewind_output. destruct (om_standard_fields (o_message out)) as [f|]; [|done].
  case_match; [done|]. intros Hr. inv_ok. case_match; [done|]. inv_ok.
  match goal with H : match ?o with _ => _ end = _ |- _ => destruct o as [[j B]|]; [|done] end.
  unfold rewind_fields in *. inv_ok. case_decide; [done|]. case_match; [done|]. inv_ok.
  case_decide; [done|]. inv_ok. unfold owned_coin in *. by inv_ok.
Qed.

Lemma owned_entries_id keys book hfl es cs c :
  owned_entries keys book hfl es cs → c ∈ cs →
  ∃ e, e ∈ es ∧ mc_output_id c = output_id e.2 ∧ mc_leaf_index c = Some e.1 ∧
    mc_block_height c = hfl e.1.
Proof.
  intros Hcs Hc. destruct (owned_entries_elem _ _ _ _ _ _ Hcs Hc) as (e & c0 & He & Hr & ->).
  exists e. split_and!; [done| |done..]. by apply rewind_output_id in Hr.
Qed.
End entries.

(** ** Effects on the database *)

Section database.
Implicit Types (db : MwebCoinDatabase) (ids : gset Bytes32).

Lemma keyed_inserts db cs : keyed (db_coins db) → keyed (db_coins (foldl coin_insert db cs)).
Proof.
  revert db. induction cs as [|c cs IH]; intros db Hk; [done|]. apply IH. by apply keyed_insert.
Qed.

(** After inserting, a coin is one of the new ones or was there before. *)
Lemma lookup_inserts db cs id c :
  db_coins (foldl coin_insert db cs) !! id = Some c →
  (c ∈ cs ∧ mc_output_id c = id) ∨ db_coins db !! id = Some c.
Proof.
  revert db. induction cs as [|c' cs IH]; intros db; [by right|]. cbn [foldl].
  intros [[? ?]|Hl]%IH; [left; split; [by right|done]|]. cbn in Hl.
  apply lookup_insert_Some in Hl as [[<- <-]|[_ ?]]; [left; split; [by left|done]|by right].
Qed.

Lemma mark_spent_coins db id id' :
  db_coins (mark_spent db id).1 !! id' = if decide (id' = id) then None else db_coins db !! id'.
Proof.
  unfold mark_spent. destruct (db_coins db !! id) eqn:Hl; cbn.
  - case_decide; [subst; by rewrite lookup_delete_eq|by rewrite lookup_delete_ne].
  - case_decide; by subst.
Qed.

Lemma mark_absent_spec ids l db spent :
  NoDup l → (∀ id, id ∈ l → is_Some (db_coins db !! id)) →
  let '(db', spent') := foldl (mark_absent ids) (db, spent) l in
  spent' = spent ++ filter (λ id, id ∉ ids) l ∧
  ∀ id, db_coins db' !! id = if decide (id ∈ l ∧ id ∉ ids) then None else db_coins db !! id.
Proof.
  revert db spent. induction l as [|id l IH]; intros db spent Hnd Hin; cbn [foldl].
  - split; [by rewrite app_nil_r|]. intros id. rewrite decide_False; [done|]. intros [?%elem_of_nil _]. done.
  - apply NoDup_cons in Hnd as [Hid Hnd]. rewrite filter_cons. unfold mark_absent at 2. cbn [fst snd].
    destruct (decide (id ∈ ids)) as [Hi|Hi].
    + rewrite decide_False by tauto. specialize (IH db spent Hnd (λ i Hl, Hin i ltac:(by right))).
      destruct (foldl _ _ _) as [db' spent']. destruct IH as [-> Hl]. split; [done|].
      intros id'. rewrite Hl. repeat case_decide; try done; set_solver.
    + rewrite decide_True by done. destruct (Hin id) as [c Hc]; [by left|].
      assert ((mark_spent db id).2 = true) as Hm by (unfold mark_spent; by rewrite Hc).
      pose proof (mark_spent_coins db id) as Hms.
      destruct (mark_spent db id) as [db1 marked]. cbn [fst snd] in *. subst marked.
      specialize (IH db1 (spent ++ [id]) Hnd).
      destruct (foldl _ _ _) as [db' spent']. destruct IH as [-> Hl].
      { intros i Hi'. rewrite Hms, decide_False by (by intros ->). apply Hin. by right. }
      split; [by rewrite <-app_assoc|]. intros id'. rewrite Hl, Hms.
      repeat case_decide; try done; set_solver.
Qed.

Lemma unspent_ids db : keyed (db_coins db) → mc_output_id <$> unspent db = (map_iter (db_coins db)).*1.
Proof.
  intros Hk. unfold unspent. rewrite <-list_fmap_compose. apply list_fmap_ext.
  intros i [id c] Hl. cbn. apply Hk. apply elem_of_map_iter. by eapply list_elem_of_lookup_2.
Qed.

Lemma elem_of_map_iter_fst {V} (m : gmap Bytes32 V) id : id ∈ (map_iter m).*1 ↔ is_Some (m !! id).
Proof.
  rewrite list_elem_of_fmap. split.
  - intros ([? v] & -> & ?%elem_of_map_iter). by exists v.
  - intros [v ?%elem_of_map_iter]. by exists (id, v).
Qed.

(** What the marking at the end leaves: the coins that were downloaded. *)
Lemma mark_absent_unspent ids db :
  keyed (db_coins db) →
  let '(db', spent) := foldl (mark_absent ids) (db, []) (mc_output_id <$> unspent db) in
  spent = filter (λ id, id ∉ ids) (map_iter (db_coins db)).*1 ∧
  ∀ id, db_coins db' !! id = if decide (id ∈ ids) then db_coins db !! id else None.
Proof.
  intros Hk. rewrite unspent_ids by done.
  pose proof (mark_absent_spec ids (map_iter (db_coins db)).*1 db []) as Hspec.
  destruct (foldl _ _ _) as [db' spent].
  destruct Hspec as [-> Hl]; [apply NoDup_map_iter|intros id; apply elem_of_map_iter_fst|].
  split; [done|]. intros id. rewrite Hl.
  case_decide as Hin; rewrite elem_of_map_iter_fst in Hin; case_decide; try done; [tauto|].
  apply eq_None_not_Some. tauto.
Qed.
End database.

(** ** The download *)

Section download.
Context `{Blake3, Wallet, !Zkp, !MwSerialize, MerkleProofs, !MerkleLaws}.
Context {Src : Type} `{!MwebUtxoSource Src} (delivers : Message → Prop) `{!MwebUtxoSourceLaws Src delivers}.
Implicit Types (keys : MasterKeys) (book : AddressBook) (db : MwebCoinDatabase) (batch : MwebUtxos).

(** A batch that passes the checks. *)
Definition accepted (header : option MwebBlockHeader) (leafset : MwebLeafset) batch : Prop :=
  delivers (MsgUtxos batch) ∧ mu_output_format batch = OUTPUT_FORMAT_FULL ∧
  verify_batch header leafset batch = Some (Ok tt).

Lemma verify_batch_total header leafset batch : is_Some (verify_batch header leafset batch).
Proof.
  destruct header as [hdr|]; cbn [verify_batch]; [|by eexists].
  destruct (verify_utxo_batch_total batch leafset hdr) as (r & -> & _). by eexists.
Qed.

Lemma wp_get_utxos req (s : Src) (Q : result Error MwebUtxos → Src → Prop) :
  (∀ batch s', delivers (MsgUtxos batch) → Q (Ok batch) s') → (∀ e s', Q (Err e) s') → wp (get_utxos req) s Q.
Proof.
  intros HOk HErr. apply wp_total; [apply get_utxos_total|]. intros [batch|e] s' Hg; [|apply HErr].
  apply HOk. by eapply get_utxos_delivers.
Qed.

Lemma wp_fetch_batch block_hash size header leafset start (s : Src)
    (Q : result Error MwebUtxos → Src → Prop) :
  (∀ batch s', accepted header leafset batch → Q (Ok batch) s') → (∀ e s', Q (Err e) s') →
  wp (fetch_batch block_hash size header leafset start) s Q.
Proof.
  intros HOk HErr. unfold fetch_batch. apply wp_bind, wp_get_utxos; cbn [post]; [|auto].
  intros batch s' Hs. case_decide as Hf; [by apply wp_fail|].
  apply wp_bind. destruct (verify_batch_total header leafset batch) as [r Hr].
  apply (wp_lift_panic _ r); [done|]. destruct r as [[]|e]; cbn [post]; [|by apply HErr].
  apply wp_mret, HOk. done.
Qed.

(** The header comes from the peer, anchored in the mode that asks for it. *)
Lemma wp_fetch_header verify block_hash (s : Src) (Q : result Error (option MwebBlockHeader) → Src → Prop) :
  (verify = Trusted → ∀ s', Q (Ok None) s') →
  (∀ msg s', verify ≠ Trusted → delivers (MsgHeader msg) →
    (verify = Anchored → verify_anchored msg block_hash = Some (Ok tt)) →
    Q (Ok (Some (hm_mweb_header msg))) s') →
  (∀ e s', Q (Err e) s') → wp (fetch_header verify block_hash) s Q.
Proof.
  intros HNone HSome HErr. unfold fetch_header.
  destruct verify; cbn [needs_header is_anchored]; [by apply wp_mret, HNone|..];
    (apply wp_bind, wp_total; [apply get_header_total|]);
    (intros [msg|e] s' Hg; cbn [post]; [apply get_header_delivers in Hg|apply HErr]).
  - apply wp_bind, wp_mret, wp_mret. by apply HSome.
  - apply wp_bind. destruct (verify_anchored_total msg block_hash) as [r Hr].
    apply (wp_lift_panic _ r); [done|]. destruct r as [[]|e]; cbn [post]; [|apply HErr].
    apply wp_mret. by apply HSome.
Qed.

Lemma wp_fetch_leafset block_hash header (s : Src) (Q : result Error MwebLeafset → Src → Prop) :
  (∀ leafset s', ls_block_hash leafset = block_hash → delivers (MsgLeafset leafset) →
    (∀ hdr, header = Some hdr →
      verify_leafset_at leafset block_hash (mh_leafset_root hdr) (mh_output_mmr_size hdr) = Ok tt) →
    Q (Ok leafset) s') →
  (∀ e s', Q (Err e) s') → wp (fetch_leafset block_hash header) s Q.
Proof.
  intros HOk HErr. unfold fetch_leafset. apply wp_bind, wp_total; [apply get_leafset_total|].
  intros [leafset|e] s' Hg; cbn [post]; [apply get_leafset_delivers in Hg|apply HErr].
  case_decide as Hb; [by apply wp_fail|]. destruct header as [hdr|].
  - apply wp_bind, wp_lift. destruct (verify_leafset_at _ _ _ _) as [[]|e] eqn:Hv; cbn [post]; [|apply HErr].
    apply wp_mret. apply HOk; [done..|]. by intros hdr' [= <-].
  - apply wp_mret. by apply HOk.
Qed.

(** The loop ends within a turn per index, and what it collects are the
    entries of accepted batches. *)
Lemma wp_download fuel block_hash size header leafset indices i buf (s : Src) (I : Buffer → Prop) :
  (length indices - i ≤ fuel)%nat → (i ≤ length indices)%nat → I buf →
  (∀ buf batch n, I buf → accepted header leafset batch →
    I (mkBuffer (bu_ids (buffer_batch buf batch)) (bu_entries (buffer_batch buf batch)) n)) →
  wp (download fuel block_hash size header leafset indices i buf) s (post (λ buf _, I buf) (λ _ _, True)).
Proof.
  intros Hfuel Hi HI Hstep. revert i buf s Hfuel Hi HI.
  induction fuel as [|fuel IH]; intros i buf s Hfuel Hi HI; cbn [download];
    destruct (indices !! i) as [start|] eqn:Hl; try by apply wp_mret.
  - apply lookup_lt_Some in Hl. lia.
  - apply wp_bind, wp_fetch_batch; cbn [post]; [|done]. intros batch s' Hacc.
    case_decide; [by apply wp_mret|]. apply wp_bind, wp_lift.
    destruct (check_batch_advances batch start) as [[]|e]; cbn [post]; [|done].
    case_match; [by apply wp_fail|]. case_decide as Hne; [by apply wp_fail|].
    pose proof (skip_to_le indices i (last_leaf_of batch start) Hi).
    apply IH; [lia|lia|]. by apply Hstep.
Qed.

(** The entries are those of accepted batches, the ids theirs. *)
Definition buffer_ok (header : option MwebBlockHeader) (leafset : MwebLeafset) (buf : Buffer) : Prop :=
  (∀ e, e ∈ bu_entries buf → ∃ batch u, accepted header leafset batch ∧ u ∈ mu_utxos batch ∧ e = entry_pair u) ∧
  (∀ id, id ∈ bu_ids buf ↔ ∃ e, e ∈ bu_entries buf ∧ id = output_id e.2).

Lemma elem_of_fold_ids (ids : gset Bytes32) (l : list MwebUtxoEntry) (id : Bytes32) :
  id ∈ foldl (λ ids e, {[output_id (ue_output e)]} ∪ ids) ids l ↔
  id ∈ ids ∨ ∃ e, e ∈ l ∧ id = output_id (ue_output e).
Proof.
  revert ids. induction l as [|e l IH]; intros ids; cbn [foldl].
  - split; [by left|]. by intros [?|(e & ?%elem_of_nil & _)].
  - rewrite IH, elem_of_union, elem_of_singleton. setoid_rewrite elem_of_cons. naive_solver.
Qed.

Lemma buffer_ok_step header leafset buf batch n :
  buffer_ok header leafset buf → accepted header leafset batch →
  buffer_ok header leafset
    (mkBuffer (bu_ids (buffer_batch buf batch)) (bu_entries (buffer_batch buf batch)) n).
Proof.
  intros [He Hi] Hacc. unfold buffer_batch. split; cbn [bu_ids bu_entries].
  - intros e [?%He|(u & -> & Hu)%list_elem_of_fmap]%elem_of_app; [done|]. by exists batch, u.
  - intros id. rewrite elem_of_fold_ids, Hi. setoid_rewrite elem_of_app. setoid_rewrite list_elem_of_fmap.
    split.
    + intros [(e & ? & ->)|(u & Hu & ->)]; [by exists e; auto|]. exists (entry_pair u). eauto.
    + intros (e & [?|(u & -> & Hu)] & ->); [left; by exists e|right; by exists u].
Qed.

Lemma buffer_ok_empty header leafset : buffer_ok header leafset buffer_empty.
Proof.
  split; cbn; [intros e He; by apply elem_of_nil in He|]. intros id. split.
  - intros Hin. by apply elem_of_empty in Hin.
  - intros (e & He & _). by apply elem_of_nil in He.
Qed.

(** ** The whole synchronisation *)

(** What a finished synchronisation has established. *)
Record synced keys book (block_hash : BlockHash) (tip_height : option N) (verify : VerifyMode) db
    (header : option MwebBlockHeader) (leafset : MwebLeafset) (buf : Buffer) (res : SyncResult) db' : Prop := {
  sd_trusted : verify = Trusted → header = None;
  sd_anchored : verify = Anchored →
    ∃ msg, delivers (MsgHeader msg) ∧ verify_anchored msg block_hash = Some (Ok tt) ∧
      header = Some (hm_mweb_header msg);
  sd_delivered : delivers (MsgLeafset leafset);
  sd_leafset : ∀ hdr, header = Some hdr →
    verify_leafset_at leafset block_hash (mh_leafset_root hdr) (mh_output_mmr_size hdr) = Ok tt;
  sd_buffer : buffer_ok header leafset buf;
  sd_found : owned_entries keys book (λ _, tip_height) (bu_entries buf) (sr_found res);
  sd_spent : sr_spent res = filter (λ id, id ∉ bu_ids buf)
    (map_iter (db_coins (foldl coin_insert db (sr_found res)))).*1;
  sd_coins : ∀ id, db_coins db' !! id =
    if decide (id ∈ bu_ids buf) then db_coins (foldl coin_insert db (sr_found res)) !! id else None;
}.

Lemma wp_finish_sync keys book tip_height header buf db (Q : result Error SyncResult → MwebCoinDatabase → Prop) :
  keyed (db_coins db) →
  (∀ res db', owned_entries keys book (λ _, tip_height) (bu_entries buf) (sr_found res) →
    sr_spent res = filter (λ id, id ∉ bu_ids buf)
      (map_iter (db_coins (foldl coin_insert db (sr_found res)))).*1 →
    (∀ id, db_coins db' !! id =
      if decide (id ∈ bu_ids buf) then db_coins (foldl coin_insert db (sr_found res)) !! id else None) →
    Q (Ok res) db') →
  (∀ e cs, Q (Err e) (foldl coin_insert db cs)) →
  wp (finish_sync keys book tip_height header buf) db Q.
Proof.
  intros Hk HOk HErr. unfold finish_sync. apply wp_bind, wp_state_fn. unfold scan_utxo_entries_at.
  pose proof (scan_utxo_entries_loop_spec keys book (λ _, tip_height) (bu_entries buf) db []) as Hscan.
  destruct (scan_utxo_entries_loop _ _ _ _ _ _) as [db1 [found|e]]; cbn [fst snd post].
  - destruct Hscan as (cs & Hcs & -> & ->). cbn [app]. apply wp_bind, wp_get; cbn [post].
    pose proof (mark_absent_unspent (bu_ids buf) _ (keyed_inserts db cs Hk)) as Hmark.
    destruct (foldl (mark_absent _) _ _) as [db2 spent]. destruct Hmark as [-> Hl].
    apply wp_bind, wp_modify, wp_mret. by apply HOk.
  - destruct Hscan as (pre & x & post & cs & _ & _ & _ & ->). apply HErr.
Qed.

(** Up to the scan, by what the header and the leafset have been through. *)
Lemma wp_sync keys book block_hash tip_height size verify (s : Src) db
    (Q : result Error SyncResult → Src * MwebCoinDatabase → Prop) :
  (∀ header leafset buf s', (verify = Trusted → header = None) →
    (verify = Anchored → ∃ msg, delivers (MsgHeader msg) ∧ verify_anchored msg block_hash = Some (Ok tt) ∧
      header = Some (hm_mweb_header msg)) → delivers (MsgLeafset leafset) →
    (∀ hdr, header = Some hdr →
      verify_leafset_at leafset block_hash (mh_leafset_root hdr) (mh_output_mmr_size hdr) = Ok tt) →
    buffer_ok header leafset buf →
    wp (finish_sync keys book tip_height header buf) db (λ r db', Q r (s', db'))) →
  (∀ e s', Q (Err e) (s', db)) →
  wp (sync_mweb_utxos keys book block_hash tip_height size verify) (s, db) Q.
Proof.
  intros Hfin HErr. unfold sync_mweb_utxos. apply wp_bind, wp_on_fst.
  apply (wp_mono _ _ (post (λ header _, (verify = Trusted → header = None) ∧
    (verify = Anchored → ∃ msg, delivers (MsgHeader msg) ∧ verify_anchored msg block_hash = Some (Ok tt) ∧
      header = Some (hm_mweb_header msg))) (λ _ _, True))).
  { apply wp_fetch_header; cbn [post]; [naive_solver| |done].
    intros msg _ Hne Hdel Hanch. split; [done|]. eauto. }
  intros [header|e] s1; cbn [post]; [|by intros _]. intros [Ht Ha].
  apply wp_bind, wp_on_fst, wp_fetch_leafset; cbn [post]; [|by auto].
  intros leafset s2 _ Hdel Hls. apply wp_bind, wp_on_fst. eapply wp_mono.
  { apply wp_download with (I := buffer_ok header leafset); [lia..| |by intros; apply buffer_ok_step].
    by apply buffer_ok_empty. }
  intros [buf|e] s3; cbn [post]; [|by auto]. intros Hbuf. apply wp_on_snd. by apply (Hfin header leafset).
Qed.

Lemma finish_sync_returns keys book tip_height header buf :
  returns (finish_sync keys book tip_height header buf).
Proof.
  intros db. enough (wp (finish_sync keys book tip_height header buf) db (λ _ _, True))
    as (r & db' & Hr & _) by (by exists (r, db')).
  apply wp_bind, wp_state_fn. destruct (scan_utxo_entries_at _ _ _ _ _) as [db1 [found|e]]; cbn [fst snd post]; [|done].
  apply wp_bind, wp_get; cbn [post]. destruct (foldl _ _ _) as [db2 spent].
  by apply wp_bind, wp_modify, wp_mret.
Qed.

(** C18. [sync_mweb_utxos] comes back, with a result or an error, for every peer
    that answers requests at all, whatever the answers: replayed, empty or
    reordered batches cannot make it run on, nor panic. *)
Theorem sync_mweb_utxos_returns keys book block_hash tip_height size verify (s : Src) db :
  is_Some (sync_mweb_utxos keys book block_hash tip_height size verify (s, db)).
Proof.
  enough (wp (sync_mweb_utxos keys book block_hash tip_height size verify) (s, db) (λ _ _, True))
    as (r & s' & Hr & _) by (by exists (r, s')).
  apply wp_sync; [|done]. intros header leafset buf s' _ _ _ _ _.
  destruct (finish_sync_returns keys book tip_height header buf db) as [[r db'] Hr]. by exists r, db'.
Qed.

(** ** Soundness *)

Context `{!SecpLaws, !ZkpLaws, !WalletLaws, !MwLaws}.

Lemma genuine_entry_coin hfl e c : genuine c → genuine (entry_coin hfl e c).
Proof. intros [Hc Ha Hkey]. by split. Qed.

(** An entry of an accepted batch is an unspent output of the set the header
    commits to. *)
Lemma accepted_entry ids hdr leafset batch u :
  mh_output_root hdr = reference_root ids → mh_output_mmr_size hdr = num_ids ids →
  collision_free (mmr_payloads ids ++ batch_payloads batch leafset hdr) →
  accepted (Some hdr) leafset batch → u ∈ mu_utxos batch →
  ids !! N.to_nat (ue_leaf_index u) = Some (output_id (ue_output u)) ∧
  bitset_test (ls_leafset leafset) (ue_leaf_index u) = true.
Proof.
  intros Hroot Hsize Hcf (_ & _ & Hv) Hu.
  by apply (accepted_batch_entry ids batch leafset hdr).
Qed.

(** C14. An anchored synchronisation that succeeds leaves no coin unspent in the
    database that is not an unspent output of the chain, wherever the coin came
    from.  Each coin reported as found lies at a leaf of the set, is genuine
    and carries the height; each coin reported as spent was ours and is gone. *)
Theorem sync_mweb_utxos_sound keys gap book block_hash tip_height size hdr ids (s s' : Src) db db' res :
  book_from_keys keys gap = Ok book → keyed (db_coins db) →
  mh_output_root hdr = reference_root ids → mh_output_mmr_size hdr = num_ids ids →
  (∀ msg, delivers (MsgHeader msg) → verify_anchored msg block_hash = Some (Ok tt) →
    hm_mweb_header msg = hdr) →
  (∀ batch leafset, delivers (MsgUtxos batch) → delivers (MsgLeafset leafset) →
    verify_leafset_at leafset block_hash (mh_leafset_root hdr) (mh_output_mmr_size hdr) = Ok tt →
    collision_free (mmr_payloads ids ++ batch_payloads batch leafset hdr)) →
  sync_mweb_utxos keys book block_hash tip_height size Anchored (s, db) = Some (Ok res, (s', db')) →
  ∃ leafset, verify_leafset_at leafset block_hash (mh_leafset_root hdr) (mh_output_mmr_size hdr) = Ok tt ∧
    let unspent_output leaf id :=
      ids !! N.to_nat leaf = Some id ∧ bitset_test (ls_leafset leafset) leaf = true in
    (∀ id, is_Some (db_coins db' !! id) → ∃ leaf, unspent_output leaf id) ∧
    (∀ c, c ∈ sr_found res → genuine c ∧ mc_block_height c = tip_height ∧
      ∃ leaf, mc_leaf_index c = Some leaf ∧ unspent_output leaf (mc_output_id c)) ∧
    (∀ id, id ∈ sr_spent res → is_Some (db_coins db !! id) ∧ db_coins db' !! id = None).
Proof.
  intros Hbook%book_from_keys_spec Hk Hroot Hsize Hanch Hcf Hrun.
  assert (wp (sync_mweb_utxos keys book block_hash tip_height size Anchored) (s, db)
    (post (λ res sd, ∃ header leafset buf,
      synced keys book block_hash tip_height Anchored db header leafset buf res sd.2) (λ _ _, True)))
    as Hwp.
  { apply wp_sync; [|done]. intros header leafset buf s1 Ht Ha Hdel Hls Hbuf.
    apply wp_finish_sync; [done| |done]. intros r d Hf Hsp Hc. exists header, leafset, buf. by split. }
  apply (wp_run _ _ _ _ _ Hwp) in Hrun. cbn [post snd] in Hrun.
  destruct Hrun as (header & leafset & buf & [_ Ha Hdel Hls [Hent Hids] Hfound Hspent Hcoins]).
  destruct (Ha eq_refl) as (msg & Hdm & Hmsg & ->). rewrite (Hanch msg Hdm Hmsg) in *. clear Ha.
  assert (∀ e, e ∈ bu_entries buf → ids !! N.to_nat e.1 = Some (output_id e.2) ∧
    bitset_test (ls_leafset leafset) e.1 = true) as Hunspent.
  { intros e He. destruct (Hent e He) as (batch & u & Hacc & Hu & ->). cbn [entry_pair fst snd].
    apply (accepted_entry ids hdr leafset batch); [done..| |done|done]. apply Hcf; [apply Hacc|done|by apply Hls]. }
  exists leafset. split; [by apply Hls|]. cbn zeta. split_and!.
  - intros id. rewrite Hcoins. case_decide as Hin; [|by intros [? ?]]. intros _.
    apply Hids in Hin as (e & He & ->). exists e.1. by apply Hunspent.
  - intros c Hc. destruct (owned_entries_elem _ _ _ _ _ _ Hfound Hc) as (e & c0 & He & Hr & ->).
    pose proof (rewind_output_id _ _ _ _ Hr) as Hid. apply (rewind_found _ gap) in Hr; [|done].
    split_and!; [apply genuine_entry_coin, Hr|done|]. exists e.1. split; [done|].
    cbn. rewrite Hid. by apply Hunspent.
  - intros id. rewrite Hspent, Hcoins. intros [Hnot Hin]%list_elem_of_filter.
    rewrite decide_False by done. split; [|done]. apply elem_of_map_iter_fst in Hin as [c Hc].
    apply lookup_inserts in Hc as [[Hc <-]|Hc]; [|by exists c]. destruct Hnot.
    destruct (owned_entries_id _ _ _ _ _ _ Hfound Hc) as (e & He & -> & _). apply Hids. by exists e.
Qed.
End download.

(** ** The scripted peer *)

Section scripted.
Context `{Blake3, Wallet, !Zkp, !MwSerialize, MerkleProofs}.
Implicit Types (keys : MasterKeys) (book : AddressBook) (db : MwebCoinDatabase).
Implicit Types (sc : ScriptedMwebSource) (catalog : list (N * MwOutput)).

Definition to_entry (u : N * MwOutput) : MwebUtxoEntry := mkMwebUtxoEntry _ u.1 (u.2 : Output).

Lemma serve_entries req l acc :
  (length acc ≤ N.to_nat (gu_num_requested req))%nat →
  foldl (serve_entry req) acc l =
  acc ++ take (N.to_nat (gu_num_requested req) - length acc)
    (to_entry <$> filter (λ u : N * Output, gu_start_index req ≤ u.1) l).
Proof.
  revert acc. induction l as [|u l IH]; intros acc Hacc; cbn [foldl].
  - rewrite filter_nil. cbn. by rewrite take_nil, app_nil_r.
  - rewrite filter_cons. unfold serve_entry at 2.
    destruct (N.leb_spec (gu_start_index req) (u.1)); cbn [andb].
    + rewrite decide_True by done. destruct (N.ltb_spec (N.of_nat (length acc)) (gu_num_requested req)).
      * rewrite IH by (rewrite length_app; cbn; lia). rewrite <-app_assoc, length_app. cbn.
        replace (N.to_nat (gu_num_requested req) - length acc)%nat
          with (S (N.to_nat (gu_num_requested req) - (length acc + 1))) by lia. done.
      * rewrite IH by done.
        by replace (N.to_nat (gu_num_requested req) - length acc)%nat with 0%nat by lia.
    + rewrite decide_False by lia. by apply IH.
Qed.

(** From a leaf of an ascending catalog on. *)
Lemma filter_from catalog i start :
  StronglySorted N.lt catalog.*1 → catalog.*1 !! i = Some start →
  filter (λ u : N * MwOutput, start ≤ u.1) catalog = drop i catalog.
Proof.
  revert i. induction catalog as [|u catalog IH]; intros i Hs Hi; [done|]. cbn in Hs, Hi.
  apply StronglySorted_inv in Hs as [Hs Hu]. rewrite filter_cons. destruct i as [|i]; cbn in Hi |- *.
  - injection Hi as <-. rewrite decide_True by done. f_equal. apply filter_all.
    intros x Hx. apply (list_elem_of_fmap_2 fst) in Hx. rewrite Forall_forall in Hu. apply Hu in Hx. lia.
  - rewrite decide_False; [by apply IH|].
    apply list_elem_of_lookup_2 in Hi. rewrite Forall_forall in Hu. apply Hu in Hi. lia.
Qed.

(** The peer serves [catalog], all of it, whose leaves are those of the leafset. *)
Record serves sc catalog (leafset : MwebLeafset) : Prop := {
  sv_utxos : sc_utxos sc = catalog;
  sv_leafset : sc_leafset sc = leafset;
  sv_leaves : catalog.*1 = unspent_leaf_indices leafset;
  sv_parents : sc_parent_hashes sc ≠ [];
}.

Lemma scripted_batch sc catalog leafset block_hash size i start :
  serves sc catalog leafset → catalog.*1 !! i = Some start →
  fetch_batch block_hash size None leafset start sc =
  Some (Ok (mkMwebUtxos _ block_hash start OUTPUT_FORMAT_FULL
    (to_entry <$> take (N.to_nat size) (drop i catalog)) (sc_parent_hashes sc)), sc).
Proof.
  intros [Hu _ Hleaves Hp] Hi. unfold fetch_batch, mbind, eff_bind.
  cbn [get_utxos scripted_source]. unfold scripted_get_utxos.
  rewrite serve_entries by (cbn; lia). cbn [gu_num_requested gu_start_index gu_block_hash length app].
  rewrite Hu, Nat.sub_0_r, (filter_from catalog i); [|rewrite Hleaves; apply leaf_indices_from_sorted|done].
  rewrite decide_False by (cbn; tauto). cbn [verify_batch]. unfold verify_parent_hashes_present.
  cbn [mu_parent_hashes mu_utxos]. rewrite (bool_decide_eq_false_2 (sc_parent_hashes sc = [])) by done.
  rewrite andb_false_r. by rewrite <-fmap_take.
Qed.

Definition catalog_ids (l : list (N * MwOutput)) (ids : gset Bytes32) : gset Bytes32 :=
  foldl (λ ids u, {[output_id (u.2 : Output)]} ∪ ids) ids l.

(** What the buffer holds when the first [i] entries are in. *)
Definition buffer_upto catalog (i : nat) : Buffer :=
  mkBuffer (catalog_ids (take i catalog) ∅) (take i catalog) (N.of_nat (length (take i catalog))).

Lemma catalog_ids_entries l ids :
  foldl (λ ids e, {[output_id (ue_output e)]} ∪ ids) ids (to_entry <$> l) = catalog_ids l ids.
Proof. unfold catalog_ids. revert ids. induction l as [|u l IH]; intros ids; cbn; [done|apply IH]. Qed.

Lemma entry_pair_to_entry (l : list (N * MwOutput)) : entry_pair <$> (to_entry <$> l) = l.
Proof.
  rewrite <-list_fmap_compose. rewrite <-(list_fmap_id l) at 2. apply list_fmap_ext. by intros i [].
Qed.

Lemma buffer_batch_upto catalog i n block_hash start parents :
  (i ≤ length catalog)%nat →
  buffer_batch (buffer_upto catalog i)
    (mkMwebUtxos _ block_hash start OUTPUT_FORMAT_FULL (to_entry <$> take n (drop i catalog)) parents) =
  mkBuffer (catalog_ids (take (i + n) catalog) ∅) (take (i + n) catalog) (N.of_nat (length (take i catalog))).
Proof.
  intros Hi. unfold buffer_batch, buffer_upto. cbn [bu_ids bu_entries bu_downloaded mu_utxos].
  rewrite catalog_ids_entries, entry_pair_to_entry, take_take_drop. f_equal.
  rewrite <-(take_take_drop catalog i n). unfold catalog_ids. by rewrite foldl_app.
Qed.

Lemma last_to_entry catalog i n :
  (i < length catalog)%nat → (0 < n)%nat →
  last (to_entry <$> take n (drop i catalog)) = to_entry <$> catalog !! (i + n `min` (length catalog - i) - 1)%nat.
Proof.
  intros Hi Hn. rewrite fmap_last, last_lookup, length_take, length_drop. f_equal.
  rewrite lookup_take_lt, lookup_drop by lia. f_equal. lia.
Qed.

Lemma download_turn {Src} `{!MwebUtxoSource Src} fuel block_hash size header leafset indices i start next
    buf batch (s s1 : Src) :
  indices !! i = Some start →
  fetch_batch block_hash size header leafset start s = Some (Ok batch, s1) →
  mu_utxos batch ≠ [] → check_batch_advances batch start = Ok tt →
  N.of_nat (length (bu_entries (buffer_batch buf batch))) ≤ MAX_BUFFERED_ENTRIES →
  skip_to indices i (last_leaf_of batch start) = next → next ≠ i →
  download (S fuel) block_hash size header leafset indices i buf s =
  download fuel block_hash size header leafset indices next
    (mkBuffer (bu_ids (buffer_batch buf batch)) (bu_entries (buffer_batch buf batch))
      (saturating_add_usize (bu_downloaded buf) (N.of_nat (length (mu_utxos batch))))) s1.
Proof.
  intros Hi Hf Hne Hadv Hlen Hnext Hni. cbn [download]. rewrite Hi.
  unfold mbind at 1, eff_bind at 1. rewrite Hf, decide_False by done.
  unfold mbind, eff_bind, lift. rewrite Hadv.
  destruct (N.ltb_spec MAX_BUFFERED_ENTRIES (N.of_nat (length (bu_entries (buffer_batch buf batch)))));
    [lia|]. rewrite Hnext. by rewrite decide_False.
Qed.

Lemma scripted_download sc catalog leafset block_hash size fuel i :
  serves sc catalog leafset → 1 ≤ size → N.of_nat (length catalog) ≤ MAX_BUFFERED_ENTRIES →
  (length catalog - i ≤ fuel)%nat → (i ≤ length catalog)%nat →
  download fuel block_hash size None leafset (unspent_leaf_indices leafset) i (buffer_upto catalog i) sc =
  Some (Ok (buffer_upto catalog (length catalog)), sc).
Proof.
  intros Hsv Hsize Hmax. destruct (Hsv) as [Hu _ Hleaves _]. rewrite <-Hleaves.
  assert (StronglySorted N.lt catalog.*1) as Hs by (rewrite Hleaves; apply leaf_indices_from_sorted).
  revert i. induction fuel as [|fuel IH]; intros i Hfuel Hi.
  { replace i with (length catalog) by lia. cbn [download].
    by rewrite (lookup_ge_None_2 catalog.*1) by (rewrite length_fmap; lia). }
  destruct (catalog.*1 !! i) as [start|] eqn:Hl.
  2:{ cbn [download]. rewrite Hl. apply lookup_ge_None in Hl. rewrite length_fmap in Hl.
      by replace i with (length catalog) by lia. }
  pose proof (lookup_lt_Some _ _ _ Hl) as Hlt. rewrite length_fmap in Hlt.
  set (m := (N.to_nat size `min` (length catalog - i))%nat).
  assert (length (take (N.to_nat size) (drop i catalog)) = m) as Hm by by rewrite length_take, length_drop.
  assert (∃ u, catalog !! (i + m - 1)%nat = Some u) as [u Hlast] by (apply lookup_lt_is_Some; lia).
  erewrite (download_turn _ _ _ _ _ _ i start (i + m)%nat); [|done|by apply scripted_batch|..].
  - rewrite buffer_batch_upto by lia. cbn [bu_ids bu_entries bu_downloaded buffer_upto mu_utxos].
    assert (take (i + N.to_nat size) catalog = take (i + m) catalog) as ->.
    { destruct (decide (N.to_nat size ≤ length catalog - i)%nat).
      - f_equal. lia.
      - rewrite !take_ge by lia. done. }
    rewrite length_fmap, Hm. rewrite <-(IH (i + m)%nat) by lia. f_equal. unfold buffer_upto. f_equal.
    rewrite !length_take. unfold saturating_add_usize.
    unfold MAX_BUFFERED_ENTRIES in Hmax. unfold U64_MAX. lia.
  - cbn [mu_utxos]. intros Hnil. apply (f_equal length) in Hnil. rewrite length_fmap, Hm in Hnil. cbn in Hnil. lia.
  - unfold check_batch_advances. cbn [mu_utxos].
    destruct (catalog !! i) as [v|] eqn:Hv; [|apply lookup_ge_None in Hv; lia].
    rewrite (drop_S _ _ _ Hv). replace (N.to_nat size) with (S (N.to_nat size - 1)) by lia. cbn.
    rewrite list_lookup_fmap, Hv in Hl. injection Hl as <-. by rewrite N.ltb_irrefl.
  - rewrite buffer_batch_upto by lia. cbn [bu_entries]. rewrite length_take. lia.
  - unfold last_leaf_of. cbn [mu_utxos]. rewrite last_to_entry by lia.
    replace (i + N.to_nat size `min` (length catalog - i) - 1)%nat with (i + m - 1)%nat by lia.
    rewrite Hlast. cbn. replace (i + m)%nat with (S (i + m - 1)) by lia.
    apply skip_to_sorted; [done| |lia]. by rewrite list_lookup_fmap, Hlast.
  - lia.
Qed.

(** Batches of any size add up to one scan: against a peer that serves the
    whole unspent set, the synchronisation finds and marks exactly what a single
    scan of the set followed by marking does. *)
Theorem sync_batches_add_up keys book sc catalog leafset block_hash tip_height size db :
  serves sc catalog leafset → ls_block_hash leafset = block_hash →
  1 ≤ size → N.of_nat (length catalog) ≤ MAX_BUFFERED_ENTRIES →
  sync_mweb_utxos keys book block_hash tip_height size Trusted (sc, db) =
  match finish_sync keys book tip_height None (buffer_upto catalog (length catalog)) db with
  | Some (r, db') => Some (r, (sc, db'))
  | None => None
  end.
Proof.
  intros Hsv Hb Hsize Hmax. unfold sync_mweb_utxos.
  assert (fetch_leafset block_hash None sc = Some (Ok leafset, sc)) as Hleafset.
  { unfold fetch_leafset, mbind, eff_bind. cbn [get_leafset scripted_source].
    rewrite (sv_leafset _ _ _ Hsv). rewrite decide_True by done. by rewrite decide_False by auto. }
  assert (length (unspent_leaf_indices leafset) = length catalog) as Hlen.
  { by rewrite <-(sv_leaves _ _ _ Hsv), length_fmap. }
  pose proof (scripted_download sc catalog leafset block_hash size (length catalog) 0 Hsv Hsize Hmax
    ltac:(lia) ltac:(lia)) as Hdown.
  change (buffer_upto catalog 0) with buffer_empty in Hdown.
  unfold mbind at 1, eff_bind at 1, on_fst at 1, zoom at 1. cbn [fst snd fetch_header needs_header].
  unfold mret, eff_ret. unfold mbind at 1, eff_bind at 1, on_fst at 1, zoom at 1. cbn [fst snd].
  rewrite Hleafset. unfold mbind, eff_bind, on_fst, on_snd, zoom. cbn [fst snd].
  rewrite Hlen, Hdown. cbn [fst snd]. by destruct (finish_sync _ _ _ _ _ db) as [[r db']|].
Qed.

(** A peer that answers with an empty batch is believed: the synchronisation
    succeeds, and all coins count as spent, although the leafset it has just
    checked may still list them. *)
Lemma empty_batch_spends_everything keys book sc leafset header verify block_hash tip_height size db :
  keyed (db_coins db) → sc_utxos sc = [] →
  fetch_header verify block_hash sc = Some (Ok header, sc) →
  fetch_leafset block_hash header sc = Some (Ok leafset, sc) →
  ∃ res db', sync_mweb_utxos keys book block_hash tip_height size verify (sc, db) = Some (Ok res, (sc, db')) ∧
    sr_found res = [] ∧ sr_spent res = (map_iter (db_coins db)).*1 ∧ db_coins db' = ∅.
Proof.
  intros Hk Hnil Hheader Hleafset.
  assert (∀ start fuel, unspent_leaf_indices leafset !! 0%nat = Some start →
    download (S fuel) block_hash size header leafset (unspent_leaf_indices leafset) 0 buffer_empty sc =
      Some (Ok buffer_empty, sc)) as Hturn.
  { intros start fuel Hs. cbn [download]. rewrite Hs. unfold mbind, eff_bind, fetch_batch.
    unfold mbind, eff_bind. cbn [get_utxos scripted_source]. unfold scripted_get_utxos. rewrite Hnil. cbn [foldl].
    rewrite decide_False by (cbn; tauto). unfold lift_panic. destruct header as [hdr|]; done. }
  assert (download (length (unspent_leaf_indices leafset)) block_hash size header leafset
    (unspent_leaf_indices leafset) 0 buffer_empty sc = Some (Ok buffer_empty, sc)) as Hdown.
  { destruct (unspent_leaf_indices leafset) as [|start l] eqn:Hl; [done|].
    by apply (Hturn start). }
  pose proof (mark_absent_unspent ∅ db Hk) as Hmark.
  destruct (foldl (mark_absent ∅) (db, []) (mc_output_id <$> unspent db)) as [db' spent] eqn:Hfold.
  destruct Hmark as [Hsp Hc]. exists (mkSyncResult [] spent 0 header), db'. split_and!; cbn; [|done| |].
  - unfold sync_mweb_utxos. unfold mbind, eff_bind, on_fst, on_snd, zoom. cbn [fst snd].
    rewrite Hheader. cbn [fst snd]. rewrite Hleafset. cbn [fst snd]. rewrite Hdown. cbn [fst snd].
    unfold finish_sync, mbind, eff_bind, state_fn. cbn [bu_entries bu_ids bu_downloaded buffer_empty].
    unfold scan_utxo_entries_at. cbn [scan_utxo_entries_loop]. unfold get. by rewrite Hfold.
  - rewrite Hsp. apply filter_all. intros id _. apply not_elem_of_empty.
  - apply map_empty. intros id. by rewrite Hc, decide_False by apply not_elem_of_empty.
Qed.
End scripted.
