(* ===== verification/MwebSyncer.v ===== *)
(** * The differential syncer

    Models [MwebSyncer] of [crates/mweb/src/mweb_sync.rs]: sampling of headers
    and one synchronisation pass with its two download paths, and the tip loop.
    The pass works on a world made of the header provider, the notifier, the
    peer and what the caller lends it mutably. *)
From stdpp Require Import sorting.
From S2P Require Import Prelude Effects Block Tx SpkIndex Mmr MwebWire MmrVerify MwebCoins MwebKeys MwebTx MwebScan MwebAnchor MwebSync MwebSyncData.

#[local] Open Scope N_scope.

Record MwebSyncer := mkSyncer {
  sy_verify : VerifyMode;
  sy_batch_size : N;
  sy_fine_window : N;
  sy_dating : DatingMode;
  sy_coarse_from_height : option N;
  (** Whether a [SyncProgress] is attached. *)
  sy_progress : bool;
  sy_verify_rangeproofs : bool;
}.

(** The argument is the value of the environment variable. *)
Definition syncer_default (env : option (list N)) : MwebSyncer :=
  mkSyncer (parse_verify_mode env) DEFAULT_UTXO_BATCH FINE_WINDOW FineWindow None false false.
Definition syncer_tip_only (env : option (list N)) : MwebSyncer :=
  mkSyncer (parse_verify_mode env) DEFAULT_UTXO_BATCH 1 TipOnly None false false.

(** [u16::clamp]. *)
Definition effective_batch_size (self : MwebSyncer) : N :=
  N.min (N.max (sy_batch_size self) 1) MAX_REQUESTED_MWEB_UTXOS.

(** ** The world of a pass *)

(** What the caller lends: the state, the database, the state of the checkpoint
    closure and the published progress. *)
Record Caller (K : Type) := mkCaller {
  ca_state : SyncState;
  ca_db : MwebCoinDatabase;
  ca_ck : K;
  ca_progress : N * N;
}.
Arguments mkCaller {K}. Arguments ca_state {K}. Arguments ca_db {K}.
Arguments ca_ck {K}. Arguments ca_progress {K}.

Record World (P Nt Src K : Type) := mkWorld {
  w_headers : P;
  w_notifier : Nt;
  w_source : Src;
  w_caller : Caller K;
}.
Arguments mkWorld {P Nt Src K}. Arguments w_headers {P Nt Src K}.
Arguments w_notifier {P Nt Src K}. Arguments w_source {P Nt Src K}. Arguments w_caller {P Nt Src K}.

(** The local variables of the download phase. *)
Record Down (K : Type) := mkDown {
  dn_caller : Caller K;
  dn_idx : nat;
  dn_batch : N;
  dn_ids : gset Bytes32;
  dn_req : N;
  dn_found : list MwebCoin;
  dn_downloaded : N;
}.
Arguments mkDown {K}. Arguments dn_caller {K}. Arguments dn_idx {K}. Arguments dn_batch {K}.
Arguments dn_ids {K}. Arguments dn_req {K}. Arguments dn_found {K}. Arguments dn_downloaded {K}.

(** What stays fixed during the download. *)
Record Pass := mkPass {
  pa_tip_hash : BlockHash;
  pa_tip_height : N;
  pa_header : option MwebBlockHeader;
  pa_leafset : MwebLeafset;
  pa_indices : list N;
  pa_height_map : gmap N N;
  pa_idx_start : nat;
  pa_remaining : nat;
}.

Section parts.
Context {P Nt Src K : Type}.

Definition on_headers {A} : Eff P Error A → Eff (World P Nt Src K) Error A :=
  zoom w_headers (λ p w, mkWorld p (w_notifier w) (w_source w) (w_caller w)).
Definition on_notifier {A} : Eff Nt Error A → Eff (World P Nt Src K) Error A :=
  zoom w_notifier (λ n w, mkWorld (w_headers w) n (w_source w) (w_caller w)).
Definition on_source {A} : Eff Src Error A → Eff (World P Nt Src K) Error A :=
  zoom w_source (λ s w, mkWorld (w_headers w) (w_notifier w) s (w_caller w)).
Definition on_caller {A} : Eff (Caller K) Error A → Eff (World P Nt Src K) Error A :=
  zoom w_caller (λ c w, mkWorld (w_headers w) (w_notifier w) (w_source w) c).

Definition on_state (f : SyncState → SyncState) : Eff (Caller K) Error unit :=
  modify (λ c, mkCaller (f (ca_state c)) (ca_db c) (ca_ck c) (ca_progress c)).
Definition set_db (db : MwebCoinDatabase) : Eff (Caller K) Error unit :=
  modify (λ c, mkCaller (ca_state c) db (ca_ck c) (ca_progress c)).
Definition set_progress (p : N * N) : Eff (Caller K) Error unit :=
  modify (λ c, mkCaller (ca_state c) (ca_db c) (ca_ck c) p).

(** A call of the checkpoint closure. *)
Definition Checkpoint : Type := SyncState → MwebCoinDatabase → K → MwebCoinDatabase * K.
Definition call_checkpoint (cb : Checkpoint) : Eff (Caller K) Error unit :=
  modify (λ c, let '(db, k) := cb (ca_state c) (ca_db c) (ca_ck c) in
    mkCaller (ca_state c) db k (ca_progress c)).

Definition in_caller {A} : Eff (Caller K) Error A → Eff (Down K) Error A :=
  zoom dn_caller (λ c d, mkDown c (dn_idx d) (dn_batch d) (dn_ids d) (dn_req d) (dn_found d)
    (dn_downloaded d)).
Definition set_idx (i : nat) : Eff (Down K) Error unit :=
  modify (λ d, mkDown (dn_caller d) i (dn_batch d) (dn_ids d) (dn_req d) (dn_found d) (dn_downloaded d)).
Definition next_batch : Eff (Down K) Error unit :=
  modify (λ d, mkDown (dn_caller d) (dn_idx d) (dn_batch d + 1) (dn_ids d) (dn_req d) (dn_found d)
    (dn_downloaded d)).
Definition set_req (req : N) : Eff (Down K) Error unit :=
  modify (λ d, mkDown (dn_caller d) (dn_idx d) (dn_batch d) (dn_ids d) req (dn_found d) (dn_downloaded d)).
Definition add_ids (ids : list Bytes32) : Eff (Down K) Error unit :=
  modify (λ d, mkDown (dn_caller d) (dn_idx d) (dn_batch d) (foldl (λ s id, {[id]} ∪ s) (dn_ids d) ids)
    (dn_req d) (dn_found d) (dn_downloaded d)).
Definition add_found (found : list MwebCoin) (n : N) : Eff (Down K) Error unit :=
  modify (λ d, mkDown (dn_caller d) (dn_idx d) (dn_batch d) (dn_ids d) (dn_req d) (dn_found d ++ found)
    (saturating_add_usize (dn_downloaded d) n)).
End parts.

(** [slice::chunks], for a positive size. *)
Fixpoint chunks_loop {A} (fuel : nat) (n : nat) (l : list A) : list (list A) :=
  match fuel, l with
  | S fuel, _ :: _ => take n l :: chunks_loop fuel n (drop n l)
  | _, _ => []
  end.
Definition chunks {A} (n : nat) (l : list A) : list (list A) := chunks_loop (length l) n l.

Section syncer.
Context `{Blake3, Wallet, !Zkp, !MwSerialize, MerkleProofs}.
Context {P Nt Src K : Type} `{!BlockHeaderProvider P, !SyncNotifier Nt, !MwebUtxoSource Src}.
Implicit Types (self : MwebSyncer) (keys : MasterKeys) (book : AddressBook) (batch : MwebUtxos).

(** ** Sampling headers *)

Definition sample_heights self (tip_height : N) : list N :=
  let heights := match sy_dating self with
    | TipOnly => [tip_height]
    | FineWindow => fine_sample_heights tip_height (sy_fine_window self)
    end in
  match sy_coarse_from_height self, sy_dating self with
  | Some from, FineWindow =>
    let heights := foldl push_new heights
      (coarse_sample_heights (N.min from tip_height) tip_height COARSE_STRIDE) in
    dedup (merge_sort N.le heights)
  | _, _ => heights
  end.

(** The sample at one height; what fails is skipped. *)
Definition sample_height (height : N) : Eff (World P Nt Src K) Error unit :=
  w ← get;
  if decide (is_Some (ss_height_map (ca_state (w_caller w)) !! height)) then mret tt
  else
    hash ← try_ (on_headers (block_hash_at height));
    match hash with
    | Err _ => mret tt
    | Ok hash =>
      msg ← try_ (on_source (get_header hash));
      match msg with
      | Ok msg =>
        on_caller (on_state (set_height_map <[height := mh_output_mmr_size (hm_mweb_header msg)]>))
      | Err _ => mret tt
      end
    end.

Definition sample_fine_headers self (tip_height : N) : Eff (World P Nt Src K) Error unit :=
  _ ← for_each sample_height (sample_heights self tip_height);
  '(tip_hash, _) ← on_headers tip;
  msg ← try_ (on_source (get_header tip_hash));
  match msg with
  | Ok msg =>
    on_caller (on_state (set_height_map <[tip_height := mh_output_mmr_size (hm_mweb_header msg)]>))
  | Err _ => mret tt
  end.

(** ** The download *)

Definition publish_progress self (pass : Pass) (consumed : nat) : Eff (Caller K) Error unit :=
  if sy_progress self then set_progress (N.of_nat consumed, N.of_nat (pa_remaining pass)) else mret tt.

Definition date_in (pass : Pass) (leaf : N) : N :=
  date_leaf_index (pa_height_map pass) leaf (pa_tip_height pass).

(** The entries of a batch that were asked for. *)
Definition added_entries (pass : Pass) batch : list (N * MwOutput) :=
  entry_pair <$> filter (λ e : MwebUtxoEntry, ue_leaf_index e ∈ pa_indices pass) (mu_utxos batch).

(** What both paths do with a batch that was verified: scan it, check the
    range proofs and move the cursor; [start] is the default last leaf. *)
Definition take_batch self keys book (pass : Pass) batch (start : N) : Eff (Down K) Error unit :=
  let entries := added_entries pass batch in
  _ ← add_ids ((λ e : N * MwOutput, output_id e.2) <$> entries);
  let last_leaf := last_leaf_of batch start in
  found ← in_caller (zoom ca_db (λ db c, mkCaller (ca_state c) db (ca_ck c) (ca_progress c))
    (state_fn (λ db, scan_utxo_entries_at keys book entries db (λ leaf, Some (date_in pass leaf)))));
  _ ← (if sy_verify_rangeproofs self then lift (verify_owned_rangeproofs found entries) else mret tt);
  _ ← add_found found (N.of_nat (length (mu_utxos batch)));
  d ← get;
  let next := skip_to (pa_indices pass) (dn_idx d) last_leaf in
  _ ← set_idx next;
  if decide (next = dn_idx d) then
    fail (protocol "peer protocol violation: mwebutxos batch did not advance the leaf cursor")
  else
    _ ← in_caller (on_state (set_cursor last_leaf));
    in_caller (publish_progress self pass (next - pa_idx_start pass)).

Definition maybe_checkpoint (checkpoint : option (Checkpoint (K := K))) (pass : Pass) :
    Eff (Down K) Error unit :=
  d ← get;
  let done := (length (pa_indices pass) <=? dn_idx d)%nat in
  match checkpoint with
  | Some cb =>
    if (dn_batch d =? 1) || (dn_batch d mod CHECKPOINT_EVERY_BATCHES =? 0) || done
    then in_caller (call_checkpoint cb) else mret tt
  | None => mret tt
  end.

(** Nothing at or after the leaf: one index is skipped. *)
Definition skip_leaf self (pass : Pass) : Eff (Down K) Error unit :=
  d ← get;
  _ ← set_idx (S (dn_idx d));
  in_caller (publish_progress self pass (S (dn_idx d) - pa_idx_start pass)).

(** The closure [on_batch] of the pipelined path. *)
Definition on_batch self keys book (checkpoint : option (Checkpoint (K := K))) (pass : Pass) batch :
    Eff (Down K) Error unit :=
  if decide (mu_output_format batch ≠ OUTPUT_FORMAT_FULL) then
    fail (protocol "expected FULL_UTXO format")
  else if decide (mu_utxos batch = []) then skip_leaf self pass
  else
    d ← get;
    if decide (pa_indices pass !! dn_idx d ≠ Some (mu_start_index batch)) then
      fail (protocol "pipelined UTXO schedule out of sync")
    else
      _ ← lift (check_batch_advances batch (mu_start_index batch));
      _ ← next_batch;
      _ ← lift_panic (verify_batch (pa_header pass) (pa_leafset pass) batch);
      _ ← take_batch self keys book pass batch (mu_start_index batch);
      maybe_checkpoint checkpoint pass.

Definition schedule self (pass : Pass) (idx : nat) : list GetMwebUtxos :=
  (λ chunk, mkGetMwebUtxos (pa_tip_hash pass) (default 0 (head chunk)) (effective_batch_size self)
    OUTPUT_FORMAT_FULL) <$>
  chunks (N.to_nat (effective_batch_size self)) (drop idx (pa_indices pass)).

(** The fast path; its error is only reported. *)
Definition download_pipelined self keys book (checkpoint : option (Checkpoint (K := K))) (pass : Pass) :
    Eff (Src * Down K) Error unit :=
  d ← gets snd;
  if bool_decide (ss_leafset (ca_state (dn_caller d)) = []) &&
     (dn_idx d <? length (pa_indices pass))%nat
  then
    _ ← try_ (E := Error) (get_utxos_pipelined (schedule self pass (dn_idx d))
      (on_batch self keys book checkpoint pass));
    mret tt
  else mret tt.

(** The inner loop: smaller and smaller requests while the proof does not fit.
    Halving a [u16] ends after 16 turns. *)
Fixpoint fetch_verified (fuel : nat) (pass : Pass) (start : N) : Eff (Src * Down K) Error MwebUtxos :=
  match fuel with
  | O => hang
  | S fuel =>
    req_size ← gets (dn_req ∘ snd);
    batch ← on_fst (get_utxos (mkGetMwebUtxos (pa_tip_hash pass) start req_size OUTPUT_FORMAT_FULL));
    if decide (mu_output_format batch ≠ OUTPUT_FORMAT_FULL) then
      fail (protocol "expected FULL_UTXO format")
    else
      verify_res ← try_ (E := Error) (lift_panic (verify_batch (pa_header pass) (pa_leafset pass) batch));
      match verify_res with
      | Ok _ => mret batch
      | Err e =>
        if negb ((1 <? req_size) && shrinkable e) then fail e
        else
          _ ← on_snd (set_req (N.max (req_size / 2) 1));
          fetch_verified fuel pass start
      end
  end.
Definition SHRINK_FUEL : nat := 17.

(** After a success larger batches are tried again. *)
Definition restore_req self : Eff (Down K) Error unit :=
  d ← get;
  let ceiling := effective_batch_size self in
  if dn_req d <? ceiling
  then set_req (N.max (N.min (N.min (dn_req d * 2) 65535) ceiling) 1)
  else mret tt.

(** One turn of the sequential loop, at leaf [start]. *)
Definition sequential_turn self keys book (checkpoint : option (Checkpoint (K := K))) (pass : Pass)
    (start : N) : Eff (Src * Down K) Error unit :=
  _ ← on_snd next_batch;
  batch ← fetch_verified SHRINK_FUEL pass start;
  if decide (mu_utxos batch = []) then on_snd (skip_leaf self pass)
  else
    _ ← lift (check_batch_advances batch start);
    _ ← on_snd (take_batch self keys book pass batch start);
    _ ← on_snd (restore_req self);
    on_snd (maybe_checkpoint checkpoint pass).

Fixpoint download_sequential (fuel : nat) self keys book (checkpoint : option (Checkpoint (K := K)))
    (pass : Pass) : Eff (Src * Down K) Error unit :=
  d ← gets snd;
  match pa_indices pass !! dn_idx d with
  | None => mret tt
  | Some start =>
    match fuel with
    | O => hang
    | S fuel =>
      _ ← sequential_turn self keys book checkpoint pass start;
      download_sequential fuel self keys book checkpoint pass
    end
  end.

Definition download_pass self keys book (checkpoint : option (Checkpoint (K := K))) (pass : Pass) :
    Eff (Src * Down K) Error unit :=
  _ ← download_pipelined self keys book checkpoint pass;
  download_sequential (length (pa_indices pass)) self keys book checkpoint pass.

(** The phase with its local variables, on the world. *)
Definition run_download self (idx : nat) (m : Eff (Src * Down K) Error unit) :
    Eff (World P Nt Src K) Error (Down K) := λ w,
  match m (w_source w, mkDown (w_caller w) idx 0 ∅ (effective_batch_size self) [] 0) with
  | None => None
  | Some (r, (s, d)) =>
    Some (match r with Ok _ => Ok d | Err e => Err e end,
          mkWorld (w_headers w) (w_notifier w) s (dn_caller d))
  end.

(** ** The pass *)

(** Whether the last synchronised tip is still in the chain. *)
Definition extends_previous (st : SyncState) (tip_shorter : bool) (tip_height : N) :
    Eff (World P Nt Src K) Error bool :=
  if tip_shorter then mret false
  else
    match ss_tip_hash st, ss_tip_height st with
    | Some prev_hash, Some prev_height =>
      if prev_height <=? tip_height then
        h ← try_ (on_headers (block_hash_at prev_height));
        mret (bool_decide (h = Ok prev_hash))
      else mret false
    | _, _ => mret false
    end.

(** Reorganisations: heights are cleared and the leafset forgotten. *)
Definition handle_reorg self (tip_hash : BlockHash) (tip_height : N) :
    Eff (World P Nt Src K) Error unit :=
  st ← gets (λ w, ca_state (w_caller w));
  let tip_changed := match ss_tip_hash st with Some h => negb (h =? tip_hash) | None => false end in
  let tip_shorter :=
    match ss_tip_height st with Some prev => (tip_height + 1) mod 2 ^ 32 <? prev | None => false end in
  extends_prev ← extends_previous st tip_shorter tip_height;
  if (tip_shorter || tip_changed) && negb extends_prev then
    let height := if tip_shorter then saturating_add_u32 tip_height 1
                  else saturating_add_u32 (saturating_sub tip_height 10) 1 in
    db ← gets (λ w, ca_db (w_caller w));
    _ ← on_caller (set_db (coins_disconnect_from db height));
    on_caller (on_state (λ st, set_height_map
      (filter (λ p, p.1 < saturating_sub tip_height (N.max (sy_fine_window self) 1)))
      (invalidate_leafset st)))
  else mret tt.

(** The loop over [diff.removed]. *)
Definition mark_removed (acc : MwebCoinDatabase * list Bytes32) (leaf : N) :
    MwebCoinDatabase * list Bytes32 :=
  let '(db, id) := mark_spent_by_leaf_index acc.1 leaf in
  (db, match id with Some id => acc.2 ++ [id] | None => acc.2 end).

Definition resume_cursor (st : SyncState) (tip_hash : BlockHash) : option N :=
  match ss_utxo_cursor st, ss_pending_tip_hash st with
  | Some c, Some pending =>
    if decide (pending = tip_hash) then Some c
    else if decide (ss_leafset st = []) then Some c else None
  | Some c, None => if decide (ss_leafset st = []) then Some c else None
  | None, _ => None
  end.

(** Coins with a leaf are dated anew. *)
Definition redate_target (height_map : gmap N N) (tip_height : N) (c : MwebCoin) :
    option (Bytes32 * N) :=
  leaf ← mc_leaf_index c;
  let h := date_leaf_index height_map leaf tip_height in
  if decide (mc_block_height c = Some h) then None else Some (mc_output_id c, h).
Definition redate (height_map : gmap N N) (tip_height : N) (db : MwebCoinDatabase) : MwebCoinDatabase :=
  foldl (λ db p, (set_block_height db p.1 p.2).1) db
    (omap (redate_target height_map tip_height) (unspent db)).

(** After a first synchronisation: coins that are gone. *)
Definition coin_gone (leafset : list N) (ids : gset Bytes32) (resumed : bool)
    (p : Bytes32 * option N) : bool :=
  match p.2 with
  | Some i => negb (leafset_has_leaf leafset i)
  | None => bool_decide (p.1 ∉ ids) && negb resumed
  end.
Definition mark_gone (leafset : list N) (ids : gset Bytes32) (resumed : bool)
    (acc : MwebCoinDatabase * list Bytes32) (p : Bytes32 * option N) : MwebCoinDatabase * list Bytes32 :=
  if coin_gone leafset ids resumed p then
    let '(db, marked) := mark_spent acc.1 p.1 in
    (db, if marked && negb (bool_decide (p.1 ∈ acc.2)) then acc.2 ++ [p.1] else acc.2)
  else acc.

(** Header and leafset of the tip, as far as the mode checks them. *)
Definition fetch_tip self (tip_hash : BlockHash) (tip_height : N) :
    Eff (World P Nt Src K) Error (option MwebBlockHeader * MwebLeafset) :=
  mweb_header ← on_source (fetch_header (sy_verify self) tip_hash);
  _ ← match mweb_header with
      | Some hdr => on_caller (on_state (set_height_map <[tip_height := mh_output_mmr_size hdr]>))
      | None => mret tt
      end;
  leafset ← on_source (fetch_leafset tip_hash mweb_header);
  mret (mweb_header, leafset).

(** From the difference of the leafsets to the start of the download. *)
Definition plan_download self (tip_hash : BlockHash) (tip_height : N)
    (mweb_header : option MwebBlockHeader) (leafset : MwebLeafset) :
    Eff (Caller K) Error (Pass * bool * list Bytes32) :=
  c ← get;
  let st := ca_state c in
  let diff := diff_leafsets (ss_leafset st) (ls_leafset leafset) in
  let '(db, spent) := foldl mark_removed (ca_db c, []) (ld_removed diff) in
  _ ← set_db db;
  let resume := resume_cursor st tip_hash in
  let indices := ld_added diff in
  let idx := match resume with Some c => skip_to indices 0 c | None => 0%nat end in
  let pass := mkPass tip_hash tip_height mweb_header leafset indices (ss_height_map st) idx
    (length indices - idx) in
  _ ← publish_progress self pass 0;
  _ ← on_state (set_pending tip_hash);
  mret (pass, bool_decide (is_Some resume), spent).

(** After the download. *)
Definition finish_pass (checkpoint : option (Checkpoint (K := K))) (pass : Pass) (resumed : bool)
    (ids : gset Bytes32) (spent : list Bytes32) : Eff (Caller K) Error (list Bytes32) :=
  c ← get;
  let db := redate (pa_height_map pass) (pa_tip_height pass) (ca_db c) in
  let '(db, spent) :=
    if decide (ss_leafset (ca_state c) = []) then
      foldl (mark_gone (ls_leafset (pa_leafset pass)) ids resumed) (db, spent)
        ((λ c, (mc_output_id c, mc_leaf_index c)) <$> unspent db)
    else (db, spent) in
  _ ← set_db db;
  _ ← on_state (λ st, mkSyncState (Some (pa_tip_hash pass)) (Some (pa_tip_height pass))
        (ls_leafset (pa_leafset pass)) (ss_height_map st) None None);
  _ ← (match checkpoint with Some cb => call_checkpoint cb | None => mret tt end);
  mret spent.

Definition run_once self keys book (checkpoint : option (Checkpoint (K := K))) :
    Eff (World P Nt Src K) Error SyncResult :=
  _ ← on_notifier wait_headers_synced;
  '(tip_hash, tip_height) ← on_headers tip;
  _ ← handle_reorg self tip_hash tip_height;
  _ ← sample_fine_headers self tip_height;
  '(mweb_header, leafset) ← fetch_tip self tip_hash tip_height;
  '(pass, resumed, spent) ← on_caller (plan_download self tip_hash tip_height mweb_header leafset);
  d ← run_download self (pa_idx_start pass) (download_pass self keys book checkpoint pass);
  spent ← on_caller (finish_pass checkpoint pass resumed (dn_ids d) spent);
  mret (mkSyncResult (dn_found d) spent (dn_downloaded d) mweb_header).

(** ** The tip loop

    [should_stop n] is the answer of the closure's call number [n]; [turns]
    bounds the passes, for the loop is meant to go on. *)
Definition follow_tip {W} (pass : Eff W Error SyncResult) (header_tip : Eff W Error N)
    (wait_tip : N → Eff W Error unit) (should_stop : nat → bool) : nat → nat → Eff W Error SyncResult :=
  fix loop (turns n : nat) {struct turns} :=
  match turns with
  | O => hang
  | S turns =>
    h ← try_ header_tip;
    let tip_before := match h with Ok h => h | Err _ => 0 end in
    last ← pass;
    if should_stop n then mret last
    else
      _ ← wait_tip tip_before;
      loop turns (S n)
  end.

Definition run_loop (turns : nat) self keys book (should_stop : nat → bool) :
    Eff (World P Nt Src K) Error SyncResult :=
  follow_tip (run_once self keys book None) (on_notifier header_tip_height)
    (λ h, on_notifier (wait_tip_changed h)) should_stop turns 0.
End syncer.
