(* ===== verification/MwebSyncerSpec.v ===== *)
(** * What a synchronisation pass establishes

    For every peer, header provider and notifier that answer: a pass comes to
    an end; a failed one records nothing as synchronised; after one that
    succeeds every coin with a leaf is dated and still in the leafset; and what
    it reports as found was shown to be in the chain's set. *)
From S2P Require Import Prelude Effects Block Tx SpkIndex MmrIndex Mmr MwebWire MmrVerify MmrPaths MmrSound BatchSpec MwebCoins MwebCoinSpec MwebKeys MwebTx MwebScan MwebBuild SecpLaws MwebScanSpec MwebAnchor MwebSync MwebSyncData MwebSyncFacts MwebSyncSpec MwebSyncer.

#[local] Open Scope N_scope.

(** ** The loops over coins *)

Section coins.
Implicit Types (db : MwebCoinDatabase).

(** [db'] has only coins of [db]. *)
Definition coins_sub db' db : Prop := db_coins db' ⊆ db_coins db.

#[export] Instance coins_sub_preorder : PreOrder coins_sub.
Proof. split; [by intros db; unfold coins_sub|]. intros a b c. unfold coins_sub. by intros; etrans. Qed.

Lemma mark_spent_sub db id : coins_sub (mark_spent db id).1 db.
Proof.
  apply map_subseteq_spec. intros i c. rewrite mark_spent_coins. by case_decide.
Qed.

Lemma keyed_sub m m' : m' ⊆ m → keyed m → keyed m'.
Proof. intros Hsub Hk i c Hi. apply Hk. by eapply lookup_weaken. Qed.

(** At most one unspent coin per leaf. *)
Definition leaf_unique db : Prop :=
  ∀ id id' c c' i, db_coins db !! id = Some c → db_coins db !! id' = Some c' →
    mc_leaf_index c = Some i → mc_leaf_index c' = Some i → id = id'.

Lemma leaf_unique_sub db db' : coins_sub db' db → leaf_unique db → leaf_unique db'.
Proof. intros Hsub Hu id id' c c' i H1 H2. by apply Hu; eapply lookup_weaken. Qed.

Lemma elem_of_unspent db c : c ∈ unspent db ↔ ∃ id, db_coins db !! id = Some c.
Proof.
  unfold unspent. rewrite list_elem_of_fmap. split.
  - intros ([id c'] & -> & ?%elem_of_map_iter). by exists id.
  - intros [id ?%elem_of_map_iter]. by exists (id, c).
Qed.

Lemma mark_by_leaf_sub db i : coins_sub (mark_spent_by_leaf_index db i).1 db.
Proof.
  unfold mark_spent_by_leaf_index. destruct (find_by_leaf_index db i) as [c|]; [|done].
  pose proof (mark_spent_sub db (mc_output_id c)). by destruct (mark_spent _ _).
Qed.

Lemma mark_by_leaf_gone db i id c :
  keyed (db_coins db) → leaf_unique db →
  db_coins (mark_spent_by_leaf_index db i).1 !! id = Some c → mc_leaf_index c ≠ Some i.
Proof.
  intros Hk Hu. unfold mark_spent_by_leaf_index, find_by_leaf_index.
  destruct (head _) as [c0|] eqn:Hh.
  - apply head_Some_elem_of, list_elem_of_filter in Hh as [Hl [id0 Hc0]%elem_of_unspent].
    rewrite (Hk _ _ Hc0). pose proof (mark_spent_coins db id0 id) as Hm.
    destruct (mark_spent db id0) as [db1 m]. cbn [fst] in *. rewrite Hm. case_decide as Hne; [done|].
    intros Hc Hlc. apply Hne. by eapply Hu.
  - cbn. intros Hc Hlc. apply head_None in Hh.
    assert (c ∈ filter (λ c, mc_leaf_index c = Some i) (unspent db)) as Hin.
    { apply list_elem_of_filter. split; [done|]. apply elem_of_unspent. by exists id. }
    rewrite Hh in Hin. by apply elem_of_nil in Hin.
Qed.

Lemma mark_removed_fold l db spent :
  let db' := (foldl mark_removed (db, spent) l).1 in
  coins_sub db' db ∧
  (keyed (db_coins db) → leaf_unique db →
   ∀ id c i, db_coins db' !! id = Some c → mc_leaf_index c = Some i → i ∉ l).
Proof.
  revert db spent. induction l as [|j l IH]; intros db spent; cbn [foldl fst].
  - split; [done|]. intros _ _ id c i _ _ ?%elem_of_nil. done.
  - unfold mark_removed at 2 4. cbn [fst snd].
    pose proof (mark_by_leaf_sub db j) as Hsub. pose proof (mark_by_leaf_gone db j) as Hgone.
    destruct (mark_spent_by_leaf_index db j) as [db1 o]. cbn [fst] in *.
    destruct (IH db1 match o with Some id => spent ++ [id] | None => spent end) as [Hsub' Hl].
    split; [by etrans|]. intros Hk Hu id c i Hc Hci.
    apply not_elem_of_cons. split.
    + intros ->. apply (Hgone id c Hk Hu); [|done]. by eapply lookup_weaken.
    + eapply Hl; [by eapply keyed_sub|by eapply leaf_unique_sub|done|done].
Qed.

(** The coins that the last loop leaves are not gone. *)
Lemma mark_gone_fold ls ids resumed l db spent :
  let db' := (foldl (mark_gone ls ids resumed) (db, spent) l).1 in
  coins_sub db' db ∧
  ∀ p, p ∈ l → is_Some (db_coins db' !! p.1) → coin_gone ls ids resumed p = false.
Proof.
  revert db spent. induction l as [|p l IH]; intros db spent; cbn [foldl fst].
  - split; [done|]. by intros p ?%elem_of_nil.
  - unfold mark_gone at 2 4. cbn [fst snd]. destruct (coin_gone ls ids resumed p) eqn:Hg.
    + pose proof (mark_spent_sub db p.1) as Hsub. pose proof (mark_spent_coins db p.1 p.1) as Hm.
      destruct (mark_spent db p.1) as [db1 m]. cbn [fst] in *. rewrite decide_True in Hm by done.
      destruct (IH db1 (if m && negb (bool_decide (p.1 ∈ spent)) then spent ++ [p.1] else spent))
        as [Hsub' Hl]. split; [by etrans|].
      intros q [->|Hq]%elem_of_cons; [|by apply Hl]. intros [c Hc].
      eapply lookup_weaken in Hc; [|exact Hsub']. congruence.
    + destruct (IH db spent) as [Hsub' Hl]. split; [done|].
      intros q [->|Hq]%elem_of_cons; [done|by apply Hl].
Qed.

(** The date a coin has after [redate]. *)
Definition redated (hm : gmap N N) (tip_height : N) (c : MwebCoin) : MwebCoin :=
  match mc_leaf_index c with
  | Some leaf => set_height c (Some (date_leaf_index hm leaf tip_height))
  | None => c
  end.

Lemma update_heights_fold l db id :
  NoDup l.*1 →
  db_coins (foldl (λ db p, (set_block_height db p.1 p.2).1) db l) !! id =
  (λ c, match list_to_map (M := gmap Bytes32 N) l !! id with
        | Some h => set_height c (Some h) | None => c end) <$> db_coins db !! id.
Proof.
  revert db. induction l as [|[k h] l IH]; intros db Hnd; cbn [foldl].
  - cbn. rewrite lookup_empty. by destruct (db_coins db !! id).
  - apply NoDup_cons in Hnd as [Hk Hnd]. cbn [fst] in Hk. rewrite IH by done. cbn [fst snd list_to_map foldr].
    assert (db_coins (set_block_height db k h).1 !! id =
      if decide (id = k) then (λ c, set_height c (Some h)) <$> db_coins db !! id else db_coins db !! id) as ->.
    { unfold set_block_height, update_coin. destruct (db_coins db !! k) as [c|] eqn:Hc; cbn.
      - case_decide as He; [subst; by rewrite lookup_insert_eq, Hc|by rewrite lookup_insert_ne].
      - case_decide as He; [subst; by rewrite Hc|done]. }
    case_decide as He.
    + subst id. rewrite lookup_insert_eq. apply not_elem_of_list_to_map_1 in Hk. rewrite Hk.
      by destruct (db_coins db !! k).
    + by rewrite lookup_insert_ne by done.
Qed.

Lemma redate_lookup hm tip_height db id :
  keyed (db_coins db) →
  db_coins (redate hm tip_height db) !! id = redated hm tip_height <$> db_coins db !! id.
Proof.
  intros Hk. unfold redate.
  set (l := omap (redate_target hm tip_height) (unspent db)).
  assert (∀ i h, (i, h) ∈ l ↔ ∃ c leaf, db_coins db !! i = Some c ∧ mc_leaf_index c = Some leaf ∧
    h = date_leaf_index hm leaf tip_height ∧ mc_block_height c ≠ Some h) as Hl.
  { intros i h. unfold l. rewrite list_elem_of_omap. setoid_rewrite elem_of_unspent.
    unfold redate_target. split.
    - intros (c & (k & Hc) & Ht). pose proof (Hk _ _ Hc) as Hid. destruct (mc_leaf_index c) as [leaf|] eqn:Hleaf; [|done].
      cbn in Ht. case_decide; [done|]. injection Ht as <- <-. exists c, leaf. cbn in Hid. by subst k.
    - intros (c & leaf & Hc & Hleaf & -> & Hne). exists c. split; [by exists i|]. rewrite Hleaf. cbn.
      rewrite decide_False by done. by rewrite (Hk _ _ Hc). }
  assert (NoDup l.*1) as Hnd.
  { apply (sublist_NoDup _ (mc_output_id <$> unspent db)).
    - rewrite unspent_ids by done. apply NoDup_map_iter.
    - unfold l. generalize (unspent db) as cs. intros cs. induction cs as [|c cs IH]; cbn; [constructor|].
      unfold redate_target at 1. destruct (mc_leaf_index c); cbn; [|by constructor].
      case_decide; by constructor. }
  rewrite update_heights_fold by done. destruct (db_coins db !! id) as [c|] eqn:Hc; [|done]. cbn. f_equal.
  unfold redated. destruct (list_to_map l !! id) as [h|] eqn:Hm.
  - apply elem_of_list_to_map_2, Hl in Hm as (c' & leaf & Hc' & Hleaf & -> & _).
    rewrite Hc in Hc'. injection Hc' as <-. by rewrite Hleaf.
  - destruct (mc_leaf_index c) as [leaf|] eqn:Hleaf; [|done].
    destruct (decide (mc_block_height c = Some (date_leaf_index hm leaf tip_height))) as [Hh|Hne].
    + rewrite <-Hh. by destruct c.
    + apply not_elem_of_list_to_map_2 in Hm. destruct Hm. apply list_elem_of_fmap.
      exists (id, date_leaf_index hm leaf tip_height). split; [done|]. apply Hl. by exists c, leaf.
Qed.

Lemma redated_leaf hm tip_height c : mc_leaf_index (redated hm tip_height c) = mc_leaf_index c.
Proof. unfold redated. by destruct (mc_leaf_index c) eqn:Hl. Qed.

Lemma keyed_redate hm tip_height db :
  keyed (db_coins db) → keyed (db_coins (redate hm tip_height db)).
Proof.
  intros Hk id c. rewrite redate_lookup by done. intros (c0 & Hc0 & ->)%fmap_Some.
  rewrite <-(Hk _ _ Hc0). unfold redated. by destruct (mc_leaf_index c0).
Qed.

Lemma keyed_disconnect_from db h : keyed (db_coins db) → keyed (db_coins (coins_disconnect_from db h)).
Proof.
  intros Hk. unfold coins_disconnect_from.
  pose proof (keyed_disconnect h (db_coins db) (ccs_coins (db_staged db)) Hk) as Hd.
  destruct (disconnect_all h (db_coins db) _). by destruct (disconnect_all h (db_spent db) _).
Qed.
End coins.

(** ** The download *)

Section pass.
Context `{Blake3, Wallet, !Zkp, !MwSerialize, MerkleProofs, !MerkleLaws}.
Context {P Nt Src K : Type} `{!BlockHeaderProvider P, !SyncNotifier Nt, !MwebUtxoSource Src}.
Context `{!ProviderLaws P, !NotifierLaws Nt} (delivers : Message → Prop) `{!MwebUtxoSourceLaws Src delivers}.
Context (self : MwebSyncer) (keys : MasterKeys) (book : AddressBook).
Context (checkpoint : option (Checkpoint (K := K))).

(** A coin that scanning an accepted batch of this pass yields. *)
Definition found_in (pass : Pass) (c : MwebCoin) : Prop :=
  ∃ batch u c0, accepted delivers (pa_header pass) (pa_leafset pass) batch ∧ u ∈ mu_utxos batch ∧
    ue_leaf_index u ∈ pa_indices pass ∧ rewind_output keys book (ue_output u) = Ok (Some c0) ∧
    c = entry_coin (λ leaf, Some (date_in pass leaf)) (entry_pair u) c0.

(** The checkpoint closure may take what is staged, and leaves the coins alone. *)
Definition harmless : Prop :=
  ∀ cb, checkpoint = Some cb → ∀ st db k, db_coins (cb st db k).1 = db_coins db.

(** The state but for the cursor. *)
Definition snapshot (st : SyncState) :=
  (ss_tip_hash st, ss_tip_height st, ss_leafset st, ss_height_map st, ss_pending_tip_hash st).

(** What holds throughout the download, from the state [st0] and the coins
    [m] on. *)
Record going (pass : Pass) (st0 : SyncState) (m : CoinMap) (d : Down K) : Prop := {
  go_state : snapshot (ca_state (dn_caller d)) = snapshot st0;
  go_req : 1 ≤ dn_req d ≤ MAX_REQUESTED_MWEB_UTXOS;
  go_found : ∀ c, c ∈ dn_found d → found_in pass c;
  go_coins : harmless ∧ keyed m → keyed (db_coins (ca_db (dn_caller d))) ∧
    ∀ id c, db_coins (ca_db (dn_caller d)) !! id = Some c → found_in pass c ∨ m !! id = Some c;
}.

Lemma effective_batch_size_range : 1 ≤ effective_batch_size self ≤ MAX_REQUESTED_MWEB_UTXOS.
Proof. unfold effective_batch_size, MAX_REQUESTED_MWEB_UTXOS. lia. Qed.

Section down.
Variables (pass : Pass) (st0 : SyncState) (m : CoinMap).
Notation J := (going pass st0 m).

(** Nothing that [going] looks at has changed. *)
Lemma going_same d d' :
  J d → snapshot (ca_state (dn_caller d')) = snapshot (ca_state (dn_caller d)) →
  db_coins (ca_db (dn_caller d')) = db_coins (ca_db (dn_caller d)) →
  dn_req d' = dn_req d → dn_found d' = dn_found d → J d'.
Proof. intros [Hs Hr Hf Hc] Es Ec Er Ef. split; rewrite ?Es, ?Ec, ?Er, ?Ef; done. Qed.

Lemma wp_publish n d (Q : result Error unit → Down K → Prop) :
  (∀ d', J d' → dn_idx d' = dn_idx d → Q (Ok tt) d') → J d →
  wp (in_caller (publish_progress self pass n)) d Q.
Proof.
  intros HQ Hd. apply wp_zoom. unfold publish_progress.
  destruct (sy_progress self); [apply wp_modify|apply wp_mret]; apply HQ; try done; by apply (going_same d).
Qed.

Lemma wp_skip_leaf d :
  J d → wp (skip_leaf self pass) d (λ _ d', J d' ∧ (dn_idx d < dn_idx d')%nat).
Proof.
  intros Hd. unfold skip_leaf. apply wp_bind, wp_get; cbn [post]. apply wp_bind, wp_modify; cbn [post].
  apply wp_publish; [|by apply (going_same d)]. intros d' Hd' Hi. cbn in Hi. rewrite Hi. split; [done|lia].
Qed.

Lemma wp_maybe_checkpoint d :
  J d → wp (maybe_checkpoint checkpoint pass) d (λ _ d', J d' ∧ dn_idx d' = dn_idx d).
Proof.
  intros Hd. unfold maybe_checkpoint. apply wp_bind, wp_get; cbn [post].
  destruct checkpoint as [cb|] eqn:Hcb; [|by apply wp_mret].
  case_match; [|by apply wp_mret]. apply wp_zoom, wp_modify.
  destruct (cb _ _ _) as [db k] eqn:Hrun. split; [|done]. destruct Hd as [Hs Hr Hf Hc]. split; [done..|].
  cbn. intros Hh. pose proof (proj1 Hh cb Hcb (ca_state (dn_caller d)) (ca_db (dn_caller d)) (ca_ck (dn_caller d))) as He.
  rewrite Hrun in He. cbn in He. rewrite He. by apply Hc.
Qed.

Lemma elem_of_added_entries batch e :
  e ∈ added_entries pass batch ↔ e.1 ∈ pa_indices pass ∧ ∃ u, u ∈ mu_utxos batch ∧ e = entry_pair u.
Proof.
  unfold added_entries. rewrite list_elem_of_fmap. setoid_rewrite list_elem_of_filter. split.
  - intros (u & -> & Hi & Hu). split; [done|]. by exists u.
  - intros (Hi & u & Hu & ->). by exists u.
Qed.

Lemma owned_found_in batch es cs :
  accepted delivers (pa_header pass) (pa_leafset pass) batch → es ⊆ added_entries pass batch →
  owned_entries keys book (λ leaf, Some (date_in pass leaf)) es cs → ∀ c, c ∈ cs → found_in pass c.
Proof.
  intros Hacc Hsub Hcs c Hc. destruct (owned_entries_elem _ _ _ _ _ _ Hcs Hc) as (e & c0 & He & Hr & ->).
  apply Hsub, elem_of_added_entries in He as (Hi & u & Hu & ->). by exists batch, u, c0.
Qed.

(** Scanning inserts coins of the pass, also when it fails. *)
Lemma scan_going batch d :
  accepted delivers (pa_header pass) (pa_leafset pass) batch → J d →
  let '(db', r) := scan_utxo_entries_at keys book (added_entries pass batch) (ca_db (dn_caller d))
    (λ leaf, Some (date_in pass leaf)) in
  (harmless ∧ keyed m → keyed (db_coins db') ∧
    ∀ id c, db_coins db' !! id = Some c → found_in pass c ∨ m !! id = Some c) ∧
  ∀ found, r = Ok found → ∀ c, c ∈ found → found_in pass c.
Proof.
  intros Hacc [_ _ _ Hc]. unfold scan_utxo_entries_at.
  pose proof (scan_utxo_entries_loop_spec keys book (λ leaf, Some (date_in pass leaf))
    (added_entries pass batch) (ca_db (dn_caller d)) []) as Hscan.
  destruct (scan_utxo_entries_loop _ _ _ _ _ _) as [db' r].
  assert (∃ es cs, es ⊆ added_entries pass batch ∧
    owned_entries keys book (λ leaf, Some (date_in pass leaf)) es cs ∧
    db' = foldl coin_insert (ca_db (dn_caller d)) cs ∧ ∀ found, r = Ok found → found = cs)
    as (es & cs & Hsub & Hcs & -> & Hr).
  { destruct r as [found|e].
    - destruct Hscan as (cs & Hcs & -> & ->). exists (added_entries pass batch), cs.
      split_and!; try done. by intros found [= <-].
    - destruct Hscan as (pre & x & post & cs & Heq & _ & Hcs & ->). exists pre, cs.
      split_and!; try done. rewrite Heq. intros y Hy. apply elem_of_app. by left. }
  split.
  - intros Hh. destruct (Hc Hh) as [Hk Hm]. split; [by apply keyed_inserts|].
    intros id c [[Hin _]|Hl]%lookup_inserts; [|by apply Hm]. left. by eapply owned_found_in.
  - intros found ->%Hr c Hin. by eapply owned_found_in.
Qed.

Lemma wp_take_batch batch start d :
  accepted delivers (pa_header pass) (pa_leafset pass) batch → J d →
  wp (take_batch self keys book pass batch start) d
    (post (λ _ d', J d' ∧ (dn_idx d < dn_idx d')%nat) (λ _, J)).
Proof.
  intros Hacc Hd. unfold take_batch. apply wp_bind, wp_modify; cbn [post].
  apply wp_bind, wp_zoom, wp_zoom, wp_state_fn. cbn [dn_caller].
  pose proof (scan_going batch d Hacc Hd) as Hscan.
  destruct (scan_utxo_entries_at _ _ _ _ _) as [db' r]. cbn [fst snd]. destruct Hscan as [Hcoins Hfound].
  assert (∀ d', snapshot (ca_state (dn_caller d')) = snapshot (ca_state (dn_caller d)) →
    ca_db (dn_caller d') = db' → dn_req d' = dn_req d → (∀ c, c ∈ dn_found d' → found_in pass c) → J d') as HJ.
  { intros d' Es Ed Er Ef. destruct Hd as [Hs Hr _ _]. split; rewrite ?Es, ?Ed, ?Er; done. }
  destruct Hd as [_ _ Hf _].
  destruct r as [found|e]; cbn [post]; [|by apply HJ].
  apply wp_bind.
  assert (∀ (r : result Error unit) (d1 : Down K), wp (if sy_verify_rangeproofs self then lift r else mret tt) d1
    (λ _ d2, d2 = d1)) as Hwp.
  { intros r d1. by destruct (sy_verify_rangeproofs self); [apply wp_lift|apply wp_mret]. }
  eapply wp_mono; [apply Hwp|]. intros [[]|e] d1 ->; cbn [post]; [|by apply HJ].
  apply wp_bind, wp_modify; cbn [post]. apply wp_bind, wp_get; cbn [post].
  apply wp_bind, wp_modify; cbn [post]. cbn [dn_idx dn_caller dn_found].
  assert (∀ c, c ∈ dn_found d ++ found → found_in pass c) as Hall.
  { intros c [?|?]%elem_of_app; [by apply Hf|by eapply Hfound]. }
  case_decide as Hne; [by apply wp_fail, HJ|].
  apply wp_bind, wp_zoom, wp_modify; cbn [post].
  apply wp_publish; [|by apply HJ]. intros d' Hd' Hi. cbn in Hi |- *. split; [done|]. rewrite Hi.
  unfold skip_to in *. lia.
Qed.

Lemma wp_on_batch batch d :
  delivers (MsgUtxos batch) → J d → wp (on_batch self keys book checkpoint pass batch) d (λ _ d', J d').
Proof.
  intros Hdel Hd. unfold on_batch. case_decide as Hfmt; [by apply wp_fail|].
  case_decide; [eapply wp_mono; [by apply wp_skip_leaf|]; by intros ?? [??]|].
  apply wp_bind, wp_get; cbn [post]. case_decide; [by apply wp_fail|].
  apply wp_bind, wp_lift. destruct (check_batch_advances _ _) as [[]|e]; cbn [post]; [|done].
  apply wp_bind, wp_modify; cbn [post]. apply wp_bind.
  destruct (verify_batch_total (pa_header pass) (pa_leafset pass) batch) as [r Hr].
  apply (wp_lift_panic _ r); [done|]. destruct r as [[]|e]; cbn [post]; [|by apply (going_same d)].
  apply wp_bind. eapply wp_mono.
  { apply wp_take_batch; [by split|]. by apply (going_same d). }
  intros [[]|e] d'; cbn [post]; [|done]. intros [Hd' _].
  eapply wp_mono; [by apply wp_maybe_checkpoint|]. by intros ?? [??].
Qed.

Lemma wp_download_pipelined (s : Src) d :
  J d → wp (download_pipelined self keys book checkpoint pass) (s, d) (post (λ _ sd, J sd.2) (λ _ _, False)).
Proof.
  intros Hd. unfold download_pipelined. apply wp_bind, wp_gets; cbn [post snd].
  case_match; [|by apply wp_mret]. apply wp_bind, wp_try. eapply wp_mono.
  { apply (pipelined_invariant _ _ _ (λ d, J d)); [|exact Hd]. intros batch d' Hdel Hd'.
    by apply wp_on_batch. }
  intros r sd Hsd. cbn [post]. by apply wp_mret.
Qed.

(** Halving comes to one before the fuel is used up. *)
Lemma wp_fetch_verified fuel start (s : Src) d :
  dn_req d < 2 ^ N.of_nat fuel → J d →
  wp (fetch_verified fuel pass start) (s, d)
    (post (λ batch sd, accepted delivers (pa_header pass) (pa_leafset pass) batch ∧ J sd.2 ∧ dn_idx sd.2 = dn_idx d)
      (λ _ sd, J sd.2)).
Proof.
  revert s d. induction fuel as [|fuel IH]; intros s d Hfuel Hd; cbn [fetch_verified].
  { destruct (go_req _ _ _ _ Hd). cbn in Hfuel. lia. }
  apply wp_bind, wp_gets; cbn [post]. apply wp_bind, wp_on_fst, wp_get_utxos with (delivers := delivers);
    cbn [post snd]; try done.
  intros batch s' Hdel. case_decide as Hfmt; [by apply wp_fail|].
  destruct (verify_batch_total (pa_header pass) (pa_leafset pass) batch) as [r Hr].
  apply wp_bind, wp_try, (wp_lift_panic _ r); [done|]. cbn [post snd]. destruct r as [[]|e]; [by apply wp_mret|].
  destruct (negb _) eqn:Hshrink; [by apply wp_fail|].
  apply negb_false_iff, andb_true_iff in Hshrink as [Hreq%N.ltb_lt _].
  apply wp_bind, wp_on_snd, wp_modify; cbn [post]. cbn [compose snd] in *.
  assert (1 ≤ dn_req d / 2 ∧ dn_req d / 2 < dn_req d ∧ dn_req d / 2 < 2 ^ N.of_nat fuel) as (Hd1 & Hd2 & Hd3).
  { split_and!; [apply N.div_le_lower_bound; lia|apply N.div_lt; lia|].
    apply N.Div0.div_lt_upper_bound. rewrite Nat2N.inj_succ, N.pow_succ_r' in Hfuel. lia. }
  eapply wp_mono; [apply IH|].
  - cbn [dn_req]. lia.
  - destruct Hd as [Hs Hq Hf Hc]. split; [done| |done..]. cbn [dn_req]. lia.
  - intros [b|e'] sd; cbn [post dn_idx]; done.
Qed.

Lemma wp_restore_req d :
  J d → wp (restore_req self) d (post (λ _ d', J d' ∧ dn_idx d' = dn_idx d) (λ _ _, False)).
Proof.
  intros Hd. unfold restore_req. apply wp_bind, wp_get; cbn [post]. case_match; [|by apply wp_mret].
  apply wp_modify. split; [|done]. pose proof effective_batch_size_range.
  destruct Hd as [Hs Hq Hf Hc]. split; [done| |done..]. cbn [dn_req]. lia.
Qed.

Lemma wp_sequential_turn start (s : Src) d :
  J d → wp (sequential_turn self keys book checkpoint pass start) (s, d)
    (post (λ _ sd, J sd.2 ∧ (dn_idx d < dn_idx sd.2)%nat) (λ _ sd, J sd.2)).
Proof.
  intros Hd. unfold sequential_turn. apply wp_bind, wp_on_snd, wp_modify; cbn [post].
  apply wp_bind. eapply wp_mono.
  { apply wp_fetch_verified; [|by apply (going_same d)]. destruct (go_req _ _ _ _ Hd) as [_ Hq]. cbn [dn_req].
    eapply N.le_lt_trans; [exact Hq|]. by vm_compute. }
  intros [batch|e] [s1 d1]; cbn [post snd]; [|done]. intros (Hacc & Hd1 & Hi). cbn [dn_idx] in Hi.
  case_decide.
  { apply wp_on_snd. eapply wp_mono; [by apply wp_skip_leaf|]. intros [[]|e] d2 [Hd2 Hlt]; cbn [post snd]; [|done].
    split; [done|lia]. }
  apply wp_bind, wp_lift. destruct (check_batch_advances _ _) as [[]|e]; cbn [post snd]; [|done].
  apply wp_bind, wp_on_snd. eapply wp_mono; [by apply wp_take_batch|].
  intros [[]|e] d2; cbn [post snd]; [|done]. intros [Hd2 Hlt].
  apply wp_bind, wp_on_snd. eapply wp_mono; [by apply wp_restore_req|].
  intros [[]|e] d3; cbn [post snd]; [|done]. intros [Hd3 Hi3].
  apply wp_on_snd. eapply wp_mono; [by apply wp_maybe_checkpoint|].
  intros [[]|e] d4 [Hd4 Hi4]; cbn [post snd]; [|done]. split; [done|lia].
Qed.

Lemma wp_download_sequential fuel (s : Src) d :
  (length (pa_indices pass) - dn_idx d ≤ fuel)%nat → J d →
  wp (download_sequential fuel self keys book checkpoint pass) (s, d) (λ _ sd, J sd.2).
Proof.
  revert s d. induction fuel as [|fuel IH]; intros s d Hfuel Hd; cbn [download_sequential];
    apply wp_bind, wp_gets; cbn [post snd];
    destruct (pa_indices pass !! dn_idx d) as [start|] eqn:Hl; try by apply wp_mret.
  - apply lookup_lt_Some in Hl. lia.
  - apply lookup_lt_Some in Hl. apply wp_bind. eapply wp_mono; [by apply wp_sequential_turn|].
    intros [[]|e] [s1 d1]; cbn [post snd]; [|done]. intros [Hd1 Hlt]. apply IH; [lia|done].
Qed.

Lemma wp_download_pass (s : Src) d :
  J d → wp (download_pass self keys book checkpoint pass) (s, d) (λ _ sd, J sd.2).
Proof.
  intros Hd. unfold download_pass. apply wp_bind. eapply wp_mono; [by apply wp_download_pipelined|].
  intros [[]|e] [s1 d1]; cbn [post snd]; [|done]. intros Hd1. apply wp_download_sequential; [lia|done].
Qed.
End down.

(** ** The stages of a pass *)

Notation W := (World P Nt Src K).

Section calls.
Context {A : Type} (w : W) (Q : result Error A → W → Prop).
Hypothesis HQ : ∀ r w', w_caller w' = w_caller w → Q r w'.

Lemma wp_on_headers (m : Eff P Error A) : returns m → wp (on_headers m) w Q.
Proof. intros Hm. apply wp_zoom, wp_total; [done|]. intros r p _. by apply HQ. Qed.
Lemma wp_on_notifier (m : Eff Nt Error A) : returns m → wp (on_notifier m) w Q.
Proof. intros Hm. apply wp_zoom, wp_total; [done|]. intros r p _. by apply HQ. Qed.
Lemma wp_on_source (m : Eff Src Error A) : returns m → wp (on_source m) w Q.
Proof. intros Hm. apply wp_zoom, wp_total; [done|]. intros r p _. by apply HQ. Qed.
End calls.

(** The provider's answer about the height of the last synchronised tip is that
    tip. *)
Definition still_in_chain (st : SyncState) (tip_height : N) (p : P) : Prop :=
  ∃ prev_hash prev_height p', ss_tip_hash st = Some prev_hash ∧ ss_tip_height st = Some prev_height ∧
    prev_height ≤ tip_height ∧ block_hash_at prev_height p = Some (Ok prev_hash, p').

(** The chain is more than a block shorter than at the last synchronised tip. *)
Definition tip_fell (st : SyncState) (tip_height : N) : Prop :=
  ∃ prev_height, ss_tip_height st = Some prev_height ∧ (tip_height + 1) mod 2 ^ 32 < prev_height.
Definition tip_moved (st : SyncState) (tip_hash : BlockHash) : Prop :=
  ∃ prev_hash, ss_tip_hash st = Some prev_hash ∧ prev_hash ≠ tip_hash.

(** What the provider says of its tip, and then of the last synchronised one: the
    chain does not extend that. *)
Definition reorganised (st : SyncState) (p : P) : Prop :=
  ∃ tip_hash tip_height p1, tip p = Some (Ok (tip_hash, tip_height), p1) ∧
    (tip_fell st tip_height ∨ tip_moved st tip_hash ∧ ¬ still_in_chain st tip_height p1).

(** The last synchronised tip and its leafset, kept or forgotten. *)
Definition kept (st0 st : SyncState) : Prop :=
  ss_leafset st = ss_leafset st0 ∧ ss_tip_hash st = ss_tip_hash st0.
Definition forgotten (st : SyncState) : Prop := ss_leafset st = [] ∧ ss_tip_hash st = None.
Definition kept_or_reset (seen : Prop) (st0 st : SyncState) : Prop :=
  (kept st0 st ∧ ¬ seen ∨ forgotten st ∧ seen) ∧ ss_tip_height st = ss_tip_height st0.

(** Every coin with a leaf is in the leafset. *)
Definition live (leafset : list N) (m : CoinMap) : Prop :=
  ∀ id c i, m !! id = Some c → mc_leaf_index c = Some i → bitset_test leafset i = true.

(** What a pass starts from: nothing synchronised, or coins that are live. *)
Definition ready (st : SyncState) (db : MwebCoinDatabase) : Prop :=
  keyed (db_coins db) ∧
  (ss_leafset st = [] ∨ live (ss_leafset st) (db_coins db) ∧ leaf_unique db).

(** The coins are those of the leafset, as far as they have a leaf: nothing was
    put in since, and nothing before the first synchronisation. *)
Definition in_step (st : SyncState) (db : MwebCoinDatabase) : Prop :=
  keyed (db_coins db) ∧ live (ss_leafset st) (db_coins db) ∧ leaf_unique db.

Lemma in_step_ready st db : in_step st db → ready st db.
Proof. intros (Hk & Hl & Hu). split; [done|]. by right. Qed.

(** The caller before the download, started from [c0]; [seen] is whether the
    chain was reorganised. *)
Definition before (seen : Prop) (c0 c : Caller K) : Prop :=
  kept_or_reset seen (ca_state c0) (ca_state c) ∧
  (ready (ca_state c0) (ca_db c0) → ready (ca_state c) (ca_db c)) ∧ (¬ seen → ca_db c = ca_db c0).

Definition map_stable (C : Caller K → Prop) : Prop :=
  ∀ c f, C c → C (mkCaller (set_height_map f (ca_state c)) (ca_db c) (ca_ck c) (ca_progress c)).

Lemma before_stable seen c0 : map_stable (before seen c0).
Proof. intros c f [Hk Hr]. by split. Qed.

Lemma wp_set_map (C : Caller K → Prop) f (w : W) :
  map_stable C → C (w_caller w) →
  wp (on_caller (on_state (set_height_map f))) w (post (λ _ w', C (w_caller w')) (λ _ _, False)).
Proof. intros HC Hw. apply wp_zoom, wp_modify. by apply HC. Qed.

Lemma wp_sample (C : Caller K → Prop) tip_height (w : W) :
  map_stable C → C (w_caller w) →
  wp (sample_fine_headers self tip_height) w (λ _ w', C (w_caller w')).
Proof.
  intros HC Hw. unfold sample_fine_headers. apply wp_bind.
  apply (wp_mono _ _ (post (λ _ w', C (w_caller w')) (λ _ _, False))).
  - apply (wp_for_each _ (λ _ w', C (w_caller w'))); [done|]. clear w Hw. intros h l w Hw.
    unfold sample_height. apply wp_bind, wp_get; cbn [post]. case_decide; [by apply wp_mret|].
    apply wp_bind, wp_try, wp_on_headers; [|apply block_hash_at_returns].
    intros [hash|e] w1 Hw1; cbn [post]; [|apply wp_mret; cbn [post]; by rewrite Hw1].
    apply wp_bind, wp_try, wp_on_source; [|apply (get_header_total (Src := Src))].
    intros [msg|e] w2 Hw2; cbn [post]; [|apply wp_mret; cbn [post]; by rewrite Hw2, Hw1].
    eapply wp_mono; [apply (wp_set_map C); [done|by rewrite Hw2, Hw1]|]. by intros [[]|e] w3.
  - intros [[]|e] w1; cbn [post]; [|done]. intros Hw1.
    apply wp_bind, wp_on_headers; [|apply tip_returns]. intros [[th n]|e] w2 Hw2; cbn [post]; [|by rewrite Hw2].
    apply wp_bind, wp_try, wp_on_source; [|apply (get_header_total (Src := Src))].
    intros [msg|e] w3 Hw3; cbn [post]; [|apply wp_mret; cbn [post]; by rewrite Hw3, Hw2].
    eapply wp_mono; [apply (wp_set_map C); [done|by rewrite Hw3, Hw2]|]. by intros [[]|e] w4.
Qed.

Lemma wp_extends_previous st shorter tip_height (w : W) :
  wp (extends_previous st shorter tip_height) w
    (post (λ ext w', w_caller w' = w_caller w ∧
      (ext = true ↔ shorter = false ∧ still_in_chain st tip_height (w_headers w))) (λ _ _, False)).
Proof.
  assert (∀ w' : W, w_caller w' = w_caller w → (shorter = false → ¬ still_in_chain st tip_height (w_headers w)) →
    w_caller w' = w_caller w ∧ (false = true ↔ shorter = false ∧ still_in_chain st tip_height (w_headers w))) as Hno
    by (intros w' Hw' Hnot; split; [done|]; split; [done|]; by intros [? ?%Hnot]).
  unfold extends_previous. destruct shorter; [by apply wp_mret, Hno|].
  destruct (ss_tip_hash st) as [ph|] eqn:Hph; [|apply wp_mret, Hno; [done|]; intros _ (? & ? & ? & ? & _); congruence].
  destruct (ss_tip_height st) as [pn|] eqn:Hpn; [|apply wp_mret, Hno; [done|]; intros _ (? & ? & ? & _ & ? & _); congruence].
  destruct (N.leb_spec pn tip_height) as [Hle|Hgt].
  2:{ apply wp_mret, Hno; [done|]. intros _ (ph' & pn' & p' & _ & ? & ? & _). simplify_eq. lia. }
  apply wp_bind, wp_try, wp_zoom, wp_total; [apply block_hash_at_returns|].
  intros r p Hr. cbn [post]. apply wp_mret. cbn [post w_caller]. split; [done|].
  rewrite bool_decide_eq_true. unfold still_in_chain. split.
  - intros ->. split; [done|]. by exists ph, pn, p.
  - intros [_ (ph' & pn' & p' & ? & ? & _ & Hp')]. by simplify_eq.
Qed.

(** The tip was just asked for. *)
Lemma wp_handle_reorg seen p tip_hash tip_height (w : W) :
  tip p = Some (Ok (tip_hash, tip_height), w_headers w) → seen = reorganised (ca_state (w_caller w)) p →
  wp (handle_reorg self tip_hash tip_height) w
    (post (λ _ w', before seen (w_caller w) (w_caller w')) (λ _ _, False)).
Proof.
  intros Htip ->. unfold handle_reorg. apply wp_bind, wp_gets; cbn [post].
  set (st := ca_state (w_caller w)).
  set (fell := match ss_tip_height st with Some prev => _ | None => false end).
  set (moved := match ss_tip_hash st with Some h => _ | None => false end).
  assert (fell = true ↔ tip_fell st tip_height) as Hfell.
  { unfold fell, tip_fell. destruct (ss_tip_height st) as [prev|]; [rewrite N.ltb_lt|]; naive_solver. }
  assert (moved = true ↔ tip_moved st tip_hash) as Hmoved.
  { unfold moved, tip_moved. destruct (ss_tip_hash st) as [h|]; [rewrite negb_true_iff, N.eqb_neq|]; naive_solver. }
  apply wp_bind. eapply wp_mono; [apply wp_extends_previous|].
  intros [ext|e] w1; cbn [post]; [|done]. intros [Hw1 Hext].
  assert ((fell || moved) && negb ext = true ↔ reorganised st p) as Hseen.
  { unfold reorganised. rewrite andb_true_iff, orb_true_iff, negb_true_iff, <-not_true_iff_false, Hext. split.
    - intros [Hor Hnot]. exists tip_hash, tip_height, (w_headers w). split; [done|].
      destruct fell; [left; by apply Hfell|right]. destruct Hor as [?|?%Hmoved]; [done|]. split; [done|]. by intros ?; apply Hnot.
    - intros (th & tn & p1 & Hp1 & Hor). rewrite Htip in Hp1. injection Hp1 as <- <- <-.
      destruct Hor as [Hf|[Hm Hnot]]; [apply Hfell in Hf as ->; split; [by left|by intros [? _]]|].
      split; [right; by apply Hmoved|]. by intros [_ ?]. }
  destruct ((fell || moved) && negb ext).
  - apply wp_bind, wp_gets; cbn [post]. apply wp_bind, wp_zoom, wp_modify; cbn [post].
    apply wp_zoom, wp_modify. cbn [w_caller ca_state ca_db ca_ck ca_progress]. rewrite Hw1.
    assert (reorganised st p) as Hyes by by apply Hseen.
    split_and!; cbn [ca_state ca_db].
    + split; [by right|done].
    + intros [Hk _]. split; [by apply keyed_disconnect_from|by left].
    + done.
  - apply wp_mret. cbn [post]. rewrite Hw1. assert (¬ reorganised st p) as Hno by by intros ?%Hseen.
    split_and!; [split; [by left|done]|done|done].
Qed.

Lemma wp_fetch_tip tip_hash tip_height (w : W) (C : Caller K → Prop) :
  map_stable C → C (w_caller w) →
  wp (fetch_tip self tip_hash tip_height) w
    (post (λ '(header, leafset) w', C (w_caller w') ∧
        (sy_verify self = Anchored → ∃ msg, delivers (MsgHeader msg) ∧
          verify_anchored msg tip_hash = Some (Ok tt) ∧ header = Some (hm_mweb_header msg)) ∧
        delivers (MsgLeafset leafset) ∧
        (∀ hdr, header = Some hdr →
          verify_leafset_at leafset tip_hash (mh_leafset_root hdr) (mh_output_mmr_size hdr) = Ok tt))
      (λ _ w', C (w_caller w'))).
Proof.
  intros HC Hw. unfold fetch_tip. apply wp_bind, wp_zoom.
  apply (wp_mono _ _ (post (λ header _, sy_verify self = Anchored →
    ∃ msg, delivers (MsgHeader msg) ∧ verify_anchored msg tip_hash = Some (Ok tt) ∧
      header = Some (hm_mweb_header msg)) (λ _ _, True))).
  { apply (wp_fetch_header delivers); cbn [post]; [congruence| |done].
    intros msg _ _ Hdel Ha Hm. eauto. }
  intros [header|e] s1; cbn [post w_caller]; [|done]. intros Ha.
  apply wp_bind.
  apply (wp_mono _ _ (post (λ _ w', C (w_caller w')) (λ _ _, False))).
  { destruct header as [hdr|]; [by apply wp_set_map|by apply wp_mret]. }
  intros [[]|e] w1; cbn [post]; [|done]. intros Hw1.
  apply wp_bind, wp_zoom, (wp_fetch_leafset delivers); cbn [post w_caller]; [|done].
  intros leafset s2 _ Hdel Hls. apply wp_mret. cbn [post w_caller]. done.
Qed.

(** What the plan of the download is about. *)
Record planned (tip_hash : BlockHash) (tip_height : N) (header : option MwebBlockHeader)
    (leafset : MwebLeafset) (seen : Prop) (c0 c : Caller K) (pass : Pass) : Prop := {
  pl_tip : pa_tip_hash pass = tip_hash ∧ pa_tip_height pass = tip_height;
  pl_header : pa_header pass = header;
  pl_leafset : pa_leafset pass = leafset;
  pl_indices : ∀ i, i ∈ pa_indices pass →
    bitset_test (ss_leafset (ca_state c)) i = false ∧ bitset_test (ls_leafset leafset) i = true;
  pl_map : pa_height_map pass = ss_height_map (ca_state c);
  pl_state : kept_or_reset seen (ca_state c0) (ca_state c);
  pl_step : ¬ seen → in_step (ca_state c0) (ca_db c0) →
    live (ss_leafset (ca_state c)) (db_coins (ca_db c)) ∧ leaf_unique (ca_db c);
  pl_coins : ready (ca_state c0) (ca_db c0) → keyed (db_coins (ca_db c)) ∧
    (ss_leafset (ca_state c) ≠ [] → live (ls_leafset leafset) (db_coins (ca_db c)));
}.

Lemma wp_plan tip_hash tip_height header leafset seen (c0 c : Caller K) :
  before seen c0 c →
  wp (plan_download self tip_hash tip_height header leafset) c
    (post (λ '(pass, _, _) c', planned tip_hash tip_height header leafset seen c0 c' pass) (λ _ _, False)).
Proof.
  intros (Hk & Hr & Hsame). unfold plan_download. apply wp_bind, wp_get; cbn [post].
  pose proof (elem_of_diff_leafsets (ss_leafset (ca_state c)) (ls_leafset leafset)) as Hdiff.
  pose proof (mark_removed_fold (ld_removed (diff_leafsets (ss_leafset (ca_state c)) (ls_leafset leafset)))
    (ca_db c) []) as Hmark. cbn zeta in Hmark.
  destruct (foldl mark_removed _ _) as [db spent]. cbn [fst] in Hmark. destruct Hmark as [Hsub Hgone].
  apply wp_bind, wp_modify; cbn [post]. cbn [ca_state].
  set (idx := match resume_cursor (ca_state c) tip_hash with
    | Some c1 => skip_to (ld_added (diff_leafsets (ss_leafset (ca_state c)) (ls_leafset leafset))) 0 c1
    | None => 0%nat end).
  set (pass := mkPass _ _ _ _ _ _ idx _).
  apply wp_bind. apply (wp_mono _ _ (λ r c1, r = Ok tt ∧ ca_state c1 = ca_state c ∧ ca_db c1 = db)).
  { unfold publish_progress. destruct (sy_progress self); [by apply wp_modify|by apply wp_mret]. }
  intros r c1 (-> & Hst & Hdb). cbn [post]. apply wp_bind, wp_modify; cbn [post]. apply wp_mret.
  split; cbn [pa_tip_hash pa_tip_height pa_header pa_leafset pa_indices pa_height_map pass ca_state ca_db];
    rewrite ?Hst, ?Hdb; try done.
  - intros i Hi. by apply Hdiff in Hi.
  - cbn [ss_leafset set_pending]. intros Hno (_ & Hlive & Hu). destruct Hk as [[[[-> _] _]|[_ ?]] _]; [|done].
    rewrite (Hsame Hno) in Hsub. split; [|by eapply leaf_unique_sub].
    intros id d i Hd. eapply Hlive. by eapply lookup_weaken.
  - intros [Hkey Hlive]%Hr. split; [by eapply keyed_sub|]. cbn [ss_leafset set_pending]. intros Hne.
    destruct Hlive as [?|[Hlive Hu]]; [done|]. intros id d i Hd Hdi.
    assert (bitset_test (ss_leafset (ca_state c)) i = true) as Hold.
    { eapply Hlive; [|done]. by eapply lookup_weaken. }
    pose proof (Hgone Hkey Hu id d i Hd Hdi) as Hnot. rewrite (proj2 (Hdiff i)) in Hnot.
    destruct (bitset_test (ls_leafset leafset) i); [done|]. by destruct Hnot.
Qed.

(** The coins after a pass: dated, and in the leafset. *)
Definition settled (st : SyncState) (db : MwebCoinDatabase) : Prop :=
  keyed (db_coins db) ∧
  ∃ tip_height, ss_tip_height st = Some tip_height ∧
    ∀ id c i, db_coins db !! id = Some c → mc_leaf_index c = Some i →
      bitset_test (ss_leafset st) i = true ∧
      mc_block_height c = Some (date_leaf_index (ss_height_map st) i tip_height).

Lemma redate_leaf hm tip_height db id c i :
  keyed (db_coins db) → db_coins (redate hm tip_height db) !! id = Some c → mc_leaf_index c = Some i →
  mc_block_height c = Some (date_leaf_index hm i tip_height) ∧
  ∃ c0, db_coins db !! id = Some c0 ∧ mc_leaf_index c0 = Some i.
Proof.
  intros Hk. rewrite redate_lookup by done. intros (c0 & Hc0 & ->)%fmap_Some Hi.
  rewrite redated_leaf in Hi. split; [|by exists c0]. unfold redated. by rewrite Hi.
Qed.

Lemma wp_finish_pass pass resumed ids spent (c : Caller K) (Q : result Error (list Bytes32) → Caller K → Prop) :
  (∀ spent' c', ss_tip_hash (ca_state c') = Some (pa_tip_hash pass) →
     ss_leafset (ca_state c') = ls_leafset (pa_leafset pass) →
     ss_pending_tip_hash (ca_state c') = None → ss_utxo_cursor (ca_state c') = None →
     (harmless → pa_height_map pass = ss_height_map (ca_state c) → keyed (db_coins (ca_db c)) →
      (ss_leafset (ca_state c) ≠ [] → live (ls_leafset (pa_leafset pass)) (db_coins (ca_db c))) →
      settled (ca_state c') (ca_db c')) →
     (harmless → keyed (db_coins (ca_db c)) → leaf_unique (ca_db c) → leaf_unique (ca_db c')) → Q (Ok spent') c') →
  wp (finish_pass checkpoint pass resumed ids spent) c Q.
Proof.
  intros HQ. unfold finish_pass. apply wp_bind, wp_get; cbn [post].
  set (db1 := redate (pa_height_map pass) (pa_tip_height pass) (ca_db c)).
  match goal with |- wp (let '(_, _) := ?d in _) _ _ => set (final := d) end.
  assert (keyed (db_coins (ca_db c)) →
    (ss_leafset (ca_state c) ≠ [] → live (ls_leafset (pa_leafset pass)) (db_coins (ca_db c))) →
    keyed (db_coins final.1) ∧ ∀ id d i, db_coins final.1 !! id = Some d → mc_leaf_index d = Some i →
      bitset_test (ls_leafset (pa_leafset pass)) i = true ∧
      mc_block_height d = Some (date_leaf_index (pa_height_map pass) i (pa_tip_height pass))) as Hfinal.
  { intros Hk Hlive. unfold final. pose proof (keyed_redate (pa_height_map pass) (pa_tip_height pass) _ Hk) as Hk1.
    fold db1 in Hk1. case_decide as Hnil.
    - pose proof (mark_gone_fold (ls_leafset (pa_leafset pass)) ids resumed
        ((λ c, (mc_output_id c, mc_leaf_index c)) <$> unspent db1) db1 spent) as Hg. cbn zeta in Hg.
      destruct (foldl _ _ _) as [db2 sp]. cbn [fst] in *. destruct Hg as [Hsub Hgone].
      split; [by eapply keyed_sub|]. intros id d i Hd Hi.
      assert (db_coins db1 !! id = Some d) as Hd1 by by eapply lookup_weaken.
      destruct (redate_leaf _ _ _ _ _ _ Hk Hd1 Hi) as [Hh _]. split; [|done].
      pose proof (Hgone (mc_output_id d, mc_leaf_index d)) as Hng. rewrite Hi in Hng. cbn in Hng.
      apply negb_false_iff. apply Hng.
      + apply list_elem_of_fmap. exists d. rewrite Hi. split; [done|]. apply elem_of_unspent. by exists id.
      + rewrite (Hk1 _ _ Hd1). by exists d.
    - split; [done|]. cbn [fst]. intros id d i Hd Hi.
      destruct (redate_leaf _ _ _ _ _ _ Hk Hd Hi) as (Hh & d0 & Hd0 & Hi0).
      split; [|done]. by eapply (Hlive Hnil). }
  assert (keyed (db_coins (ca_db c)) → leaf_unique (ca_db c) → leaf_unique final.1) as Hunique.
  { intros Hk Hu. apply (leaf_unique_sub db1).
    - unfold final. case_decide; [|done]. apply mark_gone_fold.
    - intros id id' d d' i Hd Hd' Hi Hi'. destruct (redate_leaf _ _ _ _ _ _ Hk Hd Hi) as (_ & d0 & ? & ?).
      destruct (redate_leaf _ _ _ _ _ _ Hk Hd' Hi') as (_ & d0' & ? & ?). by apply (Hu id id' d0 d0' i). }
  destruct final as [db2 spent2]. cbn [fst] in Hfinal, Hunique.
  apply wp_bind, wp_modify; cbn [post]. apply wp_bind, wp_modify; cbn [post].
  cbn [ca_state ca_db ca_ck ca_progress].
  destruct checkpoint as [cb|] eqn:Hcb.
  - apply wp_bind, wp_modify; cbn [post]. cbn [ca_state ca_db ca_ck ca_progress]. apply wp_mret.
    destruct (cb _ _ _) as [db3 k3] eqn:Hrun.
    assert (harmless → db_coins db3 = db_coins db2) as Hsame.
    { intros Hh. match type of Hrun with cb ?st _ ?k = _ => pose proof (Hh cb Hcb st db2 k) as He end. by rewrite Hrun in He. }
    apply HQ; try done; [|intros Hh Hk Hu; cbn [ca_db]; unfold leaf_unique; rewrite (Hsame Hh); by apply Hunique].
    intros Hh Hm Hk Hl. cbn [ca_state ca_db]. destruct (Hfinal Hk Hl) as [Hk2 Hc2]. pose proof (Hsame Hh) as He.
    split; [by rewrite He|]. exists (pa_tip_height pass). split; [done|]. cbn [ss_leafset ss_height_map].
    rewrite He, <-Hm. exact Hc2.
  - apply wp_bind, wp_mret; cbn [post]. apply wp_mret. apply HQ; try done.
    intros _ Hm Hk Hl. cbn [ca_state ca_db]. destruct (Hfinal Hk Hl) as [Hk2 Hc2].
    split; [done|]. exists (pa_tip_height pass). split; [done|]. cbn [ss_leafset ss_height_map].
    rewrite <-Hm. exact Hc2.
Qed.

Lemma wp_run_download idx (m : Eff (Src * Down K) Error unit) (w : W) (Q : result Error (Down K) → W → Prop) :
  wp m (w_source w, mkDown (w_caller w) idx 0 ∅ (effective_batch_size self) [] 0)
    (λ r sd, Q (match r with Ok _ => Ok sd.2 | Err e => Err e end)
      (mkWorld (w_headers w) (w_notifier w) sd.1 (dn_caller sd.2))) →
  wp (run_download self idx m) w Q.
Proof.
  intros (r & [s d] & Hm & HQ). unfold run_download.
  exists (match r with Ok _ => Ok d | Err e => Err e end), (mkWorld (w_headers w) (w_notifier w) s (dn_caller d)).
  by rewrite Hm.
Qed.

(** What a pass that returned has been through. *)
Record passed (seen : Prop) (c0 : Caller K) (pass : Pass) (res : SyncResult) (c : Caller K) : Prop := {
  pd_anchored : sy_verify self = Anchored →
    ∃ msg, delivers (MsgHeader msg) ∧ verify_anchored msg (pa_tip_hash pass) = Some (Ok tt) ∧
      pa_header pass = Some (hm_mweb_header msg);
  pd_delivered : delivers (MsgLeafset (pa_leafset pass));
  pd_leafset : ∀ hdr, pa_header pass = Some hdr →
    verify_leafset_at (pa_leafset pass) (pa_tip_hash pass) (mh_leafset_root hdr) (mh_output_mmr_size hdr) = Ok tt;
  pd_state : ss_tip_hash (ca_state c) = Some (pa_tip_hash pass) ∧
    ss_leafset (ca_state c) = ls_leafset (pa_leafset pass) ∧
    ss_pending_tip_hash (ca_state c) = None ∧ ss_utxo_cursor (ca_state c) = None;
  pd_found : ∀ c, c ∈ sr_found res → found_in pass c;
  pd_settled : harmless → ready (ca_state c0) (ca_db c0) → settled (ca_state c) (ca_db c);
  pd_unique : harmless → ¬ seen → in_step (ca_state c0) (ca_db c0) →
    (∀ d d' leaf, found_in pass d → found_in pass d' → mc_leaf_index d = Some leaf → mc_leaf_index d' = Some leaf →
      mc_output_id d = mc_output_id d') → leaf_unique (ca_db c);
}.

Lemma found_in_index pass c i : found_in pass c → mc_leaf_index c = Some i → i ∈ pa_indices pass.
Proof. intros (batch & u & c0 & _ & _ & Hin & _ & ->) Hi. cbn in Hi. by injection Hi as <-. Qed.

Lemma wp_run_once (w : W) :
  wp (run_once self keys book checkpoint) w
    (post (λ res w', ∃ pass, passed (reorganised (ca_state (w_caller w)) (w_headers w)) (w_caller w) pass res (w_caller w'))
      (λ _ w', kept_or_reset (reorganised (ca_state (w_caller w)) (w_headers w)) (ca_state (w_caller w)) (ca_state (w_caller w')) ∨
        w_caller w' = w_caller w ∧ ∃ e n, wait_headers_synced (w_notifier w) = Some (Err e, n))).
Proof.
  set (c0 := w_caller w). set (seen := reorganised (ca_state c0) (w_headers w)). unfold run_once.
  apply wp_bind, wp_zoom, wp_total; [apply wait_headers_returns|].
  intros [[]|e] n1 Hn1; cbn [post w_caller]; [|right; by eauto].
  apply wp_bind, wp_zoom, wp_total; [apply tip_returns|]. cbn [w_headers w_notifier w_source w_caller].
  intros [[tip_hash tip_height]|e] p1 Hp1; cbn [post w_caller].
  2:{ left. split; [|done]. left. split; [done|]. intros (th & tn & p2 & Hp2 & _). congruence. }
  apply wp_bind. eapply wp_mono; [by apply (wp_handle_reorg seen (w_headers w))|].
  intros [[]|e] w3; cbn [post w_caller]; [|done]. fold c0. intros Hw3.
  apply wp_bind. eapply wp_mono; [apply (wp_sample (before seen c0)); [apply before_stable|done]|].
  intros r w4 Hw4. destruct r as [[]|e]; cbn [post]; [|left; by destruct Hw4].
  apply wp_bind. eapply wp_mono; [apply (wp_fetch_tip _ _ _ (before seen c0)); [apply before_stable|done]|].
  intros [[header leafset]|e] w5; cbn [post]; [|intros [? _]; by left]. intros (Hw5 & Hanch & Hdel & Hls).
  apply wp_bind, wp_zoom. eapply wp_mono; [by apply wp_plan|].
  intros [[[pass resumed] spent]|e] c6; cbn [post]; [|done]. intros Hplan.
  destruct Hplan as [[Ht1 Ht2] Hhdr Hpls Hidx Hmap Hst Hstep Hcoins].
  apply wp_bind, wp_run_download. cbn [w_source w_caller w_headers w_notifier].
  eapply wp_mono.
  { apply (wp_download_pass pass (ca_state c6) (db_coins (ca_db c6))).
    split; cbn; [done|apply effective_batch_size_range|by intros c ?%elem_of_nil|].
    intros [_ Hk]. split; [done|by right]. }
  intros r [s7 d] Hd. cbn [fst snd] in *. destruct Hd as [Hsnap _ Hfound Hm].
  assert (ss_leafset (ca_state (dn_caller d)) = ss_leafset (ca_state c6) ∧
    ss_height_map (ca_state (dn_caller d)) = ss_height_map (ca_state c6) ∧
    kept_or_reset seen (ca_state c0) (ca_state (dn_caller d))) as (Hsl & Hsm & Hsk).
  { unfold snapshot in Hsnap. injection Hsnap as E1 E2 E3 E4 E5. unfold kept_or_reset, kept, forgotten. by rewrite E1, E2, E3. }
  destruct r as [[]|e]; cbn [post w_caller]; [|by left].
  apply wp_bind, wp_zoom, wp_finish_pass. intros spent' c8 Es1 Es2 Es3 Es4 Hset Huni. cbn [post w_caller].
  cbn [w_caller] in Hset, Huni. apply wp_mret. cbn [post w_caller]. exists pass. split; cbn [sr_found]; try done.
  - by rewrite Ht1, Hhdr.
  - by rewrite Hpls.
  - rewrite Ht1, Hhdr, Hpls. done.
  - intros Hharm Hready. destruct (Hcoins Hready) as [Hk6 Hl6]. destruct (Hm (conj Hharm Hk6)) as [Hk Hc].
    apply Hset; [done|by rewrite Hsm|done|]. rewrite Hsl, Hpls. intros Hne id c i Hid Hi.
    destruct (Hc id c Hid) as [Hin|Hin]; [by apply Hidx, (found_in_index pass c)|by eapply (Hl6 Hne)].
  - intros Hharm Hno Hin Hone. destruct (Hcoins (in_step_ready _ _ Hin)) as [Hk6 _]. destruct (Hm (conj Hharm Hk6)) as [Hk Hc].
    apply Huni; [done..|]. destruct (Hstep Hno Hin) as [Hlive Hu]. clear - Hk Hc Hlive Hu Hidx Hone.
    intros id id' c c' i Hid Hid' Hi Hi'. destruct (Hc id c Hid) as [Hf|Hold], (Hc id' c' Hid') as [Hf'|Hold'].
    + rewrite <-(Hk _ _ Hid), <-(Hk _ _ Hid'). by eapply Hone.
    + apply (found_in_index pass c i) in Hf; [|done]. destruct (Hidx i Hf) as [Hf1 _]. rewrite (Hlive _ _ _ Hold' Hi') in Hf1. done.
    + apply (found_in_index pass c' i) in Hf'; [|done]. destruct (Hidx i Hf') as [Hf1 _]. rewrite (Hlive _ _ _ Hold Hi) in Hf1. done.
    + by eapply Hu.
Qed.

(** C16. A pass comes to an end, for every peer, provider and notifier that answer:
    replays, gaps and bad proofs neither keep it going nor make it panic. *)
Theorem run_once_returns (w : W) : is_Some (run_once self keys book checkpoint w).
Proof. destruct (wp_run_once w) as (r & w' & Hr & _). by exists (r, w'). Qed.

(** C24. A pass that fails records nothing as synchronised.  Either the notifier
    failed, and nothing of the caller has changed; or the tip and the leafset
    are those of before if the provider's chain extends the last synchronised
    tip, and are forgotten, so that the next pass downloads afresh, if and only
    if it was reorganised: it fell more than a block short, or its tip is another
    and it does not have the last one at its height. *)
Theorem run_once_failure (w w' : W) e :
  run_once self keys book checkpoint w = Some (Err e, w') →
  let st := ca_state (w_caller w) in
  let st' := ca_state (w_caller w') in
  (w_caller w' = w_caller w ∧ ∃ e n, wait_headers_synced (w_notifier w) = Some (Err e, n)) ∨
  ss_tip_height st' = ss_tip_height st ∧
  (¬ reorganised st (w_headers w) ∧ ss_leafset st' = ss_leafset st ∧ ss_tip_hash st' = ss_tip_hash st ∨
   reorganised st (w_headers w) ∧ ss_leafset st' = [] ∧ ss_tip_hash st' = None).
Proof.
  intros Hrun. destruct (wp_run _ _ _ _ _ (wp_run_once w) Hrun) as [[Hcase Hh]|Hfail]; [right|by left].
  split; [done|]. unfold kept, forgotten in Hcase. tauto.
Qed.

Context `{!SecpLaws, !ZkpLaws, !WalletLaws, !MwLaws}.

(** What the chain commits to: for a block, the MWEB header and the output ids
    under it.  A header that the peer may send and that is anchored in a block is
    the one of the block, and what is hashed to verify a batch does not
    collide. *)
Record committed (chain : BlockHash → MwebBlockHeader * list Bytes32) : Prop := {
  cm_roots : ∀ b, mh_output_root (chain b).1 = reference_root (chain b).2 ∧
    mh_output_mmr_size (chain b).1 = num_ids (chain b).2;
  cm_anchored : ∀ msg b, delivers (MsgHeader msg) → verify_anchored msg b = Some (Ok tt) →
    hm_mweb_header msg = (chain b).1;
  cm_collision_free : ∀ b batch leafset, delivers (MsgUtxos batch) → delivers (MsgLeafset leafset) →
    verify_leafset_at leafset b (mh_leafset_root (chain b).1) (mh_output_mmr_size (chain b).1) = Ok tt →
    collision_free (mmr_payloads (chain b).2 ++ batch_payloads batch leafset (chain b).1);
}.

(** What a pass with anchored verification has verified. *)
Lemma passed_verified chain seen c0 pass res c :
  committed chain → sy_verify self = Anchored → passed seen c0 pass res c →
  verify_leafset_at (pa_leafset pass) (pa_tip_hash pass) (mh_leafset_root (chain (pa_tip_hash pass)).1)
    (mh_output_mmr_size (chain (pa_tip_hash pass)).1) = Ok tt ∧
  ∀ d, found_in pass d → ∃ u d0 leaf, rewind_output keys book (ue_output u) = Ok (Some d0) ∧
    d = entry_coin (λ leaf, Some (date_in pass leaf)) (entry_pair u) d0 ∧ mc_leaf_index d = Some leaf ∧
    (chain (pa_tip_hash pass)).2 !! N.to_nat leaf = Some (mc_output_id d) ∧
    bitset_test (ls_leafset (pa_leafset pass)) leaf = true.
Proof.
  intros [Hchain Hanch Hcf] Hmode [Ha Hdel Hls _ _ _ _].
  destruct (Ha Hmode) as (msg & Hdm & Hmsg & Hhdr). rewrite (Hanch _ _ Hdm Hmsg) in Hhdr.
  split; [by apply Hls|]. intros d (batch & u & d0 & Hacc & Hu & Hin & Hr & ->). rewrite Hhdr in Hacc.
  destruct (Hchain (pa_tip_hash pass)) as [Hroot Hsize].
  destruct (accepted_entry delivers (chain (pa_tip_hash pass)).2 (chain (pa_tip_hash pass)).1
    (pa_leafset pass) batch u) as [Hid Hbit]; [done..| |done|done|].
  { apply Hcf; [apply Hacc|done|by apply Hls]. }
  exists u, d0, (ue_leaf_index u). split_and!; [done..| |done]. cbn. by rewrite (rewind_output_id _ _ _ _ Hr).
Qed.

(** C15. Take a pass whose checkpoint closure leaves the coins alone, and which
    starts with nothing synchronised, or with coins that have their bits in the
    recorded leafset, one coin per leaf.  If it succeeds, the state names the
    leafset it ended with and no download is pending; every unspent coin with a
    leaf has its bit set in that leafset, and its height is the first sampled
    height by which the leaf existed.  With anchored verification, on a chain
    that was not reorganised, the next pass can start from there: there is again
    one coin per leaf.  What a differential pass leaves that failed after it had
    found coins need not be such a start: what follows then is shown by
    [MwebSyncSamples.interrupted_pass_keeps_spent_coin]. *)
Theorem run_once_settles (w w' : W) res :
  harmless → ready (ca_state (w_caller w)) (ca_db (w_caller w)) →
  run_once self keys book checkpoint w = Some (Ok res, w') →
  let st' := ca_state (w_caller w') in
  settled st' (ca_db (w_caller w')) ∧ is_Some (ss_tip_hash st') ∧
  ss_pending_tip_hash st' = None ∧ ss_utxo_cursor st' = None ∧
  ∀ chain, sy_verify self = Anchored → committed chain → ¬ reorganised (ca_state (w_caller w)) (w_headers w) →
    in_step (ca_state (w_caller w)) (ca_db (w_caller w)) → in_step st' (ca_db (w_caller w')).
Proof.
  intros Hh Hr Hrun. destruct (wp_run _ _ _ _ _ (wp_run_once w) Hrun) as (pass & Hp). cbn zeta.
  pose proof Hp as [_ _ _ (Ht & _ & Hpend & Hu) _ Hset Huni]. specialize (Hset Hh Hr).
  split_and!; [done|by eexists|done|done|]. intros chain Hmode Hc Hno Hin.
  destruct (passed_verified chain _ _ _ _ _ Hc Hmode Hp) as [_ Hv]. destruct Hset as (Hk & tip_height & _ & Hall).
  split_and!; [done|intros id d i Hd Hi; by eapply Hall|]. apply Huni; [done..|].
  intros d d' leaf (u & d0 & i & _ & _ & Hi & Hid & _)%Hv (u' & d0' & i' & _ & _ & Hi' & Hid' & _)%Hv Hd Hd'.
  congruence.
Qed.

(** C13. With anchored verification every coin a pass reports as found is genuine
    and is an unspent output of the set that the chain commits to at the tip that
    the pass records: its id is at its leaf in the output ids under the header,
    and its bit is set in a leafset that verifies against the same header, which
    is the one recorded. *)
Theorem run_once_sound (chain : BlockHash → MwebBlockHeader * list Bytes32) (w w' : W) res gap :
  book_from_keys keys gap = Ok book → sy_verify self = Anchored → committed chain →
  run_once self keys book checkpoint w = Some (Ok res, w') →
  ∃ tip_hash leafset, ss_tip_hash (ca_state (w_caller w')) = Some tip_hash ∧
    ss_leafset (ca_state (w_caller w')) = ls_leafset leafset ∧
    verify_leafset_at leafset tip_hash (mh_leafset_root (chain tip_hash).1)
      (mh_output_mmr_size (chain tip_hash).1) = Ok tt ∧
    ∀ c, c ∈ sr_found res → genuine c ∧
      ∃ leaf, mc_leaf_index c = Some leaf ∧ (chain tip_hash).2 !! N.to_nat leaf = Some (mc_output_id c) ∧
        bitset_test (ls_leafset leafset) leaf = true.
Proof.
  intros Hbook%book_from_keys_spec Hmode Hc Hrun.
  destruct (wp_run _ _ _ _ _ (wp_run_once w) Hrun) as (pass & Hp).
  destruct (passed_verified chain _ _ _ _ _ Hc Hmode Hp) as [Hls Hv].
  destruct Hp as [_ _ _ (Ht & Hset & _) Hf _ _].
  exists (pa_tip_hash pass), (pa_leafset pass). split_and!; [done..|]. intros c Hin.
  destruct (Hv c (Hf c Hin)) as (u & d0 & leaf & Hr & Heq & Hleaf & Hid & Hbit).
  split; [|by exists leaf]. apply (rewind_found _ gap) in Hr; [|done]. rewrite Heq. apply genuine_entry_coin, Hr.
Qed.
End pass.
