(* ===== verification/MwebPool.v ===== *)
(** * The pool of peers

    Models [PeerPool] of [crates/mweb/src/mweb_sync.rs] and the passes that run
    on it.  Connecting and the clock belong to the outside world, the class
    [PoolWorld].  The theorems: addresses are only banned for cause, a
    rate-limited peer is not, and trying the peers comes to an end. *)
From S2P Require Import Prelude Effects Block Tx SpkIndex Mmr MwebWire MwebCoins MwebKeys MwebTx MwebScan MwebAnchor MwebSync MwebSyncData MwebSyncer.

#[local] Open Scope N_scope.

(** [W] is the world, [A] socket addresses, [Peer] connections. *)
Class PoolWorld (W A Peer : Type) := {
  (** [Instant::now()], in seconds; time may pass. *)
  instant_now : W → W * N;
  (** [TcpMwebPeer::connect], for the network of the caller. *)
  connect : A → Eff W Error Peer;
}.

Record PeerPool (A : Type) `{Countable A} := mkPool {
  pp_addrs : list A;
  pp_banned : gmap A N;
  pp_ban_for : N;
  pp_next : N;
  pp_last_connected : option A;
}.
Arguments mkPool {A _ _}. Arguments pp_addrs {A _ _}. Arguments pp_banned {A _ _}.
Arguments pp_ban_for {A _ _}. Arguments pp_next {A _ _}. Arguments pp_last_connected {A _ _}.

Section pool.
Context {W A Peer : Type} `{Countable A} `{!PoolWorld W A Peer}.
Implicit Types (pool : PeerPool A) (addr : A).

Definition pool_new (addrs : list A) : PeerPool A := mkPool addrs ∅ 300 0 None.
Definition pool_len pool : nat := length (pp_addrs pool).
Definition pool_is_empty pool : bool := bool_decide (pp_addrs pool = []).

Definition read_clock : Eff (W * PeerPool A) Error N :=
  state_fn (λ wp, let '(w, n) := instant_now wp.1 in ((w, wp.2), Ok n)).

Definition ban addr : Eff (W * PeerPool A) Error unit :=
  now ← read_clock;
  on_snd (modify (λ pool, mkPool (pp_addrs pool) (<[addr := now + pp_ban_for pool]> (pp_banned pool))
    (pp_ban_for pool) (pp_next pool) (pp_last_connected pool))).

Definition ban_last_connected : Eff (W * PeerPool A) Error unit :=
  pool ← gets snd;
  match pp_last_connected pool with
  | Some addr => ban addr
  | None => mret tt
  end.

Definition is_banned addr : Eff (W * PeerPool A) Error bool :=
  pool ← gets snd;
  match pp_banned pool !! addr with
  | Some until => now ← read_clock; mret (now <? until)
  | None => mret false
  end.

(** The address whose turn it is; the counter wraps around. *)
Definition next_addr (n : nat) : Eff (W * PeerPool A) Error A :=
  pool ← gets snd;
  match pp_addrs pool !! N.to_nat (pp_next pool mod N.of_nat n) with
  | None => hang
  | Some addr =>
    _ ← on_snd (modify (λ pool, mkPool (pp_addrs pool) (pp_banned pool) (pp_ban_for pool)
          ((pp_next pool + 1) mod 2 ^ 64) (pp_last_connected pool)));
    mret addr
  end.

Definition set_connected addr : Eff (W * PeerPool A) Error unit :=
  on_snd (modify (λ pool, mkPool (pp_addrs pool) (pp_banned pool) (pp_ban_for pool) (pp_next pool)
    (Some addr))).

(** The loop of [connect_next], [k] turns of [n]. *)
Fixpoint connect_loop (k n : nat) (last_err : option Error) : Eff (W * PeerPool A) Error Peer :=
  match k with
  | O => fail (default (Crypto "all peers banned or unreachable") last_err)
  | S k =>
    addr ← next_addr n;
    banned ← is_banned addr;
    if banned : bool then connect_loop k n last_err
    else
      peer ← try_ (E := Error) (on_fst (connect addr));
      match peer with
      | Ok p => _ ← set_connected addr; mret p
      | Err e => _ ← ban addr; connect_loop k n (Some e)
      end
  end.

Definition connect_next : Eff (W * PeerPool A) Error Peer :=
  pool ← gets snd;
  if decide (pp_addrs pool = []) then fail (Crypto "no LIP-0006 peer addresses")
  else connect_loop (length (pp_addrs pool)) (length (pp_addrs pool)) None.

Definition connect_first_peer (addrs : list A) : Eff W Error Peer := λ w,
  match connect_next (w, pool_new addrs) with
  | Some (r, (w, _)) => Some (r, w)
  | None => None
  end.

(** The loop of [with_failover]; [f] works on the connection and the world. *)
Fixpoint failover_loop {R} (f : Peer → Eff W Error R) (attempts : nat) (last_err : option Error) :
    Eff (W * PeerPool A) Error R :=
  match attempts with
  | O => fail (default (Crypto "MWEB sync failed on all peers") last_err)
  | S attempts =>
    peer ← try_ (E := Error) connect_next;
    match peer with
    | Err e => failover_loop f attempts (Some e)
    | Ok peer =>
      r ← try_ (E := Error) (on_fst (f peer));
      match r with
      | Ok r => mret r
      | Err e =>
        if decide (ban_reason e = Some Throttled) then failover_loop f attempts (Some e)
        else if is_banworthy_peer_error e then
          _ ← ban_last_connected;
          failover_loop f attempts (Some e)
        else fail e
      end
    end
  end.
Definition with_failover {R} (f : Peer → Eff W Error R) : Eff (W * PeerPool A) Error R :=
  pool ← gets snd;
  failover_loop f (max (pool_len pool) 1) None.
End pool.

(** ** Passes on a pool *)

Section passes.
Context `{Blake3, Wallet, !Zkp, !MwSerialize, MerkleProofs}.
Context {P Nt Src K : Type} `{!BlockHeaderProvider P, !SyncNotifier Nt, !MwebUtxoSource Src}.
Context {Net A : Type} `{Countable A}.

(** The world without a peer: the network, the provider, the notifier and what
    the caller lends. *)
Record PoolSide := mkSide { ps_net : Net; ps_headers : P; ps_notifier : Nt; ps_caller : Caller K }.

Definition side_world (instant : Net → Net * N) (dial : A → Eff Net Error Src) :
    PoolWorld PoolSide A Src := {|
  instant_now w :=
    let '(net, n) := instant (ps_net w) in (mkSide net (ps_headers w) (ps_notifier w) (ps_caller w), n);
  connect addr := zoom ps_net (λ net w, mkSide net (ps_headers w) (ps_notifier w) (ps_caller w)) (dial addr);
|}.

(** [run_once] with the connection as its source. *)
Definition run_once_on (self : MwebSyncer) (keys : MasterKeys) (book : AddressBook) (peer : Src) :
    Eff PoolSide Error SyncResult := λ w,
  match run_once self keys book None (mkWorld (ps_headers w) (ps_notifier w) peer (ps_caller w)) with
  | None => None
  | Some (r, w') => Some (r, mkSide (ps_net w) (w_headers w') (w_notifier w') (w_caller w'))
  end.

Definition run_once_with_pool `{!PoolWorld PoolSide A Src} (self : MwebSyncer) (keys : MasterKeys)
    (book : AddressBook) : Eff (PoolSide * PeerPool A) Error SyncResult :=
  with_failover (run_once_on self keys book).

Definition on_side_notifier {T} (m : Eff Nt Error T) : Eff (PoolSide * PeerPool A) Error T :=
  on_fst (zoom ps_notifier (λ n w, mkSide (ps_net w) (ps_headers w) n (ps_caller w)) m).

Definition run_loop_with_pool `{!PoolWorld PoolSide A Src} (turns : nat) (self : MwebSyncer)
    (keys : MasterKeys) (book : AddressBook) (should_stop : nat → bool) :
    Eff (PoolSide * PeerPool A) Error SyncResult :=
  follow_tip (run_once_with_pool self keys book) (on_side_notifier header_tip_height)
    (λ h, on_side_notifier (wait_tip_changed h)) should_stop turns 0.
End passes.

(** ** Bans *)

Section bans.
Context {W A Peer R : Type} `{Countable A} `{!PoolWorld W A Peer}.
Context (f : Peer → Eff W Error R).
Hypothesis connect_returns : ∀ addr, returns (connect addr : Eff W Error Peer).
Hypothesis f_returns : ∀ peer, returns (f peer).

(** A peer that gives cause for a ban. *)
Variable bad : A → Prop.
Hypothesis bad_connect : ∀ addr (w w' : W) e, connect addr w = Some (Err e, w') → bad addr.
Hypothesis bad_answer : ∀ addr (w w1 w2 w3 : W) peer e,
  connect addr w = Some (Ok peer, w1) → f peer w2 = Some (Err e, w3) →
  is_banworthy_peer_error e = true → bad addr.

(** Addresses stay, and every ban is old or deserved. *)
Record pool_ok (p0 pool : PeerPool A) : Prop := {
  po_addrs : pp_addrs pool = pp_addrs p0;
  po_bans : ∀ addr, is_Some (pp_banned pool !! addr) → is_Some (pp_banned p0 !! addr) ∨ bad addr;
}.

(** The address last connected has led to this peer. *)
Definition connected_to (pool : PeerPool A) (peer : Peer) : Prop :=
  ∃ addr (w w' : W), pp_last_connected pool = Some addr ∧ addr ∈ pp_addrs pool ∧
    connect addr w = Some (Ok peer, w').

Lemma wp_read_clock (w : W) (pool : PeerPool A) (Q : result Error N → W * PeerPool A → Prop) :
  (∀ n w', Q (Ok n) (w', pool)) → wp read_clock (w, pool) Q.
Proof. intros HQ. apply wp_state_fn. cbn [fst snd]. destruct (instant_now w). apply HQ. Qed.

Lemma wp_ban p0 addr (w : W) (pool : PeerPool A) :
  pool_ok p0 pool → bad addr → wp (ban addr) (w, pool) (post (λ _ wp, pool_ok p0 wp.2) (λ _ _, False)).
Proof.
  intros [Ha Hb] Hbad. unfold ban. apply wp_bind, wp_read_clock. intros n w'. cbn [post].
  apply wp_on_snd, wp_modify. split; cbn; [done|]. intros a.
  destruct (decide (a = addr)) as [->|Hne]; [by right|]. rewrite lookup_insert_ne by done. apply Hb.
Qed.

Lemma wp_is_banned addr (w : W) (pool : PeerPool A) (Q : result Error bool → W * PeerPool A → Prop) :
  (∀ b w', Q (Ok b) (w', pool)) → wp (is_banned addr) (w, pool) Q.
Proof.
  intros HQ. unfold is_banned. apply wp_bind, wp_gets; cbn [post snd].
  destruct (pp_banned pool !! addr); [|by apply wp_mret].
  apply wp_bind, wp_read_clock. intros now w'. cbn [post]. by apply wp_mret.
Qed.

Lemma wp_connect_loop p0 k n last_err (w : W) (pool : PeerPool A) :
  (0 < n)%nat → n = length (pp_addrs p0) → pool_ok p0 pool →
  wp (connect_loop k n last_err) (w, pool)
    (post (λ peer wp, pool_ok p0 wp.2 ∧ connected_to wp.2 peer) (λ _ wp, pool_ok p0 wp.2)).
Proof.
  intros Hn Hlen. revert last_err w pool. induction k as [|k IH]; intros last_err w pool Hok; cbn [connect_loop].
  { by apply wp_fail. }
  apply wp_bind. unfold next_addr. apply wp_bind, wp_gets; cbn [post snd].
  assert (N.to_nat (pp_next pool mod N.of_nat n) < length (pp_addrs pool))%nat as Hlt.
  { rewrite (po_addrs _ _ Hok), <-Hlen. pose proof (N.mod_lt (pp_next pool) (N.of_nat n)). lia. }
  destruct (lookup_lt_is_Some_2 _ _ Hlt) as [addr Haddr]. rewrite Haddr.
  apply wp_bind, wp_on_snd, wp_modify; cbn [post]. apply wp_mret; cbn [post].
  apply wp_bind, wp_is_banned. intros banned w1. cbn [post].
  set (pool1 := mkPool _ _ _ _ _). assert (pool_ok p0 pool1) as Hok1 by (destruct Hok; by split).
  destruct banned; [by apply IH|].
  apply wp_bind, wp_try, wp_on_fst, wp_total; [apply connect_returns|].
  intros [peer|e] w2 Hc; cbn [post].
  - apply wp_bind, wp_on_snd, wp_modify; cbn [post]. apply wp_mret. split; [destruct Hok1; by split|].
    exists addr, w1, w2. split_and!; [done| |done]. cbn. by eapply list_elem_of_lookup_2.
  - apply wp_bind. eapply wp_mono; [apply (wp_ban p0); [done|by eapply bad_connect]|].
    intros [[]|e'] [w3 pool3]; cbn [post snd]; [|done]. intros Hok3. by apply IH.
Qed.

Lemma wp_connect_next p0 (w : W) (pool : PeerPool A) :
  pool_ok p0 pool →
  wp connect_next (w, pool)
    (post (λ peer wp, pool_ok p0 wp.2 ∧ connected_to wp.2 peer) (λ _ wp, pool_ok p0 wp.2)).
Proof.
  intros Hok. unfold connect_next. apply wp_bind, wp_gets; cbn [post snd].
  case_decide as Hnil; [by apply wp_fail|]. rewrite (po_addrs _ _ Hok) in *.
  apply wp_connect_loop; [|done|done]. destruct (pp_addrs p0); [done|cbn; lia].
Qed.

Lemma wp_failover p0 attempts last_err (w : W) (pool : PeerPool A) :
  pool_ok p0 pool →
  wp (failover_loop f attempts last_err) (w, pool)
    (post (λ r wp, pool_ok p0 wp.2 ∧ ∃ peer (w1 w2 : W), connected_to wp.2 peer ∧ f peer w1 = Some (Ok r, w2))
      (λ _ wp, pool_ok p0 wp.2)).
Proof.
  revert last_err w pool. induction attempts as [|attempts IH]; intros last_err w pool Hok; cbn [failover_loop].
  { by apply wp_fail. }
  apply wp_bind, wp_try. eapply wp_mono; [by apply (wp_connect_next p0)|].
  intros [peer|e] [w1 pool1]; cbn [post snd]; [|by intros; apply IH]. intros [Hok1 Hto].
  apply wp_bind, wp_try, wp_on_fst, wp_total; [apply f_returns|].
  intros [r|e] w2 Hf; cbn [post].
  - apply wp_mret. split; [done|]. by exists peer, w1, w2.
  - case_decide; [by apply IH|]. destruct (is_banworthy_peer_error e) eqn:Hb; [|by apply wp_fail].
    destruct Hto as (addr & wa & wb & Hl & _ & Hc).
    apply wp_bind. unfold ban_last_connected. apply wp_bind, wp_gets; cbn [post snd]. rewrite Hl.
    eapply wp_mono; [apply (wp_ban p0); [done|by eapply bad_answer]|].
    intros [[]|e'] [w3 pool3]; cbn [post snd]; [|done]. intros Hok3. by apply IH.
Qed.
End bans.

(** C23. Trying the peers comes to an end and keeps the list of addresses.  An
    address is banned in the course of it only if connecting to it failed or its
    peer failed with an error that is worth a ban, and a success is the answer of
    the peer that the pool was connected to last. *)
Theorem with_failover_bans_for_cause {W A Peer R} `{Countable A} `{!PoolWorld W A Peer}
    (f : Peer → Eff W Error R) (bad : A → Prop) (w : W) (pool : PeerPool A) :
  (∀ addr, returns (connect addr : Eff W Error Peer)) → (∀ peer, returns (f peer)) →
  (∀ addr (w w' : W) e, connect addr w = Some (Err e, w') → bad addr) →
  (∀ addr (w w1 w2 w3 : W) peer e, connect addr w = Some (Ok peer, w1) →
    f peer w2 = Some (Err e, w3) → is_banworthy_peer_error e = true → bad addr) →
  ∃ r w' pool', with_failover f (w, pool) = Some (r, (w', pool')) ∧
    pp_addrs pool' = pp_addrs pool ∧
    (∀ addr, is_Some (pp_banned pool' !! addr) → is_Some (pp_banned pool !! addr) ∨ bad addr) ∧
    ∀ v, r = Ok v → ∃ peer addr (w1 w2 w3 w4 : W), pp_last_connected pool' = Some addr ∧
      addr ∈ pp_addrs pool ∧ connect addr w1 = Some (Ok peer, w2) ∧ f peer w3 = Some (Ok v, w4).
Proof.
  intros Hconn Hf Hbad1 Hbad2.
  assert (pool_ok bad pool pool) as Hok by (split; [done|by left]).
  pose proof (wp_failover f Hconn Hf bad Hbad1 Hbad2 pool (max (pool_len pool) 1) None w pool Hok)
    as (r & [w' pool'] & Hrun & Hpost).
  exists r, w', pool'. split; [exact Hrun|].
  destruct r as [v|e]; cbn [post snd] in Hpost.
  - destruct Hpost as ([Ha Hb] & peer & w3 & w4 & (addr & w1 & w2 & Hl & Hin & Hc) & Hv).
    split_and!; [done|done|]. intros v' [= <-]. rewrite Ha in Hin. by exists peer, addr, w1, w2, w3, w4.
  - destruct Hpost as [Ha Hb]. by split_and!.
Qed.

(** In particular rate limiting bans nobody. *)
Lemma throttled_peers_not_banned {W A Peer R} `{Countable A} `{!PoolWorld W A Peer}
    (f : Peer → Eff W Error R) (w w' : W) (pool pool' : PeerPool A) r :
  (∀ addr (w : W), ∃ peer w', connect (Peer := Peer) addr w = Some (Ok peer, w')) →
  (∀ peer (w : W), ∃ m w', f peer w = Some (Err (throttled m), w')) →
  with_failover f (w, pool) = Some (r, (w', pool')) →
  ∀ addr, is_Some (pp_banned pool' !! addr) → is_Some (pp_banned pool !! addr).
Proof.
  intros Hconn Hf Hrun addr Hban.
  assert (∀ peer, returns (f peer)) as Hret.
  { intros p v. destruct (Hf p v) as (m & v' & ->). by eexists. }
  enough (wp (with_failover f) (w, pool) (λ _ wp, pool_ok (λ _, False) pool wp.2)) as Hwp.
  { apply (wp_run _ _ _ _ _ Hwp) in Hrun as [_ Hb]. by destruct (Hb addr Hban). }
  unfold with_failover. apply wp_bind, wp_gets; cbn [post snd].
  eapply wp_mono; [apply (wp_failover f) with (bad := λ _, False) (p0 := pool); [|done|..]|].
  - intros a v. destruct (Hconn a v) as (p & v' & ->). by eexists.
  - intros a v v' e. destruct (Hconn a v) as (p & v1 & ->). done.
  - intros a v v1 v2 v3 p e _. destruct (Hf p v2) as (m & v' & ->). by intros [= <- _].
  - split; [done|by left].
  - by intros [r'|e] wp; cbn [post]; [intros [? _]|].
Qed.
