(* ===== verification/MwebSyncSamples.v ===== *)
(** * A peer, a block and a pass

    The default pipelined download keeps the promise of the trait, and so does
    a peer that gives fixed answers; the hypotheses of the theorems on
    synchronisation hold of it on a block with one output, and two corners of the
    code are shown on concrete data. *)
From S2P Require Import Prelude Effects Block Tx TxSamples SpkIndex IndexedSamples MmrIndex Mmr MwebWire MmrVerify MmrPaths MmrSound BatchSpec MwebCoins MwebCoinSpec MwebKeys MwebTx MwebScan MwebBuild MwebAnchor MwebSync SecpLaws MwebScanSpec MwebBuildSpec MwebSamples MwebSyncData MwebSyncFacts MwebSyncSpec MwebSyncer MwebSyncerSpec MwebPool.

#[local] Open Scope N_scope.

(** ** Implementations of the traits *)

Lemma pipelined_default_invariant `{Mimblewimble} {Src C} (delivers : MwebUtxos → Prop)
    (get : GetMwebUtxos → Eff Src Error MwebUtxos) reqs (on_batch : MwebUtxos → Eff C Error unit) (I : C → Prop) :
  (∀ r, returns (get r)) → (∀ r (s s' : Src) batch, get r s = Some (Ok batch, s') → delivers batch) →
  (∀ batch c, delivers batch → I c → wp (on_batch batch) c (λ _, I)) →
  ∀ (s : Src) c, I c → wp (pipelined_default get reqs on_batch) (s, c) (λ _ sc, I sc.2).
Proof.
  intros Htotal Hdel Hstep s c Hc. unfold pipelined_default.
  apply (wp_mono _ _ (post (λ _ (sc : Src * C), I sc.2) (λ _ sc, I sc.2))); [|by intros [[]|e] sc].
  apply (wp_for_each _ (λ _ sc, I sc.2)); [done|]. intros req l [s1 c1] Hc1. cbn [snd] in Hc1.
  apply wp_bind, wp_on_fst, wp_total; [apply Htotal|].
  intros [batch|e] s2 Hget; cbn [post]; [|done].
  apply wp_on_snd. eapply wp_mono; [eapply Hstep; [by eapply Hdel|done]|]. by intros [[]|e].
Qed.

#[export] Instance fixed_provider_laws : ProviderLaws FixedHeaderProvider.
Proof.
  split; [intros p; by eexists|]. intros h p. cbn. destruct (fp_hashes p !! h); by eexists.
Qed.

#[export] Instance ready_notifier_laws : NotifierLaws ReadyNotifier.
Proof. split; intros n; by eexists. Qed.

(** The answers of a scripted peer that stays as it is. *)
Section fixed.
Context `{Mimblewimble, MerkleProofs} (script : ScriptedMwebSource).

Definition as_fixed {A} (m : Eff ScriptedMwebSource Error A) : Eff unit Error A := λ u,
  match m script with Some (r, _) => Some (r, u) | None => None end.

Definition fixed_source : MwebUtxoSource unit := {|
  get_header block_hash := as_fixed (get_header block_hash);
  get_leafset block_hash := as_fixed (get_leafset block_hash);
  get_utxos req := as_fixed (scripted_get_utxos req);
  get_utxos_pipelined C := pipelined_default (λ req, as_fixed (scripted_get_utxos req));
|}.

Definition fixed_delivers (m : Message) : Prop :=
  match m with
  | MsgHeader msg => msg = sc_header script
  | MsgLeafset leafset => leafset = sc_leafset script
  | MsgUtxos batch => ∃ req, scripted_get_utxos req script = Some (Ok batch, script)
  end.

Lemma fixed_source_laws : MwebUtxoSourceLaws unit fixed_delivers (MwebUtxoSource0 := fixed_source).
Proof.
  split.
  - intros b u. cbn. unfold as_fixed. cbn. case_decide; by eexists.
  - intros b u. cbn. unfold as_fixed. cbn. case_decide; by eexists.
  - intros r u. by eexists.
  - intros b u u' msg. cbn. unfold as_fixed. cbn. case_decide; by intros [= <- _].
  - intros b u u' l. cbn. unfold as_fixed. cbn. case_decide; by intros [= <- _].
  - intros r u u' batch. cbn. intros [= <- _]. by exists r.
  - intros C reqs on_batch I Hstep s c Hc.
    apply (pipelined_default_invariant (λ b, fixed_delivers (MsgUtxos b))); [by eexists| |done|done].
    intros r u u' batch [= <- _]. by exists r.
Qed.

Lemma scripted_answer req batch (s : ScriptedMwebSource) :
  scripted_get_utxos req script = Some (Ok batch, s) →
  mu_utxos batch = foldl (serve_entry req) [] (sc_utxos script) ∧
  mu_parent_hashes batch = sc_parent_hashes script.
Proof. by intros [= <-]. Qed.
End fixed.

(** ** A block with one output

    A merkle block is the list of its transaction ids, and a block hash a number
    of it; a script is read as 34 bytes. *)
#[export] Instance sample_merkle : MerkleProofs := {
  MerkleBlock := list Txid;
  header_block_hash := number;
  extract_matches m := Some (m, N.of_nat <$> seq 0 (length m));
  num_transactions m := N.of_nat (length m);
  script_bytes s := le_bytes 34 s;
  serialize_mweb_header h :=
    [if (mh_height h <? 0)%Z then 1 else 0; Z.abs_N (mh_height h); mh_output_mmr_size h;
     mh_kernel_mmr_size h] ++ mh_output_root h ++ mh_kernel_root h ++ mh_leafset_root h ++
    mh_kernel_offset h ++ mh_stealth_offset h;
}.

Lemma bytes_app_inj {n} (v w : vec N n) (l k : list N) :
  vec_to_list v ++ l = vec_to_list w ++ k → v = w ∧ l = k.
Proof.
  intros [Hv ->]%app_inj_1; [|by rewrite !length_vec_to_list]. split; [by apply vec_to_list_inj2|done].
Qed.

#[export] Instance sample_merkle_laws : MerkleLaws.
Proof.
  split.
  - intros m txids indexes [= <- <-]. by rewrite length_fmap, length_seq.
  - intros m m' txids indexes txids' indexes' i j t t' k k' Hm%number_inj. subst m'.
    intros [= <- <-] [= <- <-] Ht Hk Hlast Ht' Hk' Hlast'.
    assert (∀ n x (y : Txid), (N.of_nat <$> seq 0 (length m)) !! n = Some x → m !! n = Some y →
      (x + 1) mod 2 ^ 32 = N.of_nat (length m) → S n = length m) as Hend.
    { intros n x y (a & -> & [-> Hn]%lookup_seq)%list_lookup_fmap_Some _ Hx.
      destruct (N.lt_ge_cases (N.of_nat (0 + n) + 1) (2 ^ 32)) as [Hlt|Hge].
      - rewrite N.mod_small in Hx by done. lia.
      - pose proof (N.mod_lt (N.of_nat (0 + n) + 1) (2 ^ 32)). lia. }
    cbn in Hk, Hk', Hlast, Hlast'.
    pose proof (Hend _ _ _ Hk Ht Hlast). pose proof (Hend _ _ _ Hk' Ht' Hlast').
    assert (i = j) as -> by lia. congruence.
  - intros [a1 a2 a3 a4 a5 a6 a7 a8] [b1 b2 b3 b4 b5 b6 b7 b8] Heq. cbn in Heq.
    injection Heq as Hsign Habs Hs7 Hs8 Hrest.
    apply bytes_app_inj in Hrest as [-> Hrest]. apply bytes_app_inj in Hrest as [-> Hrest].
    apply bytes_app_inj in Hrest as [-> Hrest]. apply bytes_app_inj in Hrest as [-> Hrest].
    apply vec_to_list_inj2 in Hrest as ->. f_equal; [|done..].
    destruct (Z.ltb_spec a1 0), (Z.ltb_spec b1 0); (discriminate || lia).
Qed.

(** The number whose bytes, from the least significant on, are these. *)
Definition of_le_bytes (l : list N) : N := foldr (λ b x, b + 256 * x) 0 l.
Definition sample_bits : list N := [128].

(** The chain whose first and only MWEB output is [out]. *)
Section block.
Variable out : Output.

Definition ids_of : list Bytes32 := [output_id out].
Definition header_of : MwebBlockHeader :=
  mkMwebBlockHeader 7 (reference_root ids_of) zero32 (blake3_hash sample_bits) zero32 zero32 1 0.
Definition hogex_of : SampleTx :=
  mkSampleTx [] [of_le_bytes (88 :: 32 :: vec_to_list (header_hash header_of))].
Definition merkle_of : list Txid := [5; sample_txid hogex_of].
Definition msg_of : MwebHeaderMsg := {|
  hm_merkle := merkle_of : MerkleBlock;
  hm_hogex := hogex_of : Transaction;
  hm_mweb_header := header_of;
|}.
Definition parents_of : list Bytes32 :=
  default [] (mmr ← add_output_ids MemMmr_new ids_of; assemble_parent_hashes mmr sample_bits 0 0).
Definition script_of : ScriptedMwebSource := {|
  sc_header := msg_of;
  sc_leafset := mkMwebLeafset (number merkle_of) sample_bits;
  sc_utxos := [(0, out)];
  sc_parent_hashes := parents_of;
|}.
End block.

Definition sample_ids : list Bytes32 := ids_of (sample_output : Output).
Definition sample_header : MwebBlockHeader := header_of (sample_output : Output).
Definition sample_hogex : SampleTx := hogex_of (sample_output : Output).
Definition sample_hash : BlockHash := number (merkle_of (sample_output : Output)).
Definition sample_msg : MwebHeaderMsg := msg_of (sample_output : Output).
Definition sample_parents : list Bytes32 := parents_of (sample_output : Output).
Definition sample_script : ScriptedMwebSource := script_of (sample_output : Output).

Lemma sample_anchored : verify_anchored sample_msg sample_hash = Some (Ok tt).
Proof. by_vm. Qed.

#[export] Instance sample_source : MwebUtxoSource unit := fixed_source sample_script.
#[export] Instance sample_source_laws : MwebUtxoSourceLaws unit (fixed_delivers sample_script) :=
  fixed_source_laws sample_script.

Lemma batch_payloads_eq `{Blake3, Mimblewimble} batch batch' leafset header :
  mu_utxos batch = mu_utxos batch' → mu_parent_hashes batch = mu_parent_hashes batch' →
  batch_payloads batch leafset header = batch_payloads batch' leafset header.
Proof. destruct batch as [? ? ? u p], batch' as [? ? ? u' p']. cbn [mu_utxos mu_parent_hashes]. by intros -> ->. Qed.

(** Whatever is asked, the answers hash to different values. *)
Definition sample_answer (utxos : list MwebUtxoEntry) : MwebUtxos :=
  mkMwebUtxos _ 0 0 0 utxos sample_parents.
Definition sample_payloads (utxos : list MwebUtxoEntry) : list (list N) :=
  mmr_payloads sample_ids ++
  batch_payloads (sample_answer utxos) (mkMwebLeafset sample_hash sample_bits) sample_header.

Lemma sample_collision_free batch leafset :
  fixed_delivers sample_script (MsgUtxos batch) → fixed_delivers sample_script (MsgLeafset leafset) →
  collision_free (mmr_payloads sample_ids ++ batch_payloads batch leafset sample_header).
Proof.
  intros [req Hreq] ->.
  assert (∃ utxos, mu_utxos batch = utxos ∧ mu_parent_hashes batch = sample_parents ∧
    (utxos = [] ∨ utxos = [mkMwebUtxoEntry _ 0 (sample_output : Output)])) as (utxos & Hu & Hp & Hcases).
  { apply scripted_answer in Hreq as [-> ->]. eexists. split_and!; [done|done|].
    change (sc_utxos sample_script) with [(0, sample_output : Output)]. cbn [foldl]. unfold serve_entry. destruct (_ && _); [by right|by left]. }
  rewrite (batch_payloads_eq batch (sample_answer utxos)) by done.
  change (collision_free (sample_payloads utxos)).
  destruct Hcases as [-> | ->]; apply (bool_decide_unpack _); vm_compute; exact I.
Qed.

(** Another proof of the same header: the inputs of the HogEx are signed
    otherwise. *)
Definition hogex_with (witness : N) : SampleTx :=
  mkSampleTx [mkSampleIn (mkOutPoint 1 0) witness] (st_outputs sample_hogex).
Definition msg_with (witness : N) : MwebHeaderMsg := {|
  hm_merkle := [5; sample_txid (hogex_with 0)] : MerkleBlock;
  hm_hogex := hogex_with witness : Transaction;
  hm_mweb_header := sample_header;
|}.

Lemma verify_anchored_unique_witness :
  hm_hogex (msg_with 1) ≠ hm_hogex (msg_with 2) ∧
  hm_mweb_header (msg_with 1) = hm_mweb_header (msg_with 2).
Proof.
  split; [done|].
  apply (verify_anchored_unique (msg_with 1) (msg_with 2) (number [5; sample_txid (hogex_with 0)])).
  - apply (bool_decide_unpack _). vm_compute. exact I.
  - by_vm.
  - by_vm.
Defined.

(** ** One synchronisation *)

(** A coin that the chain does not have. *)
Definition stale_coin : MwebCoin :=
  mkMwebCoin (toy_bytes 9) GENERATOR_J 5 0 zero32 zero32 None (Some 3) false (Some 4).
Definition stale_db : MwebCoinDatabase := coin_insert CoinDb_new stale_coin.

(** A run that succeeds with what passes a test; only the answer of the test
    has to be evaluated. *)
Definition succeeds {A S} (test : A → S → bool) (run : option (result Error A * S)) : bool :=
  match run with Some (Ok a, s) => test a s | _ => false end.

Lemma succeeds_run {A S} (test : A → S → bool) run :
  succeeds test run = true → ∃ a s, run = Some (Ok a, s) ∧ test a s = true.
Proof. destruct run as [[[a|e] s]|]; [|done..]. by exists a, s. Qed.

Notation sample_sync := (sync_mweb_utxos sample_keys sample_book sample_hash (Some 7) 5 Anchored (tt, stale_db)).

(** The coin of the block was found, and the stale one spent. *)
Definition sync_test (res : SyncResult) (s : unit * MwebCoinDatabase) : bool :=
  bool_decide (mc_output_id <$> sr_found res = sample_ids ∧ sr_spent res = [toy_bytes 9]).

Lemma sync_mweb_utxos_sound_witness :
  ∃ res s, sample_sync = Some (Ok res, s) ∧ sync_test res s = true ∧
    ∀ id, is_Some (db_coins s.2 !! id) → ∃ leaf, sample_ids !! N.to_nat leaf = Some id.
Proof.
  assert (succeeds sync_test sample_sync = true) as Hs by by_vm.
  destruct (succeeds_run sync_test sample_sync Hs) as (res & [[] db] & Hrun & Htest).
  exists res, (tt, db). split; [exact Hrun|]. split; [exact Htest|].
  destruct (sync_mweb_utxos_sound (fixed_delivers sample_script) sample_keys 3 sample_book sample_hash
    (Some 7) 5 sample_header sample_ids tt tt stale_db db res)
    as (leafset & _ & Hall & _).
  - exact sample_book_built.
  - apply keyed_insert, map_Forall_empty.
  - by_vm.
  - by_vm.
  - by intros msg ->.
  - intros batch leafset Hb Hl _. by apply sample_collision_free.
  - exact Hrun.
  - intros id Hid. destruct (Hall id Hid) as (leaf & Hleaf & _). by exists leaf.
Defined.

Lemma sync_mweb_utxos_returns_witness : is_Some sample_sync.
Proof.
  exact (sync_mweb_utxos_returns (fixed_delivers sample_script) sample_keys sample_book sample_hash (Some 7) 5
    Anchored tt stale_db).
Defined.

Definition foreign_script : ScriptedMwebSource := {|
  sc_header := sample_msg;
  sc_leafset := mkMwebLeafset sample_hash [144];
  sc_utxos := [(0, sample_output : Output); (3, sample_output : Output)];
  sc_parent_hashes := [zero32];
|}.

(** Two coins found, one spent, one left. *)
Definition found_two (res : SyncResult) (s : ScriptedMwebSource * MwebCoinDatabase) : bool :=
  bool_decide (length (sr_found res) = 2%nat ∧ sr_spent res = [toy_bytes 9] ∧ length (unspent s.2) = 1%nat).

Lemma sync_batches_add_up_witness :
  succeeds found_two
    (sync_mweb_utxos sample_keys sample_book sample_hash None 1 Trusted (foreign_script, stale_db)) = true.
Proof.
  epose proof (sync_batches_add_up sample_keys sample_book foreign_script
    (sc_utxos foreign_script) (sc_leafset foreign_script) sample_hash None 1 stale_db _ _ _ _) as Heq.
  revert Heq. match goal with |- ?run = _ → _ => generalize run end. intros run ->. by_vm.
  Unshelve.
  - split; [done|done|by_vm|done].
  - done.
  - lia.
  - vm_compute. discriminate.
Defined.

(** ** Passes *)

Definition sample_syncer : MwebSyncer := mkSyncer Anchored 5 1 TipOnly None true true.
Definition SampleWorld : Type := World FixedHeaderProvider ReadyNotifier unit N.

(** Calls of the checkpoint are counted. *)
Definition counting : Checkpoint (K := N) := λ _ db n, (db, n + 1).
Definition sample_world (tip_hash : BlockHash) (st : SyncState) (db : MwebCoinDatabase) : SampleWorld :=
  mkWorld (fixed_tip_only tip_hash 7) (mkReady 7) tt (mkCaller st db 0 (0, 0)).
Notation sample_pass := (run_once sample_syncer sample_keys sample_book (Some counting)).
Definition first_world : SampleWorld := sample_world sample_hash SyncState_new stale_db.

Lemma first_world_ready : ready (ca_state (w_caller first_world)) (ca_db (w_caller first_world)).
Proof. split; [apply keyed_insert, map_Forall_empty|by left]. Qed.

(** The leafset is recorded, the coin found and left, the stale one spent. *)
Definition pass_test (res : SyncResult) (w : SampleWorld) : bool :=
  bool_decide (ss_leafset (ca_state (w_caller w)) = sample_bits ∧
    mc_output_id <$> unspent (ca_db (w_caller w)) = sample_ids ∧ length (sr_found res) = 1%nat ∧
    sr_spent res = [toy_bytes 9]).

Lemma first_pass_succeeds : succeeds pass_test (sample_pass first_world) = true.
Proof. by_vm. Qed.

Lemma sample_committed : committed (fixed_delivers sample_script) (λ _, (sample_header, sample_ids)).
Proof.
  split.
  - intros b. split; by_vm.
  - by intros msg b ->.
  - intros b batch leafset Hb Hl _. by apply sample_collision_free.
Qed.

(** The same from an empty database, where the next pass can go on. *)
Definition fresh_world : SampleWorld := sample_world sample_hash SyncState_new CoinDb_new.
Definition fresh_test (res : SyncResult) (w : SampleWorld) : bool :=
  bool_decide (mc_output_id <$> unspent (ca_db (w_caller w)) = sample_ids).

Lemma fresh_in_step : in_step SyncState_new CoinDb_new.
Proof. split_and!; [apply map_Forall_empty|by intros ? ? ?|by intros ? ? ? ? ?]. Qed.

Lemma fresh_not_reorganised p : ¬ reorganised SyncState_new (p : FixedHeaderProvider).
Proof. intros (? & ? & ? & _ & [(? & [=] & _)|[(? & [=] & _) _]]). Qed.

Lemma run_once_settles_witness :
  (∃ res w, sample_pass first_world = Some (Ok res, w) ∧ pass_test res w = true ∧
    settled (ca_state (w_caller w)) (ca_db (w_caller w))) ∧
  ∃ res w, sample_pass fresh_world = Some (Ok res, w) ∧ fresh_test res w = true ∧
    in_step (ca_state (w_caller w)) (ca_db (w_caller w)).
Proof.
  split.
  - destruct (succeeds_run pass_test (sample_pass first_world) first_pass_succeeds) as (res & w & Hrun & Htest).
    exists res, w. split; [exact Hrun|]. split; [exact Htest|].
    apply (run_once_settles (fixed_delivers sample_script) sample_syncer sample_keys sample_book (Some counting)
      first_world w res).
    + by intros cb [= <-] st db k.
    + exact first_world_ready.
    + exact Hrun.
  - assert (succeeds fresh_test (sample_pass fresh_world) = true) as Hs by by_vm.
    destruct (succeeds_run fresh_test (sample_pass fresh_world) Hs) as (res & w & Hrun & Htest).
    exists res, w. split; [exact Hrun|]. split; [exact Htest|].
    apply (run_once_settles (fixed_delivers sample_script) sample_syncer sample_keys sample_book (Some counting)
      fresh_world w res) with (chain := λ _, (sample_header, sample_ids)).
    + by intros cb [= <-] st db k.
    + exact (in_step_ready _ _ fresh_in_step).
    + exact Hrun.
    + done.
    + exact sample_committed.
    + apply fresh_not_reorganised.
    + exact fresh_in_step.
Defined.

Lemma run_once_sound_witness :
  ∃ res w, sample_pass first_world = Some (Ok res, w) ∧ pass_test res w = true ∧
    ∀ c, c ∈ sr_found res → genuine c ∧ mc_leaf_index c = Some 0.
Proof.
  destruct (succeeds_run pass_test (sample_pass first_world) first_pass_succeeds) as (res & w & Hrun & Htest).
  exists res, w. split; [exact Hrun|]. split; [exact Htest|].
  destruct (run_once_sound (fixed_delivers sample_script) sample_syncer sample_keys sample_book (Some counting)
    (λ _, (sample_header, sample_ids)) first_world w res 3) as (tip_hash & leafset & _ & _ & _ & Hall).
  - exact sample_book_built.
  - done.
  - exact sample_committed.
  - exact Hrun.
  - intros c Hc. destruct (Hall c Hc) as (Hg & leaf & Hleaf & Hid & _). split; [done|].
    rewrite Hleaf. f_equal. apply lookup_lt_Some in Hid. change (N.to_nat leaf < 1)%nat in Hid. lia.
Defined.

(** A provider that names a block which the peer does not know, after the pass
    above. *)
Definition lost_world : SampleWorld :=
  sample_world 4 (mkSyncState (Some sample_hash) (Some 7) sample_bits {[7 := 1]} None None) stale_db.

Definition fails {A S} (test : S → bool) (run : option (result Error A * S)) : bool :=
  match run with Some (Err _, s) => test s | _ => false end.

Lemma fails_run {A S} (test : S → bool) (run : option (result Error A * S)) :
  fails test run = true → ∃ e s, run = Some (Err e, s) ∧ test s = true.
Proof. destruct run as [[[a|e] s]|]; [done| |done]. by exists e, s. Qed.

Lemma run_once_failure_witness :
  ∃ e w, sample_pass lost_world = Some (Err e, w) ∧
    ss_leafset (ca_state (w_caller w)) = [] ∧ ss_tip_hash (ca_state (w_caller w)) = None.
Proof.
  assert (fails (λ w, bool_decide (ss_leafset (ca_state (w_caller w)) = [])) (sample_pass lost_world) = true)
    as Hf by by_vm.
  destruct (fails_run (λ w, bool_decide (ss_leafset (ca_state (w_caller w)) = [])) (sample_pass lost_world) Hf)
    as (e & w & Hrun & Hl%bool_decide_eq_true_1).
  exists e, w. split; [exact Hrun|].
  destruct (run_once_failure (fixed_delivers sample_script) sample_syncer sample_keys sample_book (Some counting)
    lost_world w e Hrun) as [[_ (err & n & Hwait)]|[_ [[_ [Hleaf _]]|[_ Hreset]]]]; [|rewrite Hl in Hleaf|exact Hreset].
  - discriminate Hwait.
  - discriminate Hleaf.
Defined.

Lemma run_once_returns_witness : is_Some (sample_pass lost_world).
Proof.
  exact (run_once_returns (fixed_delivers sample_script) sample_syncer sample_keys sample_book (Some counting)
    lost_world).
Defined.

(** ** Corners of the synchronisation

    What a pass does after a reorganisation that puts another output on a leaf,
    and with a coin whose range proof does not verify; and a pool of two peers. *)

(** ** After a reorganisation *)

(** The other branch has at leaf 0 an output that is not ours. *)
Definition other_output : MwOutput :=
  mkMwOutput GENERATOR_J (toy 1) (toy 1) (mkOutputMessage 0 None [1]) [] (vreplicate 64 0).

(** A pass against the honest peer of the chain with the output [out]. *)
Definition pass_on (out : MwOutput) (st : SyncState) (db : MwebCoinDatabase) :
    option (result Error SyncResult * (SyncState * MwebCoinDatabase)) :=
  let peer := script_of (out : Output) in
  match run_once sample_syncer sample_keys sample_book None
    (mkWorld (fixed_tip_only (ls_block_hash (sc_leafset peer)) 7) (mkReady 7) peer
      (mkCaller st db tt (0, 0))) with
  | Some (r, w) => Some (r, (ca_state (w_caller w), ca_db (w_caller w)))
  | None => None
  end.

(** The second pass finds nothing and marks nothing, and leaves one coin, with a
    height, which is not an output of the second branch. *)
Definition orphan_test (res : SyncResult) (s : SyncState * MwebCoinDatabase) : bool :=
  bool_decide (sr_found res = [] ∧ sr_spent res = [] ∧ mc_block_height <$> unspent s.2 = [Some 7] ∧
    Forall (λ id, id ∉ ids_of (other_output : Output)) (mc_output_id <$> unspent s.2)).
Definition branches_test (_ : SyncResult) (s : SyncState * MwebCoinDatabase) : bool :=
  succeeds orphan_test (pass_on other_output s.1 s.2).

(** The coin of the first branch is at leaf 0; the second branch has another
    output there, and the pass on it succeeds with anchored verification.  The
    coin is still unspent after it, with a height in the second branch. *)
Lemma orphaned_coin_survives :
  ∃ res1 res2 first second coin, pass_on sample_output SyncState_new CoinDb_new = Some (Ok res1, first) ∧
    pass_on other_output first.1 first.2 = Some (Ok res2, second) ∧ sr_found res2 = [] ∧ sr_spent res2 = [] ∧
    unspent second.2 = [coin] ∧ mc_block_height coin = Some 7 ∧ mc_output_id coin ∉ ids_of (other_output : Output).
Proof.
  destruct (succeeds_run branches_test (pass_on sample_output SyncState_new CoinDb_new))
    as (res1 & first & Hfirst & Htest); [by_vm|].
  destruct (succeeds_run orphan_test (pass_on other_output first.1 first.2) Htest)
    as (res2 & second & Hsecond & (Hfound & Hspent & Hheight & Hout)%bool_decide_eq_true_1).
  revert Hheight Hout. destruct (unspent second.2) as [|coin [|]] eqn:Hunspent; [discriminate| |discriminate].
  intros [= Hheight] Hout%Forall_inv. exists res1, res2, first, second, coin.
  exact (conj Hfirst (conj Hsecond (conj Hfound (conj Hspent (conj Hunspent (conj Hheight Hout)))))).
Qed.

(** ** Range proofs *)

(** The sample output with its range proof cut off. *)
Definition unproven_output : MwOutput :=
  mkMwOutput (o_commitment sample_output) (o_sender_public_key sample_output)
    (o_receiver_public_key sample_output) (o_message sample_output) [] (o_signature sample_output).
Definition unproven_test (s : SyncState * MwebCoinDatabase) : bool :=
  bool_decide (mc_amount <$> unspent s.2 = [1002]).
Definition bad_proof_run (run : option (result Error SyncResult * (SyncState * MwebCoinDatabase))) : bool :=
  match run with
  | Some (Err e, s) => bool_decide (e = bad_proof "owned output rangeproof failed verification") && unproven_test s
  | _ => false
  end.

(** The pass fails over the range proof, and has put the coin into the database. *)
Lemma unproven_coin_stays :
  ∃ s coin, pass_on unproven_output SyncState_new CoinDb_new =
      Some (Err (bad_proof "owned output rangeproof failed verification"), s) ∧
    unspent s.2 = [coin] ∧ mc_amount coin = 1002.
Proof.
  assert (bad_proof_run (pass_on unproven_output SyncState_new CoinDb_new) = true) as Hb by by_vm.
  destruct (pass_on unproven_output SyncState_new CoinDb_new) as [[[res|e] s]|]; [discriminate| |discriminate].
  apply andb_true_iff in Hb as [->%bool_decide_eq_true_1 Hs%bool_decide_eq_true_1].
  revert Hs. destruct (unspent s.2) as [|coin [|]] eqn:Hunspent; [discriminate| |discriminate].
  intros [= Hs]. exists s, coin. exact (conj eq_refl (conj Hunspent Hs)).
Qed.

(** ** An interrupted pass *)

(** A peer that answers requests below a leaf and then breaks the connection. *)
Record BreakingPeer := mkBreaking { bp_script : ScriptedMwebSource; bp_breaks_at : N }.
Definition breaking {A} (m : Eff ScriptedMwebSource Error A) : Eff BreakingPeer Error A :=
  zoom bp_script (λ script peer, mkBreaking script (bp_breaks_at peer)) m.
Definition breaking_get_utxos (req : GetMwebUtxos) : Eff BreakingPeer Error MwebUtxos := λ peer,
  if gu_start_index req <? bp_breaks_at peer then breaking (scripted_get_utxos req) peer
  else Some (Err (transport "connection closed"), peer).
#[local] Instance breaking_source : MwebUtxoSource BreakingPeer := {
  get_header block_hash := breaking (get_header block_hash);
  get_leafset block_hash := breaking (get_leafset block_hash);
  get_utxos := breaking_get_utxos;
  get_utxos_pipelined C := pipelined_default breaking_get_utxos;
}.

(** Blocks 1, 2 and 3 at heights 7, 8 and 9; batches of one output. *)
Definition three_blocks (n : N) : FixedHeaderProvider := mkFixed n (n + 6) {[7 := 1; 8 := 2; 9 := 3]}.
Definition trusting : MwebSyncer := mkSyncer Trusted 1 1 TipOnly None false false.
Definition pass_at (n : N) (bits : list N) (utxos : list (N * MwOutput)) (breaks_at : N) (st : SyncState)
    (db : MwebCoinDatabase) : option (result Error SyncResult * (SyncState * MwebCoinDatabase)) :=
  let script := {| sc_header := sample_msg; sc_leafset := mkMwebLeafset n bits;
    sc_utxos := (λ u : N * MwOutput, (u.1, u.2 : Output)) <$> utxos; sc_parent_hashes := [zero32] |} in
  match run_once trusting sample_keys sample_book None
    (mkWorld (three_blocks n) (mkReady (n + 6)) (mkBreaking script breaks_at) (mkCaller st db tt (0, 0))) with
  | Some (r, w) => Some (r, (ca_state (w_caller w), ca_db (w_caller w)))
  | None => None
  end.

(** Leaf 0 is not ours; block 2 adds leaf 1, which is, and leaf 2; block 3 spends
    leaf 1. *)
Definition pass_block1 := pass_at 1 [128] [(0, other_output)] 9.
Definition pass_block2 := pass_at 2 [224] [(0, other_output); (1, sample_output); (2, other_output)] 2.
Definition pass_block3 := pass_at 3 [160] [(0, other_output); (2, other_output)] 9.

Definition spent_left_test (res : SyncResult) (s : SyncState * MwebCoinDatabase) : bool :=
  bool_decide (sr_spent res = [] ∧ mc_leaf_index <$> unspent s.2 = [Some 1] ∧ bitset_test (ss_leafset s.1) 1 = false).
Definition interrupted_test (_ : SyncResult) (s : SyncState * MwebCoinDatabase) : bool :=
  fails (λ s, succeeds spent_left_test (pass_block3 s.1 s.2)) (pass_block2 s.1 s.2).

(** The pass on block 2 finds our coin and then loses the peer; when the next
    pass runs, on block 3, the coin is spent.  That pass succeeds, and leaves the
    coin unspent: the leaf was not in the last recorded leafset, so it is not
    among the removed ones, and only a first synchronisation looks for coins
    outside the leafset.  The chain was never reorganised. *)
Lemma interrupted_pass_keeps_spent_coin :
  ∃ res1 e res3 first second third coin, pass_block1 SyncState_new CoinDb_new = Some (Ok res1, first) ∧
    pass_block2 first.1 first.2 = Some (Err e, second) ∧ pass_block3 second.1 second.2 = Some (Ok res3, third) ∧
    sr_spent res3 = [] ∧ unspent third.2 = [coin] ∧ mc_leaf_index coin = Some 1 ∧
    bitset_test (ss_leafset third.1) 1 = false.
Proof.
  destruct (succeeds_run interrupted_test (pass_block1 SyncState_new CoinDb_new)) as (res1 & first & Hfirst & Htest); [by_vm|].
  destruct (fails_run _ (pass_block2 first.1 first.2) Htest) as (e & second & Hsecond & Htest2).
  destruct (succeeds_run spent_left_test (pass_block3 second.1 second.2) Htest2)
    as (res3 & third & Hthird & (Hspent & Hleaf & Hbit)%bool_decide_eq_true_1).
  revert Hleaf. destruct (unspent third.2) as [|coin [|]] eqn:Hunspent; [discriminate| |discriminate].
  intros [= Hleaf]. exists res1, e, res3, first, second, third, coin.
  exact (conj Hfirst (conj Hsecond (conj Hthird (conj Hspent (conj Hunspent (conj Hleaf Hbit)))))).
Qed.

(** ** A pool of two peers *)

(** Dialling 1 fails, dialling 2 yields a connection; time stands still. *)
#[local] Instance toy_pool_world : PoolWorld unit N N := {|
  instant_now w := (w, 100);
  connect addr w := if addr =? 1 then Some (Err (transport "connection refused"), w) else Some (Ok addr, w);
|}.
Definition toy_answer (peer : N) : Eff unit Error N := mret (peer + 40).
Definition toy_pool : PeerPool N := pool_new [1; 2].

Lemma with_failover_bans_for_cause_witness :
  ∃ pool', with_failover toy_answer (tt, toy_pool) = Some (Ok 42, (tt, pool')) ∧
    pp_banned pool' !! 1 = Some 400 ∧ pp_banned pool' !! 2 = None.
Proof.
  destruct (with_failover_bans_for_cause toy_answer (λ addr, addr = 1) tt toy_pool)
    as (r & w' & pool' & Hrun & _ & Hban & _).
  - intros addr w. cbn. destruct (addr =? 1); by eexists.
  - intros peer w. by eexists.
  - intros addr w w' e. cbn. by destruct (N.eqb_spec addr 1).
  - done.
  - exists pool'. vm_compute in Hrun. injection Hrun as <- <- <-. split_and!; [by_vm|done|].
    match goal with |- ?m !! 2 = None => destruct (m !! 2) eqn:H2; [|done] end.
    exfalso. destruct (Hban 2) as [[x Hx]|?]; [by eexists|done|done].
Defined.
