(* ===== verification/FileStore.v ===== *)
(** * The file store

    Models [crates/file_store/src]: a file of magic bytes followed by encoded
    change sets, read back by decoding one after the other.  The encoding is
    that of the [bincode] crate: the class [Bincode].  A file is a list of bytes
    and an open file a position in it; the operating system fails for the
    reasons named in [IoError] only, and a write that was cut short is a file
    with part of it. *)
From S2P Require Import Prelude Block.

(** ** Files *)

Inductive IoError := AlreadyExists | NotFound | UnexpectedEof.

Notation Path := N (only parsing).
Notation Disk := (gmap Path (list N)).

(** Writing at a position replaces what is there, and extends the file. *)
Definition write_at (content : list N) (pos : nat) (bytes : list N) : list N :=
  take pos content ++ replicate (pos - length content) 0%N ++ bytes ++ drop (pos + length bytes) content.

(** ** The encoding *)

(** What decoding from a reader yields, and how many bytes it has consumed. *)
Inductive Decoded (C E : Type) := DecodeOk (c : C) (consumed : nat) | DecodeErr (e : E) (consumed : nat).
Arguments DecodeOk {C E}.
Arguments DecodeErr {C E}.

Class Bincode (C : Type) := {
  ErrorKind : Type;
  (** An [Io] error of kind [UnexpectedEof]. *)
  is_unexpected_eof : ErrorKind → bool;
  serialize : C → list N;
  deserialize : list N → Decoded C ErrorKind;
}.

(** What is relied on: what was written is read back whatever follows, with
    nothing of it missing; entries have bytes; and at the end of a file, and
    only there, decoding fails without consuming anything. *)
Class BincodeLaws (C : Type) `{Bincode C} : Prop := {
  deserialize_serialize : ∀ c rest, deserialize (serialize c ++ rest) = DecodeOk c (length (serialize c));
  deserialize_progress : ∀ l c n, deserialize l = DecodeOk c n → 0 < n ≤ length l;
  deserialize_nil : ∃ e, deserialize [] = DecodeErr e 0 ∧ is_unexpected_eof e = true;
  deserialize_eof : ∀ l e n, deserialize l = DecodeErr e n → is_unexpected_eof e = true → l ≠ [] → 0 < n;
  deserialize_cut : ∀ c n, n < length (serialize c) → ∃ e k, deserialize (take n (serialize c)) = DecodeErr e k;
}.

Section store.
Context {C : Type} `{!Merge C, !Bincode C}.

Inductive StoreError :=
| StoreIo (e : IoError)
| InvalidMagicBytes (got expected : list N)
| StoreBincode (e : ErrorKind).

Record StoreErrorWithDump := mkStoreErrorWithDump { dumped : option C; store_error : StoreError }.

(** [impl From<io::Error>]. *)
Definition dump_error_of_io (e : IoError) : StoreErrorWithDump := mkStoreErrorWithDump None (StoreIo e).

Record Store := mkStore { magic_len : nat; db_file : Path; db_pos : nat }.

Definition store_create (magic : list N) (file_path : Path) (disk : Disk) : Disk * result StoreError Store :=
  match disk !! file_path with
  | Some _ => (disk, Err (StoreIo AlreadyExists))
  | None => (<[file_path := magic]> disk, Ok (mkStore (length magic) file_path (length magic)))
  end.

(** ** Reading entries *)

Record EntryIter := mkEntryIter { ei_pos : nat; ei_finished : bool; ei_start_pos : option nat }.

Definition entry_iter_new (start_pos : nat) (pos : nat) : EntryIter := mkEntryIter pos false (Some start_pos).

Definition entry_next (content : list N) (it : EntryIter) : option (result StoreError C) * EntryIter :=
  if ei_finished it then (None, it)
  else
    let pos_before_read := match ei_start_pos it with Some start => start | None => ei_pos it end in
    match deserialize (drop pos_before_read content) with
    | DecodeOk changeset n => (Some (Ok changeset), mkEntryIter (pos_before_read + n) false None)
    | DecodeErr e n =>
      let pos_after_read := pos_before_read + n in
      if is_unexpected_eof e && (pos_after_read =? pos_before_read)
      then (None, mkEntryIter pos_after_read true None)
      else (Some (Err (StoreBincode e)), mkEntryIter pos_before_read true None)
    end.

(** The closure of [dump] on a decoded change set. *)
Definition aggregate (aggregated : option C) (next : C) : option C :=
  Some (match aggregated with Some a => merge a next | None => next end).

(** [try_fold]: it stops at the first error. *)
Fixpoint dump_loop (fuel : nat) (content : list N) (it : EntryIter) (aggregated : option C) :
    option (EntryIter * result StoreErrorWithDump (option C)) :=
  match fuel with
  | O => None
  | S fuel =>
    match entry_next content it with
    | (None, it) => Some (it, Ok aggregated)
    | (Some (Ok next), it) => dump_loop fuel content it (aggregate aggregated next)
    | (Some (Err e), it) => Some (it, Err (mkStoreErrorWithDump aggregated e))
    end
  end.

(** Dropping the iterator leaves the file at its position; every turn that goes
    on has consumed a byte. *)
Definition store_dump (store : Store) (disk : Disk) :
    option (Store * result StoreErrorWithDump (option C)) :=
  let content := default [] (disk !! db_file store) in
  '(it, r) ← dump_loop (S (length content)) content (entry_iter_new (magic_len store) (db_pos store)) None;
  Some (mkStore (magic_len store) (db_file store) (ei_pos it), r).

Definition store_load (magic : list N) (file_path : Path) (disk : Disk) :
    option (result StoreErrorWithDump (Store * option C)) :=
  match disk !! file_path with
  | None => Some (Err (dump_error_of_io NotFound))
  | Some content =>
    if length content <? length magic then Some (Err (dump_error_of_io UnexpectedEof))
    else
      let magic_buf := take (length magic) content in
      if decide (magic_buf ≠ magic) then Some (Err (mkStoreErrorWithDump None (InvalidMagicBytes magic_buf magic)))
      else
        '(store, r) ← store_dump (mkStore (length magic) file_path (length magic)) disk;
        Some (match r with
              | Ok aggregated_changeset => Ok (store, aggregated_changeset)
              | Err e => Err e
              end)
  end.

Definition store_load_or_create (magic : list N) (file_path : Path) (disk : Disk) :
    option (Disk * result StoreErrorWithDump (Store * option C)) :=
  match disk !! file_path with
  | Some _ => r ← store_load magic file_path disk; Some (disk, r)
  | None =>
    let '(disk, r) := store_create magic file_path disk in
    Some (disk, match r with
                | Ok store => Ok (store, None)
                | Err err => Err (mkStoreErrorWithDump None err)
                end)
  end.

Definition store_append (store : Store) (disk : Disk) (changeset : C) : Store * Disk :=
  if merge_is_empty changeset then (store, disk)
  else
    let bytes := serialize changeset in
    (mkStore (magic_len store) (db_file store) (db_pos store + length bytes),
     <[db_file store := write_at (default [] (disk !! db_file store)) (db_pos store) bytes]> disk).

Definition store_append_all (store : Store) (disk : Disk) (changesets : list C) : Store * Disk :=
  foldl (λ sd c, store_append sd.1 sd.2 c) (store, disk) changesets.

(** ** What a file holds *)

Definition entries (cs : list C) : list N := mjoin (serialize <$> cs).
Definition aggregated_of (cs : list C) : option C := foldl aggregate None cs.

Context `{!BincodeLaws C}.

Lemma entries_app cs cs' : entries (cs ++ cs') = entries cs ++ entries cs'.
Proof. unfold entries. by rewrite fmap_app, join_app. Qed.

Lemma entries_snoc cs c : entries (cs ++ [c]) = entries cs ++ serialize c.
Proof. rewrite entries_app. unfold entries at 2. cbn. by rewrite app_nil_r. Qed.

Lemma serialize_pos c : 0 < length (serialize c).
Proof.
  pose proof (deserialize_serialize c []) as Hd. by apply deserialize_progress in Hd as [? _].
Qed.

Lemma length_entries cs : length cs ≤ length (entries cs).
Proof.
  induction cs as [|c cs IH]; [done|]. replace (entries (c :: cs)) with (serialize c ++ entries cs) by done.
  rewrite length_app. cbn [length]. pose proof (serialize_pos c). lia.
Qed.

(** One turn where an entry begins. *)
Lemma entry_next_entry pre c rest it :
  ei_finished it = false → default (ei_pos it) (ei_start_pos it) = length pre →
  entry_next (pre ++ serialize c ++ rest) it =
    (Some (Ok c), mkEntryIter (length (pre ++ serialize c)) false None).
Proof.
  intros Hf Hpos. unfold entry_next. rewrite Hf.
  replace (match ei_start_pos it with Some start => start | None => ei_pos it end) with (length pre)
    by (rewrite <-Hpos; by destruct (ei_start_pos it)).
  rewrite drop_app_length, deserialize_serialize. by rewrite length_app.
Qed.

Definition at_rest (e : ErrorKind) (n : nat) : bool := is_unexpected_eof e && (n =? 0).

(** The entries are merged in order, and what follows them decides how it ends;
    either way the file is left behind the last entry. *)
Lemma dump_entries cs fuel pre tail it acc e n :
  ei_finished it = false → default (ei_pos it) (ei_start_pos it) = length pre → length cs < fuel →
  deserialize tail = DecodeErr e n →
  dump_loop fuel (pre ++ entries cs ++ tail) it acc =
    Some (mkEntryIter (length (pre ++ entries cs)) true None,
      if at_rest e n then Ok (foldl aggregate acc cs)
      else Err (mkStoreErrorWithDump (foldl aggregate acc cs) (StoreBincode e))).
Proof.
  intros Hf Hpos Hfuel Hd. revert fuel pre it acc Hf Hpos Hfuel.
  induction cs as [|c cs IH]; intros fuel pre it acc Hf Hpos Hfuel; (destruct fuel as [|fuel]; [cbn in Hfuel; lia|]).
  - cbn [length foldl dump_loop]. unfold entries. cbn [fmap list_fmap mjoin list_join app].
    rewrite app_nil_r. unfold entry_next. rewrite Hf.
    replace (match ei_start_pos it with Some start => start | None => ei_pos it end) with (length pre)
      by (rewrite <-Hpos; by destruct (ei_start_pos it)).
    rewrite drop_app_length, Hd. unfold at_rest. replace (length pre + n =? length pre) with (n =? 0)
      by (apply eq_bool_prop_intro; rewrite !Is_true_true, !Nat.eqb_eq; lia).
    destruct (is_unexpected_eof e); cbn [andb]; [|done]. destruct (Nat.eqb_spec n 0) as [->|]; [|done].
    by rewrite Nat.add_0_r.
  - cbn [dump_loop foldl length] in *. replace (entries (c :: cs)) with (serialize c ++ entries cs) by done.
    rewrite <-(assoc_L (++) (serialize c)), entry_next_entry by done.
    rewrite (assoc_L (++) pre (serialize c)), IH by (done || lia).
    by rewrite <-!(assoc_L (++) pre (serialize c)).
Qed.

Lemma dump_file store disk magic cs tail e n :
  magic_len store = length magic → disk !! db_file store = Some (magic ++ entries cs ++ tail) →
  deserialize tail = DecodeErr e n →
  store_dump store disk = Some (mkStore (magic_len store) (db_file store) (length (magic ++ entries cs)),
    if at_rest e n then Ok (aggregated_of cs)
    else Err (mkStoreErrorWithDump (aggregated_of cs) (StoreBincode e))).
Proof.
  intros Hm Hdisk Hd. unfold store_dump. rewrite Hdisk. cbn [from_option id].
  rewrite (dump_entries cs _ magic tail _ None e n); [done|done|done| |done].
  rewrite !length_app. pose proof (length_entries cs). lia.
Qed.

Lemma load_file magic file_path disk cs tail e n :
  disk !! file_path = Some (magic ++ entries cs ++ tail) → deserialize tail = DecodeErr e n →
  store_load magic file_path disk = Some (
    if at_rest e n then Ok (mkStore (length magic) file_path (length (magic ++ entries cs)), aggregated_of cs)
    else Err (mkStoreErrorWithDump (aggregated_of cs) (StoreBincode e))).
Proof.
  intros Hdisk Hd. unfold store_load. rewrite Hdisk.
  destruct (Nat.ltb_spec (length (magic ++ entries cs ++ tail)) (length magic)) as [Hlt|_].
  { rewrite !length_app in Hlt. lia. }
  rewrite take_app_length, decide_False by auto.
  rewrite (dump_file _ disk magic cs tail e n) by done. cbn [mbind option_bind magic_len db_file].
  by destruct (at_rest e n).
Qed.

(** ** Writing *)

Lemma write_at_end content bytes : write_at content (length content) bytes = content ++ bytes.
Proof.
  unfold write_at. rewrite take_ge, Nat.sub_diag, drop_ge by lia. cbn. by rewrite app_nil_r.
Qed.

Lemma write_at_tail content tail bytes :
  write_at (content ++ tail) (length content) bytes = content ++ bytes ++ drop (length bytes) tail.
Proof.
  unfold write_at. rewrite take_app_length, drop_app_add. rewrite length_app.
  replace (length content - (length content + length tail)) with 0 by lia. done.
Qed.

(** A store whose file holds the entries, and whose position is behind them. *)
Definition holds (store : Store) (disk : Disk) (magic : list N) (cs : list C) : Prop :=
  magic_len store = length magic ∧ disk !! db_file store = Some (magic ++ entries cs) ∧
  db_pos store = length (magic ++ entries cs).

Definition not_empty (c : C) : Prop := merge_is_empty c = false.
#[export] Instance not_empty_dec c : Decision (not_empty c).
Proof. unfold not_empty. apply _. Defined.

Lemma append_holds store disk magic cs c :
  holds store disk magic cs →
  holds (store_append store disk c).1 (store_append store disk c).2 magic (cs ++ filter not_empty [c]) ∧
  db_file (store_append store disk c).1 = db_file store.
Proof.
  intros (Hm & Hdisk & Hpos). unfold store_append. rewrite filter_cons, filter_nil.
  destruct (decide (not_empty c)) as [Hc|Hc%not_false_is_true].
  - unfold holds. rewrite Hc, entries_snoc. cbn [fst snd]. split; [|done]. split_and!; [done| |].
    + cbn [db_file]. rewrite lookup_insert_eq, Hdisk. cbn [from_option id]. rewrite Hpos, write_at_end.
      by rewrite (assoc_L (++)).
    + cbn [db_pos]. rewrite Hpos, !length_app. lia.
  - rewrite Hc, app_nil_r. done.
Qed.

Lemma append_all_holds store disk magic cs cs' :
  holds store disk magic cs →
  holds (store_append_all store disk cs').1 (store_append_all store disk cs').2 magic (cs ++ filter not_empty cs') ∧
  db_file (store_append_all store disk cs').1 = db_file store.
Proof.
  revert store disk cs. induction cs' as [|c cs' IH]; intros store disk cs Hs.
  - by rewrite filter_nil, app_nil_r.
  - unfold store_append_all. cbn [foldl]. destruct (append_holds store disk magic cs c Hs) as [Hs1 Hf1].
    destruct (store_append store disk c) as [store1 disk1] eqn:H1. cbn [fst snd] in *.
    destruct (IH store1 disk1 _ Hs1) as [Hs2 Hf2]. unfold store_append_all in Hs2, Hf2. rewrite H1.
    split; [|by rewrite Hf2]. replace (c :: cs') with ([c] ++ cs') by done. by rewrite filter_app, (assoc_L (++)).
Qed.

Lemma create_holds magic file_path disk disk' store :
  store_create magic file_path disk = (disk', Ok store) → holds store disk' magic [] ∧ db_file store = file_path.
Proof.
  unfold store_create. destruct (disk !! file_path); [done|]. intros [= <- <-]. split; [|done].
  unfold holds. cbn. by rewrite lookup_insert_eq, app_nil_r.
Qed.

(** ** What the store promises *)

(** C37. What was appended is loaded: a store that was created and given change
    sets one after the other loads as their merge in that order, the empty
    ones left out, and goes on behind the last entry. *)
Theorem store_roundtrip magic file_path disk disk1 store cs disk2 store2 :
  store_create magic file_path disk = (disk1, Ok store) → store_append_all store disk1 cs = (store2, disk2) →
  ∃ store3, store_load magic file_path disk2 = Some (Ok (store3, aggregated_of (filter not_empty cs))) ∧
    holds store3 disk2 magic (filter not_empty cs) ∧ store3 = store2.
Proof.
  intros Hcreate Happend. destruct (create_holds _ _ _ _ _ Hcreate) as [Hs Hf].
  destruct (append_all_holds store disk1 magic [] cs Hs) as [Hs2 Hf2]. rewrite Happend in Hs2, Hf2. cbn in Hs2, Hf2.
  pose proof Hs2 as (Hm & Hdisk & Hpos). rewrite Hf2, Hf in Hdisk. destruct deserialize_nil as (e & Hd & He).
  exists store2. split_and!; [|done|done].
  rewrite (load_file magic file_path disk2 (filter not_empty cs) [] e 0); [|by rewrite app_nil_r|done].
  unfold at_rest. rewrite He. cbn [andb Nat.eqb]. do 3 f_equal. destruct store2 as [m f p]. cbn in *. by subst.
Qed.

(** C36. A write that was cut short loses nothing but itself: whatever part of the
    last entry has reached the file, all entries before it are recovered, as
    the loaded change set when the entry is missing or complete and as the
    dump of the error in between; appending the dump to a new store makes it
    load again. *)
Theorem store_survives_torn_write magic file_path disk cs c n :
  disk !! file_path = Some (magic ++ entries cs ++ take n (serialize c)) →
  ∃ r, store_load magic file_path disk = Some r ∧
    if bool_decide (n = 0) then ∃ store, r = Ok (store, aggregated_of cs)
    else if bool_decide (n < length (serialize c))
    then ∃ e, r = Err (mkStoreErrorWithDump (aggregated_of cs) (StoreBincode e)) ∧
      ∀ dump new_path disk1 store, aggregated_of cs = Some dump → not_empty dump →
        store_create magic new_path disk = (disk1, Ok store) →
        ∃ store2, store_load magic new_path (store_append store disk1 dump).2 = Some (Ok (store2, Some dump))
    else ∃ store, r = Ok (store, aggregated_of (cs ++ [c])).
Proof.
  intros Hdisk. destruct deserialize_nil as (e0 & Hd0 & He0).
  destruct (decide (n = 0)) as [->|Hn]; [|destruct (decide (n < length (serialize c))) as [Hlt|Hge]].
  - rewrite bool_decide_eq_true_2 by done. cbn [take] in Hdisk.
    rewrite (load_file magic file_path disk cs [] e0 0) by done. unfold at_rest. rewrite He0.
    eexists. split; [done|]. by eexists.
  - rewrite bool_decide_eq_false_2, bool_decide_eq_true_2 by done.
    destruct (deserialize_cut c n Hlt) as (e & k & Hd).
    rewrite (load_file magic file_path disk cs _ e k Hdisk Hd).
    assert (at_rest e k = false) as ->.
    { unfold at_rest. destruct (is_unexpected_eof e) eqn:He; [|done].
      pose proof (deserialize_eof _ _ _ Hd He) as Hk. cbn [andb]. apply Nat.eqb_neq.
      assert (take n (serialize c) ≠ []) as Hne; [|specialize (Hk Hne); lia].
      intros Hnil%(f_equal length). rewrite length_take in Hnil. cbn in Hnil. lia. }
    eexists. split; [done|]. exists e. split; [done|]. intros dump new_path disk1 store Hagg Hdump Hcreate.
    destruct (create_holds _ _ _ _ _ Hcreate) as [Hs Hf].
    destruct (append_holds store disk1 magic [] dump Hs) as [(_ & Hdisk1 & _) Hf1].
    rewrite Hf1, Hf, filter_cons, decide_True, filter_nil in Hdisk1 by done. cbn [app] in Hdisk1.
    rewrite (load_file magic new_path _ [dump] [] e0 0); [|by rewrite app_nil_r|done].
    unfold at_rest. rewrite He0. by eexists.
  - rewrite !bool_decide_eq_false_2 by done. rewrite take_ge in Hdisk by lia.
    rewrite (load_file magic file_path disk (cs ++ [c]) [] e0 0); [|by rewrite app_nil_r, entries_snoc|done].
    unfold at_rest. rewrite He0. eexists. split; [done|]. by eexists.
Qed.

(** A live store that dumps a damaged file goes on where the damage begins: what
    is appended next is found again. *)
Lemma append_over_damage store disk magic cs tail e n c :
  magic_len store = length magic → disk !! db_file store = Some (magic ++ entries cs ++ tail) →
  deserialize tail = DecodeErr e n → at_rest e n = false →
  ∃ store1, store_dump store disk = Some (store1, Err (mkStoreErrorWithDump (aggregated_of cs) (StoreBincode e))) ∧
    (not_empty c → (store_append store1 disk c).2 !! db_file store =
      Some (magic ++ entries (cs ++ [c]) ++ drop (length (serialize c)) tail)).
Proof.
  intros Hm Hdisk Hd Hrest. rewrite (dump_file store disk magic cs tail e n Hm Hdisk Hd), Hrest.
  eexists. split; [done|]. intros Hc. unfold store_append. rewrite Hc. cbn [fst snd db_file db_pos].
  rewrite lookup_insert_eq, Hdisk. cbn [from_option id].
  rewrite (assoc_L (++) magic), write_at_tail, entries_snoc. by rewrite !(assoc_L (++)).
Qed.

Lemma load_checks magic file_path disk :
  (disk !! file_path = None → store_load magic file_path disk = Some (Err (mkStoreErrorWithDump None (StoreIo NotFound)))) ∧
  (∀ content, disk !! file_path = Some content → length content < length magic →
    store_load magic file_path disk = Some (Err (mkStoreErrorWithDump None (StoreIo UnexpectedEof)))) ∧
  (∀ content, disk !! file_path = Some content → length magic ≤ length content → take (length magic) content ≠ magic →
    store_load magic file_path disk =
      Some (Err (mkStoreErrorWithDump None (InvalidMagicBytes (take (length magic) content) magic)))).
Proof.
  unfold store_load. split_and!; [by intros ->|intros content -> Hlt|intros content -> Hle Hne].
  - by rewrite (proj2 (Nat.ltb_lt _ _) Hlt).
  - rewrite (proj2 (Nat.ltb_ge _ _) Hle). by rewrite decide_True.
Qed.
End store.

(** ** A store of sets

    Sets of numbers, written as their size and their elements; a store of three
    of them, and the same file with its last entry torn. *)

#[export] Instance set_bincode : Bincode (gset N) := {
  ErrorKind := unit;
  is_unexpected_eof _ := true;
  serialize s := N.of_nat (length (set_iter s)) :: set_iter s;
  deserialize l :=
    match l with
    | [] => DecodeErr tt 0
    | n :: rest =>
      if (n <=? N.of_nat (length rest))%N
      then DecodeOk (list_to_set (take (N.to_nat n) rest)) (S (N.to_nat n))
      else DecodeErr tt (S (length rest))
    end;
}.

#[export] Instance set_bincode_laws : BincodeLaws (gset N).
Proof.
  split; cbn [serialize deserialize set_bincode is_unexpected_eof].
  - intros s rest. cbn [app]. destruct (N.leb_spec (N.of_nat (length (set_iter s))) (N.of_nat (length (set_iter s ++ rest))));
      [|rewrite length_app in *; lia].
    rewrite Nat2N.id, take_app_length. f_equal. apply set_eq. intros x.
    by rewrite elem_of_list_to_set, elem_of_set_iter.
  - intros [|n rest] c k; [done|]. destruct (N.leb_spec n (N.of_nat (length rest))); [|done].
    intros [= _ <-]. cbn [length]. lia.
  - by exists tt.
  - intros [|n rest] [] k; [done|]. destruct (N.leb_spec n (N.of_nat (length rest))); [done|].
    intros [= <-] _ _. lia.
  - intros s [|n] Hn; cbn [take length] in *; [by eexists _, _|].
    destruct (N.leb_spec (N.of_nat (length (set_iter s))) (N.of_nat (length (take n (set_iter s))))) as [Hle|];
      [|by eexists _, _].
    rewrite length_take in Hle. lia.
Qed.

Definition sample_magic : list N := [98; 100; 107]%N.
Definition sample_sets : list (gset N) := [{[1%N]}; ∅; {[2%N; 3%N]}].

Lemma store_roundtrip_witness :
  ∃ store, store_load sample_magic 7%N (store_append_all (mkStore 3 7%N 3) {[7%N := sample_magic]} sample_sets).2 =
    Some (Ok (store, Some ({[1%N; 2%N; 3%N]} : gset N))).
Proof.
  destruct (store_roundtrip sample_magic 7%N ∅ {[7%N := sample_magic]} (mkStore 3 7%N 3) sample_sets
    (store_append_all (mkStore 3 7%N 3) {[7%N := sample_magic]} sample_sets).2
    (store_append_all (mkStore 3 7%N 3) {[7%N := sample_magic]} sample_sets).1) as (store & Hload & _).
  - reflexivity.
  - apply surjective_pairing.
  - exists store. rewrite Hload. reflexivity.
Defined.

(** The last set has reached the file with two of its three bytes. *)
Lemma store_survives_torn_write_witness :
  ∃ e, store_load sample_magic 7%N {[7%N := [98; 100; 107; 1; 1; 2; 2]%N]} =
    Some (Err (mkStoreErrorWithDump (Some ({[1%N]} : gset N)) e)).
Proof.
  destruct (store_survives_torn_write sample_magic 7%N {[7%N := [98; 100; 107; 1; 1; 2; 2]%N]} [{[1%N]}]
    ({[2%N; 3%N]} : gset N) 2) as (r & Hload & Hr); [reflexivity|].
  change (∃ e, r = Err (mkStoreErrorWithDump (aggregated_of [({[1%N]} : gset N)]) (StoreBincode e)) ∧
    ∀ dump new_path disk1 store, aggregated_of [({[1%N]} : gset N)] = Some dump → not_empty dump →
      store_create sample_magic new_path {[7%N := [98; 100; 107; 1; 1; 2; 2]%N]} = (disk1, Ok store) →
      ∃ store2, store_load sample_magic new_path (store_append store disk1 dump).2 = Some (Ok (store2, Some dump))) in Hr.
  destruct Hr as (e & -> & _). exists (StoreBincode e). exact Hload.
Defined.
